(* ===== verification/_CoqProject ===== *)
-Q . S2P
Prelude.v
RustStd.v
SockAddr.v
Proto.v
ServerConfig.v
Channel.v
ServerMetrics.v
ServerHttp.v
ServerSession.v
SessionTrans.v
SessionDelivery.v
SessionStreams.v
SessionInbound.v
SessionClose.v
SessionHttp.v
SessionReplies.v
SessionWitness.v
ServerHub.v
HubSessions.v
HubRegistry.v
HubTermination.v
HubMetrics.v
ServerMain.v
HubScrape.v
HubWitness.v
MetricsWitness.v
ClientConfig.v
Oneshot.v
ClientProxy.v
ProxyInvariant.v
ProxyTermination.v
ProxyWitness.v
ClientSession.v
ClientPumps.v
ClientRoutes.v
ClientStreams.v
ClientWitness.v
Tunnel.v
TunnelStreams.v
TunnelRefinement.v
TunnelWeight.v
TunnelIdle.v
TunnelRequests.v
TunnelDeadlock.v
TunnelWitness.v
HttpTunnel.v
HttpProgress.v
HttpTunnelWitness.v
ClientMain.v
SysmlValidator.v
