(* ===== verification/Prelude.v ===== *)
(** * OpenSpoke: the tunnel and the validator

    OpenSpoke connects application and cluster "spokes" behind a firewall to a hub.
    Its programs of its own are in Rust, and this library models them:

    - [hub/images/tunnel-server/src/main.rs], the hub side of the tunnel: it accepts
      one gRPC stream per spoke, authenticates it, opens a TCP listener per
      configured port and multiplexes the accepted connections over the stream; for
      an application spoke it forwards HTTP requests to the hub kernel;
    - [spoke/images/tunnel-client/src/main.rs], the spoke side: it dials the hub,
      opens the target a stream names, pumps bytes both ways, offers a local HTTP
      proxy to the hub kernel, and reconnects with backoff;
    - [hub/images/sysml-validator/src/main.rs], an HTTP service that checks SysML.

    The two sides of the tunnel exchange the frames of [proto/tunnel.proto].

    *** How a program is modelled

    Pure code is a function on bytes, maps and records; errors are values of
    [result] with the texts of the source.  Concurrent code (tokio tasks around
    shared state) is a transition system given by an executable step function: each
    task is a program counter whose steps go from one await point to the next, a
    label says which task runs and what its environment (sockets, the gRPC stream,
    timers, the HTTP client) answered, and every observable action - a frame queued
    or received, bytes read or written, a metric call - is appended to a log.  A
    theorem about reachable states thus covers every interleaving.  [exec] runs a
    list of labels, which is how the witnesses reach their states.

    *** The files

    Shared: [Prelude] (bytes, [result], machine integers, transition systems),
    [RustStd] and [SockAddr] (the standard library functions the programs call),
    [Proto] (the messages), [Channel] and [Oneshot] (tokio's channels as type
    classes with laws, and a reference instance of each).

    tunnel-server:
    - [ServerConfig]: [load_config], [parse_listen] (lines 44-235);
    - [ServerMetrics]: [struct Metrics] as calls in the log, and the projections of
      a session's log;
    - [ServerHttp]: the pure parts of [handle_http_request];
    - [ServerSession]: [struct SpokeSession], [accept_loop], both pumps,
      [recv_loop], [handle_http_request], one step function [sess_step];
    - [SessionTrans], [SessionDelivery], [SessionStreams], [SessionInbound],
      [SessionClose], [SessionHttp], [SessionReplies]: the invariants of a session,
      in this order;
    - [ServerHub]: [TunnelSvc::connect], [handle_connection], [cleanup_session] of
      any number of connections over one registry, step function [hub_step], which
      runs [sess_step] for the sessions;
    - [HubSessions], [HubRegistry], [HubTermination]: every session of the hub is a
      reachable session; the registry and the [connected] gauge; the handler of a
      connection comes to an end;
    - [HubMetrics]: what [Metrics::new] registers, the series of each call, [encode];
      what the counters of a session count; the prometheus crate is the class
      [Prometheus]: a state with registration, calls and [gather], and their laws;
    - [ServerMain]: [main] and the metrics endpoint (lines 1037-1118);
    - [HubScrape]: the samples of /metrics as sums over the connections and sessions
      of the hub;
    - [SessionWitness], [HubWitness], [MetricsWitness]: concrete runs.

    tunnel-client:
    - [ClientConfig]: [load_config] and the frame helpers;
    - [ClientProxy], [ProxyInvariant], [ProxyTermination]: [SharedProxyState] and
      [handle_http_proxy], step function [proxy_step], their invariant, and the
      bound on a handler's steps;
    - [ClientSession]: the frame loop of [run_session_impl] and [run_stream], step
      function [client_step];
    - [ClientPumps], [ClientRoutes], [ClientStreams]: the invariant of one pump, the
      routing of frames, the properties;
    - [ClientMain]: the endpoint of a session, the listener of the HTTP proxy
      ([run_http_proxy]) and the reconnect loop of [main];
    - [ProxyWitness], [ClientWitness]: concrete runs.

    The two sides together:
    - [Tunnel]: a session of the hub and a session of the client joined by the two
      directions of the stream, step function [tunnel_step]; tonic's transport is a
      queue per direction that either side may lose;
    - [TunnelStreams]: which pump serves which connection, and the bytes from end to
      end, from the invariants of both programs;
    - [TunnelRefinement]: the specification, a set of duplex pipes ([duplex_move],
      [pipes_step]), the abstraction [pipe_of] and the refinement;
    - [TunnelWeight], [TunnelIdle], [TunnelRequests], [TunnelDeadlock]: progress of
      the tunnel under back-pressure: a measure of the work left, the states with
      none, what has become of a request by then, and the one jam there is;
    - [HttpTunnel]: the client's proxy, its sessions and the hub's sessions of one
      spoke, from the challenge on, step function [system_step]: the proxy takes
      [proxy_step]s, each session [tunnel_step]s, and queuing a request or resolving
      a response is one step of both;
    - [HttpProgress]: the steps that serve one handler of the proxy ([serving_step]),
      and that they never stop before its caller is answered;
    - [TunnelWitness], [HttpTunnelWitness]: concrete runs.

    sysml-validator: [SysmlValidator], the whole service.

    *** What the theorems show

    - Authentication and authority: every session has presented the token of its
      spoke id ([sessions_authenticated], [handshake_decides], [handshake_agrees]);
      only an application spoke reaches the kernel, on an allowlisted path and under
      its own identity ([kernel_calls_authorised], [forward_headers_no_spoof],
      [forward_call_faithful]); the client connects only to configured targets
      ([dials_configured]).
    - Delivery, in both programs and both directions: bytes arrive in order, none
      invented, duplicated or skipped ([inbound_bytes_contiguous],
      [outbound_frames_shape], [pump_bytes_from_open], [pump_frames_shape]), under
      distinct ids ([stream_ids_distinct], [proxy_ids_distinct]).
    - End to end: the composed programs refine one duplex pipe per accepted
      connection ([tunnel_refines]); what reaches a target is a prefix of what was
      read at the hub and conversely ([tunnel_to_target], [tunnel_from_target]), all
      of it once an open stream is quiet ([tunnel_no_loss]); a local HTTP caller is
      answered with what the hub made of its own request, or with an error of the
      proxy's own ([proxied_request_answered]).
    - Termination: the handler of a connection and the handler of a proxied request
      take a bounded number of steps and are stuck only where the code waits for
      its peer ([handle_connection_terminates], [handler_terminates]).
    - Progress: whatever channels are full, a tunnel that is up and belongs to an
      application spoke is never jammed; it drains in a bounded number of steps
      ([tunnel_drains]) and has then answered every request
      ([tunnel_answers_requests]); in the whole system, a local caller whose handler
      holds the sender of such a session gets the hub's answer to its own request
      ([caller_is_answered]).  For a cluster spoke that is sent a request the two
      frame loops and a pump can wait for each other for good ([tunnel_jam_persists]).
    - Requests and responses: one response per request ([http_responses_match_requests]),
      made for that request ([http_responses_answer_requests]),
      to the right caller ([proxy_answers_own_request], [proxy_waiting_is_pending],
      [hub_answers_reach_caller], [frame_loop_replies]).
    - Registry, gauges and the end of a session ([registry_no_zombie],
      [connected_gauge_accounting], [streams_gauge_accounting],
      [half_close_is_full_close], [closed_session_accepts_at_most_once]); the
      counters and the scrape ([session_counters], [metrics_registered],
      [scrape_reports_hub]).
    - Start-up ([server_starts], [session_endpoint]) and configuration: exact acceptance conditions, what an accepted configuration
      guarantees, and round trips of the documented formats.
    - Reconnecting ([reconnect_schedule]) and the validator ([validate_ok_iff],
      [body_limit], [routes_and_statuses]).
    - Behaviour that departs from what comments or documents say is proved as it is:
      [displacement_leaks_gauge], [displacement_race],
      [displaced_session_still_forwards], [blocked_listener_survives_close],
      [late_request_misses_flush], [request_overtakes_handshake],
      [idle_pump_outlives_session], [clean_end_reconnects_at_once],
      [tunnel_jam_persists].

    *** Where the documents say otherwise

    The theorems follow the code.  [docs/concepts/reverse-tunnel.md],
    [docs/concepts/application-spoke.md] and [proto/tunnel.proto] describe another
    authorisation: the kind of a spoke looked up in [spoke_clusters] on every
    request, three kinds, full access for cluster spokes, and path families such as
    /core/chat/*.  The code takes the kind from the id in TUNNEL_SPOKES when it
    starts ([load_server_config_ok]), knows two kinds, refuses every HTTP request of
    a cluster spoke ([kernel_calls_authorised], [cluster_spoke_never_calls],
    [http_responses_answer_requests]) and compares paths exactly with eight defaults
    or with TUNNEL_ALLOWED_PATHS ([documented_paths_refused]).  The documents also
    name other metrics than [registrations], a target address where the client
    takes a name ([dials_configured]), status 0 where a refusal has 403, and
    half-closes, which neither program performs ([half_close_is_full_close]); and the example deployment
    gives a HUB_URL with a scheme, which the client prefixes with another
    ([hub_url_with_scheme]).

    *** Bounds

    Stream ids are 64-bit and wrap ([fetch_add1]); the theorems that need distinct
    ids speak of runs in which the counter has not wrapped ([sess_step_nowrap],
    [hub_step_nowrap], [proxy_step_nowrap]: fewer than 2^64 ids from 0, or 2^63 from
    2^63).  The tunnel begins when the hub has taken the client's first frame.
    Progress is stated for a transport that holds at most [cap] frames per
    direction, for every positive [cap]; [weight] and [effort] bound the number
    of steps without new input.  The run that reaches the jam uses the channel bounds of the source
    and 128 frames in transport.  Fuel occurs only in printing numbers ([show_fuel],
    [show_hex_fuel]), where the number of binary digits is enough for the decimal or
    hexadecimal ones, as [parse_digits_show] proves for the decimal printer.

    *** What is not modelled

    The wire encoding, TLS, HTTP/2 and the other crates are parameters with their
    documented laws; time appears only as timeouts that may fire and as the age of
    a session.  axum's routing is modelled as far as the routes of the programs go;
    its own replies, the text format of the metrics, sockets and the set-up of logging
    are parameters or left out.  The two build scripts run the protobuf compiler.
    The rest of the repository (Python and Go programs, the web interfaces,
    manifests) is glue in other languages. *)
From stdpp Require Export base tactics numbers list gmap option fin_maps.
From Stdlib Require Export Strings.String Strings.Byte.

(** Bytes: Rust's [u8].  A Rust [String] is the list of its UTF-8 bytes, and a
    [Vec<u8>] is the same list, so [as_bytes], [into_bytes] and [to_vec] are
    the identity of the model. *)
#[export] Instance byte_eq_decision : EqDecision byte := Byte.byte_eq_dec.

#[export] Program Instance byte_countable : Countable byte :=
  inj_countable Byte.to_N Byte.of_N _.
Next Obligation. intros b. apply Byte.of_to_N. Qed.

Abbreviation bytes := (list byte).

Declare Scope openspoke_scope.
Delimit Scope openspoke_scope with os.

(** A source string literal. *)
Definition lit (s : string) : bytes := String.list_byte_of_string s.
Arguments lit s%_string_scope : simpl never.

Open Scope openspoke_scope.
(* [length], [String] and the like are those of lists. *)
Abbreviation length := List.length.

(** ** Fallible code: Rust's [Result<T, E>] and the [?] operator *)
Inductive result (A E : Type) : Type :=
| Ok (a : A)
| Err (e : E).
Arguments Ok {A E} a.
Arguments Err {A E} e.

Definition result_bind {A B E} (r : result A E) (k : A → result B E) : result B E :=
  match r with Ok a => k a | Err e => Err e end.

Notation "'let?' x ':=' r 'in' k" := (result_bind r (λ x, k))
  (at level 10, x pattern, r at level 100, k at level 200,
   format "'[v' 'let?'  x  ':='  r  'in' '//' k ']'") : openspoke_scope.

Definition map_err {A E F} (f : E → F) (r : result A E) : result A F :=
  match r with Ok a => Ok a | Err e => Err (f e) end.

Definition is_ok {A E} (r : result A E) : bool :=
  match r with Ok _ => true | Err _ => false end.

(** ** Machine integers: unsigned values are [N], wrapped where the code wraps *)
Definition u16_max : N := 65535.
Definition u64_modulus : N := 2 ^ 64.

Definition wrap_u64 (n : N) : N := (n mod u64_modulus)%N.

(** [AtomicU64::fetch_add(1)]: returns the old value, stores the wrapped sum. *)
Definition fetch_add1 (counter : N) : N * N := (counter, wrap_u64 (counter + 1)).

(** ** Labelled transition systems with an executable step function *)
Section step_system.
Context {state label : Type} (step : label → state → option state).

Fixpoint exec (ls : list label) (s : state) : option state :=
  match ls with
  | [] => Some s
  | l :: ls' => match step l s with Some s' => exec ls' s' | None => None end
  end.

Inductive reachable (init : state → Prop) : state → Prop :=
| reachable_init s : init s → reachable init s
| reachable_step l s s' : reachable init s → step l s = Some s' → reachable init s'.

End step_system.
Arguments reachable {state label} step init s.

(** ** Tactics of the development *)

(** Break the matches and option binds of an executable step hypothesis. *)
Ltac step_case H :=
  repeat (case_match; simplify_eq/=; try discriminate H);
  simplify_eq/=.

Ltac inv_step H :=
  repeat first
    [ discriminate H
    | progress simplify_eq/=
    | match type of H with
      | context [match ?x with _ => _ end] => destruct x eqn:?
      end ].

Create HintDb openspoke.

(** ** Shared lemmas *)
Lemma result_bind_ok {A B E} (r : result A E) (k : A → result B E) y :
  result_bind r k = Ok y ↔ ∃ x, r = Ok x ∧ k x = Ok y.
Proof. destruct r; simpl; naive_solver. Qed.

Lemma exec_app {state label} (step : label → state → option state) ls1 ls2 s :
  exec step (ls1 ++ ls2) s = exec step ls1 s ≫= exec step ls2.
Proof.
  revert s; induction ls1 as [|l ls1 IH]; intros s; simpl; [done|].
  destruct (step l s); [apply IH|done].
Qed.

(** A rank that every step keeps and every step of one task lowers bounds the
    number of steps of that task in any run. *)
Definition own_steps {label} (mine : label → bool) (ls : list label) : nat :=
  length (List.filter mine ls).

Lemma own_steps_rank {state label} (step : label → state → option state) (mine : label → bool)
    (rank : state → nat) ls s s' :
  (∀ l s s', step l s = Some s' → (if mine l then 1 else 0) + rank s' ≤ rank s) →
  exec step ls s = Some s' → own_steps mine ls + rank s' ≤ rank s.
Proof.
  intros Hrank. revert s. induction ls as [|l ls IH]; intros s He; simplify_eq/=; [done|].
  destruct (step l s) as [s1|] eqn:HS; [|done]. pose proof (Hrank _ _ _ HS). specialize (IH _ He).
  unfold own_steps in *. simpl. destruct (mine l); simpl; lia.
Qed.

Lemma reachable_exec {state label} (step : label → state → option state) init ls s s' :
  reachable step init s → exec step ls s = Some s' → reachable step init s'.
Proof.
  revert s; induction ls as [|l ls IH]; intros s Hr He; simplify_eq/=; [done|].
  destruct (step l s) as [s1|] eqn:Hs; [|done].
  eapply IH; [|done]. by eapply reachable_step.
Qed.

Lemma reachable_invariant {state label} (step : label → state → option state)
    (init I : state → Prop) :
  (∀ s, init s → I s) →
  (∀ l s s', I s → step l s = Some s' → I s') →
  ∀ s, reachable step init s → I s.
Proof. intros Hi Hs s. induction 1; eauto. Qed.

Lemma reachable_invariant_strong {state label} (step : label → state → option state)
    (init I : state → Prop) :
  (∀ s, init s → I s) →
  (∀ l s s', reachable step init s → I s → step l s = Some s' → I s') →
  ∀ s, reachable step init s → I s.
Proof. intros Hi Hs s. induction 1; eauto. Qed.

Lemma mjoin_app_bytes (l1 l2 : list bytes) : mjoin (l1 ++ l2) = mjoin l1 ++ mjoin l2.
Proof. induction l1; simpl; [done|]. by rewrite IHl1, app_assoc. Qed.

(** A sum over a finite map. *)
Definition msum {A} (f : A → nat) (m : gmap nat A) : nat := map_fold (λ _ x n, f x + n) 0 m.

Section msum.
Context {A : Type} (f : A → nat).
Implicit Types (m : gmap nat A).

Lemma msum_insert_new k x m : m !! k = None → msum f (<[k:=x]> m) = f x + msum f m.
Proof. intros Hk. unfold msum. by rewrite map_fold_insert_L by (done || (intros; lia)). Qed.

Lemma msum_insert k x y m : m !! k = Some x → msum f (<[k:=y]> m) + f x = msum f m + f y.
Proof.
  intros Hk. rewrite <-(insert_delete_id m k x Hk) at 2. rewrite <-insert_delete_eq.
  rewrite !msum_insert_new by apply lookup_delete_eq. lia.
Qed.
End msum.

Lemma wrap_u64_small n : (n < u64_modulus)%N → wrap_u64 n = n.
Proof. apply N.mod_small. Qed.

Lemma wrap_u64_lt n : (wrap_u64 n < u64_modulus)%N.
Proof. by apply N.mod_lt. Qed.

#[export] Hint Resolve wrap_u64_small wrap_u64_lt : openspoke.
