(* ===== verification/RustStd.v ===== *)
(** * The parts of Rust's standard library the program calls

    String slicing and splitting, [str::trim], ASCII case folding, and
    parsing and printing of numbers, as executable functions on UTF-8 byte
    strings, with the lemmas the configuration parsers need. *)
From S2P Require Import Prelude.

(** ** Bytes *)
Definition byte_val (b : byte) : N := Byte.to_N b.

Definition byte_eqb (a b : byte) : bool := bool_decide (a = b).

Definition in_range (lo hi : N) (b : byte) : bool :=
  ((lo <=? byte_val b) && (byte_val b <=? hi))%N.

Definition of_val (n : N) : byte := default x00 (Byte.of_N n).

(** [u8::to_ascii_lowercase] *)
Definition byte_to_ascii_lowercase (b : byte) : byte :=
  if in_range 65 90 b then of_val (byte_val b + 32) else b.

(** [str::to_ascii_lowercase] and [str::eq_ignore_ascii_case] *)
Definition to_ascii_lowercase (s : bytes) : bytes := byte_to_ascii_lowercase <$> s.

Definition eq_ignore_ascii_case (s t : bytes) : bool :=
  bool_decide (to_ascii_lowercase s = to_ascii_lowercase t).

(** ** Slicing, searching and splitting at an ASCII character *)
Fixpoint starts_with (p s : bytes) : bool :=
  match p, s with
  | [], _ => true
  | a :: p', b :: s' => byte_eqb a b && starts_with p' s'
  | _ :: _, [] => false
  end.

(** [s.find(c)] for an ASCII character [c]: the byte index. *)
Fixpoint find_byte (c : byte) (s : bytes) : option nat :=
  match s with
  | [] => None
  | b :: s' => if byte_eqb b c then Some 0 else S <$> find_byte c s'
  end.

(** [s.split(c)]: always at least one piece. *)
Fixpoint split_on (c : byte) (s : bytes) : list bytes :=
  match s with
  | [] => [[]]
  | b :: s' =>
      if byte_eqb b c then [] :: split_on c s'
      else match split_on c s' with
           | p :: ps => (b :: p) :: ps
           | [] => [[b]]
           end
  end.

(** [s.split_once(c)] *)
Fixpoint split_once (c : byte) (s : bytes) : option (bytes * bytes) :=
  match s with
  | [] => None
  | b :: s' =>
      if byte_eqb b c then Some ([], s')
      else match split_once c s' with
           | Some (l, r) => Some (b :: l, r)
           | None => None
           end
  end.

(** [s.rsplit_once(c)] *)
Definition rsplit_once (c : byte) (s : bytes) : option (bytes * bytes) :=
  match split_once c (rev s) with
  | Some (r, l) => Some (rev l, rev r)
  | None => None
  end.

(** [s.splitn(n, c)] *)
Fixpoint splitn (n : nat) (c : byte) (s : bytes) : list bytes :=
  match n with
  | 0 => []
  | 1 => [s]
  | S n' => match split_once c s with
            | Some (l, r) => l :: splitn n' c r
            | None => [s]
            end
  end.

(** ** [str::trim]: Unicode [White_Space], on the UTF-8 encoding *)
Definition ws1 (a : byte) : bool := in_range 9 13 a || byte_eqb a x20.
(* U+0085, U+00A0 *)
Definition ws2 (a b : byte) : bool := byte_eqb a xc2 && (byte_eqb b x85 || byte_eqb b xa0).
(* U+1680, U+2000-200A, U+2028, U+2029, U+202F, U+205F, U+3000 *)
Definition ws3 (a b c : byte) : bool :=
  (byte_eqb a xe1 && byte_eqb b x9a && byte_eqb c x80)
  || (byte_eqb a xe2 && byte_eqb b x80
      && (in_range 128 138 c || byte_eqb c xa8 || byte_eqb c xa9 || byte_eqb c xaf))
  || (byte_eqb a xe2 && byte_eqb b x81 && byte_eqb c x9f)
  || (byte_eqb a xe3 && byte_eqb b x80 && byte_eqb c x80).

(** Strip the leading whitespace characters, whose encodings [w2] and [w3]
    recognise byte by byte. *)
Fixpoint strip_ws (w2 : byte → byte → bool) (w3 : byte → byte → byte → bool)
    (s : bytes) : bytes :=
  match s with
  | a :: s1 =>
      if ws1 a then strip_ws w2 w3 s1
      else match s1 with
           | b :: s2 =>
               if w2 a b then strip_ws w2 w3 s2
               else match s2 with
                    | c :: s3 => if w3 a b c then strip_ws w2 w3 s3 else s
                    | [] => s
                    end
           | [] => s
           end
  | [] => []
  end.

Definition trim_start (s : bytes) : bytes := strip_ws ws2 ws3 s.
Definition trim_end (s : bytes) : bytes :=
  rev (strip_ws (λ a b, ws2 b a) (λ a b c, ws3 c b a) (rev s)).
Definition trim (s : bytes) : bytes := trim_end (trim_start s).

(** ** Numbers *)
(** [char::to_digit(radix)] *)
Definition to_digit (radix : N) (b : byte) : option N :=
  let v := byte_val b in
  let d :=
    if in_range 48 57 b then Some (v - 48)%N
    else if in_range 97 122 b then Some (v - 87)%N
    else if in_range 65 90 b then Some (v - 55)%N
    else None in
  match d with Some d => if (d <? radix)%N then Some d else None | None => None end.

(** [core::num::ParseIntError] with the messages of its [Display]. *)
Inductive parse_int_error := PieEmpty | PieInvalidDigit | PiePosOverflow.

Definition show_parse_int_error (e : parse_int_error) : bytes :=
  match e with
  | PieEmpty => lit "cannot parse integer from empty string"
  | PieInvalidDigit => lit "invalid digit found in string"
  | PiePosOverflow => lit "number too large to fit in target type"
  end.

(** The digit loop of [u16::from_str_radix]: the digit is checked first, then
    the checked multiplication and the checked addition. *)
Fixpoint parse_digits (max acc : N) (s : bytes) : result N parse_int_error :=
  match s with
  | [] => Ok acc
  | b :: s' =>
      match to_digit 10 b with
      | None => Err PieInvalidDigit
      | Some d =>
          if (max <? acc * 10)%N then Err PiePosOverflow
          else if (max <? acc * 10 + d)%N then Err PiePosOverflow
          else parse_digits max (acc * 10 + d) s'
      end
  end.

(** [str::parse::<u16>()] *)
Definition parse_u16 (s : bytes) : result N parse_int_error :=
  match s with
  | [] => Err PieEmpty
  | [b] => if byte_eqb b x2b || byte_eqb b x2d then Err PieInvalidDigit
           else parse_digits u16_max 0 s
  | b :: s' => if byte_eqb b x2b then parse_digits u16_max 0 s'
               else parse_digits u16_max 0 s
  end.

(** Decimal [Display] of an unsigned integer. *)
Definition digit_byte (d : N) : byte := of_val (48 + d).

Fixpoint show_fuel (fuel : nat) (n : N) : bytes :=
  match fuel with
  | 0 => []
  | S f => if (n <? 10)%N then [digit_byte n]
           else show_fuel f (n / 10) ++ [digit_byte (n mod 10)]
  end.

(* one digit per bit is more than enough *)
Definition show_N (n : N) : bytes := show_fuel (S (N.size_nat n)) n.

(** Joining pieces with a separator: the inverse of [split_on]. *)
Fixpoint join (c : byte) (ps : list bytes) : bytes :=
  match ps with
  | [] => []
  | [p] => p
  | p :: ps' => p ++ c :: join c ps'
  end.

(** ASCII graphic characters: what identifiers, ports and base64 tokens are
    made of; none of them is whitespace. *)
Definition graphic (b : byte) : Prop := in_range 33 126 b = true.

(** ** Lemmas *)
Lemma byte_eqb_true a b : byte_eqb a b = true ↔ a = b.
Proof. apply bool_decide_eq_true. Qed.

Lemma byte_eqb_refl a : byte_eqb a a = true.
Proof. by apply byte_eqb_true. Qed.

Lemma byte_eqb_false a b : byte_eqb a b = false ↔ a ≠ b.
Proof. apply bool_decide_eq_false. Qed.

Lemma byte_eqb_sym a b : byte_eqb a b = byte_eqb b a.
Proof. apply bool_decide_ext; naive_solver. Qed.

Lemma in_range_true lo hi b :
  in_range lo hi b = true ↔ (lo ≤ byte_val b ≤ hi)%N.
Proof. unfold in_range. rewrite andb_true_iff, !N.leb_le. done. Qed.

Lemma byte_val_bound b : (byte_val b ≤ 255)%N.
Proof. apply Byte.to_N_bounded. Qed.

Lemma of_val_val b : of_val (byte_val b) = b.
Proof. unfold of_val, byte_val. by rewrite Byte.of_to_N. Qed.

Lemma byte_val_inj a b : byte_val a = byte_val b → a = b.
Proof. intros H. by rewrite <-(of_val_val a), <-(of_val_val b), H. Qed.

Lemma byte_val_of_val n : (n < 256)%N → byte_val (of_val n) = n.
Proof.
  intros Hn. unfold of_val, byte_val.
  destruct (Byte.of_N n) as [b|] eqn:Hb; simpl.
  - by apply Byte.to_of_N.
  - apply Byte.of_N_None_iff in Hb. lia.
Qed.

Ltac byte_cases :=
  repeat match goal with
  | H : byte_eqb _ _ = true |- _ => apply byte_eqb_true in H; subst
  | H : byte_eqb _ _ = false |- _ => apply byte_eqb_false in H
  | |- context [byte_eqb ?a ?b] => destruct (byte_eqb a b) eqn:?
  end.

Lemma starts_with_prefix p s : starts_with p s = true ↔ p `prefix_of` s.
Proof.
  revert s; induction p as [|a p IH]; intros [|b s]; simpl.
  - split; [|done]. intros _. by exists [].
  - split; [|done]. intros _. by exists (b :: s).
  - split; [done|]. intros [k Hk]. done.
  - rewrite andb_true_iff, byte_eqb_true, IH. split.
    + intros [-> [k ->]]. by exists k.
    + intros [k Hk]; simplify_eq/=. split; [done|]. by exists k.
Qed.

Lemma find_byte_some c s i :
  find_byte c s = Some i →
  s = take i s ++ c :: drop (S i) s ∧ c ∉ take i s.
Proof.
  revert i; induction s as [|b s IH]; intros i Hi; simplify_eq/=.
  destruct (byte_eqb b c) eqn:Hb; simplify_eq/=.
  - apply byte_eqb_true in Hb as ->. split; [by rewrite drop_0|set_solver].
  - apply fmap_Some in Hi as (j & Hj & ->). apply byte_eqb_false in Hb.
    destruct (IH _ Hj) as [Hs Hn]. simpl. split; [by f_equal|set_solver].
Qed.

Lemma find_byte_none c s : find_byte c s = None ↔ c ∉ s.
Proof.
  induction s as [|b s IH]; simpl; [set_solver|].
  destruct (byte_eqb b c) eqn:Hb.
  - apply byte_eqb_true in Hb as ->. set_solver.
  - apply byte_eqb_false in Hb. rewrite fmap_None, IH. set_solver.
Qed.

Lemma find_byte_app c p s : c ∉ p → find_byte c (p ++ c :: s) = Some (length p).
Proof.
  induction p as [|b p IH]; intros Hp; simpl.
  - by rewrite byte_eqb_refl.
  - apply not_elem_of_cons in Hp as [Hb Hp].
    rewrite (proj2 (byte_eqb_false b c)) by done. by rewrite IH.
Qed.

Lemma split_on_app c p s : c ∉ p → split_on c (p ++ c :: s) = p :: split_on c s.
Proof.
  induction p as [|b p IH]; intros Hp; simpl.
  - by rewrite byte_eqb_refl.
  - apply not_elem_of_cons in Hp as [Hb Hp].
    rewrite (proj2 (byte_eqb_false b c)) by done. by rewrite IH.
Qed.

Lemma split_on_none c p : c ∉ p → split_on c p = [p].
Proof.
  induction p as [|b p IH]; intros Hp; simpl; [done|].
  apply not_elem_of_cons in Hp as [Hb Hp].
  rewrite (proj2 (byte_eqb_false b c)) by done. by rewrite IH.
Qed.

Lemma split_on_join c ps :
  ps ≠ [] → Forall (λ p, c ∉ p) ps → split_on c (join c ps) = ps.
Proof.
  intros Hne Hps. induction Hps as [|p ps Hp Hps IH]; [done|].
  destruct ps as [|q ps]; simpl.
  - by apply split_on_none.
  - rewrite split_on_app by done. f_equal. by apply IH.
Qed.

Lemma split_on_pieces c s : Forall (λ p, c ∉ p) (split_on c s).
Proof.
  induction s as [|b s IH]; simpl; [by constructor; [set_solver|]|].
  destruct (byte_eqb b c) eqn:Hb; [constructor; [set_solver|done]|].
  apply byte_eqb_false in Hb.
  destruct (split_on c s) as [|p ps]; constructor.
  - set_solver.
  - done.
  - apply Forall_cons in IH as [??]. set_solver.
  - by apply Forall_cons in IH as [??].
Qed.

Lemma split_once_app c p s : c ∉ p → split_once c (p ++ c :: s) = Some (p, s).
Proof.
  induction p as [|b p IH]; intros Hp; simpl.
  - by rewrite byte_eqb_refl.
  - apply not_elem_of_cons in Hp as [Hb Hp].
    rewrite (proj2 (byte_eqb_false b c)) by done. by rewrite IH.
Qed.

Lemma split_once_some c s l r :
  split_once c s = Some (l, r) → s = l ++ c :: r ∧ c ∉ l.
Proof.
  revert l r; induction s as [|b s IH]; intros l r H; simplify_eq/=.
  destruct (byte_eqb b c) eqn:Hb; simplify_eq/=.
  - apply byte_eqb_true in Hb as ->. split; [done|set_solver].
  - apply byte_eqb_false in Hb.
    destruct (split_once c s) as [[l' r']|] eqn:Hs; simplify_eq/=.
    destruct (IH _ _ eq_refl) as [-> Hn]. split; [done|set_solver].
Qed.

Lemma split_once_none c s : split_once c s = None ↔ c ∉ s.
Proof.
  induction s as [|b s IH]; simpl; [set_solver|].
  destruct (byte_eqb b c) eqn:Hb.
  - apply byte_eqb_true in Hb as ->. set_solver.
  - apply byte_eqb_false in Hb.
    destruct (split_once c s) as [[l r]|].
    + split; [done|]. intros Hn. assert (c ∉ s) by set_solver. naive_solver.
    + set_solver.
Qed.

Lemma graphic_not_ws1 b : graphic b → ws1 b = false.
Proof.
  unfold graphic, ws1. rewrite in_range_true. intros Hb.
  apply orb_false_iff; split.
  - apply not_true_iff_false. rewrite in_range_true. lia.
  - apply byte_eqb_false. intros ->. revert Hb. vm_compute. naive_solver.
Qed.

Lemma graphic_byte_neq b v : graphic b → (126 < byte_val v)%N → byte_eqb b v = false.
Proof.
  unfold graphic. rewrite in_range_true, byte_eqb_false. intros Hb Hv ->. lia.
Qed.

Lemma graphic_not_ws2 a b : (graphic a ∨ graphic b) → ws2 a b = false.
Proof.
  unfold ws2. intros [H|H].
  - by rewrite (graphic_byte_neq a).
  - rewrite (graphic_byte_neq b x85), (graphic_byte_neq b xa0) by done. apply andb_false_r.
Qed.

Lemma graphic_not_ws3 a b c : (graphic a ∨ graphic c) → ws3 a b c = false.
Proof.
  unfold ws3. intros [H|H].
  - by rewrite !(graphic_byte_neq a).
  - rewrite !(graphic_byte_neq c) by done.
    assert (in_range 128 138 c = false) as ->.
    { apply not_true_iff_false. unfold graphic in H. rewrite in_range_true in *. lia. }
    by rewrite !andb_false_r.
Qed.

Lemma strip_ws_graphic w2 w3 a s :
  graphic a → (∀ b, w2 a b = false) → (∀ b c, w3 a b c = false) →
  strip_ws w2 w3 (a :: s) = a :: s.
Proof.
  intros Ha H2 H3. simpl. rewrite graphic_not_ws1 by done.
  destruct s as [|b s]; [done|]. rewrite H2. destruct s as [|c s]; [done|]. by rewrite H3.
Qed.

(** A string that starts and ends with a graphic character is its own trim. *)
Lemma trim_graphic a s b :
  graphic a → last (a :: s) = Some b → graphic b → trim (a :: s) = a :: s.
Proof.
  intros Ha Hl Hb. unfold trim, trim_start, trim_end.
  rewrite strip_ws_graphic; [|done|intros; apply graphic_not_ws2; auto
    |intros; apply graphic_not_ws3; auto].
  apply last_Some in Hl as [l ->]. rewrite rev_app_distr; simpl.
  rewrite graphic_not_ws1 by done.
  destruct (rev l) as [|c r] eqn:Hr; simpl.
  - apply (f_equal (@rev _)) in Hr. by rewrite rev_involutive in Hr; subst.
  - rewrite graphic_not_ws2 by auto.
    destruct r as [|d r].
    + apply (f_equal (@rev _)) in Hr. rewrite rev_involutive in Hr. by subst.
    + rewrite graphic_not_ws3 by auto. apply (f_equal (@rev _)) in Hr.
      rewrite rev_involutive in Hr. rewrite Hr. by simpl; rewrite <-!app_assoc.
Qed.

Lemma trim_all_graphic s : Forall graphic s → trim s = s.
Proof.
  destruct s as [|a s]; intros H; [done|].
  destruct (last (a :: s)) as [b|] eqn:Hl; [|by apply last_None in Hl].
  apply (trim_graphic _ _ b); [by apply Forall_cons in H as []|done|].
  rewrite Forall_forall in H. apply H. by apply last_Some_elem_of.
Qed.

(** ** Decimal printing and parsing are inverse *)
Lemma to_digit_digit_byte d : (d < 10)%N → to_digit 10 (digit_byte d) = Some d.
Proof.
  intros Hd. unfold to_digit, digit_byte.
  assert (byte_val (of_val (48 + d)) = 48 + d)%N as Hv by (apply byte_val_of_val; lia).
  assert (in_range 48 57 (of_val (48 + d)) = true) as -> by (rewrite in_range_true; lia).
  rewrite Hv. replace (48 + d - 48)%N with d by lia.
  by rewrite (proj2 (N.ltb_lt d 10)).
Qed.

Lemma digit_byte_graphic d : (d < 10)%N → graphic (digit_byte d).
Proof.
  intros Hd. unfold graphic, digit_byte. rewrite in_range_true.
  rewrite byte_val_of_val by lia. lia.
Qed.

Lemma digit_byte_range d : (d < 10)%N → in_range 48 57 (digit_byte d) = true.
Proof.
  intros Hd. unfold digit_byte. rewrite in_range_true, byte_val_of_val by lia. lia.
Qed.

Lemma show_fuel_digits fuel n :
  Forall (λ b, in_range 48 57 b = true) (show_fuel fuel n).
Proof.
  revert n; induction fuel as [|f IH]; intros n; simpl; [done|].
  destruct (n <? 10)%N eqn:Hn.
  - apply N.ltb_lt in Hn. constructor; [by apply digit_byte_range|done].
  - apply Forall_app; split; [apply IH|]. constructor; [|done].
    apply digit_byte_range, N.mod_lt. done.
Qed.

Lemma show_N_digits n : Forall (λ b, in_range 48 57 b = true) (show_N n).
Proof. apply show_fuel_digits. Qed.

Lemma show_N_graphic n : Forall graphic (show_N n).
Proof.
  eapply Forall_impl; [apply show_N_digits|]. intros b. unfold graphic.
  rewrite !in_range_true. lia.
Qed.

Lemma show_N_not_empty n : show_N n ≠ [].
Proof.
  unfold show_N; simpl. destruct (n <? 10)%N; [done|].
  intros H. by apply app_eq_nil in H as [_ ?].
Qed.

Lemma show_N_not_elem c n : in_range 48 57 c = false → c ∉ show_N n.
Proof.
  intros Hc Hin. pose proof (show_N_digits n) as H. rewrite Forall_forall in H.
  specialize (H c Hin). congruence.
Qed.

Lemma parse_digits_app max acc s d :
  parse_digits max acc (s ++ [d]) =
  let? a := parse_digits max acc s in parse_digits max a [d].
Proof.
  revert acc; induction s as [|b s IH]; intros acc; [done|].
  simpl app. cbn [parse_digits].
  destruct (to_digit 10 b); [|done].
  destruct (max <? acc * 10)%N; [done|].
  destruct (max <? acc * 10 + n)%N; [done|]. apply IH.
Qed.

Lemma parse_digits_show_fuel max fuel n :
  (n ≤ max)%N → (n < 10 ^ N.of_nat fuel)%N → parse_digits max 0 (show_fuel fuel n) = Ok n.
Proof.
  revert n; induction fuel as [|f IH]; intros n Hm Hf.
  - simpl in *. assert (n = 0)%N as -> by lia. done.
  - cbn [show_fuel]. destruct (n <? 10)%N eqn:Hn.
    + apply N.ltb_lt in Hn. cbn [parse_digits]. rewrite to_digit_digit_byte by done.
      rewrite !(proj2 (N.ltb_ge _ _)) by lia. f_equal; lia.
    + apply N.ltb_ge in Hn.
      assert (n = 10 * (n / 10) + n mod 10)%N as Hd by (apply N.div_mod; done).
      assert (n mod 10 < 10)%N as Hlt by (by apply N.mod_lt).
      assert (n / 10 < 10 ^ N.of_nat f)%N as Hq.
      { apply N.Div0.div_lt_upper_bound.
        by rewrite Nat2N.inj_succ, N.pow_succ_r' in Hf. }
      generalize dependent (n mod 10)%N. generalize dependent (n / 10)%N.
      intros q Hq r Hd Hr. rewrite parse_digits_app, IH by lia.
      cbn [result_bind parse_digits]. rewrite to_digit_digit_byte by lia.
      rewrite !(proj2 (N.ltb_ge _ _)) by lia. f_equal; lia.
Qed.

Lemma size_pow10 n : (n < 10 ^ N.of_nat (S (N.size_nat n)))%N.
Proof.
  rewrite Nat2N.inj_succ.
  assert (n < 2 ^ N.size n)%N by apply N.size_gt.
  assert (N.of_nat (N.size_nat n) = N.size n) as ->.
  { destruct n as [|p]; [done|]. change (N.of_nat (Pos.size_nat p) = N.pos (Pos.size p)).
    clear. induction p as [p IH|p IH|]; cbn; [| |done]; by rewrite Nat2N.inj_succ, IH. }
  assert (2 ^ N.size n ≤ 10 ^ N.size n)%N by (apply N.pow_le_mono_l; lia).
  rewrite N.pow_succ_r'. generalize dependent (10 ^ N.size n)%N.
  generalize dependent (2 ^ N.size n)%N. lia.
Qed.

Lemma parse_digits_show max n : (n ≤ max)%N → parse_digits max 0 (show_N n) = Ok n.
Proof. intros H. apply parse_digits_show_fuel; [done|apply size_pow10]. Qed.

Lemma digit_not_sign b : in_range 48 57 b = true → byte_eqb b x2b = false ∧ byte_eqb b x2d = false.
Proof.
  rewrite in_range_true, !byte_eqb_false. intros H.
  split; intros ->; revert H; vm_compute; naive_solver.
Qed.

Lemma parse_u16_digits s :
  s ≠ [] → Forall (λ b, in_range 48 57 b = true) s → parse_u16 s = parse_digits u16_max 0 s.
Proof.
  destruct s as [|b [|c s]]; intros Hne H; [done| |];
    apply Forall_cons in H as [Hb _]; apply digit_not_sign in Hb as [Hp Hm];
    unfold parse_u16; by rewrite Hp, ?Hm.
Qed.

Lemma parse_u16_show n : (n ≤ u16_max)%N → parse_u16 (show_N n) = Ok n.
Proof.
  intros H. rewrite parse_u16_digits; [by apply parse_digits_show
    |apply show_N_not_empty|apply show_N_digits].
Qed.

Lemma parse_digits_bound max acc s n : (acc ≤ max)%N → parse_digits max acc s = Ok n → (n ≤ max)%N.
Proof.
  revert acc; induction s as [|b s IH]; intros acc Ha H; simplify_eq/=; [done|].
  destruct (to_digit 10 b) as [d|]; [|done].
  destruct (max <? acc * 10)%N; [done|].
  destruct (max <? acc * 10 + d)%N eqn:Hd; [done|]. apply N.ltb_ge in Hd. eauto.
Qed.

Lemma parse_u16_bound s n : parse_u16 s = Ok n → (n ≤ u16_max)%N.
Proof.
  unfold parse_u16. destruct s as [|b [|c s]]; [done| |]; intros H.
  - destruct (_ || _); [done|]. eapply parse_digits_bound; [|done]. unfold u16_max; lia.
  - destruct (byte_eqb b x2b); (eapply parse_digits_bound; [|done]; unfold u16_max; lia).
Qed.

(** ** [String::from_utf8]: the well-formed byte sequences of the Unicode standard *)
Definition utf8_cont (b : byte) : bool := in_range 128 191 b.
Definition utf8_second3 (a b : byte) : bool :=
  (byte_eqb a xe0 && in_range 160 191 b) || (in_range 225 236 a && utf8_cont b)
  || (byte_eqb a xed && in_range 128 159 b) || (in_range 238 239 a && utf8_cont b).
Definition utf8_second4 (a b : byte) : bool :=
  (byte_eqb a xf0 && in_range 144 191 b) || (in_range 241 243 a && utf8_cont b)
  || (byte_eqb a xf4 && in_range 128 143 b).

Fixpoint utf8_valid (s : bytes) : bool :=
  match s with
  | [] => true
  | a :: s1 =>
      if in_range 0 127 a then utf8_valid s1
      else match s1 with
      | [] => false
      | b :: s2 =>
          if in_range 194 223 a && utf8_cont b then utf8_valid s2
          else match s2 with
          | [] => false
          | c :: s3 =>
              if utf8_second3 a b && utf8_cont c then utf8_valid s3
              else match s3 with
              | [] => false
              | d :: s4 => utf8_second4 a b && utf8_cont c && utf8_cont d && utf8_valid s4
              end
          end
      end
  end.

Definition from_utf8 (s : bytes) : option bytes := if utf8_valid s then Some s else None.

Lemma utf8_ascii_app s t : Forall (λ b, in_range 0 127 b = true) s → utf8_valid (s ++ t) = utf8_valid t.
Proof. induction 1 as [|b s Hb _ IH]; [done|]. simpl. by rewrite Hb. Qed.

Lemma utf8_ascii s : Forall (λ b, in_range 0 127 b = true) s → utf8_valid s = true.
Proof. intros Hs. rewrite <-(app_nil_r s). by rewrite utf8_ascii_app. Qed.

Example utf8_accepts : utf8_valid (lit "é本") = true ∧ utf8_valid [xc0; x80] = false ∧ utf8_valid [xed; xa0; x80] = false.
Proof. by vm_compute. Qed.
