(* ===== verification/SockAddr.v ===== *)
(** * [std::net::SocketAddr] and its [FromStr]

    The standard library's address parser, as used by [parse_listen] and by the
    per-port listeners: IPv4 and IPv6 socket addresses, with the embedded IPv4
    tail, the [::] abbreviation and the scope id of IPv6. *)
From S2P Require Import Prelude RustStd.

Inductive ip_addr :=
| IpV4 (a b c d : N)
| IpV6 (groups : list N).

Inductive socket_addr :=
| SockV4 (ip : list N) (port : N)
| SockV6 (groups : list N) (scope_id : N) (port : N).

(** ** The parser: a failing read leaves the input where it was *)
Definition parser (A : Type) : Type := bytes → option (A * bytes).

Definition p_ret {A} (a : A) : parser A := λ s, Some (a, s).
Definition p_bind {A B} (p : parser A) (k : A → parser B) : parser B :=
  λ s, match p s with Some (a, s') => k a s' | None => None end.

Notation "'do:' x ← p ; k" := (p_bind p (λ x, k))
  (at level 20, x name, p at level 100, k at level 200, right associativity)
  : openspoke_scope.

Definition read_given_char (c : byte) : parser () :=
  λ s, match s with b :: s' => if byte_eqb b c then Some ((), s') else None | [] => None end.

(** [read_separator(sep, index, inner)] *)
Definition read_separator {A} (sep : byte) (index : nat) (inner : parser A) : parser A :=
  match index with
  | 0 => inner
  | S _ => do: _ ← read_given_char sep; inner
  end.

(** The digits of [read_number]: the value, the number of digits and the rest.
    The accumulator is exact; the target type's bound is checked by the caller,
    which is where both the checked and the unchecked path of the library fail. *)
Fixpoint read_digits (radix : N) (acc : N) (count : nat) (s : bytes) : N * nat * bytes :=
  match s with
  | b :: s' => match to_digit radix b with
               | Some d => read_digits radix (acc * radix + d)%N (S count) s'
               | None => (acc, count, s)
               end
  | [] => (acc, count, [])
  end.

Definition read_number (radix : N) (max_digits : option nat) (allow_zero_prefix : bool)
    (bound : N) : parser N :=
  λ s,
    let has_leading_zero := match s with b :: _ => byte_eqb b x30 | [] => false end in
    let '(v, count, rest) := read_digits radix 0 0 s in
    if decide (count = 0) then None
    else if (match max_digits with Some m => bool_decide (m < count) | None => false end)
    then None
    else if negb allow_zero_prefix && has_leading_zero && bool_decide (1 < count) then None
    else if (v <=? bound)%N then Some (v, rest) else None.

Definition read_octet (i : nat) : parser N :=
  read_separator x2e i (read_number 10 (Some 3) false 255).

Definition read_ipv4_addr : parser (list N) :=
  do: a ← read_octet 0; do: b ← read_octet 1; do: c ← read_octet 2; do: d ← read_octet 3;
  p_ret [a; b; c; d].

(** [read_groups]: at most [limit] groups of which [i] are already read;
    returns the groups and whether an embedded IPv4 address ended them. *)
Fixpoint read_groups (fuel limit i : nat) (s : bytes) : list N * bool * bytes :=
  match fuel with
  | 0 => ([], false, s)
  | S f =>
      let plain :=
        match read_separator x3a i (read_number 16 (Some 4) true 65535) s with
        | Some (g, s') =>
            let '(gs, v4, s'') := read_groups f limit (S i) s' in (g :: gs, v4, s'')
        | None => ([], false, s)
        end in
      if bool_decide (i < limit - 1) then
        match read_separator x3a i read_ipv4_addr s with
        | Some ([a; b; c; d], s') => ([a * 256 + b; c * 256 + d]%N, true, s')
        | _ => plain
        end
      else plain
  end.

Definition read_ipv6_addr : parser (list N) :=
  λ s,
    let '(head, head_ipv4, s1) := read_groups 8 8 0 s in
    if decide (length head = 8) then Some (head, s1)
    else if (head_ipv4 : bool) then None
    else
      (do: _ ← read_given_char x3a; do: _ ← read_given_char x3a;
       λ s2,
         let limit := 8 - (length head + 1) in
         let '(tail, _, s3) := read_groups limit limit 0 s2 in
         Some (head ++ replicate (8 - length head - length tail) 0%N ++ tail, s3)) s1.

Definition read_port : parser N :=
  do: _ ← read_given_char x3a; read_number 10 None true 65535.

Definition read_scope_id : parser N :=
  do: _ ← read_given_char x25; read_number 10 None true (2 ^ 32 - 1).

Definition read_socket_addr_v4 : parser socket_addr :=
  do: ip ← read_ipv4_addr; do: port ← read_port; p_ret (SockV4 ip port).

Definition read_socket_addr_v6 : parser socket_addr :=
  do: _ ← read_given_char x5b;
  do: ip ← read_ipv6_addr;
  λ s, let '(scope_id, s') :=
         match read_scope_id s with Some (n, s') => (n, s') | None => (0%N, s) end in
       (do: _ ← read_given_char x5d; do: port ← read_port; p_ret (SockV6 ip scope_id port)) s'.

(** [<SocketAddr as FromStr>::from_str]: the whole input must be consumed. *)
Definition socket_addr_from_str (s : bytes) : option socket_addr :=
  let r := match read_socket_addr_v4 s with
           | Some x => Some x
           | None => read_socket_addr_v6 s
           end in
  match r with Some (a, []) => Some a | _ => None end.

(** [Display] of [AddrParseError] for a socket address. *)
Definition addr_parse_error : bytes := lit "invalid socket address syntax".

Example parse_v4 : socket_addr_from_str (lit "10.0.0.1:8080") = Some (SockV4 [10; 0; 0; 1]%N 8080).
Proof. reflexivity. Qed.
Example parse_v4_zero : socket_addr_from_str (lit "10.0.0.01:8080") = None.
Proof. reflexivity. Qed.
Example parse_v4_port : socket_addr_from_str (lit "10.0.0.1:65536") = None.
Proof. reflexivity. Qed.
Example parse_v6 : socket_addr_from_str (lit "[::1]:443") = Some (SockV6 [0; 0; 0; 0; 0; 0; 0; 1]%N 0 443).
Proof. reflexivity. Qed.
Example parse_v6_scope :
  socket_addr_from_str (lit "[fe80::1.2.3.4%7]:1")
  = Some (SockV6 [65152; 0; 0; 0; 0; 0; 258; 772]%N 7 1).
Proof. reflexivity. Qed.

(** ** Lemmas *)
Lemma read_digits_parse max acc count s n :
  parse_digits max acc s = Ok n → read_digits 10 acc count s = (n, count + length s, []).
Proof.
  revert acc count; induction s as [|b s IH]; intros acc count H; simplify_eq/=.
  - by rewrite Nat.add_0_r.
  - destruct (to_digit 10 b) as [d|]; [|done].
    destruct (max <? acc * 10)%N; [done|]. destruct (max <? acc * 10 + d)%N; [done|].
    rewrite (IH _ _ H). f_equal. f_equal. lia.
Qed.

Lemma read_number_show p :
  (p ≤ u16_max)%N → read_number 10 None true 65535 (show_N p) = Some (p, []).
Proof.
  intros Hp. unfold read_number.
  rewrite (read_digits_parse u16_max _ _ _ p) by (by apply parse_digits_show).
  destruct (decide _) as [Hl|_].
  - exfalso. apply (show_N_not_empty p). by apply nil_length_inv.
  - simpl. unfold u16_max in Hp. by rewrite (proj2 (N.leb_le p 65535)).
Qed.

(** The wildcard address printed by the program parses to itself. *)
Lemma socket_addr_any p :
  (p ≤ u16_max)%N →
  socket_addr_from_str (lit "0.0.0.0:" ++ show_N p) = Some (SockV4 [0; 0; 0; 0]%N p).
Proof.
  intros Hp. unfold socket_addr_from_str.
  assert (read_socket_addr_v4 (lit "0.0.0.0:" ++ show_N p) = Some (SockV4 [0; 0; 0; 0]%N p, []))
    as ->; [|done].
  unfold read_socket_addr_v4, read_port, p_bind, p_ret.
  change (lit "0.0.0.0:" ++ show_N p) with (lit "0.0.0.0" ++ x3a :: show_N p).
  assert (read_ipv4_addr (lit "0.0.0.0" ++ x3a :: show_N p)
          = Some ([0; 0; 0; 0]%N, x3a :: show_N p)) as -> by reflexivity.
  assert (read_given_char x3a (x3a :: show_N p) = Some ((), show_N p)) as -> by reflexivity.
  cbv beta iota. by rewrite read_number_show.
Qed.
