(* ===== verification/Proto.v ===== *)
(** * The wire messages of [proto/tunnel.proto]

    The Rust types tonic generates from the proto file, which the hub and the
    spoke share: the frames of both directions and the messages they carry.
    The wire encoding itself is generated code and is not modelled. *)
From S2P Require Import Prelude.

Record handshake_challenge := HandshakeChallenge { nonce : bytes; issued_at : Z }.

Record handshake_response := HandshakeResponse {
  hs_spoke_id : bytes;
  hs_signature : bytes;
  hs_tunnel_client_ver : bytes }.

Record open_stream := OpenStream { open_protocol : bytes; open_target : bytes }.

Record close_stream := CloseStream { close_half : bool; close_reason : bytes }.

Record http_request := HttpRequest {
  req_method : bytes;
  req_path : bytes;
  req_headers : gmap bytes bytes;
  req_body : bytes }.

Record http_response := HttpResponse {
  resp_status : Z;
  resp_headers : gmap bytes bytes;
  resp_body : bytes;
  resp_error : bytes }.

(** hub -> spoke *)
Inductive server_kind :=
| SChallenge (c : handshake_challenge)
| SOpen (o : open_stream)
| SData (payload : bytes)
| SClose (c : close_stream)
| SPing (sent_at : Z)
| SHttpResponse (r : http_response).

Record server_frame := ServerFrame { sf_stream_id : N; sf_kind : option server_kind }.

(** spoke -> hub *)
Inductive client_kind :=
| CHandshake (h : handshake_response)
| CData (payload : bytes)
| CClose (c : close_stream)
| CPong (sent_at : Z)
| CHttpRequest (r : http_request).

Record client_frame := ClientFrame { cf_stream_id : N; cf_kind : option client_kind }.

#[export] Instance handshake_challenge_eq_dec : EqDecision handshake_challenge.
Proof. solve_decision. Defined.
#[export] Instance handshake_response_eq_dec : EqDecision handshake_response.
Proof. solve_decision. Defined.
#[export] Instance open_stream_eq_dec : EqDecision open_stream.
Proof. solve_decision. Defined.
#[export] Instance close_stream_eq_dec : EqDecision close_stream.
Proof. solve_decision. Defined.
#[export] Instance http_request_eq_dec : EqDecision http_request.
Proof. solve_decision. Defined.
#[export] Instance http_response_eq_dec : EqDecision http_response.
Proof. solve_decision. Defined.
#[export] Instance server_kind_eq_dec : EqDecision server_kind.
Proof. solve_decision. Defined.
#[export] Instance server_frame_eq_dec : EqDecision server_frame.
Proof. solve_decision. Defined.
#[export] Instance client_kind_eq_dec : EqDecision client_kind.
Proof. solve_decision. Defined.
#[export] Instance client_frame_eq_dec : EqDecision client_frame.
Proof. solve_decision. Defined.
