(* ===== verification/ServerConfig.v ===== *)
(** * tunnel-server: configuration

    [load_config] of [hub/images/tunnel-server/src/main.rs]: the listen
    addresses, the [TUNNEL_SPOKES] registry, the hub-kernel URL and the path
    allowlist.  The environment is a function from variable names to values;
    a missing or non-Unicode variable is [None], as with [env::var(k).ok()]. *)
From S2P Require Import Prelude RustStd SockAddr.

Record spoke_port_binding := SpokePortBinding { spb_port : N; spb_target : bytes }.

Inductive spoke_kind := Cluster | Application.

Record spoke_config := SpokeConfig {
  sc_spoke_id : bytes;
  sc_kind : spoke_kind;
  sc_ports : list spoke_port_binding;
  sc_token : bytes }.

Record server_config := ServerConfig {
  grpc_listen : socket_addr;
  metrics_listen : socket_addr;
  spokes : gmap bytes spoke_config;
  kernel_url : bytes;
  allowed_paths : gset bytes }.

#[export] Instance spoke_kind_eq_dec : EqDecision spoke_kind.
Proof. solve_decision. Defined.
#[export] Instance spoke_port_binding_eq_dec : EqDecision spoke_port_binding.
Proof. solve_decision. Defined.
#[export] Instance spoke_config_eq_dec : EqDecision spoke_config.
Proof. solve_decision. Defined.

Definition env_vars : Type := bytes → option bytes.

Definition env_default (env : env_vars) (k d : bytes) : bytes :=
  match env k with
  | Some (b :: s) => b :: s
  | _ => d
  end.

Definition parse_listen (s : bytes) : result socket_addr bytes :=
  let s := if starts_with (lit ":") s then lit "0.0.0.0" ++ s else s in
  match socket_addr_from_str s with
  | Some a => Ok a
  | None => Err (lit "bad listen " ++ s ++ lit ": " ++ addr_parse_error)
  end.

(** One [port[@target]] of a port spec: [Ok None] is the [continue] of an
    empty piece. *)
Definition parse_binding (entry pb : bytes) : result (option spoke_port_binding) bytes :=
  let pb := trim pb in
  match pb with
  | [] => Ok None
  | _ :: _ =>
      let? (port_str, target) :=
        match find_byte x40 pb with
        | Some at_ =>
            let t := trim (drop (at_ + 1) pb) in
            match t with
            | [] => Err (lit "empty target after '@' in " ++ entry)
            | _ :: _ => Ok (take at_ pb, t)
            end
        | None => Ok (pb, lit "default")
        end in
      let? port :=
        map_err (λ e, lit "bad port " ++ port_str ++ lit " in " ++ entry ++ lit ": "
                      ++ show_parse_int_error e) (parse_u16 port_str) in
      Ok (Some (SpokePortBinding port target))
  end.

Fixpoint parse_bindings (entry : bytes) (pieces : list bytes)
    (bindings : list spoke_port_binding) : result (list spoke_port_binding) bytes :=
  match pieces with
  | [] => Ok bindings
  | pb :: rest =>
      let? o := parse_binding entry pb in
      match o with
      | Some b => parse_bindings entry rest (bindings ++ [b])
      | None => parse_bindings entry rest bindings
      end
  end.

Definition kind_of_spoke_id (spoke_id : bytes) : spoke_kind :=
  if starts_with (lit "app-") spoke_id then Application else Cluster.

(** The body of the loop over the entries, after the trim and the empty check. *)
Definition parse_spoke_entry (entry : bytes) : result spoke_config bytes :=
  match splitn 3 x3a entry with
  | [spoke_id; port_spec; token] =>
      let kind := kind_of_spoke_id spoke_id in
      let? bindings := parse_bindings entry (split_on x3b port_spec) [] in
      if bool_decide (kind = Cluster) && bool_decide (bindings = [])
      then Err (lit "no ports in " ++ entry)
      else Ok (SpokeConfig spoke_id kind bindings token)
  | _ => Err (lit "bad TUNNEL_SPOKES entry: " ++ entry)
  end.

Fixpoint parse_spokes (entries : list bytes) (acc : gmap bytes spoke_config)
    : result (gmap bytes spoke_config) bytes :=
  match entries with
  | [] => Ok acc
  | entry :: rest =>
      let entry := trim entry in
      match entry with
      | [] => parse_spokes rest acc
      | _ :: _ =>
          let? sc := parse_spoke_entry entry in
          parse_spokes rest (<[sc_spoke_id sc := sc]> acc)
      end
  end.

Definition default_allowed_paths : list bytes :=
  [ lit "/core/orchestrator/triage";
    lit "/core/orchestrator/answer";
    lit "/core/claude/generate-text";
    lit "/core/swallow/generate-text";
    lit "/core/jev/decide";
    lit "/core/embedding/single";
    lit "/core/embedding/batch";
    lit "/core/appspoke/usage-chat" ].

Definition load_allowed_paths (env : env_vars) : gset bytes :=
  let defaults : gset bytes := list_to_set default_allowed_paths in
  match env (lit "TUNNEL_ALLOWED_PATHS") with
  | Some raw =>
      let raw := trim raw in
      match raw with
      | [] => defaults
      | _ :: _ => list_to_set (filter (λ p, p ≠ []) (trim <$> split_on x2c raw))
      end
  | None => defaults
  end.

Definition spokes_required : bytes :=
  lit "TUNNEL_SPOKES env is required (format: spoke-id:port[@target][;port[@target]...]:token,...)".

Definition default_kernel_url : bytes :=
  lit "http://rag-backend-kernel.rag-company1.svc.cluster.local:8000".

Definition load_server_config (env : env_vars) : result server_config bytes :=
  let? grpc := parse_listen (env_default env (lit "TUNNEL_GRPC_LISTEN") (lit ":8080")) in
  let? metrics := parse_listen (env_default env (lit "TUNNEL_METRICS_LISTEN") (lit ":9090")) in
  let raw := trim (default [] (env (lit "TUNNEL_SPOKES"))) in
  match raw with
  | [] => Err spokes_required
  | _ :: _ =>
      let? sp := parse_spokes (split_on x2c raw) ∅ in
      Ok (ServerConfig grpc metrics sp
            (env_default env (lit "KERNEL_URL") default_kernel_url)
            (load_allowed_paths env))
  end.

(** ** The textual form of a registry, as the installation guide gives it *)
Definition render_binding (b : spoke_port_binding) : bytes :=
  show_N (spb_port b) ++ x40 :: spb_target b.

Definition render_spoke (sc : spoke_config) : bytes :=
  sc_spoke_id sc ++ x3a :: (join x3b (render_binding <$> sc_ports sc) ++ x3a :: sc_token sc).

Definition render_spokes (scs : list spoke_config) : bytes := join x2c (render_spoke <$> scs).

(** A spoke configuration the format can carry: graphic ASCII parts without
    the separators that would end them. *)
Record wf_binding (b : spoke_port_binding) : Prop := {
  wfb_port : (spb_port b ≤ u16_max)%N;
  wfb_target_ne : spb_target b ≠ [];
  wfb_target : Forall graphic (spb_target b);
  wfb_sep : x2c ∉ spb_target b ∧ x3b ∉ spb_target b ∧ x3a ∉ spb_target b }.

Record wf_spoke (sc : spoke_config) : Prop := {
  wfs_id : Forall graphic (sc_spoke_id sc);
  wfs_id_sep : x3a ∉ sc_spoke_id sc ∧ x2c ∉ sc_spoke_id sc;
  wfs_kind : sc_kind sc = kind_of_spoke_id (sc_spoke_id sc);
  wfs_ports : Forall wf_binding (sc_ports sc);
  wfs_ports_ne : sc_kind sc = Cluster → sc_ports sc ≠ [];
  wfs_token : Forall graphic (sc_token sc);
  wfs_token_sep : x2c ∉ sc_token sc }.

(** What [load_config] guarantees of every registered spoke. *)
Record spoke_ok (id : bytes) (sc : spoke_config) : Prop := {
  sok_key : sc_spoke_id sc = id;
  sok_kind : sc_kind sc = kind_of_spoke_id id;
  sok_ports : sc_kind sc = Cluster → sc_ports sc ≠ [];
  sok_port_range : Forall (λ b, (spb_port b ≤ u16_max)%N ∧ spb_target b ≠ []) (sc_ports sc);
  sok_id_no_colon : x3a ∉ id }.

Definition registry_ok (m : gmap bytes spoke_config) : Prop :=
  ∀ id sc, m !! id = Some sc → spoke_ok id sc.

(** The registry the entries build: later entries replace earlier ones. *)
Definition registry_of (scs : list spoke_config) : gmap bytes spoke_config :=
  foldl (λ m sc, <[sc_spoke_id sc := sc]> m) ∅ scs.

(** ** Lemmas *)
Lemma splitn3_app a b c :
  x3a ∉ a → x3a ∉ b → splitn 3 x3a (a ++ x3a :: (b ++ x3a :: c)) = [a; b; c].
Proof.
  intros Ha Hb. cbn [splitn]. rewrite split_once_app by done.
  by rewrite split_once_app.
Qed.

Lemma splitn3_inv s a b c :
  splitn 3 x3a s = [a; b; c] → s = a ++ x3a :: (b ++ x3a :: c) ∧ x3a ∉ a ∧ x3a ∉ b.
Proof.
  cbn [splitn]. destruct (split_once x3a s) as [[l r]|] eqn:H1; [|done].
  apply split_once_some in H1 as [-> Hl].
  destruct (split_once x3a r) as [[l' r']|] eqn:H2; intros; simplify_eq.
  by apply split_once_some in H2 as [-> Hr].
Qed.

Lemma show_N_no_sep n c : c = x2c ∨ c = x3a ∨ c = x3b ∨ c = x40 → c ∉ show_N n.
Proof. intros Hc. apply show_N_not_elem. by destruct Hc as [->|[->|[->| ->]]]. Qed.

Lemma render_binding_graphic b : wf_binding b → Forall graphic (render_binding b).
Proof.
  intros []. unfold render_binding. apply Forall_app; split; [apply show_N_graphic|].
  by constructor.
Qed.

Lemma render_binding_no_sep b c :
  wf_binding b → c = x2c ∨ c = x3a ∨ c = x3b → c ∉ render_binding b.
Proof.
  intros [_ _ _ (?&?&?)] Hc. unfold render_binding.
  pose proof (show_N_no_sep (spb_port b) c) as Hs.
  rewrite not_elem_of_app, not_elem_of_cons.
  destruct Hc as [->|[->| ->]]; naive_solver.
Qed.

Lemma parse_binding_render entry b :
  wf_binding b → parse_binding entry (render_binding b) = Ok (Some b).
Proof.
  intros Hwf. unfold parse_binding.
  rewrite trim_all_graphic by (by apply render_binding_graphic).
  destruct (render_binding b) as [|x l] eqn:Hr.
  { unfold render_binding in Hr. by apply app_eq_nil in Hr as [_ ?]. }
  rewrite <-Hr. unfold render_binding.
  rewrite find_byte_app by (apply show_N_no_sep; tauto).
  rewrite Nat.add_1_r, drop_app_ge by lia.
  replace (S (length (show_N (spb_port b))) - length (show_N (spb_port b))) with 1 by lia.
  simpl drop. rewrite take_app_length. destruct Hwf as [Hp Hne Hg _].
  rewrite trim_all_graphic by done.
  destruct b as [port [|t ts]]; [done|]; simpl in *. by rewrite parse_u16_show.
Qed.

Lemma parse_bindings_render entry bs acc :
  Forall wf_binding bs →
  parse_bindings entry (render_binding <$> bs) acc = Ok (acc ++ bs).
Proof.
  intros H. revert acc; induction H as [|b bs Hb _ IH]; intros acc; simpl.
  - by rewrite app_nil_r.
  - rewrite parse_binding_render by done. simpl. rewrite IH. by rewrite <-app_assoc.
Qed.

Lemma join_no_elem c d ps : c ≠ d → Forall (λ p, c ∉ p) ps → c ∉ join d ps.
Proof.
  intros Hcd H. induction H as [|p ps Hp H IH]; simpl; [set_solver|].
  destruct ps; [done|]. rewrite not_elem_of_app, not_elem_of_cons. done.
Qed.

Lemma join_graphic d ps : graphic d → Forall (Forall graphic) ps → Forall graphic (join d ps).
Proof.
  intros Hd H. induction H as [|p ps Hp H IH]; simpl; [done|].
  destruct ps; [done|]. apply Forall_app; split; [done|]. by constructor.
Qed.

Lemma Forall_fmap_intro {A B} (f : A → B) (P : A → Prop) (Q : B → Prop) l :
  (∀ x, P x → Q (f x)) → Forall P l → Forall Q (f <$> l).
Proof. intros HPQ H. apply Forall_fmap. eapply Forall_impl; [done|]. naive_solver. Qed.

Lemma render_spoke_graphic sc : wf_spoke sc → Forall graphic (render_spoke sc).
Proof.
  intros []. unfold render_spoke. apply Forall_app; split; [done|].
  constructor; [done|]. apply Forall_app; split.
  - apply join_graphic; [done|].
    eapply Forall_fmap_intro; [|done]. apply render_binding_graphic.
  - by constructor.
Qed.

Lemma render_ports_no_sep c ps :
  Forall wf_binding ps → c = x2c ∨ c = x3a → c ∉ join x3b (render_binding <$> ps).
Proof.
  intros H Hc. apply join_no_elem; [by destruct Hc as [->| ->]|].
  eapply Forall_fmap_intro; [|done]. intros b Hb.
  apply render_binding_no_sep; [done|]. naive_solver.
Qed.

Lemma render_spoke_no_comma sc : wf_spoke sc → x2c ∉ render_spoke sc.
Proof.
  intros [? [??] ? ? ? ? ?]. unfold render_spoke.
  rewrite not_elem_of_app, not_elem_of_cons, not_elem_of_app, not_elem_of_cons.
  split_and!; try done. apply render_ports_no_sep; naive_solver.
Qed.

Lemma split_ports ps :
  Forall wf_binding ps →
  split_on x3b (join x3b (render_binding <$> ps)) =
  match ps with [] => [[]] | _ => render_binding <$> ps end.
Proof.
  intros H. destruct ps as [|b ps]; [done|]. apply split_on_join; [done|].
  eapply Forall_fmap_intro; [|done]. intros x Hx. apply render_binding_no_sep; naive_solver.
Qed.

Lemma parse_spoke_entry_render sc :
  wf_spoke sc → parse_spoke_entry (render_spoke sc) = Ok sc.
Proof.
  intros [Hid [Hc1 Hc2] Hk Hps Hne Ht Htc]. unfold parse_spoke_entry, render_spoke.
  rewrite splitn3_app; [|done|apply render_ports_no_sep; naive_solver].
  rewrite split_ports by done.
  assert (∀ e, parse_bindings e match sc_ports sc with [] => [[]] | _ => render_binding <$> sc_ports sc end []
      = Ok (sc_ports sc)) as ->.
  { intros e. destruct (sc_ports sc) eqn:Hp; [done|].
    rewrite <-Hp in *. by rewrite parse_bindings_render. }
  simpl. rewrite <-Hk. destruct sc as [id [] ps tok]; simpl in *; [|done].
  rewrite (bool_decide_eq_false_2 (ps = [])) by auto. done.
Qed.

Lemma parse_spokes_render scs m :
  Forall wf_spoke scs →
  parse_spokes (render_spoke <$> scs) m = Ok (foldl (λ m sc, <[sc_spoke_id sc := sc]> m) m scs).
Proof.
  intros H. revert m; induction H as [|sc scs Hsc _ IH]; intros m; [done|].
  cbn [fmap list_fmap parse_spokes].
  rewrite trim_all_graphic by (by apply render_spoke_graphic).
  destruct (render_spoke sc) as [|b s] eqn:Hr.
  { unfold render_spoke in Hr. by apply app_eq_nil in Hr as [_ ?]. }
  rewrite <-Hr, parse_spoke_entry_render by done. apply IH.
Qed.

Lemma render_spokes_graphic scs : Forall wf_spoke scs → Forall graphic (render_spokes scs).
Proof.
  intros H. apply join_graphic; [done|].
  eapply Forall_fmap_intro; [|done]. apply render_spoke_graphic.
Qed.

Lemma render_spokes_not_empty scs : scs ≠ [] → render_spokes scs ≠ [].
Proof.
  destruct scs as [|sc [|sc' scs]]; [done| |]; intros _ H; unfold render_spokes in H; simpl in H.
  - unfold render_spoke in H. by apply app_eq_nil in H as [_ ?].
  - by apply app_eq_nil in H as [_ ?].
Qed.

Lemma registry_of_lookup scs sc :
  NoDup (sc_spoke_id <$> scs) → sc ∈ scs → registry_of scs !! sc_spoke_id sc = Some sc.
Proof.
  unfold registry_of. generalize (∅ : gmap bytes spoke_config) as m.
  induction scs as [|x scs IH]; intros m Hnd Hin; [set_solver|].
  cbn [fmap list_fmap] in Hnd. apply NoDup_cons in Hnd as [Hx Hnd].
  apply elem_of_cons in Hin as [->|Hin]; [|by apply IH]. simpl. clear IH Hnd.
  assert (<[sc_spoke_id x:=x]> m !! sc_spoke_id x = Some x) as Hl by apply lookup_insert_eq.
  revert Hl. generalize (<[sc_spoke_id x:=x]> m) as m'. revert Hx.
  induction scs as [|y scs IH]; intros Hx m' Hl; [done|]. simpl.
  apply not_elem_of_cons in Hx as [Hxy Hx]. apply IH; [done|]. by rewrite lookup_insert_ne.
Qed.

Lemma parse_binding_ok entry pb b :
  parse_binding entry pb = Ok (Some b) → (spb_port b ≤ u16_max)%N ∧ spb_target b ≠ [].
Proof.
  unfold parse_binding. destruct (trim pb) as [|x l]; [done|].
  intros H. apply result_bind_ok in H as ([ps t] & Ht & H).
  assert (t ≠ []) as Hne.
  { destruct (find_byte x40 (x :: l)) as [at_|]; [|injection Ht as _ <-; by vm_compute].
    destruct (trim (drop (at_ + 1) (x :: l))) as [|y ys]; simplify_eq; done. }
  clear Ht. apply result_bind_ok in H as (port & Hp & H). simplify_eq.
  destruct (parse_u16 ps) as [p|] eqn:Hu; simplify_eq/=.
  split; [by eapply parse_u16_bound|done].
Qed.

Lemma parse_bindings_ok entry pieces acc bs :
  Forall (λ b, (spb_port b ≤ u16_max)%N ∧ spb_target b ≠ []) acc →
  parse_bindings entry pieces acc = Ok bs →
  Forall (λ b, (spb_port b ≤ u16_max)%N ∧ spb_target b ≠ []) bs.
Proof.
  revert acc; induction pieces as [|p ps IH]; intros acc Ha H; simplify_eq/=; [done|].
  apply result_bind_ok in H as ([b|] & Hb & H); [|by eapply IH].
  eapply IH; [|done]. apply Forall_app; split; [done|].
  constructor; [by eapply parse_binding_ok|done].
Qed.

Lemma parse_spoke_entry_ok entry sc :
  parse_spoke_entry entry = Ok sc → spoke_ok (sc_spoke_id sc) sc.
Proof.
  unfold parse_spoke_entry.
  destruct (splitn 3 x3a entry) as [|id [|spec [|tok [|]]]] eqn:Hs; try done.
  intros H. apply result_bind_ok in H as (bs & Hb & H).
  apply splitn3_inv in Hs as (_ & Hid & _).
  apply parse_bindings_ok in Hb; [|done].
  destruct (bool_decide (kind_of_spoke_id id = Cluster)) eqn:Hk,
    (bool_decide (bs = [])) eqn:Hbs; simplify_eq/=; (split; simpl; try done);
    try apply bool_decide_eq_false in Hk; try apply bool_decide_eq_false in Hbs; naive_solver.
Qed.

Lemma parse_spokes_ok entries m m' :
  registry_ok m → parse_spokes entries m = Ok m' → registry_ok m'.
Proof.
  revert m; induction entries as [|e es IH]; intros m Hm H; simplify_eq/=; [done|].
  destruct (trim e) as [|x l]; [by eapply IH|].
  apply result_bind_ok in H as (sc & Hsc & H). eapply IH; [|done].
  intros id sc'. rewrite lookup_insert. case_decide; intros; simplify_eq; [|by apply Hm].
  by apply parse_spoke_entry_ok in Hsc.
Qed.

Lemma parse_spokes_is_ok entries m :
  is_ok (parse_spokes entries m) = true ↔
  Forall (λ e, trim e = [] ∨ is_ok (parse_spoke_entry (trim e)) = true) entries.
Proof.
  revert m; induction entries as [|e es IH]; intros m; simpl; [done|].
  rewrite Forall_cons. destruct (trim e) as [|x l] eqn:He.
  - rewrite IH. naive_solver.
  - destruct (parse_spoke_entry (x :: l)) as [sc|msg]; simpl; rewrite ?IH; naive_solver.
Qed.

(** ** Properties *)

(** C35: a registry written in the documented form
    [id:port@target;...:token,...] is read back exactly, later entries
    replacing earlier ones with the same id. *)
Theorem load_server_config_roundtrip (env : env_vars) (scs : list spoke_config) g m :
  scs ≠ [] →
  Forall wf_spoke scs →
  env (lit "TUNNEL_SPOKES") = Some (render_spokes scs) →
  parse_listen (env_default env (lit "TUNNEL_GRPC_LISTEN") (lit ":8080")) = Ok g →
  parse_listen (env_default env (lit "TUNNEL_METRICS_LISTEN") (lit ":9090")) = Ok m →
  ∃ cfg, load_server_config env = Ok cfg ∧ spokes cfg = registry_of scs ∧
    grpc_listen cfg = g ∧ metrics_listen cfg = m ∧
    (NoDup (sc_spoke_id <$> scs) → ∀ sc, sc ∈ scs → spokes cfg !! sc_spoke_id sc = Some sc).
Proof.
  intros Hne Hwf Henv Hg Hm. unfold load_server_config. rewrite Hg, Hm, Henv. simpl.
  rewrite trim_all_graphic by (by apply render_spokes_graphic).
  destruct (render_spokes scs) as [|b s] eqn:Hr; [by apply render_spokes_not_empty in Hr|].
  rewrite <-Hr. unfold render_spokes. rewrite split_on_join.
  - rewrite parse_spokes_render by done. eexists; split_and!; [done..|].
    intros Hnd sc Hin. simpl. by apply registry_of_lookup.
  - by destruct scs.
  - eapply Forall_fmap_intro; [|done]. apply render_spoke_no_comma.
Qed.

(** C38: every spoke of an accepted configuration is keyed by its own id,
    has the kind its id prefix says, keeps its ports within 16 bits with
    non-empty targets, and a cluster spoke has at least one port. *)
Theorem load_server_config_ok (env : env_vars) cfg :
  load_server_config env = Ok cfg → registry_ok (spokes cfg).
Proof.
  unfold load_server_config. intros H.
  apply result_bind_ok in H as (g & _ & H). apply result_bind_ok in H as (m & _ & H).
  destruct (trim _) as [|x l]; [done|].
  apply result_bind_ok in H as (sp & Hsp & H). simplify_eq/=.
  eapply parse_spokes_ok; [|done]. intros id sc. by rewrite lookup_empty.
Qed.

(** C39: one malformed entry rejects the whole registry: given valid listen
    addresses, the configuration loads exactly when [TUNNEL_SPOKES] is not
    blank and each of its non-blank entries is well formed. *)
Theorem load_server_config_accepts (env : env_vars) :
  is_ok (load_server_config env) = true ↔
  is_ok (parse_listen (env_default env (lit "TUNNEL_GRPC_LISTEN") (lit ":8080"))) = true ∧
  is_ok (parse_listen (env_default env (lit "TUNNEL_METRICS_LISTEN") (lit ":9090"))) = true ∧
  let raw := trim (default [] (env (lit "TUNNEL_SPOKES"))) in
  raw ≠ [] ∧
  Forall (λ e, trim e = [] ∨ is_ok (parse_spoke_entry (trim e)) = true) (split_on x2c raw).
Proof.
  unfold load_server_config.
  destruct (parse_listen (env_default env (lit "TUNNEL_GRPC_LISTEN") _)) as [g|]; simpl; [|naive_solver].
  destruct (parse_listen (env_default env (lit "TUNNEL_METRICS_LISTEN") _)) as [m|]; simpl; [|naive_solver].
  destruct (trim _) as [|x l]; [naive_solver|].
  rewrite <-(parse_spokes_is_ok _ ∅).
  destruct (parse_spokes (split_on x2c (x :: l)) ∅); simpl; naive_solver.
Qed.

(** The listen shorthand [":port"] is the wildcard address on that
    port, for every 16-bit port. *)
Theorem parse_listen_port p :
  (p ≤ u16_max)%N → parse_listen (lit ":" ++ show_N p) = Ok (SockV4 [0; 0; 0; 0]%N p).
Proof.
  intros Hp. unfold parse_listen.
  assert (starts_with (lit ":") (lit ":" ++ show_N p) = true) as -> by reflexivity.
  assert (lit "0.0.0.0" ++ lit ":" ++ show_N p = lit "0.0.0.0:" ++ show_N p) as -> by reflexivity.
  by rewrite socket_addr_any.
Qed.

(** [TUNNEL_ALLOWED_PATHS] replaces the default allowlist when it is not
    blank: then exactly its trimmed non-empty pieces are allowed (a lone comma
    allows nothing); otherwise exactly the default paths are. *)
Theorem load_allowed_paths_spec (env : env_vars) p :
  p ∈ load_allowed_paths env ↔
  match env (lit "TUNNEL_ALLOWED_PATHS") with
  | Some raw =>
      if bool_decide (trim raw = []) then p ∈ default_allowed_paths
      else p ≠ [] ∧ ∃ piece, piece ∈ split_on x2c (trim raw) ∧ p = trim piece
  | None => p ∈ default_allowed_paths
  end.
Proof.
  unfold load_allowed_paths.
  destruct (env (lit "TUNNEL_ALLOWED_PATHS")) as [raw|]; [|by rewrite elem_of_list_to_set].
  destruct (trim raw) as [|x l]; [by rewrite bool_decide_true, elem_of_list_to_set|].
  rewrite bool_decide_false by done.
  rewrite elem_of_list_to_set, list_elem_of_filter, list_elem_of_fmap. naive_solver.
Qed.

(** The paths the documentation names for application spokes, one of each family
    it lists: the defaults allow none of them, as they are compared exactly. *)
Definition documented_paths : list bytes :=
  [ lit "/core/chat"; lit "/core/chat/complete"; lit "/core/orchestrate"; lit "/core/embedding/*";
    lit "/core/vectorstore/search"; lit "/core/graph/run"; lit "/core/handoff/list" ].

Theorem documented_paths_refused (env : env_vars) :
  env (lit "TUNNEL_ALLOWED_PATHS") = None → Forall (λ p, p ∉ load_allowed_paths env) documented_paths.
Proof.
  intros He. unfold load_allowed_paths. rewrite He.
  apply Forall_forall. intros p Hp. rewrite elem_of_list_to_set. revert p Hp.
  apply Forall_forall, (bool_decide_unpack _). by vm_compute.
Qed.

(** ** Witnesses *)
Definition demo_spokes : list spoke_config :=
  [SpokeConfig (lit "app-wiki") Application [] (lit "t1");
   SpokeConfig (lit "edge") Cluster [SpokePortBinding 6443 (lit "k8s")] (lit "t2")].

Definition demo_env (k : bytes) : option bytes :=
  if bool_decide (k = lit "TUNNEL_SPOKES") then Some (render_spokes demo_spokes) else None.

Definition demo_loaded : server_config :=
  match load_server_config demo_env with
  | Ok cfg => cfg
  | Err _ => ServerConfig (SockV4 [] 0) (SockV4 [] 0) ∅ [] ∅
  end.

Lemma demo_load : load_server_config demo_env = Ok demo_loaded.
Proof.
  unfold demo_loaded. assert (is_ok (load_server_config demo_env) = true) as Hok by (by vm_compute).
  by destruct (load_server_config demo_env).
Qed.

Lemma demo_spokes_wf : Forall wf_spoke demo_spokes.
Proof.
  repeat constructor; simpl; try done; try (by vm_compute);
    by apply (bool_decide_unpack _); vm_compute.
Qed.

Lemma load_server_config_roundtrip_witness :
  render_spokes demo_spokes = lit "app-wiki::t1,edge:6443@k8s:t2" ∧
  ∃ cfg, load_server_config demo_env = Ok cfg ∧ spokes cfg = registry_of demo_spokes.
Proof.
  split; [by vm_compute|].
  destruct (load_server_config_roundtrip demo_env demo_spokes (SockV4 [0; 0; 0; 0]%N 8080)
    (SockV4 [0; 0; 0; 0]%N 9090)) as (cfg & Hl & Hs & _).
  - done.
  - apply demo_spokes_wf.
  - vm_compute. reflexivity.
  - vm_compute. reflexivity.
  - vm_compute. reflexivity.
  - by exists cfg.
Defined.

Lemma load_server_config_ok_witness : registry_ok (spokes demo_loaded).
Proof. apply (load_server_config_ok demo_env demo_loaded demo_load). Defined.

Lemma parse_listen_port_witness :
  parse_listen (lit ":" ++ show_N 8080) = Ok (SockV4 [0; 0; 0; 0]%N 8080).
Proof. apply (parse_listen_port 8080). by vm_compute. Defined.
