(* ===== verification/Channel.v ===== *)
(** * Bounded channels

    The program's tasks talk through tokio's [mpsc] channels.
    tokio is not part of the repository, so the models take the channel type as
    a parameter: the classes below list the operations the program calls and
    the documented behaviour it relies on (FIFO order, the bound of the buffer,
    failing sends once the receiver is gone).  [queue] instantiates them, for
    the concrete runs of the witnesses. *)
From S2P Require Import Prelude.

(** The outcome of polling [Sender::send]: the message is queued, the sender has
    to wait for room, or the receiver is gone and the send fails. *)
Inductive send_result (C : Type) := Sent (c : C) | SendFull | SendClosed.
Arguments Sent {C} c.
Arguments SendFull {C}.
Arguments SendClosed {C}.

Class MpscOps (chan : Type → Type) := {
  mpsc_channel {A} : nat → chan A;
  mpsc_send {A} : A → chan A → send_result (chan A);
  mpsc_recv {A} : chan A → option (A * chan A);
  mpsc_drop_rx {A} : chan A → chan A;
  mpsc_queued {A} : chan A → list A;
  mpsc_rx_alive {A} : chan A → bool;
  mpsc_bound {A} : chan A → nat }.

Class Mpsc (chan : Type → Type) `{!MpscOps chan} := {
  mpsc_queued_new A n : mpsc_queued (mpsc_channel (A:=A) n) = [];
  mpsc_alive_new A n : mpsc_rx_alive (mpsc_channel (A:=A) n) = true;
  mpsc_bound_new A n : mpsc_bound (mpsc_channel (A:=A) n) = n;
  mpsc_send_closed A (x : A) c : mpsc_rx_alive c = false → mpsc_send x c = SendClosed;
  mpsc_send_full A (x : A) c :
    mpsc_rx_alive c = true → mpsc_bound c ≤ length (mpsc_queued c) → mpsc_send x c = SendFull;
  mpsc_send_sent A (x : A) c :
    mpsc_rx_alive c = true → length (mpsc_queued c) < mpsc_bound c →
    ∃ c', mpsc_send x c = Sent c' ∧ mpsc_queued c' = mpsc_queued c ++ [x] ∧
          mpsc_rx_alive c' = true ∧ mpsc_bound c' = mpsc_bound c;
  mpsc_recv_nil A (c : chan A) : mpsc_queued c = [] → mpsc_recv c = None;
  mpsc_recv_cons A (x : A) l c :
    mpsc_queued c = x :: l →
    ∃ c', mpsc_recv c = Some (x, c') ∧ mpsc_queued c' = l ∧
          mpsc_rx_alive c' = mpsc_rx_alive c ∧ mpsc_bound c' = mpsc_bound c;
  mpsc_drop_alive A (c : chan A) : mpsc_rx_alive (mpsc_drop_rx c) = false;
  mpsc_drop_queued A (c : chan A) : mpsc_queued (mpsc_drop_rx c) = [];
  mpsc_drop_bound A (c : chan A) : mpsc_bound (mpsc_drop_rx c) = mpsc_bound c }.

(** ** The reference instance: a queue with its bound *)
Record queue (A : Type) := Queue { q_items : list A; q_bound : nat; q_alive : bool }.
Arguments Queue {A} _ _ _.
Arguments q_items {A} _.
Arguments q_bound {A} _.
Arguments q_alive {A} _.

Definition queue_send {A} (x : A) (q : queue A) : send_result (queue A) :=
  if q_alive q then
    if decide (length (q_items q) < q_bound q)
    then Sent (Queue (q_items q ++ [x]) (q_bound q) true) else SendFull
  else SendClosed.

Definition queue_recv {A} (q : queue A) : option (A * queue A) :=
  match q_items q with
  | [] => None
  | x :: l => Some (x, Queue l (q_bound q) (q_alive q))
  end.

#[export] Instance queue_ops : MpscOps queue := {
  mpsc_channel A n := Queue [] n true;
  mpsc_send A x q := queue_send x q;
  mpsc_recv A q := queue_recv q;
  mpsc_drop_rx A q := Queue [] (q_bound q) false;
  mpsc_queued A q := q_items q;
  mpsc_rx_alive A q := q_alive q;
  mpsc_bound A q := q_bound q }.

#[export] Instance queue_mpsc : Mpsc queue.
Proof.
  split; simpl; intros; try done; unfold queue_send, queue_recv.
  - by rewrite H.
  - rewrite H. case_decide; [lia|done].
  - rewrite H. case_decide; [|done]. eexists; split_and!; done.
  - by rewrite H.
  - rewrite H. eexists; split_and!; done.
Qed.

(** ** Inversion lemmas the components use *)
Section mpsc_lemmas.
Context {chan : Type → Type} `{Hmpsc : Mpsc chan} {A : Type}.
Implicit Types (c : chan A) (x : A).

Lemma mpsc_send_Sent x c c' :
  mpsc_send x c = Sent c' →
  mpsc_queued c' = mpsc_queued c ++ [x] ∧ mpsc_rx_alive c = true ∧
  mpsc_rx_alive c' = true ∧ mpsc_bound c' = mpsc_bound c ∧
  length (mpsc_queued c) < mpsc_bound c.
Proof.
  intros H. destruct (mpsc_rx_alive c) eqn:Ha.
  - destruct (decide (length (mpsc_queued c) < mpsc_bound c)).
    + destruct (mpsc_send_sent A x c) as (c'' & Hs & ?); [done..|].
      rewrite Hs in H. simplify_eq. naive_solver.
    + rewrite mpsc_send_full in H by (done || lia). done.
  - by rewrite mpsc_send_closed in H.
Qed.

Lemma mpsc_send_SendClosed x c : mpsc_send x c = SendClosed → mpsc_rx_alive c = false.
Proof.
  intros H. destruct (mpsc_rx_alive c) eqn:Ha; [|done].
  destruct (decide (length (mpsc_queued c) < mpsc_bound c)).
  - destruct (mpsc_send_sent A x c) as (c'' & Hs & ?); [done..|]. by rewrite Hs in H.
  - by rewrite mpsc_send_full in H by (done || lia).
Qed.

Lemma mpsc_recv_Some x c c' :
  mpsc_recv c = Some (x, c') →
  mpsc_queued c = x :: mpsc_queued c' ∧ mpsc_rx_alive c' = mpsc_rx_alive c ∧
  mpsc_bound c' = mpsc_bound c.
Proof.
  intros H. destruct (mpsc_queued c) as [|y l] eqn:Hq.
  - by rewrite mpsc_recv_nil in H.
  - destruct (mpsc_recv_cons A y l c) as (c'' & Hr & ?); [done|].
    rewrite Hr in H. simplify_eq. naive_solver.
Qed.

Lemma mpsc_recv_None c : mpsc_recv c = None → mpsc_queued c = [].
Proof.
  intros H. destruct (mpsc_queued c) as [|y l] eqn:Hq; [done|].
  destruct (mpsc_recv_cons A y l c) as (c'' & Hr & ?); [done|]. by rewrite Hr in H.
Qed.

End mpsc_lemmas.

(** ** What has passed through a channel

    [passed t c s]: of the messages [s] sent so far, the receiver has taken [t];
    while it lives, the rest is in the channel. *)
Section passed.
Context {chan : Type → Type} `{Hmpsc : Mpsc chan} {A : Type}.
Implicit Types (c : chan A) (x : A) (t s : list A).

Definition passed t c s : Prop :=
  if mpsc_rx_alive c then t ++ mpsc_queued c = s else mpsc_queued c = [] ∧ t `prefix_of` s.

(** How a sender's step changes the channel and what it has sent. *)
Inductive sender_step (c c' : chan A) (s s' : list A) : Prop :=
| ss_idle : c' = c → s' = s → sender_step c c' s s'
| ss_sent x : mpsc_send x c = Sent c' → s' = s ++ [x] → sender_step c c' s s'
| ss_gone : c' = mpsc_drop_rx c → s' = s → sender_step c c' s s'.

Lemma passed_prefix t c s : passed t c s → t `prefix_of` s.
Proof. unfold passed. destruct (mpsc_rx_alive c); [intros <-; by apply prefix_app_r|by intros [_ ?]]. Qed.

Lemma passed_sender t c c' s s' : passed t c s → sender_step c c' s s' → passed t c' s'.
Proof.
  intros Hp Hst. destruct Hst as [-> -> | x Hs -> | -> ->]; [done| |].
  - destruct (mpsc_send_Sent _ _ _ Hs) as (Hq & Ha & Ha' & _). unfold passed in *.
    rewrite Ha in Hp. rewrite Ha', Hq, (assoc_L (++)). by rewrite Hp.
  - apply passed_prefix in Hp. unfold passed. by rewrite mpsc_drop_alive, mpsc_drop_queued.
Qed.

Lemma passed_take t c c' s x : passed t c s → mpsc_recv c = Some (x, c') → passed (t ++ [x]) c' s.
Proof.
  intros Hp Hr. destruct (mpsc_recv_Some _ _ _ Hr) as (Hq & Ha & _). unfold passed in *. rewrite Ha.
  destruct (mpsc_rx_alive c); [|destruct Hp; congruence]. by rewrite <-(assoc_L (++)), <-Hp, Hq.
Qed.
End passed.

Create Rewrite HintDb mpsc.
#[export] Hint Rewrite @mpsc_queued_new @mpsc_alive_new @mpsc_bound_new
  @mpsc_drop_alive @mpsc_drop_queued @mpsc_drop_bound : mpsc.
