(* ===== verification/ServerMetrics.v ===== *)
(** * tunnel-server: metrics and observable actions

    The Prometheus calls of the hub ([struct Metrics]) and the other externally
    visible actions of a connection, recorded in the order they happen.  A gauge
    or counter is the net effect of the calls on it, so what a scrape returns is
    a function of the log. *)
From S2P Require Import Prelude RustStd Proto.

(** The metrics of [struct Metrics] with their label values. *)
Inductive metric :=
| MConnected
| MStreamsOpen (spoke_id : bytes)
| MBytesSent (spoke_id : bytes)
| MBytesRecv (spoke_id : bytes)
| MHandshakeFail (reason : bytes)
| MHttpRequests (spoke_id : bytes) (result : bytes).

#[export] Instance metric_eq_dec : EqDecision metric.
Proof. solve_decision. Defined.

(** The request [handle_http_request] hands to the HTTP client. *)
Record kernel_call := KernelCall {
  kc_method : bytes;
  kc_url : bytes;
  kc_headers : list (bytes * bytes);
  kc_body : bytes }.

#[export] Instance kernel_call_eq_dec : EqDecision kernel_call.
Proof. solve_decision. Defined.

(** How a call to the kernel ended: not sent, its response body not read, or
    with status, headers and body. *)
Inductive kernel_result :=
| KSendErr (e : bytes)
| KBodyErr (e : bytes)
| KAnswer (status : N) (headers : gmap bytes bytes) (body : bytes).

#[export] Instance kernel_result_eq_dec : EqDecision kernel_result.
Proof. solve_decision. Defined.

Inductive obs :=
| OAdd (m : metric) (by_ : Z)                 (* inc, dec or inc_by *)
| OSent (f : server_frame)                    (* queued on server_tx *)
| ORecv (f : client_frame)                    (* received from the spoke *)
| OTcpRead (k : nat) (payload : bytes)        (* read from hub-side TCP connection k *)
| OTcpWrote (k : nat) (payload : bytes)       (* written to it *)
| OTcpShutdown (k : nat)
| OQueued (k : nat) (payload : bytes)         (* handed to its writer task *)
| OAccepted (a k : nat)                       (* listener a accepted connection k *)
| OForward (h : nat) (c : kernel_call)        (* http task h calls the hub kernel *)
| OKernel (h : nat) (res : kernel_result)     (* its call ends *)
| OHttpStart (h : nat) (sid : N) (r : http_request). (* http task h spawned *)

#[export] Instance obs_eq_dec : EqDecision obs.
Proof. solve_decision. Defined.

Definition inc (m : metric) : obs := OAdd m 1.
Definition dec (m : metric) : obs := OAdd m (-1).
Definition inc_by (m : metric) (n : nat) : obs := OAdd m (Z.of_nat n).

(** ** Projections of a log *)
Fixpoint metric_value (m : metric) (l : list obs) : Z :=
  match l with
  | [] => 0
  | OAdd m' z :: l' => (if decide (m' = m) then z else 0) + metric_value m l'
  | _ :: l' => metric_value m l'
  end.

Definition sent_frames (l : list obs) : list server_frame :=
  omap (λ o, match o with OSent f => Some f | _ => None end) l.

Definition recv_frames (l : list obs) : list client_frame :=
  omap (λ o, match o with ORecv f => Some f | _ => None end) l.

Definition tcp_read (k : nat) (l : list obs) : bytes :=
  mjoin (omap (λ o, match o with OTcpRead k' p => if decide (k' = k) then Some p else None
                               | _ => None end) l).

Definition tcp_written (k : nat) (l : list obs) : bytes :=
  mjoin (omap (λ o, match o with OTcpWrote k' p => if decide (k' = k) then Some p else None
                               | _ => None end) l).

Definition queued_data (k : nat) (l : list obs) : bytes :=
  mjoin (omap (λ o, match o with OQueued k' p => if decide (k' = k) then Some p else None
                               | _ => None end) l).

(** The frames of one virtual TCP stream, in the order they were queued: its
    [Open], [Data] and [Close] frames (HTTP responses echo ids of their own). *)
Definition is_tcp_kind (k : server_kind) : bool :=
  match k with SOpen _ | SData _ | SClose _ => true | _ => false end.

Definition stream_kind (sid : N) (f : server_frame) : option server_kind :=
  match sf_kind f with
  | Some k => if bool_decide (sf_stream_id f = sid) && is_tcp_kind k then Some k else None
  | None => None
  end.

Definition stream_frames (sid : N) (l : list obs) : list server_kind :=
  omap (stream_kind sid) (sent_frames l).

(** The payload bytes of [Data] frames. *)
Definition data_payload (ks : list server_kind) : bytes :=
  mjoin (omap (λ k, match k with SData p => Some p | _ => None end) ks).

Definition accepts (a : nat) (l : list obs) : list nat :=
  omap (λ o, match o with OAccepted a' k => if decide (a' = a) then Some k else None
                        | _ => None end) l.

(** ** Lemmas: the projections distribute over the log *)
Lemma metric_value_app m l1 l2 :
  (metric_value m (l1 ++ l2) = metric_value m l1 + metric_value m l2)%Z.
Proof.
  induction l1 as [|o l1 IH]; [done|]. simpl. destruct o; simpl; rewrite ?IH; lia.
Qed.

Lemma sent_frames_app l1 l2 : sent_frames (l1 ++ l2) = sent_frames l1 ++ sent_frames l2.
Proof. apply omap_app. Qed.

Lemma recv_frames_app l1 l2 : recv_frames (l1 ++ l2) = recv_frames l1 ++ recv_frames l2.
Proof. apply omap_app. Qed.

Lemma tcp_read_app k l1 l2 : tcp_read k (l1 ++ l2) = tcp_read k l1 ++ tcp_read k l2.
Proof. unfold tcp_read. by rewrite omap_app, mjoin_app_bytes. Qed.

Lemma tcp_written_app k l1 l2 : tcp_written k (l1 ++ l2) = tcp_written k l1 ++ tcp_written k l2.
Proof. unfold tcp_written. by rewrite omap_app, mjoin_app_bytes. Qed.

Lemma queued_data_app k l1 l2 : queued_data k (l1 ++ l2) = queued_data k l1 ++ queued_data k l2.
Proof. unfold queued_data. by rewrite omap_app, mjoin_app_bytes. Qed.

Lemma stream_frames_app sid l1 l2 :
  stream_frames sid (l1 ++ l2) = stream_frames sid l1 ++ stream_frames sid l2.
Proof. unfold stream_frames. by rewrite sent_frames_app, omap_app. Qed.

Lemma data_payload_app l1 l2 : data_payload (l1 ++ l2) = data_payload l1 ++ data_payload l2.
Proof. unfold data_payload. by rewrite omap_app, mjoin_app_bytes. Qed.

Lemma accepts_app a l1 l2 : accepts a (l1 ++ l2) = accepts a l1 ++ accepts a l2.
Proof. apply omap_app. Qed.

Create Rewrite HintDb obs_log.
#[export] Hint Rewrite metric_value_app sent_frames_app recv_frames_app tcp_read_app tcp_written_app
  queued_data_app stream_frames_app data_payload_app accepts_app : obs_log.
