(* ===== verification/ServerHttp.v ===== *)
(** * tunnel-server: the application-spoke HTTP proxy

    The pure parts of [handle_http_request]: the allowlist check, the headers
    and URL of the request forwarded to the hub kernel, and the response frames.
    Parameters: [method_from_bytes] is [reqwest::Method::from_bytes] and
    [hash_iter] the unspecified iteration order of Rust's [HashMap]. *)
From S2P Require Import Prelude RustStd Proto ServerConfig ServerMetrics.

(** [HashMap::iter] visits every entry once, in an unspecified order. *)
Class HashIter := hash_iter : gmap bytes bytes → list (bytes * bytes).
Class HashIterLaw `{HashIter} := hash_iter_perm m : hash_iter m ≡ₚ map_to_list m.

#[export] Instance map_order_iter : HashIter := map_to_list.
#[export] Instance map_order_law : HashIterLaw.
Proof. intros m. reflexivity. Qed.

Definition reserved_prefix : bytes := lit "x-openspoke-".
Definition spoke_id_header : bytes := lit "x-openspoke-spoke-id".

Definition server_frame_http (sid : N) (r : http_response) : server_frame :=
  ServerFrame sid (Some (SHttpResponse r)).

(** The 403 of a non-application spoke ([recv_loop]) and of a path outside the
    allowlist, and the status-0 answers of an unreachable kernel. *)
Definition rejected_kind_response : http_response :=
  HttpResponse 403 ∅ (lit "application spoke required") (lit "rejected_kind").

Definition rejected_path_response (path : bytes) : http_response :=
  HttpResponse 403 ∅ (lit "path not allowed: " ++ path) (lit "rejected_path").

Definition upstream_error_response (e : bytes) : http_response :=
  HttpResponse 0 ∅ [] (lit "upstream error: " ++ e).

Definition upstream_body_error_response (e : bytes) : http_response :=
  HttpResponse 0 ∅ [] (lit "upstream body error: " ++ e).

(** Response headers: values that are not visible ASCII ([to_str] fails) are
    dropped, later values of a name replace earlier ones. *)
Definition collect_headers (hs : list (bytes * option bytes)) : gmap bytes bytes :=
  foldl (λ m kv, match kv.2 with Some v => <[kv.1 := v]> m | None => m end) ∅ hs.

Definition ok_response (status : N) (headers : gmap bytes bytes) (body : bytes) : http_response :=
  HttpResponse (Z.of_N status) headers body [].

(** Which spoke headers are forwarded. *)
Definition header_forwarded (k : bytes) : bool :=
  if eq_ignore_ascii_case k (lit "host") then false
  else negb (starts_with reserved_prefix (to_ascii_lowercase k)).

Section request.
Context `{HashIter} (method_from_bytes : bytes → option bytes).

Definition forward_headers (spoke_id : bytes) (hs : gmap bytes bytes) : list (bytes * bytes) :=
  filter (λ kv, header_forwarded kv.1 = true) (hash_iter hs)
  ++ [(spoke_id_header, spoke_id)].

Definition forward_call (cfg : server_config) (spoke_id : bytes) (req : http_request) : kernel_call :=
  KernelCall (default (lit "GET") (method_from_bytes (req_method req)))
    (kernel_url cfg ++ req_path req)
    (forward_headers spoke_id (req_headers req))
    (req_body req).

(** ** Properties *)

Lemma identity_reserved : starts_with reserved_prefix (to_ascii_lowercase spoke_id_header) = true.
Proof. by vm_compute. Qed.

Lemma forwarded_not_reserved k :
  header_forwarded k = true →
  eq_ignore_ascii_case k (lit "host") = false ∧ starts_with reserved_prefix (to_ascii_lowercase k) = false.
Proof.
  unfold header_forwarded. destruct (eq_ignore_ascii_case k (lit "host")); [done|].
  by destruct (starts_with _ _).
Qed.

(** C30: the kernel sees exactly one [x-openspoke-*] header, carrying the
    authenticated spoke id, whatever case-variants of it the spoke sends; and
    no [Host] header of the spoke. *)
Theorem forward_headers_no_spoof `{!HashIterLaw} spoke_id hs :
  (∀ k v, (k, v) ∈ forward_headers spoke_id hs →
     eq_ignore_ascii_case k (lit "host") = false ∧
     (starts_with reserved_prefix (to_ascii_lowercase k) = true → k = spoke_id_header ∧ v = spoke_id)) ∧
  filter (λ kv, starts_with reserved_prefix (to_ascii_lowercase kv.1) = true) (forward_headers spoke_id hs)
    = [(spoke_id_header, spoke_id)].
Proof.
  unfold forward_headers. split.
  - intros k v. rewrite elem_of_app, list_elem_of_filter, list_elem_of_singleton.
    intros [[[Hh Hr]%forwarded_not_reserved _]|Heq]; cbn [fst] in *.
    + split; [done|]. by rewrite Hr.
    + simplify_eq. split; [by vm_compute|done].
  - rewrite filter_app. induction (hash_iter hs) as [|[k v] l IH]; [by rewrite filter_cons_True|].
    rewrite filter_cons. case_decide as Hf; [|exact IH].
    rewrite filter_cons_False; [exact IH|]. cbn [fst] in *.
    by destruct (forwarded_not_reserved k Hf) as [_ ->].
Qed.

(** Every other header of the spoke reaches the kernel unchanged, and
    nothing else does: URL, method and body are the request's, below the pinned
    kernel base URL. *)
Theorem forward_call_faithful `{!HashIterLaw} cfg spoke_id req :
  let c := forward_call cfg spoke_id req in
  kc_url c = kernel_url cfg ++ req_path req ∧
  kc_body c = req_body req ∧
  (∀ k v, (k, v) ∈ kc_headers c ↔
     (header_forwarded k = true ∧ req_headers req !! k = Some v)
     ∨ (k = spoke_id_header ∧ v = spoke_id)).
Proof.
  split_and!; [done..|]. intros k v. simpl. unfold forward_headers.
  rewrite elem_of_app, list_elem_of_filter, list_elem_of_singleton.
  rewrite (hash_iter_perm (req_headers req)), elem_of_map_to_list. simpl. naive_solver.
Qed.
End request.
