(* ===== verification/ServerSession.v ===== *)
(** * tunnel-server: one spoke session and its tasks

    [struct SpokeSession] with the tasks that share it: [accept_loop] (one per
    listener), the upstream and downstream pumps it spawns per TCP connection,
    [recv_loop], and one [handle_http_request] task per proxied request.  Each
    task is a program counter; a step runs one task from one await point to
    the next, touching the shared session state at most once (metric calls and
    other observations are appended to the log in the same step).  The label of
    a step says which task runs and what its environment (sockets, the gRPC
    stream, the HTTP client) answered. *)
From S2P Require Import Prelude RustStd Proto ServerConfig Channel ServerMetrics ServerHttp.

(** ** State *)
Record spoke_session (chan : Type → Type) := SpokeSession {
  ss_spoke_id : bytes;
  ss_server_tx : chan server_frame;
  ss_streams : gmap N nat;      (* stream id -> connection whose writer it feeds *)
  ss_closed : bool }.
Arguments SpokeSession {chan} _ _ _ _.
Arguments ss_spoke_id {chan} _.
Arguments ss_server_tx {chan} _.
Arguments ss_streams {chan} _.
Arguments ss_closed {chan} _.

Inductive accept_pc :=
| AcCheck                       (* loop head: load session.closed *)
| AcAccept                      (* in ln.accept().await *)
| AcInsert (k : nat) (sid : N)  (* accepted, id taken; lock streams and insert *)
| AcOpen (k : nat) (sid : N)    (* send the Open frame *)
| AcRollback (k : nat) (sid : N)
| AcDone.

Inductive up_pc := UpOff | UpRead | UpSend (payload : bytes) | UpSendEof | UpRemove | UpDone.
Inductive dn_pc := DnOff | DnRecv | DnWrite (payload : bytes) | DnShutdown | DnDone.

Inductive recv_pc :=
| RvNext
| RvSend (k : nat) (sid : N) (payload : bytes)
| RvRemove (sid : N)
| RvReject (sid : N)
| RvDone.

Inductive http_pc :=
| HtStart
| HtSend
| HtBody (status : N) (headers : gmap bytes bytes)
| HtReply (r : http_response)
| HtDone.

(** One accepted TCP connection with its writer channel and its two pumps. *)
Record conn (chan : Type → Type) := Conn {
  cn_sid : N;
  cn_writer : chan bytes;
  cn_up : up_pc;
  cn_dn : dn_pc }.
Arguments Conn {chan} _ _ _ _.
Arguments cn_sid {chan} _.
Arguments cn_writer {chan} _.
Arguments cn_up {chan} _.
Arguments cn_dn {chan} _.

Record acceptor := Acceptor { ac_target : bytes; ac_pc : accept_pc }.

Record http_task := HttpTask { ht_sid : N; ht_req : http_request; ht_pc : http_pc }.

Record sess_world (chan : Type → Type) := SessWorld {
  w_session : spoke_session chan;
  w_next_sid : N;               (* the process-wide AtomicU64 *)
  w_conns : gmap nat (conn chan);
  w_accept : gmap nat acceptor;
  w_recv : recv_pc;
  w_http : gmap nat http_task;
  w_log : list obs }.
Arguments SessWorld {chan} _ _ _ _ _ _ _.
Arguments w_session {chan} _.
Arguments w_next_sid {chan} _.
Arguments w_conns {chan} _.
Arguments w_accept {chan} _.
Arguments w_recv {chan} _.
Arguments w_http {chan} _.
Arguments w_log {chan} _.

(** What the environment answers at an await point. *)
Inductive event :=
| Tick                                       (* nothing external *)
| Accepted (k : nat)                         (* accept() -> Ok, connection k *)
| AcceptErr
| ReadOk (payload : bytes)                   (* read() -> Ok(n); empty is EOF *)
| ReadErr
| WriteOk
| WriteErr (written : nat)                   (* write_all failed after a prefix *)
| StreamFrame (f : client_frame) (h : nat)   (* next() -> Some(Ok(f)); h names a spawned task *)
| StreamErr
| StreamEnd
| HttpSent (status : N) (headers : list (bytes * option bytes))
| HttpSendErr (e : bytes)
| HttpBodyOk (body : bytes)
| HttpBodyErr (e : bytes).

Inductive sess_label :=
| LCloseFlag                                 (* close(): closed.store(true) *)
| LCloseClear                                (* close(): lock and clear the streams *)
| LTxTake                                    (* tonic takes a frame off the response stream *)
| LTxDrop                                    (* tonic drops the response stream *)
| LForeignSid                                (* another session takes a stream id *)
| LListen (a : nat) (target : bytes)         (* handle_connection spawns accept_loop *)
| LAbort (a : nat)                           (* JoinHandle::abort *)
| LAccept (a : nat) (e : event)
| LUp (k : nat) (e : event)
| LDn (k : nat) (e : event)
| LRecv (e : event)
| LHttp (h : nat) (e : event).

Section setters.
Context {chan : Type → Type}.
Implicit Types (w : sess_world chan) (s : spoke_session chan).

Definition with_tx (c : chan server_frame) (s : spoke_session chan) : spoke_session chan :=
  SpokeSession (ss_spoke_id s) c (ss_streams s) (ss_closed s).
Definition with_streams (m : gmap N nat) (s : spoke_session chan) : spoke_session chan :=
  SpokeSession (ss_spoke_id s) (ss_server_tx s) m (ss_closed s).
Definition with_closed (b : bool) (s : spoke_session chan) : spoke_session chan :=
  SpokeSession (ss_spoke_id s) (ss_server_tx s) (ss_streams s) b.

Definition set_session (s : spoke_session chan) w : sess_world chan :=
  SessWorld s (w_next_sid w) (w_conns w) (w_accept w) (w_recv w) (w_http w) (w_log w).
Definition set_next_sid (n : N) w : sess_world chan :=
  SessWorld (w_session w) n (w_conns w) (w_accept w) (w_recv w) (w_http w) (w_log w).
Definition set_conn (k : nat) (c : conn chan) w : sess_world chan :=
  SessWorld (w_session w) (w_next_sid w) (<[k := c]> (w_conns w)) (w_accept w) (w_recv w)
    (w_http w) (w_log w).
Definition set_accept (a : nat) (t : acceptor) w : sess_world chan :=
  SessWorld (w_session w) (w_next_sid w) (w_conns w) (<[a := t]> (w_accept w)) (w_recv w)
    (w_http w) (w_log w).
Definition set_recv (pc : recv_pc) w : sess_world chan :=
  SessWorld (w_session w) (w_next_sid w) (w_conns w) (w_accept w) pc (w_http w) (w_log w).
Definition set_http (h : nat) (t : http_task) w : sess_world chan :=
  SessWorld (w_session w) (w_next_sid w) (w_conns w) (w_accept w) (w_recv w)
    (<[h := t]> (w_http w)) (w_log w).
Definition add_log (l : list obs) w : sess_world chan :=
  SessWorld (w_session w) (w_next_sid w) (w_conns w) (w_accept w) (w_recv w) (w_http w)
    (w_log w ++ l).

Definition set_up (pc : up_pc) (c : conn chan) : conn chan :=
  Conn (cn_sid c) (cn_writer c) pc (cn_dn c).
Definition set_dn (pc : dn_pc) (c : conn chan) : conn chan :=
  Conn (cn_sid c) (cn_writer c) (cn_up c) pc.
Definition set_writer (q : chan bytes) (c : conn chan) : conn chan :=
  Conn (cn_sid c) q (cn_up c) (cn_dn c).

End setters.

Section server_session.
Context {chan : Type → Type} `{!MpscOps chan}.
Context `{!HashIter}.
(* reqwest::Method::from_bytes *)
Context (method_from_bytes : bytes → option bytes).
(* the arguments of recv_loop *)
Context (cfg : server_config) (sc : spoke_config).
Implicit Types (w : sess_world chan).

(** [SpokeSession::send]: [None] while the channel is full. *)
Definition session_send (f : server_frame) (w : sess_world chan)
    : option (bool * sess_world chan) :=
  match mpsc_send f (ss_server_tx (w_session w)) with
  | Sent c => Some (true, add_log [OSent f] (set_session (with_tx c (w_session w)) w))
  | SendFull => None
  | SendClosed => Some (false, w)
  end.

(** [streams.remove(&sid)], decrementing the gauge when the entry was there. *)
Definition remove_stream (sid : N) (w : sess_world chan) : sess_world chan :=
  let s := w_session w in
  match ss_streams s !! sid with
  | Some _ =>
      add_log [dec (MStreamsOpen (ss_spoke_id s))]
        (set_session (with_streams (delete sid (ss_streams s)) s) w)
  | None => w
  end.

(** [SpokeSession::close], its two shared-state accesses. *)
Definition close_flag (w : sess_world chan) : sess_world chan :=
  set_session (with_closed true (w_session w)) w.

Definition close_clear (w : sess_world chan) : option (sess_world chan) :=
  if ss_closed (w_session w)
  then Some (set_session (with_streams ∅ (w_session w)) w) else None.

(** The other end of [server_tx], the [ReceiverStream] [connect] returns. *)
Definition tx_take (w : sess_world chan) : option (sess_world chan) :=
  match mpsc_recv (ss_server_tx (w_session w)) with
  | Some (_, c) => Some (set_session (with_tx c (w_session w)) w)
  | None => None
  end.

Definition tx_drop (w : sess_world chan) : sess_world chan :=
  set_session (with_tx (mpsc_drop_rx (ss_server_tx (w_session w))) (w_session w)) w.

Definition open_frame (sid : N) (target : bytes) : server_frame :=
  ServerFrame sid (Some (SOpen (OpenStream (lit "tcp") target))).
Definition data_frame (sid : N) (payload : bytes) : server_frame :=
  ServerFrame sid (Some (SData payload)).
Definition eof_frame (sid : N) : server_frame :=
  ServerFrame sid (Some (SClose (CloseStream true (lit "eof")))).

(** [accept_loop] *)
Definition accept_step (a : nat) (t : acceptor) (e : event) (w : sess_world chan)
    : option (sess_world chan) :=
  let goto pc := set_accept a (Acceptor (ac_target t) pc) in
  let s := w_session w in
  match ac_pc t, e with
  | AcCheck, Tick => Some (goto (if ss_closed s then AcDone else AcAccept) w)
  | AcAccept, Accepted k =>
      match w_conns w !! k with
      | Some _ => None
      | None =>
          let '(old, new) := fetch_add1 (w_next_sid w) in
          let sid := wrap_u64 (old + 1) in
          Some (add_log [OAccepted a k]
            (set_conn k (Conn sid (mpsc_channel 64) UpOff DnOff)
              (goto (AcInsert k sid) (set_next_sid new w))))
      end
  | AcAccept, AcceptErr => Some (goto AcDone w)
  | AcInsert k sid, Tick =>
      Some (add_log [inc (MStreamsOpen (ss_spoke_id s))]
        (set_session (with_streams (<[sid := k]> (ss_streams s)) s) (goto (AcOpen k sid) w)))
  | AcOpen k sid, Tick =>
      match session_send (open_frame sid (ac_target t)) w with
      | Some (true, w') =>
          match w_conns w' !! k with
          | Some c => Some (set_conn k (set_dn DnRecv (set_up UpRead c)) (goto AcCheck w'))
          | None => None
          end
      | Some (false, w') => Some (goto (AcRollback k sid) w')
      | None => None
      end
  | AcRollback k sid, Tick =>
      match w_conns w !! k with
      | Some c =>
          Some (set_conn k (set_writer (mpsc_drop_rx (cn_writer c)) (set_dn DnDone (set_up UpDone c)))
            (goto AcCheck
              (add_log [dec (MStreamsOpen (ss_spoke_id s))]
                (set_session (with_streams (delete sid (ss_streams s)) s) w))))
      | None => None
      end
  | _, _ => None
  end.

(** [JoinHandle::abort] takes effect at an await point of [accept_loop], and
    drops what the task owns: the accepted socket and the writer's receiver. *)
Definition abort_step (a : nat) (t : acceptor) (w : sess_world chan) : option (sess_world chan) :=
  let stop := set_accept a (Acceptor (ac_target t) AcDone) in
  match ac_pc t with
  | AcAccept => Some (stop w)
  | AcInsert k _ | AcOpen k _ | AcRollback k _ =>
      match w_conns w !! k with
      | Some c =>
          Some (set_conn k (set_writer (mpsc_drop_rx (cn_writer c)) (set_dn DnDone (set_up UpDone c)))
                  (stop w))
      | None => None
      end
  | _ => None
  end.

(** The upstream pump: TCP -> spoke Data frames. *)
Definition up_step (k : nat) (c : conn chan) (e : event) (w : sess_world chan)
    : option (sess_world chan) :=
  let goto pc := set_conn k (set_up pc c) in
  match cn_up c, e with
  | UpRead, ReadOk payload =>
      match payload with
      | [] => Some (goto UpSendEof w)
      | _ :: _ =>
          if decide (length payload ≤ 32 * 1024) then
            Some (add_log [OTcpRead k payload;
                           inc_by (MBytesSent (ss_spoke_id (w_session w))) (length payload)]
                    (goto (UpSend payload) w))
          else None
      end
  | UpRead, ReadErr => Some (goto UpRemove w)
  | UpSend payload, Tick =>
      match session_send (data_frame (cn_sid c) payload) w with
      | Some (true, w') => Some (goto UpRead w')
      | Some (false, w') => Some (goto UpRemove w')
      | None => None
      end
  | UpSendEof, Tick =>
      match session_send (eof_frame (cn_sid c)) w with
      | Some (_, w') => Some (goto UpRemove w')
      | None => None
      end
  | UpRemove, Tick => Some (goto UpDone (remove_stream (cn_sid c) w))
  | _, _ => None
  end.

(** Does a sender of connection [k]'s writer channel still exist: its entry in
    the streams map, or the clone [recv_loop] holds while sending. *)
Definition has_sender (k : nat) (c : conn chan) (w : sess_world chan) : bool :=
  bool_decide (ss_streams (w_session w) !! cn_sid c = Some k)
  || match w_recv w with RvSend k' _ _ => bool_decide (k' = k) | _ => false end.

(** The downstream pump: spoke Data -> TCP. *)
Definition dn_step (k : nat) (c : conn chan) (e : event) (w : sess_world chan)
    : option (sess_world chan) :=
  let goto pc := set_conn k (set_dn pc c) in
  match cn_dn c, e with
  | DnRecv, Tick =>
      match mpsc_recv (cn_writer c) with
      | Some (p, q) => Some (set_conn k (set_dn (DnWrite p) (set_writer q c)) w)
      | None => if has_sender k c w then None else Some (goto DnShutdown w)
      end
  | DnWrite p, WriteOk => Some (add_log [OTcpWrote k p] (goto DnRecv w))
  | DnWrite p, WriteErr n => Some (add_log [OTcpWrote k (take n p)] (goto DnShutdown w))
  | DnShutdown, Tick =>
      Some (add_log [OTcpShutdown k]
        (set_conn k (set_writer (mpsc_drop_rx (cn_writer c)) (set_dn DnDone c)) w))
  | _, _ => None
  end.

(** The dispatch of one client frame in [recv_loop]. *)
Definition recv_frame (f : client_frame) (h : nat) (w : sess_world chan)
    : option (sess_world chan) :=
  let w := add_log [ORecv f] w in
  let s := w_session w in
  let sid := cf_stream_id f in
  match cf_kind f with
  | Some (CData payload) =>
      match ss_streams s !! sid with
      | Some k =>
          Some (add_log [inc_by (MBytesRecv (ss_spoke_id s)) (length payload)]
                  (set_recv (RvSend k sid payload) w))
      | None => Some w
      end
  | Some (CClose _) => Some (remove_stream sid w)
  | Some (CPong _) => Some w
  | Some (CHttpRequest req) =>
      match sc_kind sc with
      | Application =>
          match w_http w !! h with
          | Some _ => None
          | None => Some (add_log [OHttpStart h sid req]
                            (set_http h (HttpTask sid req HtStart) w))
          end
      | Cluster =>
          Some (add_log [inc (MHttpRequests (ss_spoke_id s) (lit "rejected_kind"))]
                  (set_recv (RvReject sid) w))
      end
  | Some (CHandshake _) => Some w
  | None => Some w
  end.

(** [recv_loop] *)
Definition recv_step (e : event) (w : sess_world chan) : option (sess_world chan) :=
  match w_recv w, e with
  | RvNext, StreamFrame f h => recv_frame f h w
  | RvNext, StreamErr => Some (set_recv RvDone w)
  | RvNext, StreamEnd => Some (set_recv RvDone w)
  | RvSend k sid payload, Tick =>
      match w_conns w !! k with
      | Some c =>
          match mpsc_send payload (cn_writer c) with
          | Sent q => Some (add_log [OQueued k payload]
                              (set_conn k (set_writer q c) (set_recv RvNext w)))
          | SendFull => None
          | SendClosed => Some (set_recv (RvRemove sid) w)
          end
      | None => None
      end
  | RvRemove sid, Tick => Some (set_recv RvNext (remove_stream sid w))
  | RvReject sid, Tick =>
      match session_send (server_frame_http sid rejected_kind_response) w with
      | Some (_, w') => Some (set_recv RvNext w')
      | None => None
      end
  | _, _ => None
  end.

(** [handle_http_request] *)
Definition http_step (h : nat) (t : http_task) (e : event) (w : sess_world chan)
    : option (sess_world chan) :=
  let goto pc := set_http h (HttpTask (ht_sid t) (ht_req t) pc) in
  let id := ss_spoke_id (w_session w) in
  let count result := inc (MHttpRequests id result) in
  match ht_pc t, e with
  | HtStart, Tick =>
      if decide (req_path (ht_req t) ∈ allowed_paths cfg) then
        Some (add_log [OForward h (forward_call method_from_bytes cfg id (ht_req t))] (goto HtSend w))
      else
        Some (add_log [count (lit "rejected_path")]
          (goto (HtReply (rejected_path_response (req_path (ht_req t)))) w))
  | HtSend, HttpSendErr e =>
      Some (add_log [OKernel h (KSendErr e); count (lit "upstream_err")]
        (goto (HtReply (upstream_error_response e)) w))
  | HtSend, HttpSent status headers => Some (goto (HtBody status (collect_headers headers)) w)
  | HtBody _ _, HttpBodyErr e =>
      Some (add_log [OKernel h (KBodyErr e); count (lit "upstream_err")]
        (goto (HtReply (upstream_body_error_response e)) w))
  | HtBody status headers, HttpBodyOk body =>
      Some (add_log [OKernel h (KAnswer status headers body); count (lit "ok")]
        (goto (HtReply (ok_response status headers body)) w))
  | HtReply r, Tick =>
      match session_send (server_frame_http (ht_sid t) r) w with
      | Some (_, w') => Some (goto HtDone w')
      | None => None
      end
  | _, _ => None
  end.

(** One step of the session. *)
Definition sess_step (l : sess_label) (w : sess_world chan) : option (sess_world chan) :=
  match l with
  | LCloseFlag => Some (close_flag w)
  | LCloseClear => close_clear w
  | LTxTake => tx_take w
  | LTxDrop => Some (tx_drop w)
  | LForeignSid => Some (set_next_sid (wrap_u64 (w_next_sid w + 1)) w)
  | LListen a target =>
      match w_accept w !! a with
      | Some _ => None
      | None => Some (set_accept a (Acceptor target AcCheck) w)
      end
  | LAbort a => match w_accept w !! a with Some t => abort_step a t w | None => None end
  | LAccept a e => match w_accept w !! a with Some t => accept_step a t e w | None => None end
  | LUp k e => match w_conns w !! k with Some c => up_step k c e w | None => None end
  | LDn k e => match w_conns w !! k with Some c => dn_step k c e w | None => None end
  | LRecv e => recv_step e w
  | LHttp h e => match w_http w !! h with Some t => http_step h t e w | None => None end
  end.

(** Runs in which the process-wide counter has not wrapped, that is with fewer
    than 2^64 accepted connections since the start. *)
Definition sess_step_nowrap (l : sess_label) (w : sess_world chan) : option (sess_world chan) :=
  if (w_next_sid w + 1 <? u64_modulus)%N then sess_step l w else None.

(** The session [handle_connection] creates: no streams, open, no tasks yet. *)
Definition new_session (spoke_id : bytes) (tx : chan server_frame) : spoke_session chan :=
  SpokeSession spoke_id tx ∅ false.

Definition sess_init (w : sess_world chan) : Prop :=
  ∃ tx, w_session w = new_session (sc_spoke_id sc) tx ∧
    w_conns w = ∅ ∧ w_accept w = ∅ ∧ w_recv w = RvNext ∧ w_http w = ∅ ∧ w_log w = [].


(** ** Inversion of the helpers *)
Lemma session_send_Some f w b w' :
  session_send f w = Some (b, w') →
  (b = true ∧ ∃ c, mpsc_send f (ss_server_tx (w_session w)) = Sent c ∧
     w' = add_log [OSent f] (set_session (with_tx c (w_session w)) w)) ∨
  (b = false ∧ w' = w ∧ mpsc_send f (ss_server_tx (w_session w)) = SendClosed).
Proof.
  unfold session_send. destruct (mpsc_send f _) eqn:Hs; intros; simplify_eq; eauto.
Qed.

Lemma remove_stream_cases sid w :
  (ss_streams (w_session w) !! sid = None ∧ remove_stream sid w = w) ∨
  (∃ k, ss_streams (w_session w) !! sid = Some k ∧
     remove_stream sid w =
       add_log [dec (MStreamsOpen (ss_spoke_id (w_session w)))]
        (set_session (with_streams (delete sid (ss_streams (w_session w))) (w_session w)) w)).
Proof. unfold remove_stream. destruct (ss_streams _ !! sid) eqn:Hs; eauto. Qed.

End server_session.

(** Case analysis of a session step: one goal per transition of the source,
    with the sends and removals resolved. *)
Ltac sess_split H :=
  unfold sess_step in H; cbv beta iota in H;
  unfold accept_step, abort_step, up_step, dn_step, recv_step, recv_frame,
    http_step, close_clear, close_flag, tx_take, tx_drop, fetch_add1 in H;
  repeat first
    [ discriminate H
    | match type of H with
      | context [match session_send ?f ?w with _ => _ end] =>
          let E := fresh "Hsend" in destruct (session_send f w) as [[[] ?]|] eqn:E;
          [apply session_send_Some in E as [(_ & ? & ? & ->)|(? & _)];
             [|discriminate]
          |apply session_send_Some in E as [(? & _)|(_ & -> & ?)]; [discriminate|]
          |]
      | context [match ?x with _ => _ end] => destruct x eqn:?
      end ];
  injection H as <-.
Ltac sess_inv H :=
  match type of H with sess_step _ _ _ ?l _ = _ => destruct l end; sess_split H.
