(* ===== verification/SessionTrans.v ===== *)
(** * tunnel-server: the life of one connection inside a session

    Every step of a session changes at most one TCP connection.  [conn_trans]
    lists the ways a connection can change together with what the step appends
    to the log; [sess_step_conns] shows that the executable step function obeys
    it.  The invariants about single connections are proved over this relation. *)
From S2P Require Import Prelude RustStd Proto ServerConfig Channel ServerMetrics ServerHttp ServerSession.

(** The connection an accept loop is setting up, with its stream id if taken. *)
Definition ac_holds (pc : accept_pc) : option (nat * N) :=
  match pc with
  | AcInsert k sid | AcOpen k sid | AcRollback k sid => Some (k, sid)
  | _ => None
  end.

(** Observations that belong to no TCP connection. *)
Definition quiet_obs (o : obs) : Prop :=
  match o with
  | OAdd _ _ | ORecv _ | OForward _ _ | OKernel _ _ | OHttpStart _ _ _ => True
  | OSent (ServerFrame _ (Some (SHttpResponse _))) => True
  | _ => False
  end.

Section trans.
Context {chan : Type → Type} `{Hmpsc : Mpsc chan}.
Implicit Types (w : sess_world chan) (c : conn chan).

(** How a step changes connection [k]: the connection before, what the step
    logs, the connection after, and the stream-id counter around it. *)
Inductive conn_trans (k : nat) (n : N) : option (conn chan) → list obs → conn chan → N → Prop :=
| ct_accept a :
    conn_trans k n None [OAccepted a k]
      (Conn (wrap_u64 (n + 1)) (mpsc_channel 64) UpOff DnOff) (wrap_u64 (n + 1))
| ct_open c target :
    cn_up c = UpOff → cn_dn c = DnOff →
    conn_trans k n (Some c) [OSent (open_frame (cn_sid c) target)] (set_dn DnRecv (set_up UpRead c)) n
| ct_drop c l :
    cn_up c = UpOff → cn_dn c = DnOff → Forall quiet_obs l →
    conn_trans k n (Some c) l
      (set_writer (mpsc_drop_rx (cn_writer c)) (set_dn DnDone (set_up UpDone c))) n
| ct_read c p m :
    cn_up c = UpRead → quiet_obs m →
    conn_trans k n (Some c) [OTcpRead k p; m] (set_up (UpSend p) c) n
| ct_read_eof c : cn_up c = UpRead → conn_trans k n (Some c) [] (set_up UpSendEof c) n
| ct_up_fail c :
    cn_up c ≠ UpOff → cn_up c ≠ UpDone → conn_trans k n (Some c) [] (set_up UpRemove c) n
| ct_send c p :
    cn_up c = UpSend p →
    conn_trans k n (Some c) [OSent (data_frame (cn_sid c) p)] (set_up UpRead c) n
| ct_send_eof c :
    cn_up c = UpSendEof →
    conn_trans k n (Some c) [OSent (eof_frame (cn_sid c))] (set_up UpRemove c) n
| ct_remove c l :
    cn_up c = UpRemove → Forall quiet_obs l → conn_trans k n (Some c) l (set_up UpDone c) n
| ct_recv c p q :
    cn_dn c = DnRecv → mpsc_recv (cn_writer c) = Some (p, q) →
    conn_trans k n (Some c) [] (set_dn (DnWrite p) (set_writer q c)) n
| ct_recv_end c :
    cn_dn c = DnRecv → mpsc_recv (cn_writer c) = None →
    conn_trans k n (Some c) [] (set_dn DnShutdown c) n
| ct_wrote c p :
    cn_dn c = DnWrite p → conn_trans k n (Some c) [OTcpWrote k p] (set_dn DnRecv c) n
| ct_write_err c p m :
    cn_dn c = DnWrite p →
    conn_trans k n (Some c) [OTcpWrote k (take m p)] (set_dn DnShutdown c) n
| ct_shutdown c :
    cn_dn c = DnShutdown →
    conn_trans k n (Some c) [OTcpShutdown k]
      (set_writer (mpsc_drop_rx (cn_writer c)) (set_dn DnDone c)) n
| ct_queue c p q :
    mpsc_send p (cn_writer c) = Sent q →
    conn_trans k n (Some c) [OQueued k p] (set_writer q c) n.

(** The connections held by accept loops are not yet running, and each is held
    once, under the stream id it was given. *)
Definition own_inv w : Prop :=
  (∀ a t k o, w_accept w !! a = Some t → ac_holds (ac_pc t) = Some (k, o) →
     ∃ c, w_conns w !! k = Some c ∧ cn_up c = UpOff ∧ cn_dn c = DnOff ∧ cn_sid c = o) ∧
  (∀ a1 a2 t1 t2 k o1 o2,
     w_accept w !! a1 = Some t1 → w_accept w !! a2 = Some t2 →
     ac_holds (ac_pc t1) = Some (k, o1) → ac_holds (ac_pc t2) = Some (k, o2) → a1 = a2).
End trans.

Section trans_facts.
Context {chan : Type → Type} `{Hmpsc : Mpsc chan} `{HI : HashIter}.
Context (mfb : bytes → option bytes) (cfg : server_config) (sc : spoke_config).
Implicit Types (w : sess_world chan) (c : conn chan).

Lemma remove_stream_conns sid w : w_conns (remove_stream sid w) = w_conns w.
Proof. unfold remove_stream. by case_match. Qed.
Lemma remove_stream_accept sid w : w_accept (remove_stream sid w) = w_accept w.
Proof. unfold remove_stream. by case_match. Qed.
Lemma remove_stream_next_sid sid w : w_next_sid (remove_stream sid w) = w_next_sid w.
Proof. unfold remove_stream. by case_match. Qed.
Lemma remove_stream_log sid w :
  ∃ l, w_log (remove_stream sid w) = w_log w ++ l ∧ Forall quiet_obs l.
Proof.
  unfold remove_stream. case_match; simpl; [eexists; split; [done|by repeat constructor]|].
  exists []. by rewrite app_nil_r.
Qed.

Lemma own_inv_init w : sess_init sc w → own_inv w.
Proof.
  intros (tx & _ & _ & Ha & _). split; intros *; rewrite Ha, lookup_empty; naive_solver.
Qed.

(** [own_inv] depends only on the accept loops and on the pump states. *)
Lemma own_inv_conn k c c' w w' :
  own_inv w → w_accept w' = w_accept w → w_conns w !! k = Some c →
  w_conns w' = <[k := c']> (w_conns w) →
  (cn_up c = UpOff → cn_dn c = DnOff → cn_up c' = UpOff ∧ cn_dn c' = DnOff ∧ cn_sid c' = cn_sid c) →
  own_inv w'.
Proof.
  intros [H1 H2] Ha Hk Hc Hcc. split; rewrite Ha; [|done].
  intros a t k' o Ht Hh. destruct (H1 a t k' o Ht Hh) as (c0 & Hc0 & Hu & Hd & Hs).
  rewrite Hc, lookup_insert. case_decide; simplify_eq; [|by eauto].
  destruct (Hcc Hu Hd) as (?&?&Hsid). eexists; split_and!; try done; congruence.
Qed.

Lemma own_inv_eq w w' :
  own_inv w → w_accept w' = w_accept w → w_conns w' = w_conns w → own_inv w'.
Proof. intros H Ha Hc. unfold own_inv. by rewrite Ha, Hc. Qed.

(** An accept loop that holds nothing, or still holds the same connection. *)
Lemma own_inv_idle a t w w' :
  own_inv w → w_accept w' = <[a := t]> (w_accept w) → w_conns w' = w_conns w →
  (ac_holds (ac_pc t) = None ∨
   ∃ t0, w_accept w !! a = Some t0 ∧ ac_holds (ac_pc t) = ac_holds (ac_pc t0)) →
  own_inv w'.
Proof.
  intros [H1 H2] Ha Hc Ht. split; rewrite Ha, ?Hc.
  - intros a' t' k' o'. rewrite lookup_insert. case_decide; intros; simplify_eq/=; [|by eauto].
    destruct Ht as [Ht|(t0 & Ht0 & Heq)]; [congruence|]. rewrite Heq in *. eauto.
  - intros a1 a2 t1 t2 k o1 o2. rewrite !lookup_insert.
    repeat case_decide; intros; simplify_eq/=; try done.
    + destruct Ht as [Ht|(t0 & Ht0 & Heq)]; [congruence|]. rewrite Heq in *. by eapply (H2 a1 a2).
    + destruct Ht as [Ht|(t0 & Ht0 & Heq)]; [congruence|]. rewrite Heq in *. by eapply (H2 a1 a2).
    + by eapply (H2 a1 a2).
Qed.

(** An accept loop lets go of its connection. *)
Lemma own_inv_release a t pc k o c' w w' :
  own_inv w → w_accept w !! a = Some t →
  w_accept w' = <[a := Acceptor (ac_target t) pc]> (w_accept w) →
  w_conns w' = <[k := c']> (w_conns w) →
  ac_holds pc = None → ac_holds (ac_pc t) = Some (k, o) →
  own_inv w'.
Proof.
  intros [H1 H2] Ht Ha Hc Hpc Hh. split; rewrite Ha.
  - intros a' t' k' o'. rewrite lookup_insert. case_decide; intros; simplify_eq/=; try congruence.
    destruct (H1 a' t' k' o') as (c0 & Hc0 & ?); [done|done|].
    rewrite Hc, lookup_insert_ne; [by eauto|]. intros ->.
    assert (a = a') by (eapply (H2 a a'); eauto). done.
  - intros a1 a2 t1 t2 k' o1 o2. rewrite !lookup_insert.
    repeat case_decide; intros; simplify_eq/=; try congruence. by eapply (H2 a1 a2).
Qed.

(** An accept loop takes a new connection. *)
Lemma own_inv_hold a t pc k sid0 c' w w' :
  own_inv w → w_accept w !! a = Some t →
  w_accept w' = <[a := Acceptor (ac_target t) pc]> (w_accept w) →
  w_conns w' = <[k := c']> (w_conns w) →
  ac_holds pc = Some (k, sid0) →
  cn_up c' = UpOff → cn_dn c' = DnOff → cn_sid c' = sid0 →
  w_conns w !! k = None →
  own_inv w'.
Proof.
  intros [H1 H2] Ht Ha Hc Hpc Hu Hd Hs Hk.
  assert (∀ a' t' o', a' ≠ a → w_accept w !! a' = Some t' →
            ac_holds (ac_pc t') = Some (k, o') → False) as Hother.
  { intros a' t' o' Hne Ht' Hh'. destruct (H1 a' t' k o') as (c0 & Hc0 & _); [done..|].
    congruence. }
  split; rewrite Ha.
  - intros a' t' k' o'. rewrite lookup_insert. case_decide as Haa; intros Ht' Hh'; simplify_eq/=.
    + rewrite Hc, lookup_insert_eq. eauto.
    + destruct (H1 a' t' k' o') as (c0 & Hc0 & ?); [done|done|]. rewrite Hc, lookup_insert.
      case_decide; subst; [by edestruct Hother; eauto|eauto].
  - intros a1 a2 t1 t2 k' o1 o2. rewrite !lookup_insert.
    repeat case_decide; intros; simplify_eq/=; try congruence.
    + exfalso. by eapply (Hother a2).
    + exfalso. by eapply (Hother a1).
    + by eapply (H2 a1 a2).
Qed.

Lemma own_inv_step l w w' : own_inv w → sess_step mfb cfg sc l w = Some w' → own_inv w'.
Proof.
  intros Hw HS. sess_inv HS;
    try (eapply own_inv_eq; [exact Hw|reflexivity|reflexivity]);
    try (eapply own_inv_eq; [exact Hw|apply remove_stream_accept|apply remove_stream_conns]);
    try (eapply own_inv_conn; [exact Hw|reflexivity|eassumption|reflexivity|]; simpl; (congruence || done)).
  all: try (eapply own_inv_conn; [exact Hw|apply remove_stream_accept|eassumption
         |simpl; by rewrite remove_stream_conns|]; simpl; congruence).
  all: try (eapply own_inv_idle; [exact Hw|reflexivity|reflexivity|]; simpl; (by left)).
  all: try (eapply own_inv_idle; [exact Hw|reflexivity|reflexivity|]; simpl; right;
         eexists; split; [eassumption|]; by match goal with H : ac_pc _ = _ |- _ => rewrite H end).
  all: try (eapply own_inv_release; [exact Hw|eassumption|reflexivity|reflexivity|reflexivity|];
         match goal with H : ac_pc _ = _ |- _ => by rewrite H end).
  - (* accepted *)
    eapply own_inv_hold; [exact Hw|eassumption|reflexivity..|done].
  - eapply own_inv_eq; [exact Hw|simpl; by rewrite remove_stream_accept
      |simpl; by rewrite remove_stream_conns].
Qed.

Lemma own_inv_reachable w :
  reachable (sess_step mfb cfg sc) (sess_init sc) w → own_inv w.
Proof. apply reachable_invariant; [apply own_inv_init|apply own_inv_step]. Qed.

(** The connection an accept loop works on, when [own_inv] holds. *)
Lemma own_inv_lookup w a t k o c :
  own_inv w → w_accept w !! a = Some t → ac_holds (ac_pc t) = Some (k, o) →
  w_conns w !! k = Some c →
  cn_up c = UpOff ∧ cn_dn c = DnOff ∧ cn_sid c = o.
Proof.
  intros [H1 _] Ht Hh Hc. destruct (H1 a t k o Ht Hh) as (c' & Hc' & ?). by simplify_eq.
Qed.

(** The shape of what a step does to the connections and to the log. *)
Definition conns_change w w' : Prop :=
  ∃ delta, w_log w' = w_log w ++ delta ∧
    ((w_conns w' = w_conns w ∧ Forall quiet_obs delta ∧
      (w_next_sid w' = w_next_sid w ∨ w_next_sid w' = wrap_u64 (w_next_sid w + 1))) ∨
     ∃ k c', w_conns w' = <[k := c']> (w_conns w) ∧
       conn_trans k (w_next_sid w) (w_conns w !! k) delta c' (w_next_sid w')).

Lemma conns_change_quiet w w' l :
  w_log w' = w_log w ++ l → w_conns w' = w_conns w → w_next_sid w' = w_next_sid w →
  Forall quiet_obs l → conns_change w w'.
Proof. intros. exists l. eauto 6. Qed.

Lemma conns_change_same w w' :
  w_log w' = w_log w → w_conns w' = w_conns w → w_next_sid w' = w_next_sid w → conns_change w w'.
Proof. intros Hl Hc Hn. exists []. rewrite app_nil_r. eauto 6. Qed.

Lemma conns_change_conn w w' l k oc c' n' :
  w_log w' = w_log w ++ l → w_conns w' = <[k := c']> (w_conns w) →
  w_conns w !! k = oc → w_next_sid w' = n' →
  conn_trans k (w_next_sid w) oc l c' n' → conns_change w w'.
Proof. intros ? ? <- <- ?. exists l. eauto 6. Qed.

Lemma sess_step_conns l w w' :
  own_inv w → sess_step mfb cfg sc l w = Some w' → conns_change w w'.
Proof.
  intros Hw HS. sess_inv HS;
    try (apply conns_change_same; reflexivity);
    try (eapply conns_change_quiet; [reflexivity..|by repeat constructor]).
  all: try (match goal with
       | Ha : w_accept ?w0 !! _ = Some ?t, Hpc : ac_pc ?t = _, Hc : w_conns ?w0 !! _ = Some _ |- _ =>
           pose proof (eq_refl (ac_holds (ac_pc t))) as Hh; rewrite Hpc in Hh at 2; simpl in Hh;
           destruct (own_inv_lookup _ _ _ _ _ _ Hw Ha Hh Hc) as (Hu & Hd & Hs); clear Hh
       end).
  all: try (eapply conns_change_conn;
         [first [reflexivity|symmetry; apply app_nil_r]|reflexivity|eassumption|reflexivity|];
         first [by constructor | (econstructor; (eassumption || congruence || by repeat constructor))
               | (rewrite <-?Hs; by constructor)]).
  all: try (eapply conns_change_quiet;
         [simpl; by rewrite <-(assoc_L (++))|reflexivity|reflexivity|by repeat constructor]).
  all: try (destruct (remove_stream_log (cn_sid c) w) as (l' & Hl' & Hq');
         eapply conns_change_conn; [exact Hl'|simpl; by rewrite remove_stream_conns|eassumption
           |apply remove_stream_next_sid|]; by constructor).
  - (* foreign stream id *)
    exists []. rewrite app_nil_r. split; [done|]. left. split_and!; [done..|by right].
  - (* open sent *)
    destruct (own_inv_lookup w a a0 k sid c) as (Hu & Hd & Hs);
      [exact Hw|exact Heqo|by rewrite Heqa1|done|].
    eapply conns_change_conn; [reflexivity|reflexivity|done|reflexivity|].
    rewrite <-Hs. by constructor.
  - (* close frame *)
    destruct (remove_stream_log (cf_stream_id f) (add_log [ORecv f] w)) as (l' & Hl' & Hq').
    exists ([ORecv f] ++ l'). split; [rewrite Hl'; simpl; by rewrite <-(assoc_L (++))|].
    left. rewrite remove_stream_conns, remove_stream_next_sid.
    split_and!; [done|by constructor|by left].
  - (* failed write *)
    destruct (remove_stream_log sid w) as (l' & Hl' & Hq').
    eapply conns_change_quiet; [exact Hl'|simpl; by rewrite remove_stream_conns
      |simpl; by rewrite remove_stream_next_sid|done].
Qed.

End trans_facts.

(** ** What the log projections see of a step *)
Lemma quiet_tcp_read k l : Forall quiet_obs l → tcp_read k l = [].
Proof. induction 1 as [|[] l Ho _ IH]; try done; apply IH. Qed.
Lemma quiet_tcp_written k l : Forall quiet_obs l → tcp_written k l = [].
Proof. induction 1 as [|[] l Ho _ IH]; try done; apply IH. Qed.
Lemma quiet_queued k l : Forall quiet_obs l → queued_data k l = [].
Proof. induction 1 as [|[] l Ho _ IH]; try done; apply IH. Qed.
Lemma quiet_accepts a l : Forall quiet_obs l → accepts a l = [].
Proof. induction 1 as [|[] l Ho _ IH]; try done; apply IH. Qed.
Lemma quiet_stream_frames sid l : Forall quiet_obs l → stream_frames sid l = [].
Proof.
  induction 1 as [|o l Ho _ IH]; [done|].
  destruct o as [| [fs [[]|]] | | | | | | | | |]; try done; try apply IH.
  unfold stream_frames in *; simpl. unfold stream_kind at 1; simpl.
  rewrite andb_false_r. apply IH.
Qed.
#[export] Hint Resolve quiet_tcp_read quiet_tcp_written quiet_queued quiet_accepts
  quiet_stream_frames : openspoke.

(** A step of connection [k] logs nothing about the bytes of another one. *)
Lemma conn_trans_other {chan} `{!MpscOps chan} k n oc l (c' : conn chan) n' k' :
  conn_trans k n oc l c' n' → k' ≠ k →
  tcp_read k' l = [] ∧ tcp_written k' l = [] ∧ queued_data k' l = [].
Proof.
  intros H Hk. destruct H; split_and!; auto with openspoke;
    unfold tcp_read, tcp_written, queued_data; simpl; rewrite ?decide_False by done; try done;
    destruct m; done.
Qed.

Lemma stream_kind_tcp sid sid' kd :
  is_tcp_kind kd = true →
  stream_kind sid (ServerFrame sid' (Some kd)) = if decide (sid' = sid) then Some kd else None.
Proof.
  intros Hk. unfold stream_kind; simpl. rewrite Hk, andb_true_r.
  case_decide; [by rewrite bool_decide_true|by rewrite bool_decide_false].
Qed.

Lemma stream_frames_sent sid sid' kd :
  is_tcp_kind kd = true →
  stream_frames sid [OSent (ServerFrame sid' (Some kd))] = if decide (sid' = sid) then [kd] else [].
Proof.
  intros Hk. unfold stream_frames; simpl. rewrite stream_kind_tcp by done. by case_decide.
Qed.
