(* ===== verification/SessionDelivery.v ===== *)
(** * tunnel-server: the byte streams of a session

    What a virtual TCP connection carries, in both directions: the frames queued
    towards the spoke are one [Open], the bytes read from the socket as [Data]
    in order, and at most one final [Close]; the bytes written to the socket are
    a prefix of those the spoke's [Data] frames handed over. *)
From S2P Require Import Prelude RustStd Proto ServerConfig Channel ServerMetrics ServerHttp ServerSession SessionTrans.

#[export] Instance up_pc_eq_dec : EqDecision up_pc.
Proof. solve_decision. Defined.

(** ** Downstream: spoke -> hub socket *)

(** The chunk the writer task holds between [recv] and [write_all]. *)
Definition dn_hold (pc : dn_pc) : bytes := match pc with DnWrite p => p | _ => [] end.

Definition dn_live (pc : dn_pc) : bool :=
  match pc with DnOff | DnRecv | DnWrite _ => true | _ => false end.

Section delivery.
Context {chan : Type → Type} `{Hmpsc : Mpsc chan} `{HI : HashIter}.
Context (mfb : bytes → option bytes) (cfg : server_config) (sc : spoke_config).
Implicit Types (w : sess_world chan) (c : conn chan).

Definition conn_down_ok (k : nat) (c : conn chan) (log : list obs) : Prop :=
  if dn_live (cn_dn c)
  then tcp_written k log ++ dn_hold (cn_dn c) ++ mjoin (mpsc_queued (cn_writer c)) = queued_data k log
  else tcp_written k log `prefix_of` queued_data k log.

Definition down_inv w : Prop :=
  ∀ k, match w_conns w !! k with
       | Some c => conn_down_ok k c (w_log w)
       | None => tcp_written k (w_log w) = [] ∧ queued_data k (w_log w) = []
       end.

(** ** Upstream: hub socket -> spoke *)

(** What the frames [fs] of a connection's stream must be, given the bytes [rd]
    read from its socket and the state of its upstream pump. *)
Definition frames_so_far (fs : list server_kind) (sent : bytes) : Prop :=
  ∃ t ps, fs = SOpen t :: (SData <$> ps) ∧ mjoin ps = sent.

Definition frames_final (fs : list server_kind) (rd : bytes) : Prop :=
  fs = [] ∨
  (∃ sent, frames_so_far fs sent ∧ sent `prefix_of` rd) ∨
  (∃ fs', fs = fs' ++ [SClose (CloseStream true (lit "eof"))] ∧ frames_so_far fs' rd).

Definition up_ok (pc : up_pc) (fs : list server_kind) (rd : bytes) : Prop :=
  match pc with
  | UpOff => fs = [] ∧ rd = []
  | UpRead | UpSendEof => frames_so_far fs rd
  | UpSend p => ∃ sent, frames_so_far fs sent ∧ rd = sent ++ p
  | UpRemove | UpDone => frames_final fs rd
  end.

Record up_inv w : Prop := {
  ui_sid_le k c : w_conns w !! k = Some c → (0 < cn_sid c ≤ w_next_sid w)%N;
  ui_sid_inj k1 k2 c1 c2 :
    w_conns w !! k1 = Some c1 → w_conns w !! k2 = Some c2 →
    cn_sid c1 = cn_sid c2 → k1 = k2;
  ui_owner sid : stream_frames sid (w_log w) ≠ [] →
    ∃ k c, w_conns w !! k = Some c ∧ cn_sid c = sid ∧ cn_up c ≠ UpOff;
  ui_conn k c : w_conns w !! k = Some c →
    up_ok (cn_up c) (stream_frames (cn_sid c) (w_log w)) (tcp_read k (w_log w));
  ui_fresh k : w_conns w !! k = None → tcp_read k (w_log w) = [] }.

(** ** The downstream invariant is preserved *)
Lemma conn_down_ok_log k c log l :
  tcp_written k l = [] → queued_data k l = [] →
  conn_down_ok k c log → conn_down_ok k c (log ++ l).
Proof.
  intros Hw Hq. unfold conn_down_ok.
  by rewrite tcp_written_app, queued_data_app, Hw, Hq, !app_nil_r.
Qed.

Lemma tcp_written_one k p : tcp_written k [OTcpWrote k p] = p.
Proof. unfold tcp_written; simpl. rewrite decide_True by done. apply app_nil_r. Qed.
Lemma queued_data_one k p : queued_data k [OQueued k p] = p.
Proof. unfold queued_data; simpl. rewrite decide_True by done. apply app_nil_r. Qed.

Lemma conn_down_ok_trans k n c l c' n' log :
  conn_down_ok k c log → conn_trans k n (Some c) l c' n' → conn_down_ok k c' (log ++ l).
Proof.
  unfold conn_down_ok. intros H Ht. rewrite tcp_written_app, queued_data_app.
  inversion Ht; subst; simpl in *;
    try (match goal with Hq : Forall quiet_obs _ |- _ =>
           rewrite (quiet_tcp_written k _ Hq), (quiet_queued k _ Hq) end);
    try match goal with Hd : cn_dn c = _ |- _ => rewrite Hd in *; simpl in * end;
    rewrite ?tcp_written_one, ?queued_data_one, ?app_nil_r; try done.
  - (* dropped by its accept loop *) rewrite <-H. by apply prefix_app_r.
  - (* read from the socket *)
    assert (Forall quiet_obs [m]) as Hm by (by constructor).
    change [OTcpRead k p; m] with ([OTcpRead k p] ++ [m]).
    rewrite tcp_written_app, queued_data_app, (quiet_tcp_written _ _ Hm), (quiet_queued _ _ Hm).
    unfold tcp_written at 2 4, queued_data at 2 4; simpl. by rewrite !app_nil_r.
  - (* received from recv_loop *)
    match goal with Hr : mpsc_recv _ = _ |- _ => destruct (mpsc_recv_Some _ _ _ Hr) as (Hq & _) end. rewrite <-H, Hq. done.
  - rewrite <-H. by apply prefix_app_r.
  - by rewrite <-(assoc_L (++)).
  - rewrite <-H. apply prefix_app, prefix_app_r. apply prefix_take.
  - (* queued by recv_loop *)
    match goal with Hr : mpsc_send _ _ = _ |- _ => destruct (mpsc_send_Sent _ _ _ Hr) as (Hq & _) end. destruct (dn_live (cn_dn c)).
    + rewrite <-H, Hq, mjoin_app_bytes; simpl. by rewrite app_nil_r, !(assoc_L (++)).
    + by apply prefix_app_r.
Qed.

Lemma down_inv_init w : sess_init sc w → down_inv w.
Proof. intros (tx & _ & Hc & _ & _ & _ & Hl) k. by rewrite Hc, lookup_empty, Hl. Qed.

Lemma down_inv_change w w' : down_inv w → conns_change w w' → down_inv w'.
Proof.
  intros Hw (l & Hl & [(Hc & Hq & _)|(k & c' & Hc & Ht)]) k'; specialize (Hw k'); rewrite Hl, Hc.
  - destruct (w_conns w !! k') as [c|].
    + apply conn_down_ok_log; auto with openspoke.
    + rewrite tcp_written_app, queued_data_app, (quiet_tcp_written _ l Hq), (quiet_queued _ l Hq).
      destruct Hw as [-> ->]. done.
  - rewrite lookup_insert. case_decide as Hk.
    + subst k'. destruct (w_conns w !! k) as [c|] eqn:Hck; [by eapply conn_down_ok_trans|].
      destruct Hw as [Hw1 Hw2]. inversion Ht; subst. unfold conn_down_ok; simpl.
      rewrite tcp_written_app, queued_data_app, Hw1, Hw2. by rewrite mpsc_queued_new.
    + destruct (conn_trans_other _ _ _ _ _ _ k' Ht) as (_ & Ho1 & Ho2); [done|].
      destruct (w_conns w !! k') as [c|]; [by apply conn_down_ok_log|].
      rewrite tcp_written_app, queued_data_app, Ho1, Ho2. by destruct Hw as [-> ->].
Qed.

(** ** The upstream invariant is preserved *)
Lemma tcp_read_one k p m : quiet_obs m → tcp_read k [OTcpRead k p; m] = p.
Proof.
  intros Hm. unfold tcp_read; simpl. rewrite decide_True by done.
  destruct m; simpl; try done; by rewrite app_nil_r.
Qed.

Lemma stream_frames_read sid k p m : quiet_obs m → stream_frames sid [OTcpRead k p; m] = [].
Proof. intros Hm. change (stream_frames sid [m] = []). apply quiet_stream_frames. by constructor. Qed.

Lemma frames_final_of fs sent rd :
  frames_so_far fs sent → sent `prefix_of` rd → frames_final fs rd.
Proof. intros. right; left. eauto. Qed.

Lemma frames_so_far_data fs sent p :
  frames_so_far fs sent → frames_so_far (fs ++ [SData p]) (sent ++ p).
Proof.
  intros (t & ps & -> & <-). exists t, (ps ++ [p]).
  rewrite fmap_app, mjoin_app_bytes. simpl. by rewrite app_nil_r.
Qed.

Lemma up_ok_fail pc fs rd : pc ≠ UpOff → up_ok pc fs rd → frames_final fs rd.
Proof.
  destruct pc; simpl; intros Hne H; try done; try (by eapply frames_final_of).
  destruct H as (sent & Hs & ->). eapply frames_final_of; [done|by apply prefix_app_r].
Qed.

(** The connection that steps. *)
Lemma up_ok_trans k n c l c' n' fs rd :
  up_ok (cn_up c) fs rd → conn_trans k n (Some c) l c' n' →
  cn_sid c' = cn_sid c →
  up_ok (cn_up c') (fs ++ stream_frames (cn_sid c) l) (rd ++ tcp_read k l).
Proof.
  intros H Ht Hsid.
  inversion Ht; subst; simpl in *;
    repeat match goal with
    | Hq : Forall quiet_obs _ |- _ =>
        rewrite (quiet_tcp_read k _ Hq), (quiet_stream_frames (cn_sid c) _ Hq); clear Hq
    | Hu : cn_up c = _ |- _ => rewrite Hu in *; simpl in *
    end;
    unfold open_frame, data_frame, eof_frame;
    rewrite ?stream_frames_sent, ?decide_True, ?tcp_read_one, ?stream_frames_read by done;
    change (tcp_read k []) with (@nil byte); change (stream_frames (cn_sid c) []) with (@nil server_kind);
    rewrite ?app_nil_r; try done.
  - destruct H as [-> ->]. exists (OpenStream (lit "tcp") target), []. done.
  - left. by destruct H.
  - by exists rd.
  - by eapply up_ok_fail.
  - destruct H as (sent & Hs & ->). by apply frames_so_far_data.
  - right; right. eauto.
Qed.

Lemma up_ok_final pc fs rd : up_ok pc fs rd → frames_final fs rd.
Proof.
  intros H. destruct (decide (pc = UpOff)) as [->|Hne]; [|by eapply up_ok_fail].
  left. apply H.
Qed.

Lemma data_payload_frames t ps : data_payload (SOpen t :: (SData <$> ps)) = mjoin ps.
Proof. unfold data_payload; simpl. f_equal. by induction ps; simpl; f_equal. Qed.

Lemma stream_frames_not_open sid l k n oc c' n' :
  conn_trans (chan:=chan) k n oc l c' n' → stream_frames sid l ≠ [] →
  ∃ c, oc = Some c ∧ sid = cn_sid c ∧ cn_sid c' = cn_sid c ∧ cn_up c' ≠ UpOff.
Proof.
  intros Ht Hne.
  inversion Ht; subst;
    try (match goal with Hq : Forall quiet_obs ?l |- _ =>
           rewrite (quiet_stream_frames sid _ Hq) in Hne end; done);
    try (rewrite stream_frames_read in Hne by done; done);
    try done;
    unfold open_frame, data_frame, eof_frame in Hne;
    rewrite stream_frames_sent in Hne by done; (case_decide; [|done]); subst; eexists; split_and!; done.
Qed.

Lemma conn_trans_sid k n oc l c' n' :
  conn_trans (chan:=chan) k n oc l c' n' → (n + 1 < u64_modulus)%N →
  (∃ c, oc = Some c ∧ cn_sid c' = cn_sid c ∧ n' = n ∧ (cn_up c ≠ UpOff → cn_up c' ≠ UpOff)) ∨
  (oc = None ∧ cn_up c' = UpOff ∧ cn_sid c' = (n + 1)%N ∧ n' = (n + 1)%N ∧
   (∀ k, tcp_read k l = []) ∧ ∀ sid, stream_frames sid l = []).
Proof.
  intros Ht Hn. inversion Ht; subst; simpl;
    try (left; eexists; split_and!; [done..|simpl; congruence]).
  right. rewrite wrap_u64_small by done. split_and!; done.
Qed.

Lemma up_inv_init w : sess_init sc w → up_inv w.
Proof.
  intros (tx & _ & Hc & _ & _ & _ & Hl).
  split; intros *; rewrite ?Hc, ?Hl, ?lookup_empty; done.
Qed.

Lemma up_inv_quiet w w' l :
  up_inv w → w_log w' = w_log w ++ l → Forall quiet_obs l → w_conns w' = w_conns w →
  (w_next_sid w ≤ w_next_sid w')%N → up_inv w'.
Proof.
  intros Hw Hl Hq Hc Hn.
  assert (∀ sid, stream_frames sid (w_log w') = stream_frames sid (w_log w)) as Hf.
  { intros sid. by rewrite Hl, stream_frames_app, (quiet_stream_frames _ l Hq), app_nil_r. }
  assert (∀ k, tcp_read k (w_log w') = tcp_read k (w_log w)) as Hr.
  { intros k. by rewrite Hl, tcp_read_app, (quiet_tcp_read k l Hq), app_nil_r. }
  split; intros *; rewrite ?Hc, ?Hf, ?Hr; try apply Hw.
  - intros Hk. pose proof (ui_sid_le _ Hw _ _ Hk). lia.
Qed.

(** No frame of a stream is queued before its connection is opened. *)
Lemma up_inv_unopened w k c :
  up_inv w → w_conns w !! k = Some c → cn_up c = UpOff → stream_frames (cn_sid c) (w_log w) = [].
Proof. intros Hw Hk Hu. pose proof (ui_conn _ Hw k c Hk) as H. rewrite Hu in H. by destruct H. Qed.

Lemma up_inv_free_sid w sid :
  up_inv w → (∀ k c, w_conns w !! k = Some c → cn_sid c = sid → cn_up c = UpOff) →
  stream_frames sid (w_log w) = [].
Proof.
  intros Hw Hs. destruct (stream_frames sid (w_log w)) eqn:Hf; [done|].
  destruct (ui_owner _ Hw sid) as (k & c & Hk & Hsid & Hne); [by rewrite Hf|]. naive_solver.
Qed.

Lemma conn_trans_frames_other sid l k n c c' n' :
  conn_trans (chan:=chan) k n (Some c) l c' n' → sid ≠ cn_sid c → stream_frames sid l = [].
Proof.
  intros Ht Hsid. destruct (stream_frames sid l) eqn:Hf; [done|].
  destruct (stream_frames_not_open sid l k _ _ _ _ Ht) as (? & ? & ? & _); [by rewrite Hf|].
  naive_solver.
Qed.

Section keep.
(** A step of connection [k] that keeps its stream id. *)
Context (w w' : sess_world chan) (l : list obs) (k : nat) (c c' : conn chan) (n' : N).
Context (Hw : up_inv w) (Hl : w_log w' = w_log w ++ l)
  (Hc : w_conns w' = <[k := c']> (w_conns w)) (Hk : w_conns w !! k = Some c)
  (Ht : conn_trans k (w_next_sid w) (Some c) l c' n') (Hs : cn_sid c' = cn_sid c)
  (Hu : cn_up c ≠ UpOff → cn_up c' ≠ UpOff).

Lemma keep_owner sid :
  stream_frames sid (w_log w') ≠ [] →
  ∃ k c, w_conns w' !! k = Some c ∧ cn_sid c = sid ∧ cn_up c ≠ UpOff.
Proof.
  rewrite Hl, stream_frames_app, Hc. intros Hf.
  destruct (stream_frames sid l) eqn:Hfl.
  - rewrite app_nil_r in Hf. destruct (ui_owner _ Hw _ Hf) as (k1 & c1 & Hk1 & Hs1 & Hu1).
    destruct (decide (k1 = k)) as [->|]; simplify_eq;
      [exists k, c'; rewrite lookup_insert_eq; naive_solver|].
    exists k1, c1. by rewrite lookup_insert_ne.
  - destruct (stream_frames_not_open sid l k _ _ _ _ Ht) as (? & ? & ? & ? & ?);
      [by rewrite Hfl|]. exists k, c'. rewrite lookup_insert_eq. naive_solver.
Qed.

Lemma keep_conn k0 c0 :
  w_conns w' !! k0 = Some c0 →
  up_ok (cn_up c0) (stream_frames (cn_sid c0) (w_log w')) (tcp_read k0 (w_log w')).
Proof.
  rewrite Hc, Hl, stream_frames_app, tcp_read_app, lookup_insert.
  case_decide as Hkk; intros Hc0; simplify_eq.
  - rewrite Hs. eapply up_ok_trans; [by eapply ui_conn|done|done].
  - destruct (conn_trans_other _ _ _ _ _ _ k0 Ht) as (-> & _); [done|]. rewrite app_nil_r.
    assert (stream_frames (cn_sid c0) l = []) as ->; [|rewrite app_nil_r; by eapply ui_conn].
    eapply conn_trans_frames_other; [done|]. intros Heq.
    assert (k0 = k) by (eapply (ui_sid_inj _ Hw); eauto). congruence.
Qed.

Lemma up_inv_keep : w_next_sid w' = w_next_sid w → up_inv w'.
Proof.
  intros Hn. split; intros *; rewrite ?Hn.
  - rewrite Hc, lookup_insert; case_decide; intros; simplify_eq; [rewrite Hs|]; by eapply ui_sid_le.
  - rewrite Hc, !lookup_insert. repeat case_decide; intros; simplify_eq; try done;
      eapply (ui_sid_inj _ Hw); eauto; congruence.
  - apply keep_owner.
  - apply keep_conn.
  - rewrite Hc, lookup_insert; case_decide; intros; simplify_eq. rewrite Hl, tcp_read_app.
    destruct (conn_trans_other _ _ _ _ _ _ k0 Ht) as (-> & _); [done|].
    rewrite app_nil_r. by eapply ui_fresh.
Qed.
End keep.

(** A new connection, under the next stream id. *)
Lemma up_inv_accept w w' l k c' :
  up_inv w → w_log w' = w_log w ++ l → w_conns w' = <[k := c']> (w_conns w) →
  (∀ k, tcp_read k l = []) → (∀ sid, stream_frames sid l = []) →
  w_conns w !! k = None → cn_up c' = UpOff →
  cn_sid c' = (w_next_sid w + 1)%N → w_next_sid w' = (w_next_sid w + 1)%N →
  up_inv w'.
Proof.
  intros Hw Hl Hc Hr Hf Hk Hu Hs Hn.
  assert (∀ sid, stream_frames sid (w_log w') = stream_frames sid (w_log w)) as Hf'.
  { intros sid. by rewrite Hl, stream_frames_app, Hf, app_nil_r. }
  assert (∀ k, tcp_read k (w_log w') = tcp_read k (w_log w)) as Hr'.
  { intros k1. by rewrite Hl, tcp_read_app, Hr, app_nil_r. }
  pose proof (ui_sid_le _ Hw) as Hle.
  split; intros *; rewrite ?Hf', ?Hr', ?Hc.
  - rewrite lookup_insert; case_decide; intros Hk0; simplify_eq; [lia|].
    pose proof (Hle _ _ Hk0). lia.
  - rewrite !lookup_insert. repeat case_decide; intros Hk1 Hk2; simplify_eq; intros; try done.
    + pose proof (Hle _ _ Hk2). lia.
    + pose proof (Hle _ _ Hk1). lia.
    + by eapply (ui_sid_inj _ Hw).
  - intros Hne. destruct (ui_owner _ Hw _ Hne) as (k1 & c1 & Hk1 & Hs1 & Hu1).
    exists k1, c1. rewrite lookup_insert_ne; naive_solver.
  - rewrite lookup_insert; case_decide; intros; simplify_eq; [|by apply ui_conn].
    rewrite Hu. split; [|by apply ui_fresh].
    apply up_inv_free_sid; [done|]. intros k1 c1 Hk1 Hs1. pose proof (Hle _ _ Hk1). lia.
  - rewrite lookup_insert; case_decide; intros; simplify_eq. by apply ui_fresh.
Qed.

Lemma up_inv_change w w' :
  up_inv w → (w_next_sid w + 1 < u64_modulus)%N → conns_change w w' → up_inv w'.
Proof.
  intros Hw Hn (l & Hl & [(Hc & Hq & Hn')|(k & c' & Hc & Ht)]).
  - rewrite wrap_u64_small in Hn' by done. eapply up_inv_quiet; eauto. lia.
  - destruct (conn_trans_sid _ _ _ _ _ _ Ht Hn)
      as [(c & Hk & Hs & Hn' & Hu)|(Hk & Hu & Hs & Hn' & Hr & Hf)].
    + rewrite Hk in Ht. eapply up_inv_keep; eauto.
    + eapply up_inv_accept; eauto.
Qed.

(** ** Reachable sessions *)
Lemma nowrap_step l w w' :
  sess_step_nowrap mfb cfg sc l w = Some w' →
  (w_next_sid w + 1 < u64_modulus)%N ∧ sess_step mfb cfg sc l w = Some w'.
Proof. unfold sess_step_nowrap. destruct (_ <? _)%N eqn:Hlt; [|done]. apply N.ltb_lt in Hlt. done. Qed.

Lemma reachable_nowrap w :
  reachable (sess_step_nowrap mfb cfg sc) (sess_init sc) w →
  reachable (sess_step mfb cfg sc) (sess_init sc) w.
Proof.
  induction 1 as [s Hs|l s s' _ IH Hstep]; [by constructor|].
  apply nowrap_step in Hstep as [_ Hstep]. by eapply reachable_step.
Qed.

Lemma session_down_inv w : reachable (sess_step mfb cfg sc) (sess_init sc) w → down_inv w.
Proof.
  apply reachable_invariant_strong; [apply down_inv_init|].
  intros l s s' Hr Hs Hstep. eapply down_inv_change; [done|].
  eapply sess_step_conns; [by eapply own_inv_reachable|done].
Qed.

Lemma tcp_written_queued k w :
  reachable (sess_step mfb cfg sc) (sess_init sc) w → tcp_written k (w_log w) `prefix_of` queued_data k (w_log w).
Proof.
  intros Hr. pose proof (session_down_inv w Hr k) as Hd. destruct (w_conns w !! k) as [c|].
  - unfold conn_down_ok in Hd. case_match; [rewrite <-Hd; by apply prefix_app_r|done].
  - by destruct Hd as [-> ->].
Qed.

Lemma session_up_inv w :
  reachable (sess_step_nowrap mfb cfg sc) (sess_init sc) w → own_inv w ∧ up_inv w.
Proof.
  apply (reachable_invariant _ _ (λ w, own_inv w ∧ up_inv w)).
  - intros s Hs. split; [by eapply own_inv_init|by apply up_inv_init].
  - intros l s s' [Ho Hs] Hstep. apply nowrap_step in Hstep as [Hn Hstep].
    split; [by eapply own_inv_step|].
    eapply up_inv_change; [done|done|]. by eapply sess_step_conns.
Qed.

(** ** The properties *)

(** C11: what reaches the spoke from a hub-side TCP connection.  The frames queued
    for its stream are nothing, or one [Open] followed by [Data] frames and at
    most one final [Close]; the payloads concatenate to a prefix of the bytes
    read from the socket, to all of them but the chunk in hand while the pump
    runs, and to exactly all of them when the [Close] was sent. *)
Theorem outbound_frames_shape w k c :
  reachable (sess_step_nowrap mfb cfg sc) (sess_init sc) w →
  w_conns w !! k = Some c →
  let fs := stream_frames (cn_sid c) (w_log w) in
  let rd := tcp_read k (w_log w) in
  (fs = [] ∨ ∃ t ps tl, fs = SOpen t :: (SData <$> ps) ++ tl ∧
     (tl = [] ∧ mjoin ps `prefix_of` rd ∨
      tl = [SClose (CloseStream true (lit "eof"))] ∧ mjoin ps = rd)) ∧
  (cn_up c = UpRead → data_payload fs = rd) ∧
  (∀ p, cn_up c = UpSend p → data_payload fs ++ p = rd).
Proof.
  intros Hr Hc fs rd. destruct (session_up_inv w Hr) as [_ Hu].
  pose proof (ui_conn _ Hu k c Hc) as Hok. fold fs rd in Hok. split_and!.
  - apply up_ok_final in Hok as [->|[(sent & (t & ps & -> & <-) & Hp)|(fs' & -> & t & ps & -> & Hp)]];
      [by left|right..].
    + exists t, ps, []. rewrite app_nil_r. eauto.
    + eauto 10.
  - intros Hup. rewrite Hup in Hok. destruct Hok as (t & ps & -> & <-). apply data_payload_frames.
  - intros p Hup. rewrite Hup in Hok. destruct Hok as (sent & (t & ps & -> & <-) & ->).
    by rewrite data_payload_frames.
Qed.

(** C24: stream ids.  While the process-wide counter stays below 2^63 (the ids of
    the spoke's own HTTP requests start there), the connections of a session
    have distinct non-zero stream ids below 2^63, and the frames queued under an
    id belong to one connection of the session. *)
Theorem stream_ids_distinct w :
  reachable (sess_step_nowrap mfb cfg sc) (sess_init sc) w →
  (w_next_sid w < 2 ^ 63)%N →
  (∀ k c, w_conns w !! k = Some c → (0 < cn_sid c < 2 ^ 63)%N) ∧
  (∀ k1 k2 c1 c2, w_conns w !! k1 = Some c1 → w_conns w !! k2 = Some c2 →
     cn_sid c1 = cn_sid c2 → k1 = k2) ∧
  (∀ sid, stream_frames sid (w_log w) ≠ [] → ∃ k c, w_conns w !! k = Some c ∧ cn_sid c = sid).
Proof.
  intros Hr Hn. destruct (session_up_inv w Hr) as [_ Hu]. split_and!.
  - intros k c Hc. pose proof (ui_sid_le _ Hu k c Hc). lia.
  - apply (ui_sid_inj _ Hu).
  - intros sid Hf. destruct (ui_owner _ Hu sid Hf) as (k & c & ? & ? & _). eauto.
Qed.
End delivery.
