(* ===== verification/SessionStreams.v ===== *)
(** * tunnel-server: the stream table, its gauge, and what close() leaves behind

    How a step changes [SpokeSession.streams] and the [streams_open] gauge, and
    the invariant of the table: its entries point at connections of the session,
    and none at one whose upstream pump has ended after its [Open]. *)
From S2P Require Import Prelude RustStd Proto ServerConfig Channel ServerMetrics ServerHttp ServerSession SessionTrans SessionDelivery.

Section streams.
Context {chan : Type → Type} `{Hmpsc : Mpsc chan} `{HI : HashIter}.
Context (mfb : bytes → option bytes) (cfg : server_config) (sc : spoke_config).
Implicit Types (w : sess_world chan).

Definition streams_of w : gmap N nat := ss_streams (w_session w).

(** The [streams_open] gauge of the session's spoke, as far as this session
    contributes to it. *)
Definition streams_gauge w : Z :=
  metric_value (MStreamsOpen (ss_spoke_id (w_session w))) (w_log w).

(** Streams the gauge counts although the table no longer holds them. *)
Definition gauge_leak w : Z := streams_gauge w - Z.of_nat (size (streams_of w)).

(** A rollback whose entry is gone, the one decrement without a removal. *)
Definition lost_rollback (l : sess_label) w : bool :=
  match l with
  | LAccept a Tick =>
      match w_accept w !! a with
      | Some t => match ac_pc t with
                  | AcRollback _ sid => bool_decide (streams_of w !! sid = None)
                  | _ => false
                  end
      | None => false
      end
  | _ => false
  end.

(** The steps that keep table and gauge together. *)
Definition plain_label (l : sess_label) w : Prop :=
  l ≠ LCloseClear ∧ lost_rollback l w = false.

(** The ways a step changes the table, with the change of the gauge. *)
Inductive streams_change w : sess_label → gmap N nat → Z → Prop :=
| stc_same l : plain_label l w → streams_change w l (streams_of w) 0
| stc_insert a t k sid :
    w_accept w !! a = Some t → ac_pc t = AcInsert k sid →
    streams_change w (LAccept a Tick) (<[sid := k]> (streams_of w)) 1
| stc_remove l sid :
    plain_label l w → is_Some (streams_of w !! sid) → streams_change w l (delete sid (streams_of w)) (-1)
| stc_rollback a t k sid :
    w_accept w !! a = Some t → ac_pc t = AcRollback k sid →
    streams_change w (LAccept a Tick) (delete sid (streams_of w)) (-1)
| stc_clear : streams_change w LCloseClear ∅ 0.

Lemma streams_change_of l w w' s z :
  streams_change w l s z → streams_of w' = s → streams_gauge w' = (streams_gauge w + z)%Z →
  streams_change w l (streams_of w') (streams_gauge w' - streams_gauge w).
Proof. intros H -> ->. replace (streams_gauge w + z - streams_gauge w)%Z with z by lia. done. Qed.

Lemma remove_stream_change w0 w sid l :
  plain_label l w → streams_of w0 = streams_of w → streams_gauge w0 = streams_gauge w →
  streams_change w l (streams_of (remove_stream sid w0))
    (streams_gauge (remove_stream sid w0) - streams_gauge w).
Proof.
  intros Hl Hs Hg. destruct (remove_stream_cases sid w0) as [[_ ->]|(k & Hk & ->)].
  - eapply streams_change_of; [by apply stc_same|done|lia].
  - eapply streams_change_of; [eapply (stc_remove w l sid); [done|]| |].
    + rewrite <-Hs. unfold streams_of. eauto.
    + rewrite <-Hs. done.
    + rewrite <-Hg. unfold streams_gauge; simpl. rewrite metric_value_app; simpl. by rewrite decide_True.
Qed.

Lemma remove_stream_id sid w : ss_spoke_id (w_session (remove_stream sid w)) = ss_spoke_id (w_session w).
Proof. unfold remove_stream. by case_match. Qed.

Local Ltac plain_label_tac :=
  split; [discriminate|]; unfold lost_rollback; repeat case_match; simplify_eq; congruence.

Lemma sess_step_streams l w w' :
  sess_step mfb cfg sc l w = Some w' →
  ss_spoke_id (w_session w') = ss_spoke_id (w_session w) ∧
  streams_change w l (streams_of w') (streams_gauge w' - streams_gauge w).
Proof.
  intros HS. sess_inv HS.
  all: try (split; [reflexivity|]; eapply streams_change_of; [apply stc_same; plain_label_tac|reflexivity|];
    unfold streams_gauge; simpl; rewrite ?metric_value_app; simpl;
    rewrite ?decide_False by done; lia).
  all: try solve [split; [simpl; apply remove_stream_id|]; apply (remove_stream_change w); [plain_label_tac|done..]].
  - split; [done|]. eapply streams_change_of; [apply stc_clear|done|].
    unfold streams_gauge; simpl. lia.
  - split; [done|]. eapply streams_change_of; [eapply stc_insert; eauto|done|].
    unfold streams_gauge; simpl. rewrite metric_value_app; simpl. by rewrite decide_True.
  - split; [done|]. eapply streams_change_of; [eapply stc_rollback; eauto|done|].
    unfold streams_gauge; simpl. rewrite metric_value_app; simpl. by rewrite decide_True.
  - split; [exact (remove_stream_id (cf_stream_id f) (add_log [ORecv f] w))|].
    apply (remove_stream_change (add_log [ORecv f] w)); [plain_label_tac|done|].
    unfold streams_gauge; simpl. rewrite metric_value_app; simpl. lia.
Qed.

(** ** The stream table only points at connections of its own *)
Record streams_inv w : Prop := {
  si_entry sid k : streams_of w !! sid = Some k →
    ∃ c, w_conns w !! k = Some c ∧ cn_sid c = sid ∧
         (cn_up c = UpDone → stream_frames sid (w_log w) = []);
  si_pending a t k sid : w_accept w !! a = Some t → ac_pc t = AcInsert k sid →
    streams_of w !! sid = None }.

Lemma streams_inv_init w : sess_init sc w → streams_inv w.
Proof.
  intros (tx & Hs & _ & Ha & _). split; intros *; unfold streams_of.
  - rewrite Hs; simpl. by rewrite lookup_empty.
  - by rewrite Ha, lookup_empty.
Qed.

(** A connection survives a step with its stream id, and an upstream pump that
    ends has taken its table entry out. *)
Lemma conns_change_lookup w w' k c :
  conns_change w w' → w_conns w !! k = Some c →
  ∃ c', w_conns w' !! k = Some c' ∧ cn_sid c' = cn_sid c ∧ (cn_up c = UpDone → cn_up c' = UpDone).
Proof.
  intros (l & Hl & [(Hc & _)|(k' & c' & Hc & Ht)]) Hk; rewrite Hc; [by eauto|].
  rewrite lookup_insert. case_decide; [subst|by eauto].
  rewrite Hk in Ht. exists c'. split; [done|]. inversion Ht; subst; simpl; split; (done || congruence).
Qed.

Lemma conns_change_new w w' k c' :
  conns_change w w' → w_conns w !! k = None → w_conns w' !! k = Some c' → cn_up c' = UpOff.
Proof.
  intros (l & Hl & [(Hc & _)|(k' & c1 & Hc & Ht)]) Hk; rewrite Hc; [congruence|].
  rewrite lookup_insert. case_decide; [subst|congruence]. rewrite Hk in Ht. intros [= <-]. by inversion Ht.
Qed.

Lemma conn_trans_done_frames sid k n oc l c' n' :
  conn_trans (chan:=chan) k n oc l c' n' → cn_up c' = UpDone → stream_frames sid l = [].
Proof.
  intros Ht Hd. inversion Ht; subst; auto with openspoke; try (simpl in *; congruence);
    try done; by rewrite stream_frames_read.
Qed.

Lemma remove_stream_recv sid w : w_recv (remove_stream sid w) = w_recv w.
Proof. unfold remove_stream. by case_match. Qed.

Lemma remove_stream_gone sid w : streams_of (remove_stream sid w) !! sid = None.
Proof.
  unfold streams_of. destruct (remove_stream_cases sid w) as [[? ->]|(k & ? & ->)]; [done|].
  simpl. apply lookup_delete_eq.
Qed.

Lemma up_done_removed l w w' k c c' :
  own_inv w → sess_step mfb cfg sc l w = Some w' →
  w_conns w !! k = Some c → w_conns w' !! k = Some c' → cn_up c' = UpDone →
  cn_up c = UpDone ∨ cn_up c = UpOff ∨ streams_of w' !! cn_sid c = None.
Proof.
  intros [Hown _] HS Hk Hk' Hd. sess_inv HS; try (rewrite remove_stream_conns in Hk'); simpl in Hk';
    try (rewrite remove_stream_conns in Hk'; simpl in Hk');
    try (left; congruence);
    (rewrite lookup_insert in Hk'; case_decide; [subst|left; congruence]; injection Hk' as <-);
    simpl in Hd; try congruence; try (left; congruence).
  all: try (right; left;
    match goal with Ha : w_accept _ !! ?a = Some ?t, Hpc : ac_pc ?t = _ |- _ =>
      destruct (Hown a t _ _ Ha ltac:(by rewrite Hpc)) as (? & ? & ? & _) end; congruence).
  all: right; right; simplify_eq; apply remove_stream_gone.
Qed.

(** The entries of the table after a step. *)
Lemma streams_change_lookup w l s z sid k :
  streams_change w l s z → s !! sid = Some k →
  streams_of w !! sid = Some k ∨
  ∃ a t, l = LAccept a Tick ∧ w_accept w !! a = Some t ∧ ac_pc t = AcInsert k sid.
Proof.
  destruct 1; rewrite ?lookup_insert, ?lookup_delete, ?lookup_empty; try case_decide; intros;
    simplify_eq; eauto 6.
Qed.

Lemma streams_inv_entry l w w' sid k :
  own_inv w → up_inv w → streams_inv w → sess_step mfb cfg sc l w = Some w' →
  streams_of w' !! sid = Some k →
  ∃ c, w_conns w' !! k = Some c ∧ cn_sid c = sid ∧
       (cn_up c = UpDone → stream_frames sid (w_log w') = []).
Proof.
  intros Ho Hu Hw HS Hk'.
  pose proof (sess_step_conns _ _ _ _ _ _ Ho HS) as Hcc.
  destruct (sess_step_streams _ _ _ HS) as [_ Hsc].
  assert (∃ c, w_conns w !! k = Some c ∧ cn_sid c = sid ∧
    (cn_up c = UpDone → stream_frames sid (w_log w) = [])) as (c & Hk & Hs & Hd).
  { destruct (streams_change_lookup _ _ _ _ _ _ Hsc Hk') as [Hin|(a & t & _ & Ha & Hpc)];
      [by apply (si_entry _ Hw)|].
    destruct (proj1 Ho a t k sid Ha) as (c & Hk & Hup & _ & Hs); [by rewrite Hpc|].
    exists c. split_and!; [done..|congruence]. }
  destruct (conns_change_lookup _ _ _ _ Hcc Hk) as (c' & Hc' & Hs' & _).
  exists c'. split_and!; [done|congruence|]. intros Hd'.
  assert (stream_frames sid (w_log w) = []) as Hold.
  { destruct (up_done_removed _ _ _ _ _ _ Ho HS Hk Hc' Hd') as [?|[?|Hnone]]; [by auto| |].
    - rewrite <-Hs. by eapply up_inv_unopened.
    - rewrite Hs in Hnone. congruence. }
  destruct Hcc as (d & -> & [(_ & Hq & _)|(k1 & c1 & Hc1 & Ht)]);
    rewrite stream_frames_app, Hold; simpl; [by apply quiet_stream_frames|].
  rewrite Hc1, lookup_insert in Hc'. case_decide; simplify_eq.
  - by eapply conn_trans_done_frames.
  - destruct (stream_frames (cn_sid c) d) eqn:Hf; [done|exfalso].
    destruct (stream_frames_not_open (cn_sid c) d k1 _ _ _ _ Ht) as (c0 & Hc0 & Hss & _);
      [by rewrite Hf|].
    assert (k1 = k) by (eapply (ui_sid_inj _ Hu); eauto). done.
Qed.

(** A stream id is taken by one accept loop, which inserts it once. *)
Lemma accept_insert_step l w w' a t k sid :
  sess_step mfb cfg sc l w = Some w' →
  w_accept w' !! a = Some t → ac_pc t = AcInsert k sid →
  (w_accept w !! a = Some t ∧ l ≠ LAccept a Tick) ∨
  (sid = wrap_u64 (w_next_sid w + 1) ∧ streams_of w' = streams_of w ∧ w_conns w !! k = None).
Proof.
  intros HS. sess_inv HS; rewrite ?remove_stream_accept; simpl; rewrite ?remove_stream_accept;
    simpl; intros Ha Hpc; try (left; split; [done|]; congruence);
    (rewrite lookup_insert in Ha; case_decide;
       [injection Ha as <-; simpl in Hpc; try congruence|left; split; [done|]; congruence]).
  right. injection Hpc as <- <-. split_and!; done.
Qed.

Lemma streams_inv_step l w w' :
  (w_next_sid w + 1 < u64_modulus)%N →
  own_inv w → up_inv w → streams_inv w → sess_step mfb cfg sc l w = Some w' → streams_inv w'.
Proof.
  intros Hn Ho Hu Hw HS. split; [by intros; eapply streams_inv_entry|].
  intros a t k sid Ha Hpc. apply eq_None_not_Some. intros [k1 Hk1].
  destruct (accept_insert_step _ _ _ _ _ _ _ HS Ha Hpc) as [[Ha0 Hl]|(-> & Hsame & _)].
  - destruct (sess_step_streams _ _ _ HS) as [_ Hsc].
    destruct (streams_change_lookup _ _ _ _ _ _ Hsc Hk1) as [Hin|(a1 & t1 & -> & Ha1 & Hpc1)].
    + rewrite (si_pending _ Hw _ _ _ _ Ha0 Hpc) in Hin. done.
    + destruct (proj1 Ho a t k sid Ha0) as (c & Hk & _ & _ & Hs); [by rewrite Hpc|].
      destruct (proj1 Ho a1 t1 k1 sid Ha1) as (c1 & Hk1' & _ & _ & Hs1); [by rewrite Hpc1|].
      assert (k = k1) as <- by (eapply (ui_sid_inj _ Hu); eauto; congruence).
      assert (a = a1) by (eapply (proj2 Ho a a1); eauto; [by rewrite Hpc|by rewrite Hpc1]).
      congruence.
  - rewrite Hsame in Hk1. destruct (si_entry _ Hw _ _ Hk1) as (c & Hc & Hs & _).
    pose proof (ui_sid_le _ Hu _ _ Hc). rewrite wrap_u64_small in Hs by done. lia.
Qed.

Lemma session_streams_inv w :
  reachable (sess_step_nowrap mfb cfg sc) (sess_init sc) w → own_inv w ∧ up_inv w ∧ streams_inv w.
Proof.
  apply (reachable_invariant _ _ (λ w, own_inv w ∧ up_inv w ∧ streams_inv w)).
  - intros s Hs. split_and!; [by eapply own_inv_init|by eapply up_inv_init|by apply streams_inv_init].
  - intros l s s' (Ho & Hu & Hs) Hstep. apply nowrap_step in Hstep as [Hn Hstep].
    split_and!; [by eapply own_inv_step| |by eapply streams_inv_step].
    eapply up_inv_change; [done|done|]. by eapply sess_step_conns.
Qed.

Lemma recv_send_step k sid p l w w' :
  sess_step mfb cfg sc l w = Some w' → w_recv w' = RvSend k sid p →
  w_recv w = RvSend k sid p ∨ streams_of w !! sid = Some k.
Proof.
  intros HS. sess_inv HS; simpl; rewrite ?remove_stream_recv; simpl;
    rewrite ?remove_stream_recv; intros Hr; try (by left); try congruence.
  right. simpl in *. unfold streams_of. congruence.
Qed.

End streams.
