(* ===== verification/SessionInbound.v ===== *)
(** * tunnel-server: what recv_loop hands to a connection

    The [Data] frames the spoke sends under a stream id reach the connection that
    owns the id in order and without gaps: what was handed over is a prefix of what
    was received under the id since a moment before the [Open] of the stream was
    queued, and all of it while the stream is registered. *)
From S2P Require Import Prelude RustStd Proto ServerConfig Channel ServerMetrics ServerHttp ServerSession SessionTrans SessionDelivery SessionStreams.

(** The payload bytes received in [Data] frames of stream [sid]. *)
Definition frame_data (sid : N) (f : client_frame) : bytes :=
  match cf_kind f with
  | Some (CData p) => if decide (cf_stream_id f = sid) then p else []
  | _ => []
  end.

Definition recv_data (sid : N) (l : list obs) : bytes :=
  mjoin (frame_data sid <$> recv_frames l).

Lemma recv_data_app sid l1 l2 : recv_data sid (l1 ++ l2) = recv_data sid l1 ++ recv_data sid l2.
Proof. unfold recv_data. by rewrite recv_frames_app, fmap_app, mjoin_app_bytes. Qed.

Section inbound.
Context {chan : Type → Type} `{Hmpsc : Mpsc chan} `{HI : HashIter}.
Context (mfb : bytes → option bytes) (cfg : server_config) (sc : spoke_config).
Implicit Types (w : sess_world chan).

(** The payload [recv_loop] is sending to connection [k]. *)
Definition rv_hold (k : nat) w : bytes :=
  match w_recv w with RvSend k' _ p => if decide (k' = k) then p else [] | _ => [] end.

(** Since a moment at which no frame of stream [sid] had been queued, the [Data]
    bytes received for it are [rd]. *)
Definition since_quiet (sid : N) (l : list obs) (rd : bytes) : Prop :=
  ∃ l1 l2, l = l1 ++ l2 ∧ stream_frames sid l1 = [] ∧ recv_data sid l2 = rd.

Lemma since_quiet_now sid l : stream_frames sid l = [] → since_quiet sid l [].
Proof. intros Hl. exists l, []. by rewrite app_nil_r. Qed.

Lemma since_quiet_step sid l d rd x :
  since_quiet sid l rd → recv_data sid (l ++ d) = recv_data sid l ++ x → since_quiet sid (l ++ d) (rd ++ x).
Proof.
  intros (l1 & l2 & -> & Hq & <-). rewrite recv_data_app. intros Hx%(inj _). subst x.
  exists l1, (l2 ++ d). by rewrite <-(assoc_L (++)), recv_data_app.
Qed.

Record inbound_inv w : Prop := {
  ib_conn k c : w_conns w !! k = Some c →
    ∃ post, since_quiet (cn_sid c) (w_log w) (queued_data k (w_log w) ++ rv_hold k w ++ post) ∧
      (streams_of w !! cn_sid c = Some k → w_recv w ≠ RvRemove (cn_sid c) → post = []);
  ib_pending a t k sid : w_accept w !! a = Some t → ac_pc t = AcInsert k sid →
    queued_data k (w_log w) = [] ∧ rv_hold k w = [];
  ib_recv k sid p : w_recv w = RvSend k sid p →
    ∃ c, w_conns w !! k = Some c ∧ cn_sid c = sid;
  ib_fresh k : w_conns w !! k = None → queued_data k (w_log w) = [] ∧ rv_hold k w = [] }.

(** What one step does to what [recv_loop] received, holds and hands over. *)
Inductive inbound_step w w' : Prop :=
| is_other :
    (∀ sid, recv_data sid (w_log w') = recv_data sid (w_log w)) →
    (∀ k, queued_data k (w_log w') = queued_data k (w_log w)) →
    (∀ k, rv_hold k w' = rv_hold k w) →
    (∀ k s p, w_recv w' = RvSend k s p → w_recv w = RvSend k s p) →
    (∀ s, w_recv w = RvRemove s → w_recv w' = RvRemove s ∨ streams_of w' !! s = None) →
    inbound_step w w'
| is_known k sid p :
    w_recv w = RvNext → streams_of w !! sid = Some k → streams_of w' = streams_of w →
    w_recv w' = RvSend k sid p →
    (∀ s, recv_data s (w_log w') = recv_data s (w_log w) ++ (if decide (sid = s) then p else [])) →
    (∀ k, queued_data k (w_log w') = queued_data k (w_log w)) →
    inbound_step w w'
| is_unknown sid p :
    w_recv w = RvNext → streams_of w !! sid = None → streams_of w' = streams_of w →
    w_recv w' = RvNext →
    (∀ s, recv_data s (w_log w') = recv_data s (w_log w) ++ (if decide (sid = s) then p else [])) →
    (∀ k, queued_data k (w_log w') = queued_data k (w_log w)) →
    inbound_step w w'
| is_handed k sid p :
    w_recv w = RvSend k sid p → w_recv w' = RvNext → streams_of w' = streams_of w →
    (∀ s, recv_data s (w_log w') = recv_data s (w_log w)) →
    (∀ k', queued_data k' (w_log w') = queued_data k' (w_log w) ++ (if decide (k = k') then p else [])) →
    inbound_step w w'
| is_lost k sid p :
    w_recv w = RvSend k sid p → w_recv w' = RvRemove sid → streams_of w' = streams_of w →
    (∀ s, recv_data s (w_log w') = recv_data s (w_log w)) →
    (∀ k', queued_data k' (w_log w') = queued_data k' (w_log w)) →
    inbound_step w w'.

Lemma recv_data_tail sid l d : recv_data sid d = [] → recv_data sid (l ++ d) = recv_data sid l.
Proof. intros H. by rewrite recv_data_app, H, app_nil_r. Qed.
Lemma queued_data_tail k l d : queued_data k d = [] → queued_data k (l ++ d) = queued_data k l.
Proof. intros H. by rewrite queued_data_app, H, app_nil_r. Qed.

Lemma remove_stream_tail sid w :
  ∃ d, w_log (remove_stream sid w) = w_log w ++ d ∧
    (∀ s, recv_data s d = []) ∧ (∀ k, queued_data k d = []).
Proof.
  destruct (remove_stream_cases sid w) as [[_ ->]|(k & _ & ->)].
  - exists []. by rewrite app_nil_r.
  - simpl. eexists; split_and!; [done|intros; done..].
Qed.

Definition rv_idle (pc : recv_pc) : Prop := match pc with RvSend _ _ _ => False | _ => True end.

Lemma inbound_quiet w w' d :
  w_log w' = w_log w ++ d → (∀ s, recv_data s d = []) → (∀ k, queued_data k d = []) →
  w_recv w' = w_recv w ∨
    (rv_idle (w_recv w) ∧ rv_idle (w_recv w') ∧
     ∀ s, w_recv w = RvRemove s → streams_of w' !! s = None) →
  inbound_step w w'.
Proof.
  intros Hl Hr Hq Hpc. apply is_other; rewrite ?Hl.
  - intros s. by apply recv_data_tail.
  - intros k. by apply queued_data_tail.
  - intros k. unfold rv_hold. destruct Hpc as [->|(H1 & H2 & _)]; [done|].
    by destruct (w_recv w), (w_recv w').
  - intros k s p Hw'. destruct Hpc as [<-|(_ & H2 & _)]; [done|]. by rewrite Hw' in H2.
  - intros s Hw. destruct Hpc as [->|(_ & _ & H)]; [by left|auto].
Qed.

Lemma sess_step_inbound l w w' : sess_step mfb cfg sc l w = Some w' → inbound_step w w'.
Proof.
  intros HS. sess_inv HS.
  all: try solve [eapply (inbound_quiet _ _ []); simpl; [by rewrite app_nil_r|done|done|by left]].
  all: try solve [eapply inbound_quiet; simpl; [reflexivity|done|done|by left]].
  all: try solve [destruct (remove_stream_tail (cn_sid c) w) as (d & Hd & Hr & Hq);
    eapply (inbound_quiet _ _ d); [exact Hd|exact Hr|exact Hq|left; apply remove_stream_recv]].
  all: try solve [eapply (inbound_quiet _ _ []); simpl; [by rewrite app_nil_r|done|done|right];
    match goal with H : w_recv _ = _ |- _ => rewrite H end; done].
  all: try solve [eapply inbound_quiet; simpl;
    [by rewrite <-?(assoc_L (++))
    |intros; unfold recv_data; simpl; unfold frame_data; by simplify_option_eq|done
    |first [by left|right; match goal with H : w_recv _ = _ |- _ => rewrite H end; done]]].
  - (* data of a known stream *)
    eapply is_known; simpl; [eassumption|match goal with H : ss_streams _ !! _ = _ |- _ => exact H end|done|done| |].
    + intros s. rewrite !recv_data_app. unfold recv_data at 2 3; simpl. unfold frame_data.
      rewrite Heqo. by rewrite !app_nil_r.
    + intros. by rewrite !queued_data_tail.
  - eapply is_unknown; simpl; [eassumption|match goal with H : ss_streams _ !! _ = _ |- _ => exact H end|done|done| |].
    + intros s. rewrite !recv_data_app. unfold recv_data at 2; simpl. unfold frame_data.
      rewrite Heqo. by rewrite !app_nil_r.
    + intros. by rewrite !queued_data_tail.
  - (* close frame *)
    destruct (remove_stream_tail (cf_stream_id f) (add_log [ORecv f] w)) as (d & Hd & Hr & Hq).
    eapply (inbound_quiet _ _ ([ORecv f] ++ d)).
    + rewrite Hd; simpl. by rewrite <-(assoc_L (++)).
    + intros s. rewrite recv_data_app, Hr, app_nil_r. unfold recv_data; simpl. unfold frame_data.
      by rewrite Heqo.
    + intros k. by rewrite queued_data_app, Hq.
    + rewrite remove_stream_recv. by left.
  - (* handed over *)
    eapply is_handed; simpl; [eassumption|done|done|intros; by rewrite recv_data_tail|].
    intros k'. rewrite queued_data_app. f_equal. unfold queued_data; simpl.
    case_decide; [apply app_nil_r|done].
  - eapply is_lost; simpl; [eassumption|done..].
  - destruct (remove_stream_tail sid w) as (d & Hd & Hr & Hq).
    eapply (inbound_quiet _ _ d); simpl; [done..|right].
    rewrite Heqr. split_and!; [done..|]. intros s [= <-]. apply remove_stream_gone.
Qed.

Lemma inbound_inv_init w : sess_init sc w → inbound_inv w.
Proof.
  intros (tx & _ & Hc & Ha & Hr & _ & Hl).
  split; intros *; unfold rv_hold; rewrite ?Hc, ?Ha, ?Hr, ?Hl, ?lookup_empty; done.
Qed.

Section preserved.
Context (l : sess_label) (w w' : sess_world chan).
Context (Ho : own_inv w) (Hu : up_inv w) (Hu' : up_inv w') (Hs : streams_inv w) (Hb : inbound_inv w).
Context (HS : sess_step mfb cfg sc l w = Some w').

Lemma rv_hold_send k k' sid p v :
  w_recv v = RvSend k sid p → rv_hold k' v = if decide (k = k') then p else [].
Proof using Type. intros Hr. unfold rv_hold. by rewrite Hr. Qed.

Lemma rv_hold_idle k v : rv_idle (w_recv v) → rv_hold k v = [].
Proof using Type. unfold rv_hold. by destruct (w_recv v). Qed.

(** A connection nothing feeds yet still has received nothing. *)
Lemma inbound_empty k :
  queued_data k (w_log w) = [] → rv_hold k w = [] →
  (∀ sid, streams_of w !! sid ≠ Some k) →
  queued_data k (w_log w') = [] ∧ rv_hold k w' = [].
Proof using HS.
  intros Hq Hh Hn.
  destruct (sess_step_inbound _ _ _ HS)
    as [_ Hq' Hh' _ _|k0 sid0 p Hr Hin _ Hr' _ Hq'|sid0 p Hr _ _ Hr' _ Hq'
       |k0 sid0 p Hr Hr' _ _ Hq'|k0 sid0 p Hr Hr' _ _ Hq']; rewrite Hq', Hq.
  - by rewrite Hh'.
  - rewrite (rv_hold_send _ _ _ _ _ Hr'). case_decide; [subst; by destruct (Hn sid0)|done].
  - by rewrite rv_hold_idle by (by rewrite Hr').
  - rewrite (rv_hold_send _ _ _ _ _ Hr) in Hh. case_decide; simplify_eq/=;
      by rewrite rv_hold_idle by (by rewrite Hr').
  - by rewrite rv_hold_idle by (by rewrite Hr').
Qed.

Lemma inbound_pending a t k sid :
  w_accept w' !! a = Some t → ac_pc t = AcInsert k sid →
  queued_data k (w_log w') = [] ∧ rv_hold k w' = [].
Proof using All.
  intros Ha Hpc. destruct (accept_insert_step _ _ _ _ _ _ _ _ _ _ HS Ha Hpc) as [[Ha0 _]|(_ & _ & Hk)].
  - destruct (ib_pending _ Hb _ _ _ _ Ha0 Hpc) as [Hq Hh]. apply inbound_empty; [done..|].
    intros sid0 Hin. destruct (si_entry _ Hs _ _ Hin) as (c & Hc & Hsid & _).
    destruct (proj1 Ho a t k sid Ha0) as (c1 & Hc1 & _ & _ & Hsid1); [by rewrite Hpc|].
    simplify_eq. by rewrite (si_pending _ Hs _ _ _ _ Ha0 Hpc) in Hin.
  - destruct (ib_fresh _ Hb k Hk) as [Hq Hh]. apply inbound_empty; [done..|].
    intros sid0 Hin. destruct (si_entry _ Hs _ _ Hin) as (c & Hc & _). congruence.
Qed.

Lemma inbound_recv k sid p :
  w_recv w' = RvSend k sid p → ∃ c, w_conns w' !! k = Some c ∧ cn_sid c = sid.
Proof using All.
  intros Hr. pose proof (sess_step_conns _ _ _ _ _ _ Ho HS) as Hcc.
  assert (∃ c, w_conns w !! k = Some c ∧ cn_sid c = sid) as (c & Hc & <-).
  { destruct (recv_send_step _ _ _ _ _ _ _ _ _ HS Hr) as [Hr0|Hin]; [by eapply ib_recv|].
    destruct (si_entry _ Hs _ _ Hin) as (c & ? & ? & _). eauto. }
  destruct (conns_change_lookup _ _ _ _ Hcc Hc) as (c' & ? & ? & _). eauto.
Qed.

(** An entry that a step adds belongs to a connection nothing fed yet. *)
Lemma inbound_entry sid k :
  streams_of w' !! sid = Some k →
  streams_of w !! sid = Some k ∨ (queued_data k (w_log w) = [] ∧ rv_hold k w = []).
Proof using Hb HS.
  intros Hin. destruct (sess_step_streams _ _ _ _ _ _ HS) as [_ Hsc].
  destruct (streams_change_lookup _ _ _ _ _ _ Hsc Hin) as [?|(a & t & _ & Ha & Hpc)]; [by left|].
  right. by eapply ib_pending.
Qed.

Lemma log_grows : ∃ d, w_log w' = w_log w ++ d.
Proof using Ho HS. destruct (sess_step_conns _ _ _ _ _ _ Ho HS) as (d & Hd & _). eauto. Qed.

Lemma since_quiet_grows sid rd x :
  since_quiet sid (w_log w) rd → recv_data sid (w_log w') = recv_data sid (w_log w) ++ x →
  since_quiet sid (w_log w') (rd ++ x).
Proof using Ho HS. destruct log_grows as [d ->]. apply since_quiet_step. Qed.

(** A connection that is being registered. *)
Lemma inbound_conn_new k c :
  w_conns w !! k = Some c → streams_of w' !! cn_sid c = Some k → streams_of w !! cn_sid c ≠ Some k →
  since_quiet (cn_sid c) (w_log w) [] ∧ queued_data k (w_log w) = [] ∧ rv_hold k w = [].
Proof using Ho Hu Hb HS.
  intros Hc Hin Hno. destruct (sess_step_streams _ _ _ _ _ _ HS) as [_ Hsc].
  destruct (streams_change_lookup _ _ _ _ _ _ Hsc Hin) as [?|(a & t & _ & Ha & Hpc)]; [done|].
  destruct (proj1 Ho a t k (cn_sid c) Ha) as (c1 & Hc1 & Hup & _ & _); [by rewrite Hpc|]. simplify_eq.
  split; [|by eapply ib_pending]. apply since_quiet_now. by eapply up_inv_unopened.
Qed.

Lemma inbound_conn_old k c :
  w_conns w !! k = Some c →
  ∃ post, since_quiet (cn_sid c) (w_log w') (queued_data k (w_log w') ++ rv_hold k w' ++ post) ∧
    (streams_of w' !! cn_sid c = Some k → w_recv w' ≠ RvRemove (cn_sid c) → post = []).
Proof using Ho Hu Hs Hb HS.
  intros Hc. destruct (ib_conn _ Hb k c Hc) as (post & Hsq & Hcond).
  pose proof (inbound_conn_new k c Hc) as Hnew. pose proof (since_quiet_grows (cn_sid c)) as Hgrow.
  destruct (sess_step_inbound _ _ _ HS)
    as [Hd Hq Hh _ Hrm|k0 sid0 p Hr Hin Hst Hr' Hd Hq|sid0 p Hr Hno Hst Hr' Hd Hq
       |k0 sid0 p Hr Hr' Hst Hd Hq|k0 sid0 p Hr Hr' Hst Hd Hq]; rewrite ?Hq.
  - destruct (decide (streams_of w' !! cn_sid c = Some k)) as [Hin|Hno].
    + destruct (decide (streams_of w !! cn_sid c = Some k)) as [Hin0|Hno].
      * exists post. split; [|intros _ Hnr; apply Hcond; [done|]; intros Hw; destruct (Hrm _ Hw); congruence].
        rewrite Hh, <-(app_nil_r (_ ++ _)). apply Hgrow; [done|]. by rewrite Hd, app_nil_r.
      * destruct (Hnew Hin Hno) as (Hsq0 & Hq0 & Hh0). exists []. split; [|done].
        rewrite Hh, Hq0, Hh0. apply (Hgrow [] []); [done|]. by rewrite Hd, app_nil_r.
    + exists post. split; [|done].
      rewrite Hh, <-(app_nil_r (_ ++ _)). apply Hgrow; [done|]. by rewrite Hd, app_nil_r.
  - rewrite (rv_hold_idle k w) in Hsq by (by rewrite Hr).
    pose proof (Hgrow _ _ Hsq (Hd _)) as Hsq'. rewrite (rv_hold_send _ _ _ _ _ Hr').
    destruct (si_entry _ Hs _ _ Hin) as (c1 & Hc1 & Hsid1 & _). case_decide as Hsid; [subst sid0|].
    + assert (k0 = k) as -> by (eapply (ui_sid_inj _ Hu); eauto). rewrite decide_True by done.
      rewrite Hcond in Hsq' by (congruence || by rewrite Hr). exists []. split; [|done].
      by rewrite app_nil_r in *.
    + rewrite decide_False by (intros ->; congruence). exists post. rewrite Hst.
      split; [by rewrite app_nil_r in Hsq'|]. intros. apply Hcond; congruence.
  - rewrite (rv_hold_idle k w) in Hsq by (by rewrite Hr). rewrite (rv_hold_idle k w') by (by rewrite Hr').
    exists (post ++ if decide (sid0 = cn_sid c) then p else []). rewrite Hst. split.
    + rewrite !(assoc_L (++)). apply Hgrow; [by rewrite <-(assoc_L (++))|done].
    + intros Hin _. case_decide; [congruence|]. rewrite app_nil_r. apply Hcond; congruence.
  - rewrite (rv_hold_send _ _ _ _ _ Hr) in Hsq. rewrite (rv_hold_idle k w') by (by rewrite Hr').
    exists post. rewrite Hst. split; [|intros; apply Hcond; congruence].
    rewrite <-(app_nil_r (_ ++ _)). apply Hgrow; [|by rewrite Hd, app_nil_r].
    case_decide; by rewrite <-!(assoc_L (++)).
  - rewrite (rv_hold_send _ _ _ _ _ Hr) in Hsq. rewrite (rv_hold_idle k w') by (by rewrite Hr'). rewrite Hst.
    destruct (ib_recv _ Hb _ _ _ Hr) as (c1 & Hc1 & Hsid1).
    exists ((if decide (k0 = k) then p else []) ++ post). split.
    + rewrite <-(app_nil_r (_ ++ _)). apply Hgrow; [done|by rewrite Hd, app_nil_r].
    + case_decide; [subst; simplify_eq; by rewrite Hr'|]. intros; apply Hcond; congruence.
Qed.

Lemma inbound_inv_step : inbound_inv w'.
Proof using All.
  pose proof (sess_step_conns _ _ _ _ _ _ Ho HS) as Hcc.
  assert (∀ k, w_conns w !! k = None → queued_data k (w_log w') = [] ∧ rv_hold k w' = []) as Hfr.
  { intros k Hk. destruct (ib_fresh _ Hb k Hk) as [Hq Hh]. apply inbound_empty; [done..|].
    intros sid Hin. destruct (si_entry _ Hs _ _ Hin) as (c & Hc & _). congruence. }
  split; [|by apply inbound_pending|by apply inbound_recv|].
  - intros k c' Hc'. destruct (w_conns w !! k) as [c|] eqn:Hc.
    + destruct (conns_change_lookup _ _ _ _ Hcc Hc) as (c1 & Hc1 & Hsid & _). simplify_eq.
      rewrite Hsid. by apply inbound_conn_old.
    + destruct (Hfr k Hc) as [Hq Hh]. exists []. rewrite Hq, Hh. split; [|done].
      apply since_quiet_now. eapply up_inv_unopened; [done..|]. by eapply conns_change_new.
  - intros k Hk. apply Hfr. destruct (w_conns w !! k) as [c|] eqn:Hc; [|done].
    destruct (conns_change_lookup _ _ _ _ Hcc Hc) as (? & ? & _). congruence.
Qed.

End preserved.

Lemma session_inbound_inv w :
  reachable (sess_step_nowrap mfb cfg sc) (sess_init sc) w → inbound_inv w.
Proof.
  apply reachable_invariant_strong; [apply inbound_inv_init|].
  intros l s s' Hr Hs Hstep. destruct (session_streams_inv _ _ _ _ Hr) as (? & ? & ?).
  destruct (session_streams_inv _ _ _ _ (reachable_step _ _ _ _ _ Hr Hstep)) as (_ & ? & _).
  apply nowrap_step in Hstep as [_ Hstep]. by eapply inbound_inv_step.
Qed.

(** C10: what reaches a hub-side TCP connection.  From some moment before its [Open]
    was queued, the bytes handed to its writer are a prefix of the [Data] bytes the
    spoke sent under its stream id, all of them while the stream is registered and
    [recv_loop] is between frames; the bytes written to the socket are a prefix
    of those handed over, all of them once the writer is idle.  Nothing is
    reordered, duplicated, dropped in the middle or taken from another stream. *)
Theorem inbound_bytes_contiguous w k c :
  reachable (sess_step_nowrap mfb cfg sc) (sess_init sc) w →
  w_conns w !! k = Some c →
  (∃ l1 l2, w_log w = l1 ++ l2 ∧ stream_frames (cn_sid c) l1 = [] ∧
     queued_data k (w_log w) `prefix_of` recv_data (cn_sid c) l2 ∧
     (ss_streams (w_session w) !! cn_sid c = Some k → w_recv w = RvNext →
        queued_data k (w_log w) = recv_data (cn_sid c) l2)) ∧
  tcp_written k (w_log w) `prefix_of` queued_data k (w_log w) ∧
  (cn_dn c = DnRecv → mpsc_queued (cn_writer c) = [] →
     tcp_written k (w_log w) = queued_data k (w_log w)).
Proof.
  intros Hr Hc. split.
  - destruct (ib_conn _ (session_inbound_inv _ Hr) k c Hc) as (post & (l1 & l2 & Hl & Hf & Hd) & Hcond).
    exists l1, l2. rewrite Hd. split_and!; [done|done|by apply prefix_app_r|].
    intros Hin Hn. rewrite (rv_hold_idle k w) by (by rewrite Hn).
    rewrite Hcond by first [done|by rewrite Hn]. by rewrite !app_nil_r.
  - split; [by eapply tcp_written_queued, reachable_nowrap|].
    pose proof (session_down_inv mfb cfg sc w (reachable_nowrap _ _ _ _ Hr) k) as Hd.
    rewrite Hc in Hd. unfold conn_down_ok in Hd. intros Hdn Hq. rewrite Hdn, Hq in Hd. simpl in Hd. by rewrite app_nil_r in Hd.
Qed.
End inbound.
