(* ===== verification/SessionClose.v ===== *)
(** * tunnel-server: closing a session, and its gauge

    What close() leaves behind: the accounting of the [streams_open] gauge, the
    half-closed connections that stop receiving, and the listeners, which notice
    [closed] only between two connections. *)
From S2P Require Import Prelude RustStd Proto ServerConfig Channel ServerMetrics ServerHttp ServerSession SessionTrans SessionDelivery SessionStreams SessionInbound.

Section close.
Context {chan : Type → Type} `{Hmpsc : Mpsc chan} `{HI : HashIter}.
Context (mfb : bytes → option bytes) (cfg : server_config) (sc : spoke_config).
Implicit Types (w : sess_world chan).

(** ** Half-closed connections *)

(** The upstream pump of an opened connection has ended. *)
Definition pump_ended (k : nat) w : Prop :=
  ∃ c, w_conns w !! k = Some c ∧ cn_up c = UpDone ∧ stream_frames (cn_sid c) (w_log w) ≠ [].

(** What has been handed to the connection, with the payload [recv_loop] is just
    handing to it. *)
Definition handed (k : nat) w : bytes := queued_data k (w_log w) ++ rv_hold k w.

Lemma pump_ended_step k l w w' :
  own_inv w → streams_inv w → sess_step mfb cfg sc l w = Some w' → pump_ended k w →
  pump_ended k w' ∧ handed k w' `prefix_of` handed k w.
Proof.
  intros Ho Hw HS (c & Hk & Hd & Hf). split.
  - pose proof (sess_step_conns _ _ _ _ _ _ Ho HS) as Hcc.
    destruct (conns_change_lookup _ _ _ _ Hcc Hk) as (c' & Hk' & Hs & Hd').
    exists c'. split_and!; [done|by apply Hd'|].
    destruct Hcc as (d & -> & _). rewrite Hs, stream_frames_app. by intros [? _]%app_eq_nil.
  - unfold handed. destruct (sess_step_inbound _ _ _ _ _ _ HS)
      as [_ Hq Hh _ _|k0 sid p Hr Hin _ Hr' _ Hq|sid p Hr _ _ Hr' _ Hq
         |k0 sid p Hr Hr' _ _ Hq|k0 sid p Hr Hr' _ _ Hq]; rewrite Hq, ?Hh; unfold rv_hold; rewrite ?Hr, ?Hr'; try done.
    + case_decide; [subst k0|done]. destruct (si_entry _ Hw _ _ Hin) as (c1 & Hc1 & <- & Hd1). simplify_eq. by apply Hd1 in Hd.
    + by rewrite app_nil_r.
    + rewrite app_nil_r. by apply prefix_app_r.
Qed.

Lemma queued_data_grows k l w w' :
  sess_step mfb cfg sc l w = Some w' → queued_data k (w_log w) `prefix_of` queued_data k (w_log w').
Proof.
  intros [_ Hq _ _ _|??? _ _ _ _ _ Hq|?? _ _ _ _ _ Hq|??? _ _ _ _ Hq|??? _ _ _ _ Hq]%sess_step_inbound; rewrite Hq;
    first [done|by apply prefix_app_r].
Qed.

Lemma pump_ended_exec k ls w w' :
  reachable (sess_step_nowrap mfb cfg sc) (sess_init sc) w → pump_ended k w →
  exec (sess_step_nowrap mfb cfg sc) ls w = Some w' →
  handed k w' `prefix_of` handed k w ∧ queued_data k (w_log w) `prefix_of` queued_data k (w_log w').
Proof.
  revert w. induction ls as [|l ls IH]; intros w Hr Hh He; simplify_eq/=; [done|].
  destruct (sess_step_nowrap _ _ _ l w) as [w1|] eqn:HS; [|done].
  destruct (nowrap_step _ _ _ _ _ _ HS) as [_ HS'].
  destruct (session_streams_inv _ _ _ _ Hr) as (Ho & _ & Hw).
  destruct (pump_ended_step _ _ _ _ Ho Hw HS' Hh) as [Hh' Hp].
  destruct (IH w1) as [Hp1 Hq1]; [by eapply reachable_step|done|done|].
  split; (etrans; [|done]); [done|by eapply queued_data_grows].
Qed.

(** ** Listeners of a closed session *)
Definition accept_credit (a : nat) w : nat :=
  match w_accept w !! a with
  | Some t => match ac_pc t with AcAccept => 1 | _ => 0 end
  | None => 0
  end.

Lemma remove_stream_accepts a sid w :
  accepts a (w_log (remove_stream sid w)) = accepts a (w_log w).
Proof.
  destruct (remove_stream_log sid w) as (l & -> & Hl).
  by rewrite accepts_app, (quiet_accepts a l Hl), app_nil_r.
Qed.

Lemma remove_stream_closed sid w :
  ss_closed (w_session (remove_stream sid w)) = ss_closed (w_session w).
Proof. unfold remove_stream. by case_match. Qed.

(** The [closed] flag is never cleared. *)
Lemma closed_step l w w' :
  sess_step mfb cfg sc l w = Some w' →
  ss_closed (w_session w) = true → ss_closed (w_session w') = true.
Proof.
  intros HS Hc. sess_inv HS; simpl; rewrite ?remove_stream_closed; simpl;
    rewrite ?remove_stream_closed; done.
Qed.

Lemma closed_accept_step a l w w' :
  sess_step mfb cfg sc l w = Some w' → ss_closed (w_session w) = true →
  length (accepts a (w_log w')) + accept_credit a w' ≤
  length (accepts a (w_log w)) + accept_credit a w.
Proof.
  intros HS Hc. unfold accept_credit.
  sess_inv HS; simpl; rewrite ?remove_stream_accepts, ?remove_stream_accept; simpl;
    rewrite ?remove_stream_accepts, ?remove_stream_accept; simpl;
    rewrite ?accepts_app; simpl; rewrite ?app_nil_r; try congruence; try lia.
  all: rewrite ?lookup_insert; repeat case_decide; simplify_eq; simpl; rewrite ?app_nil_r, ?length_app; simpl; try lia.
  match goal with Ha : w_accept _ !! _ = Some ?t, Hpc : ac_pc ?t = _ |- _ => rewrite Ha, Hpc end.
  lia.
Qed.

Lemma closed_accepts_exec a ls w w' :
  exec (sess_step mfb cfg sc) ls w = Some w' → ss_closed (w_session w) = true →
  length (accepts a (w_log w')) + accept_credit a w' ≤
  length (accepts a (w_log w)) + accept_credit a w.
Proof.
  revert w. induction ls as [|l ls IH]; intros w He Hc; simplify_eq/=; [done|].
  destruct (sess_step _ _ _ l w) as [w1|] eqn:HS; [|done].
  pose proof (closed_accept_step a _ _ _ HS Hc).
  pose proof (IH w1 He (closed_step _ _ _ HS Hc)). lia.
Qed.

(** The answers that wake a listener out of [accept().await]. *)
Definition wakes_listener (a : nat) (l : sess_label) : bool :=
  match l with
  | LAbort a' => bool_decide (a' = a)
  | LAccept a' (Accepted _) | LAccept a' AcceptErr => bool_decide (a' = a)
  | _ => false
  end.

Lemma blocked_accept_step a t l w w' :
  sess_step mfb cfg sc l w = Some w' → wakes_listener a l = false →
  w_accept w !! a = Some t → ac_pc t = AcAccept → w_accept w' !! a = Some t.
Proof.
  intros HS Hl Ha Hpc. sess_inv HS; simpl; rewrite ?remove_stream_accept; simpl;
    rewrite ?remove_stream_accept; simpl; try done;
    (rewrite lookup_insert_ne; [done|]; intros ->; simplify_eq/=; try congruence;
     by rewrite bool_decide_true in Hl).
Qed.

Lemma gauge_leak_change w w' l s z :
  streams_inv w → streams_change w l s z → streams_of w' = s →
  (streams_gauge w' - streams_gauge w)%Z = z →
  gauge_leak w' =
    (gauge_leak w + (match l with LCloseClear => Z.of_nat (size (streams_of w)) | _ => 0 end)
       - (if lost_rollback l w then 1 else 0))%Z.
Proof.
  intros Hw Hc Hs Hz. unfold gauge_leak. rewrite Hs.
  destruct Hc as [l [Hl ->]|a t k sid Ha Hpc|l sid [Hl ->] [k Hin]|a t k sid Ha Hpc|].
  - destruct l; (done || lia).
  - simpl. rewrite Ha, Hpc.
    rewrite map_size_insert_None by (by eapply (si_pending _ Hw)). lia.
  - rewrite map_size_delete_Some by eauto.
    assert (size (streams_of w) ≠ 0) by (apply map_size_ne_0_lookup; eauto).
    destruct l; (done || lia).
  - simpl. rewrite Ha, Hpc. case_bool_decide as Hb.
    + rewrite map_size_delete_None by done. lia.
    + assert (is_Some (streams_of w !! sid)) as Hin by (by apply not_eq_None_Some).
      rewrite map_size_delete_Some by done.
      assert (size (streams_of w) ≠ 0) by (apply map_size_ne_0_lookup; eauto). lia.
  - rewrite map_size_empty. simpl. lia.
Qed.

(** ** The properties *)

(** C28: accounting of the [streams_open] gauge.  Each step of a session keeps the
    difference between the gauge and the number of open streams, except two:
    [close()] clears the table without decrementing, leaving every open stream
    counted for ever, and a rollback after the entry is gone decrements for a
    stream that is no longer counted. *)
Theorem streams_gauge_accounting l w w' :
  reachable (sess_step_nowrap mfb cfg sc) (sess_init sc) w →
  sess_step mfb cfg sc l w = Some w' →
  gauge_leak w' =
    (gauge_leak w + (match l with LCloseClear => Z.of_nat (size (streams_of w)) | _ => 0 end)
       - (if lost_rollback l w then 1 else 0))%Z.
Proof.
  intros Hr HS. destruct (session_streams_inv _ _ _ _ Hr) as (_ & _ & Hw).
  destruct (sess_step_streams _ _ _ _ _ _ HS) as [_ Hsc].
  by eapply gauge_leak_change.
Qed.

(** C34: a half-close from the hub side closes the connection in both directions.
    Once the upstream pump of an opened connection has ended (its client sent EOF
    and the pump announced [CloseStream { half: true }], or reading or sending
    failed), nothing the spoke sends from then on reaches the connection, whatever
    the session does: all that is ever handed to it, and all that is ever written to
    its socket, is a prefix of what had been handed to it when the pump ended,
    followed by the one payload [recv_loop] may then have been handing over; and
    without such a payload nothing more is handed over at all. *)
Theorem half_close_is_full_close k ls w w' :
  reachable (sess_step_nowrap mfb cfg sc) (sess_init sc) w → pump_ended k w →
  exec (sess_step_nowrap mfb cfg sc) ls w = Some w' →
  queued_data k (w_log w') `prefix_of` queued_data k (w_log w) ++ rv_hold k w ∧
  tcp_written k (w_log w') `prefix_of` queued_data k (w_log w) ++ rv_hold k w ∧
  (rv_hold k w = [] → queued_data k (w_log w') = queued_data k (w_log w)).
Proof.
  intros Hr Hh He. destruct (pump_ended_exec _ _ _ _ Hr Hh He) as [Hp Hg]. unfold handed in Hp.
  assert (queued_data k (w_log w') `prefix_of` queued_data k (w_log w) ++ rv_hold k w) as Hq.
  { etrans; [|exact Hp]. by apply prefix_app_r. }
  split_and!; [done| |].
  - etrans; [|exact Hq]. eapply tcp_written_queued, reachable_nowrap, reachable_exec; [exact Hr|exact He].
  - intros Hnil. rewrite Hnil, app_nil_r in Hq.
    destruct Hq as [d1 Hd1], Hg as [d2 Hd2]. 
    assert (length d1 = 0) as Hl by (apply (f_equal length) in Hd1; rewrite Hd2, !length_app in Hd1; lia).
    by rewrite Hd1, (nil_length_inv _ Hl), app_nil_r.
Qed.

(** After [close()] has set the flag, each listener accepts at most one more
    connection, the one it was already waiting for. *)
Theorem closed_session_accepts_at_most_once a ls w w' :
  ss_closed (w_session w) = true → exec (sess_step mfb cfg sc) ls w = Some w' →
  length (accepts a (w_log w')) ≤ length (accepts a (w_log w)) + 1.
Proof.
  intros Hc He. pose proof (closed_accepts_exec a ls w w' He Hc) as Hle.
  assert (accept_credit a w ≤ 1); [|lia].
  unfold accept_credit. repeat case_match; lia.
Qed.

(** A listener waiting in [accept()] does not end when the session is closed:
    only a connection, an accept error or an abort wakes it, so until then it
    keeps its port bound. *)
Theorem blocked_listener_survives_close a t ls w w' :
  w_accept w !! a = Some t → ac_pc t = AcAccept →
  forallb (λ l, negb (wakes_listener a l)) ls = true →
  exec (sess_step mfb cfg sc) ls w = Some w' →
  w_accept w' !! a = Some t.
Proof.
  revert w. induction ls as [|l ls IH]; intros w Ha Hpc Hls He; simplify_eq/=; [done|].
  apply andb_prop in Hls as [Hl Hls]. apply negb_true_iff in Hl.
  destruct (sess_step _ _ _ l w) as [w1|] eqn:HS; [|done].
  apply (IH w1); [|done..]. by eapply blocked_accept_step.
Qed.
End close.
