(* ===== verification/SessionHttp.v ===== *)
(** * tunnel-server: the HTTP proxying of a session

    Which requests reach the hub kernel, and how many responses are queued for
    the requests received: the tasks [recv_loop] spawns and the requests it
    rejects on the spot. *)
From S2P Require Import Prelude RustStd Proto ServerConfig Channel ServerMetrics ServerHttp ServerSession SessionTrans SessionDelivery SessionStreams.

#[export] Instance http_pc_eq_dec : EqDecision http_pc.
Proof. solve_decision. Defined.

(** The requests received and the responses queued under a stream id. *)
Definition is_http_request (sid : N) (f : client_frame) : bool :=
  match cf_kind f with Some (CHttpRequest _) => bool_decide (cf_stream_id f = sid) | _ => false end.
Definition is_http_response (sid : N) (f : server_frame) : bool :=
  match sf_kind f with Some (SHttpResponse _) => bool_decide (sf_stream_id f = sid) | _ => false end.

Definition requests_of (sid : N) (l : list obs) : nat :=
  length (filter (is_http_request sid) (recv_frames l)).
Definition responses_of (sid : N) (l : list obs) : nat :=
  length (filter (is_http_response sid) (sent_frames l)).

Lemma requests_of_app sid l1 l2 : requests_of sid (l1 ++ l2) = requests_of sid l1 + requests_of sid l2.
Proof. unfold requests_of. by rewrite recv_frames_app, filter_app, length_app. Qed.
Lemma responses_of_app sid l1 l2 : responses_of sid (l1 ++ l2) = responses_of sid l1 + responses_of sid l2.
Proof. unfold responses_of. by rewrite sent_frames_app, filter_app, length_app. Qed.

Section http.
Context {chan : Type → Type} `{Hmpsc : Mpsc chan} `{HI : HashIter}.
Context (mfb : bytes → option bytes) (cfg : server_config) (sc : spoke_config).
Implicit Types (w : sess_world chan).

(** The task is still to answer a request of stream [sid]. *)
Definition owes (sid : N) (ht : nat * http_task) : Prop :=
  ht_sid ht.2 = sid ∧ ht_pc ht.2 ≠ HtDone.
#[export] Instance owes_dec sid ht : Decision (owes sid ht).
Proof. unfold owes. apply _. Defined.

Definition owing (sid : N) w : nat :=
  size (filter (owes sid) (w_http w)) +
  match w_recv w with RvReject s => if decide (s = sid) then 1 else 0 | _ => 0 end.

Definition tx_alive w : bool := mpsc_rx_alive (ss_server_tx (w_session w)).

(** ** The life of a proxied request *)
Definition no_forward (d : list obs) : bool :=
  forallb (λ o, match o with OForward _ _ => false | _ => true end) d.

Lemma no_forward_elem d h c : no_forward d = true → OForward h c ∉ d.
Proof.
  unfold no_forward. rewrite forallb_forall. intros Hd Hin%list_elem_of_In.
  by specialize (Hd _ Hin).
Qed.

Record http_inv w : Prop := {
  hi_id : ss_spoke_id (w_session w) = sc_spoke_id sc;
  hi_task h t : w_http w !! h = Some t →
    sc_kind sc = Application ∧
    ORecv (ClientFrame (ht_sid t) (Some (CHttpRequest (ht_req t)))) ∈ w_log w;
  hi_forward h c : OForward h c ∈ w_log w →
    ∃ t, w_http w !! h = Some t ∧ req_path (ht_req t) ∈ allowed_paths cfg ∧
         c = forward_call mfb cfg (sc_spoke_id sc) (ht_req t) }.

Inductive http_step_of w w' : Prop :=
| hs_other d : w_http w' = w_http w → w_log w' = w_log w ++ d →
    no_forward d = true → http_step_of w w'
| hs_start h sid r d : w_http w !! h = None → sc_kind sc = Application →
    w_http w' = <[h := HttpTask sid r HtStart]> (w_http w) →
    w_log w' = w_log w ++ [ORecv (ClientFrame sid (Some (CHttpRequest r)))] ++ d →
    no_forward d = true → http_step_of w w'
| hs_move h t pc d : w_http w !! h = Some t →
    w_http w' = <[h := HttpTask (ht_sid t) (ht_req t) pc]> (w_http w) →
    w_log w' = w_log w ++ d →
    (∀ h' c, OForward h' c ∈ d → h' = h ∧ req_path (ht_req t) ∈ allowed_paths cfg ∧
       c = forward_call mfb cfg (ss_spoke_id (w_session w)) (ht_req t)) →
    http_step_of w w'.

Lemma remove_stream_http sid w : w_http (remove_stream sid w) = w_http w.
Proof. unfold remove_stream. by case_match. Qed.

Lemma remove_stream_log_adds sid w :
  ∃ d, w_log (remove_stream sid w) = w_log w ++ d ∧ no_forward d = true.
Proof.
  destruct (remove_stream_cases sid w) as [[_ ->]|(k & _ & ->)].
  - exists []. by rewrite app_nil_r.
  - simpl. eauto.
Qed.

Lemma sess_step_http l w w' : sess_step mfb cfg sc l w = Some w' → http_step_of w w'.
Proof.
  intros HS. sess_inv HS.
  all: try solve [eapply (hs_other _ _ []); simpl; [reflexivity|by rewrite app_nil_r|reflexivity]].
  all: try solve [eapply hs_other; simpl; [reflexivity|reflexivity|reflexivity]].
  all: try solve [eapply hs_other; simpl;
    [reflexivity|rewrite <-(assoc_L (++)); reflexivity|reflexivity]].
  all: try solve [eapply hs_move; simpl; [eassumption|reflexivity|reflexivity|];
    intros ? ? Hin; exfalso; revert Hin; by apply no_forward_elem].
  all: try solve [eapply (hs_move _ _ _ _ _ []); simpl;
    [eassumption|reflexivity|by rewrite app_nil_r|]; intros ? ? []%elem_of_nil].
  all: try solve [match goal with |- context [remove_stream ?s ?v] =>
    destruct (remove_stream_log_adds s v) as (d & Hd & Hn);
    eapply (hs_other _ _ d); [apply (remove_stream_http s v)|exact Hd|exact Hn] end].
  - (* close frame *)
    destruct (remove_stream_log_adds (cf_stream_id f) (add_log [ORecv f] w)) as (d & Hd & Hn).
    eapply (hs_other _ _ ([ORecv f] ++ d)); [by rewrite remove_stream_http| |done].
    rewrite Hd; simpl. by rewrite <-(assoc_L (++)).
  - (* request *)
    destruct f as [sid kd]; simplify_eq/=. eapply hs_start; simpl; [eassumption|done|done| |].
    + by rewrite <-(assoc_L (++)).
    + done.
  - (* forwarded *)
    eapply hs_move; simpl; [eassumption|reflexivity|reflexivity|].
    intros h' c Hin%list_elem_of_singleton. by simplify_eq.
Qed.

Lemma http_inv_init w : sess_init sc w → http_inv w.
Proof.
  intros (tx & Hs & _ & _ & _ & Hh & Hl).
  split; [by rewrite Hs|intros *; by rewrite Hh, lookup_empty|].
  intros *. rewrite Hl. by intros []%elem_of_nil.
Qed.

Lemma http_inv_step l w w' : http_inv w → sess_step mfb cfg sc l w = Some w' → http_inv w'.
Proof.
  intros Hw HS.
  assert (ss_spoke_id (w_session w') = sc_spoke_id sc) as Hid.
  { destruct (sess_step_streams _ _ _ _ _ _ HS) as [-> _]. apply Hw. }
  destruct (sess_step_http _ _ _ HS)
    as [d Hh Hl Hd|h sid r d Hn Hk Hh Hl Hd|h t pc d Ht Hh Hl Hd]; split; rewrite ?Hh, ?Hl; try done.
  - intros h t Ht. destruct (hi_task _ Hw h t Ht). split; [done|]. apply elem_of_app; by left.
  - intros h c [Hin|Hin]%elem_of_app; [by apply (hi_forward _ Hw)|]. by edestruct no_forward_elem.
  - intros h' t'. rewrite lookup_insert. case_decide; intros; simplify_eq/=.
    + split; [done|]. set_solver.
    + destruct (hi_task _ Hw h' t'); [done|]. split; [done|]. apply elem_of_app; by left.
  - intros h' c [Hin|[Hin|Hin]%elem_of_app]%elem_of_app; [|set_solver|by edestruct no_forward_elem].
    destruct (hi_forward _ Hw h' c Hin) as (t' & Ht' & ?). exists t'.
    rewrite lookup_insert_ne by congruence. done.
  - intros h' t'. rewrite lookup_insert. case_decide; intros; simplify_eq/=.
    + destruct (hi_task _ Hw h' t Ht). split; [done|]. apply elem_of_app; by left.
    + destruct (hi_task _ Hw h' t'); [done|]. split; [done|]. apply elem_of_app; by left.
  - intros h' c [Hin|Hin]%elem_of_app.
    + destruct (hi_forward _ Hw h' c Hin) as (t' & Ht' & ?). destruct (decide (h = h')) as [->|].
      * simplify_eq. eexists. by rewrite lookup_insert_eq.
      * exists t'. by rewrite lookup_insert_ne.
    + destruct (Hd h' c Hin) as (-> & Hp & ->). eexists. rewrite lookup_insert_eq.
      split; [done|]. by rewrite (hi_id _ Hw).
Qed.

(** ** Counting responses *)
Definition b2n (P : Prop) `{!Decision P} : nat := if decide P then 1 else 0.

Lemma owes_insert sid (m : gmap nat http_task) h t' :
  size (filter (owes sid) (<[h:=t']> m)) + match m !! h with Some t => b2n (owes sid (h, t)) | None => 0 end =
  size (filter (owes sid) m) + b2n (owes sid (h, t')).
Proof.
  assert (∀ (m' : gmap nat http_task) t0, m' !! h = None →
    size (filter (owes sid) (<[h:=t0]> m')) = size (filter (owes sid) m') + b2n (owes sid (h, t0)))
    as Hfresh.
  { intros m' t0 Hm'. unfold b2n. case_decide.
  - rewrite map_filter_insert_True by done. rewrite map_size_insert_None; [lia|].
      apply map_lookup_filter_None. by left.
    - rewrite map_filter_insert_not' by naive_solver. lia. }
  destruct (m !! h) as [t|] eqn:Hm; [|rewrite Hfresh by done; lia].
  rewrite <-insert_delete_eq, Hfresh by apply lookup_delete_eq.
  assert (size (filter (owes sid) m) =
    size (filter (owes sid) (delete h m)) + b2n (owes sid (h, t))) as ->; [|lia].
  rewrite <-Hfresh by apply lookup_delete_eq. by rewrite insert_delete_id.
Qed.

(** What was answered, less what was asked, plus what is still owed. *)
Definition balance (sid : N) w : Z :=
  Z.of_nat (responses_of sid (w_log w)) + Z.of_nat (owing sid w) - Z.of_nat (requests_of sid (w_log w)).

Definition reject_owed (sid : N) (pc : recv_pc) : nat :=
  match pc with RvReject s => if decide (s = sid) then 1 else 0 | _ => 0 end.

Lemma balance_log sid w w' d :
  w_log w' = w_log w ++ d → requests_of sid d = 0 → responses_of sid d = 0 →
  w_http w' = w_http w → reject_owed sid (w_recv w') = reject_owed sid (w_recv w) →
  (balance sid w' ≤ balance sid w)%Z ∧ (tx_alive w = true → balance sid w' = balance sid w).
Proof.
  intros Hl Hq Hr Hh Hrv. assert (balance sid w' = balance sid w) as ->; [|done].
  unfold balance, owing. fold (reject_owed sid (w_recv w)) (reject_owed sid (w_recv w')).
  rewrite Hl, Hh, Hrv, requests_of_app, responses_of_app. lia.
Qed.

Lemma balance_task sid w w' d h t t' n :
  w_log w' = w_log w ++ d → requests_of sid d = 0 → responses_of sid d = n →
  w_http w !! h = Some t → w_http w' = <[h := t']> (w_http w) → w_recv w' = w_recv w →
  (balance sid w' - balance sid w =
   Z.of_nat n + Z.of_nat (b2n (owes sid (h, t'))) - Z.of_nat (b2n (owes sid (h, t))))%Z.
Proof.
  intros Hl Hq Hr Ht Hh Hrv. unfold balance, owing. rewrite Hl, Hh, Hrv, requests_of_app, responses_of_app.
  pose proof (owes_insert sid (w_http w) h t') as Ho. rewrite Ht in Ho. lia.
Qed.

Lemma remove_stream_tail_counts sid w :
  ∃ d, w_log (remove_stream sid w) = w_log w ++ d ∧
    (∀ s, requests_of s d = 0) ∧ (∀ s, responses_of s d = 0).
Proof.
  destruct (remove_stream_cases sid w) as [[_ ->]|(k & _ & ->)].
  - exists []. by rewrite app_nil_r.
  - simpl. eexists; split_and!; [done|intros; done..].
Qed.

Lemma responses_of_reply s sid r :
  responses_of s [OSent (server_frame_http sid r)] = if decide (sid = s) then 1 else 0.
Proof.
  unfold responses_of; simpl. unfold is_http_response; simpl. rewrite filter_cons, filter_nil.
  case_decide as Hb; simpl in Hb; case_decide; subst; try done.
Qed.

Lemma requests_of_recv s f :
  requests_of s [ORecv f] =
  match cf_kind f with Some (CHttpRequest _) => if decide (cf_stream_id f = s) then 1 else 0 | _ => 0 end.
Proof.
  unfold requests_of; simpl. rewrite filter_cons, filter_nil. unfold is_http_request.
  destruct (cf_kind f) as [[]|]; simpl; try done.
  destruct (decide (cf_stream_id f = s)); [rewrite bool_decide_true|rewrite bool_decide_false]; done.
Qed.

Lemma b2n_owes s h t :
  b2n (owes s (h, t)) = if decide (ht_sid t = s) then if decide (ht_pc t ≠ HtDone) then 1 else 0 else 0.
Proof. unfold b2n, owes; simpl. repeat case_decide; naive_solver. Qed.

Lemma Zeq_minus (a b : Z) : (a - b = 0)%Z → a = b.
Proof. lia. Qed.
Lemma Zle_minus (a b : Z) : (a - b ≤ 0)%Z → (a ≤ b)%Z.
Proof. lia. Qed.

Lemma balance_recv sid w w' d :
  w_log w' = w_log w ++ d → w_http w' = w_http w →
  (balance sid w' - balance sid w =
   Z.of_nat (responses_of sid d) - Z.of_nat (requests_of sid d)
   + Z.of_nat (reject_owed sid (w_recv w')) - Z.of_nat (reject_owed sid (w_recv w)))%Z.
Proof.
  intros Hl Hh. unfold balance, owing. fold (reject_owed sid (w_recv w)) (reject_owed sid (w_recv w')).
  rewrite Hl, Hh, requests_of_app, responses_of_app. lia.
Qed.

Lemma balance_same sid w w' :
  balance sid w' = balance sid w →
  (balance sid w' ≤ balance sid w)%Z ∧ (tx_alive w = true → balance sid w' = balance sid w).
Proof. intros ->. done. Qed.

Lemma balance_task_on sid w w' d h t t' :
  w_log w' = w_log w ++ d → requests_of sid d = 0 → responses_of sid d = 0 →
  w_http w !! h = Some t → w_http w' = <[h := t']> (w_http w) → w_recv w' = w_recv w →
  ht_sid t' = ht_sid t → ht_pc t' ≠ HtDone → ht_pc t ≠ HtDone →
  balance sid w' = balance sid w.
Proof.
  intros Hl Hq Hr Ht Hh Hrv Hs Hp' Hp.
  pose proof (balance_task sid w w' d h t t' 0 Hl Hq Hr Ht Hh Hrv) as Hb.
  assert (b2n (owes sid (h, t')) = b2n (owes sid (h, t))) as Heq; [|lia].
  assert (owes sid (h, t') ↔ owes sid (h, t)) by (unfold owes; simpl; naive_solver congruence).
  unfold b2n. repeat case_decide; naive_solver.
Qed.

(** The steps that change neither tally. *)
Ltac balance_quiet :=
  try solve [split; [apply Z.eq_le_incl|intros _]; reflexivity];
  try solve [eapply balance_log; simpl; [reflexivity..|]; reflexivity];
  try solve [eapply balance_log; simpl; [rewrite <-(assoc_L (++)); reflexivity|reflexivity..]];
  try solve [match goal with |- context [remove_stream ?s ?v] =>
    destruct (remove_stream_tail_counts s v) as (d & Hd & Hq & Hr);
    eapply (balance_log _ _ _ d); simpl;
      [exact Hd|apply Hq|apply Hr|apply (remove_stream_http s v)
      |rewrite (remove_stream_recv s v); reflexivity] end].

Lemma balance_step_recv sid e w w' :
  sess_step mfb cfg sc (LRecv e) w = Some w' →
  (balance sid w' ≤ balance sid w)%Z ∧ (tx_alive w = true → balance sid w' = balance sid w).
Proof.
  intros HS. sess_split HS; balance_quiet.
  all: try match goal with H : cf_kind ?f = _ |- _ => pose proof (requests_of_recv sid f) as Hrq; rewrite H in Hrq end.
  all: try solve [eapply balance_log; simpl; [rewrite <-?(assoc_L (++)); reflexivity
    |rewrite ?requests_of_app, Hrq; reflexivity|reflexivity|reflexivity
    |match goal with H : w_recv _ = _ |- _ => rewrite H end; reflexivity]].
  all: try solve [eapply (balance_log _ _ _ []); simpl; [by rewrite app_nil_r|reflexivity..|];
    match goal with H : w_recv _ = _ |- _ => rewrite H end; reflexivity].
  all: try solve [eapply balance_log; simpl; [reflexivity..|];
    match goal with H : w_recv _ = _ |- _ => rewrite H end; reflexivity].
  - (* close frame *)
    destruct (remove_stream_tail_counts (cf_stream_id f) (add_log [ORecv f] w)) as (d & Hd & Hq & Hr).
    eapply (balance_log _ _ _ ([ORecv f] ++ d)).
    + rewrite Hd; simpl. by rewrite <-(assoc_L (++)).
    + by rewrite requests_of_app, Hrq, Hq.
    + rewrite responses_of_app, Hr. done.
    + apply (remove_stream_http (cf_stream_id f) (add_log [ORecv f] w)).
    + by rewrite remove_stream_recv.
  - (* request of a cluster spoke *)
    apply balance_same. eapply Zeq_minus. erewrite balance_recv; [|simpl; rewrite <-(assoc_L (++)); reflexivity|done].
    rewrite requests_of_app, responses_of_app, Hrq, Heqr; simpl.
    unfold responses_of, requests_of; simpl. case_decide; lia.
  - (* request of an application spoke *)
    apply balance_same. unfold balance, owing; simpl. rewrite <-(assoc_L (++)), !requests_of_app, !responses_of_app, Hrq.
    pose proof (owes_insert sid (w_http w) h (HttpTask (cf_stream_id f) r HtStart)) as Ho.
    rewrite (Heqo0 : w_http w !! h = None) in Ho. rewrite b2n_owes in Ho. simpl in Ho.
    unfold responses_of at 2 3, requests_of at 2; simpl. repeat case_decide; done || lia.
  - (* the stream of a failed delivery *)
    destruct (remove_stream_tail_counts sid0 w) as (d & Hd & Hq & Hr).
    eapply (balance_log _ _ _ d); [exact Hd|apply Hq|apply Hr|apply (remove_stream_http sid0 w)|].
    rewrite Heqr. done.
  - (* the refusal is queued *)
    apply balance_same. eapply Zeq_minus. erewrite balance_recv; [|simpl; reflexivity|done].
    rewrite responses_of_reply, Heqr; simpl. unfold requests_of; simpl. case_decide; lia.
  - (* the refusal is lost *)
    split; [|intros Ha; match goal with H : mpsc_send _ _ = _ |- _ => apply mpsc_send_SendClosed in H end;
      unfold tx_alive in Ha; congruence].
    enough (balance sid (set_recv RvNext w) - balance sid w ≤ 0)%Z by lia.
    rewrite (balance_recv sid w _ []); [|simpl; by rewrite app_nil_r|done].
    rewrite Heqr; simpl. unfold responses_of, requests_of; simpl. case_decide; lia.
Qed.

Lemma balance_step_http sid h e w w' :
  sess_step mfb cfg sc (LHttp h e) w = Some w' →
  (balance sid w' ≤ balance sid w)%Z ∧ (tx_alive w = true → balance sid w' = balance sid w).
Proof.
  intros HS. sess_split HS; balance_quiet.
  all: try solve [apply balance_same; eapply (balance_task_on _ _ _ _ h h0); simpl;
    [reflexivity|reflexivity|reflexivity|eassumption|reflexivity|reflexivity|reflexivity|done
    |match goal with H : ht_pc _ = _ |- _ => rewrite H end; done]].
  all: try solve [apply balance_same; eapply (balance_task_on _ _ _ [] h h0); simpl;
    [by rewrite app_nil_r|reflexivity|reflexivity|eassumption|reflexivity|reflexivity|reflexivity|done
    |match goal with H : ht_pc _ = _ |- _ => rewrite H end; done]].
  - (* the response is queued *)
    apply balance_same. eapply Zeq_minus. erewrite balance_task; [|simpl; reflexivity|reflexivity|reflexivity|eassumption|reflexivity|reflexivity].
    rewrite responses_of_reply, !b2n_owes; simpl. rewrite Heqh1. simpl. repeat case_decide; done || lia.
  - (* the response is lost *)
    split; [|intros Ha; match goal with H : mpsc_send _ _ = _ |- _ => apply mpsc_send_SendClosed in H end;
      unfold tx_alive in Ha; congruence].
    eapply Zle_minus. rewrite (balance_task sid w _ [] h h0 (HttpTask (ht_sid h0) (ht_req h0) HtDone) 0); [|simpl; by rewrite app_nil_r|done|done|eassumption|reflexivity|reflexivity].
    rewrite !b2n_owes; simpl. repeat case_decide; done || lia.
Qed.

Lemma balance_step sid l w w' :
  sess_step mfb cfg sc l w = Some w' →
  (balance sid w' ≤ balance sid w)%Z ∧ (tx_alive w = true → balance sid w' = balance sid w).
Proof.
  destruct l; try apply balance_step_recv; try apply balance_step_http; intros HS; sess_split HS; balance_quiet.
Qed.

Lemma session_http_inv w : reachable (sess_step mfb cfg sc) (sess_init sc) w → http_inv w.
Proof. apply reachable_invariant; [apply http_inv_init|apply http_inv_step]. Qed.

(** A response channel whose receiver is gone never comes back. *)
Lemma tx_alive_step l w w' :
  sess_step mfb cfg sc l w = Some w' → tx_alive w' = true → tx_alive w = true.
Proof.
  intros HS. unfold tx_alive. sess_inv HS; simpl; unfold remove_stream;
    repeat (case_match; simpl); simplify_eq; try done;
    try (match goal with H : mpsc_send _ _ = Sent _ |- _ => apply mpsc_send_Sent in H as (_ & ? & _) end; done);
    try (match goal with H : mpsc_recv _ = Some _ |- _ => apply mpsc_recv_Some in H as (_ & -> & _) end; done).
  by rewrite mpsc_drop_alive.
Qed.

Lemma session_balance sid w :
  reachable (sess_step mfb cfg sc) (sess_init sc) w →
  (balance sid w ≤ 0)%Z ∧ (tx_alive w = true → balance sid w = 0%Z).
Proof.
  apply (reachable_invariant _ _
    (λ w, (balance sid w ≤ 0)%Z ∧ (tx_alive w = true → balance sid w = 0%Z))).
  - intros s (tx & _ & _ & _ & Hr & Hh & Hl). unfold balance, owing. rewrite Hr, Hh, Hl.
    rewrite map_filter_empty, map_size_empty. done.
  - intros l s s' [Hle Heq] HS. destruct (balance_step sid _ _ _ HS) as [Hle' Heq'].
    split; [lia|]. intros Ha. pose proof (tx_alive_step _ _ _ HS Ha).
    rewrite Heq' by done. auto.
Qed.

(** The frames [recv_loop] received. *)
Lemma sess_step_recv l w w' :
  sess_step mfb cfg sc l w = Some w' →
  recv_frames (w_log w') = recv_frames (w_log w) ++ match l with LRecv (StreamFrame f _) => [f] | _ => [] end.
Proof.
  intros HS. sess_inv HS; unfold remove_stream; repeat case_match; simpl;
    autorewrite with obs_log; simpl; by rewrite ?app_nil_r.
Qed.


(** ** The properties *)

(** C6: only authorised calls reach the hub kernel.  Every call a session makes
    to the kernel comes from an application spoke, answers a request frame the
    spoke sent, for a path that is literally in the allowlist, and is that request
    under the session's authenticated spoke id.  The documents of the repository
    say otherwise in two points: they give a cluster spoke full access, while the
    code refuses all its requests ([cluster_spoke_never_calls]), and they list
    families of paths, while the code compares exactly. *)
Theorem kernel_calls_authorised w h c :
  reachable (sess_step mfb cfg sc) (sess_init sc) w → OForward h c ∈ w_log w →
  sc_kind sc = Application ∧
  ∃ sid req, ORecv (ClientFrame sid (Some (CHttpRequest req))) ∈ w_log w ∧
    req_path req ∈ allowed_paths cfg ∧ c = forward_call mfb cfg (sc_spoke_id sc) req.
Proof.
  intros Hr Hin. pose proof (session_http_inv w Hr) as Hw.
  destruct (hi_forward _ Hw h c Hin) as (t & Ht & Hp & ->).
  destruct (hi_task _ Hw h t Ht) as [Hk Hreq]. eauto 6.
Qed.

(** Hence a cluster spoke never reaches the kernel. *)
Theorem cluster_spoke_never_calls w h c :
  reachable (sess_step mfb cfg sc) (sess_init sc) w → sc_kind sc = Cluster → OForward h c ∉ w_log w.
Proof.
  intros Hr Hk Hin. pose proof (session_http_inv w Hr) as Hw.
  destruct (hi_forward _ Hw h c Hin) as (t & Ht & _).
  destruct (hi_task _ Hw h t Ht) as [Ha _]. congruence.
Qed.

(** C15: HTTP responses match requests one to one.  Under every stream id at most
    as many responses are queued as requests were received; while the spoke's
    response stream is alive every request received is either answered or still
    owned by a running task ([rejected_kind] answers included). *)
Theorem http_responses_match_requests sid w :
  reachable (sess_step mfb cfg sc) (sess_init sc) w →
  responses_of sid (w_log w) + owing sid w ≤ requests_of sid (w_log w) ∧
  (tx_alive w = true → responses_of sid (w_log w) + owing sid w = requests_of sid (w_log w)).
Proof.
  intros Hr. destruct (session_balance sid w Hr) as [Hle Heq]. unfold balance in *.
  split; [lia|]. intros Ha. specialize (Heq Ha). lia.
Qed.
End http.
