(* ===== verification/SessionReplies.v ===== *)
(** * tunnel-server: where HTTP responses come from

    Every HTTP response a session queues answers a request received under the same
    stream id, and is what [handle_http_request] or [recv_loop] makes of that very
    request: a refusal, or the outcome of the call to the kernel made for it. *)
From S2P Require Import Prelude RustStd Proto ServerConfig Channel ServerMetrics ServerHttp ServerSession SessionTrans SessionDelivery SessionStreams SessionHttp.

(** The response for the outcome of a call. *)
Definition kernel_response (res : kernel_result) : http_response :=
  match res with
  | KSendErr e => upstream_error_response e
  | KBodyErr e => upstream_body_error_response e
  | KAnswer status headers body => ok_response status headers body
  end.

Section replies.
Context {chan : Type → Type} `{Hmpsc : Mpsc chan} `{HI : HashIter}.
Context (mfb : bytes → option bytes) (cfg : server_config) (sc : spoke_config).
Implicit Types (w : sess_world chan).

(** What the session may answer to a request. *)
Inductive answer_to (l : list obs) (req : http_request) (r : http_response) : Prop :=
| an_kind : sc_kind sc = Cluster → r = rejected_kind_response → answer_to l req r
| an_path : sc_kind sc = Application → req_path req ∉ allowed_paths cfg →
    r = rejected_path_response (req_path req) → answer_to l req r
| an_kernel h res : sc_kind sc = Application → req_path req ∈ allowed_paths cfg →
    OForward h (forward_call mfb cfg (sc_spoke_id sc) req) ∈ l → OKernel h res ∈ l →
    r = kernel_response res → answer_to l req r.

Definition asked (sid : N) (req : http_request) (l : list obs) : Prop := ORecv (ClientFrame sid (Some (CHttpRequest req))) ∈ l.

Lemma answer_to_app l d req r : answer_to l req r → answer_to (l ++ d) req r.
Proof.
  intros [?|?|h res]; [by apply an_kind|by apply an_path|eapply an_kernel; try done; apply elem_of_app; by left].
Qed.

(** What a task has done for its request. *)
Definition task_ok (l : list obs) (h : nat) (t : http_task) : Prop :=
  match ht_pc t with
  | HtStart | HtDone => True
  | HtSend | HtBody _ _ => req_path (ht_req t) ∈ allowed_paths cfg ∧
      OForward h (forward_call mfb cfg (sc_spoke_id sc) (ht_req t)) ∈ l
  | HtReply r => answer_to l (ht_req t) r
  end.

Lemma task_ok_app l d h t : task_ok l h t → task_ok (l ++ d) h t.
Proof. unfold task_ok. destruct (ht_pc t); try done; [set_solver..|apply answer_to_app]. Qed.

Record replies_inv w : Prop := {
  rp_task h t : w_http w !! h = Some t → task_ok (w_log w) h t;
  rp_reject sid : w_recv w = RvReject sid → sc_kind sc = Cluster ∧ ∃ req, asked sid req (w_log w);
  rp_sent f r : OSent f ∈ w_log w → sf_kind f = Some (SHttpResponse r) →
    ∃ req, asked (sf_stream_id f) req (w_log w) ∧ answer_to (w_log w) req r }.

Lemma session_log_grows l w w' : sess_step mfb cfg sc l w = Some w' → ∃ d, w_log w' = w_log w ++ d.
Proof.
  intros HS. destruct (sess_step_http _ _ _ _ _ _ HS) as [d _ Hl _|h sid r d _ _ _ Hl _|h t pc d _ _ Hl _]; rewrite Hl; eauto.
Qed.

Lemma task_step l w w' h t' :
  http_inv mfb cfg sc w → replies_inv w → sess_step mfb cfg sc l w = Some w' →
  w_http w' !! h = Some t' → task_ok (w_log w') h t'.
Proof.
  intros Hh Hi HS. destruct (session_log_grows _ _ _ HS) as [d Hd].
  assert (∀ t, w_http w !! h = Some t → task_ok (w_log w') h t) as Hold.
  { intros t Ht. rewrite Hd. by apply task_ok_app, rp_task. }
  sess_inv HS; cbn [set_http w_http add_log set_session set_conn set_recv]; rewrite ?remove_stream_http;
    try exact (Hold t').
  all: rewrite lookup_insert; destruct (decide (_ = _)); [subst|exact (Hold t')]; intros [= <-]; unfold task_ok; simpl; try done.
  all: match goal with Ht : w_http _ !! _ = Some _ |- _ =>
      pose proof (rp_task _ Hi _ _ Ht) as Hok; pose proof (proj1 (hi_task _ _ _ _ Hh _ _ Ht)) as Hk;
      unfold task_ok in Hok; repeat match goal with H : ht_pc _ = _ |- _ => rewrite H in Hok end; simpl in Hok end.
  - rewrite (hi_id _ _ _ _ Hh). split; [done|]. set_solver.
  - by apply an_path.
  - done.
  - destruct Hok. eapply (an_kernel _ _ _ h (KSendErr _)); set_solver.
  - destruct Hok. eapply (an_kernel _ _ _ h (KAnswer _ _ _)); set_solver.
  - destruct Hok. eapply (an_kernel _ _ _ h (KBodyErr _)); set_solver.
Qed.

Lemma reject_step l w w' sid :
  replies_inv w → sess_step mfb cfg sc l w = Some w' → w_recv w' = RvReject sid →
  sc_kind sc = Cluster ∧ ∃ req, asked sid req (w_log w').
Proof.
  intros Hi HS Hr. destruct (session_log_grows _ _ _ HS) as [d Hd].
  assert (w_recv w = RvReject sid → sc_kind sc = Cluster ∧ ∃ req, asked sid req (w_log w')) as Hold.
  { intros Hw. destruct (rp_reject _ Hi _ Hw) as [Hk [req Ha]]. split; [done|]. exists req. rewrite Hd.
    unfold asked in *. set_solver. }
  revert Hr. sess_inv HS; cbn [set_http w_recv add_log set_session set_conn set_recv]; rewrite ?remove_stream_recv;
    cbn [w_recv add_log]; try exact Hold; try discriminate; try congruence.
  intros [= <-]. split; [done|]. exists r. unfold asked. simpl. destruct f as [s kd]; simplify_eq/=. set_solver.
Qed.

(** A frame a step queues: an HTTP response is the refusal [recv_loop] owes, or the
    reply of a task. *)
Lemma sess_step_sent l w w' :
  sess_step mfb cfg sc l w = Some w' →
  sent_frames (w_log w') = sent_frames (w_log w) ∨
  ∃ f, sent_frames (w_log w') = sent_frames (w_log w) ++ [f] ∧
    match sf_kind f with
    | Some (SHttpResponse r) =>
        (w_recv w = RvReject (sf_stream_id f) ∧ r = rejected_kind_response) ∨
        ∃ h t, w_http w !! h = Some t ∧ ht_sid t = sf_stream_id f ∧ ht_pc t = HtReply r
    | _ => True
    end.
Proof.
  intros HS. sess_inv HS; unfold remove_stream; repeat case_match; simpl;
    autorewrite with obs_log; simpl; rewrite ?app_nil_r; try (by left); right; eexists; (split; [done|]); simpl; try done.
  - by left.
  - right. by exists h, h0.
Qed.

Lemma elem_of_sent f (l : list obs) : OSent f ∈ l ↔ f ∈ sent_frames l.
Proof.
  unfold sent_frames. rewrite list_elem_of_omap. split; [by eexists|].
  intros ([] & Ho & Hf); simplify_eq; done.
Qed.

Lemma sent_step l w w' f r :
  http_inv mfb cfg sc w → replies_inv w → sess_step mfb cfg sc l w = Some w' →
  OSent f ∈ w_log w' → sf_kind f = Some (SHttpResponse r) →
  ∃ req, asked (sf_stream_id f) req (w_log w') ∧ answer_to (w_log w') req r.
Proof.
  intros Hh Hi HS Hf Hr. destruct (session_log_grows _ _ _ HS) as [d Hd].
  assert (∀ req, asked (sf_stream_id f) req (w_log w) → answer_to (w_log w) req r →
    ∃ req, asked (sf_stream_id f) req (w_log w') ∧ answer_to (w_log w') req r) as Hold.
  { intros req Ha Hans. exists req. rewrite Hd. split; [unfold asked; apply elem_of_app; by left|by apply answer_to_app]. }
  apply elem_of_sent in Hf. destruct (sess_step_sent _ _ _ HS) as [Hs|(g & Hs & Hg)]; rewrite Hs in Hf.
  - apply elem_of_sent in Hf. destruct (rp_sent _ Hi _ _ Hf Hr) as (req & ? & ?). by apply (Hold req).
  - apply elem_of_app in Hf as [Hf%elem_of_sent| ->%list_elem_of_singleton].
    + destruct (rp_sent _ Hi _ _ Hf Hr) as (req & ? & ?). by apply (Hold req).
    + rewrite Hr in Hg. destruct Hg as [[Hrv ->]|(h & t & Ht & Hsid & Hpc)].
      * destruct (rp_reject _ Hi _ Hrv) as [Hk [req Ha]]. apply (Hold req Ha). by apply an_kind.
      * pose proof (rp_task _ Hi _ _ Ht) as Hok. unfold task_ok in Hok. rewrite Hpc in Hok.
        destruct (hi_task _ _ _ _ Hh _ _ Ht) as [_ Ha]. rewrite Hsid in Ha. by apply (Hold (ht_req t)).
Qed.

Lemma session_replies_inv w : reachable (sess_step mfb cfg sc) (sess_init sc) w → replies_inv w.
Proof.
  apply reachable_invariant_strong.
  - intros s (tx & _ & _ & _ & Hr & Hh & Hl). split; rewrite ?Hh, ?Hr, ?Hl; [done|done|]. by intros ? ? []%elem_of_nil.
  - intros l s s' Hr Hi HS. pose proof (session_http_inv mfb cfg sc s Hr) as Hh. split.
    + intros h t. by apply (task_step l s).
    + intros sid. by apply (reject_step l s).
    + intros f r. by apply (sent_step l s).
Qed.

(** ** Every request received has its task, every task that ended its response *)
Lemma task_kept l w w' h t :
  sess_step mfb cfg sc l w = Some w' → w_http w !! h = Some t →
  ∃ t', w_http w' !! h = Some t' ∧ ht_sid t' = ht_sid t ∧ ht_req t' = ht_req t.
Proof.
  intros HS Ht. destruct (sess_step_http _ _ _ _ _ _ HS) as [d Hh _ _|h1 s r d Hn _ Hh _ _|h1 t1 pc d Ht1 Hh _ _];
    rewrite Hh; [by eauto|..]; rewrite lookup_insert; case_decide; simplify_eq; eauto.
Qed.

Lemma request_starts f h w w' sid req :
  sc_kind sc = Application → sess_step mfb cfg sc (LRecv (StreamFrame f h)) w = Some w' →
  f = ClientFrame sid (Some (CHttpRequest req)) → w_http w' !! h = Some (HttpTask sid req HtStart).
Proof.
  intros Hk HS ->. simpl in HS. unfold recv_step, recv_frame in HS. simpl in HS. rewrite Hk in HS.
  destruct (w_recv w); try done. destruct (w_http w !! h); simplify_eq/=. apply lookup_insert_eq.
Qed.

Lemma asked_has_task w sid req :
  reachable (sess_step mfb cfg sc) (sess_init sc) w → sc_kind sc = Application →
  ClientFrame sid (Some (CHttpRequest req)) ∈ recv_frames (w_log w) →
  ∃ h t, w_http w !! h = Some t ∧ ht_sid t = sid ∧ ht_req t = req.
Proof.
  intros Hr Hk. induction Hr as [w Hi|l w w' Hr IH HS].
  - destruct Hi as (? & _ & _ & _ & _ & _ & ->). by intros []%elem_of_nil.
  - rewrite (sess_step_recv _ _ _ _ _ _ HS). intros [Hin|Hin]%elem_of_app.
    + destruct (IH Hin) as (h & t & Ht & <- & <-). destruct (task_kept _ _ _ _ _ HS Ht) as (t' & ? & ? & ?). eauto.
    + destruct l as [| | | | | | | | | |[]|]; try (by apply elem_of_nil in Hin).
      apply list_elem_of_singleton in Hin. pose proof (request_starts _ _ _ _ _ _ Hk HS (eq_sym Hin)). eauto.
Qed.

Lemma task_ends l w w' h t' :
  sess_step mfb cfg sc l w = Some w' → w_http w' !! h = Some t' → ht_pc t' = HtDone →
  w_http w !! h = Some t' ∨
  ∃ t r, w_http w !! h = Some t ∧ ht_pc t = HtReply r ∧ ht_sid t' = ht_sid t ∧ ht_req t' = ht_req t ∧
    (tx_alive w = true → OSent (server_frame_http (ht_sid t) r) ∈ w_log w').
Proof.
  intros HS. sess_inv HS; cbn [w_http set_http set_conn set_accept set_session set_recv set_next_sid add_log];
    rewrite ?remove_stream_http; cbn [w_http set_http set_conn set_accept set_session set_recv set_next_sid add_log];
    intros Ht Hpc; try (by left); rewrite lookup_insert in Ht; case_decide; try (by left);
    injection Ht as <-; try discriminate Hpc; subst; right; do 2 eexists;
    (split; [eassumption|]); (split; [eassumption|]); (split; [done|]); (split; [done|]).
  - intros _. set_solver.
  - intros Ha. match goal with H : mpsc_send _ _ = SendClosed |- _ => apply mpsc_send_SendClosed in H end.
    unfold tx_alive in Ha. congruence.
Qed.

Lemma done_has_answer w h t :
  reachable (sess_step mfb cfg sc) (sess_init sc) w → tx_alive w = true →
  w_http w !! h = Some t → ht_pc t = HtDone →
  ∃ r, OSent (server_frame_http (ht_sid t) r) ∈ w_log w ∧ answer_to (w_log w) (ht_req t) r.
Proof.
  intros Hr. revert h t. induction Hr as [w Hi|l w w' Hr IH HS]; intros h t' Ha Ht' Hpc.
  - destruct Hi as (? & _ & _ & _ & _ & Hh & _). by rewrite Hh, lookup_empty in Ht'.
  - pose proof (tx_alive_step _ _ _ _ _ _ HS Ha) as Ha0. destruct (session_log_grows _ _ _ HS) as [d Hd].
    destruct (task_ends _ _ _ _ _ HS Ht' Hpc) as [Ht|(t & r & Ht & Hr' & -> & -> & Hs)].
    + destruct (IH h t' Ha0 Ht Hpc) as (r & ? & ?). exists r. rewrite Hd.
      split; [apply elem_of_app; by left|by apply answer_to_app].
    + exists r. split; [by apply Hs|]. rewrite Hd. apply answer_to_app.
      pose proof (rp_task _ (session_replies_inv w Hr) h t Ht) as Hok. unfold task_ok in Hok. by rewrite Hr' in Hok.
Qed.

(** C14: every HTTP response has a request behind it.  A response the session queues
    answers a request frame received under the same stream id: with the refusal of
    a cluster spoke, the refusal of a path outside the allowlist, or the outcome -
    the kernel's status, headers and body, or the error - of the call to the
    kernel made for this request.  The documents of the repository give a cluster
    spoke full access to the kernel; the code answers it 403 [rejected_kind]. *)
Theorem http_responses_answer_requests w f r :
  reachable (sess_step mfb cfg sc) (sess_init sc) w → OSent f ∈ w_log w → sf_kind f = Some (SHttpResponse r) →
  ∃ req, ORecv (ClientFrame (sf_stream_id f) (Some (CHttpRequest req))) ∈ w_log w ∧ answer_to (w_log w) req r.
Proof. intros Hr. by apply (rp_sent _ (session_replies_inv w Hr)). Qed.
End replies.
