(* ===== verification/SessionWitness.v ===== *)
(** * tunnel-server: a concrete session

    One run of the session machine with the reference channels: a TCP connection
    is accepted, opened, exchanges bytes in both directions and is half-closed;
    an HTTP request is forwarded; the session is closed while its listener waits.
    The witnesses apply the session theorems to the states of this run. *)
From S2P Require Import Prelude RustStd SockAddr Proto ServerConfig Channel ServerMetrics ServerHttp ServerSession SessionTrans SessionDelivery SessionStreams SessionInbound SessionClose SessionHttp SessionReplies.

Definition demo_spoke : spoke_config :=
  SpokeConfig (lit "app-demo") Application [SpokePortBinding 8000 (lit "svc:80")] (lit "secret").

Definition demo_config : server_config :=
  ServerConfig (SockV4 [0; 0; 0; 0]%N 8080) (SockV4 [0; 0; 0; 0]%N 9090)
    {[lit "app-demo" := demo_spoke]} (lit "http://kernel") {[lit "/core/x"]}.

Definition demo_method (m : bytes) : option bytes := Some m.

Definition demo_request : http_request :=
  HttpRequest (lit "POST") (lit "/core/x") {[lit "X-OpenSpoke-Spoke-Id" := lit "other"]} (lit "body").

Definition demo_init : sess_world queue :=
  SessWorld (new_session (lit "app-demo") (mpsc_channel 256)) 0 ∅ ∅ RvNext ∅ [].

Definition demo_step : sess_label → sess_world queue → option (sess_world queue) :=
  sess_step demo_method demo_config demo_spoke.
Definition demo_step_nowrap : sess_label → sess_world queue → option (sess_world queue) :=
  sess_step_nowrap demo_method demo_config demo_spoke.

(** Connection 0 is open, has sent "hi" and received "yo"; request 0 is running. *)
Definition demo_open_run : list sess_label :=
  [LListen 0 (lit "svc:80"); LAccept 0 Tick; LAccept 0 (Accepted 0); LAccept 0 Tick; LAccept 0 Tick;
   LUp 0 (ReadOk (lit "hi")); LUp 0 Tick;
   LRecv (StreamFrame (ClientFrame 1 (Some (CData (lit "yo")))) 0); LRecv Tick;
   LDn 0 Tick; LDn 0 WriteOk;
   LRecv (StreamFrame (ClientFrame (2 ^ 63) (Some (CHttpRequest demo_request))) 0); LHttp 0 Tick].
(** Its socket reaches EOF. *)
Definition demo_half_run : list sess_label := [LUp 0 (ReadOk []); LUp 0 Tick; LUp 0 Tick].
(** The listener goes back to accept(), the session is closed. *)
Definition demo_close_run : list sess_label := [LAccept 0 Tick; LCloseFlag].

Definition run_from (ls : list sess_label) (w : sess_world queue) : sess_world queue :=
  default w (exec demo_step_nowrap ls w).

Definition demo_open : sess_world queue := run_from demo_open_run demo_init.
Definition demo_half : sess_world queue := run_from demo_half_run demo_open.
Definition demo_closed : sess_world queue := run_from demo_close_run demo_open.

Definition demo_conn (w : sess_world queue) : conn queue :=
  default (Conn 0 (mpsc_channel 0) UpOff DnOff) (w_conns w !! 0).

Lemma demo_reach_init : reachable demo_step_nowrap (sess_init demo_spoke) demo_init.
Proof. constructor. exists (mpsc_channel 256). done. Qed.

Lemma run_from_exec ls w :
  (if exec demo_step_nowrap ls w is Some _ then true else false) = true →
  exec demo_step_nowrap ls w = Some (run_from ls w).
Proof. unfold run_from. by destruct (exec demo_step_nowrap ls w). Qed.

Lemma run_from_reach ls w :
  (if exec demo_step_nowrap ls w is Some _ then true else false) = true →
  reachable demo_step_nowrap (sess_init demo_spoke) w →
  reachable demo_step_nowrap (sess_init demo_spoke) (run_from ls w).
Proof. intros He%run_from_exec Hr. by eapply reachable_exec. Qed.

Lemma demo_open_reach : reachable demo_step_nowrap (sess_init demo_spoke) demo_open.
Proof. apply run_from_reach; [by vm_compute|apply demo_reach_init]. Qed.
Lemma demo_half_reach : reachable demo_step_nowrap (sess_init demo_spoke) demo_half.
Proof. apply run_from_reach; [by vm_compute|apply demo_open_reach]. Qed.
Lemma demo_closed_reach : reachable demo_step_nowrap (sess_init demo_spoke) demo_closed.
Proof. apply run_from_reach; [by vm_compute|apply demo_open_reach]. Qed.

Lemma demo_open_conn : w_conns demo_open !! 0 = Some (demo_conn demo_open).
Proof. vm_compute. reflexivity. Qed.

(** ** Witnesses *)
Lemma outbound_frames_shape_witness :
  stream_frames (cn_sid (demo_conn demo_open)) (w_log demo_open) =
    [SOpen (OpenStream (lit "tcp") (lit "svc:80")); SData (lit "hi")] ∧
  data_payload (stream_frames (cn_sid (demo_conn demo_open)) (w_log demo_open)) =
    tcp_read 0 (w_log demo_open).
Proof.
  split; [by vm_compute|].
  destruct (outbound_frames_shape demo_method demo_config demo_spoke demo_open 0
    (demo_conn demo_open) demo_open_reach demo_open_conn) as (_ & Hrd & _).
  apply Hrd. by vm_compute.
Defined.

Lemma stream_ids_distinct_witness :
  cn_sid (demo_conn demo_open) = 1%N ∧ (0 < cn_sid (demo_conn demo_open) < 2 ^ 63)%N.
Proof.
  split; [by vm_compute|].
  apply (proj1 (stream_ids_distinct demo_method demo_config demo_spoke demo_open
    demo_open_reach ltac:(by vm_compute)) 0 _ demo_open_conn).
Defined.

Lemma inbound_bytes_contiguous_witness :
  recv_data 1 (w_log demo_open) = lit "yo" ∧
  tcp_written 0 (w_log demo_open) = queued_data 0 (w_log demo_open).
Proof.
  split; [by vm_compute|].
  apply (proj2 (proj2 (inbound_bytes_contiguous demo_method demo_config demo_spoke demo_open 0
    (demo_conn demo_open) demo_open_reach demo_open_conn))); by vm_compute.
Defined.

Lemma streams_gauge_accounting_witness :
  gauge_leak demo_closed = 0%Z ∧ gauge_leak (run_from [LCloseClear] demo_closed) = 1%Z.
Proof.
  split; [by vm_compute|].
  rewrite (streams_gauge_accounting demo_method demo_config demo_spoke LCloseClear demo_closed _
    demo_closed_reach); [by vm_compute|].
  by vm_compute.
Defined.

Definition late_data : list sess_label := [LRecv (StreamFrame (ClientFrame 1 (Some (CData (lit "late")))) 1)].

Lemma half_close_is_full_close_witness :
  pump_ended 0 demo_half ∧ rv_hold 0 demo_half = [] ∧
  queued_data 0 (w_log (run_from late_data demo_half)) = lit "yo".
Proof.
  assert (pump_ended 0 demo_half) as Hh.
  { exists (demo_conn demo_half). split_and!; by vm_compute. }
  assert (rv_hold 0 demo_half = []) as Hn by (by vm_compute).
  split; [done|]. split; [done|].
  destruct (half_close_is_full_close demo_method demo_config demo_spoke 0 late_data demo_half
    (run_from late_data demo_half) demo_half_reach Hh ltac:(apply run_from_exec; by vm_compute)) as (_ & _ & Hq).
  rewrite (Hq Hn). by vm_compute.
Defined.

Lemma closed_session_accepts_at_most_once_witness :
  accepts 0 (w_log demo_closed) = [0] ∧
  length (accepts 0 (w_log (run_from [LAccept 0 (Accepted 1)] demo_closed))) ≤ 1 + 1.
Proof.
  split; [by vm_compute|].
  apply (closed_session_accepts_at_most_once demo_method demo_config demo_spoke 0
    [LAccept 0 (Accepted 1)] demo_closed); by vm_compute.
Defined.

Lemma blocked_listener_survives_close_witness :
  ss_closed (w_session demo_closed) = true ∧
  w_accept (run_from [LCloseClear; LRecv StreamEnd] demo_closed) !! 0 = Some (Acceptor (lit "svc:80") AcAccept).
Proof.
  split; [by vm_compute|].
  apply (blocked_listener_survives_close demo_method demo_config demo_spoke 0
    (Acceptor (lit "svc:80") AcAccept) [LCloseClear; LRecv StreamEnd] demo_closed); by vm_compute.
Defined.

Lemma kernel_calls_authorised_witness :
  sc_kind demo_spoke = Application ∧
  ∃ sid req, ORecv (ClientFrame sid (Some (CHttpRequest req))) ∈ w_log demo_open ∧
    req_path req ∈ allowed_paths demo_config ∧
    forward_call demo_method demo_config (lit "app-demo") demo_request
      = forward_call demo_method demo_config (lit "app-demo") req.
Proof.
  apply (kernel_calls_authorised demo_method demo_config demo_spoke demo_open 0
    (forward_call demo_method demo_config (lit "app-demo") demo_request)).
  - apply reachable_nowrap. apply demo_open_reach.
  - apply (bool_decide_unpack _). by vm_compute.
Defined.

Lemma http_responses_match_requests_witness :
  owing (2 ^ 63) demo_open = 1 ∧
  responses_of (2 ^ 63) (w_log demo_open) + owing (2 ^ 63) demo_open
    = requests_of (2 ^ 63) (w_log demo_open).
Proof.
  split; [by vm_compute|].
  apply (http_responses_match_requests demo_method demo_config demo_spoke (2 ^ 63) demo_open);
    [apply reachable_nowrap; apply demo_open_reach|by vm_compute].
Defined.

Lemma forward_headers_no_spoof_witness :
  forward_headers (lit "app-demo") (req_headers demo_request) = [(spoke_id_header, lit "app-demo")] ∧
  filter (λ kv, starts_with reserved_prefix (to_ascii_lowercase kv.1) = true)
    (forward_headers (lit "app-demo") (req_headers demo_request)) = [(spoke_id_header, lit "app-demo")].
Proof.
  split; [by vm_compute|].
  apply (forward_headers_no_spoof (lit "app-demo") (req_headers demo_request)).
Defined.

Lemma forward_call_faithful_witness :
  kc_url (forward_call demo_method demo_config (lit "app-demo") demo_request) = lit "http://kernel/core/x".
Proof.
  rewrite (proj1 (forward_call_faithful demo_method demo_config (lit "app-demo") demo_request)).
  by vm_compute.
Defined.

Lemma http_responses_answer_requests_witness :
  let w := run_from [LHttp 0 (HttpSent 200 []); LHttp 0 (HttpBodyOk (lit "hello")); LHttp 0 Tick] demo_open in
  ∃ f r, OSent f ∈ w_log w ∧ sf_kind f = Some (SHttpResponse r) ∧ resp_body r = lit "hello" ∧
    ∃ req, answer_to demo_method demo_config demo_spoke (w_log w) req r.
Proof.
  cbv zeta. set (w := run_from [LHttp 0 (HttpSent 200 []); LHttp 0 (HttpBodyOk (lit "hello")); LHttp 0 Tick] demo_open).
  assert (reachable demo_step (sess_init demo_spoke) w) as Hr.
  { apply reachable_nowrap, run_from_reach; [by vm_compute|apply demo_open_reach]. }
  set (r := ok_response 200 ∅ (lit "hello")). set (f := server_frame_http (2 ^ 63) r).
  assert (OSent f ∈ w_log w) as Hf by (apply (bool_decide_unpack _); vm_compute; reflexivity).
  exists f, r. split; [exact Hf|]. split; [reflexivity|]. split; [reflexivity|].
  destruct (http_responses_answer_requests demo_method demo_config demo_spoke w f r Hr Hf eq_refl) as (req & _ & Ha).
  exists req. exact Ha.
Defined.
