(* ===== verification/ServerHub.v ===== *)
(** * tunnel-server: connections, authentication and the session registry

    [TunnelSvc::connect], [handle_connection] and [cleanup_session]: every gRPC
    connection runs one [handle_connection] task, the tasks share the registry
    of sessions (a mutex-protected map from spoke id to session), the stream-id
    counter and the metrics.  A session is named by the connection that created
    it; its tasks run as [sess_step] steps.  A step of [handle_connection] goes
    from one await point to the next and holds the registry lock at most once. *)
From S2P Require Import Prelude RustStd SockAddr Proto ServerConfig Channel ServerMetrics ServerHttp ServerSession.

(** ** connect: the challenge *)
Definition challenge_frame (nonce : bytes) (issued_at : Z) : server_frame :=
  ServerFrame 0 (Some (SChallenge (HandshakeChallenge nonce issued_at))).

(** ** The handshake verdict: steps 1 and 2 of [handle_connection] *)
Definition verify_first (cfg : server_config) (first : option client_frame)
    : result (handshake_response * spoke_config) bytes :=
  match first with
  | None => Err (lit "recv_first")
  | Some f =>
      match cf_kind f with
      | Some (CHandshake hs) =>
          match spokes cfg !! hs_spoke_id hs with
          | None => Err (lit "unknown_spoke")
          | Some sc =>
              if bool_decide (hs_signature hs = sc_token sc) then Ok (hs, sc)
              else Err (lit "bad_token")
          end
      | _ => Err (lit "no_handshake")
      end
  end.

(** ** handle_connection as a program counter *)
Inductive hub_pc :=
| HcFirst                        (* client_stream.next() *)
| HcLock                         (* sessions.lock(): look for an older session *)
| HcOldFlag (old : nat)          (* old.close(): closed.store(true) *)
| HcOldClear (old : nat)         (*              streams.clear() *)
| HcInsert                       (* sessions.lock() again: insert *)
| HcBind (bs : list spoke_port_binding)  (* TcpListener::bind for the head *)
| HcRecv                         (* recv_loop *)
| HcFlag (aborts : bool)         (* session.close(); whether listeners are aborted afterwards *)
| HcClear (aborts : bool)
| HcCleanup (aborts : bool)      (* cleanup_session *)
| HcDone.

Record hub_conn (chan : Type → Type) := HubConn {
  hc_pc : hub_pc;
  hc_tx : chan server_frame;             (* server_tx until the session owns it *)
  hc_first : option client_frame;        (* let first *)
  hc_peer : option (handshake_response * spoke_config);  (* let hs, let sc *)
  hc_ports : list N;                     (* ports bound so far, in order: listener a is the a-th *)
  hc_aborting : bool }.                  (* listener_handles have been aborted *)
Arguments HubConn {chan} _ _ _ _ _ _.
Arguments hc_pc {chan} _.
Arguments hc_tx {chan} _.
Arguments hc_first {chan} _.
Arguments hc_peer {chan} _.
Arguments hc_ports {chan} _.
Arguments hc_aborting {chan} _.

Record hub (chan : Type → Type) := Hub {
  h_registry : gmap bytes nat;           (* sessions: spoke id -> connection that created it *)
  h_conns : gmap nat (hub_conn chan);
  h_sessions : gmap nat (sess_world chan);
  h_next_sid : N;
  h_log : list obs }.                    (* the process-wide metrics calls *)
Arguments Hub {chan} _ _ _ _ _.
Arguments h_registry {chan} _.
Arguments h_conns {chan} _.
Arguments h_sessions {chan} _.
Arguments h_next_sid {chan} _.
Arguments h_log {chan} _.

Inductive hub_event :=
| HTick
| HFirst (f : client_frame)      (* next() -> Some(Ok(f)) *)
| HFirstFail                     (* next() -> Some(Err(_)) or None *)
| HBound                         (* bind -> Ok *)
| HBindErr.                      (* bind -> Err *)

Inductive hub_label :=
| HConnect (i : nat) (nonce : bytes) (issued_at : Z)   (* a connect call *)
| HTxTake (i : nat)              (* tonic polls / drops the response stream *)
| HTxDrop (i : nat)              (* before a session exists *)
| HConn (i : nat) (e : hub_event)
| HSess (i : nat) (l : sess_label).

Section server_hub.
Context {chan : Type → Type} `{!MpscOps chan}.
Context `{!HashIter}.
Context (method_from_bytes : bytes → option bytes).
Context (cfg : server_config).
Implicit Types (h : hub chan) (c : hub_conn chan).

Definition set_hc_pc (pc : hub_pc) c : hub_conn chan :=
  HubConn pc (hc_tx c) (hc_first c) (hc_peer c) (hc_ports c) (hc_aborting c).
Definition set_hc_tx (q : chan server_frame) c : hub_conn chan :=
  HubConn (hc_pc c) q (hc_first c) (hc_peer c) (hc_ports c) (hc_aborting c).
Definition set_hc_peer (f : option client_frame) (p : option (handshake_response * spoke_config)) c
    : hub_conn chan :=
  HubConn (hc_pc c) (hc_tx c) f p (hc_ports c) (hc_aborting c).
Definition set_hc_ports (ps : list N) c : hub_conn chan :=
  HubConn (hc_pc c) (hc_tx c) (hc_first c) (hc_peer c) ps (hc_aborting c).
Definition set_hc_aborting (b : bool) c : hub_conn chan :=
  HubConn (hc_pc c) (hc_tx c) (hc_first c) (hc_peer c) (hc_ports c) b.

Definition put_conn (i : nat) c h : hub chan :=
  Hub (h_registry h) (<[i := c]> (h_conns h)) (h_sessions h) (h_next_sid h) (h_log h).
Definition put_registry (m : gmap bytes nat) h : hub chan :=
  Hub m (h_conns h) (h_sessions h) (h_next_sid h) (h_log h).
Definition hub_log (l : list obs) h : hub chan :=
  Hub (h_registry h) (h_conns h) (h_sessions h) (h_next_sid h) (h_log h ++ l).

(** The stream-id counter is shared: every session sees its new value. *)
Definition put_session (i : nat) (w : sess_world chan) h : hub chan :=
  Hub (h_registry h) (h_conns h) (set_next_sid (w_next_sid w) <$> <[i := w]> (h_sessions h))
    (w_next_sid w) (h_log h).

(** [connect]: the response channel with the challenge in it, or the error after
    counting it; the spawned task starts at [HcFirst]. *)
Definition connect (i : nat) (nonce : bytes) (issued_at : Z) h : option (hub chan) :=
  match h_conns h !! i with
  | Some _ => None
  | None =>
      match mpsc_send (challenge_frame nonce issued_at) (mpsc_channel 256) with
      | Sent q => Some (put_conn i (HubConn HcFirst q None None [] false) h)
      | SendFull => None
      | SendClosed => Some (hub_log [inc (MHandshakeFail (lit "send_challenge"))] h)
      end
  end.

(** The session [handle_connection] builds once the token is verified. *)
Definition session_of (hs : handshake_response) c h : sess_world chan :=
  SessWorld (new_session (hs_spoke_id hs) (hc_tx c)) (h_next_sid h) ∅ ∅ RvNext ∅ [].

(** [cleanup_session] *)
Definition cleanup_session (spoke_id : bytes) h : hub chan :=
  match h_registry h !! spoke_id with
  | Some cur =>
      match h_sessions h !! cur with
      | Some w =>
          if ss_closed (w_session w)
          then hub_log [dec MConnected] (put_registry (delete spoke_id (h_registry h)) h)
          else h
      | None => h
      end
  | None => h
  end.

(** A step of the session of connection [i] by one of its tasks. *)
Definition hub_sess_step (i : nat) (sc : spoke_config) (l : sess_label) h : option (hub chan) :=
  match h_sessions h !! i with
  | Some w =>
      match sess_step method_from_bytes cfg sc l w with
      | Some w' => Some (put_session i w' h)
      | None => None
      end
  | None => None
  end.

(** Which steps a session's own tasks may take, [recv_loop] being called by
    [handle_connection] and aborts only after it asked for them. *)
Definition task_label c (l : sess_label) : bool :=
  match l with
  | LTxTake | LTxDrop | LAccept _ _ | LUp _ _ | LDn _ _ | LHttp _ _ => true
  | LRecv _ => match hc_pc c with HcRecv => true | _ => false end
  | LAbort _ => hc_aborting c
  | LCloseFlag | LCloseClear | LForeignSid | LListen _ _ => false
  end.

(** The registration of the session, counted. *)
Definition register (i : nat) (spoke_id : bytes) h : hub chan :=
  hub_log [inc MConnected] (put_registry (<[spoke_id := i]> (h_registry h)) h).

Definition recv_finished (i : nat) h : bool :=
  match h_sessions h !! i with
  | Some w => match w_recv w with RvDone => true | _ => false end
  | None => false
  end.

(** [handle_connection], one await point to the next. *)
Definition conn_step (i : nat) c (e : hub_event) h : option (hub chan) :=
  let goto pc := put_conn i (set_hc_pc pc c) in
  match hc_pc c with
  | HcFirst =>
      let accept first :=
        match verify_first cfg first with
        | Err reason =>
            Some (hub_log [inc (MHandshakeFail reason)]
                    (put_conn i (set_hc_pc HcDone (set_hc_peer first None c)) h))
        | Ok (hs, sc) =>
            Some (put_conn i (set_hc_pc HcLock (set_hc_peer first (Some (hs, sc)) c))
                    (put_session i (session_of hs c h) h))
        end in
      match e with
      | HFirst f => accept (Some f)
      | HFirstFail => accept None
      | _ => None
      end
  | pc =>
      match hc_peer c with
      | None => None
      | Some (hs, sc) =>
          let id := hs_spoke_id hs in
          match pc, e with
          | HcLock, HTick =>
              match h_registry h !! id with
              | Some old => Some (goto (HcOldFlag old) h)
              | None => Some (goto (HcBind (sc_ports sc)) (register i id h))
              end
          | HcOldFlag old, HTick => goto (HcOldClear old) <$> hub_sess_step old sc LCloseFlag h
          | HcOldClear old, HTick => goto HcInsert <$> hub_sess_step old sc LCloseClear h
          | HcInsert, HTick => Some (goto (HcBind (sc_ports sc)) (register i id h))
          | HcBind [], HTick => Some (goto HcRecv h)
          | HcBind (b :: bs), _ =>
              match socket_addr_from_str (lit "0.0.0.0:" ++ show_N (spb_port b)), e with
              | None, HTick => Some (goto HcDone h)
              | Some _, HBound =>
                  put_conn i (set_hc_pc (HcBind bs) (set_hc_ports (hc_ports c ++ [spb_port b]) c))
                  <$> hub_sess_step i sc (LListen (length (hc_ports c)) (spb_target b)) h
              | Some _, HBindErr => Some (goto (HcFlag false) h)
              | _, _ => None
              end
          | HcRecv, HTick => if recv_finished i h then Some (goto (HcFlag true) h) else None
          | HcFlag aborts, HTick => goto (HcClear aborts) <$> hub_sess_step i sc LCloseFlag h
          | HcClear aborts, HTick => goto (HcCleanup aborts) <$> hub_sess_step i sc LCloseClear h
          | HcCleanup aborts, HTick =>
              Some (put_conn i (set_hc_aborting aborts (set_hc_pc HcDone c)) (cleanup_session id h))
          | _, _ => None
          end
      end
  end.

Definition hub_step (l : hub_label) h : option (hub chan) :=
  match l with
  | HConnect i nonce issued_at => connect i nonce issued_at h
  | HTxTake i =>
      match h_conns h !! i with
      | Some c =>
          match hc_pc c, mpsc_recv (hc_tx c) with
          | HcFirst, Some (_, q) => Some (put_conn i (set_hc_tx q c) h)
          | _, _ => None
          end
      | None => None
      end
  | HTxDrop i =>
      match h_conns h !! i with
      | Some c =>
          match hc_pc c with
          | HcFirst => Some (put_conn i (set_hc_tx (mpsc_drop_rx (hc_tx c)) c) h)
          | _ => None
          end
      | None => None
      end
  | HConn i e => match h_conns h !! i with Some c => conn_step i c e h | None => None end
  | HSess i sl =>
      match h_conns h !! i with
      | Some c =>
          match hc_peer c with
          | Some (_, sc) => if task_label c sl then hub_sess_step i sc sl h else None
          | None => None
          end
      | None => None
      end
  end.

Definition hub_empty : hub chan := Hub ∅ ∅ ∅ 0 [].
Definition hub_init h : Prop := h = hub_empty.

(** Runs in which the stream-id counter has not wrapped. *)
Definition hub_step_nowrap (l : hub_label) h : option (hub chan) :=
  if (h_next_sid h + 1 <? u64_modulus)%N then hub_step l h else None.

End server_hub.

Ltac hub_inv H :=
  match type of H with hub_step _ _ ?l _ = _ => destruct l end;
  unfold hub_step in H; cbv beta iota in H;
  unfold connect, conn_step, hub_sess_step in H;
  repeat first
    [ discriminate H
    | match type of H with
      | context [match ?x with _ => _ end] => destruct x eqn:?
      | context [fmap _ (match ?x with _ => _ end)] => destruct x eqn:?
      end
    | progress (cbn [fmap option_fmap option_map] in H) ];
  injection H as <-.
