(* ===== verification/HubSessions.v ===== *)
(** * tunnel-server: the sessions inside the hub

    Every hub step changes at most one session, by one session step, and the
    others only through the shared stream-id counter; hence each session of a
    reachable hub is a reachable session, and what is proved of one session
    holds of every session of the hub. *)
From S2P Require Import Prelude RustStd SockAddr Proto ServerConfig Channel ServerMetrics ServerHttp ServerSession SessionTrans SessionDelivery SessionStreams ServerHub.

Section hub_sessions.
Context {chan : Type → Type} `{Hmpsc : Mpsc chan} `{HI : HashIter}.
Context (mfb : bytes → option bytes) (cfg : server_config).
Implicit Types (h : hub chan) (c : hub_conn chan) (w : sess_world chan).

(** The session steps [handle_connection] takes on behalf of a session. *)
Definition admin_label (sl : sess_label) : bool :=
  match sl with LCloseFlag | LCloseClear | LListen _ _ => true | _ => false end.

(** What a step does to the sessions and to the shared counter. *)
Inductive sessions_step (l : hub_label) h h' : Prop :=
| ss_none : h_sessions h' = h_sessions h → h_next_sid h' = h_next_sid h → sessions_step l h h'
| ss_new i c c' hs sc :
    h_conns h !! i = Some c → hc_pc c = HcFirst →
    h_conns h' !! i = Some c' → hc_pc c' = HcLock → hc_peer c' = Some (hs, sc) →
    verify_first cfg (hc_first c') = Ok (hs, sc) →
    h_sessions h' = set_next_sid (h_next_sid h) <$> <[i := session_of hs c h]> (h_sessions h) →
    h_next_sid h' = h_next_sid h → sessions_step l h h'
| ss_step i sl w w' :
    h_sessions h !! i = Some w →
    (∀ c hs sc, h_conns h !! i = Some c → hc_peer c = Some (hs, sc) →
       sess_step mfb cfg sc sl w = Some w') →
    l = HSess i sl ∨ admin_label sl = true →
    h_sessions h' = set_next_sid (w_next_sid w') <$> <[i := w']> (h_sessions h) →
    h_next_sid h' = w_next_sid w' → sessions_step l h h'.

Lemma hub_step_sessions l h h' : hub_step mfb cfg l h = Some h' → sessions_step l h h'.
Proof.
  intros HS. hub_inv HS; unfold cleanup_session; repeat case_match; try (by apply ss_none).
  1: by eapply ss_new; simpl; [eassumption|done|apply lookup_insert_eq|..].
  all: match goal with Hst : sess_step _ _ _ ?sl ?w = Some ?w' |- _ =>
         eapply (ss_step _ _ _ _ sl w w'); simpl;
           [eassumption| |first [by left|by right]|reflexivity|reflexivity] end.
  all: intros c' hs' sc' Hc' Hp'; first [eassumption|simplify_eq; eassumption].
Qed.

(** ** Connections and their sessions *)
Definition pre_session (pc : hub_pc) : bool := match pc with HcFirst => true | _ => false end.

Record sessions_inv h : Prop := {
  hv_next i w : h_sessions h !! i = Some w → w_next_sid w = h_next_sid h;
  hv_sess i w : h_sessions h !! i = Some w →
    ∃ c hs sc, h_conns h !! i = Some c ∧ hc_peer c = Some (hs, sc) ∧ hc_pc c ≠ HcFirst ∧
      reachable (sess_step_nowrap mfb cfg sc) (sess_init sc) w;
  hv_peer i c hs sc : h_conns h !! i = Some c → hc_peer c = Some (hs, sc) →
    verify_first cfg (hc_first c) = Ok (hs, sc) ∧ is_Some (h_sessions h !! i);
  hv_first i c : h_conns h !! i = Some c → hc_pc c = HcFirst → hc_peer c = None }.

(** How a step changes one connection's local variables. *)
Inductive conn_step_peer h h' i : Prop :=
| cp_same : h_conns h' !! i = h_conns h !! i → conn_step_peer h h' i
| cp_new c : h_conns h !! i = None → h_conns h' !! i = Some c → hc_pc c = HcFirst →
    hc_peer c = None → hc_first c = None → h_sessions h' = h_sessions h → conn_step_peer h h' i
| cp_keep c c' : h_conns h !! i = Some c → h_conns h' !! i = Some c' →
    hc_peer c' = hc_peer c → hc_first c' = hc_first c →
    (hc_pc c' = HcFirst ↔ hc_pc c = HcFirst) → conn_step_peer h h' i
| cp_reject c c' : h_conns h !! i = Some c → h_conns h' !! i = Some c' → hc_pc c = HcFirst →
    hc_peer c' = None → hc_pc c' = HcDone → conn_step_peer h h' i
| cp_accept c c' hs sc : h_conns h !! i = Some c → h_conns h' !! i = Some c' → hc_pc c = HcFirst →
    hc_pc c' = HcLock → hc_peer c' = Some (hs, sc) → verify_first cfg (hc_first c') = Ok (hs, sc) →
    h_sessions h' = set_next_sid (h_next_sid h) <$> <[i := session_of hs c h]> (h_sessions h) →
    conn_step_peer h h' i.

Lemma hub_step_peer l h h' i : hub_step mfb cfg l h = Some h' → conn_step_peer h h' i.
Proof.
  intros HS. hub_inv HS; unfold cleanup_session; repeat case_match.
  all: match goal with |- context [put_conn ?j _ _] =>
         destruct (decide (j = i)) as [->|Hne];
           [|apply cp_same; simpl; by rewrite lookup_insert_ne]
       | _ => try (by apply cp_same) end.
  all: try (by eapply cp_new; simpl; [eassumption|by rewrite lookup_insert_eq|..]).
  all: try (by eapply cp_accept; simpl; [eassumption|by rewrite lookup_insert_eq|..]).
  all: try (by eapply cp_reject; simpl; [eassumption|by rewrite lookup_insert_eq|..]).
  all: try (by eapply cp_keep; simpl; [eassumption|by rewrite lookup_insert_eq|..]; simpl; try done;
              split; congruence).
Qed.

(** The counter of a session follows the shared one. *)
Lemma next_sid_step sl sc w w' :
  own_inv w → sess_step mfb cfg sc sl w = Some w' →
  w_next_sid w' = w_next_sid w ∨ w_next_sid w' = wrap_u64 (w_next_sid w + 1).
Proof.
  intros Ho HS. destruct (sess_step_conns _ _ _ _ _ _ Ho HS) as (d & _ & [(_ & _ & ?)|(k & c & _ & Ht)]);
    [done|]. inversion Ht; auto.
Qed.

Lemma foreign_step sc w :
  sess_step mfb cfg sc LForeignSid w = Some (set_next_sid (wrap_u64 (w_next_sid w + 1)) w).
Proof. done. Qed.

Lemma set_next_sid_id w : set_next_sid (w_next_sid w) w = w.
Proof. by destruct w. Qed.

Lemma nowrap_of l sc w w' :
  (w_next_sid w + 1 < u64_modulus)%N → sess_step mfb cfg sc l w = Some w' →
  sess_step_nowrap mfb cfg sc l w = Some w'.
Proof. intros Hn HS. unfold sess_step_nowrap. by apply N.ltb_lt in Hn as ->. Qed.

(** Each session of the new state, as a step of a session of the old one. *)
Lemma hub_session_step l h h' i w' :
  sessions_inv h → hub_step mfb cfg l h = Some h' → h_sessions h' !! i = Some w' →
  (∃ w, h_sessions h !! i = Some w ∧
     (w' = w ∨ ∃ sl, (l = HSess i sl ∨ admin_label sl = true ∨ sl = LForeignSid) ∧
        ∀ c hs sc, h_conns h !! i = Some c → hc_peer c = Some (hs, sc) →
          sess_step mfb cfg sc sl w = Some w')) ∨
  (∃ c c' hs sc, h_sessions h !! i = None ∧ h_conns h !! i = Some c ∧ hc_pc c = HcFirst ∧
     h_conns h' !! i = Some c' ∧ hc_pc c' = HcLock ∧ hc_peer c' = Some (hs, sc) ∧
     verify_first cfg (hc_first c') = Ok (hs, sc) ∧ w' = session_of hs c h).
Proof.
  intros Hw HS Hi'. destruct (hub_step_sessions _ _ _ HS)
    as [Hs _|j c c' hs sc Hc Hpc Hc' Hpc' Hp' Hv Hs _|j sl w0 w1 Hj Hst Hl Hs _]; rewrite Hs in Hi'.
  - left. eauto.
  - rewrite lookup_fmap, lookup_insert in Hi'. case_decide; simplify_eq/=.
    + right. exists c, c', hs, sc. split_and!; try done.
      destruct (h_sessions h !! i) as [w|] eqn:Hsi; [|done].
      destruct (hv_sess _ Hw _ _ Hsi) as (c0 & ? & ? & Hc0 & _ & Hne & _). simplify_eq.
    + destruct (h_sessions h !! i) as [w|] eqn:Hi; simplify_eq/=. left. exists w. split; [done|]. left.
      rewrite <-(hv_next _ Hw _ _ Hi). apply set_next_sid_id.
  - rewrite lookup_fmap, lookup_insert in Hi'. case_decide; simplify_eq/=.
    + left. exists w0. split; [done|]. right. exists sl. split; [naive_solver|].
      by rewrite set_next_sid_id.
    + destruct (h_sessions h !! i) as [w|] eqn:Hi; simplify_eq/=. left. exists w. split; [done|].
      destruct (hv_sess _ Hw _ _ Hj) as (c0 & hs0 & sc0 & Hc0 & Hp0 & _ & Hr0).
      assert (own_inv w0) as Ho by (eapply own_inv_reachable; by apply reachable_nowrap).
      specialize (Hst _ _ _ Hc0 Hp0).
      destruct (next_sid_step _ _ _ _ Ho Hst) as [Hn|Hn]; rewrite Hn, (hv_next _ Hw _ _ Hj),
        <-(hv_next _ Hw _ _ Hi).
      * left. apply set_next_sid_id.
      * right. exists LForeignSid. split; [by right; right|]. intros. apply foreign_step.
Qed.

Lemma hub_session_keep l h h' i w :
  sessions_inv h → hub_step mfb cfg l h = Some h' → h_sessions h !! i = Some w →
  is_Some (h_sessions h' !! i).
Proof.
  intros Hw HS Hi. destruct (hub_step_sessions _ _ _ HS)
    as [Hs _|j c c' hs sc Hc Hpc Hc' Hpc' Hp' Hv Hs _|j sl w0 w1 Hj Hst Hl Hs _]; rewrite Hs, ?Hi; [done|..];
    rewrite lookup_fmap, lookup_insert; case_decide; simpl; [done| |done|]; rewrite Hi; done.
Qed.

Lemma sessions_inv_step (Hreg : registry_ok (spokes cfg)) l h h' :
  (h_next_sid h + 1 < u64_modulus)%N → sessions_inv h →
  hub_step mfb cfg l h = Some h' → sessions_inv h'.
Proof.
  intros Hn Hw HS. split.
  - intros i w Hi. destruct (hub_step_sessions _ _ _ HS)
      as [Hs Hn'|j c c' hs sc Hc Hpc Hc' Hpc' Hp' Hv Hs Hn'|j sl w0 w1 Hj Hst Hl Hs Hn']; rewrite Hn'; rewrite Hs in Hi.
    + by eapply hv_next.
    + rewrite lookup_fmap in Hi. destruct (<[_:=_]> _ !! i); by simplify_eq/=.
    + rewrite lookup_fmap in Hi. destruct (<[_:=_]> _ !! i); by simplify_eq/=.
  - intros i w Hi. destruct (hub_session_step _ _ _ _ _ Hw HS Hi)
      as [(w0 & Hi0 & Hst)|(c & c' & hs & sc & Hi0 & Hc & Hpc & Hc' & Hpc' & Hp' & Hv & ->)].
    + destruct (hv_sess _ Hw _ _ Hi0) as (c & hs & sc & Hc & Hp & Hne & Hr).
      assert (reachable (sess_step_nowrap mfb cfg sc) (sess_init sc) w) as Hr'.
      { destruct Hst as [->|(sl & _ & Hst)]; [done|]. eapply reachable_step; [done|].
        apply nowrap_of; [by rewrite (hv_next _ Hw _ _ Hi0)|by eapply Hst]. }
      destruct (hub_step_peer _ _ _ i HS) as [Heq|c1 Hnone|c0 c1 Hc0 Hc1 Hp1 _ Hpc1|c0 c1 Hc0 _ Hpc0|c0 c1 hs1 sc1 Hc0 _ Hpc0];
        [rewrite Heq; eauto 10|congruence| |congruence|congruence].
      simplify_eq. exists c1, hs, sc. split_and!; [done|congruence|naive_solver|done].
    + exists c', hs, sc. split_and!; [done..|congruence|].
      constructor. exists (hc_tx c). split_and!; try done. unfold session_of; simpl. f_equal.
      unfold verify_first in Hv. repeat case_match; simplify_eq.
      symmetry. by eapply sok_key, Hreg.
  - intros i c hs sc Hc Hp.
    destruct (hub_step_peer _ _ _ i HS) as [Heq|c1 Hnone Hc1 Hpc1 Hp1|c0 c1 Hc0 Hc1 Hp1 Hf1 Hpc1
      |c0 c1 Hc0 Hc1 Hpc0 Hp1 Hd|c0 c1 hs1 sc1 Hc0 Hc1 Hpc0 Hpc1 Hp1 Hv Hs].
    + rewrite Heq in Hc. destruct (hv_peer _ Hw _ _ _ _ Hc Hp) as [? [w Hi]].
      split; [done|]. by eapply hub_session_keep.
    + congruence.
    + simplify_eq. rewrite Hp1 in Hp. destruct (hv_peer _ Hw _ _ _ _ Hc0 Hp) as [? [w Hi]].
      rewrite Hf1. split; [done|]. by eapply hub_session_keep.
    + congruence.
    + simplify_eq. rewrite Hs, lookup_fmap, lookup_insert_eq. done.
  - intros i c Hc Hpc.
    destruct (hub_step_peer _ _ _ i HS) as [Heq|c1 Hnone Hc1 Hpc1 Hp1|c0 c1 Hc0 Hc1 Hp1 Hf1 Hpc1
      |c0 c1 Hc0 Hc1 Hpc0 Hp1 Hd|c0 c1 hs1 sc1 Hc0 Hc1 Hpc0 Hpc1 Hp1 Hv Hs]; simplify_eq; try congruence.
    + rewrite Heq in Hc. by eapply hv_first.
    + rewrite Hp1. eapply hv_first; [done|done|]. by apply Hpc1.
Qed.

Lemma hub_nowrap_step l h h' :
  hub_step_nowrap mfb cfg l h = Some h' →
  (h_next_sid h + 1 < u64_modulus)%N ∧ hub_step mfb cfg l h = Some h'.
Proof. unfold hub_step_nowrap. destruct (_ <? _)%N eqn:Hlt; [|done]. apply N.ltb_lt in Hlt. done. Qed.

Lemma hub_sessions_inv (Hreg : registry_ok (spokes cfg)) h :
  reachable (hub_step_nowrap mfb cfg) hub_init h → sessions_inv h.
Proof.
  apply reachable_invariant.
  - intros s ->. split; intros *; simpl; by rewrite lookup_empty.
  - intros l s s' Hs [Hn Hstep]%hub_nowrap_step. by eapply sessions_inv_step.
Qed.

(** ** The properties *)

(** C5: only authenticated spokes get a session.  Behind every session of the
    hub is a connection whose first frame was a handshake naming a configured
    spoke with that spoke's token; and the session is one the session machine
    reaches from its initial state, so every property of sessions holds of it. *)
Theorem sessions_authenticated h i w :
  registry_ok (spokes cfg) → reachable (hub_step_nowrap mfb cfg) hub_init h →
  h_sessions h !! i = Some w →
  ∃ c sid hs sc, h_conns h !! i = Some c ∧
    hc_first c = Some (ClientFrame sid (Some (CHandshake hs))) ∧
    spokes cfg !! hs_spoke_id hs = Some sc ∧ hs_signature hs = sc_token sc ∧
    sc_spoke_id sc = hs_spoke_id hs ∧
    reachable (sess_step_nowrap mfb cfg sc) (sess_init sc) w.
Proof.
  intros Hreg Hr Hi. pose proof (hub_sessions_inv Hreg h Hr) as Hw.
  destruct (hv_sess _ Hw _ _ Hi) as (c & hs & sc & Hc & Hp & _ & Hreach).
  destruct (hv_peer _ Hw _ _ _ _ Hc Hp) as [Hv _].
  unfold verify_first in Hv. destruct (hc_first c) as [[sid kd]|] eqn:Hf; [|done]. simpl in Hv.
  repeat case_match; simplify_eq/=.
  match goal with Hb : bool_decide _ = true |- _ => apply bool_decide_eq_true in Hb end.
  exists c, sid, hs, sc. split_and!; try done. by eapply sok_key, Hreg.
Qed.
End hub_sessions.
