(* ===== verification/HubRegistry.v ===== *)
(** * tunnel-server: the session registry and the connected gauge

    The registry names, for each spoke id, a connection that is past its
    registration and has not run its cleanup; cleanup removes only sessions that
    have been closed; and the accounting of the [connected] gauge, which is off
    by one for ever after each displacement that overwrites an entry. *)
From S2P Require Import Prelude RustStd SockAddr Proto ServerConfig Channel ServerMetrics ServerHttp ServerSession SessionTrans SessionDelivery SessionStreams SessionClose ServerHub HubSessions.

(** Between the registration and the end of [cleanup_session]. *)
Definition registered_pc (pc : hub_pc) : bool :=
  match pc with HcBind _ | HcRecv | HcFlag _ | HcClear _ | HcCleanup _ => true | _ => false end.

(** After [session.close()] has set the flag. *)
Definition closed_pc (pc : hub_pc) : bool :=
  match pc with HcClear _ | HcCleanup _ | HcDone => true | _ => false end.

Section hub_registry.
Context {chan : Type → Type} `{Hmpsc : Mpsc chan} `{HI : HashIter}.
Context (mfb : bytes → option bytes) (cfg : server_config).
Context (Hreg : registry_ok (spokes cfg)).
Implicit Types (h : hub chan) (c : hub_conn chan) (w : sess_world chan).

Definition peer_id c : option bytes := (λ p : handshake_response * spoke_config, hs_spoke_id p.1) <$> hc_peer c.

Definition session_closed i h : bool :=
  match h_sessions h !! i with Some w => ss_closed (w_session w) | None => false end.

(** The listen address of a configured port always parses: the early return of
    [handle_connection] that would skip the cleanup is never taken. *)
Definition ports_parse (pc : hub_pc) : Prop :=
  match pc with
  | HcBind bs => Forall (λ b, (spb_port b ≤ u16_max)%N) bs
  | _ => True
  end.

Record registry_inv h : Prop := {
  ri_entry id i : h_registry h !! id = Some i →
    ∃ c, h_conns h !! i = Some c ∧ peer_id c = Some id ∧ registered_pc (hc_pc c) = true;
  ri_ports i c : h_conns h !! i = Some c → ports_parse (hc_pc c);
  ri_closed i c : h_conns h !! i = Some c → is_Some (hc_peer c) → closed_pc (hc_pc c) = true →
    session_closed i h = true }.

(** How a step changes the registry: not at all, by the registration of a
    session, or by a cleanup. *)
Inductive registry_step h h' : Prop :=
| rs_same : h_registry h' = h_registry h →
    (∀ i c, h_conns h !! i = Some c → registered_pc (hc_pc c) = true →
       ∃ c', h_conns h' !! i = Some c' ∧ registered_pc (hc_pc c') = true ∧ peer_id c' = peer_id c) →
    registry_step h h'
| rs_register i c c' id : h_conns h !! i = Some c → h_conns h' = <[i := c']> (h_conns h) →
    peer_id c = Some id → peer_id c' = Some id → registered_pc (hc_pc c') = true →
    h_registry h' = <[id := i]> (h_registry h) → registry_step h h'
| rs_cleanup i c c' id : h_conns h !! i = Some c → h_conns h' = <[i := c']> (h_conns h) →
    peer_id c = Some id → closed_pc (hc_pc c) = true →
    h_registry h' = (match h_registry h !! id with
                     | Some cur => if session_closed cur h then delete id (h_registry h) else h_registry h
                     | None => h_registry h
                     end) → registry_step h h'.

Lemma registry_ok_ports hs sc b c :
  verify_first cfg (hc_first c) = Ok (hs, sc) → b ∈ sc_ports sc → (spb_port b ≤ u16_max)%N.
Proof.
  unfold verify_first. intros Hv Hb. repeat case_match; simplify_eq.
  match goal with H : spokes cfg !! _ = Some _ |- _ => apply Hreg in H as [_ _ _ Hp _] end.
  rewrite Forall_forall in Hp. by apply Hp.
Qed.

Lemma closed_flag_step l h h' i :
  sessions_inv mfb cfg h → hub_step mfb cfg l h = Some h' →
  session_closed i h = true → session_closed i h' = true.
Proof.
  intros Hw HS. unfold session_closed.
  destruct (h_sessions h !! i) as [w|] eqn:Hi; [|done]. intros Hc.
  destruct (hub_session_keep _ _ _ _ _ _ _ Hw HS Hi) as [w' Hi']. rewrite Hi'.
  destruct (hub_session_step _ _ _ _ _ _ _ Hw HS Hi')
    as [(w0 & Hi0 & [->|(sl & _ & Hst)])|(c & c' & hs & sc & Hn & _)]; simplify_eq; [done|].
  destruct (hv_sess _ _ _ Hw _ _ Hi) as (c & hs & sc & Hcn & Hp & _).
  eapply closed_step; [by eapply Hst|done].
Qed.

Lemma bind_address_parses h i c b bs :
  registry_inv h → h_conns h !! i = Some c → hc_pc c = HcBind (b :: bs) →
  socket_addr_from_str (lit "0.0.0.0:" ++ show_N (spb_port b)) ≠ None.
Proof.
  intros Hri Hc Hpc. pose proof (ri_ports _ Hri _ _ Hc) as Hp. rewrite Hpc in Hp.
  apply Forall_cons in Hp as [Hp _]. by rewrite socket_addr_any.
Qed.

Lemma hub_step_registry l h h' :
  registry_inv h → hub_step mfb cfg l h = Some h' → registry_step h h'.
Proof.
  intros Hri HS. hub_inv HS.
  all: try solve [apply rs_same; [done|by eauto]].
  all: try solve [apply rs_same; [done|]; simpl; intros j c1 Hj Hpc; rewrite lookup_insert;
    case_decide; [subst j; simplify_eq/=|by eauto];
    match goal with H : hc_pc _ = _ |- _ => rewrite H in Hpc end;
    first [discriminate Hpc|by eexists]].
  - (* registration of a new spoke id *)
    eapply rs_register; simpl; [eassumption|done|..]; unfold peer_id; simpl; try done;
      match goal with H : hc_peer _ = _ |- _ => rewrite H end; done.
  - (* registration after a displacement *)
    eapply rs_register; simpl; [eassumption|done|..]; unfold peer_id; simpl; try done;
      match goal with H : hc_peer _ = _ |- _ => rewrite H end; done.
  - (* a configured port that does not parse *)
    by destruct (bind_address_parses _ _ _ _ _ Hri Heqo Heqh1).
  - (* cleanup *)
    eapply rs_cleanup; simpl; [eassumption| |unfold peer_id| |]; unfold cleanup_session.
    + unfold cleanup_session. by repeat case_match.
    + match goal with H : hc_peer _ = _ |- _ => rewrite H end; done.
    + match goal with H : hc_pc _ = _ |- _ => rewrite H end; done.
    + unfold session_closed. destruct (h_registry h !! _) as [cur|]; [|done].
      destruct (h_sessions h !! cur) as [w|]; [|done]. by destruct (ss_closed _).
Qed.

(** The connection that steps keeps [ports_parse] and [ri_closed]. *)
Lemma ports_parse_step l h h' i c' :
  sessions_inv mfb cfg h → registry_inv h → hub_step mfb cfg l h = Some h' →
  h_conns h' !! i = Some c' → ports_parse (hc_pc c').
Proof.
  intros Hw Hri HS. hub_inv HS; unfold cleanup_session; simpl; repeat case_match; simpl;
    try (by apply (ri_ports _ Hri));
    rewrite lookup_insert; case_decide; try (by apply (ri_ports _ Hri)); intros; simplify_eq/=; try done;
    try (by eapply ri_ports).
  all: try match goal with
    | H : hc_pc ?c = _, Hc : h_conns _ !! _ = Some ?c |- _ =>
        pose proof (ri_ports _ Hri _ _ Hc) as Hp; rewrite H in Hp; simpl in Hp; by apply Forall_cons in Hp as [_ Hp]
    end.
  all: destruct (hv_peer _ _ _ Hw _ _ _ _ Heqo Heqo0) as [Hv _];
    apply Forall_forall; intros b Hb; by eapply registry_ok_ports.
Qed.

Lemma closed_inv_step l h h' i c' :
  sessions_inv mfb cfg h → registry_inv h → hub_step mfb cfg l h = Some h' →
  h_conns h' !! i = Some c' → is_Some (hc_peer c') → closed_pc (hc_pc c') = true →
  session_closed i h' = true.
Proof.
  intros Hw Hri HS Hi' Hp Hcl.
  assert (∀ c, h_conns h !! i = Some c → is_Some (hc_peer c) → closed_pc (hc_pc c) = true →
    session_closed i h' = true) as Hold.
  { intros c Hc Hpc Hclc. eapply closed_flag_step; [done|done|]. by eapply ri_closed. }
  revert Hi'. hub_inv HS; unfold cleanup_session; simpl; repeat case_match; simpl;
    try (intros Hi'; by eapply Hold);
    rewrite lookup_insert; case_decide; try (intros Hi'; by eapply Hold); intros; simplify_eq/=.
  all: try (by destruct Hp). all: try (by eapply Hold). all: try discriminate.
  all: try (eapply Hold; [eassumption|by rewrite ?Heqo0|by match goal with H : hc_pc _ = _ |- _ => rewrite H end]).
  all: try solve [match goal with Hri : registry_inv ?h, Hi : h_conns ?h !! ?i = Some ?c
      |- session_closed ?i _ = true =>
      change (session_closed i h = true); apply (ri_closed _ Hri i c Hi) end;
    first [eassumption|congruence|by match goal with H : hc_pc _ = _ |- _ => rewrite H end]].
  - (* a configured port that does not parse *)
    by destruct (bind_address_parses _ _ _ _ _ Hri Heqo Heqh1).
  - (* the flag was just set *)
    unfold session_closed; simpl. by rewrite lookup_fmap, lookup_insert_eq.
Qed.

Lemma registry_inv_step l h h' :
  sessions_inv mfb cfg h → registry_inv h → hub_step mfb cfg l h = Some h' → registry_inv h'.
Proof.
  intros Hw Hri HS. split.
  - intros id i. destruct (hub_step_registry _ _ _ Hri HS)
      as [Hr Hk|j c c' id0 Hc Hcs Hp Hp' Hreg' Hr|j c c' id0 Hc Hcs Hp Hcl Hr]; rewrite Hr.
    + intros Hi. destruct (ri_entry _ Hri _ _ Hi) as (c & Hc & Hp & Hpc).
      destruct (Hk _ _ Hc Hpc) as (c' & ? & ? & ?). exists c'. split_and!; [done|congruence|done].
    + rewrite lookup_insert, Hcs. case_decide; intros; simplify_eq.
      * exists c'. by rewrite lookup_insert_eq.
      * destruct (ri_entry _ Hri _ _ H0) as (c1 & Hc1 & Hp1 & Hpc1).
        destruct (decide (j = i)) as [->|]; [congruence|]. exists c1. by rewrite lookup_insert_ne.
    + intros Hi.
      assert (h_registry h !! id = Some i ∧ j ≠ i) as [Hi0 Hne].
      { assert (session_closed j h = true) as Hcj.
        { eapply ri_closed; [done|done| |done]. unfold peer_id in Hp. by destruct (hc_peer c). }
        assert (∀ i0, h_registry h !! i0 = Some j → i0 = id0) as Hown.
        { intros i0 Hi0. destruct (ri_entry _ Hri _ _ Hi0) as (c1 & Hc1 & Hp1 & _). congruence. }
        destruct (h_registry h !! id0) as [cur|] eqn:Hcur.
        - destruct (session_closed cur h) eqn:Hcc.
          + apply lookup_delete_Some in Hi as [Hne Hi]. split; [done|]. intros <-. apply Hown in Hi. congruence.
          + split; [done|]. intros <-. pose proof (Hown _ Hi); subst. congruence.
        - split; [done|]. intros <-. pose proof (Hown _ Hi); subst. congruence. }
      destruct (ri_entry _ Hri _ _ Hi0) as (c1 & ? & ? & ?). exists c1. by rewrite Hcs, lookup_insert_ne.
  - intros. by eapply ports_parse_step.
  - intros. by eapply closed_inv_step.
Qed.

Lemma hub_registry_inv h :
  reachable (hub_step_nowrap mfb cfg) hub_init h → sessions_inv mfb cfg h ∧ registry_inv h.
Proof.
  intros Hr. split; [by apply hub_sessions_inv|]. revert h Hr.
  apply reachable_invariant_strong.
  - intros s ->. split; intros *; simpl; by rewrite lookup_empty.
  - intros l s s' Hr Hs [_ Hstep]%hub_nowrap_step. eapply registry_inv_step; [|done|done].
    by apply hub_sessions_inv.
Qed.

(** ** The connected gauge *)

(** What the gauge counts beyond the registered sessions. *)
Definition gauge_excess h : Z := metric_value MConnected (h_log h) - Z.of_nat (size (h_registry h)).

(** The registrations that replace an entry: a displacement whose victim is
    still registered when the new session is inserted. *)
Definition overwrites (l : hub_label) h : bool :=
  match l with
  | HConn i HTick =>
      match h_conns h !! i with
      | Some c =>
          match hc_pc c, hc_peer c with
          | HcInsert, Some (hs, _) => bool_decide (is_Some (h_registry h !! hs_spoke_id hs))
          | _, _ => false
          end
      | None => false
      end
  | _ => false
  end.

Lemma gauge_excess_add h z m :
  metric_value MConnected (h_log h ++ [OAdd m z]) =
  (metric_value MConnected (h_log h) + if decide (m = MConnected) then z else 0)%Z.
Proof. rewrite metric_value_app. simpl. lia. Qed.

Lemma gauge_excess_step l h h' :
  hub_step mfb cfg l h = Some h' →
  gauge_excess h' = (gauge_excess h + if overwrites l h then 1 else 0)%Z.
Proof.
  intros HS. unfold gauge_excess, overwrites.
  hub_inv HS; unfold cleanup_session; simpl; rewrite ?Heqo; try lia;
    try (match goal with H : hc_pc _ = _ |- _ => rewrite H end; simpl; lia);
    try (match goal with H : hc_pc _ = _ |- _ => rewrite H end);
    unfold inc, dec; rewrite ?gauge_excess_add;
    try (rewrite decide_False by done; lia); rewrite ?decide_True by done.
  - rewrite map_size_insert_None by done. lia.
  - case_bool_decide as Hin.
    + rewrite map_size_insert_Some by done. lia.
    + rewrite map_size_insert_None by (by apply eq_None_not_Some). lia.
  - destruct (h_registry h !! hs_spoke_id h1) as [cur|] eqn:Hcur; [|lia].
    destruct (h_sessions h !! cur) as [w|]; [|lia]. destruct (ss_closed (w_session w)); [|lia].
    simpl. rewrite gauge_excess_add, decide_True by done.
    rewrite map_size_delete_Some by eauto.
    assert (size (h_registry h) ≠ 0) by (apply map_size_ne_0_lookup; eauto). lia.
Qed.

Fixpoint count_overwrites (ls : list hub_label) h : nat :=
  match ls with
  | [] => 0
  | l :: ls' =>
      (if overwrites l h then 1 else 0) +
      match hub_step mfb cfg l h with Some h' => count_overwrites ls' h' | None => 0 end
  end.

Lemma gauge_excess_exec ls h h' :
  exec (hub_step mfb cfg) ls h = Some h' →
  gauge_excess h' = (gauge_excess h + Z.of_nat (count_overwrites ls h))%Z.
Proof.
  revert h. induction ls as [|l ls IH]; intros h He; simplify_eq/=; [lia|].
  destruct (hub_step _ _ l h) as [h1|] eqn:HS; [|done].
  rewrite (IH _ He), (gauge_excess_step _ _ _ HS). destruct (overwrites l h); lia.
Qed.

(** ** The properties *)

(** A connect call always returns a response stream, with exactly the
    challenge on it: the branch that counts [send_challenge] is dead. *)
Theorem connect_sends_challenge i nonce issued_at h :
  h_conns h !! i = None →
  ∃ q, connect i nonce issued_at h = Some (put_conn i (HubConn HcFirst q None None [] false) h) ∧
    mpsc_queued q = [challenge_frame nonce issued_at] ∧ mpsc_rx_alive q = true.
Proof using Hmpsc.
  intros Hi. unfold connect. rewrite Hi.
  destruct (mpsc_send_sent _ (challenge_frame nonce issued_at) (mpsc_channel (chan:=chan) 256))
    as (q & -> & Hq & Ha & _); [by rewrite mpsc_alive_new|rewrite mpsc_queued_new, mpsc_bound_new; simpl; lia|].
  rewrite mpsc_queued_new in Hq. eauto.
Qed.

(** C20: the handshake admits exactly the holders of a configured token, and each
    refusal counts one handshake failure with its reason, creates no session and
    leaves the registry alone. *)
Theorem handshake_decides i c e first h h' :
  h_conns h !! i = Some c → hc_pc c = HcFirst →
  (e = HFirstFail ∧ first = None ∨ ∃ f, e = HFirst f ∧ first = Some f) →
  hub_step mfb cfg (HConn i e) h = Some h' →
  (∃ sid hs sc, first = Some (ClientFrame sid (Some (CHandshake hs))) ∧
     spokes cfg !! hs_spoke_id hs = Some sc ∧ hs_signature hs = sc_token sc ∧
     h_sessions h' !! i = Some (session_of hs c h) ∧ h_log h' = h_log h ∧ h_registry h' = h_registry h) ∨
  ((∀ sid hs sc, first = Some (ClientFrame sid (Some (CHandshake hs))) →
     spokes cfg !! hs_spoke_id hs = Some sc → hs_signature hs ≠ sc_token sc) ∧
   h_sessions h' = h_sessions h ∧ h_registry h' = h_registry h ∧
   (hc_pc <$> h_conns h' !! i) = Some HcDone ∧
   ∃ reason, verify_first cfg first = Err reason ∧ h_log h' = h_log h ++ [inc (MHandshakeFail reason)]).
Proof using Type.
  intros Hi Hpc He HS. simpl in HS. rewrite Hi in HS. unfold conn_step in HS. rewrite Hpc in HS.
  assert (∃ r, verify_first cfg first = r ∧
    Some h' = match r with
      | Err reason => Some (hub_log [inc (MHandshakeFail reason)]
                    (put_conn i (set_hc_pc HcDone (set_hc_peer first None c)) h))
      | Ok (hs, sc) => Some (put_conn i (set_hc_pc HcLock (set_hc_peer first (Some (hs, sc)) c))
                    (put_session i (session_of hs c h) h))
      end) as (r & Hv & HS').
  { destruct He as [[-> ->]|(f & -> & ->)]; eauto. }
  destruct r as [[hs sc]|reason]; simplify_eq/=; [left|right].
  - unfold verify_first in Hv. destruct first as [[sid kd]|]; [|done]. simpl in Hv.
    destruct kd as [[hs0| | | |]|]; try done. destruct (spokes cfg !! hs_spoke_id hs0) eqn:Hsc; [|done].
    case_bool_decide as Hsig; simplify_eq/=.
    exists sid, hs, sc. split_and!; try done.
    rewrite lookup_fmap, lookup_insert_eq. done.
  - rewrite lookup_insert_eq. split_and!; try done; [|by eauto].
    intros sid hs sc -> Hs Hsig. unfold verify_first in Hv. simpl in Hv.
    rewrite Hs, bool_decide_true in Hv by done. done.
Qed.

(** C19: no zombie entries.  A spoke id in the registry maps to a connection that
    authenticated with this id and is between its registration and the end of
    its cleanup; a connection whose [handle_connection] has returned is never
    found in the registry, and a session being cleaned up has been closed. *)
Theorem registry_no_zombie h id i :
  reachable (hub_step_nowrap mfb cfg) hub_init h → h_registry h !! id = Some i →
  ∃ c hs sc, h_conns h !! i = Some c ∧ hc_peer c = Some (hs, sc) ∧ hs_spoke_id hs = id ∧
    registered_pc (hc_pc c) = true ∧ is_Some (h_sessions h !! i) ∧
    (closed_pc (hc_pc c) = true → session_closed i h = true).
Proof using Hreg Hmpsc.
  intros Hr Hin. destruct (hub_registry_inv h Hr) as [Hw Hri].
  destruct (ri_entry _ Hri _ _ Hin) as (c & Hc & Hp & Hpc).
  unfold peer_id in Hp. destruct (hc_peer c) as [[hs sc]|] eqn:Hpeer; simplify_eq/=.
  destruct (hv_peer _ _ _ Hw _ _ _ _ Hc Hpeer) as [_ Hs].
  exists c, hs, sc. split_and!; try done. intros Hcl. by eapply ri_closed.
Qed.

(** C27: accounting of the [connected] gauge.  After any run from the start, the
    gauge is the number of registered spokes plus the number of registrations
    that replaced an existing entry: each such displacement is counted twice and
    never taken back. *)
Theorem connected_gauge_accounting ls h :
  exec (hub_step mfb cfg) ls hub_empty = Some h →
  metric_value MConnected (h_log h) =
    (Z.of_nat (size (h_registry h)) + Z.of_nat (count_overwrites ls hub_empty))%Z.
Proof using Type.
  intros He. pose proof (gauge_excess_exec ls _ _ He) as Hg.
  unfold gauge_excess, hub_empty in Hg. simpl in Hg. rewrite map_size_empty in Hg. unfold hub_empty. lia.
Qed.

(** A displaced session's listeners keep their ports.  Whatever the hub does
    - another connection displacing the session included - a listener waiting in
    [accept()] stays there until a connection arrives on it, its accept fails, or
    its task is aborted, which [handle_connection] does only after the old
    connection's own stream has ended. *)
Theorem displaced_listener_keeps_waiting ls h h' i w a t :
  reachable (hub_step_nowrap mfb cfg) hub_init h →
  h_sessions h !! i = Some w → w_accept w !! a = Some t → ac_pc t = AcAccept →
  forallb (λ l, match l with HSess j sl => negb (bool_decide (j = i) && wakes_listener a sl)
                           | _ => true end) ls = true →
  exec (hub_step_nowrap mfb cfg) ls h = Some h' →
  ∃ w', h_sessions h' !! i = Some w' ∧ w_accept w' !! a = Some t.
Proof using Hreg Hmpsc.
  intros Hr Hi Ha Hpc Hls He. revert h w Hr Hi Ha Hls He.
  induction ls as [|l ls IH]; intros h w Hr Hi Ha Hls He; simplify_eq/=; [by eauto|].
  apply andb_prop in Hls as [Hl Hls].
  destruct (hub_step_nowrap _ _ l h) as [h1|] eqn:HS; [|done].
  pose proof (hub_sessions_inv _ _ Hreg h Hr) as Hw.
  pose proof (proj2 (hub_nowrap_step _ _ _ _ _ HS)) as HS'.
  destruct (hub_session_keep _ _ _ _ _ _ _ Hw HS' Hi) as [w1 Hi1].
  apply (IH h1 w1); [by eapply reachable_step|done| |done..].
  destruct (hub_session_step _ _ _ _ _ _ _ Hw HS' Hi1)
    as [(w0 & Hi0 & [->|(sl & Hsl & Hst)])|(c & c' & hs & sc & Hn & _)]; simplify_eq; [done|].
  destruct (hv_sess _ _ _ Hw _ _ Hi) as (c & hs & sc & Hc & Hp & _).
  eapply blocked_accept_step; [by eapply Hst| |done|done].
  destruct Hsl as [->|[Hadm| ->]]; [|by destruct sl|done].
  rewrite bool_decide_true in Hl by done. by apply negb_true_iff in Hl.
Qed.
End hub_registry.
