(* ===== verification/HubTermination.v ===== *)
(** * tunnel-server: every connection's handler comes to an end

    [handle_connection] has one loop, over the configured ports: a handler takes
    at most ten steps and one per port, and it can always take the next one
    unless it waits for its client - for the first frame, or for [recv_loop]. *)
From S2P Require Import Prelude RustStd SockAddr Proto ServerConfig Channel ServerMetrics ServerHttp ServerSession SessionTrans SessionDelivery SessionStreams SessionClose ServerHub HubSessions HubRegistry.

Definition peer_ports {chan} (c : hub_conn chan) : nat :=
  match hc_peer c with Some (_, sc) => length (sc_ports sc) | None => 0 end.

Definition max_ports (cfg : server_config) : nat :=
  max_list ((λ p : bytes * spoke_config, length (sc_ports p.2)) <$> map_to_list (spokes cfg)).

Lemma max_ports_spec cfg id sc : spokes cfg !! id = Some sc → length (sc_ports sc) ≤ max_ports cfg.
Proof.
  intros Hid. apply max_list_elem_of_le, list_elem_of_fmap. exists (id, sc). split; [done|].
  by apply elem_of_map_to_list.
Qed.

(** The steps a handler has left. *)
Definition conn_rank {chan} (cfg : server_config) (c : hub_conn chan) : nat :=
  match hc_pc c with
  | HcFirst => 10 + max_ports cfg
  | HcLock => 9 + peer_ports c
  | HcOldFlag _ => 8 + peer_ports c
  | HcOldClear _ => 7 + peer_ports c
  | HcInsert => 6 + peer_ports c
  | HcBind bs => 5 + length bs
  | HcRecv => 4
  | HcFlag _ => 3
  | HcClear _ => 2
  | HcCleanup _ => 1
  | HcDone => 0
  end.

Definition of_conn (i : nat) (l : hub_label) : bool :=
  match l with HConn j _ => bool_decide (j = i) | _ => false end.

(** What the handler waits for: the outcome of its pending operation. *)
Definition awaited (pc : hub_pc) (e : hub_event) : bool :=
  match pc, e with
  | HcFirst, (HFirst _ | HFirstFail) => true
  | HcFirst, _ => false
  | HcBind (_ :: _), (HBound | HBindErr) => true
  | HcBind (_ :: _), _ => false
  | _, HTick => true
  | _, _ => false
  end.

Section hub_termination.
Context {chan : Type → Type} `{Hmpsc : Mpsc chan} `{HI : HashIter}.
Context (mfb : bytes → option bytes) (cfg : server_config).
Context (Hreg : registry_ok (spokes cfg)).
Implicit Types (h : hub chan) (c : hub_conn chan) (w : sess_world chan).

Definition rank_of (i : nat) h : nat := from_option (conn_rank cfg) (10 + max_ports cfg) (h_conns h !! i).

Lemma rank_put i j c h :
  rank_of i (put_conn j c h) = if decide (j = i) then conn_rank cfg c else rank_of i h.
Proof. unfold rank_of. simpl. rewrite lookup_insert. by case_decide. Qed.

Lemma verify_ports first hs sc : verify_first cfg first = Ok (hs, sc) → length (sc_ports sc) ≤ max_ports cfg.
Proof. unfold verify_first. intros Hv. repeat case_match; simplify_eq. by eapply max_ports_spec. Qed.

Lemma rank_step i l h h' :
  hub_step mfb cfg l h = Some h' → (if of_conn i l then 1 else 0) + rank_of i h' ≤ rank_of i h.
Proof.
  intros HS. hub_inv HS; unfold of_conn, cleanup_session, register; repeat case_match; try done.
  all: unfold rank_of; simpl; rewrite ?lookup_insert; try done.
  all: repeat case_decide; subst; rewrite ?bool_decide_true, ?bool_decide_false by done; try done.
  all: repeat match goal with H : h_conns _ !! _ = _ |- _ => rewrite H; clear H end; simpl.
  all: unfold conn_rank, peer_ports; simpl; repeat match goal with H : hc_pc _ = _ |- _ => rewrite H; clear H end; simpl.
  all: repeat match goal with H : hc_peer _ = _ |- _ => rewrite H; clear H end; simpl; try lia.
  all: match goal with H : verify_first _ _ = Ok _ |- _ => apply verify_ports in H end; lia.
Qed.

(** ** The handler is never stuck *)

(** Listener [a] of a session exists only once [handle_connection] has bound the
    port [a] of its list. *)
Lemma sess_step_listeners sc sl w w' a :
  sess_step mfb cfg sc sl w = Some w' → is_Some (w_accept w' !! a) →
  is_Some (w_accept w !! a) ∨ ∃ target, sl = LListen a target.
Proof.
  intros HS. sess_inv HS; unfold remove_stream; repeat case_match; simpl; auto.
  all: rewrite lookup_insert; case_decide; subst; eauto.
Qed.

Record term_inv h : Prop := {
  ti_peer i c : h_conns h !! i = Some c → hc_pc c = HcFirst ∨ hc_pc c = HcDone ∨ is_Some (hc_peer c);
  ti_old i c old : h_conns h !! i = Some c → hc_pc c = HcOldFlag old → is_Some (h_sessions h !! old);
  ti_clear i c old : h_conns h !! i = Some c → hc_pc c = HcOldClear old → session_closed old h = true;
  ti_closing i c b : h_conns h !! i = Some c → hc_pc c = HcClear b → session_closed i h = true;
  ti_listen i c w a : h_conns h !! i = Some c → h_sessions h !! i = Some w → is_Some (w_accept w !! a) →
    a < length (hc_ports c) }.

Lemma term_inv_init : term_inv (hub_empty (chan:=chan)).
Proof. split; intros *; simpl; by rewrite lookup_empty. Qed.

Lemma session_keep l h h' i :
  sessions_inv mfb cfg h → hub_step mfb cfg l h = Some h' → is_Some (h_sessions h !! i) → is_Some (h_sessions h' !! i).
Proof. intros Hw HS [w Hi]. by eapply hub_session_keep. Qed.

Lemma ti_peer_step l h h' i c' :
  term_inv h → hub_step mfb cfg l h = Some h' → h_conns h' !! i = Some c' →
  hc_pc c' = HcFirst ∨ hc_pc c' = HcDone ∨ is_Some (hc_peer c').
Proof.
  intros Hi HS Hc'. destruct (hub_step_peer _ _ _ _ _ i HS) as [Hs|c _ Hc Hpc _ _ _|c c0 Hc Hc0 Hp _ Hf|c c0 _ Hc0 _ _ Hd|c c0 hs sc _ Hc0 _ _ Hp _ _].
  - rewrite Hs in Hc'. by eapply ti_peer.
  - simplify_eq. by left.
  - simplify_eq. destruct (ti_peer _ Hi _ _ Hc) as [?|[Hdone|?]]; [left; by apply Hf| |right; right; by rewrite Hp].
    right. left. revert Hc'. clear Hf Hp.
    hub_inv HS; unfold cleanup_session; simpl; repeat case_match; simpl; intros; simplify_eq; try done;
      match goal with H : <[_:=_]> _ !! _ = Some _ |- _ => rewrite lookup_insert in H; case_decide; simplify_eq/= end; congruence.
  - simplify_eq. auto.
  - simplify_eq. right. right. rewrite Hp. by eexists.
Qed.

Lemma cleanup_conns id h : h_conns (cleanup_session id h) = h_conns h.
Proof. unfold cleanup_session. by repeat case_match. Qed.

(** The states that depend on another session are entered by a step of the
    connection itself, which leaves the trace that they need. *)
Lemma pc_entered l h h' i c' :
  hub_step mfb cfg l h = Some h' → h_conns h' !! i = Some c' →
  (∃ c, h_conns h !! i = Some c ∧ hc_pc c = hc_pc c') ∨
  match hc_pc c' with
  | HcOldFlag old => ∃ id, h_registry h !! id = Some old
  | HcOldClear old => session_closed old h' = true
  | HcClear _ => session_closed i h' = true
  | _ => True
  end.
Proof.
  intros HS. hub_inv HS; cbn [put_conn hub_log put_session register h_conns]; intros Hc';
    try (left; exists c'; by split).
  all: rewrite lookup_insert, ?cleanup_conns in Hc'; destruct (decide (_ = _)) as [Heq|_] in Hc'; [|left; exists c'; by split].
  all: injection Hc' as <-; simpl; try exact (or_intror I).
  all: try (left; eexists; split; [rewrite <-Heq; eassumption|]; simpl; congruence).
  all: right; try (eexists; eassumption); rewrite <-?Heq.
  all: match goal with H : sess_step _ _ _ LCloseFlag _ = Some _ |- _ => injection H as <- end.
  all: unfold session_closed; simpl; by rewrite lookup_fmap, lookup_insert_eq.
Qed.

Lemma ports_grow l h h' i c' :
  hub_step mfb cfg l h = Some h' → h_conns h' !! i = Some c' →
  h_conns h !! i = None ∨ ∃ c, h_conns h !! i = Some c ∧ hc_ports c `prefix_of` hc_ports c'.
Proof.
  intros HS. hub_inv HS; unfold cleanup_session; simpl; repeat case_match; simpl; intros Hc'; try (right; by eauto);
    rewrite lookup_insert in Hc'; case_decide; simplify_eq/=; try (right; by eauto); auto.
  right. eexists. split; [done|]. by apply prefix_app_r.
Qed.

Lemma listener_new l h h' i w' a :
  hub_step mfb cfg l h = Some h' → h_sessions h' !! i = Some w' → is_Some (w_accept w' !! a) →
  (∃ w, h_sessions h !! i = Some w ∧ is_Some (w_accept w !! a)) ∨
  ∃ c', h_conns h' !! i = Some c' ∧ a < length (hc_ports c').
Proof.
  intros HS. hub_inv HS; unfold cleanup_session; simpl; repeat case_match; simpl; intros Hw' Ha; try (left; by eauto);
    rewrite lookup_fmap in Hw'; apply fmap_Some in Hw' as (w & Hw' & ->); rewrite lookup_insert in Hw';
    case_decide; simplify_eq; cbn [set_next_sid w_accept session_of] in Ha; try (left; by eauto).
  all: try (rewrite lookup_empty in Ha; by destruct Ha).
  all: match goal with Hst : sess_step _ _ _ ?sl _ = Some _ |- _ =>
         destruct (sess_step_listeners _ _ _ _ _ Hst Ha) as [?|[target Heq]]; [left; by eauto|] end.
  all: simplify_eq/=.
  right. rewrite lookup_insert_eq. eexists. split; [done|]. simpl. rewrite length_app. simpl. lia.
Qed.

Lemma term_inv_step l h h' :
  sessions_inv mfb cfg h → registry_inv h → term_inv h → hub_step mfb cfg l h = Some h' → term_inv h'.
Proof.
  intros Hw Hri Hi HS. split.
  - intros i c'. by apply (ti_peer_step l h).
  - intros i c' old Hc' Hpc. apply (session_keep l h); [done..|].
    destruct (pc_entered _ _ _ _ _ HS Hc') as [(c & Hc & Heq)|He]; [eapply ti_old; [done|done|congruence]|].
    rewrite Hpc in He. destruct He as [id Hid]. destruct (ri_entry _ Hri _ _ Hid) as (c & Hc & Hp & _).
    unfold peer_id in Hp. destruct (hc_peer c) as [[hs sc]|] eqn:Hpeer; [|done]. by eapply hv_peer.
  - intros i c' old Hc' Hpc. destruct (pc_entered _ _ _ _ _ HS Hc') as [(c & Hc & Heq)|He]; [|by rewrite Hpc in He].
    eapply closed_flag_step; [done..|]. eapply ti_clear; [done|done|congruence].
  - intros i c' b Hc' Hpc. destruct (pc_entered _ _ _ _ _ HS Hc') as [(c & Hc & Heq)|He]; [|by rewrite Hpc in He].
    eapply closed_flag_step; [done..|]. eapply ti_closing; [done|done|by rewrite Heq].
  - intros i c' w' a Hc' Hw' Ha. destruct (listener_new _ _ _ _ _ _ HS Hw' Ha) as [(w & Hwi & Hwa)|(c0 & Hc0 & ?)]; [|congruence].
    destruct (ports_grow _ _ _ _ _ HS Hc') as [Hn|(c & Hc & Hp%prefix_length)].
    + destruct (hv_sess _ _ _ Hw _ _ Hwi) as (c & _ & _ & Hc & _). congruence.
    + pose proof (ti_listen _ Hi _ _ _ _ Hc Hwi Hwa). lia.
Qed.

Lemma hub_term_inv h : reachable (hub_step_nowrap mfb cfg) hub_init h → sessions_inv mfb cfg h ∧ registry_inv h ∧ term_inv h.
Proof.
  intros Hr. destruct (hub_registry_inv _ _ Hreg h Hr) as [Hw Hri]. split_and!; [done..|]. clear Hw Hri. revert h Hr.
  apply reachable_invariant_strong; [by intros s ->; apply term_inv_init|].
  intros l s s' Hr Hs [_ HS]%hub_nowrap_step. destruct (hub_registry_inv _ _ Hreg s Hr). by eapply term_inv_step.
Qed.

(** Waiting for the client: [recv_loop] has not returned. *)
Definition receiving (i : nat) c h : Prop := hc_pc c = HcRecv ∧ recv_finished i h = false.

Lemma handler_ready h i c e :
  sessions_inv mfb cfg h → registry_inv h → term_inv h → h_conns h !! i = Some c →
  hc_pc c ≠ HcDone → ¬ receiving i c h → awaited (hc_pc c) e = true → is_Some (hub_step mfb cfg (HConn i e) h).
Proof.
  intros Hw Hri Hi Hc Hd Hrc He. simpl. rewrite Hc. unfold conn_step.
  destruct (hc_pc c) as [| |old|old| |[|b bs]| |b|b|b|] eqn:Hpc; try done; simpl in He.
  { destruct e; try done; by repeat case_match. }
  all: destruct (ti_peer _ Hi _ _ Hc) as [?|[?|[[hs sc] Hp]]]; try congruence; rewrite Hp.
  all: pose proof (hv_peer _ _ _ Hw _ _ _ _ Hc Hp) as [_ [w Hwi]].
  all: try (destruct e; try done).
  all: unfold hub_sess_step; simpl.
  - by case_match.
  - destruct (ti_old _ Hi _ _ _ Hc Hpc) as [w' ->]. by eexists.
  - pose proof (ti_clear _ Hi _ _ _ Hc Hpc) as Hcl. unfold session_closed in Hcl.
    destruct (h_sessions h !! old) as [w'|]; [|done]. unfold close_clear. rewrite Hcl. by eexists.
  - pose proof (bind_address_parses _ _ _ _ _ Hri Hc Hpc) as Hb.
    destruct (socket_addr_from_str _); [|done]. rewrite Hwi.
    destruct (w_accept w !! length (hc_ports c)) eqn:Ha; [|by eexists].
    pose proof (ti_listen _ Hi _ _ _ _ Hc Hwi (mk_is_Some _ _ Ha)). lia.
  - pose proof (bind_address_parses _ _ _ _ _ Hri Hc Hpc) as Hb.
    by destruct (socket_addr_from_str _).
  - unfold receiving in Hrc. destruct (recv_finished i h) eqn:Hf; [by eexists|naive_solver].
  - rewrite Hwi. by eexists.
  - pose proof (ti_closing _ Hi _ _ _ Hc Hpc) as Hcl. unfold session_closed in Hcl. rewrite Hwi in *.
    unfold close_clear. rewrite Hcl. by eexists.
Qed.

(** C17: every connection's handler comes to an end.  Of the steps of a run, at most
    ten and one per configured port are steps of the handler of one connection;
    and a handler that has not returned can take its next step, whatever the
    outcome of the operation it awaits - every lock, every task and every channel
    is there - unless it is in [recv_loop] while the client's stream lasts. *)
Theorem handle_connection_terminates ls h i c :
  exec (hub_step_nowrap mfb cfg) ls hub_empty = Some h → h_conns h !! i = Some c →
  own_steps (of_conn i) ls ≤ 10 + max_ports cfg ∧
  (hc_pc c = HcDone ∨ receiving i c h ∨
   ∀ e, awaited (hc_pc c) e = true → is_Some (hub_step mfb cfg (HConn i e) h)).
Proof using Hreg Hmpsc.
  intros He Hc. split.
  - assert (own_steps (of_conn i) ls + rank_of i h ≤ rank_of i hub_empty) as Hr.
    { eapply own_steps_rank; [|done]. intros l s s' [_ HS]%hub_nowrap_step. by apply rank_step. }
    unfold rank_of at 2 in Hr. simpl in Hr. rewrite lookup_empty in Hr. simpl in Hr. lia.
  - assert (reachable (hub_step_nowrap mfb cfg) hub_init h) as Hreach by (by eapply reachable_exec; [apply reachable_init|]).
    destruct (hub_term_inv h Hreach) as (Hw & Hri & Hi).
    assert (hc_pc c = HcDone ∨ hc_pc c ≠ HcDone) as [|Hd] by (destruct (hc_pc c); auto); [by left|right].
    assert (receiving i c h ∨ ¬ receiving i c h) as [|Hrc]; [|by left|right].
    { unfold receiving. destruct (recv_finished i h); [right; by intros [_ ?]|].
      destruct (hc_pc c); first [by left|right; by intros [? _]]. }
    intros e. by apply handler_ready.
Qed.
End hub_termination.
