(* ===== verification/HubMetrics.v ===== *)
(** * tunnel-server: the metrics a scrape returns

    [struct Metrics]: the six families [Metrics::new] registers, the series each
    call of the code goes to, and what [encode] hands to the text encoder.  The
    prometheus crate is a type class with the documented behaviour of its registry;
    counters are [f64] in the crate, so the integers here are what it reports as
    long as they stay below 2^53.  Then what the byte and request counters of a
    session count. *)
From S2P Require Import Prelude RustStd SockAddr Proto ServerConfig Channel ServerMetrics ServerHttp ServerSession SessionTrans SessionDelivery SessionStreams SessionInbound SessionHttp ServerHub HubSessions.

(** ** The families *)
Record metric_desc := MetricDesc {
  md_gauge : bool; md_name : bytes; md_help : bytes; md_labels : list bytes }.

Definition desc_connected : metric_desc :=
  MetricDesc true (lit "openspoke_tunnel_connected_spokes") (lit "Number of currently connected spokes.") [].
Definition desc_streams_open : metric_desc :=
  MetricDesc true (lit "openspoke_tunnel_streams_open") (lit "Open virtual TCP streams per spoke.") [lit "spoke_id"].
Definition desc_bytes_sent : metric_desc :=
  MetricDesc false (lit "openspoke_tunnel_bytes_sent_total") (lit "Bytes sent hub->spoke via tunnel.") [lit "spoke_id"].
Definition desc_bytes_recv : metric_desc :=
  MetricDesc false (lit "openspoke_tunnel_bytes_recv_total") (lit "Bytes received spoke->hub via tunnel.") [lit "spoke_id"].
Definition desc_handshake_fail : metric_desc :=
  MetricDesc false (lit "openspoke_tunnel_handshake_failures_total") (lit "Handshake failures.") [lit "reason"].
Definition desc_http_requests : metric_desc :=
  MetricDesc false (lit "openspoke_tunnel_http_requests_total")
    (lit "Application spoke HTTP requests proxied to hub kernel (labels: spoke_id, result).")
    [lit "spoke_id"; lit "result"].

(** The registrations of [Metrics::new], with the text of each [expect]. *)
Definition registrations : list (metric_desc * bytes) :=
  [(desc_connected, lit "register connected"); (desc_streams_open, lit "register streams_open");
   (desc_bytes_sent, lit "register bytes_sent"); (desc_bytes_recv, lit "register bytes_recv");
   (desc_handshake_fail, lit "register handshake_fail"); (desc_http_requests, lit "register http_requests")].

(** The series a call goes to: the family, and the label values it passes. *)
Definition metric_desc_of (m : metric) : metric_desc :=
  match m with
  | MConnected => desc_connected
  | MStreamsOpen _ => desc_streams_open
  | MBytesSent _ => desc_bytes_sent
  | MBytesRecv _ => desc_bytes_recv
  | MHandshakeFail _ => desc_handshake_fail
  | MHttpRequests _ _ => desc_http_requests
  end.
Definition metric_labels (m : metric) : list bytes :=
  match m with
  | MConnected => []
  | MStreamsOpen id | MBytesSent id | MBytesRecv id => [id]
  | MHandshakeFail reason => [reason]
  | MHttpRequests id result => [id; result]
  end.
Definition series (m : metric) : bytes * list bytes := (md_name (metric_desc_of m), metric_labels m).

(** ** The prometheus registry *)
Definition name_start (b : byte) : bool :=
  in_range 65 90 b || in_range 97 122 b || byte_eqb b x5f.
Definition valid_name (colon : bool) (s : bytes) : bool :=
  let start b := name_start b || (colon && byte_eqb b x3a) in
  match s with b :: t => start b && forallb (λ b, start b || in_range 48 57 b) t | [] => false end.

(** The documented conditions on a descriptor. *)
Definition valid_desc (d : metric_desc) : bool :=
  valid_name true (md_name d) && negb (bool_decide (md_help d = []))
  && forallb (valid_name false) (md_labels d) && bool_decide (NoDup (md_labels d)).

(** A sample is one child of a family: its label values and its value. *)
Definition family : Type := metric_desc * list (list bytes * Z).
Definition family_samples (fs : list family) : list ((bytes * list bytes) * Z) :=
  fs ≫= λ f : family, (λ s : list bytes * Z, ((md_name f.1, s.1), s.2)) <$> f.2.

Class Prometheus (registry : Type) := {
  prom_new : registry;
  prom_register : metric_desc → registry → result registry bytes;
  (* with_label_values(labels) of a registered collector, then inc, dec or inc_by *)
  prom_add : metric_desc → list bytes → Z → registry → registry;
  prom_gather : registry → list family;
  (* TextEncoder: what is in its buffer afterwards *)
  prom_text : list family → bytes;
  (* the registered collectors, and the value of a child, if there is one *)
  prom_descs : registry → list metric_desc;
  prom_value : registry → bytes * list bytes → option Z;
  prom_descs_new : prom_descs prom_new = [];
  prom_value_new s : prom_value prom_new s = None;
  (* a valid collector under a new name; one without labels has its child at once *)
  prom_register_ok d r : valid_desc d = true → md_name d ∉ md_name <$> prom_descs r →
    ∃ r', prom_register d r = Ok r' ∧ prom_descs r' = prom_descs r ++ [d] ∧
      ∀ s, prom_value r' s =
        if decide (md_labels d = [] ∧ s = (md_name d, [])) then Some 0%Z else prom_value r s;
  (* a call with as many values as labels, not negative on a counter: creates the child at need *)
  prom_add_ok d ls z r : d ∈ prom_descs r → length ls = length (md_labels d) →
    md_gauge d || (0 <=? z)%Z = true →
    prom_descs (prom_add d ls z r) = prom_descs r ∧
    ∀ s, prom_value (prom_add d ls z r) s =
      if decide (s = (md_name d, ls)) then Some (default 0 (prom_value r s) + z)%Z else prom_value r s;
  (* gather lists every child once *)
  prom_gather_nodup r : NoDup (family_samples (prom_gather r)).*1;
  prom_gather_values r s z : (s, z) ∈ family_samples (prom_gather r) ↔ prom_value r s = Some z }.

Section metrics.
Context `{Prometheus registry}.

(** [Metrics::new]; an error is the panic of an [expect]. *)
Definition metrics_new : result registry bytes :=
  foldl (λ r d, let? r := r in map_err (λ _, d.2) (prom_register d.1 r)) (Ok prom_new) registrations.

(** A call on the metrics, and the calls of a log in order. *)
Definition metric_call (r : registry) (o : obs) : registry :=
  match o with
  | OAdd m z => prom_add (metric_desc_of m) (metric_labels m) z r
  | _ => r
  end.
Definition metric_calls (r : registry) (l : list obs) : registry := foldl metric_call r l.

(** [Metrics::encode] *)
Definition encode (r : registry) : bytes := default [] (from_utf8 (prom_text (prom_gather r))).

Lemma register_all (ds : list (metric_desc * bytes)) (r : registry) :
  Forall (λ d, valid_desc d.1 = true) ds → NoDup (md_name <$> (prom_descs r ++ ds.*1)) →
  ∃ r', foldl (λ r d, let? r := r in map_err (λ _, d.2) (prom_register d.1 r)) (Ok r) ds = Ok r' ∧
    prom_descs r' = prom_descs r ++ ds.*1 ∧
    ∀ s, prom_value r' s = if decide (Exists (λ d, md_labels d = [] ∧ s = (md_name d, [])) ds.*1)
                           then Some 0%Z else prom_value r s.
Proof.
  revert r. induction ds as [|[d msg] ds IH]; intros r Hv Hnd; simpl in *.
  { exists r. rewrite app_nil_r. by split_and!. }
  inversion Hv as [|? ? Hd Hds]; subst. assert (md_name d ∉ md_name <$> prom_descs r) as Hnew.
  { rewrite fmap_app, fmap_cons in Hnd. apply NoDup_app in Hnd as (_ & Hnd & _). intros Hin.
    apply (Hnd _ Hin). left. }
  destruct (prom_register_ok d r Hd Hnew) as (r1 & -> & Hn & Hr1). simpl.
  destruct (IH r1 Hds) as (r2 & -> & Hn2 & Hr2); [by rewrite Hn, <-(assoc_L (++))|].
  exists r2. split_and!; [done|by rewrite Hn2, Hn, <-(assoc_L (++))|]. intros s. rewrite Hr2, Hr1.
  repeat match goal with |- context [decide ?P] => destruct (decide P) end; rewrite ?Exists_cons in *; naive_solver.
Qed.

Lemma series_inj m m' : series m = series m' → m = m'.
Proof. by destruct m, m'; intros [=]; subst. Qed.

Lemma desc_registered m : metric_desc_of m ∈ registrations.*1.
Proof. destruct m; set_solver. Qed.

Lemma metrics_new_registers : ∃ r, metrics_new = Ok r ∧ prom_descs r = registrations.*1 ∧
  ∀ s, prom_value r s = if decide (s = series MConnected) then Some 0%Z else None.
Proof.
  destruct (register_all registrations prom_new) as (r & Hr & Hn & Hv).
  - by repeat constructor.
  - rewrite prom_descs_new. apply (bool_decide_unpack _). by vm_compute.
  - exists r. rewrite prom_descs_new in Hn. split_and!; [done..|]. intros s. rewrite Hv, prom_value_new.
    apply decide_ext. split.
    + intros (d & Hin & Hl & ->)%Exists_exists.
      repeat (apply elem_of_cons in Hin as [->|Hin]; [done|]). by apply not_elem_of_nil in Hin.
    + intros ->. apply Exists_exists. exists desc_connected. split; [|done]. set_solver.
Qed.

(** The calls the crate accepts: a counter is never decreased. *)
Definition legal_call (o : obs) : bool :=
  match o with OAdd m z => md_gauge (metric_desc_of m) || (0 <=? z)%Z | _ => true end.
Definition touches (m : metric) (o : obs) : bool :=
  match o with OAdd m' _ => bool_decide (m' = m) | _ => false end.

Lemma untouched_value m l : existsb (touches m) l = false → metric_value m l = 0%Z.
Proof.
  induction l as [|o l IH]; [done|]. simpl. intros [Ho Hl]%orb_false_iff. specialize (IH Hl).
  destruct o; try done. simpl in Ho. apply bool_decide_eq_false in Ho. by rewrite decide_False.
Qed.

Lemma metric_call_value r o :
  prom_descs r = registrations.*1 → legal_call o = true →
  prom_descs (metric_call r o) = registrations.*1 ∧
  (∀ m, prom_value (metric_call r o) (series m) =
    if touches m o then Some (default 0 (prom_value r (series m)) + metric_value m [o])%Z
    else prom_value r (series m)) ∧
  ∀ s, prom_value (metric_call r o) s = prom_value r s ∨ ∃ m, s = series m.
Proof.
  intros Hr Hl. destruct o as [m' z| | | | | | | | | | ]; simpl; try (split_and!; by auto).
  destruct (prom_add_ok (metric_desc_of m') (metric_labels m') z r) as [Hd Hv];
    [rewrite Hr; apply desc_registered|by destruct m'|done|]. split_and!; [by rewrite Hd| |].
  - intros m. rewrite Hv. fold (series m'). rewrite (bool_decide_ext _ (series m = series m')).
    + case_bool_decide as Hs; [|by rewrite decide_False]. rewrite decide_True by done.
      apply series_inj in Hs as ->. rewrite decide_True by done. do 2 f_equal. lia.
    + split; [by intros ->|by intros ->%series_inj].
  - intros s. rewrite Hv. case_decide; subst; [right; by exists m'|by left].
Qed.

Lemma metric_calls_value l r :
  prom_descs r = registrations.*1 → Forall (λ o, legal_call o = true) l →
  (∀ m, prom_value (metric_calls r l) (series m) =
    if existsb (touches m) l then Some (default 0 (prom_value r (series m)) + metric_value m l)%Z
    else prom_value r (series m)) ∧
  ∀ s, prom_value (metric_calls r l) s = prom_value r s ∨ ∃ m, s = series m.
Proof.
  revert r. induction l as [|o l IH]; intros r Hr Hl; [by auto|].
  apply Forall_cons in Hl as [Ho Hl]. destruct (metric_call_value r o Hr Ho) as (Hr' & Hm & Hs).
  destruct (IH _ Hr' Hl) as [IHm IHs]. change (metric_calls r (o :: l)) with (metric_calls (metric_call r o) l).
  split; [|intros s; destruct (IHs s) as [->|]; by auto]. intros m. rewrite IHm, Hm. cbn [existsb].
  assert (metric_value m (o :: l) = metric_value m [o] + metric_value m l)%Z as ->
    by apply (metric_value_app m [o] l).
  destruct (touches m o) eqn:Ht; cbn [orb].
  - destruct (existsb (touches m) l) eqn:He; cbn [default from_option id]; f_equal; [lia|].
    assert (metric_value m l = 0%Z) as ->; [|lia]. by apply untouched_value.
  - assert (metric_value m [o] = 0%Z) as ->; [|done]. apply untouched_value. cbn [existsb]. by rewrite Ht.
Qed.

(** What a registry shows after the calls of a log: [connected], and a child for
    every metric that was called on, each with the net effect of its calls. *)
Lemma gathered_samples r l :
  metrics_new = Ok r → Forall (λ o, legal_call o = true) l →
  let samples := family_samples (prom_gather (metric_calls r l)) in
  NoDup samples.*1 ∧ ∀ s z, (s, z) ∈ samples ↔
    ∃ m, s = series m ∧ (m = MConnected ∨ existsb (touches m) l = true) ∧ z = metric_value m l.
Proof.
  intros Hr Hl samples. split; [apply prom_gather_nodup|]. intros s z. unfold samples.
  rewrite prom_gather_values. destruct metrics_new_registers as (r0 & Hr0 & Hd & Hv).
  rewrite Hr in Hr0. injection Hr0 as <-.
  destruct (metric_calls_value l r Hd Hl) as [Hm Hs]. split.
  - intros Hz. assert (∃ m, s = series m) as [m ->].
    { destruct (Hs s) as [Heq|]; [|done]. rewrite Hz, Hv in Heq. case_decide; [by exists MConnected|done]. }
    exists m. rewrite Hm, Hv in Hz. split; [done|]. destruct (existsb (touches m) l) eqn:He.
    + split; [by right|]. case_decide; injection Hz as <-; simpl; lia.
    + case_decide as Heq; [|done]. apply series_inj in Heq as ->. injection Hz as <-. rewrite untouched_value by done. auto.
  - intros (m & -> & Ht & ->). rewrite Hm, Hv. destruct (existsb (touches m) l) eqn:He.
    + case_decide; simpl; f_equal; lia.
    + destruct Ht as [->|]; [|done]. rewrite decide_True by done. by rewrite untouched_value.
Qed.

(** The metrics fit their families.  [Metrics::new] registers its six families
    without a panic; every call of the code passes as many label values as its
    family declares; and two different metrics never share a series. *)
Theorem metrics_registered :
  (∃ r, metrics_new = Ok r ∧ prom_descs r = registrations.*1) ∧
  (∀ m, metric_desc_of m ∈ registrations.*1 ∧ length (metric_labels m) = length (md_labels (metric_desc_of m))) ∧
  (∀ m m', series m = series m' → m = m').
Proof.
  split_and!; [|intros m; split; [apply desc_registered|by destruct m]|apply series_inj].
  destruct metrics_new_registers as (r & ? & ? & _). eauto.
Qed.
End metrics.

(** ** What the counters of a session count *)
Definition read_bytes (l : list obs) : nat :=
  sum_list_with (λ o, match o with OTcpRead _ p => length p | _ => 0 end) l.
Definition queued_bytes (l : list obs) : nat :=
  sum_list_with (λ o, match o with OQueued _ p => length p | _ => 0 end) l.
Definition received_bytes (l : list obs) : nat :=
  sum_list_with (λ o, match o with ORecv (ClientFrame _ (Some (CData p))) => length p | _ => 0 end) l.
Definition kernel_answers (l : list obs) : nat :=
  sum_list_with (λ o, match o with OKernel _ (KAnswer _ _ _) => 1 | _ => 0 end) l.
Definition kernel_failures (l : list obs) : nat :=
  sum_list_with (λ o, match o with OKernel _ (KSendErr _) | OKernel _ (KBodyErr _) => 1 | _ => 0 end) l.

(** The task has counted its request. *)
Definition counted (t : http_task) : nat := match ht_pc t with HtReply _ | HtDone => 1 | _ => 0 end.

Section counters.
Context {chan : Type → Type} `{Hmpsc : Mpsc chan} `{HI : HashIter}.
Context (mfb : bytes → option bytes) (cfg : server_config) (sc : spoke_config).
Implicit Types (w : sess_world chan).

Definition spoke_value (m : bytes → metric) w : Z := metric_value (m (ss_spoke_id (w_session w))) (w_log w).
Definition holding w : nat := match w_recv w with RvSend _ _ p => length p | _ => 0 end.
Definition http_value (result : bytes) w : Z :=
  metric_value (MHttpRequests (ss_spoke_id (w_session w)) result) (w_log w).

Record counters_ok w : Prop := {
  co_sent : spoke_value MBytesSent w = Z.of_nat (read_bytes (w_log w));
  co_recv : (Z.of_nat (queued_bytes (w_log w) + holding w) ≤ spoke_value MBytesRecv w
             ≤ Z.of_nat (received_bytes (w_log w)))%Z;
  co_ok : http_value (lit "ok") w = Z.of_nat (kernel_answers (w_log w));
  co_err : http_value (lit "upstream_err") w = Z.of_nat (kernel_failures (w_log w));
  co_all : (http_value (lit "ok") w + http_value (lit "upstream_err") w + http_value (lit "rejected_path") w)%Z
             = Z.of_nat (msum counted (w_http w)) }.

Lemma counters_ok_log w w' d :
  counters_ok w → ss_spoke_id (w_session w') = ss_spoke_id (w_session w) → w_log w' = w_log w ++ d →
  let v m := metric_value (m (ss_spoke_id (w_session w))) d in
  let h r := metric_value (MHttpRequests (ss_spoke_id (w_session w)) r) d in
  v MBytesSent = Z.of_nat (read_bytes d) →
  (Z.of_nat (queued_bytes d + holding w') ≤ v MBytesRecv + Z.of_nat (holding w))%Z →
  (v MBytesRecv ≤ Z.of_nat (received_bytes d))%Z →
  h (lit "ok") = Z.of_nat (kernel_answers d) → h (lit "upstream_err") = Z.of_nat (kernel_failures d) →
  (h (lit "ok") + h (lit "upstream_err") + h (lit "rejected_path") + Z.of_nat (msum counted (w_http w)))%Z
    = Z.of_nat (msum counted (w_http w')) →
  counters_ok w'.
Proof.
  intros [Hs [Hr1 Hr2] Ho He Ha] Hid Hl v h H1 H2 H3 H4 H5 H6. unfold v, h in *. clear v h.
  split; unfold spoke_value, http_value in *; rewrite Hl, Hid, ?metric_value_app;
    unfold read_bytes, queued_bytes, received_bytes, kernel_answers, kernel_failures in *;
    rewrite ?sum_list_with_app; lia.
Qed.

(** The labels are different texts. *)
Lemma results_differ :
  lit "ok" ≠ lit "upstream_err" ∧ lit "ok" ≠ lit "rejected_path" ∧ lit "ok" ≠ lit "rejected_kind" ∧
  lit "upstream_err" ≠ lit "rejected_path" ∧ lit "upstream_err" ≠ lit "rejected_kind" ∧
  lit "rejected_path" ≠ lit "rejected_kind".
Proof. by vm_compute. Qed.

Lemma remove_stream_adds sid w :
  ∃ d, w_log (remove_stream sid w) = w_log w ++ d ∧ (d = [] ∨ ∃ id, d = [dec (MStreamsOpen id)]).
Proof.
  destruct (remove_stream_cases sid w) as [[_ ->]|(k & _ & ->)]; [exists []; rewrite app_nil_r|]; simpl; eauto 6.
Qed.

(** Evaluate what a step adds to the totals. *)
Ltac count_log :=
  unfold holding, read_bytes, queued_bytes, received_bytes, kernel_answers, kernel_failures, inc, dec, inc_by;
  simpl; rewrite ?remove_stream_http, ?remove_stream_recv; simpl;
  repeat match goal with H : w_recv _ = _ |- _ => rewrite H; clear H end;
  repeat match goal with
  | H : ?m !! ?k = Some ?x |- context [msum ?f (<[?k:=?y]> ?m)] =>
      pose proof (msum_insert f k x y m H); generalize dependent (msum f (<[k:=y]> m)); intros
  | H : ?m !! ?k = None |- context [msum ?f (<[?k:=?y]> ?m)] => rewrite (msum_insert_new f k y m H)
  end;
  unfold counted in *; simpl in *;
  repeat match goal with H : ht_pc _ = _ |- _ => rewrite H in *; clear H end;
  repeat case_decide; first [congruence|lia].

Lemma counters_ok_remove sid w : counters_ok w → counters_ok (remove_stream sid w).
Proof.
  intros Hw. destruct (remove_stream_adds sid w) as (d & Hd & [->|[id ->]]);
    (eapply counters_ok_log; [exact Hw|apply remove_stream_id|exact Hd|..]); count_log.
Qed.

Lemma counters_ok_step l w w' : counters_ok w → sess_step mfb cfg sc l w = Some w' → counters_ok w'.
Proof.
  intros Hw HS. destruct results_differ as (? & ? & ? & ? & ? & ?). sess_inv HS.
  all: repeat match goal with
    | H : length _ ≤ _ |- _ => clear H
    | H : decide _ = _ |- _ => clear H
    | H : cf_kind ?f = _ |- _ => destruct f; simpl in H; subst
    end; simpl in *; try apply counters_ok_remove.
  all: try match goal with |- context [remove_stream ?s ?v] =>
    eapply (counters_ok_log (remove_stream s v) _ []);
      [by apply counters_ok_remove|reflexivity|simpl; by rewrite app_nil_r|..]; solve [count_log] end.
  all: try (eapply (counters_ok_log _ _ []); [exact Hw|reflexivity|simpl; by rewrite app_nil_r|..]; solve [count_log]).
  all: eapply counters_ok_log; [exact Hw|reflexivity|simpl; rewrite <-?(assoc_L (++)); reflexivity|..]; count_log.
Qed.

Lemma counters_ok_init w : sess_init sc w → counters_ok w.
Proof.
  intros (tx & _ & _ & _ & Hr & Hh & Hl).
  split; unfold spoke_value, http_value, holding; rewrite ?Hl, ?Hh, ?Hr; done.
Qed.

(** C29: what the counters of a session count.  [bytes_sent] is the number of bytes
    read from the hub-side connections; [bytes_recv] is at most the bytes of the
    [Data] frames received and at least the bytes handed to connections; the
    requests counted [ok] are those the kernel answered, [upstream_err] those it
    failed to; and every request of an application spoke is counted exactly once,
    when its outcome is known. *)
Theorem session_counters w :
  reachable (sess_step mfb cfg sc) (sess_init sc) w →
  let id := ss_spoke_id (w_session w) in
  let value m := metric_value m (w_log w) in
  value (MBytesSent id) = Z.of_nat (read_bytes (w_log w)) ∧
  (Z.of_nat (queued_bytes (w_log w)) ≤ value (MBytesRecv id) ≤ Z.of_nat (received_bytes (w_log w)))%Z ∧
  value (MHttpRequests id (lit "ok")) = Z.of_nat (kernel_answers (w_log w)) ∧
  value (MHttpRequests id (lit "upstream_err")) = Z.of_nat (kernel_failures (w_log w)) ∧
  (value (MHttpRequests id (lit "ok")) + value (MHttpRequests id (lit "upstream_err"))
   + value (MHttpRequests id (lit "rejected_path")))%Z = Z.of_nat (msum counted (w_http w)).
Proof.
  intros Hr. assert (counters_ok w) as [Hs Hrc Ho He Ha].
  { revert Hr. apply reachable_invariant; [apply counters_ok_init|apply counters_ok_step]. }
  unfold spoke_value, http_value in *. split_and!; (done || lia).
Qed.
End counters.
