(* ===== verification/ServerMain.v ===== *)
(** * tunnel-server: start-up and the metrics endpoint

    [main]: the configuration, the metrics and their HTTP endpoint, the HTTP client
    for the kernel, and the gRPC server.  What binding, building and serving
    answer is the environment of the process; axum's own replies to requests no
    route takes are parameters. *)
From S2P Require Import Prelude RustStd SockAddr Proto ServerConfig Channel ServerMetrics ServerHttp ServerSession ServerHub HubMetrics.

(** ** The metrics endpoint *)
Inductive metrics_handler := HandleMetrics | HandleHealthz.

Definition metrics_routes : list (bytes * metrics_handler) :=
  [(lit "/metrics", HandleMetrics); (lit "/healthz", HandleHealthz)].

Record http_reply := HttpReply { hr_status : N; hr_body : bytes }.

Section endpoint.
Context `{Prometheus registry}.
(* axum: no route for the path, a route but not for the method *)
Context (no_route wrong_method : http_reply).

Definition run_handler (r : registry) (m : metrics_handler) : http_reply :=
  match m with
  | HandleMetrics => HttpReply 200 (encode r)
  | HandleHealthz => HttpReply 200 (lit "ok")
  end.

(** A GET or HEAD of a routed path runs its handler. *)
Definition metrics_app (r : registry) (method path : bytes) : http_reply :=
  match list_find (λ pr : bytes * metrics_handler, pr.1 = path) metrics_routes with
  | Some (_, (_, m)) =>
      if bool_decide (method = lit "GET" ∨ method = lit "HEAD") then run_handler r m else wrong_method
  | None => no_route
  end.

(** The endpoint: /healthz answers ok, and a path that is not one of the two is
    not routed. *)
Theorem endpoint_routes r :
  metrics_app r (lit "GET") (lit "/healthz") = HttpReply 200 (lit "ok") ∧
  ∀ method path, path ∉ metrics_routes.*1 → metrics_app r method path = no_route.
Proof.
  split; [done|]. intros method path Hp. unfold metrics_app.
  destruct (list_find _ _) as [[n [p0 m]]|] eqn:Hf; [|done].
  apply list_find_Some in Hf as (Hin%list_elem_of_lookup_2 & Heq & _). simpl in Heq. subst. exfalso. apply Hp.
  apply list_elem_of_fmap. by exists (path, m).
Qed.
End endpoint.

(** ** Transport settings *)
Record transport := Transport {
  tr_stream_window : N; tr_conn_window : N;      (* bytes *)
  tr_keepalive_interval : N; tr_keepalive_timeout : N }.   (* seconds *)

Definition hub_transport : transport := Transport (4 * 1024 * 1024) (16 * 1024 * 1024) 30 20.

(** ** main *)
Record server_env := ServerEnv {
  se_vars : env_vars;
  se_http_client : result () bytes;      (* reqwest's build *)
  se_metrics_bind : result () bytes;
  se_metrics_serve : option (result () bytes);   (* axum::serve: none while it runs *)
  se_serve : result () bytes }.          (* when the gRPC server returns *)

(** The background task of the metrics endpoint. *)
Inductive metrics_task := MetricsServing | MetricsEnded (e : result () bytes).

Definition run_metrics_task (env : server_env) : metrics_task :=
  match se_metrics_bind env with
  | Ok _ => match se_metrics_serve env with None => MetricsServing | Some res => MetricsEnded res end
  | Err e => MetricsEnded (Err e)
  end.

(** A process that serves: what it listens on, the initial hub, the registry. *)
Record server_running (registry : Type) (chan : Type → Type) := ServerRunning {
  sr_config : server_config;
  sr_grpc : socket_addr;
  sr_transport : transport;
  sr_metrics : metrics_task;
  sr_registry : registry;
  sr_hub : hub chan }.
Arguments ServerRunning {registry chan} _ _ _ _ _ _.
Arguments sr_config {registry chan} _.
Arguments sr_grpc {registry chan} _.
Arguments sr_transport {registry chan} _.
Arguments sr_metrics {registry chan} _.
Arguments sr_registry {registry chan} _.
Arguments sr_hub {registry chan} _.

Inductive server_start (registry : Type) (chan : Type → Type) :=
| ServerPanics (message : bytes)
| ServerFails (e : bytes)               (* main returns Err *)
| ServerServes (s : server_running registry chan).
Arguments ServerPanics {registry chan} _.
Arguments ServerFails {registry chan} _.
Arguments ServerServes {registry chan} _.

Section server_main.
Context `{Prometheus registry} {chan : Type → Type}.

Definition server_main (env : server_env) : server_start registry chan :=
  match load_server_config (se_vars env) with
  | Err e => ServerFails e
  | Ok cfg =>
      match metrics_new with
      | Err message => ServerPanics message
      | Ok r =>
          let metrics := run_metrics_task env in
          match se_http_client env with
          | Err e => ServerFails e
          | Ok _ => ServerServes (ServerRunning cfg (grpc_listen cfg) hub_transport metrics r hub_empty)
          end
      end
  end.

(** What [main] returns once the gRPC server has. *)
Definition server_exit (env : server_env) : option (result () bytes) :=
  match server_main env with
  | ServerPanics _ => None
  | ServerFails e => Some (Err e)
  | ServerServes _ => Some (se_serve env)
  end.

(** Starting the hub.  The process serves exactly when the configuration loads
    and the HTTP client can be built, and then on the configured address with an
    empty registry of sessions; it never panics, a failure is the error [main]
    returns, and a metrics endpoint that cannot bind does not keep the tunnel down. *)
Theorem server_starts env :
  (∀ msg, server_main env ≠ ServerPanics msg) ∧
  ((∃ s, server_main env = ServerServes s) ↔
     is_ok (load_server_config (se_vars env)) = true ∧ is_ok (se_http_client env) = true) ∧
  (∀ s, server_main env = ServerServes s →
     load_server_config (se_vars env) = Ok (sr_config s) ∧ sr_grpc s = grpc_listen (sr_config s) ∧
     hub_init (sr_hub s) ∧ server_exit env = Some (se_serve env) ∧
     ∀ bind serve, ∃ s', server_main (ServerEnv (se_vars env) (se_http_client env) bind serve (se_serve env))
       = ServerServes s' ∧ sr_grpc s' = sr_grpc s) ∧
  (∀ e, load_server_config (se_vars env) = Err e → server_exit env = Some (Err e)).
Proof.
  destruct metrics_new_registers as (r & Hr & _). unfold server_exit, server_main. simpl. rewrite Hr.
  destruct (load_server_config (se_vars env)) as [cfg|e]; simpl; [|naive_solver].
  destruct (se_http_client env) as [[]|e]; simpl; [|naive_solver].
  split_and!; [done|naive_solver| |done]. intros s [= <-]. simpl. split_and!; [done..|].
  intros bind serve. by eexists.
Qed.
End server_main.
