(* ===== verification/HubScrape.v ===== *)
(** * tunnel-server: what a scrape of the hub shows

    Every call on the metrics is made by a connection or by a session, each under
    labels of its own; so the samples of /metrics are sums over the connections and
    the sessions of the hub, whatever the order in which the calls reached the
    prometheus registry.  What is summed is what happened: bytes read, answers of
    the kernel, refused handshakes, entries of the session registry. *)
From S2P Require Import Prelude RustStd SockAddr Proto ServerConfig Channel ServerMetrics ServerHttp ServerSession SessionTrans SessionDelivery SessionStreams SessionInbound SessionHttp ServerHub HubSessions HubRegistry HubMetrics ServerMain.

(** The spoke a metric is labelled with. *)
Definition spoke_label (m : metric) : option bytes :=
  match m with
  | MConnected | MHandshakeFail _ => None
  | MStreamsOpen id | MBytesSent id | MBytesRecv id | MHttpRequests id _ => Some id
  end.

(** A call the crate accepts, on a metric with this spoke label. *)
Definition call_of (label : option bytes) (o : obs) : bool :=
  legal_call o && match o with OAdd m _ => bool_decide (spoke_label m = label) | _ => true end.

Lemma call_of_value label m l :
  Forall (λ o, call_of label o = true) l → spoke_label m ≠ label → metric_value m l = 0%Z.
Proof.
  intros Hl Hm. apply untouched_value. induction Hl as [|o l Ho _ IH]; [done|]. simpl.
  rewrite IH, orb_false_r. destruct o; try done. simpl. unfold call_of in Ho.
  apply andb_prop in Ho as [_ Ho%bool_decide_eq_true]. apply bool_decide_eq_false. congruence.
Qed.

Lemma metric_value_perm m l l' : l ≡ₚ l' → metric_value m l = metric_value m l'.
Proof.
  induction 1 as [|o l l' _ IH|o o' l|]; [done| | |congruence].
  - destruct o; simpl; by rewrite ?IH.
  - destruct o, o'; simpl; lia.
Qed.

(** ** The calls of a session *)
Section session_calls.
Context {chan : Type → Type} `{Hmpsc : Mpsc chan} `{HI : HashIter}.
Context (mfb : bytes → option bytes) (cfg : server_config) (sc : spoke_config).
Implicit Types (w : sess_world chan).

Definition own_calls w : Prop :=
  Forall (λ o, call_of (Some (ss_spoke_id (w_session w))) o = true) (w_log w).

Lemma own_calls_remove sid w : own_calls w → own_calls (remove_stream sid w).
Proof.
  unfold own_calls. rewrite remove_stream_id.
  destruct (remove_stream_cases sid w) as [[_ ->]|(k & _ & ->)]; [done|]. simpl. intros Hw.
  apply Forall_app. split; [done|]. apply Forall_singleton. unfold call_of. simpl.
  by apply bool_decide_eq_true.
Qed.

Lemma own_calls_step l w w' : own_calls w → sess_step mfb cfg sc l w = Some w' → own_calls w'.
Proof.
  intros Hw HS. sess_inv HS; try apply own_calls_remove; unfold own_calls in *; simpl;
    rewrite ?remove_stream_id; simpl; rewrite ?Forall_app, ?Forall_cons, ?Forall_nil;
    split_and?; try done.
  all: apply andb_true_intro; split; [|by apply bool_decide_eq_true]; simpl; first [done|apply Z.leb_le; lia].
Qed.

Lemma own_calls_reachable w :
  reachable (sess_step mfb cfg sc) (sess_init sc) w → own_calls w.
Proof.
  apply reachable_invariant; [|apply own_calls_step].
  intros s (tx & _ & _ & _ & _ & _ & Hl). unfold own_calls. by rewrite Hl.
Qed.
End session_calls.

(** ** The calls of the connections *)
Section hub_scrape.
Context {chan : Type → Type} `{Hmpsc : Mpsc chan} `{HI : HashIter}.
Context (mfb : bytes → option bytes) (cfg : server_config).
Implicit Types (h : hub chan) (c : hub_conn chan) (w : sess_world chan).

(** A connection whose first frame, or the lack of one, was refused for [reason]. *)
Definition refused (reason : bytes) c : nat :=
  match hc_pc c, hc_peer c with
  | HcFirst, _ | _, Some _ => 0
  | _, None =>
      match verify_first cfg (hc_first c) with
      | Err e => if decide (e = reason) then 1 else 0
      | Ok _ => 0
      end
  end.

Record conn_calls h : Prop := {
  cc_calls : Forall (λ o, call_of None o = true) (h_log h);
  cc_refused reason : metric_value (MHandshakeFail reason) (h_log h) = Z.of_nat (msum (refused reason) (h_conns h)) }.

Lemma conn_calls_change h h' i c c' d :
  conn_calls h → h_conns h !! i = Some c → h_conns h' = <[i := c']> (h_conns h) → h_log h' = h_log h ++ d →
  Forall (λ o, call_of None o = true) d →
  (∀ reason, (metric_value (MHandshakeFail reason) d + Z.of_nat (refused reason c) = Z.of_nat (refused reason c'))%Z) →
  conn_calls h'.
Proof.
  intros [Hc Hv] Hi Hcs Hl Hd Hr. split; rewrite Hl; [by apply Forall_app|].
  intros reason. rewrite metric_value_app, Hv, Hcs.
  pose proof (msum_insert (refused reason) i c c' _ Hi). specialize (Hr reason). lia.
Qed.

Lemma conn_calls_step l h h' : conn_calls h → hub_step mfb cfg l h = Some h' → conn_calls h'.
Proof.
  intros Hw HS. hub_inv HS; unfold cleanup_session; repeat case_match; try (by destruct Hw).
  { (* a new connection *)
    destruct Hw as [Hc Hv]. split; [done|]. intros reason. simpl. by rewrite msum_insert_new, Hv. }
  { (* the channel is empty: it takes the challenge *)
    exfalso. match goal with H : mpsc_send ?f ?q = SendClosed |- _ =>
      destruct (mpsc_send_sent _ f q) as (q' & Hq & _);
        [by rewrite mpsc_alive_new|rewrite mpsc_queued_new, mpsc_bound_new; simpl; lia|congruence] end. }
  all: eapply conn_calls_change; simpl;
    [exact Hw|eassumption|reflexivity|first [reflexivity|by rewrite app_nil_r]|by repeat constructor|].
  all: intros reason; unfold refused, set_hc_tx; cbn -[verify_first];
    repeat match goal with
    | H : hc_pc _ = _ |- _ => rewrite H; clear H
    | H : hc_peer _ = _ |- _ => rewrite H; clear H
    | H : verify_first _ _ = _ |- _ => rewrite H; clear H
    end; try done; repeat case_decide; simplify_eq; lia.
Qed.

Lemma conn_calls_reachable h :
  reachable (hub_step_nowrap mfb cfg) hub_init h → conn_calls h.
Proof.
  apply reachable_invariant; [intros s ->|intros l s s' Hs [_ HS]%hub_nowrap_step; by eapply conn_calls_step].
  by split.
Qed.

(** ** Sums over the hub *)

(** Every call on the metrics so far: those of the connections and those of the
    sessions. *)
Definition hub_calls h : list obs :=
  h_log h ++ mjoin ((λ iw : nat * sess_world chan, w_log iw.2) <$> map_to_list (h_sessions h)).

(** A total over the sessions of a spoke id. *)
Definition of_spoke (id : bytes) (f : list obs → nat) w : nat :=
  if decide (ss_spoke_id (w_session w) = id) then f (w_log w) else 0.
Definition hub_total (f : list obs → nat) (id : bytes) h : nat := msum (of_spoke id f) (h_sessions h).

Lemma sessions_sum m (lo hi : sess_world chan → nat) (ws : gmap nat (sess_world chan)) :
  (∀ i w, ws !! i = Some w → (Z.of_nat (lo w) ≤ metric_value m (w_log w) ≤ Z.of_nat (hi w))%Z) →
  (Z.of_nat (msum lo ws)
   ≤ metric_value m (mjoin ((λ iw : nat * sess_world chan, w_log iw.2) <$> map_to_list ws))
   ≤ Z.of_nat (msum hi ws))%Z.
Proof.
  intros Hw. assert (∀ i w, (i, w) ∈ map_to_list ws →
    (Z.of_nat (lo w) ≤ metric_value m (w_log w) ≤ Z.of_nat (hi w))%Z) as Hl.
  { intros i w Hin%elem_of_map_to_list. by eapply Hw. }
  unfold msum. rewrite !map_fold_foldr. induction (map_to_list ws) as [|[i w] l IH]; [done|].
  rewrite fmap_cons. change (mjoin (?x :: ?y)) with (x ++ mjoin y). rewrite metric_value_app. simpl.
  assert ((i, w) ∈ (i, w) :: l) as Hin by left. apply Hl in Hin.
  destruct IH as [? ?]; [intros j v Hjv; apply (Hl j); by right|]. lia.
Qed.

Context (Hreg : registry_ok (spokes cfg)).

Lemma hub_session_calls h i w :
  reachable (hub_step_nowrap mfb cfg) hub_init h → h_sessions h !! i = Some w →
  own_calls w ∧ counters_ok w.
Proof using Hreg Hmpsc.
  intros Hr Hi. pose proof (hub_sessions_inv _ _ Hreg h Hr) as Hw.
  destruct (hv_sess _ _ _ Hw _ _ Hi) as (c & hs & sc & _ & _ & _ & Hs%reachable_nowrap).
  split; [by eapply own_calls_reachable|].
  revert Hs. apply reachable_invariant; [apply counters_ok_init|apply counters_ok_step].
Qed.

Lemma hub_calls_legal h :
  reachable (hub_step_nowrap mfb cfg) hub_init h → Forall (λ o, legal_call o = true) (hub_calls h).
Proof using Hreg Hmpsc.
  intros Hr. apply Forall_app. split.
  - eapply Forall_impl; [apply cc_calls, conn_calls_reachable, Hr|]. intros o Ho. by apply andb_prop in Ho as [Ho _].
  - apply Forall_forall. intros o (l & Ho & Hl)%list_elem_of_join.
    apply list_elem_of_fmap in Hl as ([i w] & -> & Hi%elem_of_map_to_list).
    destruct (hub_session_calls _ _ _ Hr Hi) as [Hw _]. unfold own_calls in Hw. rewrite Forall_forall in Hw.
    apply Hw in Ho. by apply andb_prop in Ho as [Ho _].
Qed.

(** A metric of a spoke is the sum over its sessions; the others are those of the
    connections. *)
Lemma spoke_metric_bounds m id h (lo hi : list obs → nat) :
  reachable (hub_step_nowrap mfb cfg) hub_init h → spoke_label m = Some id →
  (∀ w, own_calls w → counters_ok w → ss_spoke_id (w_session w) = id →
     (Z.of_nat (lo (w_log w)) ≤ metric_value m (w_log w) ≤ Z.of_nat (hi (w_log w)))%Z) →
  (Z.of_nat (hub_total lo id h) ≤ metric_value m (hub_calls h) ≤ Z.of_nat (hub_total hi id h))%Z.
Proof using Hreg Hmpsc.
  intros Hr Hm Hw. unfold hub_calls. rewrite metric_value_app, (call_of_value None m);
    [|apply cc_calls, conn_calls_reachable, Hr|by rewrite Hm].
  apply sessions_sum. intros i w Hi. destruct (hub_session_calls _ _ _ Hr Hi) as [Ho Hc].
  unfold of_spoke. case_decide as Hid; [by apply Hw|]. rewrite (call_of_value _ _ _ Ho) by congruence. done.
Qed.

Lemma spoke_metric_total m id h (f : list obs → nat) :
  reachable (hub_step_nowrap mfb cfg) hub_init h → spoke_label m = Some id →
  (∀ w, counters_ok w → ss_spoke_id (w_session w) = id → metric_value m (w_log w) = Z.of_nat (f (w_log w))) →
  metric_value m (hub_calls h) = Z.of_nat (hub_total f id h).
Proof using Hreg Hmpsc.
  intros Hr Hm Hw. assert (∀ a b : Z, (a ≤ b ≤ a)%Z → b = a) as He by lia. apply He.
  apply (spoke_metric_bounds m id h f f Hr Hm). intros w _ Hc Hid. rewrite (Hw w Hc Hid). lia.
Qed.

Lemma hub_metric_value m h :
  reachable (hub_step_nowrap mfb cfg) hub_init h → spoke_label m = None →
  metric_value m (hub_calls h) = metric_value m (h_log h).
Proof using Hreg Hmpsc.
  intros Hr Hm. unfold hub_calls. rewrite metric_value_app.
  destruct (sessions_sum m (λ _, 0) (λ _, 0) (h_sessions h)) as [Hlo Hhi].
  - intros i w Hi. destruct (hub_session_calls _ _ _ Hr Hi) as [Ho _].
    rewrite (call_of_value _ m _ Ho); [lia|by rewrite Hm].
  - unfold msum in Hlo, Hhi. assert (map_fold (λ _ (_ : sess_world chan) n, 0 + n) 0 (h_sessions h) = 0) as Hz; [|lia].
    rewrite map_fold_foldr. clear Hlo Hhi. induction (map_to_list (h_sessions h)) as [|[i w] l IH]; [done|exact IH].
Qed.

Lemma exec_nowrap ls h h' :
  exec (hub_step_nowrap mfb cfg) ls h = Some h' → exec (hub_step mfb cfg) ls h = Some h'.
Proof.
  revert h. induction ls as [|l ls IH]; intros h He; simplify_eq/=; [done|].
  destruct (hub_step_nowrap _ _ l h) as [h1|] eqn:HS; [|done].
  destruct (hub_nowrap_step _ _ _ _ _ HS) as [_ ->]. by apply IH.
Qed.

(** ** The property *)

Context `{Prometheus registry}.

(** The samples show [n] for a metric: a single sample with this value, or none
    when [n] is 0 and the metric has not been used. *)
Definition shows (samples : list ((bytes * list bytes) * Z)) (m : metric) (n : Z) : Prop :=
  (n ≠ 0%Z → (series m, n) ∈ samples) ∧ ∀ z, (series m, z) ∈ samples → z = n.

Lemma gathered_shows r l m n :
  metrics_new = Ok r → Forall (λ o, legal_call o = true) l → metric_value m l = n →
  shows (family_samples (prom_gather (metric_calls r l))) m n.
Proof.
  intros Hr Hl <-. destruct (gathered_samples r l Hr Hl) as [_ Hs]. split.
  - intros Hn. apply Hs. exists m. split_and!; [done| |done]. right.
    destruct (existsb (touches m) l) eqn:He; [done|]. by rewrite (untouched_value m l He) in Hn.
  - intros z (m' & Hm & _ & ->)%Hs. by apply series_inj in Hm as <-.
Qed.

(** C40: a scrape shows what happened on the hub.  After any run from the start, and
    in whatever order the calls of connections and sessions reached the prometheus
    registry, GET /metrics answers 200 with the text of the gathered families; each
    series occurs in them once, and: the connected gauge is the number of registered
    spokes plus the registrations that replaced an entry; the handshake failures of
    a reason are the connections refused for it; and for each spoke id, over all its
    sessions, [bytes_sent] is the bytes read from hub-side connections, [bytes_recv]
    lies between the bytes handed to connections and those received in frames, and
    the requests counted [ok] and [upstream_err] are the kernel's answers and
    failures. *)
Theorem scrape_reports_hub no_route wrong_method ls h r calls :
  exec (hub_step_nowrap mfb cfg) ls hub_empty = Some h →
  metrics_new = Ok r → calls ≡ₚ hub_calls h →
  utf8_valid (prom_text (prom_gather (metric_calls r calls))) = true →
  let families := prom_gather (metric_calls r calls) in
  let samples := family_samples families in
  metrics_app no_route wrong_method (metric_calls r calls) (lit "GET") (lit "/metrics")
    = HttpReply 200 (prom_text families) ∧
  NoDup samples.*1 ∧
  (series MConnected, Z.of_nat (size (h_registry h) + count_overwrites mfb cfg ls hub_empty)) ∈ samples ∧
  (∀ reason, shows samples (MHandshakeFail reason) (Z.of_nat (msum (refused reason) (h_conns h)))) ∧
  ∀ id,
    shows samples (MBytesSent id) (Z.of_nat (hub_total read_bytes id h)) ∧
    (∀ z, (series (MBytesRecv id), z) ∈ samples →
       Z.of_nat (hub_total queued_bytes id h) ≤ z ≤ Z.of_nat (hub_total received_bytes id h))%Z ∧
    shows samples (MHttpRequests id (lit "ok")) (Z.of_nat (hub_total kernel_answers id h)) ∧
    shows samples (MHttpRequests id (lit "upstream_err")) (Z.of_nat (hub_total kernel_failures id h)).
Proof using Hreg Hmpsc.
  intros He Hr Hp Hu families samples.
  assert (reachable (hub_step_nowrap mfb cfg) hub_init h) as Hh by (eapply reachable_exec; [by constructor|done]).
  assert (Forall (λ o, legal_call o = true) calls) as Hl by (rewrite Hp; by apply hub_calls_legal).
  destruct (gathered_samples r calls Hr Hl) as [Hnd Hs].
  split_and!; [|done| | |].
  - unfold metrics_app. simpl. unfold encode, from_utf8. by rewrite Hu.
  - apply Hs. exists MConnected. split_and!; [done|by left|].
    rewrite (metric_value_perm _ _ _ Hp), hub_metric_value by done.
    pose proof (gauge_excess_exec _ _ _ _ _ (exec_nowrap _ _ _ He)) as Hg.
    unfold gauge_excess in Hg. simpl in Hg. rewrite map_size_empty in Hg. lia.
  - intros reason. apply gathered_shows; [done..|].
    rewrite (metric_value_perm _ _ _ Hp), hub_metric_value by done. by apply cc_refused, conn_calls_reachable.
  - intros id. split_and!; [| |apply gathered_shows; [done..|]|apply gathered_shows; [done..|]].
    + apply gathered_shows; [done..|]. rewrite (metric_value_perm _ _ _ Hp).
      apply (spoke_metric_total _ id); [done..|]. intros w Hw <-. apply Hw.
    + intros z (m & Hm & _ & ->)%Hs. apply series_inj in Hm as <-. rewrite (metric_value_perm _ _ _ Hp).
      apply (spoke_metric_bounds _ id); [done..|]. intros w _ Hw <-. pose proof (co_recv _ Hw).
      unfold spoke_value in *. lia.
    + rewrite (metric_value_perm _ _ _ Hp). apply (spoke_metric_total _ id); [done..|]. intros w Hw <-. apply Hw.
    + rewrite (metric_value_perm _ _ _ Hp). apply (spoke_metric_total _ id); [done..|]. intros w Hw <-. apply Hw.
Qed.
End hub_scrape.
