(* ===== verification/HubWitness.v ===== *)
(** * tunnel-server: concrete runs of the hub

    Two and three connections of one spoke id, for the behaviours around a
    displacement, and the witnesses of the hub theorems. *)
From S2P Require Import Prelude RustStd SockAddr Proto ServerConfig Channel ServerMetrics ServerHttp ServerSession SessionTrans SessionDelivery SessionStreams SessionClose SessionHttp SessionWitness ServerHub HubSessions HubRegistry HubTermination.

Definition demo_hub_step : hub_label → hub queue → option (hub queue) := hub_step demo_method demo_config.
Definition demo_hub_step_nowrap : hub_label → hub queue → option (hub queue) :=
  hub_step_nowrap demo_method demo_config.

Definition demo_handshake : client_frame :=
  ClientFrame 0 (Some (CHandshake (HandshakeResponse (lit "app-demo") (lit "secret") (lit "0.1.0")))).

Definition hub_arrive (i : nat) : list hub_label := [HConnect i [] 0; HConn i (HFirst demo_handshake)].
Definition hub_bind (i : nat) : list hub_label := [HConn i HBound; HConn i HTick].
(** The first connection registers at once; a later one looks the old session
    up, closes it, and inserts itself. *)
Definition hub_ticks (i n : nat) : list hub_label := replicate n (HConn i HTick).
Definition hub_leave (i : nat) : list hub_label := HSess i (LRecv StreamEnd) :: hub_ticks i 4.

Definition hub_after (ls : list hub_label) : hub queue :=
  default hub_empty (exec demo_hub_step_nowrap ls hub_empty).

Lemma hub_after_exec ls :
  (if exec demo_hub_step_nowrap ls hub_empty is Some _ then true else false) = true →
  exec demo_hub_step_nowrap ls hub_empty = Some (hub_after ls).
Proof. unfold hub_after. by destruct (exec demo_hub_step_nowrap ls hub_empty). Qed.

Lemma hub_after_reach ls :
  (if exec demo_hub_step_nowrap ls hub_empty is Some _ then true else false) = true →
  reachable demo_hub_step_nowrap hub_init (hub_after ls).
Proof. intros He%hub_after_exec. eapply reachable_exec; [by constructor|done]. Qed.

Lemma demo_registry_ok : registry_ok (spokes demo_config).
Proof.
  intros id sc Hin. simpl in Hin. apply lookup_singleton_Some in Hin as [<- <-].
  split; simpl; try done.
  - repeat constructor; [by vm_compute|done].
  - apply (bool_decide_unpack _). by vm_compute.
Qed.

(** A displacement leaves the [connected] gauge one too high for ever: after
    a spoke reconnects while its old session is registered and both connections
    end, no spoke is registered and the gauge still says one. *)
Theorem displacement_leaks_gauge :
  let ls := hub_arrive 0 ++ hub_ticks 0 1 ++ hub_bind 0 ++ hub_arrive 1 ++ hub_ticks 1 4 ++ hub_bind 1
            ++ hub_leave 0 ++ hub_leave 1 in
  ∃ h, exec demo_hub_step_nowrap ls hub_empty = Some h ∧
    map_to_list (h_registry h) = [] ∧ metric_value MConnected (h_log h) = 1%Z ∧
    Forall (λ ic : nat * hub_conn queue, hc_pc ic.2 = HcDone) (map_to_list (h_conns h)).
Proof.
  exists (hub_after (hub_arrive 0 ++ hub_ticks 0 1 ++ hub_bind 0 ++ hub_arrive 1 ++ hub_ticks 1 4 ++ hub_bind 1
            ++ hub_leave 0 ++ hub_leave 1)).
  split_and!; [by apply hub_after_exec; vm_compute|by vm_compute|by vm_compute|].
  vm_compute. repeat constructor.
Qed.

(** Two takeovers of one spoke id can race.  Both find the same old session,
    release the registry lock to close it and insert themselves; the first one
    inserted is replaced without being closed, so two sessions of the spoke stay
    open and only one is in the registry. *)
Theorem displacement_race :
  let ls := hub_arrive 0 ++ hub_ticks 0 1 ++ hub_arrive 1 ++ hub_arrive 2 ++ hub_ticks 1 1 ++ hub_ticks 2 1
            ++ hub_ticks 1 3 ++ hub_ticks 2 3 in
  ∃ h, exec demo_hub_step_nowrap ls hub_empty = Some h ∧
    session_closed 1 h = false ∧ session_closed 2 h = false ∧
    h_registry h !! lit "app-demo" = Some 2 ∧
    (hc_pc <$> h_conns h !! 1) = Some (HcBind (sc_ports demo_spoke)) ∧
    (hc_pc <$> h_conns h !! 2) = Some (HcBind (sc_ports demo_spoke)).
Proof.
  exists (hub_after (hub_arrive 0 ++ hub_ticks 0 1 ++ hub_arrive 1 ++ hub_arrive 2 ++ hub_ticks 1 1 ++ hub_ticks 2 1
            ++ hub_ticks 1 3 ++ hub_ticks 2 3)).
  split_and!; [by apply hub_after_exec; vm_compute|by vm_compute..].
Qed.

(** A displaced session goes on serving.  Its [recv_loop] does not look at
    [closed], so after another connection has taken the spoke id over, a request
    on the old stream is still forwarded to the hub kernel. *)
Theorem displaced_session_still_forwards :
  let ls := hub_arrive 0 ++ hub_ticks 0 1 ++ hub_bind 0 ++ hub_arrive 1 ++ hub_ticks 1 4 in
  let req := [HSess 0 (LRecv (StreamFrame (ClientFrame (2 ^ 63) (Some (CHttpRequest demo_request))) 0));
              HSess 0 (LHttp 0 Tick)] in
  ∃ h h', exec demo_hub_step_nowrap ls hub_empty = Some h ∧
    session_closed 0 h = true ∧ h_registry h !! lit "app-demo" = Some 1 ∧
    exec demo_hub_step_nowrap req h = Some h' ∧
    ∃ w, h_sessions h' !! 0 = Some w ∧
      OForward 0 (forward_call demo_method demo_config (lit "app-demo") demo_request) ∈ w_log w.
Proof.
  set (ls := hub_arrive 0 ++ hub_ticks 0 1 ++ hub_bind 0 ++ hub_arrive 1 ++ hub_ticks 1 4).
  set (req := [HSess 0 (LRecv (StreamFrame (ClientFrame (2 ^ 63) (Some (CHttpRequest demo_request))) 0));
              HSess 0 (LHttp 0 Tick)]).
  exists (hub_after ls), (hub_after (ls ++ req)). split_and!.
  - by apply hub_after_exec; vm_compute.
  - by vm_compute.
  - by vm_compute.
  - assert (exec demo_hub_step_nowrap (ls ++ req) hub_empty = Some (hub_after (ls ++ req))) as He
      by (by apply hub_after_exec; vm_compute).
    rewrite exec_app, (hub_after_exec ls) in He by (by vm_compute). exact He.
  - exists (default demo_init (h_sessions (hub_after (ls ++ req)) !! 0)). split; [by vm_compute|].
    apply (bool_decide_unpack _). by vm_compute.
Qed.

(** ** Witnesses *)
Definition demo_hub : hub queue := hub_after (hub_arrive 0 ++ hub_ticks 0 1 ++ hub_bind 0).
Definition demo_hub_waiting : hub queue :=
  hub_after (hub_arrive 0 ++ hub_ticks 0 1 ++ hub_bind 0 ++ [HSess 0 (LAccept 0 Tick)]).

Lemma demo_hub_reach : reachable demo_hub_step_nowrap hub_init demo_hub.
Proof. by apply hub_after_reach; vm_compute. Qed.
Lemma demo_hub_waiting_reach : reachable demo_hub_step_nowrap hub_init demo_hub_waiting.
Proof. by apply hub_after_reach; vm_compute. Qed.

Definition demo_hub_session (h : hub queue) : sess_world queue := default demo_init (h_sessions h !! 0).

Lemma sessions_authenticated_witness :
  h_sessions demo_hub !! 0 = Some (demo_hub_session demo_hub) ∧
  ∃ sid hs, hc_first <$> h_conns demo_hub !! 0 = Some (Some (ClientFrame sid (Some (CHandshake hs)))) ∧
    hs_signature hs = lit "secret".
Proof.
  assert (h_sessions demo_hub !! 0 = Some (demo_hub_session demo_hub)) as Hs by (by vm_compute).
  split; [done|].
  destruct (sessions_authenticated demo_method demo_config demo_hub 0 _ demo_registry_ok demo_hub_reach Hs)
    as (c & sid & hs & sc & Hc & Hf & Hsc & Hsig & _).
  exists sid, hs. rewrite Hc; simpl. rewrite Hf. split; [done|].
  simpl in Hsc. apply lookup_singleton_Some in Hsc as [_ <-]. exact Hsig.
Defined.

Lemma registry_no_zombie_witness :
  h_registry demo_hub !! lit "app-demo" = Some 0 ∧
  ∃ c, h_conns demo_hub !! 0 = Some c ∧ registered_pc (hc_pc c) = true.
Proof.
  assert (h_registry demo_hub !! lit "app-demo" = Some 0) as Hr by (by vm_compute).
  split; [done|].
  destruct (registry_no_zombie demo_method demo_config demo_registry_ok demo_hub _ _ demo_hub_reach Hr)
    as (c & _ & _ & Hc & _ & _ & Hpc & _). eauto.
Defined.

Lemma connected_gauge_accounting_witness :
  metric_value MConnected (h_log demo_hub) = 1%Z.
Proof.
  rewrite (connected_gauge_accounting demo_method demo_config
    (hub_arrive 0 ++ hub_ticks 0 1 ++ hub_bind 0) demo_hub); by vm_compute.
Defined.

Lemma displaced_listener_keeps_waiting_witness :
  ∃ h' w', exec demo_hub_step_nowrap (hub_arrive 1 ++ hub_ticks 1 4) demo_hub_waiting = Some h' ∧
    session_closed 0 h' = true ∧
    h_sessions h' !! 0 = Some w' ∧ w_accept w' !! 0 = Some (Acceptor (lit "svc:80") AcAccept).
Proof.
  set (h' := default hub_empty (exec demo_hub_step_nowrap (hub_arrive 1 ++ hub_ticks 1 4) demo_hub_waiting)).
  assert (exec demo_hub_step_nowrap (hub_arrive 1 ++ hub_ticks 1 4) demo_hub_waiting = Some h') as He.
  { unfold h'. assert (is_Some (exec demo_hub_step_nowrap (hub_arrive 1 ++ hub_ticks 1 4) demo_hub_waiting)) as [x ->]
      by (apply (bool_decide_unpack _); by vm_compute). done. }
  destruct (displaced_listener_keeps_waiting demo_method demo_config demo_registry_ok
    (hub_arrive 1 ++ hub_ticks 1 4) demo_hub_waiting h' 0 (demo_hub_session demo_hub_waiting) 0
    (Acceptor (lit "svc:80") AcAccept) demo_hub_waiting_reach) as (w' & Hw' & Ha);
    [by vm_compute|by vm_compute|done|by vm_compute|done|].
  exists h', w'. split_and!; [done|by vm_compute|done|done].
Defined.

Lemma connect_sends_challenge_witness :
  ∃ q, connect 5 [] 7 demo_hub = Some (put_conn 5 (HubConn HcFirst q None None [] false) demo_hub) ∧
    mpsc_queued q = [challenge_frame [] 7].
Proof.
  destruct (connect_sends_challenge 5 [] 7 demo_hub) as (q & Hq & Hl & _); [by vm_compute|]. eauto.
Defined.

Lemma handshake_decides_witness :
  let h := hub_after [HConnect 0 [] 0] in
  let bad := ClientFrame 0 (Some (CHandshake (HandshakeResponse (lit "app-demo") (lit "wrong") []))) in
  ∃ h' reason, hub_step demo_method demo_config (HConn 0 (HFirst bad)) h = Some h' ∧
    verify_first demo_config (Some bad) = Err reason ∧ reason = lit "bad_token" ∧
    h_log h' = h_log h ++ [inc (MHandshakeFail reason)].
Proof.
  set (h := hub_after [HConnect 0 [] 0]).
  set (bad := ClientFrame 0 (Some (CHandshake (HandshakeResponse (lit "app-demo") (lit "wrong") [])))).
  cbv zeta. set (h' := default hub_empty (hub_step demo_method demo_config (HConn 0 (HFirst bad)) h)).
  assert (hub_step demo_method demo_config (HConn 0 (HFirst bad)) h = Some h') as HS by (by vm_compute).
  destruct (handshake_decides demo_method demo_config 0 (HubConn HcFirst (Queue [challenge_frame [] 0] 256 true) None None [] false)
    (HFirst bad) (Some bad) h h') as [(sid & hs & sc & Hf & Hsc & Hsig & _)|(_ & _ & _ & _ & reason & Hv & Hl)].
  - by vm_compute.
  - done.
  - right. by exists bad.
  - done.
  - exfalso. simplify_eq/=. apply lookup_singleton_Some in Hsc as [_ <-]. done.
  - exists h', reason. split_and!; try done. vm_compute in Hv. by simplify_eq.
Defined.

Lemma handle_connection_terminates_witness :
  let ls := hub_arrive 0 ++ hub_ticks 0 1 in
  own_steps (of_conn 0) ls = 2 ∧
  ∃ c, h_conns (hub_after ls) !! 0 = Some c ∧ hc_pc c = HcBind (sc_ports demo_spoke) ∧
    is_Some (demo_hub_step (HConn 0 HBound) (hub_after ls)) ∧ is_Some (demo_hub_step (HConn 0 HBindErr) (hub_after ls)).
Proof.
  cbv zeta. split; [by vm_compute|].
  set (c := default (HubConn HcDone (mpsc_channel 0) None None [] false)
    (h_conns (hub_after (hub_arrive 0 ++ hub_ticks 0 1)) !! 0)).
  assert (h_conns (hub_after (hub_arrive 0 ++ hub_ticks 0 1)) !! 0 = Some c) as Hc by (by vm_compute).
  assert (hc_pc c = HcBind (sc_ports demo_spoke)) as Hpc by (by vm_compute).
  exists c. split; [exact Hc|]. split; [exact Hpc|].
  destruct (handle_connection_terminates demo_method demo_config demo_registry_ok (hub_arrive 0 ++ hub_ticks 0 1)
    (hub_after (hub_arrive 0 ++ hub_ticks 0 1)) 0 c) as [_ [Hd|[[Hrc _]|Hready]]].
  - by apply hub_after_exec; vm_compute.
  - exact Hc.
  - rewrite Hpc in Hd. discriminate Hd.
  - rewrite Hpc in Hrc. discriminate Hrc.
  - rewrite Hpc in Hready. split; by apply Hready.
Defined.
