(* ===== verification/MetricsWitness.v ===== *)
(** * tunnel-server: concrete metrics

    A registry that keeps its children in a map and prints one line per sample;
    the metrics of the session of [SessionWitness] and of a hub with an open stream. *)
From S2P Require Import Prelude RustStd SockAddr Proto ServerConfig Channel ServerMetrics ServerHttp ServerSession SessionTrans SessionDelivery SessionStreams SessionInbound SessionClose SessionHttp SessionReplies SessionWitness ServerHub HubSessions HubRegistry HubTermination HubMetrics ServerMain HubScrape HubWitness.

(** The registered collectors, and the children by series. *)
Definition map_registry : Type := list metric_desc * gmap (bytes * list bytes) Z.

Definition map_register (d : metric_desc) (r : map_registry) : result map_registry bytes :=
  if valid_desc d then
    if bool_decide (md_name d ∈ md_name <$> r.1) then Err (lit "duplicate")
    else Ok (r.1 ++ [d], if decide (md_labels d = []) then <[(md_name d, []) := 0%Z]> r.2 else r.2)
  else Err (lit "invalid").

Definition map_add (d : metric_desc) (ls : list bytes) (z : Z) (r : map_registry) : map_registry :=
  (r.1, <[(md_name d, ls) := (default 0 (r.2 !! (md_name d, ls)) + z)%Z]> r.2).

(** One family per child, with its name only. *)
Definition map_gather (r : map_registry) : list family :=
  (λ kz : (bytes * list bytes) * Z, (MetricDesc false kz.1.1 [] [], [(kz.1.2, kz.2)])) <$> map_to_list r.2.

Definition show_family (f : family) : bytes :=
  mjoin ((λ s : list bytes * Z, md_name f.1 ++ mjoin ((λ l, [x20] ++ l) <$> s.1) ++ [x20] ++ show_N (Z.to_N s.2) ++ [x0a]) <$> f.2).

Lemma map_gather_samples r : family_samples (map_gather r) = map_to_list r.2.
Proof.
  unfold family_samples, map_gather. induction (map_to_list r.2) as [|[[n ls] z] l IH]; [done|].
  simpl. f_equal. exact IH.
Qed.

#[export] Program Instance map_prometheus : Prometheus map_registry := {|
  prom_new := ([], ∅); prom_register := map_register; prom_add := map_add;
  prom_gather := map_gather; prom_text fs := mjoin (show_family <$> fs);
  prom_descs r := r.1; prom_value r s := r.2 !! s |}.
Next Obligation. done. Qed.
Next Obligation. intros s. apply lookup_empty. Qed.
Next Obligation.
  intros d r Hv Hn. unfold map_register. rewrite Hv, bool_decide_false by done.
  eexists. split_and!; [done|done|]. intros s. simpl. case_decide as Hl.
  - rewrite lookup_insert. repeat case_decide; naive_solver.
  - by rewrite decide_False by naive_solver.
Qed.
Next Obligation.
  intros d ls z r _ _ _. split; [done|]. intros s. simpl. rewrite lookup_insert.
  repeat case_decide; naive_solver.
Qed.
Next Obligation. intros r. rewrite map_gather_samples. apply NoDup_fst_map_to_list. Qed.
Next Obligation. intros r s z. rewrite map_gather_samples. apply elem_of_map_to_list. Qed.

Lemma session_counters_witness :
  metric_value (MBytesSent (lit "app-demo")) (w_log demo_open) = 2%Z ∧
  metric_value (MBytesSent (lit "app-demo")) (w_log demo_open) = Z.of_nat (read_bytes (w_log demo_open)).
Proof.
  split; [by vm_compute|].
  exact (proj1 (session_counters demo_method demo_config demo_spoke demo_open (reachable_nowrap _ _ _ _ demo_open_reach))).
Defined.

(** A hub whose session has accepted a connection and read two bytes from it, and
    that has refused a second spoke. *)
Definition streaming_run : list hub_label :=
  hub_arrive 0 ++ hub_ticks 0 1 ++ hub_bind 0 ++
  (HSess 0 <$> [LAccept 0 Tick; LAccept 0 (Accepted 0); LAccept 0 Tick; LAccept 0 Tick; LAccept 0 Tick;
                LUp 0 (ReadOk (lit "hi")); LUp 0 Tick]) ++
  [HConnect 1 [] 0; HConn 1 HFirstFail].
Definition hub_streaming : hub queue := hub_after streaming_run.
Definition no_reply : http_reply := HttpReply 404 [].
Definition demo_registry : map_registry := match metrics_new with Ok r => r | Err _ => prom_new end.
Definition demo_scrape : map_registry := metric_calls demo_registry (hub_calls hub_streaming).

Lemma scrape_reports_hub_witness :
  exec demo_hub_step_nowrap streaming_run hub_empty = Some hub_streaming ∧
  metrics_app no_reply no_reply demo_scrape (lit "GET") (lit "/metrics")
    = HttpReply 200 (prom_text (prom_gather demo_scrape)) ∧
  (series MConnected, 1%Z) ∈ family_samples (prom_gather demo_scrape) ∧
  (series (MHandshakeFail (lit "recv_first")), 1%Z) ∈ family_samples (prom_gather demo_scrape) ∧
  (series (MBytesSent (lit "app-demo")), 2%Z) ∈ family_samples (prom_gather demo_scrape).
Proof.
  assert (exec demo_hub_step_nowrap streaming_run hub_empty = Some hub_streaming) as He.
  { apply hub_after_exec. by vm_compute. }
  split; [exact He|].
  assert (utf8_valid (prom_text (prom_gather demo_scrape)) = true) as Hu by (vm_compute; reflexivity).
  assert (metrics_new = Ok demo_registry) as Hr.
  { destruct (metrics_new_registers (registry:=map_registry)) as (r & Hr & _). unfold demo_registry. by rewrite Hr. }
  assert (hub_calls hub_streaming ≡ₚ hub_calls hub_streaming) as Hp by apply Permutation_refl.
  destruct (scrape_reports_hub demo_method demo_config demo_registry_ok no_reply no_reply streaming_run hub_streaming
    demo_registry (hub_calls hub_streaming) He Hr Hp Hu) as (Happ & _ & Hc & Hf & Hb).
  split; [exact Happ|]. split; [|split].
  - replace 1%Z with (Z.of_nat (size (h_registry hub_streaming)
      + count_overwrites demo_method demo_config streaming_run hub_empty)) by (vm_compute; reflexivity). exact Hc.
  - apply (Hf (lit "recv_first")). vm_compute. discriminate.
  - apply (Hb (lit "app-demo")). vm_compute. discriminate.
Defined.

Lemma server_starts_witness :
  let env := ServerEnv demo_env (Ok tt) (Err (lit "in use")) None (Ok tt) in
  is_ok (load_server_config demo_env) = true ∧
  ∃ s, server_main (registry:=map_registry) (chan:=queue) env = ServerServes s.
Proof.
  intros env. split; [by vm_compute|].
  apply (server_starts (registry:=map_registry) (chan:=queue) env). split; by vm_compute.
Defined.
