(* ===== verification/ClientConfig.v ===== *)
(** * tunnel-client: configuration and frames

    [load_config] of [spoke/images/tunnel-client/src/main.rs] with its error
    texts, and the frame helpers.  [{:?}] of a string escapes what Rust's Unicode
    tables call unprintable; the tables are the class [UnicodeTables]. *)
From S2P Require Import Prelude RustStd Proto ServerConfig ServerHub.

(** ** [Debug] of [str] *)

(** Rust's tables [is_printable] and [Grapheme_Extend], by scalar value. *)
Class UnicodeTables := { is_printable : N → bool; grapheme_extended : N → bool }.

(** The characters of a UTF-8 string, each with its bytes. *)
Definition cont (b : byte) : N := N.land (byte_val b) 63.
Fixpoint utf8_chars (s : bytes) : list (N * bytes) :=
  match s with
  | [] => []
  | a :: s1 =>
      let single := (byte_val a, [a]) :: utf8_chars s1 in
      if (byte_val a <? 128)%N then single
      else
        match s1 with
        | [] => single
        | b :: s2 =>
            if (byte_val a <? 224)%N then
              ((N.land (byte_val a) 31 * 64 + cont b)%N, [a; b]) :: utf8_chars s2
            else
              match s2 with
              | [] => single
              | c :: s3 =>
                  if (byte_val a <? 240)%N then
                    (((N.land (byte_val a) 15 * 64 + cont b) * 64 + cont c)%N, [a; b; c]) :: utf8_chars s3
                  else
                    match s3 with
                    | [] => single
                    | d :: s4 =>
                        ((((N.land (byte_val a) 7 * 64 + cont b) * 64 + cont c) * 64 + cont d)%N,
                          [a; b; c; d]) :: utf8_chars s4
                    end
              end
        end
  end.

(** [\u{...}] in lowercase hexadecimal. *)
Definition hex_digit (d : N) : byte := if (d <? 10)%N then of_val (48 + d) else of_val (87 + d).
Fixpoint show_hex_fuel (fuel : nat) (n : N) : bytes :=
  match fuel with
  | O => []
  | S fuel' => if (n <? 16)%N then [hex_digit n] else show_hex_fuel fuel' (n / 16) ++ [hex_digit (n mod 16)]
  end.
Definition unicode_escape (c : N) : bytes :=
  lit "\u{" ++ show_hex_fuel (S (N.size_nat c)) c ++ lit "}".

Section debug.
Context {HU : UnicodeTables}.

Definition escape_debug (c : N) (raw : bytes) : bytes :=
  if (c =? 0)%N then lit "\0"
  else if (c =? 9)%N then lit "\t"
  else if (c =? 13)%N then lit "\r"
  else if (c =? 10)%N then lit "\n"
  else if (c =? 92)%N then lit "\\"
  else if (c =? 34)%N then [x5c; x22]
  else if grapheme_extended c then unicode_escape c
  else if is_printable c then raw
  else unicode_escape c.

Definition debug_str (s : bytes) : bytes :=
  [x22] ++ mjoin ((λ cr : N * bytes, escape_debug cr.1 cr.2) <$> utf8_chars s) ++ [x22].
End debug.

(** ** Configuration *)
Record client_config := ClientConfig {
  hub_url : bytes;
  spoke_id : bytes;
  token : bytes;
  targets : gmap bytes bytes;
  insecure : bool;
  backoff_min : N;           (* seconds *)
  backoff_max : N;
  kernel_proxy_listen : option bytes }.

Section client_config.
Context {HU : UnicodeTables}.

Definition env_or_empty (env : env_vars) (k : bytes) : bytes := default [] (env k).

(** One [name=host:port] of TARGETS, trimmed and not empty. *)
Definition parse_target (entry : bytes) : result (bytes * bytes) bytes :=
  match find_byte x3d entry with
  | None => Err (lit "bad TARGETS entry (expected name=host:port): " ++ debug_str entry)
  | Some eq_ =>
      let name := trim (take eq_ entry) in
      let host_port := trim (drop (eq_ + 1) entry) in
      if bool_decide (name = []) || bool_decide (host_port = [])
      then Err (lit "empty name or host:port in TARGETS entry: " ++ debug_str entry)
      else Ok (name, host_port)
  end.

Fixpoint parse_targets (entries : list bytes) (acc : gmap bytes bytes) : result (gmap bytes bytes) bytes :=
  match entries with
  | [] => Ok acc
  | entry :: rest =>
      let entry := trim entry in
      match entry with
      | [] => parse_targets rest acc
      | _ :: _ => let? kv := parse_target entry in parse_targets rest (<[kv.1 := kv.2]> acc)
      end
  end.

Definition load_targets (env : env_vars) : result (gmap bytes bytes) bytes :=
  let target_single := env_or_empty env (lit "TARGET") in
  let raw := trim (env_or_empty env (lit "TARGETS")) in
  let? m := match raw with [] => Ok ∅ | _ :: _ => parse_targets (split_on x2c raw) ∅ end in
  Ok (match target_single with
      | [] => m
      | _ :: _ => match m !! lit "default" with Some _ => m | None => <[lit "default" := target_single]> m end
      end).

Definition load_client_config (env : env_vars) : result client_config bytes :=
  let hub_url := env_or_empty env (lit "HUB_URL") in
  let spoke_id := env_or_empty env (lit "SPOKE_ID") in
  let token := env_or_empty env (lit "TUNNEL_TOKEN") in
  let insecure :=
    match env (lit "TUNNEL_INSECURE") with Some v => eq_ignore_ascii_case v (lit "true") | None => false end in
  let kernel_proxy_listen :=
    match env (lit "KERNEL_PROXY_LISTEN") with
    | Some s => match trim s with [] => None | b :: t => Some (b :: t) end
    | None => None
    end in
  let? targets := load_targets env in
  if bool_decide (hub_url = []) || bool_decide (spoke_id = []) || bool_decide (token = [])
  then Err (lit "HUB_URL / SPOKE_ID / TUNNEL_TOKEN are required")
  else if bool_decide (targets = ∅) && negb (starts_with (lit "app-") spoke_id)
  then Err (lit "TARGET or TARGETS is required")
  else Ok (ClientConfig hub_url spoke_id token targets insecure 1 30 kernel_proxy_listen).
End client_config.

(** ** Frame helpers *)
Definition client_version : bytes := lit "tc-rust/0.1.0".
Definition client_http_request (sid : N) (req : http_request) : client_frame :=
  ClientFrame sid (Some (CHttpRequest req)).
Definition client_close (sid : N) (half : bool) (reason : bytes) : client_frame :=
  ClientFrame sid (Some (CClose (CloseStream half reason))).
Definition client_data (sid : N) (payload : bytes) : client_frame :=
  ClientFrame sid (Some (CData payload)).
Definition client_handshake (spoke_id token : bytes) : client_frame :=
  ClientFrame 0 (Some (CHandshake (HandshakeResponse spoke_id token client_version))).
Definition client_pong (sent_at : Z) : client_frame := ClientFrame 0 (Some (CPong sent_at)).

(** ** The documented form of TARGETS *)
Definition render_target (kv : bytes * bytes) : bytes := kv.1 ++ x3d :: kv.2.
Definition render_targets (kvs : list (bytes * bytes)) : bytes := join x2c (render_target <$> kvs).

Record wf_target (kv : bytes * bytes) : Prop := {
  wft_name : kv.1 ≠ [] ∧ Forall graphic kv.1 ∧ x3d ∉ kv.1 ∧ x2c ∉ kv.1;
  wft_addr : kv.2 ≠ [] ∧ Forall graphic kv.2 ∧ x2c ∉ kv.2 }.

Definition targets_of (kvs : list (bytes * bytes)) (m : gmap bytes bytes) : gmap bytes bytes :=
  foldl (λ m kv, <[kv.1 := kv.2]> m) m kvs.

(** TARGET fills in the target called "default". *)
Definition with_default (single : bytes) (m : gmap bytes bytes) : gmap bytes bytes :=
  match single, m !! lit "default" with
  | [], _ | _, Some _ => m
  | _, None => <[lit "default" := single]> m
  end.

Section client_config_facts.
Context {HU : UnicodeTables}.

Lemma render_target_graphic kv : wf_target kv → Forall graphic (render_target kv).
Proof.
  intros [(_ & Hn & _) (_ & Ha & _)]. apply Forall_app; split; [done|]. by constructor.
Qed.

Lemma render_target_no_comma kv : wf_target kv → x2c ∉ render_target kv.
Proof.
  intros [(_ & _ & _ & Hn) (_ & _ & Ha)]. unfold render_target.
  rewrite not_elem_of_app, not_elem_of_cons. done.
Qed.

Lemma parse_target_render kv : wf_target kv → parse_target (render_target kv) = Ok kv.
Proof.
  intros [(Hne & Hn & Heq & _) (Hae & Ha & _)]. unfold parse_target, render_target.
  rewrite find_byte_app, take_app_length, Nat.add_1_r by done.
  rewrite (trim_all_graphic kv.1) by done.
  assert (drop (S (length kv.1)) (kv.1 ++ x3d :: kv.2) = kv.2) as ->.
  { replace (S (length kv.1)) with (length kv.1 + 1) by lia. by rewrite <-drop_drop, drop_app_length. }
  rewrite trim_all_graphic by done. rewrite !bool_decide_false by done. by destruct kv.
Qed.

Lemma parse_targets_render kvs m :
  Forall wf_target kvs → parse_targets (render_target <$> kvs) m = Ok (targets_of kvs m).
Proof.
  intros H. revert m. induction H as [|kv kvs Hkv _ IH]; intros m; simpl; [done|].
  rewrite trim_all_graphic by (by apply render_target_graphic).
  destruct (render_target kv) as [|b l] eqn:Hr; [by destruct kv as [[] ?]|].
  rewrite <-Hr, parse_target_render by done. simpl. apply IH.
Qed.

Lemma render_targets_graphic kvs : Forall wf_target kvs → Forall graphic (render_targets kvs).
Proof.
  intros H. apply join_graphic; [done|]. eapply Forall_fmap_intro; [|done]. apply render_target_graphic.
Qed.

Lemma with_default_eq single m :
  (match single with
   | [] => m
   | _ :: _ => match m !! lit "default" with Some _ => m | None => <[lit "default" := single]> m end
   end) = with_default single m.
Proof. unfold with_default. destruct single; [done|]. by destruct (m !! lit "default"). Qed.

Definition target_entry_ok (kv : bytes * bytes) : Prop := kv.1 ≠ [] ∧ kv.2 ≠ [].

Lemma parse_target_ok entry kv : parse_target entry = Ok kv → target_entry_ok kv.
Proof.
  unfold parse_target. destruct (find_byte x3d entry); [|done].
  destruct (bool_decide (trim _ = [])) eqn:H1, (bool_decide (trim (drop _ _) = [])) eqn:H2; try done.
  intros [= <-]. apply bool_decide_eq_false in H1, H2. done.
Qed.

Definition targets_ok (m : gmap bytes bytes) : Prop :=
  ∀ name addr, m !! name = Some addr → name ≠ [] ∧ addr ≠ [].

Lemma parse_targets_ok entries m m' :
  targets_ok m → parse_targets entries m = Ok m' → targets_ok m'.
Proof.
  revert m. induction entries as [|e es IH]; intros m Hm HP; simplify_eq/=; [done|].
  destruct (trim e) as [|b l]; [by eapply IH|].
  apply result_bind_ok in HP as (kv & Hkv & HP). eapply IH; [|done].
  intros name addr. rewrite lookup_insert. case_decide; [|apply Hm].
  intros [= <-]. subst. by eapply parse_target_ok.
Qed.

Lemma load_targets_ok env m : load_targets env = Ok m → targets_ok m.
Proof.
  unfold load_targets. intros (m0 & Hm0 & H)%result_bind_ok. rewrite with_default_eq in H. simplify_eq/=.
  assert (targets_ok m0) as Hok.
  { destruct (trim _); simplify_eq; [by intros ??; rewrite lookup_empty|].
    eapply parse_targets_ok; [|done]. by intros ??; rewrite lookup_empty. }
  unfold with_default. destruct (env_or_empty env (lit "TARGET")) as [|b l]; [done|].
  destruct (m0 !! lit "default"); [done|].
  intros name addr. rewrite lookup_insert. case_decide; [|apply Hok]. intros [= <-]. by subst.
Qed.

(** ** Properties *)

(** What an accepted client configuration guarantees: the three required
    variables are present, every target has a name and an address, and only an
    application spoke may go without targets. *)
Theorem load_client_config_ok env cfg :
  load_client_config env = Ok cfg →
  hub_url cfg ≠ [] ∧ spoke_id cfg ≠ [] ∧ token cfg ≠ [] ∧ targets_ok (targets cfg) ∧
  (targets cfg = ∅ → starts_with (lit "app-") (spoke_id cfg) = true) ∧
  backoff_min cfg = 1%N ∧ backoff_max cfg = 30%N ∧ kernel_proxy_listen cfg ≠ Some [].
Proof.
  unfold load_client_config. intros (m & Hm & H)%result_bind_ok.
  destruct (_ || _ || _) eqn:Hreq; [done|]. destruct (_ && _) eqn:Happ; [done|].
  injection H as <-. cbn [hub_url spoke_id token targets backoff_min backoff_max kernel_proxy_listen].
  rewrite !orb_false_iff, !bool_decide_eq_false in Hreq. destruct Hreq as [[Hh Hs] Ht].
  split_and!; try done.
  - by eapply load_targets_ok.
  - intros ->. rewrite bool_decide_true in Happ by done. by apply negb_false_iff in Happ.
  - by repeat case_match.
Qed.

(** C36: TARGETS in the documented form [name=host:port,...] is read back exactly,
    later entries replacing earlier ones, and TARGET fills in "default" only when
    TARGETS does not name it. *)
Theorem load_targets_roundtrip env kvs :
  kvs ≠ [] → Forall wf_target kvs → env (lit "TARGETS") = Some (render_targets kvs) →
  ∃ m, load_targets env = Ok m ∧
    ∀ name, m !! name =
      match targets_of kvs ∅ !! name with
      | Some addr => Some addr
      | None => if bool_decide (name = lit "default" ∧ env_or_empty env (lit "TARGET") ≠ [])
                then Some (env_or_empty env (lit "TARGET")) else None
      end.
Proof.
  intros Hne Hwf Henv. unfold load_targets.
  assert (env_or_empty env (lit "TARGETS") = render_targets kvs) as -> by (unfold env_or_empty; by rewrite Henv).
  rewrite trim_all_graphic by (by apply render_targets_graphic).
  assert (render_targets kvs ≠ []) as Hr.
  { destruct kvs as [|kv [|kv' kvs]]; [done|..]; unfold render_targets, render_target; simpl;
      by destruct (kv.1). }
  destruct (render_targets kvs) as [|b s] eqn:Hrt; [done|]. rewrite <-Hrt. unfold render_targets.
  rewrite split_on_join; [|by destruct kvs|by eapply Forall_fmap_intro; [apply render_target_no_comma|]].
  rewrite parse_targets_render by done.
  simpl. rewrite with_default_eq. eexists; split; [done|]. intros name.
  unfold with_default. destruct (env_or_empty env (lit "TARGET")) as [|c t].
  { destruct (targets_of kvs ∅ !! name); [done|]. rewrite bool_decide_false by naive_solver. done. }
  destruct (targets_of kvs ∅ !! lit "default") as [a|] eqn:Hd.
  - destruct (targets_of kvs ∅ !! name) eqn:Hn; [done|]. rewrite bool_decide_false by naive_solver. done.
  - rewrite lookup_insert. case_decide; [subst; rewrite Hd; by rewrite bool_decide_true|].
    destruct (targets_of kvs ∅ !! name); [done|]. rewrite bool_decide_false by naive_solver. done.
Qed.

(** C37: the two programs agree on the handshake: the frame the client sends is
    admitted by the hub exactly when the hub has the client's spoke id with the
    client's token. *)
Theorem handshake_agrees (hub_cfg : server_config) cfg :
  (∃ hs sc, verify_first hub_cfg (Some (client_handshake (spoke_id cfg) (token cfg))) = Ok (hs, sc)) ↔
  ∃ sc, spokes hub_cfg !! spoke_id cfg = Some sc ∧ sc_token sc = token cfg.
Proof.
  unfold verify_first, client_handshake; simpl. split.
  - intros (hs & sc & Hv). destruct (spokes hub_cfg !! spoke_id cfg) as [sc'|]; [|done].
    case_bool_decide; simplify_eq. eauto.
  - intros (sc & -> & <-). rewrite bool_decide_true by done. eauto.
Qed.
End client_config_facts.

(** ** Witnesses *)
Definition ascii_tables : UnicodeTables :=
  {| is_printable c := ((32 <=? c) && (c <? 127))%N; grapheme_extended _ := false |}.

Definition demo_targets : list (bytes * bytes) :=
  [(lit "default", lit "mcp:8000"); (lit "apiserver", lit "kubernetes:443")].

Definition demo_client_env (k : bytes) : option bytes :=
  if bool_decide (k = lit "TARGETS") then Some (render_targets demo_targets)
  else if bool_decide (k = lit "TARGET") then Some (lit "old:1")
  else if bool_decide (k = lit "HUB_URL") then Some (lit "hub:443")
  else if bool_decide (k = lit "SPOKE_ID") then Some (lit "edge")
  else if bool_decide (k = lit "TUNNEL_TOKEN") then Some (lit "secret") else None.

Definition demo_client_config : client_config :=
  match load_client_config (HU:=ascii_tables) demo_client_env with
  | Ok cfg => cfg
  | Err _ => ClientConfig [] [] [] ∅ false 0 0 None
  end.

Lemma demo_targets_wf : Forall wf_target demo_targets.
Proof. repeat constructor; simpl; try done; by apply (bool_decide_unpack _); vm_compute. Qed.

Example debug_str_escapes :
  debug_str (HU:=ascii_tables) (lit "a\" ++ [x22; x0a]) = [x22] ++ lit "a\\\" ++ [x22] ++ lit "\n" ++ [x22].
Proof. by vm_compute. Qed.

Lemma load_targets_roundtrip_witness :
  render_targets demo_targets = lit "default=mcp:8000,apiserver=kubernetes:443" ∧
  ∃ m, load_targets (HU:=ascii_tables) demo_client_env = Ok m ∧ m !! lit "default" = Some (lit "mcp:8000").
Proof.
  split; [by vm_compute|].
  destruct (load_targets_roundtrip (HU:=ascii_tables) demo_client_env demo_targets) as (m & Hm & Hl);
    [done|apply demo_targets_wf|by vm_compute|].
  exists m. split; [done|]. rewrite Hl. by vm_compute.
Defined.

Lemma load_client_config_ok_witness :
  hub_url demo_client_config ≠ [] ∧ backoff_max demo_client_config = 30%N.
Proof.
  assert (load_client_config (HU:=ascii_tables) demo_client_env = Ok demo_client_config) as Hl
    by (by vm_compute).
  destruct (load_client_config_ok (HU:=ascii_tables) demo_client_env _ Hl) as (Hh & _ & _ & _ & _ & _ & Hb & _). done.
Defined.
