(* ===== verification/Oneshot.v ===== *)
(** * One-shot channels

    tokio's [oneshot] as a parameter: a channel is pending until its sender sends
    a value or is dropped; a send fails once the receiver is gone. *)
From S2P Require Import Prelude.

Inductive oneshot_state (A : Type) := OsPending | OsValue (a : A) | OsClosed.
Arguments OsPending {A}.
Arguments OsValue {A} a.
Arguments OsClosed {A}.

Class OneshotOps (os : Type → Type) := {
  oneshot_channel {A} : os A;
  oneshot_send {A} : A → os A → os A;        (* Err is ignored by every caller *)
  oneshot_drop_tx {A} : os A → os A;
  oneshot_drop_rx {A} : os A → os A;
  oneshot_poll {A} : os A → oneshot_state A;
  oneshot_rx_alive {A} : os A → bool }.

Class Oneshot (os : Type → Type) `{!OneshotOps os} := {
  oneshot_new A : oneshot_poll (oneshot_channel (A:=A)) = OsPending;
  oneshot_new_alive A : oneshot_rx_alive (oneshot_channel (A:=A)) = true;
  oneshot_send_alive A (a : A) o :
    oneshot_rx_alive o = true → oneshot_poll o = OsPending → oneshot_poll (oneshot_send a o) = OsValue a;
  oneshot_send_rx A (a : A) o : oneshot_rx_alive (oneshot_send a o) = oneshot_rx_alive o;
  oneshot_drop_tx_poll A (o : os A) : oneshot_poll o = OsPending → oneshot_poll (oneshot_drop_tx o) = OsClosed;
  oneshot_drop_tx_rx A (o : os A) : oneshot_rx_alive (oneshot_drop_tx o) = oneshot_rx_alive o;
  oneshot_drop_rx_alive A (o : os A) : oneshot_rx_alive (oneshot_drop_rx o) = false }.

(** ** The reference instance *)
Record slot (A : Type) := Slot { slot_state : oneshot_state A; slot_rx : bool }.
Arguments Slot {A} _ _.
Arguments slot_state {A} _.
Arguments slot_rx {A} _.

#[export] Instance slot_ops : OneshotOps slot := {
  oneshot_channel A := Slot OsPending true;
  oneshot_send A a o :=
    match slot_state o, slot_rx o with OsPending, true => Slot (OsValue a) true | _, _ => o end;
  oneshot_drop_tx A o := match slot_state o with OsPending => Slot OsClosed (slot_rx o) | _ => o end;
  oneshot_drop_rx A o := Slot (slot_state o) false;
  oneshot_poll A o := slot_state o;
  oneshot_rx_alive A o := slot_rx o }.

#[export] Instance slot_oneshot : Oneshot slot.
Proof.
  split; simpl; intros; try done.
  - by rewrite H, H0.
  - by destruct (slot_state o), (slot_rx o) eqn:?.
  - by rewrite H.
  - by destruct (slot_state o).
Qed.
