(* ===== verification/ClientProxy.v ===== *)
(** * tunnel-client: the HTTP proxy

    [SharedProxyState] and [handle_http_proxy]: the HTTP server of an application
    spoke turns each request of its local callers into a frame on the current
    session and waits for the response under the request's stream id.  The
    handlers and the session share the current sender, the map of pending
    requests and the id counter; each handler is a task with a program counter.

    Parameters, all of crates outside the repository: tokio's channels; the
    [http] crate's [StatusCode::from_u16], [HeaderName] and [HeaderValue]
    conversions, and the error of its response builder, if any. *)
From S2P Require Import Prelude RustStd Proto ServerConfig Channel Oneshot ServerHttp ClientConfig.

(** ** Requests and responses of the local HTTP server *)
Record local_request := LocalRequest {
  lr_method : bytes;
  lr_path_and_query : option bytes;
  lr_path : bytes;
  lr_headers : list (bytes * option bytes) }.      (* value: to_str *)

Record local_response := LocalResponse {
  lp_status : N;
  lp_headers : list (bytes * bytes);
  lp_body : bytes }.

#[export] Instance local_response_eq_dec : EqDecision local_response.
Proof. solve_decision. Defined.

Definition plain_response (status : N) (body : bytes) : local_response := LocalResponse status [] body.

(** The protobuf request [handle_http_proxy] builds. *)
Definition proxied_request (r : local_request) (body : bytes) : http_request :=
  HttpRequest (lr_method r) (default (lr_path r) (lr_path_and_query r)) (collect_headers (lr_headers r)) body.

Definition session_ended_response : http_response :=
  HttpResponse 503 ∅ (lit "tunnel session ended") (lit "tunnel session ended").

(** [status as u16] of an i32. *)
Definition as_u16 (z : Z) : N := Z.to_N (z mod 65536).

Section response.
Context {HI : HashIter}.
Context (status_from_u16 : N → option N) (header_name header_value : bytes → option bytes).
Context (builder_error : list (bytes * bytes) → option bytes).

Definition status_or_502 (z : Z) : N := default 502%N (status_from_u16 (as_u16 z)).

(** Status, headers and body of the answer to a tunnel response. *)
Definition response_parts (r : http_response) : N * gmap bytes bytes * bytes :=
  match resp_error r with
  | [] => (status_or_502 (resp_status r), resp_headers r, resp_body r)
  | _ :: _ =>
      if (0 <? resp_status r)%Z then
        (status_or_502 (resp_status r), resp_headers r,
         match resp_body r with [] => resp_error r | _ :: _ => resp_body r end)
      else (502%N, ∅, resp_error r)
  end.

Definition out_headers (hs : gmap bytes bytes) : list (bytes * bytes) :=
  omap (λ kv : bytes * bytes,
    match header_name kv.1, header_value kv.2 with Some n, Some v => Some (n, v) | _, _ => None end)
    (hash_iter hs).

Definition local_response_of (r : http_response) : local_response :=
  let '(status, headers, body) := response_parts r in
  let hs := out_headers headers in
  match builder_error hs with
  | None => LocalResponse status hs body
  | Some e => plain_response 500 (lit "build failed: " ++ e)
  end.
End response.

(** ** State *)
Inductive proxy_pc :=
| PxBody                              (* to_bytes(body) *)
| PxHub (req : http_request)          (* hub_tx.read(): clone the sender *)
| PxId (req : http_request) (s : nat) (* next_stream_id *)
| PxInsert (req : http_request) (s : nat) (sid : N)  (* pending.insert *)
| PxSend (req : http_request) (s : nat) (sid : N)    (* hub_tx.send *)
| PxUnsent (sid : N)                  (* pending.remove after a failed send *)
| PxWait (sid : N)                    (* timeout(60 s, resp_rx) *)
| PxExpired (sid : N)                 (* pending.remove after the timeout *)
| PxDone (resp : local_response)
| PxGone.                             (* dropped with its caller's connection *)

Record handler (os : Type → Type) := Handler {
  pr_req : local_request;
  pr_pc : proxy_pc;
  pr_sid : option N;                  (* let sid *)
  pr_slot : os http_response }.       (* resp_tx / resp_rx *)
Arguments Handler {os} _ _ _ _.
Arguments pr_req {os} _.
Arguments pr_pc {os} _.
Arguments pr_sid {os} _.
Arguments pr_slot {os} _.

(** What the model records: the frames sent on session [s] and the responses
    received from the hub. *)
Inductive proxy_obs :=
| PSent (k s : nat) (sid : N) (req : http_request)
| PReceived (s : nat) (sid : N) (r : http_response).

#[export] Instance proxy_obs_eq_dec : EqDecision proxy_obs.
Proof. solve_decision. Defined.

Record proxy_world (chan os : Type → Type) := ProxyWorld {
  px_hub_tx : option nat;              (* the session whose sender is attached *)
  px_pending : gmap N nat;             (* stream id -> the handler whose resp_tx it is *)
  px_counter : N;
  px_handlers : gmap nat (handler os);
  px_sessions : gmap nat (chan client_frame);
  px_log : list proxy_obs }.
Arguments ProxyWorld {chan os} _ _ _ _ _ _.
Arguments px_hub_tx {chan os} _.
Arguments px_pending {chan os} _.
Arguments px_counter {chan os} _.
Arguments px_handlers {chan os} _.
Arguments px_sessions {chan os} _.
Arguments px_log {chan os} _.

Inductive proxy_event :=
| PTick
| PBodyOk (body : bytes)
| PBodyErr (e : bytes)
| PTimeout.

Inductive proxy_label :=
| PRequest (k : nat) (r : local_request)      (* axum calls the handler *)
| PHandler (k : nat) (e : proxy_event)
| PCancel (k : nat)                           (* the caller hangs up: the handler is dropped *)
| PSession (s : nat)                          (* a session's channel is created *)
| PAttach (s : nat)                           (* attach_hub *)
| PDetach                                     (* detach_hub_and_flush: hub_tx = None *)
| PFlush                                      (*   drain the pending map *)
| PResponse (s : nat) (sid : N) (r : http_response)  (* HttpResponse frame of session s *)
| PTake (s : nat)                             (* tonic takes a frame of session s *)
| PDropRx (s : nat).                          (* tonic drops its stream *)

Section setters.
Context {chan os : Type → Type}.
Implicit Types (w : proxy_world chan os).
Definition px_set_hub (o : option nat) w : proxy_world chan os :=
  ProxyWorld o (px_pending w) (px_counter w) (px_handlers w) (px_sessions w) (px_log w).
Definition px_set_pending (m : gmap N nat) w : proxy_world chan os :=
  ProxyWorld (px_hub_tx w) m (px_counter w) (px_handlers w) (px_sessions w) (px_log w).
Definition px_set_counter (n : N) w : proxy_world chan os :=
  ProxyWorld (px_hub_tx w) (px_pending w) n (px_handlers w) (px_sessions w) (px_log w).
Definition px_set_handlers (m : gmap nat (handler os)) w : proxy_world chan os :=
  ProxyWorld (px_hub_tx w) (px_pending w) (px_counter w) m (px_sessions w) (px_log w).
Definition px_set_session (s : nat) (q : chan client_frame) w : proxy_world chan os :=
  ProxyWorld (px_hub_tx w) (px_pending w) (px_counter w) (px_handlers w) (<[s := q]> (px_sessions w)) (px_log w).
Definition px_add_log (l : list proxy_obs) w : proxy_world chan os :=
  ProxyWorld (px_hub_tx w) (px_pending w) (px_counter w) (px_handlers w) (px_sessions w) (px_log w ++ l).
Definition set_handler (k : nat) (h : handler os) w : proxy_world chan os :=
  px_set_handlers (<[k := h]> (px_handlers w)) w.
End setters.

Section client_proxy.
Context {chan os : Type → Type} `{!MpscOps chan} `{!OneshotOps os} {HI : HashIter}.
Context (status_from_u16 : N → option N) (header_name header_value : bytes → option bytes).
Context (builder_error : list (bytes * bytes) → option bytes).
Implicit Types (w : proxy_world chan os) (h : handler os).

Definition set_slot (f : os http_response → os http_response) h : handler os :=
  Handler (pr_req h) (pr_pc h) (pr_sid h) (f (pr_slot h)).
Definition set_pc (pc : proxy_pc) h : handler os := Handler (pr_req h) pc (pr_sid h) (pr_slot h).

(** [pending.insert]: a sender it replaces is dropped. *)
Definition pending_insert (sid : N) (k : nat) w : proxy_world chan os :=
  let w := match px_pending w !! sid with
           | Some k' => px_set_handlers (alter (set_slot oneshot_drop_tx) k' (px_handlers w)) w
           | None => w
           end in
  px_set_pending (<[sid := k]> (px_pending w)) w.

(** [pending.remove]: the sender is dropped, or used by [resolve]. *)
Definition pending_remove (f : os http_response → os http_response) (sid : N) w : proxy_world chan os :=
  match px_pending w !! sid with
  | Some k =>
      px_set_pending (delete sid (px_pending w)) (px_set_handlers (alter (set_slot f) k (px_handlers w)) w)
  | None => w
  end.

(** The limit given to [axum::body::to_bytes]: a longer body is an error. *)
Definition body_cap : N := 32 * 1024 * 1024.

(** [handle_http_proxy] from one await point to the next. *)
Definition handler_step (k : nat) h (e : proxy_event) w : option (proxy_world chan os) :=
  let goto pc := set_handler k (set_pc pc h) in
  let finish status body := goto (PxDone (plain_response status body)) in
  match pr_pc h, e with
  | PxBody, PBodyOk body =>
      if (N.of_nat (length body) <=? body_cap)%N
      then Some (goto (PxHub (proxied_request (pr_req h) body)) w) else None
  | PxBody, PBodyErr e => Some (finish 400%N (lit "body read failed: " ++ e) w)
  | PxHub req, PTick =>
      match px_hub_tx w with
      | Some s => Some (goto (PxId req s) w)
      | None => Some (finish 503%N (lit "tunnel not connected") w)
      end
  | PxId req s, PTick =>
      let '(sid, next) := fetch_add1 (px_counter w) in
      Some (set_handler k (Handler (pr_req h) (PxInsert req s sid) (Some sid) (pr_slot h)) (px_set_counter next w))
  | PxInsert req s sid, PTick =>
      Some (pending_insert sid k
              (set_handler k (Handler (pr_req h) (PxSend req s sid) (pr_sid h) oneshot_channel) w))
  | PxSend req s sid, PTick =>
      match px_sessions w !! s with
      | Some q =>
          match mpsc_send (client_http_request sid req) q with
          | Sent q' => Some (px_add_log [PSent k s sid req] (goto (PxWait sid) (px_set_session s q' w)))
          | SendFull => None
          | SendClosed => Some (goto (PxUnsent sid) w)
          end
      | None => None
      end
  | PxUnsent sid, PTick =>
      Some (pending_remove oneshot_drop_tx sid (finish 503%N (lit "tunnel send failed") w))
  | PxWait sid, PTick =>
      match oneshot_poll (pr_slot h) with
      | OsValue r => Some (goto (PxDone (local_response_of status_from_u16 header_name header_value builder_error r)) w)
      | OsClosed => Some (finish 502%N (lit "response channel closed") w)
      | OsPending => None
      end
  | PxWait sid, PTimeout =>
      match oneshot_poll (pr_slot h) with
      | OsPending => Some (set_handler k (set_slot oneshot_drop_rx (set_pc (PxExpired sid) h)) w)
      | _ => None
      end
  | PxExpired sid, PTick =>
      Some (pending_remove oneshot_drop_tx sid (finish 504%N (lit "hub response timeout") w))
  | _, _ => None
  end.

(** The second half of [detach_hub_and_flush]: every pending request is answered. *)
Definition flush w : proxy_world chan os :=
  px_set_pending ∅
    (px_set_handlers
       (foldr (λ sk, alter (set_slot (oneshot_send session_ended_response)) sk.2)
          (px_handlers w) (map_to_list (px_pending w))) w).

Definition proxy_step (l : proxy_label) w : option (proxy_world chan os) :=
  match l with
  | PRequest k r =>
      match px_handlers w !! k with
      | Some _ => None
      | None => Some (set_handler k (Handler r PxBody None oneshot_channel) w)
      end
  | PHandler k e => match px_handlers w !! k with Some h => handler_step k h e w | None => None end
  | PCancel k =>
      match px_handlers w !! k with
      | Some h => match pr_pc h with
                  | PxDone _ | PxGone => None
                  | _ => Some (set_handler k (set_slot oneshot_drop_rx (set_pc PxGone h)) w)
                  end
      | None => None
      end
  | PSession s =>
      match px_sessions w !! s with
      | Some _ => None
      | None => Some (px_set_session s (mpsc_channel 256) w)
      end
  | PAttach s =>
      match px_sessions w !! s with Some _ => Some (px_set_hub (Some s) w) | None => None end
  | PDetach => Some (px_set_hub None w)
  | PFlush => Some (flush w)
  | PResponse s sid r => Some (px_add_log [PReceived s sid r] (pending_remove (oneshot_send r) sid w))
  | PTake s =>
      match px_sessions w !! s with
      | Some q => match mpsc_recv q with Some (_, q') => Some (px_set_session s q' w) | None => None end
      | None => None
      end
  | PDropRx s =>
      match px_sessions w !! s with Some q => Some (px_set_session s (mpsc_drop_rx q) w) | None => None end
  end.

(** [SharedProxyState::new] *)
Definition proxy_new : proxy_world chan os := ProxyWorld None ∅ (2 ^ 63) ∅ ∅ [].
Definition proxy_init w : Prop := w = proxy_new.

Definition proxy_step_nowrap (l : proxy_label) w : option (proxy_world chan os) :=
  if (px_counter w + 1 <? u64_modulus)%N then proxy_step l w else None.
End client_proxy.

Ltac proxy_inv H :=
  match type of H with proxy_step _ _ _ _ ?l _ = _ => destruct l end;
  unfold proxy_step in H; cbv beta iota in H;
  unfold handler_step, fetch_add1 in H;
  repeat first
    [ discriminate H
    | match type of H with context [match ?x with _ => _ end] => destruct x eqn:? end ];
  injection H as <-.
