(* ===== verification/ProxyInvariant.v ===== *)
(** * tunnel-client: requests and their responses

    The invariant of the HTTP proxy: stream ids are distinct and in the upper
    half of the 64-bit range, an entry of the pending map belongs to the handler
    that took the id, and a waiting handler's channel is pending exactly while
    its entry is there, or holds a response received under its id. *)
From S2P Require Import Prelude RustStd Proto ServerConfig Channel Oneshot ServerHttp ClientConfig ClientProxy.

(** The id a handler works under, and the states that own a pending entry. *)
Definition pc_sid (pc : proxy_pc) : option N :=
  match pc with
  | PxInsert _ _ sid | PxSend _ _ sid | PxUnsent sid | PxWait sid | PxExpired sid => Some sid
  | _ => None
  end.
Definition pc_owner (pc : proxy_pc) : bool :=
  match pc with PxSend _ _ _ | PxUnsent _ | PxWait _ | PxExpired _ | PxGone => true | _ => false end.
Definition pc_live (pc : proxy_pc) : option N :=
  match pc with PxSend _ _ sid | PxWait sid => Some sid | _ => None end.
Definition pc_req (pc : proxy_pc) : option http_request :=
  match pc with PxHub req | PxId req _ | PxInsert req _ _ | PxSend req _ _ => Some req | _ => None end.

(** The answers the proxy gives by itself. *)
Definition own_answer (r : local_response) : Prop :=
  ∃ status body, r = plain_response status body ∧ status ∈ [400; 502; 503; 504]%N.

(** What resolves a request: a response received under its id, or the flush. *)
Definition answered (sid : N) (r : http_response) (l : list proxy_obs) : Prop :=
  r = session_ended_response ∨ ∃ s, PReceived s sid r ∈ l.

Lemma answered_app sid r l d : answered sid r l → answered sid r (l ++ d).
Proof. intros [?|[s ?]]; [by left|right]. exists s. apply elem_of_app. by left. Qed.
#[export] Hint Resolve answered_app : openspoke.

Section proxy_invariant.
Context {chan os : Type → Type} `{Hmpsc : Mpsc chan} `{Hone : Oneshot os} {HI : HashIter}.
Context (sf : N → option N) (hn hv : bytes → option bytes) (be : list (bytes * bytes) → option bytes).
Implicit Types (w : proxy_world chan os) (h : handler os).

Record proxy_inv w : Prop := {
  pi_counter : (2 ^ 63 ≤ px_counter w)%N;
  pi_sid k h sid : px_handlers w !! k = Some h → pr_sid h = Some sid → (2 ^ 63 ≤ sid < px_counter w)%N;
  pi_inj k1 k2 h1 h2 sid : px_handlers w !! k1 = Some h1 → px_handlers w !! k2 = Some h2 →
    pr_sid h1 = Some sid → pr_sid h2 = Some sid → k1 = k2;
  pi_pc k h : px_handlers w !! k = Some h →
    match pr_pc h with
    | PxBody | PxHub _ | PxId _ _ => pr_sid h = None
    | PxDone _ | PxGone => True
    | pc => pr_sid h = pc_sid pc
    end;
  pi_pending sid k : px_pending w !! sid = Some k →
    ∃ h, px_handlers w !! k = Some h ∧ pr_sid h = Some sid ∧ pc_owner (pr_pc h) = true;
  pi_live k h sid : px_handlers w !! k = Some h → pc_live (pr_pc h) = Some sid →
    oneshot_rx_alive (pr_slot h) = true ∧
    ((px_pending w !! sid = Some k ∧ oneshot_poll (pr_slot h) = OsPending) ∨
     (px_pending w !! sid = None ∧ ∃ r, oneshot_poll (pr_slot h) = OsValue r ∧ answered sid r (px_log w)));
  pi_req k h req : px_handlers w !! k = Some h → pc_req (pr_pc h) = Some req →
    ∃ body, req = proxied_request (pr_req h) body;
  pi_sent k s sid req : PSent k s sid req ∈ px_log w →
    ∃ h, px_handlers w !! k = Some h ∧ pr_sid h = Some sid ∧ ∃ body, req = proxied_request (pr_req h) body;
  pi_wait k h sid : px_handlers w !! k = Some h → pr_pc h = PxWait sid →
    ∃ s req, PSent k s sid req ∈ px_log w;
  pi_done k h resp : px_handlers w !! k = Some h → pr_pc h = PxDone resp →
    own_answer resp ∨
    ∃ sid r s req, pr_sid h = Some sid ∧ PSent k s sid req ∈ px_log w ∧ answered sid r (px_log w) ∧
      resp = local_response_of sf hn hv be r }.

Lemma proxy_inv_init w : proxy_init w → proxy_inv w.
Proof. intros ->. split; intros *; simpl; rewrite ?lookup_empty; try done. by intros []%elem_of_nil. Qed.

Lemma live_sid w k h sid :
  proxy_inv w → px_handlers w !! k = Some h → pc_live (pr_pc h) = Some sid → pr_sid h = Some sid.
Proof.
  intros Hw Hk Hl. pose proof (pi_pc _ Hw _ _ Hk) as Hpc. destruct (pr_pc h); simplify_eq/=; congruence.
Qed.

(** ** Steps that touch no handler *)
Lemma proxy_inv_env w w' :
  proxy_inv w → px_handlers w' = px_handlers w → px_pending w' = px_pending w →
  px_counter w' = px_counter w → px_log w' = px_log w → proxy_inv w'.
Proof.
  intros Hw Hh Hp Hc Hl. split; intros *; rewrite ?Hh, ?Hp, ?Hc, ?Hl; apply Hw.
Qed.

(** ** Steps of one handler that leave the pending map alone *)
Record move_ok k w w' h h' : Prop := {
  mo_req : pr_req h' = pr_req h;
  mo_sid : pr_sid h' = pr_sid h;
  mo_pc : match pr_pc h' with
          | PxBody | PxHub _ | PxId _ _ => pr_sid h' = None
          | PxDone _ | PxGone => True
          | pc => pr_sid h' = pc_sid pc
          end;
  mo_owner : (pc_owner (pr_pc h) = true → pc_owner (pr_pc h') = true) ∨ (∀ sid, px_pending w !! sid ≠ Some k);
  mo_live sid : pc_live (pr_pc h') = Some sid → pc_live (pr_pc h) = Some sid ∧ pr_slot h' = pr_slot h;
  mo_reqs req : pc_req (pr_pc h') = Some req → ∃ body, req = proxied_request (pr_req h) body;
  mo_wait sid : pr_pc h' = PxWait sid → ∃ s req, PSent k s sid req ∈ px_log w';
  mo_log : px_log w' = px_log w ∨
    ∃ s sid req, px_log w' = px_log w ++ [PSent k s sid req] ∧ pr_sid h = Some sid ∧
      ∃ body, req = proxied_request (pr_req h) body;
  mo_done resp : pr_pc h' = PxDone resp → own_answer resp ∨
    ∃ sid r s req, pr_sid h = Some sid ∧ PSent k s sid req ∈ px_log w' ∧ answered sid r (px_log w') ∧
      resp = local_response_of sf hn hv be r }.

Lemma move_log_app k w w' h h' : move_ok k w w' h h' → ∃ d, px_log w' = px_log w ++ d.
Proof. intros Hm. destruct (mo_log _ _ _ _ _ Hm) as [->|(s & sid & req & -> & _)]; [exists []; by rewrite app_nil_r|eauto]. Qed.

Lemma proxy_inv_move w w' k h h' :
  proxy_inv w → px_handlers w !! k = Some h → px_handlers w' = <[k := h']> (px_handlers w) →
  px_pending w' = px_pending w → px_counter w' = px_counter w → move_ok k w w' h h' → proxy_inv w'.
Proof.
  intros Hw Hk Hh Hp Hc Hm. destruct (move_log_app _ _ _ _ _ Hm) as [d Hd].
  pose proof (mo_sid _ _ _ _ _ Hm) as Hsid.
  assert (∀ k0 h0, px_handlers w' !! k0 = Some h0 →
    ∃ h1, px_handlers w !! k0 = Some h1 ∧ pr_sid h0 = pr_sid h1 ∧ pr_req h0 = pr_req h1) as Hold.
  { intros k0 h0. rewrite Hh, lookup_insert. case_decide; intros; simplify_eq; [|by eauto].
    exists h. split_and!; [done|done|apply Hm]. }
  split; rewrite ?Hp, ?Hc.
  - apply Hw.
  - intros k0 h0 sid H0 Hs. destruct (Hold _ _ H0) as (h1 & H1 & Hs1 & _).
    apply (pi_sid _ Hw k0 h1 sid H1). congruence.
  - intros k1 k2 h1 h2 sid H1 H2 Hs1 Hs2.
    destruct (Hold _ _ H1) as (g1 & G1 & E1 & _), (Hold _ _ H2) as (g2 & G2 & E2 & _).
    apply (pi_inj _ Hw k1 k2 g1 g2 sid G1 G2); congruence.
  - intros k0 h0. rewrite Hh, lookup_insert. case_decide; intros; simplify_eq; [apply Hm|by eapply pi_pc].
  - intros sid k0 Hin. destruct (pi_pending _ Hw _ _ Hin) as (h0 & H0 & Hs0 & Ho0). rewrite Hh.
    destruct (decide (k = k0)) as [<-|]; [|exists h0; by rewrite lookup_insert_ne].
    simplify_eq. exists h'. rewrite lookup_insert_eq. split_and!; [done|congruence|].
    destruct (mo_owner _ _ _ _ _ Hm) as [Ho|Hno]; [auto|by edestruct Hno].
  - intros k0 h0 sid. rewrite Hh, lookup_insert. case_decide; intros; simplify_eq.
    + destruct (mo_live _ _ _ _ _ Hm sid) as [Hl ->]; [done|].
      destruct (pi_live _ Hw _ _ _ Hk Hl) as [? [?|(? & r & ? & ?)]]; [by auto|].
      split; [done|]. right. split; [done|]. exists r. rewrite Hd. eauto with openspoke.
    + destruct (pi_live _ Hw k0 h0 sid) as [? [?|(? & r & ? & ?)]]; [done|done|by auto|].
      split; [done|]. right. split; [done|]. exists r. rewrite Hd. eauto with openspoke.
  - intros k0 h0 req. rewrite Hh, lookup_insert. case_decide; intros; simplify_eq; [|by eapply pi_req].
    rewrite (mo_req _ _ _ _ _ Hm). by apply (mo_reqs _ _ _ _ _ Hm).
  - intros k0 s sid req Hin.
    assert (∃ g, px_handlers w !! k0 = Some g ∧ pr_sid g = Some sid ∧
      ∃ body, req = proxied_request (pr_req g) body) as (g & Hg & Hs & Hb).
    { destruct (mo_log _ _ _ _ _ Hm) as [Hl|(s1 & sid1 & req1 & Hl & Hs1 & Hb1)]; rewrite Hl in Hin.
      - by apply (pi_sent _ Hw _ s).
      - apply elem_of_app in Hin as [Hin|Hin%list_elem_of_singleton]; [by apply (pi_sent _ Hw _ s)|].
        simplify_eq. eauto. }
    rewrite Hh. destruct (decide (k = k0)) as [<-|]; [|exists g; by rewrite lookup_insert_ne].
    simplify_eq. exists h'. rewrite lookup_insert_eq, Hsid, (mo_req _ _ _ _ _ Hm). done.
  - intros k0 h0 sid. rewrite Hh, lookup_insert. case_decide; intros; simplify_eq; [by apply (mo_wait _ _ _ _ _ Hm)|].
    destruct (pi_wait _ Hw k0 h0 sid) as (s & req & ?); [done|done|]. exists s, req. rewrite Hd. apply elem_of_app; by left.
  - intros k0 h0 resp. rewrite Hh, lookup_insert. case_decide; intros; simplify_eq.
    + rewrite Hsid. by apply (mo_done _ _ _ _ _ Hm).
    + destruct (pi_done _ Hw k0 h0 resp) as [?|(sid & r & s & req & ? & ? & ? & ?)]; [done|done|by left|].
      right. exists sid, r, s, req. rewrite Hd. split_and!; [done|apply elem_of_app; by left|by apply answered_app|done].
Qed.

(** A new request. *)
Lemma proxy_inv_new w w' k r :
  proxy_inv w → px_handlers w !! k = None →
  px_handlers w' = <[k := Handler r PxBody None oneshot_channel]> (px_handlers w) →
  px_pending w' = px_pending w → px_counter w' = px_counter w → px_log w' = px_log w → proxy_inv w'.
Proof.
  intros Hw Hk Hh Hp Hc Hl.
  split; intros *; rewrite ?Hh, ?Hp, ?Hc, ?Hl; try apply Hw; rewrite ?lookup_insert;
    repeat case_decide; intros; simplify_eq/=; try done; try (by eapply Hw).
  - exfalso. destruct (pi_pending _ Hw sid k0) as (h & ? & ? & ?); [done|]. congruence.
  - exfalso. destruct (pi_sent _ Hw k0 s sid req) as (h & ? & ? & ?); [done|]. congruence.
Qed.

(** [next_stream_id] *)
Lemma proxy_inv_id w w' k h req s :
  proxy_inv w → (px_counter w + 1 < u64_modulus)%N → px_handlers w !! k = Some h → pr_pc h = PxId req s →
  px_handlers w' = <[k := Handler (pr_req h) (PxInsert req s (px_counter w)) (Some (px_counter w)) (pr_slot h)]>
                     (px_handlers w) →
  px_pending w' = px_pending w → px_counter w' = wrap_u64 (px_counter w + 1) → px_log w' = px_log w →
  proxy_inv w'.
Proof.
  intros Hw Hn Hk Hpc Hh Hp Hc Hl. rewrite wrap_u64_small in Hc by done.
  assert (pr_sid h = None) as Hnone by (pose proof (pi_pc _ Hw _ _ Hk) as H1; by rewrite Hpc in H1).
  pose proof (pi_counter _ Hw) as Hcnt.
  split; intros *; rewrite ?Hh, ?Hp, ?Hc, ?Hl, ?lookup_insert.
  - lia.
  - case_decide; intros; simplify_eq/=; [lia|]. assert (2 ^ 63 ≤ sid < px_counter w)%N; [by eapply (pi_sid _ Hw)|lia].
  - repeat case_decide; intros; simplify_eq/=; try done.
    + assert (2 ^ 63 ≤ px_counter w < px_counter w)%N; [by eapply (pi_sid _ Hw k2)|lia].
    + assert (2 ^ 63 ≤ px_counter w < px_counter w)%N; [by eapply (pi_sid _ Hw k1)|lia].
    + by eapply (pi_inj _ Hw k1 k2).
  - case_decide; intros; simplify_eq/=; [done|by eapply pi_pc].
  - intros Hin. destruct (pi_pending _ Hw _ _ Hin) as (h0 & H0 & Hs0 & ?). exists h0.
    rewrite decide_False by congruence. done.
  - case_decide; intros; simplify_eq/=. by eapply pi_live.
  - case_decide; intros; simplify_eq/=; [|by eapply pi_req].
    eapply (pi_req _ Hw); [exact Hk|by rewrite Hpc].
  - intros Hin. destruct (pi_sent _ Hw _ _ _ _ Hin) as (h0 & H0 & Hs0 & ?). exists h0.
    rewrite decide_False by congruence. done.
  - case_decide; intros; simplify_eq/=. by eapply pi_wait.
  - case_decide; intros; simplify_eq/=. by eapply pi_done.
Qed.

(** [pending.insert]: the id is new, so nothing is replaced. *)
Lemma pending_fresh w k h sid :
  proxy_inv w → px_handlers w !! k = Some h → pr_sid h = Some sid → pc_owner (pr_pc h) = false →
  px_pending w !! sid = None.
Proof.
  intros Hw Hk Hs Ho. destruct (px_pending w !! sid) as [k'|] eqn:Hin; [|done].
  destruct (pi_pending _ Hw _ _ Hin) as (h' & Hk' & Hs' & Ho').
  assert (k = k') as <- by (by eapply (pi_inj _ Hw)). congruence.
Qed.

Lemma proxy_inv_insert w w' k h req s sid :
  proxy_inv w → px_handlers w !! k = Some h → pr_pc h = PxInsert req s sid →
  px_handlers w' = <[k := Handler (pr_req h) (PxSend req s sid) (pr_sid h) oneshot_channel]> (px_handlers w) →
  px_pending w' = <[sid := k]> (px_pending w) → px_counter w' = px_counter w → px_log w' = px_log w →
  proxy_inv w'.
Proof.
  intros Hw Hk Hpc Hh Hp Hc Hl.
  assert (pr_sid h = Some sid) as Hsid by (pose proof (pi_pc _ Hw _ _ Hk) as H1; by rewrite Hpc in H1).
  split; intros *; rewrite ?Hh, ?Hp, ?Hc, ?Hl, ?lookup_insert.
  - apply Hw.
  - case_decide; intros; simplify_eq/=; by eapply (pi_sid _ Hw).
  - repeat case_decide; intros; simplify_eq/=; try done; by eapply (pi_inj _ Hw).
  - case_decide; intros; simplify_eq/=; [done|by eapply pi_pc].
  - case_decide; intros Hin; simplify_eq/=.
    + eexists. rewrite decide_True by done. split_and!; [done|done|done].
    + destruct (pi_pending _ Hw _ _ Hin) as (h0 & H0 & Hs0 & ?).
      destruct (decide (k = k0)) as [<-|]; [|by exists h0]. congruence.
  - case_decide; intros; simplify_eq/=.
    + split; [apply oneshot_new_alive|left]. rewrite decide_True by done. split; [done|apply oneshot_new].
    + assert (sid0 ≠ sid) as Hne.
      { intros ->. assert (pr_sid h0 = Some sid) as Hs0 by (eapply live_sid; eauto).
        assert (k = k0) by (eapply (pi_inj _ Hw); eauto). done. }
      rewrite decide_False by done. by apply (pi_live _ Hw k0 h0 sid0).
  - case_decide; intros; simplify_eq/=; [|by eapply pi_req].
    eapply (pi_req _ Hw); [exact Hk|by rewrite Hpc].
  - intros Hin. destruct (pi_sent _ Hw _ _ _ _ Hin) as (h0 & H0 & Hs0 & ?).
    destruct (decide (k = k0)) as [<-|]; [|by exists h0].
    simplify_eq. by eexists.
  - case_decide; intros; simplify_eq/=. by eapply pi_wait.
  - case_decide; intros; simplify_eq/=. by eapply pi_done.
Qed.

(** A handler that gives up takes its own entry out. *)
Lemma proxy_inv_finish w w' k h h' sid resp :
  proxy_inv w → px_handlers w !! k = Some h → pr_sid h = Some sid →
  px_handlers w' = <[k := h']> (px_handlers w) → px_pending w' = delete sid (px_pending w) →
  px_counter w' = px_counter w → px_log w' = px_log w →
  pr_req h' = pr_req h → pr_sid h' = pr_sid h → pr_pc h' = PxDone resp → own_answer resp → proxy_inv w'.
Proof.
  intros Hw Hk Hs Hh Hp Hc Hl Hr' Hs' Hpc' Hown.
  assert (∀ sid0 k0, px_pending w' !! sid0 = Some k0 → px_pending w !! sid0 = Some k0 ∧ k0 ≠ k) as Hpend.
  { intros sid0 k0. rewrite Hp. intros [Hne Hin]%lookup_delete_Some. split; [done|]. intros ->.
    destruct (pi_pending _ Hw _ _ Hin) as (h0 & H0 & Hs0 & _). congruence. }
  split; intros *; rewrite ?Hh, ?Hc, ?Hl, ?lookup_insert.
  - apply Hw.
  - case_decide; intros; simplify_eq/=; eapply (pi_sid _ Hw); [exact Hk|congruence|done|done].
  - repeat case_decide; intros; simplify_eq/=; try done; eapply (pi_inj _ Hw); eauto; congruence.
  - case_decide; intros; simplify_eq/=; [by rewrite Hpc'|by eapply pi_pc].
  - intros [Hin Hne]%Hpend. destruct (pi_pending _ Hw _ _ Hin) as (h0 & ?). exists h0.
    by rewrite decide_False.
  - case_decide; intros Hk0 Hlv; simplify_eq/=; [by rewrite Hpc' in Hlv|].
    assert (sid0 ≠ sid) as Hne.
    { intros ->. assert (pr_sid h0 = Some sid) as Hs0 by (eapply live_sid; eauto).
      assert (k = k0) by (eapply (pi_inj _ Hw); eauto). done. }
    rewrite Hp, lookup_delete_ne by done. by apply (pi_live _ Hw k0 h0 sid0).
  - case_decide; intros; simplify_eq/=; [by rewrite Hpc' in *|by eapply pi_req].
  - intros Hin. destruct (pi_sent _ Hw _ _ _ _ Hin) as (h0 & H0 & Hs0 & ?).
    destruct (decide (k = k0)) as [<-|]; [|by exists h0]. simplify_eq. exists h'. by rewrite Hr', Hs'.
  - case_decide; intros; simplify_eq/=; [by rewrite Hpc' in *|by eapply pi_wait].
  - case_decide; intros Hk0 Hd; simplify_eq/=; [|by eapply pi_done]. rewrite Hpc' in Hd. simplify_eq. by left.
Qed.

(** Requests are resolved: by a response to one of them, or by the flush. *)
Lemma proxy_inv_resolve w w' (R : N → Prop) r d :
  proxy_inv w →
  (∀ sid k, px_pending w' !! sid = Some k ↔ px_pending w !! sid = Some k ∧ ¬ R sid) →
  (∀ k h', px_handlers w' !! k = Some h' → ∃ h, px_handlers w !! k = Some h ∧
     ((h' = set_slot (oneshot_send r) h ∧ ∃ sid, R sid ∧ px_pending w !! sid = Some k) ∨
      (h' = h ∧ ∀ sid, R sid → px_pending w !! sid ≠ Some k))) →
  (∀ k h, px_handlers w !! k = Some h → is_Some (px_handlers w' !! k)) →
  px_counter w' = px_counter w → px_log w' = px_log w ++ d → (∀ k s sid req, PSent k s sid req ∉ d) →
  (∀ sid k, R sid → px_pending w !! sid = Some k → answered sid r (px_log w')) →
  proxy_inv w'.
Proof.
  intros Hw Hp Hh Hdom Hc Hl Hd Hans.
  assert (∀ k h', px_handlers w' !! k = Some h' → ∃ h, px_handlers w !! k = Some h ∧
    pr_sid h' = pr_sid h ∧ pr_pc h' = pr_pc h ∧ pr_req h' = pr_req h) as Hsame.
  { intros k h' Hk. destruct (Hh k h' Hk) as (h & ? & [[-> _]|[-> _]]); eauto. }
  assert (∀ k h, px_handlers w !! k = Some h → ∃ h', px_handlers w' !! k = Some h' ∧
    pr_sid h' = pr_sid h ∧ pr_pc h' = pr_pc h ∧ pr_req h' = pr_req h) as Hsame'.
  { intros k h Hk. destruct (Hdom k h Hk) as [h' Hk']. destruct (Hsame k h' Hk') as (h0 & ? & ?).
    simplify_eq. eauto. }
  split; intros *; rewrite ?Hc.
  - apply Hw.
  - intros Hk Hs. destruct (Hsame _ _ Hk) as (h0 & H0 & E0 & _). apply (pi_sid _ Hw k h0); congruence.
  - intros H1 H2 Hs1 Hs2. destruct (Hsame _ _ H1) as (g1 & G1 & E1 & _), (Hsame _ _ H2) as (g2 & G2 & E2 & _).
    apply (pi_inj _ Hw k1 k2 g1 g2 sid); congruence.
  - intros Hk. destruct (Hsame _ _ Hk) as (h0 & H0 & E0 & Epc & _). pose proof (pi_pc _ Hw _ _ H0). by rewrite Epc, E0.
  - intros [Hin _]%Hp. destruct (pi_pending _ Hw _ _ Hin) as (h0 & H0 & Hs0 & Ho0).
    destruct (Hsame' _ _ H0) as (h1 & H1 & E1 & Epc & _). exists h1. rewrite E1, Epc. done.
  - intros Hk Hlv. destruct (Hh k h Hk) as (h0 & H0 & [[-> (sid0 & HR & Hin0)]|[-> Hno]]).
    + destruct (pi_pending _ Hw _ _ Hin0) as (h1 & Hh1 & Hs1 & _).
      assert (h1 = h0) as -> by congruence. simpl in Hlv.
      assert (sid0 = sid) as ->.
      { pose proof (live_sid _ _ _ _ Hw H0 Hlv). congruence. }
      destruct (pi_live _ Hw _ _ _ H0 Hlv) as [Ha [[_ Hpo]|[Hn _]]]; [|congruence].
      split; [simpl; by rewrite oneshot_send_rx|right]. simpl.
      rewrite oneshot_send_alive by done. split; [|by eauto].
      apply eq_None_not_Some. intros [k1 [Hin1 ?]%Hp]. done.
    + destruct (pi_live _ Hw _ _ _ H0 Hlv) as [Ha [[Hin Hpo]|(Hnone & r0 & Hpo & Hr0)]]; (split; [done|]).
      * left. split; [|done]. apply Hp. split; [done|]. intros HR. by eapply Hno.
      * right. split; [|exists r0; rewrite Hl; eauto with openspoke].
        apply eq_None_not_Some. intros [k1 [Hin1 _]%Hp]. congruence.
  - intros Hk Hq. destruct (Hsame _ _ Hk) as (h0 & H0 & _ & Epc & Er). rewrite Er. eapply (pi_req _ Hw); [done|congruence].
  - rewrite Hl. intros [Hin|Hin]%elem_of_app; [|by edestruct Hd].
    destruct (pi_sent _ Hw _ _ _ _ Hin) as (h0 & H0 & Hs0 & ?).
    destruct (Hsame' _ _ H0) as (h1 & H1 & E1 & _ & Er). exists h1. rewrite E1, Er. done.
  - intros Hk Hq. destruct (Hsame _ _ Hk) as (h0 & H0 & _ & Epc & _).
    destruct (pi_wait _ Hw k h0 sid H0) as (s & req & ?); [congruence|]. exists s, req. rewrite Hl.
    apply elem_of_app; by left.
  - intros Hk Hq. destruct (Hsame _ _ Hk) as (h0 & H0 & E0 & Epc & _).
    destruct (pi_done _ Hw k h0 resp H0) as [?|(sid & r0 & s & req & ? & ? & ? & ?)]; [congruence|by left|].
    right. exists sid, r0, s, req. rewrite Hl, E0. split_and!; [done|apply elem_of_app; by left|by apply answered_app|done].
Qed.

(** ** The pending map's operations *)
Lemma pending_remove_inv w (f : os http_response → os http_response) sid k :
  px_pending w !! sid = Some k →
  pending_remove f sid w =
    px_set_pending (delete sid (px_pending w)) (px_set_handlers (alter (set_slot f) k (px_handlers w)) w).
Proof. intros Hin. unfold pending_remove. by rewrite Hin. Qed.

(** A handler that finishes with its own answer and removes its entry. *)
Lemma proxy_inv_give_up w k h sid resp :
  proxy_inv w → px_handlers w !! k = Some h → pc_sid (pr_pc h) = Some sid →
  pc_owner (pr_pc h) = true → own_answer resp →
  proxy_inv (pending_remove oneshot_drop_tx sid (set_handler k (set_pc (PxDone resp) h) w)).
Proof.
  intros Hw Hk Hs Ho Hown.
  assert (pr_sid h = Some sid) as Hsid.
  { pose proof (pi_pc _ Hw _ _ Hk) as Hpc. destruct (pr_pc h); simplify_eq/=; congruence. }
  destruct (px_pending w !! sid) as [k'|] eqn:Hin.
  - destruct (pi_pending _ Hw _ _ Hin) as (h' & Hk' & Hs' & _).
    assert (k' = k) as -> by (by eapply (pi_inj _ Hw)).
    rewrite (pending_remove_inv _ _ _ k) by done.
    eapply (proxy_inv_finish w _ k h (set_slot oneshot_drop_tx (set_pc (PxDone resp) h)) sid resp);
      simpl; try done. by rewrite alter_insert_eq.
  - unfold pending_remove. simpl. rewrite Hin.
    eapply (proxy_inv_finish w _ k h (set_pc (PxDone resp) h) sid resp); simpl; try done.
    by rewrite delete_id.
Qed.

Lemma proxy_inv_response w s sid r :
  proxy_inv w → proxy_inv (px_add_log [PReceived s sid r] (pending_remove (oneshot_send r) sid w)).
Proof.
  intros Hw. eapply (proxy_inv_resolve w _ (λ x, x = sid) r [PReceived s sid r]); [done|..].
  - intros sid' k. unfold pending_remove. destruct (px_pending w !! sid) as [k0|] eqn:Hin; simpl.
    + rewrite lookup_delete_Some. naive_solver.
    + naive_solver congruence.
  - intros k h'. unfold pending_remove. destruct (px_pending w !! sid) as [k0|] eqn:Hin; simpl.
    + rewrite lookup_alter. case_decide as Hkk; [subst k0|].
      * intros (h & Hk & ->)%fmap_Some. exists h. split; [done|left]. eauto.
      * intros Hk. exists h'. split; [done|right]. split; [done|]. intros ? ->. congruence.
    + intros Hk. exists h'. split; [done|right]. split; [done|]. intros ? ->. congruence.
  - intros k h Hk. unfold pending_remove. destruct (px_pending w !! sid) as [k0|]; simpl; [|by eauto].
    rewrite lookup_alter. case_decide; subst; rewrite Hk; eauto.
  - unfold pending_remove. by case_match.
  - unfold pending_remove. by case_match.
  - intros ????. by rewrite list_elem_of_singleton.
  - intros ? k -> Hin. right. exists s. simpl. set_solver.
Qed.

Lemma foldr_alter_lookup {A} (f : A → A) (l : list (N * nat)) (m : gmap nat A) k :
  NoDup (l.*2) →
  (k ∈ l.*2 ∧ foldr (λ sk, alter f sk.2) m l !! k = f <$> m !! k) ∨
  (k ∉ l.*2 ∧ foldr (λ sk, alter f sk.2) m l !! k = m !! k).
Proof.
  induction l as [|[sid k0] l IH]; intros Hnd; cbn [foldr]; [right; set_solver|].
  rewrite fmap_cons, NoDup_cons in Hnd. destruct Hnd as [Hn Hnd]. simpl in Hn.
  rewrite fmap_cons, elem_of_cons, lookup_alter. destruct (IH Hnd) as [[Hk ->]|[Hk ->]].
  - left. rewrite decide_False by (simpl; congruence). auto.
  - case_decide as Hkk; simpl in Hkk; [subst k0|right].
    + left. simpl. destruct (IH Hnd) as [[? _]|[_ ->]]; [done|auto].
    + split; [|done]. simpl. intros [->|?]; done.
Qed.

Lemma pending_values_nodup w : proxy_inv w → NoDup ((map_to_list (px_pending w)).*2).
Proof.
  intros Hw. apply NoDup_fmap_2_strong; [|apply NoDup_map_to_list].
  intros [s1 k1] [s2 k2] H1%elem_of_map_to_list H2%elem_of_map_to_list; simpl; intros ->.
  destruct (pi_pending _ Hw _ _ H1) as (h1 & Hh1 & Hs1 & _), (pi_pending _ Hw _ _ H2) as (h2 & Hh2 & Hs2 & _).
  congruence.
Qed.

Lemma proxy_inv_flush w : proxy_inv w → proxy_inv (flush w).
Proof.
  intros Hw. pose proof (pending_values_nodup _ Hw) as Hnd.
  assert (∀ k, k ∈ (map_to_list (px_pending w)).*2 ↔ ∃ sid, px_pending w !! sid = Some k) as Hin.
  { intros k. rewrite list_elem_of_fmap. split.
    - intros ([sid k0] & -> & Hin%elem_of_map_to_list). eauto.
    - intros (sid & Hin). exists (sid, k). by rewrite elem_of_map_to_list. }
  eapply (proxy_inv_resolve w _ (λ _, True) session_ended_response []); [done|..].
  - intros sid k. simpl. rewrite lookup_empty. naive_solver.
  - intros k h'. simpl. destruct (foldr_alter_lookup (set_slot (oneshot_send session_ended_response)) _ (px_handlers w) k Hnd)
      as [[Hk ->]|[Hk ->]].
    + intros (h & Hh & ->)%fmap_Some. exists h. apply Hin in Hk as [sid ?]. eauto 6.
    + intros Hh. exists h'. split; [done|right]. split; [done|]. intros sid _ ?. apply Hk, Hin. eauto.
  - intros k h Hk. simpl.
    destruct (foldr_alter_lookup (set_slot (oneshot_send session_ended_response)) _ (px_handlers w) k Hnd)
      as [[_ ->]|[_ ->]]; rewrite Hk; eauto.
  - done.
  - simpl. by rewrite app_nil_r.
  - intros ????. apply not_elem_of_nil.
  - intros sid k _ _. by left.
Qed.

Lemma proxy_inv_step l w w' :
  (px_counter w + 1 < u64_modulus)%N → proxy_inv w →
  proxy_step sf hn hv be l w = Some w' → proxy_inv w'.
Proof.
  intros Hn Hw HS. proxy_inv HS.
  all: try (eapply proxy_inv_env; [exact Hw|reflexivity..]).
  all: try (by eapply proxy_inv_new).
  all: try (by apply proxy_inv_response). all: try (by apply proxy_inv_flush).
  all: try (eapply proxy_inv_give_up; [exact Hw|eassumption|..];
    [match goal with H : pr_pc _ = _ |- _ => rewrite H end; reflexivity
    |match goal with H : pr_pc _ = _ |- _ => rewrite H end; reflexivity
    |eexists _, _; split; [reflexivity|set_solver]]).
  all: try match goal with
    | Hk : px_handlers _ !! ?k = Some ?h, Hpc : pr_pc ?h = _ |- _ =>
        pose proof (pi_pc _ Hw _ _ Hk) as Hsid;
        pose proof (λ req, pi_req _ Hw k h req Hk) as Hreq; rewrite Hpc in Hsid, Hreq; simpl in Hsid, Hreq
    end.
  all: try solve [eapply proxy_inv_move; [exact Hw|eassumption|reflexivity..|]; split; simpl; intros;
    simplify_eq/=; first [done|by left|match goal with H : pr_pc _ = _ |- _ => rewrite H in * end; done
      |(left; match goal with H : pr_pc _ = _ |- _ => rewrite H end; done)|(by eauto)|(left; eexists _, _; split; [reflexivity|set_solver])]].
  - apply (proxy_inv_id w _ k h req s); done.
  - (* inserted *)
    unfold pending_insert. simpl. rewrite (pending_fresh w k h sid) by (done || by rewrite Heqp).
    apply (proxy_inv_insert w _ k h req s sid); done.
  - (* sent *)
    eapply proxy_inv_move; [exact Hw|eassumption|reflexivity..|]. split; simpl; intros; simplify_eq/=; try done.
    + left. by rewrite Heqp.
    + by rewrite Heqp.
    + exists s, req. set_solver.
    + right. exists s, sid, req. eauto.
  - (* answered *)
    destruct (pi_live _ Hw k h sid) as [_ [[_ Hpo]|(Hnone & r & Hpo & Hans)]]; [done|by rewrite Heqp|congruence|].
    destruct (pi_wait _ Hw k h sid) as (s & req & Hsent); [done..|].
    eapply proxy_inv_move; [exact Hw|eassumption|reflexivity..|]. split; simpl; intros; simplify_eq/=; try done; eauto.
    + right. intros sid' Hin. destruct (pi_pending _ Hw _ _ Hin) as (h' & ? & ? & _). congruence.
    + right. rewrite Heqo0 in Hpo. simplify_eq. eauto 10.
  - (* the sender is never dropped under a waiting handler *)
    exfalso. destruct (pi_live _ Hw k h sid) as [_ [[_ Hpo]|(Hnone & r & Hpo & Hans)]];
      [done|by rewrite Heqp|congruence..].
Qed.

Lemma proxy_nowrap_step l w w' :
  proxy_step_nowrap sf hn hv be l w = Some w' →
  (px_counter w + 1 < u64_modulus)%N ∧ proxy_step sf hn hv be l w = Some w'.
Proof. unfold proxy_step_nowrap. destruct (_ <? _)%N eqn:Hlt; [|done]. apply N.ltb_lt in Hlt. done. Qed.

Lemma proxy_reach_inv w : reachable (proxy_step_nowrap sf hn hv be) proxy_init w → proxy_inv w.
Proof.
  apply reachable_invariant; [apply proxy_inv_init|].
  intros l s s' Hs [Hn Hstep]%proxy_nowrap_step. by eapply proxy_inv_step.
Qed.

(** ** The properties *)

(** C16: responses are routed by request.  Whatever the proxy answers to a caller is
    one of its own error answers, or the translation of a response that came back
    under the stream id of this caller's own request - received from the hub, or
    produced by the flush at the end of a session.  Responses never cross. *)
Theorem proxy_answers_own_request w k h resp :
  reachable (proxy_step_nowrap sf hn hv be) proxy_init w →
  px_handlers w !! k = Some h → pr_pc h = PxDone resp →
  own_answer resp ∨
  ∃ s sid body r, PSent k s sid (proxied_request (pr_req h) body) ∈ px_log w ∧
    (r = session_ended_response ∨ ∃ s', PReceived s' sid r ∈ px_log w) ∧
    resp = local_response_of sf hn hv be r ∧
    ∀ k' s' req', PSent k' s' sid req' ∈ px_log w → k' = k.
Proof.
  intros Hr Hk Hpc. pose proof (proxy_reach_inv w Hr) as Hw.
  destruct (pi_done _ Hw _ _ _ Hk Hpc) as [?|(sid & r & s & req & Hs & Hsent & Hans & ->)]; [by left|right].
  destruct (pi_sent _ Hw _ _ _ _ Hsent) as (h0 & Hk0 & Hs0 & body & ->). simplify_eq.
  exists s, sid, body, r. split_and!; [done..|]. intros k' s' req' Hsent'.
  destruct (pi_sent _ Hw _ _ _ _ Hsent') as (h' & Hk' & Hs' & _). by eapply (pi_inj _ Hw k' k).
Qed.

(** C25: the ids of the proxy's requests are distinct and lie in the upper half of
    the 64-bit range, where the hub allocates none; and what is sent under them
    is the caller's request. *)
Theorem proxy_ids_distinct w k1 k2 s1 s2 sid1 sid2 req1 req2 :
  reachable (proxy_step_nowrap sf hn hv be) proxy_init w →
  PSent k1 s1 sid1 req1 ∈ px_log w → PSent k2 s2 sid2 req2 ∈ px_log w →
  (2 ^ 63 ≤ sid1 < u64_modulus)%N ∧ (sid1 = sid2 ↔ k1 = k2) ∧
  ∃ h body, px_handlers w !! k1 = Some h ∧ req1 = proxied_request (pr_req h) body.
Proof.
  intros Hr H1 H2. pose proof (proxy_reach_inv w Hr) as Hw.
  assert (px_counter w < u64_modulus)%N as Hcnt.
  { destruct Hr as [s ->|l s s' _ [Hn HS]%proxy_nowrap_step]; [done|].
    pose proof (wrap_u64_lt (px_counter s + 1)). clear Hw H1 H2.
    proxy_inv HS; unfold pending_insert, pending_remove; simpl; repeat case_match; simpl; lia. }
  destruct (pi_sent _ Hw _ _ _ _ H1) as (h1 & Hk1 & Hs1 & body & ->).
  destruct (pi_sent _ Hw _ _ _ _ H2) as (h2 & Hk2 & Hs2 & _).
  pose proof (pi_sid _ Hw _ _ _ Hk1 Hs1). split_and!; [lia|lia| |by eauto].
  split; intros ->; [by eapply (pi_inj _ Hw k1 k2)|congruence].
Qed.

(** C26: a registered caller is never forgotten.  From its registration on, while a
    handler sends its request or waits, its entry is in the pending map with an
    unused channel, or its response is already there; the branch "response channel
    closed" is dead; and after the flush at the end of a session no such handler is
    left without an answer. *)
Theorem proxy_waiting_is_pending w k h sid :
  reachable (proxy_step_nowrap sf hn hv be) proxy_init w →
  px_handlers w !! k = Some h → pc_live (pr_pc h) = Some sid →
  oneshot_poll (pr_slot h) ≠ OsClosed ∧
  (oneshot_poll (pr_slot h) = OsPending ↔ px_pending w !! sid = Some k) ∧
  ∃ h' r, px_handlers (flush w) !! k = Some h' ∧ pr_pc h' = pr_pc h ∧ oneshot_poll (pr_slot h') = OsValue r.
Proof.
  intros Hr Hk Hpc. pose proof (proxy_reach_inv w Hr) as Hw.
  pose proof (proxy_inv_flush _ Hw) as Hw'.
  assert (∃ h', px_handlers (flush w) !! k = Some h' ∧ pr_pc h' = pr_pc h) as (h' & Hk' & Hpc').
  { simpl. destruct (foldr_alter_lookup (set_slot (oneshot_send session_ended_response)) _ (px_handlers w) k
      (pending_values_nodup _ Hw)) as [[_ ->]|[_ ->]]; rewrite Hk; eauto. }
  destruct (pi_live _ Hw k h sid) as [_ Hlive]; [done..|].
  destruct (pi_live _ Hw' k h' sid) as [_ [[Hn _]|(_ & r & Hpo & _)]]; [done|by rewrite Hpc'| |].
  { simpl in Hn. by rewrite lookup_empty in Hn. }
  split_and!; [| |by eauto].
  - destruct Hlive as [[_ ->]|(_ & r0 & -> & _)]; done.
  - destruct Hlive as [[Hin ->]|(Hin & r0 & -> & _)]; [done|]. rewrite Hin. done.
Qed.

(** The three ways a tunnel response is translated, when the builder accepts it. *)
Lemma parts_ok r : (∀ l, be l = None) → resp_error r = [] →
  local_response_of sf hn hv be r =
    LocalResponse (status_or_502 sf (resp_status r)) (out_headers hn hv (resp_headers r)) (resp_body r).
Proof. intros Hbe He. unfold local_response_of, response_parts. by rewrite He, Hbe. Qed.

Lemma parts_rejected r : (∀ l, be l = None) → resp_error r ≠ [] → (0 < resp_status r)%Z → resp_body r ≠ [] →
  local_response_of sf hn hv be r =
    LocalResponse (status_or_502 sf (resp_status r)) (out_headers hn hv (resp_headers r)) (resp_body r).
Proof.
  intros Hbe He Hst Hb. unfold local_response_of, response_parts.
  destruct (resp_error r); [done|]. rewrite (proj2 (Z.ltb_lt _ _) Hst), Hbe. by destruct (resp_body r).
Qed.

Lemma parts_unreachable r : (∀ l, be l = None) → resp_error r ≠ [] → (resp_status r ≤ 0)%Z →
  local_response_of sf hn hv be r = LocalResponse 502 (out_headers hn hv ∅) (resp_error r).
Proof.
  intros Hbe He Hst. unfold local_response_of, response_parts.
  destruct (resp_error r); [done|]. by rewrite (proj2 (Z.ltb_ge _ _) Hst), Hbe.
Qed.

(** What a local caller sees of the hub's answers.  A path outside the
    allowlist is a 403 naming the path, a cluster spoke's request a 403, an
    unreachable kernel a 502 with the error text, and a kernel response keeps its
    status and body. *)
Theorem hub_answers_reach_caller path e status hs body :
  (∀ n, (100 ≤ n < 1000)%N → sf n = Some n) → (∀ l, be l = None) → (100 ≤ status < 1000)%N →
  (lp_status (local_response_of sf hn hv be (rejected_path_response path)),
   lp_body (local_response_of sf hn hv be (rejected_path_response path)))
    = (403%N, lit "path not allowed: " ++ path) ∧
  (lp_status (local_response_of sf hn hv be rejected_kind_response),
   lp_body (local_response_of sf hn hv be rejected_kind_response))
    = (403%N, lit "application spoke required") ∧
  (lp_status (local_response_of sf hn hv be (upstream_error_response e)),
   lp_body (local_response_of sf hn hv be (upstream_error_response e)))
    = (502%N, lit "upstream error: " ++ e) ∧
  (lp_status (local_response_of sf hn hv be (ok_response status hs body)),
   lp_body (local_response_of sf hn hv be (ok_response status hs body))) = (status, body).
Proof.
  intros Hsf Hbe Hst.
  assert (∀ n, (100 ≤ n < 1000)%N → status_or_502 sf (Z.of_N n) = n) as Hok.
  { intros n Hn. unfold status_or_502, as_u16. rewrite Z.mod_small, N2Z.id by lia. by rewrite Hsf. }
  rewrite (parts_rejected (rejected_path_response path)), (parts_rejected rejected_kind_response),
    (parts_unreachable (upstream_error_response e)), (parts_ok (ok_response status hs body)) by (done || exact Hbe).
  cbn [lp_status lp_body resp_error resp_status resp_body rejected_path_response rejected_kind_response
    upstream_error_response ok_response].
  rewrite (Hok status) by done. rewrite (Hok 403%N ltac:(lia) : status_or_502 sf 403 = 403%N). done.
Qed.
End proxy_invariant.
