(* ===== verification/ProxyTermination.v ===== *)
(** * tunnel-client: every proxied request comes to an end

    [handle_http_proxy] has no loop: a handler takes at most seven steps, and
    until it has answered it can always take the next one, unless the channel of
    its session is full. *)
From S2P Require Import Prelude RustStd Proto ServerConfig Channel Oneshot ServerHttp ClientConfig ClientProxy.

Definition pc_rank (pc : proxy_pc) : nat :=
  match pc with
  | PxBody => 7
  | PxHub _ => 6
  | PxId _ _ => 5
  | PxInsert _ _ _ => 4
  | PxSend _ _ _ => 3
  | PxWait _ => 2
  | PxUnsent _ | PxExpired _ => 1
  | PxDone _ | PxGone => 0
  end.

Definition finished (pc : proxy_pc) : bool := match pc with PxDone _ | PxGone => true | _ => false end.

(** The session a handler has taken the sender of. *)
Definition pc_session (pc : proxy_pc) : option nat :=
  match pc with PxId _ s | PxInsert _ s _ | PxSend _ s _ => Some s | _ => None end.

Definition of_handler (k : nat) (l : proxy_label) : bool :=
  match l with PHandler k' _ => bool_decide (k' = k) | _ => false end.

Create Rewrite HintDb handler_pc.

Section proxy_termination.
Context {chan os : Type → Type} `{Hmpsc : Mpsc chan} `{Hone : Oneshot os} {HI : HashIter}.
Context (sf : N → option N) (hn hv : bytes → option bytes) (be : list (bytes * bytes) → option bytes).
Implicit Types (w : proxy_world chan os) (h : handler os).

(** The program counter of a handler, and how the operations change it. *)
Definition handler_pc (k : nat) w : option proxy_pc := pr_pc <$> px_handlers w !! k.

Lemma handler_pc_set k k0 h w :
  handler_pc k (set_handler k0 h w) = if decide (k0 = k) then Some (pr_pc h) else handler_pc k w.
Proof. unfold handler_pc. simpl. rewrite lookup_insert. by case_decide. Qed.
Lemma handler_pc_alter k k0 f w :
  handler_pc k (px_set_handlers (alter (set_slot f) k0 (px_handlers w)) w) = handler_pc k w.
Proof. unfold handler_pc. simpl. rewrite lookup_alter. case_decide; subst; [|done]. by destruct (px_handlers w !! k). Qed.
Lemma handler_pc_pending k m w : handler_pc k (px_set_pending m w) = handler_pc k w.
Proof. done. Qed.
Lemma handler_pc_log k l w : handler_pc k (px_add_log l w) = handler_pc k w.
Proof. done. Qed.
Lemma handler_pc_session k s q w : handler_pc k (px_set_session s q w) = handler_pc k w.
Proof. done. Qed.
Lemma handler_pc_hub k o w : handler_pc k (px_set_hub o w) = handler_pc k w.
Proof. done. Qed.
Lemma handler_pc_counter k n w : handler_pc k (px_set_counter n w) = handler_pc k w.
Proof. done. Qed.
Lemma handler_pc_remove k f sid w : handler_pc k (pending_remove f sid w) = handler_pc k w.
Proof. unfold pending_remove. case_match; [|done]. apply handler_pc_alter. Qed.
Lemma handler_pc_insert k sid k0 w : handler_pc k (pending_insert sid k0 w) = handler_pc k w.
Proof. unfold pending_insert. case_match; [|done]. apply handler_pc_alter. Qed.
Lemma handler_pc_flush k w : handler_pc k (flush w) = handler_pc k w.
Proof.
  unfold handler_pc. simpl. induction (map_to_list (px_pending w)) as [|x l IH]; [done|]. simpl.
  rewrite <-IH, lookup_alter. case_decide; subst; [|done]. by destruct (foldr _ _ l !! x.2).
Qed.
Hint Rewrite handler_pc_set handler_pc_pending handler_pc_log handler_pc_session handler_pc_hub
  handler_pc_counter handler_pc_remove handler_pc_insert handler_pc_flush : handler_pc.

Definition handler_rank (k : nat) w : nat := from_option pc_rank 7 (handler_pc k w).

Lemma handler_rank_le k w : handler_rank k w ≤ 7.
Proof. unfold handler_rank. destruct (handler_pc k w) as [pc|]; [destruct pc|]; simpl; lia. Qed.

Lemma handler_rank_step k l w w' :
  proxy_step sf hn hv be l w = Some w' → (if of_handler k l then 1 else 0) + handler_rank k w' ≤ handler_rank k w.
Proof.
  intros HS. unfold handler_rank, of_handler. proxy_inv HS; autorewrite with handler_pc; try done.
  all: match goal with Hk : px_handlers ?w0 !! ?k0 = _ |- _ =>
      let Hpc := fresh in assert (handler_pc k0 w0 = pr_pc <$> px_handlers w0 !! k0) as Hpc by done; rewrite Hk in Hpc;
      case_decide; subst; rewrite ?bool_decide_true, ?bool_decide_false by done; try done; rewrite Hpc end.
  all: simpl; repeat match goal with H : pr_pc _ = _ |- _ => rewrite H end; simpl; try lia.

Qed.
Lemma handler_pc_keep k ls w w' :
  exec (proxy_step sf hn hv be) ls w = Some w' → is_Some (handler_pc k w) → is_Some (handler_pc k w').
Proof.
  revert w. induction ls as [|l ls IH]; intros w He Hk; simplify_eq/=; [done|].
  destruct (proxy_step _ _ _ _ l w) as [w1|] eqn:HS; [|done]. apply (IH w1); [done|].
  proxy_inv HS; autorewrite with handler_pc; try done; case_decide; by eauto.
Qed.

(** A sender that has been cloned is a session's. *)
Definition senders_known w : Prop :=
  (∀ s, px_hub_tx w = Some s → is_Some (px_sessions w !! s)) ∧
  ∀ k pc s, handler_pc k w = Some pc → pc_session pc = Some s → is_Some (px_sessions w !! s).

Lemma senders_known_mono w w' :
  senders_known w → (∀ s, is_Some (px_sessions w !! s) → is_Some (px_sessions w' !! s)) →
  (∀ s, px_hub_tx w' = Some s → px_hub_tx w = Some s ∨ is_Some (px_sessions w !! s)) →
  (∀ k pc s, handler_pc k w' = Some pc → pc_session pc = Some s →
     px_hub_tx w = Some s ∨ ∃ pc0, handler_pc k w = Some pc0 ∧ pc_session pc0 = Some s) →
  senders_known w'.
Proof.
  intros [Hh Hp] Hm Hhub Hpc. split.
  - intros s Hs. apply Hm. destruct (Hhub s Hs); auto.
  - intros k pc s Hk Hs. apply Hm. destruct (Hpc k pc s Hk Hs) as [?|(pc0 & ? & ?)]; eauto.
Qed.

Lemma remove_fields f sid w :
  px_hub_tx (pending_remove f sid w) = px_hub_tx w ∧ px_sessions (pending_remove f sid w) = px_sessions w.
Proof. unfold pending_remove. by case_match. Qed.
Lemma insert_fields sid k w :
  px_hub_tx (pending_insert sid k w) = px_hub_tx w ∧ px_sessions (pending_insert sid k w) = px_sessions w.
Proof. unfold pending_insert. by case_match. Qed.

Lemma senders_known_step l w w' :
  senders_known w → proxy_step sf hn hv be l w = Some w' → senders_known w'.
Proof.
  intros Hw HS. apply (senders_known_mono w); [done|..].
  - intros s. proxy_inv HS; rewrite ?(proj2 (remove_fields _ _ _)), ?(proj2 (insert_fields _ _ _)); simpl; try done;
      rewrite ?(proj2 (remove_fields _ _ _)); try done; rewrite lookup_insert; case_decide; subst; eauto.
  - intros s. proxy_inv HS; rewrite ?(proj1 (remove_fields _ _ _)), ?(proj1 (insert_fields _ _ _)); simpl; auto;
      rewrite ?(proj1 (remove_fields _ _ _)); auto;
      intros ?; simplify_eq; first [left; congruence|right; by eauto].
  - intros k pc s. proxy_inv HS; autorewrite with handler_pc; eauto.
    all: match goal with Hk : px_handlers ?w0 !! ?k0 = _ |- _ =>
      let Hpc := fresh in assert (handler_pc k0 w0 = pr_pc <$> px_handlers w0 !! k0) as Hpc by done; rewrite Hk in Hpc;
      case_decide; subst; eauto end.
    all: intros [= <-] Hs; simplify_eq/=; auto.
    all: match goal with H : pr_pc _ = _ |- _ => rewrite H in * end; eauto.
Qed.

Lemma senders_known_reach w : reachable (proxy_step sf hn hv be) proxy_init w → senders_known w.
Proof.
  apply reachable_invariant; [|by intros; eapply senders_known_step].
  intros s ->. split; [done|]. intros k pc s'. unfold handler_pc. simpl. by rewrite lookup_empty.
Qed.

(** A handler in [hub_tx.send] whose session's channel is full. *)
Definition waits_for_room (k : nat) w : Prop :=
  ∃ req s sid q, handler_pc k w = Some (PxSend req s sid) ∧ px_sessions w !! s = Some q ∧
    mpsc_send (client_http_request sid req) q = SendFull.

Lemma handler_progress w k h :
  senders_known w → px_handlers w !! k = Some h → finished (pr_pc h) = false →
  (∃ e, is_Some (proxy_step sf hn hv be (PHandler k e) w)) ∨ waits_for_room k w.
Proof.
  intros [_ Hw] Hk Hf. specialize (Hw k). unfold waits_for_room, handler_pc in *. simpl. rewrite Hk in *.
  unfold handler_step, fetch_add1. destruct (pr_pc h) eqn:Hpc; simpl in *; try done.
  1: left; by exists (PBodyOk []).
  1,2,3: left; exists PTick; repeat case_match; by eauto.
  2,4: left; exists PTick; by eauto.
  2: left; destruct (oneshot_poll (pr_slot h)) eqn:Hp; [exists PTimeout|exists PTick..]; rewrite ?Hp; by eauto.
  destruct (Hw _ s eq_refl) as [q Hq]; [by rewrite Hpc|]. destruct (mpsc_send (client_http_request sid req) q) eqn:Hs.
  1,3: left; exists PTick; rewrite Hq, Hs; by eauto.
  right. exists req, s, sid, q. by rewrite Hpc.
Qed.

(** C18: every proxied request comes to an end.  Whatever else happens, a handler
    takes at most seven steps; until it has answered - or its caller has hung up
    - it can take the next one, the timeout included, except while the outbound
    channel of the session it sends on is full. *)
Theorem handler_terminates ls w w' k :
  reachable (proxy_step sf hn hv be) proxy_init w → exec (proxy_step sf hn hv be) ls w = Some w' →
  is_Some (px_handlers w !! k) →
  own_steps (of_handler k) ls ≤ 7 ∧
  ∃ h', px_handlers w' !! k = Some h' ∧
    (finished (pr_pc h') = true ∨ (∃ e, is_Some (proxy_step sf hn hv be (PHandler k e) w')) ∨ waits_for_room k w').
Proof.
  intros Hr He [h Hk]. split.
  - pose proof (own_steps_rank _ (of_handler k) (handler_rank k) ls w w' (handler_rank_step k) He).
    pose proof (handler_rank_le k w). lia.
  - pose proof (senders_known_reach _ (reachable_exec _ _ _ _ _ Hr He)) as Hw'.
    assert (is_Some (handler_pc k w')) as Hpc.
    { eapply handler_pc_keep; [done|]. unfold handler_pc. rewrite Hk. by eauto. }
    unfold handler_pc in Hpc. destruct (px_handlers w' !! k) as [h'|] eqn:Hk'; [|by destruct Hpc].
    exists h'. split; [done|]. destruct (finished (pr_pc h')) eqn:Hf; [by left|right]. by eapply handler_progress.
Qed.
End proxy_termination.

#[export] Hint Rewrite @handler_pc_set @handler_pc_pending @handler_pc_log @handler_pc_session @handler_pc_hub
  @handler_pc_counter @handler_pc_remove @handler_pc_insert @handler_pc_flush : handler_pc.
