(* ===== verification/ProxyWitness.v ===== *)
(** * tunnel-client: concrete runs of the HTTP proxy

    The witnesses of the proxy theorems, and a request that misses the flush. *)
From S2P Require Import Prelude RustStd Proto ServerConfig Channel Oneshot ServerHttp ClientConfig ClientProxy ProxyInvariant ProxyTermination.

(** [StatusCode::from_u16] accepts 100 to 999. *)
Definition demo_status (n : N) : option N := if ((100 <=? n) && (n <? 1000))%N then Some n else None.
Definition demo_header (b : bytes) : option bytes := Some b.
Definition demo_builder (_ : list (bytes * bytes)) : option bytes := None.

Definition demo_proxy_step : proxy_label → proxy_world queue slot → option (proxy_world queue slot) :=
  proxy_step_nowrap demo_status demo_header demo_header demo_builder.

Definition demo_local : local_request :=
  LocalRequest (lit "POST") (Some (lit "/core/x?q=1")) (lit "/core/x") [(lit "accept", Some (lit "*/*")); (lit "x", None)].

Definition proxy_after (ls : list proxy_label) : proxy_world queue slot :=
  default proxy_new (exec demo_proxy_step ls proxy_new).

Lemma proxy_after_exec ls :
  (if exec demo_proxy_step ls proxy_new is Some _ then true else false) = true →
  exec demo_proxy_step ls proxy_new = Some (proxy_after ls).
Proof. unfold proxy_after. by destruct (exec demo_proxy_step ls proxy_new). Qed.

Lemma proxy_after_reach ls :
  (if exec demo_proxy_step ls proxy_new is Some _ then true else false) = true →
  reachable demo_proxy_step proxy_init (proxy_after ls).
Proof. intros He%proxy_after_exec. eapply reachable_exec; [by constructor|done]. Qed.

(** Session 0 is attached, request 0 has been sent, and waits. *)
Definition waiting_run : list proxy_label :=
  [PSession 0; PAttach 0; PRequest 0 demo_local; PHandler 0 (PBodyOk (lit "b"));
   PHandler 0 PTick; PHandler 0 PTick; PHandler 0 PTick; PHandler 0 PTick].
Definition answered_run : list proxy_label :=
  waiting_run ++ [PResponse 0 (2 ^ 63) (HttpResponse 200 ∅ (lit "hello") []); PHandler 0 PTick].

Definition demo_handler (w : proxy_world queue slot) : handler slot :=
  default (Handler demo_local PxBody None oneshot_channel) (px_handlers w !! 0).

(** A request can miss the flush.  A handler that took the sender of a session
    before it ended, and registers after the flush, can still queue its frame on
    the dead session; nothing answers it, and it waits for its full timeout. *)
Theorem late_request_misses_flush :
  let before := [PSession 0; PAttach 0; PRequest 0 demo_local; PHandler 0 (PBodyOk (lit "b")); PHandler 0 PTick] in
  let ended := [PDetach; PFlush] in
  let after := [PHandler 0 PTick; PHandler 0 PTick; PHandler 0 PTick] in
  ∃ w h, exec demo_proxy_step (before ++ ended ++ after) proxy_new = Some w ∧
    px_hub_tx w = None ∧ px_handlers w !! 0 = Some h ∧ pr_pc h = PxWait (2 ^ 63) ∧
    px_pending w !! (2 ^ 63)%N = Some 0 ∧ oneshot_poll (pr_slot h) = OsPending.
Proof.
  set (ls := [PSession 0; PAttach 0; PRequest 0 demo_local; PHandler 0 (PBodyOk (lit "b")); PHandler 0 PTick]
    ++ [PDetach; PFlush] ++ [PHandler 0 PTick; PHandler 0 PTick; PHandler 0 PTick]).
  exists (proxy_after ls), (demo_handler (proxy_after ls)).
  split_and!; [by apply (proxy_after_exec ls); vm_compute|by vm_compute..].
Qed.

(** ** Witnesses *)
Lemma proxy_answers_own_request_witness :
  px_handlers (proxy_after answered_run) !! 0 = Some (demo_handler (proxy_after answered_run)) ∧
  (own_answer (plain_response 200 (lit "hello")) ∨
   ∃ s sid body r, PSent 0 s sid (proxied_request (pr_req (demo_handler (proxy_after answered_run))) body)
     ∈ px_log (proxy_after answered_run) ∧
     plain_response 200 (lit "hello") = local_response_of demo_status demo_header demo_header demo_builder r).
Proof.
  assert (px_handlers (proxy_after answered_run) !! 0 = Some (demo_handler (proxy_after answered_run))) as Hh
    by (by vm_compute).
  split; [done|].
  destruct (proxy_answers_own_request demo_status demo_header demo_header demo_builder (proxy_after answered_run) 0
    (demo_handler (proxy_after answered_run)) (plain_response 200 (lit "hello")))
    as [?|(s & sid & body & r & Hs & _ & Hr & _)].
  - apply proxy_after_reach. by vm_compute.
  - done.
  - by vm_compute.
  - by left.
  - right. eauto 10.
Defined.

Lemma proxy_ids_distinct_witness : (2 ^ 63 ≤ 2 ^ 63 < u64_modulus)%N.
Proof.
  assert (PSent 0 0 (2 ^ 63) (proxied_request demo_local (lit "b")) ∈ px_log (proxy_after waiting_run)) as Hs
    by (apply (bool_decide_unpack _); by vm_compute).
  apply (proxy_ids_distinct demo_status demo_header demo_header demo_builder (proxy_after waiting_run) 0 0 0 0
    (2 ^ 63) (2 ^ 63) _ _ (proxy_after_reach waiting_run ltac:(by vm_compute)) Hs Hs).
Defined.

Lemma proxy_waiting_is_pending_witness :
  px_pending (proxy_after waiting_run) !! (2 ^ 63)%N = Some 0.
Proof.
  apply (proxy_waiting_is_pending demo_status demo_header demo_header demo_builder (proxy_after waiting_run) 0
    (demo_handler (proxy_after waiting_run)) (2 ^ 63)).
  - apply proxy_after_reach. by vm_compute.
  - by vm_compute.
  - by vm_compute.
  - by vm_compute.
Defined.

Lemma hub_answers_reach_caller_witness :
  lp_status (local_response_of demo_status demo_header demo_header demo_builder rejected_kind_response) = 403%N.
Proof.
  destruct (hub_answers_reach_caller demo_status demo_header demo_header demo_builder [] [] 200 ∅ [])
    as (_ & Hk & _).
  - intros n Hn. unfold demo_status.
    rewrite (proj2 (N.leb_le 100 n)), (proj2 (N.ltb_lt n 1000)) by lia. done.
  - done.
  - done.
  - by simplify_eq.
Defined.

(** The handler of [waiting_run] has taken five of its seven steps; it can be
    answered, or time out. *)
Lemma handler_terminates_witness :
  let w := default proxy_new (exec (proxy_step demo_status demo_header demo_header demo_builder) waiting_run proxy_new) in
  own_steps (of_handler 0) waiting_run = 5 ∧ ∃ e, is_Some (proxy_step demo_status demo_header demo_header demo_builder (PHandler 0 e) w).
Proof.
  cbv zeta. set (step := proxy_step demo_status demo_header demo_header demo_builder).
  set (w := default proxy_new (exec step waiting_run proxy_new)). split; [by vm_compute|].
  set (w0 := default proxy_new (exec step (take 3 waiting_run) proxy_new)).
  destruct (handler_terminates demo_status demo_header demo_header demo_builder (drop 3 waiting_run) w0 w 0)
    as (_ & h' & Hk & [Hf|[He|(req & s & sid & q & Hpc & _)]]).
  - eapply reachable_exec; [by apply reachable_init|]. instantiate (1 := take 3 waiting_run). by vm_compute.
  - by vm_compute.
  - apply (bool_decide_unpack _). by vm_compute.
  - exfalso. vm_compute in Hk. injection Hk as <-. discriminate Hf.
  - exact He.
  - exfalso. vm_compute in Hpc. discriminate Hpc.
Defined.
