(* ===== verification/ClientSession.v ===== *)
(** * tunnel-client: one session and its streams

    [run_session_impl] from the moment the stream is up, and [run_stream], the
    pump it spawns for each [Open]: tasks with program counters that share the
    outbound channel and the map of stream writers.  Connecting (endpoint, TLS,
    the gRPC call) is the environment's business; the responses of the HTTP-proxy
    mode are handed to the proxy model ([CoHttp]), whose handlers send their
    requests on clones of the outbound sender ([CProxy]). *)
From S2P Require Import Prelude RustStd Proto ServerConfig Channel ClientConfig.

(** The read buffer of a pump. *)
Definition buf_len : nat := 32 * 1024.
#[global] Opaque buf_len.

(** ** State *)
Inductive main_pc :=
| CmNext                                  (* inbound.message() *)
| CmHandshake                             (* answer a challenge *)
| CmUnknown (sid : N) (name : bytes)      (* refuse an unknown target *)
| CmInsert (sid : N) (name target : bytes)
| CmDeliver (k : nat) (payload : bytes)   (* tx.send, holding a clone of the writer *)
| CmPong (sent_at : Z)
| CmDone (r : result () bytes).

Inductive pump_pc :=
| PuDial
| PuFail (reason : bytes)                 (* send the Close of a failed dial *)
| PuSelect
| PuSendData (payload : bytes)
| PuSendEof
| PuWrite (payload : bytes)
| PuRemove                                (* streams.remove *)
| PuDone.

Record pump (chan : Type → Type) := Pump {
  pu_sid : N;
  pu_name : bytes;
  pu_target : bytes;
  pu_inbound : chan bytes;
  pu_pc : pump_pc }.
Arguments Pump {chan} _ _ _ _ _.
Arguments pu_sid {chan} _.
Arguments pu_name {chan} _.
Arguments pu_target {chan} _.
Arguments pu_inbound {chan} _.
Arguments pu_pc {chan} _.

Inductive client_obs :=
| CoRecv (f : server_frame)               (* received from the hub *)
| CoMain (f : client_frame)               (* queued by the frame loop *)
| CoProxy (sid : N) (req : http_request)  (* queued by the HTTP proxy *)
| CoSent (k : nat) (f : client_frame)     (* queued by pump k *)
| CoDial (k : nat) (target : bytes)       (* pump k connects *)
| CoRead (k : nat) (payload : bytes)
| CoQueued (k : nat) (payload : bytes)    (* handed to pump k *)
| CoWrote (k : nat) (payload : bytes)
| CoHttp (sid : N) (r : http_response).   (* handed to the HTTP proxy *)

Record client_world (chan : Type → Type) := ClientWorld {
  cw_hub_tx : chan client_frame;
  cw_streams : gmap N nat;
  cw_pumps : gmap nat (pump chan);
  cw_main : main_pc;
  cw_log : list client_obs }.
Arguments ClientWorld {chan} _ _ _ _ _.
Arguments cw_hub_tx {chan} _.
Arguments cw_streams {chan} _.
Arguments cw_pumps {chan} _.
Arguments cw_main {chan} _.
Arguments cw_log {chan} _.

Inductive client_event :=
| ETick
| EFrame (f : server_frame)
| EEnd                                    (* Ok(None) *)
| EErr (e : bytes)
| ESpawn (k : nat)                        (* names the pump being spawned *)
| EDialOk | EDialErr (e : bytes) | EDialTimeout
| ERead (payload : bytes)                 (* empty is EOF *)
| EReadErr
| EWriteOk | EWriteErr (written : nat).

Inductive client_label :=
| CMain (e : client_event)
| CPump (k : nat) (e : client_event)
| CProxy (sid : N) (req : http_request)   (* handle_http_proxy sends on its clone of hub_tx *)
| CTxTake                                 (* tonic takes an outbound frame *)
| CTxDrop.

Section setters.
Context {chan : Type → Type}.
Implicit Types (w : client_world chan) (pu : pump chan).
Definition cw_set_tx (q : chan client_frame) w : client_world chan :=
  ClientWorld q (cw_streams w) (cw_pumps w) (cw_main w) (cw_log w).
Definition cw_set_streams (m : gmap N nat) w : client_world chan :=
  ClientWorld (cw_hub_tx w) m (cw_pumps w) (cw_main w) (cw_log w).
Definition set_pump (k : nat) pu w : client_world chan :=
  ClientWorld (cw_hub_tx w) (cw_streams w) (<[k := pu]> (cw_pumps w)) (cw_main w) (cw_log w).
Definition set_main (pc : main_pc) w : client_world chan :=
  ClientWorld (cw_hub_tx w) (cw_streams w) (cw_pumps w) pc (cw_log w).
Definition cw_add_log (l : list client_obs) w : client_world chan :=
  ClientWorld (cw_hub_tx w) (cw_streams w) (cw_pumps w) (cw_main w) (cw_log w ++ l).
Definition set_pump_pc (pc : pump_pc) pu : pump chan :=
  Pump (pu_sid pu) (pu_name pu) (pu_target pu) (pu_inbound pu) pc.
Definition set_inbound (q : chan bytes) pu : pump chan :=
  Pump (pu_sid pu) (pu_name pu) (pu_target pu) q (pu_pc pu).
End setters.

Section client_session.
Context {chan : Type → Type} `{!MpscOps chan} {HU : UnicodeTables}.
Context (cfg : client_config).
Implicit Types (w : client_world chan) (pu : pump chan).

(** [hub_tx.send(f).await]: [None] while the channel is full. *)
Definition hub_send (o : client_obs) (f : client_frame) w : option (bool * client_world chan) :=
  match mpsc_send f (cw_hub_tx w) with
  | Sent q => Some (true, cw_add_log [o] (cw_set_tx q w))
  | SendFull => None
  | SendClosed => Some (false, w)
  end.

Definition open_name (o : open_stream) : bytes :=
  match open_target o with [] => lit "default" | b :: t => b :: t end.

Definition unknown_target_reason (name : bytes) : bytes := lit "unknown target " ++ debug_str name.

(** The dispatch of one server frame. *)
Definition main_frame (f : server_frame) w : client_world chan :=
  let w := cw_add_log [CoRecv f] w in
  let sid := sf_stream_id f in
  match sf_kind f with
  | Some (SChallenge _) => set_main CmHandshake w
  | Some (SOpen o) =>
      let name := open_name o in
      match targets cfg !! name with
      | Some target => set_main (CmInsert sid name target) w
      | None => set_main (CmUnknown sid name) w
      end
  | Some (SData p) =>
      match cw_streams w !! sid with
      | Some k => set_main (CmDeliver k p) w
      | None => w
      end
  | Some (SClose _) => cw_set_streams (delete sid (cw_streams w)) w
  | Some (SPing sent_at) => set_main (CmPong sent_at) w
  | Some (SHttpResponse r) => cw_add_log [CoHttp sid r] w
  | None => w
  end.

(** The frame loop. *)
Definition main_step (e : client_event) w : option (client_world chan) :=
  match cw_main w, e with
  | CmNext, EFrame f => Some (main_frame f w)
  | CmNext, EEnd => Some (set_main (CmDone (Ok tt)) w)
  | CmNext, EErr err => Some (set_main (CmDone (Err err)) w)
  | CmHandshake, ETick =>
      let f := client_handshake (spoke_id cfg) (token cfg) in
      match hub_send (CoMain f) f w with
      | Some (true, w') => Some (set_main CmNext w')
      | Some (false, w') => Some (set_main (CmDone (Err (lit "failed to send handshake (hub_tx closed)"))) w')
      | None => None
      end
  | CmUnknown sid name, ETick =>
      let f := client_close sid false (unknown_target_reason name) in
      match hub_send (CoMain f) f w with
      | Some (_, w') => Some (set_main CmNext w')
      | None => None
      end
  | CmInsert sid name target, ESpawn k =>
      match cw_pumps w !! k with
      | Some _ => None
      | None =>
          Some (set_main CmNext
            (set_pump k (Pump sid name target (mpsc_channel 64) PuDial)
              (cw_set_streams (<[sid := k]> (cw_streams w)) w)))
      end
  | CmDeliver k p, ETick =>
      match cw_pumps w !! k with
      | Some pu =>
          match mpsc_send p (pu_inbound pu) with
          | Sent q => Some (cw_add_log [CoQueued k p] (set_pump k (set_inbound q pu) (set_main CmNext w)))
          | SendFull => None
          | SendClosed => Some (set_main CmNext w)
          end
      | None => None
      end
  | CmPong sent_at, ETick =>
      match hub_send (CoMain (client_pong sent_at)) (client_pong sent_at) w with
      | Some (_, w') => Some (set_main CmNext w')
      | None => None
      end
  | _, _ => None
  end.

(** Does a sender of pump [k]'s channel still exist. *)
Definition pump_has_sender (k : nat) pu w : bool :=
  bool_decide (cw_streams w !! pu_sid pu = Some k)
  || match cw_main w with CmDeliver k' _ => bool_decide (k' = k) | _ => false end.

(** [run_stream] *)
Definition pump_step (k : nat) pu (e : client_event) w : option (client_world chan) :=
  let goto pc := set_pump k (set_pump_pc pc pu) in
  match pu_pc pu, e with
  | PuDial, EDialOk => Some (cw_add_log [CoDial k (pu_target pu)] (goto PuSelect w))
  | PuDial, EDialErr err => Some (cw_add_log [CoDial k (pu_target pu)] (goto (PuFail err) w))
  | PuDial, EDialTimeout =>
      Some (cw_add_log [CoDial k (pu_target pu)] (goto (PuFail (lit "dial timeout")) w))
  | PuFail reason, ETick =>
      let f := client_close (pu_sid pu) false reason in
      match hub_send (CoSent k f) f w with Some (_, w') => Some (goto PuRemove w') | None => None end
  | PuSelect, ERead [] => Some (goto PuSendEof w)
  | PuSelect, ERead (b :: p) =>
      if decide (length (b :: p) ≤ buf_len)
      then Some (cw_add_log [CoRead k (b :: p)] (goto (PuSendData (b :: p)) w)) else None
  | PuSelect, EReadErr => Some (goto PuSendEof w)
  | PuSelect, ETick =>
      match mpsc_recv (pu_inbound pu) with
      | Some (p, q) => Some (set_pump k (set_inbound q (set_pump_pc (PuWrite p) pu)) w)
      | None => if pump_has_sender k pu w then None else Some (goto PuRemove w)
      end
  | PuSendData p, ETick =>
      let f := client_data (pu_sid pu) p in
      match hub_send (CoSent k f) f w with
      | Some (true, w') => Some (goto PuSelect w')
      | Some (false, w') => Some (goto PuRemove w')
      | None => None
      end
  | PuSendEof, ETick =>
      let f := client_close (pu_sid pu) true (lit "eof") in
      match hub_send (CoSent k f) f w with Some (_, w') => Some (goto PuRemove w') | None => None end
  | PuWrite p, EWriteOk => Some (cw_add_log [CoWrote k p] (goto PuSelect w))
  | PuWrite p, EWriteErr n => Some (cw_add_log [CoWrote k (take n p)] (goto PuRemove w))
  | PuRemove, ETick =>
      Some (set_pump k (set_inbound (mpsc_drop_rx (pu_inbound pu)) (set_pump_pc PuDone pu))
              (cw_set_streams (delete (pu_sid pu) (cw_streams w)) w))
  | _, _ => None
  end.

Definition client_step (l : client_label) w : option (client_world chan) :=
  match l with
  | CMain e => main_step e w
  | CPump k e => match cw_pumps w !! k with Some pu => pump_step k pu e w | None => None end
  | CProxy sid req =>
      match hub_send (CoProxy sid req) (client_http_request sid req) w with
      | Some (_, w') => Some w'
      | None => None
      end
  | CTxTake => match mpsc_recv (cw_hub_tx w) with Some (_, q) => Some (cw_set_tx q w) | None => None end
  | CTxDrop => Some (cw_set_tx (mpsc_drop_rx (cw_hub_tx w)) w)
  end.

Definition client_init w : Prop := w = ClientWorld (mpsc_channel 256) ∅ ∅ CmNext [].

Lemma hub_send_Some o f w b w' :
  hub_send o f w = Some (b, w') →
  (b = true ∧ ∃ q, mpsc_send f (cw_hub_tx w) = Sent q ∧ w' = cw_add_log [o] (cw_set_tx q w)) ∨
  (b = false ∧ w' = w).
Proof. unfold hub_send. destruct (mpsc_send f _); intros; simplify_eq; eauto. Qed.
End client_session.

(** Split a step hypothesis whose definitions are unfolded. *)
Ltac client_split H :=
  repeat first
    [ discriminate H
    | match type of H with
      | context [match cw_main ?x with _ => _ end] => destruct (cw_main x) eqn:?
      | context [match pu_pc ?x with _ => _ end] => destruct (pu_pc x) eqn:?
      | context [match ?x with _ => _ end] =>
          is_var x; match type of x with client_event => destruct x end
      | context [match hub_send ?o ?f ?w with _ => _ end] =>
          let E := fresh "Hsend" in destruct (hub_send o f w) as [[[] ?]|] eqn:E;
          [apply hub_send_Some in E as [(_ & ? & ? & ->)|(? & _)]; [|discriminate]
          |apply hub_send_Some in E as [(? & _)|(_ & ->)]; [discriminate|]
          |]
      | context [match ?x with _ => _ end] => destruct x eqn:?
      end ];
  injection H as <-.

Ltac client_inv H :=
  match type of H with client_step _ ?l _ = _ => destruct l end;
  unfold client_step in H; cbv beta iota in H;
  unfold main_step, pump_step, main_frame in H; client_split H.
