(* ===== verification/ClientPumps.v ===== *)
(** * tunnel-client: what a stream pump carries

    The observations of one pump, and the invariant that ties them to its state:
    the frames it queues are the bytes it reads in order with at most one final
    [Close], the bytes it writes are those the frame loop handed to it, and it
    connects once, to the target its [Open] named. *)
From S2P Require Import Prelude RustStd Proto ServerConfig Channel ClientConfig ClientSession.

#[export] Instance pump_pc_eq_dec : EqDecision pump_pc.
Proof. solve_decision. Defined.

(** ** The observations of one pump *)
Definition obs_pump (o : client_obs) : option nat :=
  match o with
  | CoSent k _ | CoDial k _ | CoRead k _ | CoQueued k _ | CoWrote k _ => Some k
  | CoRecv _ | CoMain _ | CoProxy _ _ | CoHttp _ _ => None
  end.

Definition pump_log (k : nat) (l : list client_obs) : list client_obs :=
  filter (λ o, obs_pump o = Some k) l.

Definition pump_frames (l : list client_obs) : list client_frame :=
  omap (λ o, match o with CoSent _ f => Some f | _ => None end) l.
Definition pump_dials (l : list client_obs) : list bytes :=
  omap (λ o, match o with CoDial _ t => Some t | _ => None end) l.
Definition pump_read (l : list client_obs) : bytes :=
  mjoin (omap (λ o, match o with CoRead _ p => Some p | _ => None end) l).
Definition pump_queued (l : list client_obs) : bytes :=
  mjoin (omap (λ o, match o with CoQueued _ p => Some p | _ => None end) l).
Definition pump_wrote (l : list client_obs) : bytes :=
  mjoin (omap (λ o, match o with CoWrote _ p => Some p | _ => None end) l).

Lemma pump_log_app k l1 l2 : pump_log k (l1 ++ l2) = pump_log k l1 ++ pump_log k l2.
Proof. apply filter_app. Qed.
Lemma pump_frames_app l1 l2 : pump_frames (l1 ++ l2) = pump_frames l1 ++ pump_frames l2.
Proof. apply omap_app. Qed.
Lemma pump_dials_app l1 l2 : pump_dials (l1 ++ l2) = pump_dials l1 ++ pump_dials l2.
Proof. apply omap_app. Qed.
Lemma pump_read_app l1 l2 : pump_read (l1 ++ l2) = pump_read l1 ++ pump_read l2.
Proof. unfold pump_read. by rewrite omap_app, mjoin_app_bytes. Qed.
Lemma pump_queued_app l1 l2 : pump_queued (l1 ++ l2) = pump_queued l1 ++ pump_queued l2.
Proof. unfold pump_queued. by rewrite omap_app, mjoin_app_bytes. Qed.
Lemma pump_wrote_app l1 l2 : pump_wrote (l1 ++ l2) = pump_wrote l1 ++ pump_wrote l2.
Proof. unfold pump_wrote. by rewrite omap_app, mjoin_app_bytes. Qed.

Create Rewrite HintDb pump_log.
#[export] Hint Rewrite pump_log_app pump_frames_app pump_dials_app pump_read_app pump_queued_app
  pump_wrote_app : pump_log.

Lemma pump_log_mine k l : Forall (λ o, obs_pump o = Some k) l → pump_log k l = l.
Proof. induction 1; [done|]. unfold pump_log. rewrite filter_cons_True by done. by f_equal. Qed.
Lemma pump_log_other k k' l : Forall (λ o, obs_pump o = Some k') l → k ≠ k' → pump_log k l = [].
Proof.
  induction 1 as [|o l Ho _ IH]; intros Hk; [done|]. unfold pump_log.
  rewrite filter_cons_False by (rewrite Ho; congruence). by apply IH.
Qed.
Lemma pump_log_quiet k l : Forall (λ o, obs_pump o = None) l → pump_log k l = [].
Proof. induction 1; [done|]. unfold pump_log. rewrite filter_cons_False by congruence. done. Qed.

Section pumps.
Context {chan : Type → Type} `{Hmpsc : Mpsc chan} `{HU : UnicodeTables}.
Context (cfg : client_config).
Implicit Types (w : client_world chan) (pu : pump chan).

(** ** The steps of one pump *)
Inductive pump_trans (k : nat) (pu : pump chan) : list client_obs → pump chan → Prop :=
| pt_dial pc :
    pu_pc pu = PuDial → (pc = PuSelect ∨ ∃ e, pc = PuFail e) →
    pump_trans k pu [CoDial k (pu_target pu)] (set_pump_pc pc pu)
| pt_refuse reason :
    pu_pc pu = PuFail reason →
    pump_trans k pu [CoSent k (client_close (pu_sid pu) false reason)] (set_pump_pc PuRemove pu)
| pt_read p :
    pu_pc pu = PuSelect → 0 < length p ≤ buf_len →
    pump_trans k pu [CoRead k p] (set_pump_pc (PuSendData p) pu)
| pt_read_eof : pu_pc pu = PuSelect → pump_trans k pu [] (set_pump_pc PuSendEof pu)
| pt_recv p q :
    pu_pc pu = PuSelect → mpsc_recv (pu_inbound pu) = Some (p, q) →
    pump_trans k pu [] (set_inbound q (set_pump_pc (PuWrite p) pu))
| pt_fail : pu_pc pu ∉ [PuDial; PuRemove; PuDone] → pump_trans k pu [] (set_pump_pc PuRemove pu)
| pt_send p :
    pu_pc pu = PuSendData p →
    pump_trans k pu [CoSent k (client_data (pu_sid pu) p)] (set_pump_pc PuSelect pu)
| pt_send_eof :
    pu_pc pu = PuSendEof →
    pump_trans k pu [CoSent k (client_close (pu_sid pu) true (lit "eof"))] (set_pump_pc PuRemove pu)
| pt_write p : pu_pc pu = PuWrite p → pump_trans k pu [CoWrote k p] (set_pump_pc PuSelect pu)
| pt_write_err p n :
    pu_pc pu = PuWrite p → pump_trans k pu [CoWrote k (take n p)] (set_pump_pc PuRemove pu)
| pt_remove :
    pu_pc pu = PuRemove →
    pump_trans k pu [] (set_inbound (mpsc_drop_rx (pu_inbound pu)) (set_pump_pc PuDone pu))
| pt_queue p q :
    mpsc_send p (pu_inbound pu) = Sent q → pump_trans k pu [CoQueued k p] (set_inbound q pu).

Lemma pump_trans_mine k pu l pu' : pump_trans k pu l pu' → Forall (λ o, obs_pump o = Some k) l.
Proof. by destruct 1; repeat constructor. Qed.
Lemma pump_trans_same k pu l pu' :
  pump_trans k pu l pu' → pu_sid pu' = pu_sid pu ∧ pu_name pu' = pu_name pu ∧ pu_target pu' = pu_target pu.
Proof. by destruct 1. Qed.

(** What a step does to the pumps and the log. *)
Inductive pumps_change w w' : Prop :=
| pc_quiet l :
    cw_pumps w' = cw_pumps w → cw_log w' = cw_log w ++ l → Forall (λ o, obs_pump o = None) l →
    pumps_change w w'
| pc_spawn k sid name target :
    cw_pumps w !! k = None → cw_main w = CmInsert sid name target →
    cw_pumps w' = <[k := Pump sid name target (mpsc_channel 64) PuDial]> (cw_pumps w) →
    cw_log w' = cw_log w →
    pumps_change w w'
| pc_pump k pu pu' l :
    cw_pumps w !! k = Some pu → pump_trans k pu l pu' →
    cw_pumps w' = <[k := pu']> (cw_pumps w) → cw_log w' = cw_log w ++ l →
    pumps_change w w'.

Lemma client_step_pumps l w w' : client_step cfg l w = Some w' → pumps_change w w'.
Proof.
  intros HS. client_inv HS.
  all: try solve [eapply (pc_quiet _ _ []); simpl; [done|by rewrite app_nil_r|done]].
  all: try solve [eapply pc_quiet; simpl; [done|by rewrite <-?(assoc_L (++))|repeat constructor]].
  all: try solve [eapply pc_spawn; simpl; eauto].
  all: try solve [eapply pc_pump; simpl; [eassumption| |done|done]; econstructor; eauto].
  all: try solve [eapply (pc_pump _ _ _ _ _ []); simpl; [eassumption| |done|by rewrite app_nil_r];
    first [by constructor|by eapply pt_recv
          |eapply pt_fail; match goal with H : pu_pc _ = _ |- _ => rewrite H end; set_solver]].
  all: eapply pc_pump; simpl; [eassumption| |done|done]; eapply pt_read; [done|].
  all: split; [simpl; lia|assumption].
Qed.

(** ** The invariant of one pump *)

(** The frames of a pump that has read and sent [sent]. *)
Definition data_frames (sid : N) (fs : list client_frame) (sent : bytes) : Prop :=
  ∃ ps, fs = client_data sid <$> ps ∧ mjoin ps = sent ∧ Forall (λ p, 0 < length p ≤ buf_len) ps.

Definition final_frames (sid : N) (fs : list client_frame) (rd : bytes) : Prop :=
  (∃ sent, data_frames sid fs sent ∧ sent `prefix_of` rd) ∨
  (∃ fs', fs = fs' ++ [client_close sid true (lit "eof")] ∧ data_frames sid fs' rd) ∨
  (∃ reason, fs = [client_close sid false reason] ∧ rd = []).

Definition pump_up_ok (pu : pump chan) (l : list client_obs) : Prop :=
  match pu_pc pu with
  | PuDial | PuFail _ => pump_frames l = [] ∧ pump_read l = []
  | PuSelect | PuSendEof | PuWrite _ => data_frames (pu_sid pu) (pump_frames l) (pump_read l)
  | PuSendData p =>
      ∃ sent, data_frames (pu_sid pu) (pump_frames l) sent ∧ pump_read l = sent ++ p ∧ 0 < length p ≤ buf_len
  | PuRemove | PuDone => final_frames (pu_sid pu) (pump_frames l) (pump_read l)
  end.

Definition pump_hold (pc : pump_pc) : bytes := match pc with PuWrite p => p | _ => [] end.
Definition pump_over (pc : pump_pc) : bool := match pc with PuRemove | PuDone => true | _ => false end.

Definition pump_down_ok (pu : pump chan) (l : list client_obs) : Prop :=
  if pump_over (pu_pc pu) then pump_wrote l `prefix_of` pump_queued l
  else pump_wrote l ++ pump_hold (pu_pc pu) ++ mjoin (mpsc_queued (pu_inbound pu)) = pump_queued l.

Definition pump_dial_ok (pu : pump chan) (l : list client_obs) : Prop :=
  pump_dials l = match pu_pc pu with PuDial => [] | _ => [pu_target pu] end.

Record pump_ok (pu : pump chan) (l : list client_obs) : Prop := {
  po_up : pump_up_ok pu l;
  po_down : pump_down_ok pu l;
  po_dial : pump_dial_ok pu l;
  po_alive : mpsc_rx_alive (pu_inbound pu) = negb (bool_decide (pu_pc pu = PuDone)) }.

Lemma data_frames_nil sid : data_frames sid [] [].
Proof. by exists []. Qed.

Lemma data_frames_snoc sid fs sent p :
  data_frames sid fs sent → 0 < length p ≤ buf_len →
  data_frames sid (fs ++ [client_data sid p]) (sent ++ p).
Proof.
  intros (ps & -> & <- & Hps) Hp. exists (ps ++ [p]).
  rewrite fmap_app, mjoin_app_bytes, Forall_app. simpl. rewrite app_nil_r. split_and!; [done..|]. by constructor.
Qed.

Lemma final_of_data sid fs sent rd : data_frames sid fs sent → sent `prefix_of` rd → final_frames sid fs rd.
Proof. intros. left. eauto. Qed.

(** Evaluate the projections of the new observations only. *)
Ltac new_obs l :=
  rewrite ?pump_frames_app, ?pump_dials_app, ?pump_read_app, ?pump_queued_app, ?pump_wrote_app;
  generalize dependent (pump_frames l); intros fs; generalize dependent (pump_read l); intros rd;
  generalize dependent (pump_dials l); intros dl; generalize dependent (pump_queued l); intros qd;
  generalize dependent (pump_wrote l); intros wr;
  unfold pump_frames, pump_dials, pump_read, pump_queued, pump_wrote.

Lemma pump_up_final pu l : pump_up_ok pu l → final_frames (pu_sid pu) (pump_frames l) (pump_read l).
Proof.
  unfold pump_up_ok. intros Hu. destruct (pu_pc pu); try done; try (by eapply final_of_data).
  - destruct Hu as [-> ->]. eapply final_of_data; [apply data_frames_nil|done].
  - destruct Hu as [-> ->]. eapply final_of_data; [apply data_frames_nil|done].
  - destruct Hu as (sent & Hs & -> & _). eapply final_of_data; [done|by apply prefix_app_r].
Qed.

Lemma pump_up_step k pu l d pu' :
  pump_up_ok pu l → pump_trans k pu d pu' → pump_up_ok pu' (l ++ d).
Proof.
  unfold pump_up_ok. intros H Ht. revert H. new_obs l. intros H.
  destruct Ht; simpl in *; rewrite ?app_nil_r;
    try match goal with Hp : pu_pc _ = _ |- _ => rewrite Hp in H end; try done.
  - destruct H as [-> ->]. destruct H1 as [->|[e ->]]; [apply data_frames_nil|done].
  - destruct H as [-> ->]. right; right. by exists reason.
  - by exists rd.
  - destruct (pu_pc pu); try set_solver; try (by eapply final_of_data).
    + destruct H as [-> ->]. eapply final_of_data; [apply data_frames_nil|done].
    + destruct H as (sent & Hs & -> & _). eapply final_of_data; [done|by apply prefix_app_r].
  - destruct H as (sent & Hs & -> & Hp). by apply data_frames_snoc.
  - right; left. eauto.
  - by eapply final_of_data.
Qed.

Lemma pump_down_step k pu l d pu' :
  pump_down_ok pu l → pump_trans k pu d pu' → pump_down_ok pu' (l ++ d).
Proof.
  unfold pump_down_ok. intros H Ht. revert H. new_obs l. intros H.
  destruct Ht; simpl in *; rewrite ?app_nil_r;
    try match goal with Hp : pu_pc _ = _ |- _ => rewrite Hp in H end; simpl in *; try done.
  - by destruct H1 as [->|[e ->]].
  - rewrite <-H. by apply prefix_app_r.
  - destruct (mpsc_recv_Some _ _ _ H1) as (Hq & _). by rewrite <-H, Hq.
  - destruct (pump_over (pu_pc pu)); [done|]. rewrite <-H. by apply prefix_app_r.
  - rewrite <-H. by apply prefix_app_r.
  - by rewrite <-(assoc_L (++)).
  - rewrite <-H. apply prefix_app, prefix_app_r, prefix_take.
  - destruct (mpsc_send_Sent _ _ _ H0) as (Hq & _). destruct (pump_over (pu_pc pu)).
    + by apply prefix_app_r.
    + rewrite <-H, Hq, mjoin_app_bytes. simpl. by rewrite app_nil_r, !(assoc_L (++)).
Qed.

Lemma pump_dial_step k pu l d pu' :
  pump_dial_ok pu l → pump_trans k pu d pu' → pump_dial_ok pu' (l ++ d).
Proof.
  unfold pump_dial_ok. intros H Ht. revert H. new_obs l. intros H.
  destruct Ht; simpl in *; rewrite ?app_nil_r;
    try match goal with Hp : pu_pc _ = _ |- _ => rewrite Hp in H end; simpl in *; try done.
  - rewrite H. by destruct H1 as [->|[e ->]].
  - destruct (pu_pc pu); set_solver.
Qed.

Lemma pump_alive_step k pu d pu' :
  pump_trans k pu d pu' → mpsc_rx_alive (pu_inbound pu) = negb (bool_decide (pu_pc pu = PuDone)) →
  mpsc_rx_alive (pu_inbound pu') = negb (bool_decide (pu_pc pu' = PuDone)).
Proof.
  intros Ht. destruct Ht; simpl; try match goal with Hp : pu_pc _ = _ |- _ => rewrite Hp end; try done.
  - by destruct H0 as [->|[e ->]].
  - destruct (mpsc_recv_Some _ _ _ H0) as (_ & -> & _). done.
  - intros ->. rewrite bool_decide_false by set_solver. done.
  - intros _. by rewrite mpsc_drop_alive.
  - destruct (mpsc_send_Sent _ _ _ H) as (_ & -> & -> & _). done.
Qed.

Lemma pump_ok_step k pu l d pu' : pump_ok pu l → pump_trans k pu d pu' → pump_ok pu' (l ++ d).
Proof.
  intros [Hu Hd Hl Ha] Ht. split; [by eapply pump_up_step|by eapply pump_down_step|by eapply pump_dial_step|].
  by eapply pump_alive_step.
Qed.

Lemma pump_ok_new sid name target : pump_ok (Pump sid name target (mpsc_channel 64) PuDial) [].
Proof.
  split; [done| |done|simpl; by rewrite mpsc_alive_new].
  unfold pump_down_ok. simpl. by rewrite mpsc_queued_new.
Qed.

Definition pumps_inv w : Prop :=
  ∀ k, match cw_pumps w !! k with
       | Some pu => pump_ok pu (pump_log k (cw_log w))
       | None => pump_log k (cw_log w) = []
       end.

Lemma pumps_inv_change w w' : pumps_inv w → pumps_change w w' → pumps_inv w'.
Proof.
  intros Hw Hc k'. specialize (Hw k').
  destruct Hc as [l Hp Hl Hq|k sid name target Hn _ Hp Hl|k pu pu' l Hk Ht Hp Hl]; rewrite Hp, Hl.
  - by rewrite pump_log_app, (pump_log_quiet k' l Hq), app_nil_r.
  - rewrite lookup_insert. case_decide; [|done]. subst k'. rewrite Hn in Hw. rewrite Hw. apply pump_ok_new.
  - rewrite pump_log_app, lookup_insert. case_decide as Hkk.
    + subst k'. rewrite Hk in Hw. rewrite (pump_log_mine k l) by (by eapply pump_trans_mine).
      by eapply pump_ok_step.
    + rewrite (pump_log_other k' k l) by (done || by eapply pump_trans_mine). by rewrite app_nil_r.
Qed.

Lemma client_pumps_inv w : reachable (client_step cfg) client_init w → pumps_inv w.
Proof.
  apply reachable_invariant.
  - intros s -> k. simpl. by rewrite lookup_empty.
  - intros l s s' Hs HS%client_step_pumps. by eapply pumps_inv_change.
Qed.
End pumps.
