(* ===== verification/ClientRoutes.v ===== *)
(** * tunnel-client: how the frame loop routes frames

    What [run_session_impl] does with the frames of the hub: the answers it
    queues itself, and the [Data] it hands to the pump registered under a stream
    id.  The routing invariant follows each pump back to the [Open] frame that
    started it. *)
From S2P Require Import Prelude RustStd Proto ServerConfig Channel ClientConfig ClientSession ClientPumps.

(** ** What the frame loop receives and queues *)
Definition client_recv (l : list client_obs) : list server_frame :=
  omap (λ o, match o with CoRecv f => Some f | _ => None end) l.
Definition client_replies (l : list client_obs) : list client_frame :=
  omap (λ o, match o with CoMain f => Some f | _ => None end) l.
Definition client_http (l : list client_obs) : list (N * http_response) :=
  omap (λ o, match o with CoHttp sid r => Some (sid, r) | _ => None end) l.

Definition server_data (sid : N) (f : server_frame) : bytes :=
  match sf_kind f with Some (SData p) => if decide (sf_stream_id f = sid) then p else [] | _ => [] end.
Definition stream_data (sid : N) (l : list client_obs) : bytes := mjoin (server_data sid <$> client_recv l).

Lemma client_recv_app l1 l2 : client_recv (l1 ++ l2) = client_recv l1 ++ client_recv l2.
Proof. apply omap_app. Qed.
Lemma client_replies_app l1 l2 : client_replies (l1 ++ l2) = client_replies l1 ++ client_replies l2.
Proof. apply omap_app. Qed.
Lemma client_http_app l1 l2 : client_http (l1 ++ l2) = client_http l1 ++ client_http l2.
Proof. apply omap_app. Qed.
Lemma stream_data_app sid l1 l2 : stream_data sid (l1 ++ l2) = stream_data sid l1 ++ stream_data sid l2.
Proof. unfold stream_data. by rewrite client_recv_app, fmap_app, mjoin_app_bytes. Qed.

Section routes.
Context {chan : Type → Type} `{Hmpsc : Mpsc chan} `{HU : UnicodeTables}.
Context (cfg : client_config).
Implicit Types (w : client_world chan) (pu : pump chan).

(** Since an [Open] of stream [sid] for the configured target [target], the
    [Data] bytes received for the stream are [rd]. *)
Definition since_open (sid : N) (name target : bytes) (l : list client_obs) (rd : bytes) : Prop :=
  ∃ l1 o l2, l = l1 ++ CoRecv (ServerFrame sid (Some (SOpen o))) :: l2 ∧
    open_name o = name ∧ targets cfg !! name = Some target ∧ stream_data sid l2 = rd.

Lemma since_open_app sid name target l rd d rd' :
  since_open sid name target l rd → rd ++ stream_data sid d = rd' →
  since_open sid name target (l ++ d) rd'.
Proof.
  intros (l1 & o & l2 & -> & Hn & Ht & <-) <-. exists l1, o, (l2 ++ d).
  rewrite <-(assoc_L (++)). by rewrite stream_data_app.
Qed.

(** The payload the frame loop is handing to pump [k]. *)
Definition main_hold (k : nat) (pc : main_pc) : bytes :=
  match pc with CmDeliver k' p => if decide (k' = k) then p else [] | _ => [] end.

Definition handed (k : nat) w : bytes := pump_queued (pump_log k (cw_log w)).

Record routes_inv w : Prop := {
  ri_pump k pu : cw_pumps w !! k = Some pu →
    ∃ post, since_open (pu_sid pu) (pu_name pu) (pu_target pu) (cw_log w)
              (handed k w ++ main_hold k (cw_main w) ++ post) ∧
      (cw_streams w !! pu_sid pu = Some k → post = []);
  ri_insert sid name target : cw_main w = CmInsert sid name target →
    since_open sid name target (cw_log w) [];
  ri_entry sid k : cw_streams w !! sid = Some k →
    ∃ pu, cw_pumps w !! k = Some pu ∧ pu_sid pu = sid ∧ pu_pc pu ≠ PuDone;
  ri_deliver k p : cw_main w = CmDeliver k p → is_Some (cw_pumps w !! k) }.

(** The steps of a session, as far as routing goes. *)
Inductive route_step w w' : Prop :=
| rs_other d :
    cw_log w' = cw_log w ++ d → (∀ s, stream_data s d = []) →
    (∀ k, pump_queued (pump_log k d) = []) →
    (∀ k, main_hold k (cw_main w') = main_hold k (cw_main w)) →
    (∀ k, is_Some (cw_pumps w' !! k) ↔ is_Some (cw_pumps w !! k)) →
    (∀ sid k, cw_streams w' !! sid = Some k → cw_streams w !! sid = Some k ∧
       ∀ pu, cw_pumps w !! k = Some pu → pu_sid pu = sid → pu_pc pu ≠ PuDone →
         ∃ pu', cw_pumps w' !! k = Some pu' ∧ pu_sid pu' = sid ∧ pu_pc pu' ≠ PuDone) →
    (∀ k p, cw_main w' = CmDeliver k p → cw_main w = CmDeliver k p) →
    (∀ sid name target, cw_main w' = CmInsert sid name target →
       cw_main w = CmInsert sid name target ∨
       ∃ o, d = [CoRecv (ServerFrame sid (Some (SOpen o)))] ∧ open_name o = name ∧
         targets cfg !! name = Some target) →
    route_step w w'
| rs_spawn k sid name target :
    cw_main w = CmInsert sid name target → cw_main w' = CmNext →
    cw_pumps w !! k = None →
    cw_pumps w' = <[k := Pump sid name target (mpsc_channel 64) PuDial]> (cw_pumps w) →
    cw_streams w' = <[sid := k]> (cw_streams w) → cw_log w' = cw_log w →
    route_step w w'
| rs_data k sid p :
    cw_main w = CmNext → cw_main w' = CmDeliver k p → cw_streams w !! sid = Some k →
    cw_pumps w' = cw_pumps w → cw_streams w' = cw_streams w →
    cw_log w' = cw_log w ++ [CoRecv (ServerFrame sid (Some (SData p)))] →
    route_step w w'
| rs_drop sid p :
    cw_main w = CmNext → cw_main w' = CmNext → cw_streams w !! sid = None →
    cw_pumps w' = cw_pumps w → cw_streams w' = cw_streams w →
    cw_log w' = cw_log w ++ [CoRecv (ServerFrame sid (Some (SData p)))] →
    route_step w w'
| rs_handed k p :
    cw_main w = CmDeliver k p → cw_main w' = CmNext →
    (∀ j pu, cw_pumps w !! j = Some pu →
       ∃ pu', cw_pumps w' !! j = Some pu' ∧ pu_sid pu' = pu_sid pu ∧ pu_pc pu' = pu_pc pu) →
    cw_streams w' = cw_streams w → cw_log w' = cw_log w ++ [CoQueued k p] →
    route_step w w'
| rs_lost k p pu :
    cw_main w = CmDeliver k p → cw_main w' = CmNext →
    cw_pumps w !! k = Some pu → mpsc_rx_alive (pu_inbound pu) = false →
    cw_pumps w' = cw_pumps w → cw_streams w' = cw_streams w → cw_log w' = cw_log w →
    route_step w w'.

Lemma entries_kept w k pu pu' (m m' : gmap N nat) :
  cw_pumps w !! k = Some pu → pu_sid pu' = pu_sid pu →
  (∀ sid j, m' !! sid = Some j → m !! sid = Some j ∧ (pu_pc pu' = PuDone → j = k → sid ≠ pu_sid pu)) →
  ∀ sid j, m' !! sid = Some j → m !! sid = Some j ∧
     ∀ p, cw_pumps w !! j = Some p → pu_sid p = sid → pu_pc p ≠ PuDone →
       ∃ p', <[k := pu']> (cw_pumps w) !! j = Some p' ∧ pu_sid p' = sid ∧ pu_pc p' ≠ PuDone.
Proof.
  intros Hk Hs Hm sid j Hj. destruct (Hm sid j Hj) as [Hj' Hd]. split; [done|].
  intros p Hp Hsid Hpc. rewrite lookup_insert. case_decide; [subst j|by eauto].
  simplify_eq. exists pu'. split_and!; [done..|]. intros Hdone. by destruct (Hd Hdone eq_refl).
Qed.

Lemma insert_dom w k pu pu' j :
  cw_pumps w !! k = Some pu → is_Some (<[k := pu']> (cw_pumps w) !! j) ↔ is_Some (cw_pumps w !! j).
Proof. intros Hk. rewrite lookup_insert. case_decide; [subst; rewrite Hk|done]. split; eauto. Qed.

(** The steps of a pump. *)
Lemma route_pump k pu pu' d w w' :
  cw_pumps w !! k = Some pu → pump_trans k pu d pu' → pump_queued d = [] →
  cw_pumps w' = <[k := pu']> (cw_pumps w) → cw_log w' = cw_log w ++ d → cw_main w' = cw_main w →
  (cw_streams w' = cw_streams w ∧ pu_pc pu' ≠ PuDone ∨ cw_streams w' = delete (pu_sid pu) (cw_streams w)) →
  route_step w w'.
Proof.
  intros Hk Ht Hq Hp Hl Hm Hst. pose proof (pump_trans_mine _ _ _ _ Ht) as Hmine.
  apply rs_other with d; [done| | |by rewrite Hm| | |by rewrite Hm|rewrite Hm; by left].
  - intros s. by destruct Ht.
  - intros j. destruct (decide (j = k)) as [->|]; [by rewrite pump_log_mine|].
    by erewrite pump_log_other.
  - intros j. rewrite Hp. by eapply insert_dom.
  - rewrite Hp. eapply entries_kept; [done|by eapply pump_trans_same|].
    intros sid j. destruct Hst as [[-> ?]| ->]; [done|]. rewrite lookup_delete.
    case_decide; [done|]. intros ?. split; [done|]. congruence.
Qed.

(** The steps that change no pump. *)
Lemma route_main d w w' :
  cw_pumps w' = cw_pumps w → cw_log w' = cw_log w ++ d →
  Forall (λ o, obs_pump o = None) d → (∀ s, stream_data s d = []) →
  (∀ sid k, cw_streams w' !! sid = Some k → cw_streams w !! sid = Some k) →
  (∀ k, main_hold k (cw_main w') = main_hold k (cw_main w)) →
  (∀ k p, cw_main w' = CmDeliver k p → cw_main w = CmDeliver k p) →
  (∀ sid name target, cw_main w' = CmInsert sid name target →
     cw_main w = CmInsert sid name target ∨
     ∃ o, d = [CoRecv (ServerFrame sid (Some (SOpen o)))] ∧ open_name o = name ∧
       targets cfg !! name = Some target) →
  route_step w w'.
Proof.
  intros Hp Hl Hq Hs Hst Hh Hd Hi. apply rs_other with d; rewrite ?Hp; [done..| |done|done| |done|done].
  - intros k. by rewrite pump_log_quiet.
  - intros sid k Hk. split; [by apply Hst|]. eauto.
Qed.

Definition no_data (f : server_frame) : Prop :=
  match sf_kind f with Some (SData _) => False | _ => True end.

Lemma stream_data_recv s f : no_data f → stream_data s [CoRecv f] = [].
Proof. unfold stream_data, no_data. simpl. unfold server_data. repeat case_match; done. Qed.

(** The dispatch of a frame. *)
Lemma route_frame f w : cw_main w = CmNext → route_step w (main_frame cfg f w).
Proof.
  intros Hm. destruct f as [sid kind]. unfold main_frame. simpl.
  destruct kind as [[c|o|p|c|t|r]|].
  2: destruct (targets cfg !! open_name o) as [target|] eqn:Ht.
  4: destruct (cw_streams w !! sid) as [k|] eqn:Hk.
  4: by eapply rs_data.
  4: by eapply rs_drop.
  all: match goal with
    | |- context [cw_add_log [?b] (cw_add_log [?a] _)] => apply (route_main [a; b])
    | |- context [cw_add_log [?a] _] => apply (route_main [a])
    end; simpl; try (intros; by rewrite Hm); try (by repeat constructor); try done; try congruence.
  - intros sid' n t [= <- <- <-]. right. eauto.
  - intros s k. rewrite lookup_delete. by case_decide.
  - by rewrite <-(assoc_L (++)).
Qed.

(** A step of the frame loop between two frames. *)
Lemma route_idle d w w' :
  cw_pumps w' = cw_pumps w → cw_log w' = cw_log w ++ d → cw_streams w' = cw_streams w →
  (d = [] ∨ (∃ f, d = [CoMain f]) ∨ ∃ sid req, d = [CoProxy sid req]) →
  (cw_main w' = cw_main w ∨ (∀ k, main_hold k (cw_main w) = []) ∧ (cw_main w' = CmNext ∨ ∃ r, cw_main w' = CmDone r)) →
  route_step w w'.
Proof.
  intros Hp Hl Hs Hd Hm. apply (route_main d); [done|done|..].
  - destruct Hd as [->|[[f ->]|(s & r & ->)]]; repeat constructor.
  - by destruct Hd as [->|[[f ->]|(s & r & ->)]].
  - by rewrite Hs.
  - intros k. destruct Hm as [->|[-> [->|[r ->]]]]; done.
  - intros k p Hw. destruct Hm as [<-|[_ [Hn|[r Hn]]]]; [done|congruence..].
  - intros sid n t Hw. destruct Hm as [<-|[_ [Hn|[r Hn]]]]; [by left|congruence..].
Qed.

Lemma route_loop e w w' : main_step cfg e w = Some w' → route_step w w'.
Proof.
  unfold main_step. intros HS.
  destruct (cw_main w) eqn:Hm, e; try discriminate HS.
  1: injection HS as <-; by apply route_frame.
  all: client_split HS.
  all: try solve [eapply (route_idle []); simpl; [done|by rewrite app_nil_r|done|by left|right]; rewrite Hm; eauto].
  all: try solve [eapply (route_idle [_]); simpl; [done|done|done|by right; eauto|right]; rewrite Hm; eauto].
  - by eapply rs_spawn.
  - eapply rs_handed; [done|done|simpl|done|done].
    intros j pu Hj. rewrite lookup_insert. case_decide; [|by eauto]. subst. simplify_eq. by eexists.
  - eapply rs_lost; [done|done|done| |done..]. by eapply mpsc_send_SendClosed.
Qed.

Lemma route_of_pump k pu e w w' :
  cw_pumps w !! k = Some pu → pump_step k pu e w = Some w' → route_step w w'.
Proof.
  intros Hk. unfold pump_step. intros HS. client_split HS.
  all: try solve [eapply route_pump; simpl;
    [eassumption|by econstructor; eauto|done|done|done|done|first [by left|by right]]].
  all: try solve [eapply (route_pump _ _ _ []); simpl;
    [eassumption| |done|done|by rewrite app_nil_r|done|first [by left|by right]];
    first [by constructor|by eapply pt_recv
          |eapply pt_fail; match goal with H : pu_pc _ = _ |- _ => rewrite H end; set_solver]].
  - eapply route_pump; simpl; [done|by eapply pt_dial; [|left]|done..|by left].
  - eapply (route_pump _ _ _ [CoRead k (_ :: _)]); simpl; [done| |done|done|done|done|by left].
    eapply pt_read; [done|split; [simpl; lia|done]].
Qed.

Lemma client_step_route l w w' : client_step cfg l w = Some w' → route_step w w'.
Proof.
  destruct l as [e|k e|sid req| |]; simpl; intros HS.
  - by eapply route_loop.
  - destruct (cw_pumps w !! k) eqn:Hk; [|done]. by eapply route_of_pump.
  - destruct (hub_send _ _ w) as [[[] w1]|] eqn:E; simplify_eq;
      apply hub_send_Some in E as [(? & q & ? & ->)|(? & ->)]; simplify_eq.
    + eapply (route_idle [_]); simpl; [done|done|done|right; right; eauto|by left].
    + eapply (route_idle []); simpl; [done|by rewrite app_nil_r|done|by left|by left].
  - destruct (mpsc_recv (cw_hub_tx w)) as [[f q]|]; simplify_eq.
    eapply (route_idle []); simpl; [done|by rewrite app_nil_r|done|by left|by left].
  - simplify_eq. eapply (route_idle []); simpl; [done|by rewrite app_nil_r|done|by left|by left].
Qed.

(** ** The invariant is preserved *)
Lemma routes_inv_init w : client_init w → routes_inv w.
Proof. intros ->. split; simpl; intros *; rewrite ?lookup_empty; done. Qed.

Section preserved.
Context (w w' : client_world chan) (Hp : pumps_inv w) (Hp' : pumps_inv w') (Hw : routes_inv w).
Context (Hc : pumps_change w w') (HS : route_step w w').

(** A pump keeps its stream and target, or has just been spawned. *)
Lemma pump_old k pu' :
  cw_pumps w' !! k = Some pu' →
  (∃ pu, cw_pumps w !! k = Some pu ∧ pu_sid pu' = pu_sid pu ∧ pu_name pu' = pu_name pu ∧ pu_target pu' = pu_target pu) ∨
  (cw_pumps w !! k = None ∧ ∃ sid name target, cw_main w = CmInsert sid name target ∧
     pu' = Pump sid name target (mpsc_channel 64) PuDial).
Proof using Hc.
  destruct Hc as [l Hq _ _|j sid name target Hn Hm Hq _|j pu pu1 l Hj Ht Hq _]; rewrite Hq.
  - eauto 10.
  - rewrite lookup_insert. case_decide; [subst|by eauto 10]. intros. simplify_eq. right. eauto 10.
  - rewrite lookup_insert. case_decide; [subst|by eauto 10]. intros. simplify_eq. left.
    exists pu. split; [done|]. by eapply pump_trans_same.
Qed.

Lemma handed_app k d : cw_log w' = cw_log w ++ d → handed k w' = handed k w ++ pump_queued (pump_log k d).
Proof using Type. intros Hl. unfold handed. by rewrite Hl, pump_log_app, pump_queued_app. Qed.

Lemma routes_insert sid name target :
  cw_main w' = CmInsert sid name target → since_open sid name target (cw_log w') [].
Proof using Hw HS.
  intros Hm'. destruct HS as [d Hl Hsd _ _ _ _ _ Hi|?|?|?|?|?]; try congruence.
  rewrite Hl. destruct (Hi _ _ _ Hm') as [Hm|(o & -> & <- & Ht)].
  - eapply since_open_app; [by eapply ri_insert|]. by rewrite Hsd.
  - by exists (cw_log w), o, [].
Qed.

Lemma routes_entry sid k :
  cw_streams w' !! sid = Some k → ∃ pu, cw_pumps w' !! k = Some pu ∧ pu_sid pu = sid ∧ pu_pc pu ≠ PuDone.
Proof using Hw HS Hc.
  intros Hk. destruct HS as [d _ _ _ _ _ Hst _ _|j s n t Hm _ Hj Hq Hs _|j s p _ _ _ Hq Hs _|s p _ _ _ Hq Hs _
    |j p Hm _ Hj Hs Hl|j p pu Hm _ _ _ Hq Hs _].
  - destruct (Hst _ _ Hk) as [Hk0 Hpu]. destruct (ri_entry _ Hw _ _ Hk0) as (pu & ? & ? & ?). eauto.
  - rewrite Hs, lookup_insert in Hk. rewrite Hq. case_decide; simplify_eq.
    + rewrite lookup_insert_eq. eauto.
    + destruct (ri_entry _ Hw _ _ Hk) as (pu & ? & ? & ?). exists pu. rewrite lookup_insert_ne by congruence. done.
  - rewrite Hs in Hk. rewrite Hq. by apply (ri_entry _ Hw).
  - rewrite Hs in Hk. rewrite Hq. by apply (ri_entry _ Hw).
  - rewrite Hs in Hk. destruct (ri_entry _ Hw _ _ Hk) as (pu & Hpu & <- & Hpc).
    destruct (Hj _ _ Hpu) as (pu' & ? & ? & ?). exists pu'. split_and!; congruence.
  - rewrite Hs in Hk. rewrite Hq. by apply (ri_entry _ Hw).
Qed.

Lemma routes_deliver k p : cw_main w' = CmDeliver k p → is_Some (cw_pumps w' !! k).
Proof using Hw HS.
  intros Hm'. destruct HS as [d _ _ _ _ Hd _ Hm _|?|j s q _ Hm Hs Hq _ _|?|?|?]; try congruence.
  - apply Hd. by eapply (ri_deliver _ Hw), Hm.
  - assert (j = k) as -> by congruence. rewrite Hq. destruct (ri_entry _ Hw _ _ Hs) as (pu & Hpu & _). eauto.
Qed.

Lemma routes_spawned sid name target k :
  cw_main w = CmInsert sid name target → cw_pumps w !! k = None → cw_pumps w' !! k ≠ None →
  since_open sid name target (cw_log w') (handed k w' ++ main_hold k (cw_main w') ++ []).
Proof using Hw HS Hp.
  intros Hm Hn Hk.
  destruct HS as [d _ _ _ _ Hd _ _ _|j s n t Hm2 Hm' _ _ _ Hl|?|?|?|?]; try congruence.
  - exfalso. destruct (cw_pumps w' !! k) eqn:Hk'; [|done].
    destruct (proj1 (Hd k)) as [? ?]; [by eauto|congruence].
  - pose proof (Hp k) as Hk0. rewrite Hn in Hk0. unfold handed. rewrite Hl, Hm', Hk0. simpl.
    by eapply (ri_insert _ Hw).
Qed.

Lemma routes_kept k pu :
  cw_pumps w !! k = Some pu →
  ∃ post, since_open (pu_sid pu) (pu_name pu) (pu_target pu) (cw_log w')
            (handed k w' ++ main_hold k (cw_main w') ++ post) ∧
    (cw_streams w' !! pu_sid pu = Some k → post = []).
Proof using Hw HS Hp.
  intros Hk. destruct (ri_pump _ Hw _ _ Hk) as (post & Hso & Hpost).
  destruct HS as [d Hl Hd Hq Hh _ Hst _ _|j s n t Hm Hm' Hj _ Hs Hl|j s p Hm Hm' Hj _ Hs Hl
    |s p Hm Hm' Hj _ Hs Hl|j p Hm Hm' _ Hs Hl|j p pu1 Hm Hm' Hj Hdead _ Hs Hl].
  - exists post. rewrite (handed_app k d Hl), Hq, Hh, app_nil_r, Hl. split.
    + eapply since_open_app; [done|]. by rewrite Hd, app_nil_r.
    + intros Hin. apply Hpost. by apply Hst.
  - exists post. rewrite (handed_app k []), Hl, Hm' by (by rewrite app_nil_r). rewrite Hm in Hso.
    simpl in *. rewrite app_nil_r. split; [done|]. rewrite Hs, lookup_insert.
    case_decide; [|done]. intros [= ->]. congruence.
  - (* data for a registered pump *)
    rewrite (handed_app k _ Hl), Hl, Hm', Hs. rewrite Hm in Hso. simpl in *. rewrite app_nil_r.
    destruct (decide (s = pu_sid pu)) as [->|Hne].
    + case_decide; [subst j|].
      * exists []. split; [|done]. eapply since_open_app; [done|]. rewrite (Hpost Hj).
        unfold stream_data; simpl. unfold server_data; simpl. rewrite decide_True by done. by rewrite !app_nil_r.
      * exists (post ++ p). split; [|congruence]. eapply since_open_app; [done|].
        unfold stream_data; simpl. unfold server_data; simpl. rewrite decide_True by done.
        by rewrite !app_nil_r, <-(assoc_L (++)).
    + case_decide; [subst j|].
      { destruct (ri_entry _ Hw _ _ Hj) as (pu2 & ? & ? & _). congruence. }
      exists post. split; [|done]. eapply since_open_app; [done|].
      unfold stream_data; simpl. unfold server_data; simpl. rewrite decide_False by done. by rewrite !app_nil_r.
  - (* data for an unknown stream *)
    rewrite (handed_app k _ Hl), Hl, Hm', Hs. rewrite Hm in Hso. simpl in *. rewrite app_nil_r.
    exists (post ++ if decide (s = pu_sid pu) then p else []). split.
    + eapply since_open_app; [done|]. unfold stream_data; simpl. unfold server_data; simpl.
      by rewrite app_nil_r, <-(assoc_L (++)).
    + case_decide; [congruence|]. intros. rewrite app_nil_r. by apply Hpost.
  - exists post. rewrite (handed_app k _ Hl), Hl, Hm', Hs. rewrite Hm in Hso. simpl in *. split; [|done].
    eapply since_open_app; [done|]. unfold stream_data; simpl. rewrite app_nil_r, <-(assoc_L (++)). f_equal.
    case_decide.
    + rewrite (pump_log_mine k) by (subst; by repeat constructor). unfold pump_queued; simpl. by rewrite app_nil_r.
    + rewrite (pump_log_other k j) by (by repeat constructor). done.
  - (* the pump is gone *)
    exists (main_hold k (cw_main w) ++ post). rewrite (handed_app k []), Hl, Hm', Hs by (by rewrite app_nil_r).
    simpl. rewrite app_nil_r. split; [done|]. intros Hin. rewrite (Hpost Hin), app_nil_r, Hm. simpl.
    case_decide; [subst j|done]. exfalso. destruct (ri_entry _ Hw _ _ Hin) as (pu2 & ? & _ & Hpc). simplify_eq.
    pose proof (Hp k) as Hok. rewrite Hk in Hok. pose proof (po_alive _ _ Hok) as Ha.
    rewrite Hdead, bool_decide_false in Ha by done. done.
Qed.

Lemma routes_inv_step : routes_inv w'.
Proof using All.
  split; [|apply routes_insert|apply routes_entry|apply routes_deliver].
  intros k pu' Hk'. destruct (pump_old k pu' Hk') as [(pu & Hk & -> & -> & ->)|(Hk & sid & n & t & Hm & ->)].
  - by apply routes_kept.
  - exists []. simpl. split; [|done]. apply routes_spawned; congruence.
Qed.
End preserved.

Lemma client_routes_inv w : reachable (client_step cfg) client_init w → pumps_inv w ∧ routes_inv w.
Proof.
  intros Hr. split; [by eapply client_pumps_inv|].
  revert w Hr. apply reachable_invariant_strong; [apply routes_inv_init|].
  intros l s s' Hr Hs HS. eapply routes_inv_step; [by eapply client_pumps_inv| |done|..].
  - eapply client_pumps_inv. by eapply reachable_step.
  - by eapply client_step_pumps.
  - by eapply client_step_route.
Qed.

(** ** One pump per stream, while the hub opens each stream once *)
Definition is_open (sid : N) (f : server_frame) : bool :=
  match sf_kind f with Some (SOpen _) => bool_decide (sf_stream_id f = sid) | _ => false end.

Definition opens (sid : N) (l : list client_obs) : nat :=
  length (filter (λ f, is_open sid f = true) (client_recv l)).

Lemma opens_app sid l d : opens sid (l ++ d) = opens sid l + opens sid d.
Proof. unfold opens. by rewrite client_recv_app, filter_app, length_app. Qed.

Lemma opens_since sid name target l rd : since_open sid name target l rd → 1 ≤ opens sid l.
Proof.
  intros (l1 & o & l2 & -> & _). change (CoRecv ?f :: l2) with ([CoRecv f] ++ l2). rewrite !opens_app.
  assert (opens sid [CoRecv (ServerFrame sid (Some (SOpen o)))] = 1) as ->; [|lia].
  unfold opens, is_open. simpl. rewrite filter_cons_True by (simpl; by rewrite bool_decide_true). done.
Qed.

Record unique_inv w : Prop := {
  un_pumps k1 k2 pu1 pu2 : cw_pumps w !! k1 = Some pu1 → cw_pumps w !! k2 = Some pu2 →
    pu_sid pu1 = pu_sid pu2 → opens (pu_sid pu1) (cw_log w) ≤ 1 → k1 = k2;
  un_insert sid name target k pu : cw_main w = CmInsert sid name target → cw_pumps w !! k = Some pu →
    pu_sid pu = sid → ¬ opens sid (cw_log w) ≤ 1 }.

Section unique_preserved.
Context (w w' : client_world chan) (Hi : routes_inv w) (Hu : unique_inv w).
Context (Hc : pumps_change w w') (HS : route_step w w').

Lemma unique_grows sid : opens sid (cw_log w) ≤ opens sid (cw_log w').
Proof using Hc. by destruct Hc as [? _ -> _|? ? ? ? _ _ _ ->|? ? ? ? _ _ _ ->]; rewrite ?opens_app; lia. Qed.

Lemma unique_step : unique_inv w'.
Proof using All.
  assert (∀ sid, opens sid (cw_log w') ≤ 1 → opens sid (cw_log w) ≤ 1) as Hle.
  { intros sid. pose proof (unique_grows sid). lia. }
  destruct HS as [d Hl _ _ _ Hd _ _ Hin|j s n t Hm Hm' Hj Hq _ Hl|j s p Hm Hm' _ _ _ _|s p Hm Hm' _ _ _ _
    |j p Hm Hm' _ _ _|j p pu Hm Hm' _ _ _ _ _].
  2: { (* a pump is spawned *)
    assert (∀ k pu, cw_pumps w !! k = Some pu → pu_sid pu = s → ¬ opens s (cw_log w') ≤ 1) as Hno.
    { intros k pu Hk Hs Ho. eapply (un_insert _ Hu); eauto. }
    split; [|congruence]. intros k1 k2 pu1 pu2. rewrite Hq, !lookup_insert.
    repeat case_decide; intros Hk1 Hk2 Hsid Ho; simplify_eq/=; try done.
    - exfalso. eapply Hno; eauto.
    - exfalso. eapply Hno; eauto.
    - eapply (un_pumps _ Hu); eauto. }
  all: assert (∀ k pu', cw_pumps w' !! k = Some pu' → ∃ pu, cw_pumps w !! k = Some pu ∧ pu_sid pu' = pu_sid pu)
    as Hold by (intros k pu' Hk; destruct (pump_old w w' Hc k pu' Hk) as [(pu0 & ? & ? & _)|(Hn & ? & ? & ? & ? & _)];
      [by eauto|try congruence]; destruct (proj1 (Hd k) ltac:(eauto)) as [? ?]; congruence).
  all: split; [intros k1 k2 pu1' pu2' Hk1 Hk2 Hs Ho;
    destruct (Hold _ _ Hk1) as (pu1 & Hp1 & Hs1), (Hold _ _ Hk2) as (pu2 & Hp2 & Hs2);
    eapply (un_pumps _ Hu); [done|done|congruence|apply Hle; congruence]|try congruence].
  intros sid n t k pu' Hm' Hk Hs Ho. destruct (Hold _ _ Hk) as (pu & Hp & Hs').
  destruct (Hin _ _ _ Hm') as [Hm|(o & -> & _)].
  - eapply (un_insert _ Hu); [done|done|congruence|by apply Hle].
  - destruct (ri_pump _ Hi _ _ Hp) as (post & Hso & _). apply opens_since in Hso.
    rewrite Hl, opens_app in Ho. rewrite <-Hs, Hs' in *.
    assert (opens (pu_sid pu) [CoRecv (ServerFrame (pu_sid pu) (Some (SOpen o)))] = 1) as H1; [|lia].
    unfold opens, is_open. simpl. rewrite filter_cons_True by (simpl; by rewrite bool_decide_true). done.
Qed.
End unique_preserved.

Lemma client_unique_inv w : reachable (client_step cfg) client_init w → unique_inv w.
Proof.
  apply reachable_invariant_strong.
  - intros s ->. split; simpl; intros *; rewrite ?lookup_empty; done.
  - intros l s s' Hr Hs HS. destruct (client_routes_inv s Hr) as [_ Hi].
    eapply (unique_step s s'); [done|done|by eapply client_step_pumps|by eapply client_step_route].
Qed.
End routes.
