(* ===== verification/ClientStreams.v ===== *)
(** * tunnel-client: the properties of a session's streams

    The bytes of a stream in both directions, the targets connected to, the
    answers of the frame loop, and the pumps that outlive their session. *)
From S2P Require Import Prelude RustStd Proto ServerConfig Channel ServerHub ClientConfig ClientSession ClientPumps ClientRoutes.

Section client_streams.
Context {chan : Type → Type} `{Hmpsc : Mpsc chan} `{HU : UnicodeTables}.
Context (cfg : client_config).
Implicit Types (w : client_world chan) (pu : pump chan).

Lemma pump_log_elem k o l : o ∈ l → obs_pump o = Some k → o ∈ pump_log k l.
Proof. intros. by apply list_elem_of_filter. Qed.

(** C13: target to hub.  The frames a pump queues are [Data] frames of its stream,
    none empty or above the buffer size, and at most one final [Close].  Their
    payloads are a prefix of what was read from the target, all of it but the
    chunk in hand while the pump runs, and all of it when EOF was announced; a
    failed dial is one full [Close] and nothing else. *)
Theorem pump_frames_shape w k pu :
  reachable (client_step cfg) client_init w → cw_pumps w !! k = Some pu →
  let fs := pump_frames (pump_log k (cw_log w)) in
  let rd := pump_read (pump_log k (cw_log w)) in
  (∃ ps tl, fs = (client_data (pu_sid pu) <$> ps) ++ tl ∧ Forall (λ p, 0 < length p ≤ buf_len) ps ∧
    (tl = [] ∧ mjoin ps `prefix_of` rd ∨
     tl = [client_close (pu_sid pu) true (lit "eof")] ∧ mjoin ps = rd ∨
     ∃ reason, tl = [client_close (pu_sid pu) false reason] ∧ ps = [] ∧ rd = [])) ∧
  (pu_pc pu = PuSelect → ∃ ps, fs = client_data (pu_sid pu) <$> ps ∧ mjoin ps = rd) ∧
  (∀ p, pu_pc pu = PuSendData p → ∃ ps, fs = client_data (pu_sid pu) <$> ps ∧ mjoin ps ++ p = rd).
Proof.
  intros Hr Hk fs rd. pose proof (client_pumps_inv cfg w Hr k) as Hok. rewrite Hk in Hok.
  destruct Hok as [Hu _ _ _]. split_and!.
  - pose proof (pump_up_final pu (pump_log k (cw_log w)) Hu) as Hf. fold fs rd in Hf.
    destruct Hf as [(sent & (ps & -> & <- & Hps) & Hpre)|[(fs' & Hfs & ps & -> & <- & Hps)|(reason & Hfs & Hrd)]].
    + exists ps, []. rewrite app_nil_r. eauto.
    + exists ps, [client_close (pu_sid pu) true (lit "eof")]. eauto 10.
    + exists [], [client_close (pu_sid pu) false reason]. split_and!; [done|constructor|eauto 10].
  - intros Hpc. unfold pump_up_ok in Hu. rewrite Hpc in Hu. destruct Hu as (ps & ? & ? & _). eauto.
  - intros p Hpc. unfold pump_up_ok in Hu. rewrite Hpc in Hu. destruct Hu as (sent & (ps & ? & <- & _) & ? & _). eauto.
Qed.

(** C12: hub to target.  A pump was started by an [Open] whose name the
    configuration maps to its target.  The bytes handed to it are a prefix of the
    [Data] bytes received under its stream id since that frame, all of them while
    it is registered and the frame loop is between frames; the bytes written to
    the target are a prefix of those handed over, all of them once it is idle. *)
Theorem pump_bytes_from_open w k pu :
  reachable (client_step cfg) client_init w → cw_pumps w !! k = Some pu →
  ∃ l1 o l2, cw_log w = l1 ++ CoRecv (ServerFrame (pu_sid pu) (Some (SOpen o))) :: l2 ∧
    targets cfg !! open_name o = Some (pu_target pu) ∧
    pump_queued (pump_log k (cw_log w)) `prefix_of` stream_data (pu_sid pu) l2 ∧
    (cw_streams w !! pu_sid pu = Some k → cw_main w = CmNext →
      pump_queued (pump_log k (cw_log w)) = stream_data (pu_sid pu) l2) ∧
    pump_wrote (pump_log k (cw_log w)) `prefix_of` pump_queued (pump_log k (cw_log w)) ∧
    (pu_pc pu = PuSelect → mpsc_queued (pu_inbound pu) = [] →
      pump_wrote (pump_log k (cw_log w)) = pump_queued (pump_log k (cw_log w))).
Proof.
  intros Hr Hk. destruct (client_routes_inv cfg w Hr) as [Hp Hi].
  destruct (ri_pump _ _ Hi k pu Hk) as (post & (l1 & o & l2 & Hl & Hn & Ht & Hd) & Hpost).
  pose proof (Hp k) as Hok. rewrite Hk in Hok. destruct Hok as [_ Hdown _ _]. unfold pump_down_ok in Hdown.
  unfold handed in Hd. exists l1, o, l2. rewrite Hn. split_and!; [done|done| | | |].
  - rewrite Hd. by apply prefix_app_r.
  - intros Hin Hm. rewrite Hd, (Hpost Hin), Hm. simpl. by rewrite app_nil_r.
  - destruct (pump_over (pu_pc pu)); [done|]. rewrite <-Hdown. by apply prefix_app_r.
  - intros Hpc Hq. rewrite Hpc, Hq in Hdown. simpl in Hdown. by rewrite app_nil_r in Hdown.
Qed.

(** C21: the client connects only where its configuration says: every dial is of a
    target that an [Open] received from the hub names, in the configured form,
    and a pump dials once. *)
Theorem dials_configured w k t :
  reachable (client_step cfg) client_init w → CoDial k t ∈ cw_log w →
  pump_dials (pump_log k (cw_log w)) = [t] ∧
  ∃ sid o, CoRecv (ServerFrame sid (Some (SOpen o))) ∈ cw_log w ∧ targets cfg !! open_name o = Some t.
Proof.
  intros Hr Hd. destruct (client_routes_inv cfg w Hr) as [Hp Hi].
  apply (pump_log_elem k) in Hd; [|done]. pose proof (Hp k) as Hok.
  destruct (cw_pumps w !! k) as [pu|] eqn:Hk; [|by rewrite Hok in Hd; apply elem_of_nil in Hd].
  destruct Hok as [_ _ Hdial _]. unfold pump_dial_ok in Hdial.
  assert (t ∈ pump_dials (pump_log k (cw_log w))) as Ht.
  { apply list_elem_of_omap. eauto. }
  assert (pump_dials (pump_log k (cw_log w)) = [pu_target pu]) as Hone.
  { rewrite Hdial in *. destruct (pu_pc pu); set_solver. }
  rewrite Hone in Ht. apply list_elem_of_singleton in Ht as ->. split; [done|].
  destruct (ri_pump _ _ Hi k pu Hk) as (post & (l1 & o & l2 & Hl & Hn & Hto & _) & _).
  exists (pu_sid pu), o. rewrite Hl, Hn. split; [set_solver|done].
Qed.

(** ** The answers of the frame loop *)
Definition reply (f : server_frame) : list client_frame :=
  match sf_kind f with
  | Some (SChallenge _) => [client_handshake (spoke_id cfg) (token cfg)]
  | Some (SOpen o) =>
      match targets cfg !! open_name o with
      | Some _ => []
      | None => [client_close (sf_stream_id f) false (unknown_target_reason (open_name o))]
      end
  | Some (SPing sent_at) => [client_pong sent_at]
  | _ => []
  end.

Definition owed (pc : main_pc) : list client_frame :=
  match pc with
  | CmHandshake => [client_handshake (spoke_id cfg) (token cfg)]
  | CmUnknown sid name => [client_close sid false (unknown_target_reason name)]
  | CmPong sent_at => [client_pong sent_at]
  | _ => []
  end.

Definition http_of (f : server_frame) : option (N * http_response) :=
  match sf_kind f with Some (SHttpResponse r) => Some (sf_stream_id f, r) | _ => None end.

Definition replies_ok w : Prop :=
  (if mpsc_rx_alive (cw_hub_tx w)
   then client_replies (cw_log w) ++ owed (cw_main w) = client_recv (cw_log w) ≫= reply
   else client_replies (cw_log w) `prefix_of` client_recv (cw_log w) ≫= reply) ∧
  client_http (cw_log w) = omap http_of (client_recv (cw_log w)).

Lemma replies_frame f w : cw_main w = CmNext → replies_ok w → replies_ok (main_frame cfg f w).
Proof.
  intros Hm [Hr Hh]. unfold replies_ok.
  assert (∃ d, cw_log (main_frame cfg f w) = cw_log w ++ CoRecv f :: d ∧ client_replies d = [] ∧
    client_recv d = [] ∧ client_http d = option_list (http_of f) ∧ owed (cw_main (main_frame cfg f w)) = reply f ∧
    cw_hub_tx (main_frame cfg f w) = cw_hub_tx w) as (d & -> & Hd1 & Hd2 & Hd3 & -> & ->).
  { destruct f as [sid [[c|o|p|c|t|r]|]]; unfold main_frame, http_of, reply; simpl; rewrite ?Hm; simpl.
    2: destruct (targets cfg !! open_name o); simpl.
    4: destruct (cw_streams w !! sid); simpl; rewrite ?Hm.
    all: try (by exists []).
    eexists [_]. split_and!; [by rewrite <-(assoc_L (++))|done..]. }
  rewrite client_replies_app, client_recv_app, client_http_app.
  change (CoRecv f :: d) with ([CoRecv f] ++ d).
  rewrite client_replies_app, client_recv_app, client_http_app, Hd1, Hd2, Hd3.
  change (client_replies [CoRecv f]) with (@nil client_frame).
  change (client_recv [CoRecv f]) with [f]. change (client_http [CoRecv f]) with (@nil (N * http_response)).
  rewrite Hm in Hr. simpl in *. rewrite ?app_nil_r in *. rewrite bind_app, omap_app, Hh. simpl. rewrite app_nil_r. split.
  - destruct (mpsc_rx_alive (cw_hub_tx w)); [by rewrite Hr|by apply prefix_app_r].
  - by destruct (http_of f).
Qed.

Lemma replies_keep d w w' :
  replies_ok w → cw_log w' = cw_log w ++ d → client_replies d = [] → client_recv d = [] → client_http d = [] →
  (mpsc_rx_alive (cw_hub_tx w') = true → mpsc_rx_alive (cw_hub_tx w) = true ∧ owed (cw_main w') = owed (cw_main w)) →
  replies_ok w'.
Proof.
  intros [Hr Hh] Hl H1 H2 H3 Ha. unfold replies_ok.
  rewrite Hl, client_replies_app, client_recv_app, client_http_app, H1, H2, H3, !app_nil_r. split; [|done].
  destruct (mpsc_rx_alive (cw_hub_tx w')).
  - destruct Ha as [Ha ->]; [done|]. by rewrite Ha in Hr.
  - destruct (mpsc_rx_alive (cw_hub_tx w)); [|done]. rewrite <-Hr. by apply prefix_app_r.
Qed.

Lemma replies_sent f w w' q :
  replies_ok w → owed (cw_main w) = [f] → mpsc_send f (cw_hub_tx w) = Sent q →
  cw_log w' = cw_log w ++ [CoMain f] → cw_hub_tx w' = q → cw_main w' = CmNext → replies_ok w'.
Proof.
  intros [Hr Hh] Ho Hs Hl Hq Hm. destruct (mpsc_send_Sent _ _ _ Hs) as (_ & Ha & Ha' & _).
  unfold replies_ok. rewrite Hl, Hq, Ha', Hm, client_replies_app, client_recv_app, client_http_app.
  change (client_recv [CoMain f]) with (@nil server_frame). change (client_replies [CoMain f]) with [f].
  change (client_http [CoMain f]) with (@nil (N * http_response)). rewrite Ha, Ho in Hr. simpl.
  by rewrite !app_nil_r.
Qed.

(** A send can only fail once the receiver is gone. *)
Lemma hub_send_failed o f w w' :
  hub_send o f w = Some (false, w') → mpsc_rx_alive (cw_hub_tx w) = false.
Proof. unfold hub_send. destruct (mpsc_send f _) eqn:Hs; intros; simplify_eq. by eapply mpsc_send_SendClosed. Qed.

Lemma replies_loop e w w' : replies_ok w → main_step cfg e w = Some w' → replies_ok w'.
Proof.
  unfold main_step. intros Hw HS. destruct (cw_main w) eqn:Hm, e; try discriminate HS.
  1: injection HS as <-; by apply replies_frame.
  all: repeat match type of HS with
    | context [match hub_send ?o ?f ?v with _ => _ end] =>
        let E := fresh "E" in destruct (hub_send o f v) as [[[] ?]|] eqn:E;
        [apply hub_send_Some in E as [(_ & ? & ? & ->)|(? & _)]; [|discriminate]
        |pose proof (hub_send_failed _ _ _ _ E); apply hub_send_Some in E as [(? & _)|(_ & ->)]; [discriminate|]
        |discriminate HS]
    end.
  all: client_split HS.
  all: try solve [eapply replies_sent; simpl; [done|by rewrite Hm|eassumption|done|done|done]].
  all: try solve [eapply (replies_keep []); simpl; [done|by rewrite app_nil_r|done|done|done|rewrite ?Hm; simpl; first [done|congruence]]].
  eapply (replies_keep [_]); simpl; [done|reflexivity|done|done|done|by rewrite Hm].
Qed.

Lemma replies_pump k pu e w w' : replies_ok w → pump_step k pu e w = Some w' → replies_ok w'.
Proof.
  unfold pump_step. intros Hw HS. client_split HS.
  all: try match goal with H : mpsc_send _ _ = Sent _ |- _ => destruct (mpsc_send_Sent _ _ _ H) as (_ & ? & ? & _) end.
  all: try solve [eapply (replies_keep []); simpl; [done|by rewrite app_nil_r|done..]].
  all: eapply (replies_keep [_]); simpl; done.
Qed.

Lemma client_replies_inv w : reachable (client_step cfg) client_init w → replies_ok w.
Proof.
  apply reachable_invariant.
  - intros s ->. split; simpl; [by rewrite mpsc_alive_new|done].
  - intros [e|k e|sid req| |] s s' Hs HS; simpl in HS.
    + by eapply replies_loop.
    + destruct (cw_pumps s !! k); [|done]. by eapply replies_pump.
    + destruct (hub_send _ _ s) as [[[] w1]|] eqn:E; simplify_eq;
        apply hub_send_Some in E as [(? & q & Hq & ->)|(? & ->)]; simplify_eq; [|done].
      destruct (mpsc_send_Sent _ _ _ Hq) as (_ & Ha & _).
      by eapply (replies_keep [_]).
    + destruct (mpsc_recv (cw_hub_tx s)) as [[f q]|] eqn:Hr; simplify_eq.
      destruct (mpsc_recv_Some _ _ _ Hr) as (_ & Ha & _).
      eapply (replies_keep []); simpl; [done|by rewrite app_nil_r|done..|]. by rewrite Ha.
    + simplify_eq. eapply (replies_keep []); simpl; [done|by rewrite app_nil_r|done..|]. by rewrite mpsc_drop_alive.
Qed.

(** C22: what the frame loop says.  The frames it queues are, in order, the answers
    to the frames received: the handshake to a challenge, a full [Close] naming
    the target to an [Open] of an unknown one, a pong echoing the time of a ping,
    nothing otherwise.  None is missing while the loop is between frames and the
    stream to the hub is up; and every HTTP response is handed on, in order. *)
Theorem frame_loop_replies w :
  reachable (client_step cfg) client_init w →
  client_replies (cw_log w) `prefix_of` client_recv (cw_log w) ≫= reply ∧
  (mpsc_rx_alive (cw_hub_tx w) = true → cw_main w = CmNext →
     client_replies (cw_log w) = client_recv (cw_log w) ≫= reply) ∧
  client_http (cw_log w) = omap http_of (client_recv (cw_log w)).
Proof.
  intros [Hr Hh]%client_replies_inv. split_and!; [| |done].
  - destruct (mpsc_rx_alive (cw_hub_tx w)); [|done]. rewrite <-Hr. by apply prefix_app_r.
  - intros Ha Hm. rewrite Ha, Hm in Hr. simpl in Hr. by rewrite app_nil_r in Hr.
Qed.

(** ** The HTTP proxy and the handshake *)

(** A request can overtake the handshake.  The sender is published before the
    challenge is answered, so a local caller's request can be the first frame the
    hub reads; the hub then refuses the connection, whatever the token. *)
Theorem request_overtakes_handshake (hub_cfg : server_config) sid req w :
  client_init w →
  ∃ w' f q, client_step cfg (CProxy sid req) w = Some w' ∧ mpsc_recv (cw_hub_tx w') = Some (f, q) ∧
    verify_first hub_cfg (Some f) = Err (lit "no_handshake").
Proof.
  intros ->. unfold client_step, hub_send. simpl.
  destruct (mpsc_send_sent _ (client_http_request sid req) (mpsc_channel 256)) as (c & -> & Hq & _).
  { apply mpsc_alive_new. }
  { rewrite mpsc_queued_new, mpsc_bound_new. simpl. lia. }
  rewrite mpsc_queued_new in Hq. destruct (mpsc_recv_cons _ _ _ _ Hq) as (q & Hr & _).
  eexists _, _, q. split_and!; [done|exact Hr|done].
Qed.

(** ** Pumps after the end of their session *)
Definition stranded (k : nat) pu w : Prop :=
  (∃ r, cw_main w = CmDone r) ∧ cw_pumps w !! k = Some pu ∧ cw_streams w !! pu_sid pu = Some k ∧
  (∀ k' pu', cw_pumps w !! k' = Some pu' → pu_sid pu' = pu_sid pu → k' = k).

Definition reads_nothing (k : nat) (l : client_label) : Prop :=
  match l with CPump k' (ERead _) | CPump k' EReadErr => k' ≠ k | _ => True end.

Lemma stranded_pump k pu j pu1 e w w' :
  j ≠ k → cw_pumps w !! j = Some pu1 → stranded k pu w → pump_step j pu1 e w = Some w' → stranded k pu w'.
Proof.
  intros Hjk Hj ((r & Hm) & Hk & Hin & Hu) HS.
  assert (pu_sid pu1 ≠ pu_sid pu) as Hne by (intros Hs; by destruct (Hjk (Hu _ _ Hj Hs))).
  assert (∀ pu2 v, cw_pumps v = <[j := pu2]> (cw_pumps w) → pu_sid pu2 = pu_sid pu1 → cw_main v = cw_main w →
    cw_streams v !! pu_sid pu = cw_streams w !! pu_sid pu → stranded k pu v) as Hgo.
  { intros pu2 v Hp Hs Hm' Hst. unfold stranded. rewrite Hm', Hp, Hst. split_and!; [eauto| |done|].
    - by rewrite lookup_insert_ne.
    - intros k' pu'. rewrite lookup_insert. case_decide; [|by apply Hu]. intros; simplify_eq. congruence. }
  unfold pump_step in HS. client_split HS.
  all: try solve [eapply Hgo; reflexivity].
  eapply Hgo; [reflexivity..|]. simpl. by rewrite lookup_delete_ne.
Qed.

(** An idle pump outlives its session.  Once the frame loop has ended, a pump
    waiting in its select is not woken: its own clone of the stream map keeps its
    sender alive, whatever else happens, until its target sends or hangs up.  The
    connection to the target stays open meanwhile. *)
Theorem idle_pump_outlives_session ls k pu w w' :
  stranded k pu w → pu_pc pu = PuSelect → mpsc_queued (pu_inbound pu) = [] →
  Forall (reads_nothing k) ls → exec (client_step cfg) ls w = Some w' →
  cw_pumps w' !! k = Some pu ∧ cw_streams w' !! pu_sid pu = Some k.
Proof.
  intros Hs Hpc Hq. revert w Hs. induction ls as [|l ls IH]; intros w Hs Hls He; simpl in He.
  { simplify_eq. by destruct Hs as (_ & ? & ? & _). }
  inversion Hls as [|? ? Hl Hls']; subst. destruct (client_step cfg l w) as [w1|] eqn:HS; [|done].
  apply (IH w1); [|done|done]. destruct Hs as ((r & Hm) & Hk & Hin & Hu). destruct l as [e|j e|sid req| |]; simpl in HS.
  - unfold main_step in HS. rewrite Hm in HS. by destruct e.
  - destruct (cw_pumps w !! j) as [pu1|] eqn:Hj; [|done]. destruct (decide (j = k)) as [->|].
    + simplify_eq. unfold pump_step in HS. rewrite Hpc in HS. destruct e; simplify_eq/=; try done.
      rewrite mpsc_recv_nil in HS by done. unfold pump_has_sender in HS.
      rewrite bool_decide_true in HS by done. done.
    + eapply stranded_pump; [done|done| |done]. split; [eauto|done].
  - destruct (hub_send _ _ w) as [[[] w2]|] eqn:E; simplify_eq;
      apply hub_send_Some in E as [(? & q & Hq' & ->)|(? & ->)]; simplify_eq; (split; [by eauto|done]).
  - destruct (mpsc_recv (cw_hub_tx w)) as [[f q]|]; simplify_eq. split; [by eauto|done].
  - simplify_eq. split; [by eauto|done].
Qed.
End client_streams.
