(* ===== verification/ClientWitness.v ===== *)
(** * tunnel-client: a concrete session

    A run of the client machine with the reference channels: challenge and
    handshake, a stream opened to the default target that carries bytes in both
    directions, an [Open] of an unknown target, and the end of the session. *)
From S2P Require Import Prelude RustStd SockAddr Proto ServerConfig Channel ClientConfig ClientSession ClientPumps ClientRoutes ClientStreams.

Definition demo_client_step : client_label → client_world queue → option (client_world queue) :=
  client_step (HU:=ascii_tables) demo_client_config.

Definition client_start : client_world queue := ClientWorld (mpsc_channel 256) ∅ ∅ CmNext [].

Definition stream_run : list client_label :=
  [CMain (EFrame (ServerFrame 0 (Some (SChallenge (HandshakeChallenge [x00] 7))))); CMain ETick;
   CMain (EFrame (ServerFrame 1 (Some (SOpen (OpenStream (lit "tcp") []))))); CMain (ESpawn 0);
   CPump 0 EDialOk;
   CMain (EFrame (ServerFrame 1 (Some (SData (lit "yo"))))); CMain ETick; CPump 0 ETick; CPump 0 EWriteOk;
   CPump 0 (ERead (lit "hi")); CPump 0 ETick;
   CMain (EFrame (ServerFrame 2 (Some (SOpen (OpenStream (lit "tcp") (lit "nope")))))); CMain ETick].
Definition after_run : list client_label := [CTxTake; CTxDrop; CMain EEnd].

Definition client_after (ls : list client_label) (w : client_world queue) : client_world queue :=
  default w (exec demo_client_step ls w).

Lemma client_after_exec ls w :
  (if exec demo_client_step ls w is Some _ then true else false) = true →
  exec demo_client_step ls w = Some (client_after ls w).
Proof. unfold client_after. by destruct (exec demo_client_step ls w). Qed.

Definition streaming : client_world queue := client_after stream_run client_start.
Definition ended : client_world queue := client_after [CMain EEnd] streaming.

Lemma streaming_reach : reachable demo_client_step client_init streaming.
Proof.
  eapply reachable_exec; [by apply reachable_init|]. apply (client_after_exec stream_run client_start). by vm_compute.
Qed.

Definition demo_pump (w : client_world queue) : pump queue :=
  default (Pump 0 [] [] (mpsc_channel 0) PuDone) (cw_pumps w !! 0).

Lemma streaming_pump : cw_pumps streaming !! 0 = Some (demo_pump streaming).
Proof. by vm_compute. Qed.

(** ** Witnesses *)
Lemma pump_frames_shape_witness :
  pump_frames (pump_log 0 (cw_log streaming)) = [client_data 1 (lit "hi")] ∧
  ∃ ps, pump_frames (pump_log 0 (cw_log streaming)) = client_data 1 <$> ps ∧
    mjoin ps = pump_read (pump_log 0 (cw_log streaming)).
Proof.
  split; [by vm_compute|].
  apply (proj1 (proj2 (pump_frames_shape (HU:=ascii_tables) demo_client_config streaming 0 (demo_pump streaming)
    streaming_reach streaming_pump))).
  by vm_compute.
Defined.

Lemma pump_bytes_from_open_witness :
  pump_wrote (pump_log 0 (cw_log streaming)) = lit "yo" ∧
  ∃ o, targets demo_client_config !! open_name o = Some (pu_target (demo_pump streaming)).
Proof.
  split; [by vm_compute|].
  destruct (pump_bytes_from_open (HU:=ascii_tables) demo_client_config streaming 0 (demo_pump streaming)
    streaming_reach streaming_pump) as (l1 & o & l2 & _ & Ht & _). by exists o.
Defined.

Lemma dials_configured_witness : pump_dials (pump_log 0 (cw_log streaming)) = [lit "mcp:8000"].
Proof.
  apply (dials_configured (HU:=ascii_tables) demo_client_config streaming 0 (lit "mcp:8000") streaming_reach).
  assert (take 3 (cw_log streaming) ++ [CoDial 0 (lit "mcp:8000")] `prefix_of` cw_log streaming) as Hp.
  { exists (drop 4 (cw_log streaming)). by vm_compute. }
  eapply elem_of_prefix; [|exact Hp]. apply elem_of_app. right. by apply list_elem_of_singleton.
Defined.

Lemma frame_loop_replies_witness :
  client_replies (cw_log streaming) =
    [client_handshake (spoke_id demo_client_config) (token demo_client_config);
     client_close 2 false (unknown_target_reason (HU:=ascii_tables) (lit "nope"))] ∧
  client_replies (cw_log streaming) = client_recv (cw_log streaming) ≫= reply (HU:=ascii_tables) demo_client_config.
Proof.
  split; [by vm_compute|].
  apply (frame_loop_replies (HU:=ascii_tables) demo_client_config streaming streaming_reach); by vm_compute.
Defined.

Lemma request_overtakes_handshake_witness :
  ∃ w' f q, demo_client_step (CProxy (2 ^ 63) (HttpRequest (lit "GET") (lit "/core/x") ∅ [])) client_start = Some w' ∧
    mpsc_recv (cw_hub_tx w') = Some (f, q) ∧ cf_stream_id f = (2 ^ 63)%N.
Proof.
  destruct (request_overtakes_handshake (HU:=ascii_tables) demo_client_config
    (ServerConfig (SockV4 [0; 0; 0; 0]%N 1) (SockV4 [0; 0; 0; 0]%N 2) ∅ [] ∅) (2 ^ 63)
    (HttpRequest (lit "GET") (lit "/core/x") ∅ []) client_start) as (w' & f & q & Hs & Hr & _); [done|].
  exists w', f, q. split_and!; [exact Hs|exact Hr|].
  injection Hs as <-. vm_compute in Hr. by injection Hr as <- _.
Defined.

Lemma idle_pump_outlives_session_witness :
  pu_pc (demo_pump ended) = PuSelect ∧
  cw_pumps (client_after [CTxTake; CTxDrop] ended) !! 0 = Some (demo_pump ended).
Proof.
  split; [by vm_compute|].
  apply (idle_pump_outlives_session (HU:=ascii_tables) demo_client_config [CTxTake; CTxDrop] 0 (demo_pump ended)
    ended (client_after [CTxTake; CTxDrop] ended)).
  - split_and!; [by eexists; vm_compute|by vm_compute|by vm_compute|].
    assert (cw_pumps ended = {[0 := demo_pump ended]}) as -> by (by vm_compute).
    intros k' pu' Hk _. by apply lookup_singleton_Some in Hk as [<- _].
  - by vm_compute.
  - by vm_compute.
  - by repeat constructor.
  - apply client_after_exec. by vm_compute.
Defined.
