(* ===== verification/Tunnel.v ===== *)
(** * The tunnel: a hub session and a client session together

    The two programs composed: a session of the hub and a session of the client,
    joined by the two directions of the gRPC stream.  tonic takes a frame from a
    program's outbound channel and delivers it to the other program's frame loop,
    in order; either side may lose the stream at any time, and then what is on
    the wire is lost.  Steps of the programs are those of their own models. *)
From S2P Require Import Prelude RustStd Proto ServerConfig Channel ServerMetrics ServerHttp ServerSession SessionTrans SessionDelivery SessionStreams SessionInbound SessionHttp ServerHub ClientConfig ClientSession ClientPumps ClientRoutes ClientStreams.

Record tunnel (chan : Type → Type) := TunnelState {
  t_hub : sess_world chan;
  t_client : client_world chan;
  t_down : list server_frame;     (* taken from the hub, not yet received by the client *)
  t_up : list client_frame }.
Arguments TunnelState {chan} _ _ _ _.
Arguments t_hub {chan} _.
Arguments t_client {chan} _.
Arguments t_down {chan} _.
Arguments t_up {chan} _.

Inductive tunnel_label :=
| THub (l : sess_label)
| TClient (l : client_label)
| TDownTake | TDownRecv
| TUpTake | TUpRecv (h : nat).

(** The frames the client queued, by whichever task. *)
Definition obs_sent (o : client_obs) : option client_frame :=
  match o with
  | CoMain f | CoSent _ f => Some f
  | CoProxy sid req => Some (client_http_request sid req)
  | _ => None
  end.
Definition client_sent (l : list client_obs) : list client_frame := omap obs_sent l.

Lemma client_sent_app l1 l2 : client_sent (l1 ++ l2) = client_sent l1 ++ client_sent l2.
Proof. apply omap_app. Qed.

Section tunnel.
Context {chan : Type → Type} `{Hmpsc : Mpsc chan} `{HI : HashIter} {HU : UnicodeTables}.
Context (mfb : bytes → option bytes) (cfg : server_config) (sc : spoke_config) (ccfg : client_config).
Implicit Types (t : tunnel chan).

(** Steps of one side that do not touch the wire. *)
Definition hub_local (l : sess_label) : bool :=
  match l with LTxTake | LRecv (StreamFrame _ _) => false | _ => true end.
Definition client_local (l : client_label) : bool :=
  match l with CTxTake | CMain (EFrame _) => false | _ => true end.

Definition on_hub (l : sess_label) t : option (tunnel chan) :=
  match sess_step_nowrap mfb cfg sc l (t_hub t) with
  | Some h => Some (TunnelState h (t_client t) (t_down t) (t_up t))
  | None => None
  end.
Definition on_client (l : client_label) t : option (tunnel chan) :=
  match client_step ccfg l (t_client t) with
  | Some c => Some (TunnelState (t_hub t) c (t_down t) (t_up t))
  | None => None
  end.
Definition set_wires (down : list server_frame) (up : list client_frame) t : tunnel chan :=
  TunnelState (t_hub t) (t_client t) down up.

Definition tunnel_step (l : tunnel_label) t : option (tunnel chan) :=
  match l with
  | THub sl => if hub_local sl then on_hub sl t else None
  | TClient cl => if client_local cl then on_client cl t else None
  | TDownTake =>
      match mpsc_recv (ss_server_tx (w_session (t_hub t))) with
      | Some (f, _) => on_hub LTxTake (set_wires (t_down t ++ [f]) (t_up t) t)
      | None => None
      end
  | TDownRecv =>
      match t_down t with
      | f :: down => on_client (CMain (EFrame f)) (set_wires down (t_up t) t)
      | [] => None
      end
  | TUpTake =>
      match mpsc_recv (cw_hub_tx (t_client t)) with
      | Some (f, _) => on_client CTxTake (set_wires (t_down t) (t_up t ++ [f]) t)
      | None => None
      end
  | TUpRecv h =>
      match t_up t with
      | f :: up => on_hub (LRecv (StreamFrame f h)) (set_wires (t_down t) up t)
      | [] => None
      end
  end.

(** When the hub has just authenticated the client: nothing but challenges has been
    sent down, and the hub has consumed the first frame. *)
Definition is_challenge (f : server_frame) : Prop :=
  match sf_kind f with Some (SChallenge _) => True | _ => False end.

(** The frame the hub has verified. *)
Definition is_handshake (f : client_frame) : Prop :=
  match cf_kind f with Some (CHandshake _) => True | _ => False end.

Definition tunnel_init t : Prop :=
  sess_init sc (t_hub t) ∧ reachable (client_step ccfg) client_init (t_client t) ∧
  (∃ pre, Forall is_challenge pre ∧
     passed (client_recv (cw_log (t_client t)) ++ t_down t) (ss_server_tx (w_session (t_hub t))) pre) ∧
  ∃ first, is_handshake first ∧
    passed (first :: t_up t) (cw_hub_tx (t_client t)) (client_sent (cw_log (t_client t))).

(** ** The wire is first in, first out *)
Lemma sess_step_sender l w w' :
  sess_step mfb cfg sc l w = Some w' → l ≠ LTxTake →
  sender_step (ss_server_tx (w_session w)) (ss_server_tx (w_session w'))
    (sent_frames (w_log w)) (sent_frames (w_log w')).
Proof.
  intros HS Hl. sess_inv HS; try done; unfold remove_stream; repeat case_match; simpl;
    autorewrite with obs_log; simpl; rewrite ?app_nil_r.
  all: first [by apply ss_idle|by eapply ss_sent|by apply ss_gone].
Qed.

Lemma sess_step_take w w' f q :
  mpsc_recv (ss_server_tx (w_session w)) = Some (f, q) → sess_step mfb cfg sc LTxTake w = Some w' →
  ss_server_tx (w_session w') = q ∧ w_log w' = w_log w.
Proof. intros Hr. unfold sess_step, tx_take. rewrite Hr. intros [= <-]. done. Qed.

Lemma client_step_sender l w w' :
  client_step ccfg l w = Some w' → l ≠ CTxTake →
  sender_step (cw_hub_tx w) (cw_hub_tx w') (client_sent (cw_log w)) (client_sent (cw_log w')).
Proof.
  intros HS Hl. client_inv HS; try done; simpl; rewrite ?client_sent_app; simpl; rewrite ?app_nil_r.
  all: first [by apply ss_idle|by eapply ss_sent|by apply ss_gone].
Qed.

Lemma client_step_take w w' f q :
  mpsc_recv (cw_hub_tx w) = Some (f, q) → client_step ccfg CTxTake w = Some w' →
  cw_hub_tx w' = q ∧ cw_log w' = cw_log w.
Proof. intros Hr. simpl. rewrite Hr. intros [= <-]. done. Qed.

Lemma client_step_recv l w w' :
  client_step ccfg l w = Some w' →
  client_recv (cw_log w') = client_recv (cw_log w) ++ match l with CMain (EFrame f) => [f] | _ => [] end.
Proof.
  intros HS. client_inv HS; simpl; rewrite ?client_recv_app; simpl; by rewrite ?app_nil_r.
Qed.

Record wires_inv t : Prop := {
  wi_hub : reachable (sess_step_nowrap mfb cfg sc) (sess_init sc) (t_hub t);
  wi_client : reachable (client_step ccfg) client_init (t_client t);
  wi_down : ∃ pre, Forall is_challenge pre ∧
    passed (client_recv (cw_log (t_client t)) ++ t_down t) (ss_server_tx (w_session (t_hub t)))
      (pre ++ sent_frames (w_log (t_hub t)));
  wi_up : ∃ first, is_handshake first ∧
    passed (first :: recv_frames (w_log (t_hub t)) ++ t_up t) (cw_hub_tx (t_client t))
      (client_sent (cw_log (t_client t))) }.

Lemma wires_inv_init t : tunnel_init t → wires_inv t.
Proof.
  intros (Hh & Hc & (pre & Hpre & Hd) & Hu). assert (w_log (t_hub t) = []) as Hl by (by destruct Hh as (? & _ & _ & _ & _ & _ & ?)).
  split; rewrite ?Hl; simpl; [by constructor|done| |done]. exists pre. by rewrite app_nil_r.
Qed.

Lemma sender_step_pre {A} (c c' : chan A) s s' pre :
  sender_step c c' s s' → sender_step c c' (pre ++ s) (pre ++ s').
Proof.
  intros H. destruct H as [-> -> | x Hs -> | -> ->]; [by apply ss_idle| |by apply ss_gone].
  eapply ss_sent; [done|]. by rewrite (assoc_L (++)).
Qed.

Lemma on_hub_Some l t t' :
  on_hub l t = Some t' → ∃ h, sess_step_nowrap mfb cfg sc l (t_hub t) = Some h ∧
    sess_step mfb cfg sc l (t_hub t) = Some h ∧ t' = TunnelState h (t_client t) (t_down t) (t_up t).
Proof.
  unfold on_hub. destruct (sess_step_nowrap _ _ _ _ _) as [h|] eqn:HS; [|done]. intros [= <-].
  exists h. pose proof HS as [_ ?]%nowrap_step. done.
Qed.
Lemma on_client_Some l t t' :
  on_client l t = Some t' → ∃ c, client_step ccfg l (t_client t) = Some c ∧
    t' = TunnelState (t_hub t) c (t_down t) (t_up t).
Proof. unfold on_client. destruct (client_step _ _ _) as [c|]; [|done]. intros [= <-]. eauto. Qed.

(** Every step of the tunnel is a step of one side. *)
Lemma tunnel_step_side l t t' :
  tunnel_step l t = Some t' →
  (∃ sl, sess_step mfb cfg sc sl (t_hub t) = Some (t_hub t') ∧ t_client t' = t_client t) ∨
  (∃ cl, client_step ccfg cl (t_client t) = Some (t_client t') ∧ t_hub t' = t_hub t).
Proof.
  assert (∀ sl u, t_hub u = t_hub t → t_client u = t_client t → on_hub sl u = Some t' →
    ∃ sl, sess_step mfb cfg sc sl (t_hub t) = Some (t_hub t') ∧ t_client t' = t_client t) as Hhub.
  { intros sl u Hh Hc (h & _ & HS & ->)%on_hub_Some. rewrite <-Hh, <-Hc. by exists sl. }
  assert (∀ cl u, t_hub u = t_hub t → t_client u = t_client t → on_client cl u = Some t' →
    ∃ cl, client_step ccfg cl (t_client t) = Some (t_client t') ∧ t_hub t' = t_hub t) as Hclient.
  { intros cl u Hh Hc (c & HS & ->)%on_client_Some. rewrite <-Hh, <-Hc. by exists cl. }
  destruct l; unfold tunnel_step; intros HS; repeat case_match; try discriminate HS.
  all: first [left; eapply Hhub; [..|exact HS]; done|right; eapply Hclient; [..|exact HS]; done].
Qed.

(** A step of the hub that takes nothing from its channel. *)
Lemma wires_hub l t h down up :
  wires_inv t → sess_step_nowrap mfb cfg sc l (t_hub t) = Some h → l ≠ LTxTake →
  down = t_down t → match l with LRecv (StreamFrame f _) => f :: up | _ => up end = t_up t →
  wires_inv (TunnelState h (t_client t) down up).
Proof.
  intros [Hh Hc (pre & Hpre & Hd) (first & Hf & Hu)] HSn Hl -> Hup.
  pose proof HSn as [_ HS]%nowrap_step. split; simpl.
  - by eapply reachable_step.
  - done.
  - exists pre. split; [done|]. eapply passed_sender; [done|]. apply sender_step_pre. by eapply sess_step_sender.
  - exists first. split; [done|]. rewrite (sess_step_recv _ _ _ _ _ _ HS). rewrite <-Hup in Hu.
    destruct l as [| | | | | | | | | |e|]; rewrite ?app_nil_r; try done. destruct e; rewrite ?app_nil_r; try done.
    by rewrite <-(assoc_L (++)).
Qed.

Lemma wires_client l t c down up :
  wires_inv t → client_step ccfg l (t_client t) = Some c → l ≠ CTxTake →
  match l with CMain (EFrame f) => f :: down | _ => down end = t_down t → up = t_up t →
  wires_inv (TunnelState (t_hub t) c down up).
Proof.
  intros [Hh Hc (pre & Hpre & Hd) (first & Hf & Hu)] HS Hl Hdown ->. split; simpl.
  - done.
  - by eapply reachable_step.
  - exists pre. split; [done|]. rewrite (client_step_recv _ _ _ HS). rewrite <-Hdown in Hd.
    destruct l as [e| | | |]; rewrite ?app_nil_r; try done. destruct e; rewrite ?app_nil_r; try done.
    by rewrite <-(assoc_L (++)).
  - exists first. split; [done|]. eapply passed_sender; [done|]. by eapply client_step_sender.
Qed.

Lemma wires_inv_step l t t' : wires_inv t → tunnel_step l t = Some t' → wires_inv t'.
Proof.
  intros Hw HS. destruct l as [sl|cl| | | |h]; simpl in HS.
  - destruct (hub_local sl) eqn:Hl; [|done]. apply on_hub_Some in HS as (h & HSn & _ & ->).
    eapply wires_hub; [done|done|by intros ->|done|].
    destruct sl as [| | | | | | | | | |e|]; try done. by destruct e.
  - destruct (client_local cl) eqn:Hl; [|done]. apply on_client_Some in HS as (c & HS & ->).
    eapply wires_client; [done|done|by intros ->| |done].
    destruct cl as [e| | | |]; try done. by destruct e.
  - destruct (mpsc_recv _) as [[f q]|] eqn:Hr; [|done]. apply on_hub_Some in HS as (h & HSn & HS & ->).
    simpl in *. destruct (sess_step_take _ _ _ _ Hr HS) as [Hq Hlog].
    destruct Hw as [Hh Hc (pre & Hpre & Hd) Hu]. split; simpl; [by eapply reachable_step|done| |by rewrite Hlog].
    exists pre. split; [done|]. rewrite Hlog, Hq, (assoc_L (++)). by eapply passed_take.
  - destruct (t_down t) as [|f down] eqn:Hdown; [done|]. apply on_client_Some in HS as (c & HS & ->).
    by eapply (wires_client _ t).
  - destruct (mpsc_recv _) as [[f q]|] eqn:Hr; [|done]. apply on_client_Some in HS as (c & HS & ->).
    cbn [set_wires t_hub t_client t_down t_up] in *. destruct (client_step_take _ _ _ _ Hr HS) as [Hq Hlog].
    destruct Hw as [Hh Hc Hd (first & Hf & Hu)]. split; simpl; [done|by eapply reachable_step|by rewrite Hlog|].
    exists first. split; [done|]. rewrite Hlog, Hq, (assoc_L (++)), app_comm_cons. by eapply passed_take.
  - destruct (t_up t) as [|f up] eqn:Hup; [done|]. apply on_hub_Some in HS as (h' & HSn & _ & ->).
    by eapply (wires_hub _ t).
Qed.
End tunnel.
