(* ===== verification/TunnelStreams.v ===== *)
(** * The tunnel: bytes from end to end

    A TCP connection accepted by the hub and the pump the client runs for its
    stream: which pump belongs to which connection, and the bytes that enter on
    one side and leave on the other. *)
From S2P Require Import Prelude RustStd Proto ServerConfig Channel ServerMetrics ServerHttp ServerSession SessionTrans SessionDelivery SessionStreams SessionInbound ClientConfig ClientSession ClientPumps ClientRoutes ClientStreams Tunnel.

(** ** Lists *)
Lemma omap_prefix {A B} (f : A → option B) l1 l2 : l1 `prefix_of` l2 → omap f l1 `prefix_of` omap f l2.
Proof. intros [k ->]. rewrite omap_app. by apply prefix_app_r. Qed.

Lemma mjoin_fmap_prefix {A} (f : A → bytes) l1 l2 :
  l1 `prefix_of` l2 → mjoin (f <$> l1) `prefix_of` mjoin (f <$> l2).
Proof. intros [k ->]. rewrite fmap_app, mjoin_app_bytes. by apply prefix_app_r. Qed.

Lemma data_payload_prefix l1 l2 : l1 `prefix_of` l2 → data_payload l1 `prefix_of` data_payload l2.
Proof. intros [k ->]. rewrite data_payload_app. by apply prefix_app_r. Qed.

Lemma mjoin_fmap_nonempty {A} (f : A → bytes) l : mjoin (f <$> l) ≠ [] → ∃ x, x ∈ l ∧ f x ≠ [].
Proof.
  induction l as [|x l IH]; simpl; [done|]. destruct (f x) eqn:Hf; simpl.
  - intros (y & ? & ?)%IH. exists y. set_solver.
  - intros _. exists x. rewrite Hf. set_solver.
Qed.

(** ** Down: the frames of one stream, as the client receives them *)
Definition stream_kinds (sid : N) (l : list client_obs) : list server_kind :=
  omap (stream_kind sid) (client_recv l).

Lemma stream_kinds_app sid l1 l2 : stream_kinds sid (l1 ++ l2) = stream_kinds sid l1 ++ stream_kinds sid l2.
Proof. unfold stream_kinds. by rewrite client_recv_app, omap_app. Qed.

Lemma stream_kinds_open sid o : stream_kinds sid [CoRecv (ServerFrame sid (Some (SOpen o)))] = [SOpen o].
Proof. unfold stream_kinds, stream_kind. simpl. by rewrite bool_decide_true. Qed.

Lemma stream_data_kinds sid l : stream_data sid l = data_payload (stream_kinds sid l).
Proof.
  unfold stream_data, stream_kinds. induction (client_recv l) as [|f fs IH]; [done|].
  rewrite fmap_cons. change (f :: fs) with ([f] ++ fs). rewrite omap_app, data_payload_app, <-IH. simpl. f_equal.
  destruct f as [s [[]|]]; unfold server_data, stream_kind; simpl; try done;
    rewrite ?andb_false_r, ?andb_true_r; try done; case_decide; case_bool_decide; try done;
    unfold data_payload; simpl; by rewrite ?app_nil_r.
Qed.

Definition open_kind (k : server_kind) : bool := match k with SOpen _ => true | _ => false end.

Lemma opens_kinds sid l : opens sid l = length (filter (λ k, open_kind k = true) (stream_kinds sid l)).
Proof.
  unfold opens, stream_kinds. induction (client_recv l) as [|f fs IH]; [done|].
  change (f :: fs) with ([f] ++ fs). rewrite omap_app, !filter_app, !length_app, IH. f_equal.
  destruct f as [s [[]|]]; unfold is_open, stream_kind; simpl; rewrite ?andb_true_r, ?andb_false_r; try done;
    rewrite ?filter_cons; simpl; case_bool_decide; done.
Qed.

Lemma frames_final_open fs rd :
  frames_final fs rd →
  fs = [] ∨ ∃ o tl, fs = SOpen o :: tl ∧ filter (λ k, open_kind k = true) tl = [] ∧ data_payload tl `prefix_of` rd.
Proof.
  assert (∀ ps : list bytes, filter (λ k, open_kind k = true) (SData <$> ps) = []) as Hno.
  { induction ps; simpl; [done|]. by rewrite filter_cons_False. }
  assert (∀ ps : list bytes, data_payload (SData <$> ps) = mjoin ps) as Hd.
  { intros ps. rewrite <-(data_payload_frames (OpenStream [] []) ps). done. }
  intros [->|[(sent & (o & ps & -> & <-) & Hp)|(fs' & -> & o & ps & -> & <-)]]; [by left|right..].
  - exists o, (SData <$> ps). by rewrite Hd.
  - exists o, ((SData <$> ps) ++ [SClose (CloseStream true (lit "eof"))]).
    rewrite filter_app, Hno, data_payload_app, Hd. split_and!; [done|done|].
    unfold data_payload. simpl. by rewrite app_nil_r.
Qed.

Section tunnel_streams.
Context {chan : Type → Type} `{Hmpsc : Mpsc chan} `{HI : HashIter} {HU : UnicodeTables}.
Context (mfb : bytes → option bytes) (cfg : server_config) (sc : spoke_config) (ccfg : client_config).
Implicit Types (t : tunnel chan).

Abbreviation hub_log t := (w_log (t_hub t)).
Abbreviation client_log t := (cw_log (t_client t)).
Abbreviation wires := (wires_inv mfb cfg sc ccfg).

Lemma challenge_kinds sid pre : Forall is_challenge pre → omap (stream_kind sid) pre = [].
Proof.
  induction 1 as [|f fs Hf _ IH]; [done|]. change (f :: fs) with ([f] ++ fs). rewrite omap_app, IH.
  unfold is_challenge, stream_kind in *. simpl. destruct (sf_kind f) as [[]|]; try done. simpl. by rewrite andb_false_r.
Qed.

Lemma kinds_prefix t sid : wires t → stream_kinds sid (client_log t) `prefix_of` stream_frames sid (hub_log t).
Proof.
  intros [_ _ (pre & Hpre & Hd%passed_prefix) _].
  pose proof (challenge_kinds sid pre Hpre) as Hnil.
  assert (client_recv (client_log t) `prefix_of` pre ++ sent_frames (hub_log t)) as Hp.
  { by eapply prefix_app_l. }
  apply (omap_prefix (stream_kind sid)) in Hp. by rewrite omap_app, Hnil in Hp.
Qed.

(** The frames of a stream are those of one connection. *)
Lemma stream_owner t sid :
  wires t → stream_frames sid (hub_log t) ≠ [] →
  ∃ k c o tl, w_conns (t_hub t) !! k = Some c ∧ cn_sid c = sid ∧ stream_frames sid (hub_log t) = SOpen o :: tl ∧
    filter (λ k, open_kind k = true) tl = [] ∧ data_payload tl `prefix_of` tcp_read k (hub_log t).
Proof.
  intros [Hh _ _ _] Hne. destruct (session_up_inv _ _ _ _ Hh) as [_ Hu].
  destruct (ui_owner _ Hu sid Hne) as (k & c & Hk & <- & _).
  destruct (frames_final_open _ _ (up_ok_final _ _ _ (ui_conn _ Hu k c Hk))) as [?|(o & tl & ? & ? & ?)]; [done|].
  by exists k, c, o, tl.
Qed.

Lemma opens_once t sid : wires t → opens sid (client_log t) ≤ 1.
Proof.
  intros Hw. rewrite opens_kinds. destruct (kinds_prefix t sid Hw) as [ks Hks].
  destruct (decide (stream_frames sid (hub_log t) = [])) as [Hnil|Hne].
  { rewrite Hnil in Hks. destruct (stream_kinds sid (client_log t)); [|done]. simpl. lia. }
  destruct (stream_owner t sid Hw Hne) as (k & c & o & tl & _ & _ & Hf & Htl & _).
  assert (length (filter (λ k, open_kind k = true) (stream_kinds sid (client_log t) ++ ks)) = 1) as Hone.
  { rewrite <-Hks, Hf, filter_cons_True by done. by rewrite Htl. }
  rewrite filter_app, length_app in Hone. lia.
Qed.

(** An [Open] the client received is that of a connection, and the [Data] since is
    what was read from it. *)
Lemma open_received t sid name target rd :
  wires t → since_open ccfg sid name target (client_log t) rd →
  ∃ k c, w_conns (t_hub t) !! k = Some c ∧ cn_sid c = sid ∧ stream_frames sid (hub_log t) ≠ [] ∧
    rd `prefix_of` tcp_read k (hub_log t).
Proof.
  intros Hw (l1 & o & l2 & Hl & _ & _ & <-). destruct (kinds_prefix t sid Hw) as [ks Hks].
  rewrite Hl in Hks. change (CoRecv ?f :: l2) with ([CoRecv f] ++ l2) in Hks.
  rewrite !stream_kinds_app, stream_kinds_open, <-!(assoc_L (++)) in Hks.
  assert (stream_frames sid (hub_log t) ≠ []) as Hne by (rewrite Hks; by destruct (stream_kinds sid l1)).
  destruct (stream_owner t sid Hw Hne) as (k & c & o' & tl & Hk & Hs & Hf & Htl & Hrd).
  exists k, c. split_and!; [done..|]. rewrite Hf in Hks. rewrite stream_data_kinds.
  destruct (stream_kinds sid l1) as [|x K1]; simplify_eq/=.
  - etrans; [|done]. by apply data_payload_prefix, prefix_app_r.
  - rewrite filter_app in Htl. apply app_nil in Htl as [_ Htl]. by rewrite filter_cons_True in Htl.
Qed.

(** ** Up: the data of one stream, as the hub receives it *)
Definition obs_data (sid : N) (o : client_obs) : bytes :=
  match obs_sent o with Some f => frame_data sid f | None => [] end.
Definition up_data (sid : N) (l : list client_obs) : bytes := mjoin (obs_data sid <$> l).

Lemma up_data_sent sid l : up_data sid l = mjoin (frame_data sid <$> client_sent l).
Proof.
  unfold up_data, client_sent. induction l as [|o l IH]; [done|].
  change (obs_data sid o ++ mjoin (obs_data sid <$> l) = mjoin (frame_data sid <$> omap obs_sent ([o] ++ l))).
  rewrite omap_app, fmap_app, mjoin_app_bytes, IH. f_equal. unfold obs_data. simpl.
  destruct (obs_sent o); simpl; by rewrite ?app_nil_r.
Qed.

Lemma owned_data sid j l :
  (∀ o, o ∈ l → obs_data sid o ≠ [] → obs_pump o = Some j) →
  up_data sid l = mjoin (frame_data sid <$> pump_frames (pump_log j l)).
Proof.
  induction l as [|o l IH]; intros Ho; [done|]. unfold up_data in *. rewrite fmap_cons.
  change (o :: l) with ([o] ++ l). rewrite pump_log_app, pump_frames_app, fmap_app, mjoin_app_bytes.
  change (mjoin (obs_data sid o :: ?x)) with (obs_data sid o ++ mjoin x). rewrite IH by (intros; apply Ho; set_solver). f_equal.
  destruct (decide (obs_data sid o = [])) as [Hnil|Hne].
  - rewrite Hnil. unfold pump_log. rewrite filter_cons. case_decide; [|done].
    destruct o; simpl in *; try done. unfold obs_data in Hnil. simpl in Hnil. by rewrite Hnil.
  - rewrite pump_log_mine by (constructor; [apply Ho; set_solver|done]).
    unfold obs_data in *. destruct o as [|f|s r|i f|i tg|i p|i p|i p|s r]; simpl in *; try done; rewrite ?app_nil_r; try done.
    exfalso. assert (obs_pump (CoMain f) = Some j) by (apply Ho; [set_solver|done]). done.
Qed.

Lemma data_frames_data sid fs sent : data_frames sid fs sent → mjoin (frame_data sid <$> fs) = sent.
Proof.
  intros (ps & -> & <- & _). induction ps as [|p ps IH]; [done|]. simpl. f_equal; [|done].
  unfold frame_data. simpl. by rewrite decide_True.
Qed.

Lemma final_frames_data sid fs rd : final_frames sid fs rd → mjoin (frame_data sid <$> fs) `prefix_of` rd.
Proof.
  intros [(sent & Hf & Hp)|[(fs' & -> & Hf)|(reason & -> & ->)]]; [by rewrite (data_frames_data _ _ _ Hf)| |done].
  rewrite fmap_app, mjoin_app_bytes, (data_frames_data _ _ _ Hf). simpl. by rewrite app_nil_r.
Qed.

(** Data is queued by the pump of its stream. *)
Lemma data_sender w sid o p :
  reachable (client_step ccfg) client_init w → o ∈ cw_log w →
  obs_sent o = Some (ClientFrame sid (Some (CData p))) →
  ∃ k pu, obs_pump o = Some k ∧ cw_pumps w !! k = Some pu ∧ pu_sid pu = sid.
Proof.
  intros Hr Ho Hd. destruct o as [|f|s r|k f| | | | |]; simplify_eq/=.
  - exfalso. destruct (client_replies_inv ccfg w Hr) as [Hrep _].
    assert (ClientFrame sid (Some (CData p)) ∈ client_replies (cw_log w)) as Hf by (apply list_elem_of_omap; eauto).
    assert (ClientFrame sid (Some (CData p)) ∈ client_recv (cw_log w) ≫= reply ccfg) as (g & Hg & _)%list_elem_of_bind.
    { destruct (mpsc_rx_alive _); [rewrite <-Hrep; apply elem_of_app; by left|]. by eapply elem_of_prefix. }
    unfold reply in Hg. destruct g as [s [[]|]]; simpl in Hg; try case_match;
      first [by apply elem_of_nil in Hg|by apply list_elem_of_singleton in Hg].
  - pose proof (client_pumps_inv ccfg w Hr k) as Hok. apply (pump_log_elem k) in Ho; [|done].
    destruct (cw_pumps w !! k) as [pu|] eqn:Hk; [|rewrite Hok in Ho; by apply elem_of_nil in Ho].
    exists k, pu. split_and!; [done|done|]. pose proof (pump_up_final _ _ (po_up _ _ Hok)) as Hf.
    assert (ClientFrame sid (Some (CData p)) ∈ pump_frames (pump_log k (cw_log w))) as Hin
      by (apply list_elem_of_omap; eauto).
    destruct Hf as [(sent & (ps & Hfs & _) & _)|[(fs' & Hfs & ps & -> & _)|(reason & Hfs & _)]];
      rewrite Hfs in Hin.
    + by apply list_elem_of_fmap in Hin as (p' & [= -> _] & _).
    + apply elem_of_app in Hin as [(p' & [= -> _] & _)%list_elem_of_fmap|Hin%list_elem_of_singleton]; done.
    + by apply list_elem_of_singleton in Hin.
Qed.

Lemma obs_data_frame sid o :
  obs_data sid o ≠ [] → ∃ p, obs_sent o = Some (ClientFrame sid (Some (CData p))).
Proof.
  unfold obs_data, frame_data. destruct (obs_sent o) as [[s [[]|]]|]; simpl; try done. case_decide; naive_solver.
Qed.

Lemma data_owner w sid o :
  reachable (client_step ccfg) client_init w → o ∈ cw_log w → obs_data sid o ≠ [] →
  ∃ k pu, obs_pump o = Some k ∧ cw_pumps w !! k = Some pu ∧ pu_sid pu = sid.
Proof. intros Hr Ho [p Hp]%obs_data_frame. by eapply data_sender. Qed.

Lemma pump_needs_open t j pu :
  wires t → cw_pumps (t_client t) !! j = Some pu → stream_frames (pu_sid pu) (hub_log t) ≠ [].
Proof.
  intros Hw Hj. destruct (client_routes_inv ccfg _ (wi_client _ _ _ _ _ Hw)) as [_ Hi].
  destruct (ri_pump _ _ Hi j pu Hj) as (post & Hso & _).
  by destruct (open_received t _ _ _ _ Hw Hso) as (k & c & _ & _ & ? & _).
Qed.

Lemma data_needs_open t sid : wires t → up_data sid (client_log t) ≠ [] → stream_frames sid (hub_log t) ≠ [].
Proof.
  intros Hw (o & Ho & Hd)%mjoin_fmap_nonempty.
  destruct (data_owner _ sid o (wi_client _ _ _ _ _ Hw) Ho Hd) as (j & pu & _ & Hj & <-).
  by eapply pump_needs_open.
Qed.

Lemma first_no_data sid f : is_handshake f → frame_data sid f = [].
Proof. unfold is_handshake, frame_data. by destruct (cf_kind f) as [[]|]. Qed.

Lemma recv_data_up t sid : wires t → recv_data sid (hub_log t) `prefix_of` up_data sid (client_log t).
Proof.
  intros [_ _ _ (first & Hf & Hu%passed_prefix)]. rewrite up_data_sent.
  apply (mjoin_fmap_prefix (frame_data sid)) in Hu. rewrite fmap_cons in Hu.
  change (mjoin (?x :: ?y)) with (x ++ mjoin y) in Hu. rewrite (first_no_data sid _ Hf), fmap_app, mjoin_app_bytes in Hu.
  by eapply prefix_app_l.
Qed.

(** The client sends no data on a stream before the hub has opened it. *)
Definition causal t : Prop :=
  ∀ sid l1 l2, hub_log t = l1 ++ l2 → stream_frames sid l1 = [] → recv_data sid l1 = [].

Lemma causal_step l t t' :
  wires t → wires t' → causal t → tunnel_step mfb cfg sc ccfg l t = Some t' → causal t'.
Proof.
  intros Hw Hw' Hc HS.
  destruct (tunnel_step_side _ _ _ _ _ _ _ HS) as [(sl & Hsl & Hcl)|(_ & _ & Heq)]; [|unfold causal; by rewrite Heq].
  destruct (session_up_inv _ _ _ _ (wi_hub _ _ _ _ _ Hw)) as [Ho _].
  destruct (sess_step_conns _ _ _ _ _ _ Ho Hsl) as (d & Hd & _).
  intros sid l1 l2 Hl Hf. destruct (recv_data sid l1) eqn:Hne; [done|exfalso].
  assert (stream_frames sid (hub_log t) ≠ []) as Hopen.
  { apply data_needs_open; [done|]. rewrite <-Hcl. intros Hnil. pose proof (recv_data_up t' sid Hw') as Hp.
    rewrite Hnil, Hl, recv_data_app, Hne in Hp. by apply prefix_nil_inv in Hp. }
  rewrite Hd in Hl. apply app_eq_inv in Hl as [(k & Hk & _)|(k & -> & _)].
  - pose proof (Hc sid l1 k Hk Hf). congruence.
  - rewrite stream_frames_app in Hf. by apply app_nil in Hf as [? _].
Qed.

Lemma tunnel_inv t :
  reachable (tunnel_step mfb cfg sc ccfg) (tunnel_init sc ccfg) t → wires t ∧ causal t.
Proof.
  intros Hr. induction Hr as [t Hi|l t t' _ [Hw Hc] HS].
  - split; [by apply wires_inv_init|]. intros sid l1 l2 Hl _. destruct Hi as ((? & _ & _ & _ & _ & _ & Hnil) & _).
    rewrite Hnil in Hl. by destruct l1.
  - pose proof (wires_inv_step _ _ _ _ _ _ _ Hw HS) as Hw'. split; [done|exact (causal_step l t t' Hw Hw' Hc HS)].
Qed.

Lemma pumps_unique t j j' pu pu' :
  wires t → cw_pumps (t_client t) !! j = Some pu → cw_pumps (t_client t) !! j' = Some pu' →
  pu_sid pu' = pu_sid pu → j' = j.
Proof.
  intros Hw Hj Hj' Hs. pose proof (client_unique_inv ccfg _ (wi_client _ _ _ _ _ Hw)) as Hu.
  eapply (un_pumps _ Hu); [done..|]. by apply opens_once.
Qed.

Lemma pump_conn t j pu :
  wires t → cw_pumps (t_client t) !! j = Some pu →
  ∃ k c, w_conns (t_hub t) !! k = Some c ∧ cn_sid c = pu_sid pu ∧
    pump_wrote (pump_log j (client_log t)) `prefix_of` tcp_read k (hub_log t).
Proof.
  intros Hw Hj. destruct (client_routes_inv ccfg _ (wi_client _ _ _ _ _ Hw)) as [Hp Hi].
  destruct (ri_pump _ _ Hi j pu Hj) as (post & Hso & _).
  destruct (open_received t _ _ _ _ Hw Hso) as (k & c & Hk & Hs & _ & Hpre). exists k, c. split_and!; [done..|].
  pose proof (Hp j) as Hok. rewrite Hj in Hok. pose proof (po_down _ _ Hok) as Hdown. unfold pump_down_ok in Hdown.
  etrans; [|eapply prefix_app_l; exact Hpre]. unfold handed.
  destruct (pump_over (pu_pc pu)); [done|]. rewrite <-Hdown. by apply prefix_app_r.
Qed.

Lemma conn_pump t k c :
  wires t → causal t → w_conns (t_hub t) !! k = Some c →
  tcp_written k (hub_log t) = [] ∨
  ∃ j pu, cw_pumps (t_client t) !! j = Some pu ∧ pu_sid pu = cn_sid c ∧
    tcp_written k (hub_log t) `prefix_of` pump_read (pump_log j (client_log t)).
Proof.
  intros Hw Hc Hk. pose proof (wi_client _ _ _ _ _ Hw) as Hr. pose proof (wi_hub _ _ _ _ _ Hw) as Hh.
  destruct (ib_conn _ (session_inbound_inv _ _ _ _ Hh) k c Hk) as (post & (l1 & l2 & Hl & Hf & Hd) & _).
  assert (tcp_written k (hub_log t) `prefix_of` up_data (cn_sid c) (client_log t)) as Hpre.
  { etrans; [|by apply recv_data_up]. rewrite Hl at 2. rewrite recv_data_app, (Hc _ _ _ Hl Hf). simpl. rewrite Hd.
    pose proof (session_down_inv mfb cfg sc _ (reachable_nowrap _ _ _ _ Hh) k) as Hdown. rewrite Hk in Hdown.
    apply prefix_app_r. unfold conn_down_ok in Hdown. case_match; [|done]. rewrite <-Hdown. by apply prefix_app_r. }
  destruct (decide (up_data (cn_sid c) (client_log t) = [])) as [Hnil|Hne].
  { left. rewrite Hnil in Hpre. by apply prefix_nil_inv in Hpre. }
  right. destruct (mjoin_fmap_nonempty _ _ Hne) as (o & Ho & Hdo).
  destruct (data_owner _ _ o Hr Ho Hdo) as (j & pu & _ & Hj & Hs). exists j, pu. split_and!; [done..|].
  etrans; [done|]. rewrite (owned_data _ j).
  - pose proof (client_pumps_inv ccfg _ Hr j) as Hok. rewrite Hj in Hok.
    rewrite <-Hs. apply final_frames_data, pump_up_final, Hok.
  - intros o' Ho' Hd'. destruct (data_owner _ _ o' Hr Ho' Hd') as (j' & pu' & -> & Hj' & Hs'). f_equal.
    eapply (pumps_unique t); [done|exact Hj|exact Hj'|congruence].
Qed.

(** ** The properties *)

(** C7: from the hub to the target.  Every pump of the client serves one connection
    of the hub, no other pump does, and what it has written to its target is a
    prefix of what was read from that connection. *)
Theorem tunnel_to_target t j pu :
  reachable (tunnel_step mfb cfg sc ccfg) (tunnel_init sc ccfg) t → cw_pumps (t_client t) !! j = Some pu →
  (∃ k c, w_conns (t_hub t) !! k = Some c ∧ cn_sid c = pu_sid pu ∧
     pump_wrote (pump_log j (cw_log (t_client t))) `prefix_of` tcp_read k (w_log (t_hub t))) ∧
  ∀ j' pu', cw_pumps (t_client t) !! j' = Some pu' → pu_sid pu' = pu_sid pu → j' = j.
Proof.
  intros [Hw _]%tunnel_inv Hj. split; [by apply pump_conn|]. intros j' pu' Hj' Hs. by eapply pumps_unique.
Qed.

(** C8: from the target to the hub.  What the hub has written to a connection is
    nothing, or a prefix of what the pump of its stream has read from its target. *)
Theorem tunnel_from_target t k c :
  reachable (tunnel_step mfb cfg sc ccfg) (tunnel_init sc ccfg) t → w_conns (t_hub t) !! k = Some c →
  tcp_written k (w_log (t_hub t)) = [] ∨
  ∃ j pu, cw_pumps (t_client t) !! j = Some pu ∧ pu_sid pu = cn_sid c ∧
    tcp_written k (w_log (t_hub t)) `prefix_of` pump_read (pump_log j (cw_log (t_client t))).
Proof. intros [Hw Hc]%tunnel_inv Hk. by apply conn_pump. Qed.

(** ** Nothing is lost on an open stream *)

(** Both sides have the stream, and nothing is under way between them. *)
Record drained t (k : nat) (c : conn chan) (j : nat) (pu : pump chan) : Prop := {
  dr_conn : w_conns (t_hub t) !! k = Some c;
  dr_pump : cw_pumps (t_client t) !! j = Some pu;
  dr_sid : cn_sid c = pu_sid pu;
  dr_hub : ss_streams (w_session (t_hub t)) !! cn_sid c = Some k ∧ w_recv (t_hub t) = RvNext ∧
    cn_up c = UpRead ∧ cn_dn c = DnRecv ∧ mpsc_queued (cn_writer c) = [];
  dr_client : cw_streams (t_client t) !! pu_sid pu = Some j ∧ cw_main (t_client t) = CmNext ∧
    pu_pc pu = PuSelect ∧ mpsc_queued (pu_inbound pu) = [];
  dr_down : mpsc_rx_alive (ss_server_tx (w_session (t_hub t))) = true ∧
    mpsc_queued (ss_server_tx (w_session (t_hub t))) = [] ∧ t_down t = [];
  dr_up : mpsc_rx_alive (cw_hub_tx (t_client t)) = true ∧ mpsc_queued (cw_hub_tx (t_client t)) = [] ∧ t_up t = [] }.

Lemma drained_down t k c j pu :
  wires t → drained t k c j pu →
  pump_wrote (pump_log j (client_log t)) = tcp_read k (hub_log t).
Proof.
  intros Hw [Hk Hj Hs (_ & _ & Hup & _) (Hin & Hm & Hpc & Hq) (Ha & Htx & Hdown) _].
  destruct (client_routes_inv ccfg _ (wi_client _ _ _ _ _ Hw)) as [Hp Hi].
  assert (stream_kinds (cn_sid c) (client_log t) = stream_frames (cn_sid c) (hub_log t)) as Hkinds.
  { destruct (wi_down _ _ _ _ _ Hw) as (pre & Hpre & Hd). unfold passed in Hd.
    rewrite Ha, Htx, Hdown, !app_nil_r in Hd. unfold stream_kinds. rewrite Hd, omap_app.
    by rewrite (challenge_kinds _ pre). }
  destruct (session_up_inv _ _ _ _ (wi_hub _ _ _ _ _ Hw)) as [_ Hu].
  pose proof (ui_conn _ Hu k c Hk) as Hfs. rewrite Hup in Hfs. destruct Hfs as (o & ps & Hfs & <-).
  destruct (ri_pump _ _ Hi j pu Hj) as (post & (l1 & o' & l2 & Hl & _ & _ & Hdata) & Hpost).
  rewrite Hm, (Hpost Hin), !app_nil_r in Hdata. pose proof (Hp j) as Hok. rewrite Hj in Hok.
  pose proof (po_down _ _ Hok) as Hdn. unfold pump_down_ok in Hdn. rewrite Hpc, Hq in Hdn. simpl in Hdn.
  rewrite app_nil_r in Hdn. rewrite Hdn. unfold handed in Hdata. rewrite <-Hdata, stream_data_kinds.
  rewrite Hs in Hkinds, Hfs. rewrite <-(data_payload_frames o ps), <-Hfs, <-Hkinds, Hl. change (CoRecv ?f :: l2) with ([CoRecv f] ++ l2).
  rewrite !stream_kinds_app, stream_kinds_open. rewrite Hfs, Hl in Hkinds.
  change (CoRecv ?f :: l2) with ([CoRecv f] ++ l2) in Hkinds.
  rewrite !stream_kinds_app, stream_kinds_open in Hkinds.
  destruct (stream_kinds (pu_sid pu) l1) as [|x K1]; [done|]. exfalso.
  simplify_eq/=. assert (SOpen o' ∈ SData <$> ps) as Hno by (rewrite <-H0; set_solver). set_solver.
Qed.

Lemma drained_up t k c j pu :
  wires t → causal t → drained t k c j pu →
  tcp_written k (hub_log t) = pump_read (pump_log j (client_log t)).
Proof.
  intros Hw Hc [Hk Hj Hs (Hin & Hrv & _ & Hdn & Hwr) (_ & _ & Hpc & _) _ (Ha & Htx & Hup)].
  pose proof (wi_client _ _ _ _ _ Hw) as Hr. pose proof (wi_hub _ _ _ _ _ Hw) as Hh.
  destruct (ib_conn _ (session_inbound_inv _ _ _ _ Hh) k c Hk) as (post & (l1 & l2 & Hl & Hf & Hd) & Hpost).
  rewrite (rv_hold_idle k), Hpost, !app_nil_r in Hd by first [done|by rewrite Hrv].
  pose proof (session_down_inv mfb cfg sc _ (reachable_nowrap _ _ _ _ Hh) k) as Hdown. rewrite Hk in Hdown.
  unfold conn_down_ok in Hdown. rewrite Hdn, Hwr in Hdown. simpl in Hdown. rewrite app_nil_r in Hdown.
  rewrite Hdown, <-Hd. trans (recv_data (cn_sid c) (hub_log t)).
  { rewrite Hl. by rewrite recv_data_app, (Hc _ _ _ Hl Hf). }
  trans (up_data (cn_sid c) (client_log t)).
  { destruct (wi_up _ _ _ _ _ Hw) as (first & Hfirst & Hp). unfold passed in Hp. rewrite Ha, Htx, Hup, !app_nil_r in Hp.
    rewrite up_data_sent, <-Hp, fmap_cons. change (mjoin (?x :: ?y)) with (x ++ mjoin y).
    by rewrite (first_no_data _ _ Hfirst). }
  rewrite (owned_data _ j), Hs.
  - pose proof (client_pumps_inv ccfg _ Hr j) as Hok. rewrite Hj in Hok.
    pose proof (po_up _ _ Hok) as Hu. unfold pump_up_ok in Hu. rewrite Hpc in Hu. by apply data_frames_data.
  - intros o' Ho' Hd'. destruct (data_owner _ _ o' Hr Ho' Hd') as (j' & pu' & -> & Hj' & Hs'). f_equal.
    eapply (un_pumps _ (client_unique_inv ccfg _ Hr)); [done|done|congruence|by apply opens_once].
Qed.

(** C9: nothing is lost while a stream is open.  When both sides have the stream
    and nothing is under way, the target has been sent exactly what was read from
    the connection, and the connection exactly what was read from the target. *)
Theorem tunnel_no_loss t k c j pu :
  reachable (tunnel_step mfb cfg sc ccfg) (tunnel_init sc ccfg) t → drained t k c j pu →
  pump_wrote (pump_log j (cw_log (t_client t))) = tcp_read k (w_log (t_hub t)) ∧
  tcp_written k (w_log (t_hub t)) = pump_read (pump_log j (cw_log (t_client t))).
Proof.
  intros [Hw Hc]%tunnel_inv Hd. split; [by eapply drained_down|by eapply drained_up].
Qed.
End tunnel_streams.
