(* ===== verification/TunnelRefinement.v ===== *)
(** * The tunnel refines a set of pipes

    The specification of the tunnel: every TCP connection accepted by the hub is a
    duplex pipe to a target - bytes enter at one end and leave at the other, in
    order, as a prefix of what entered.  Channels, frames, ids, tables and tasks
    are gone; [tunnel_refines] shows that each step of the two programs is a step
    of the pipes or does not show. *)
From S2P Require Import Prelude RustStd Proto ServerConfig Channel ServerMetrics ServerHttp ServerSession SessionTrans SessionDelivery SessionStreams SessionInbound ClientConfig ClientSession ClientPumps ClientRoutes ClientStreams Tunnel TunnelStreams.

(** ** The specification *)
Record duplex := Duplex {
  dx_hub_in : bytes;        (* read from the connection at the hub *)
  dx_target_out : bytes;    (* written to the target *)
  dx_target_in : bytes;     (* read from the target *)
  dx_hub_out : bytes }.     (* written to the connection *)

Definition closed_pipe : duplex := Duplex [] [] [] [].

Inductive duplex_move : duplex → duplex → Prop :=
| dm_hub_in a b c d p : duplex_move (Duplex a b c d) (Duplex (a ++ p) b c d)
| dm_target_out a b c d p : b ++ p `prefix_of` a → duplex_move (Duplex a b c d) (Duplex a (b ++ p) c d)
| dm_target_in a b c d p : duplex_move (Duplex a b c d) (Duplex a b (c ++ p) d)
| dm_hub_out a b c d p : d ++ p `prefix_of` c → duplex_move (Duplex a b c d) (Duplex a b c (d ++ p)).

(** One pipe moves, or none. *)
Definition pipes := nat → duplex.
Inductive pipes_step (a a' : pipes) : Prop :=
| ps_stutter : (∀ k, a' k = a k) → pipes_step a a'
| ps_move k : duplex_move (a k) (a' k) → (∀ k', k' ≠ k → a' k' = a k') → pipes_step a a'.

Section tunnel_refinement.
Context {chan : Type → Type} `{Hmpsc : Mpsc chan} `{HI : HashIter} {HU : UnicodeTables}.
Context (mfb : bytes → option bytes) (cfg : server_config) (sc : spoke_config) (ccfg : client_config).
Implicit Types (t : tunnel chan) (m : gmap nat (pump chan)).

(** ** The abstraction *)
Definition stream_pump (sid : N) m : option nat :=
  fst <$> head (filter (λ jp, pu_sid jp.2 = sid) (map_to_list m)).

Definition pipe_of t (k : nat) : duplex :=
  match w_conns (t_hub t) !! k with
  | None => closed_pipe
  | Some c =>
      let out l := match stream_pump (cn_sid c) (cw_pumps (t_client t)) with
                   | Some j => l (pump_log j (cw_log (t_client t)))
                   | None => []
                   end in
      Duplex (tcp_read k (w_log (t_hub t))) (out pump_wrote) (out pump_read) (tcp_written k (w_log (t_hub t)))
  end.

Definition unique_sids m : Prop :=
  ∀ j1 j2 pu1 pu2, m !! j1 = Some pu1 → m !! j2 = Some pu2 → pu_sid pu1 = pu_sid pu2 → j1 = j2.

Lemma stream_pump_elem sid m j : stream_pump sid m = Some j → ∃ pu, m !! j = Some pu ∧ pu_sid pu = sid.
Proof.
  unfold stream_pump. destruct (filter _ _) as [|[j' pu] l] eqn:Hf; [done|]. simpl. intros [= ->].
  assert ((j, pu) ∈ filter (λ jp, pu_sid jp.2 = sid) (map_to_list m)) as Hin by (rewrite Hf; set_solver).
  apply list_elem_of_filter in Hin as [Hs Hin]. apply elem_of_map_to_list in Hin. eauto.
Qed.

Lemma stream_pump_Some sid m j pu :
  unique_sids m → m !! j = Some pu → pu_sid pu = sid → stream_pump sid m = Some j.
Proof.
  intros Hu Hj Hs. destruct (stream_pump sid m) as [j'|] eqn:Hp.
  - destruct (stream_pump_elem _ _ _ Hp) as (pu' & Hj' & Hs'). f_equal. eapply Hu; [done|done|congruence].
  - exfalso. unfold stream_pump in Hp. apply fmap_None, head_None in Hp.
    assert ((j, pu) ∈ filter (λ jp, pu_sid jp.2 = sid) (map_to_list m)) as Hin.
    { apply list_elem_of_filter. split; [done|]. by apply elem_of_map_to_list. }
    rewrite Hp in Hin. by apply elem_of_nil in Hin.
Qed.

Lemma stream_pump_None sid m :
  (∀ j pu, m !! j = Some pu → pu_sid pu ≠ sid) → stream_pump sid m = None.
Proof.
  intros Hno. destruct (stream_pump sid m) as [j|] eqn:Hp; [|done].
  destruct (stream_pump_elem _ _ _ Hp) as (pu & Hj & Hs). by destruct (Hno j pu Hj).
Qed.

(** Replacing a pump by one of the same stream changes no one's pump. *)
Lemma stream_pump_same sid m j pu pu' :
  unique_sids m → m !! j = Some pu → pu_sid pu' = pu_sid pu →
  stream_pump sid (<[j := pu']> m) = stream_pump sid m ∧ unique_sids (<[j := pu']> m).
Proof.
  intros Hu Hj Hs.
  assert (unique_sids (<[j := pu']> m)) as Hu'.
  { intros j1 j2 pu1 pu2. rewrite !lookup_insert. repeat case_decide; intros; simplify_eq; try done;
      eapply Hu; eauto; congruence. }
  split; [|done]. destruct (stream_pump sid m) as [i|] eqn:Hp.
  - destruct (stream_pump_elem _ _ _ Hp) as (p & Hi & Hsi). destruct (decide (i = j)) as [->|].
    + eapply stream_pump_Some; [done|apply lookup_insert_eq|congruence].
    + eapply stream_pump_Some; [done|by rewrite lookup_insert_ne|done].
  - apply stream_pump_None. intros i p. rewrite lookup_insert. case_decide; intros Hi Hsi; simplify_eq.
    + by rewrite (stream_pump_Some (pu_sid p) m i pu) in Hp.
    + by rewrite (stream_pump_Some (pu_sid p) m i p) in Hp.
Qed.

Abbreviation wires := (wires_inv mfb cfg sc ccfg).
Abbreviation causal := (causal (chan:=chan)).

Lemma wires_unique t : wires t → unique_sids (cw_pumps (t_client t)).
Proof. intros Hw j1 j2 pu1 pu2 H1 H2 Hs. symmetry. by eapply pumps_unique. Qed.

(** What a pipe has delivered is a prefix of what it was given. *)
Lemma pipe_ok t k : wires t → causal t →
  dx_target_out (pipe_of t k) `prefix_of` dx_hub_in (pipe_of t k) ∧
  dx_hub_out (pipe_of t k) `prefix_of` dx_target_in (pipe_of t k).
Proof.
  intros Hw Hc. unfold pipe_of. destruct (w_conns (t_hub t) !! k) as [c|] eqn:Hk; [|done]. simpl. split.
  - destruct (stream_pump _ _) as [j|] eqn:Hp; [|apply prefix_nil].
    destruct (stream_pump_elem _ _ _ Hp) as (pu & Hj & Hs).
    destruct (pump_conn _ _ _ _ _ _ _ Hw Hj) as (k' & c' & Hk' & Hs' & Hpre).
    destruct (session_up_inv _ _ _ _ (wi_hub _ _ _ _ _ Hw)) as [_ Hu].
    assert (k' = k) as -> by (eapply (ui_sid_inj _ Hu); [done|done|congruence]). done.
  - destruct (conn_pump _ _ _ _ _ _ _ Hw Hc Hk) as [->|(j & pu & Hj & Hs & Hpre)]; [apply prefix_nil|].
    by rewrite (stream_pump_Some _ _ _ _ (wires_unique _ Hw) Hj Hs).
Qed.

Lemma conn_trans_io k n oc l c' n' :
  conn_trans (chan:=chan) k n oc l c' n' → tcp_read k l = [] ∨ tcp_written k l = [].
Proof.
  intros Ht. destruct Ht; try (by left); try (by right);
    try (match goal with H : Forall quiet_obs _ |- _ => left; by apply quiet_tcp_read end).
  right. assert (quiet_obs m → tcp_written k [OTcpRead k p; m] = []) as Hq; [|by apply Hq].
  intros Hm. change [OTcpRead k p; m] with ([OTcpRead k p] ++ [m]). rewrite tcp_written_app.
  rewrite (quiet_tcp_written k [m]) by (by constructor). done.
Qed.

(** A step of the hub's session. *)
Lemma refine_hub sl t t' :
  wires t → wires t' → causal t' → sess_step mfb cfg sc sl (t_hub t) = Some (t_hub t') → t_client t' = t_client t →
  pipes_step (pipe_of t) (pipe_of t').
Proof.
  intros Hw Hw' Hc' HS Hcl. destruct (session_up_inv _ _ _ _ (wi_hub _ _ _ _ _ Hw)) as [Ho Hu].
  destruct (sess_step_conns _ _ _ _ _ _ Ho HS) as (d & Hd & [(Hcs & Hq & _)|(k & c' & Hcs & Ht)]).
  { apply ps_stutter. intros k. unfold pipe_of. rewrite Hcs, Hcl, Hd, tcp_read_app, tcp_written_app.
    by rewrite (quiet_tcp_read k d Hq), (quiet_tcp_written k d Hq), !app_nil_r. }
  assert (∀ k', k' ≠ k → pipe_of t' k' = pipe_of t k') as Hother.
  { intros k' Hne. unfold pipe_of. rewrite Hcs, lookup_insert_ne, Hcl, Hd, tcp_read_app, tcp_written_app by done.
    destruct (conn_trans_other _ _ _ _ _ _ k' Ht Hne) as (-> & -> & _). by rewrite !app_nil_r. }
  pose proof (pipe_ok t' k Hw' Hc') as [_ Hout].
  destruct (w_conns (t_hub t) !! k) as [c|] eqn:Hk.
  - apply ps_move with k; [|done]. unfold pipe_of in *. rewrite Hk, Hcs, lookup_insert_eq in *. simpl in *.
    assert (cn_sid c' = cn_sid c) as Hs by (by inversion Ht). rewrite Hs, Hcl, Hd, tcp_read_app, tcp_written_app in *.
    destruct (conn_trans_io _ _ _ _ _ _ Ht) as [Hnil|Hnil]; rewrite Hnil, app_nil_r in *; by constructor.
  - apply ps_stutter. intros k'. destruct (decide (k' = k)) as [->|]; [|by apply Hother].
    unfold pipe_of. rewrite Hk, Hcs, lookup_insert_eq, Hcl, Hd, tcp_read_app, tcp_written_app.
    rewrite (ui_fresh _ Hu k Hk).
    pose proof (session_down_inv mfb cfg sc _ (reachable_nowrap _ _ _ _ (wi_hub _ _ _ _ _ Hw)) k) as Hdown.
    rewrite Hk in Hdown. destruct Hdown as [-> _]. simpl.
    assert (tcp_read k d = [] ∧ tcp_written k d = []) as [-> ->] by (by inversion Ht).
    rewrite stream_pump_None; [done|]. intros j pu Hj Hs.
    destruct (pump_conn _ _ _ _ _ _ _ Hw Hj) as (k2 & c2 & Hk2 & Hs2 & _).
    destruct (session_up_inv _ _ _ _ (wi_hub _ _ _ _ _ Hw')) as [_ Hu'].
    assert (k2 = k) as ->; [|congruence]. eapply (ui_sid_inj _ Hu' k2 k c2 c'); [|by rewrite Hcs, lookup_insert_eq|congruence].
    rewrite Hcs, lookup_insert_ne; [done|]. intros ->. congruence.
Qed.

Lemma pump_trans_io j pu d pu' :
  pump_trans (chan:=chan) j pu d pu' → pump_read d = [] ∨ pump_wrote d = [].
Proof. intros Ht. destruct Ht; try (by left); by right. Qed.

(** A step of the client's session. *)
Lemma refine_client cl t t' :
  wires t → wires t' → causal t' → client_step ccfg cl (t_client t) = Some (t_client t') → t_hub t' = t_hub t →
  pipes_step (pipe_of t) (pipe_of t').
Proof.
  intros Hw Hw' Hc' HS Hh. pose proof (wires_unique t Hw) as Hun.
  destruct (client_step_pumps _ _ _ _ HS) as [d Hp Hl Hq|j sid name target Hn Hm Hp Hl|j pu pu' d Hj Ht Hp Hl].
  - apply ps_stutter. intros k. unfold pipe_of. rewrite Hh, Hp, Hl. case_match; [|done]. case_match; [|done].
    by rewrite pump_log_app, (pump_log_quiet _ d Hq), app_nil_r.
  - apply ps_stutter. intros k. unfold pipe_of. rewrite Hh, Hl. destruct (w_conns (t_hub t) !! k) as [c|]; [|done].
    assert (pump_log j (cw_log (t_client t)) = []) as Hnil.
    { pose proof (client_pumps_inv ccfg _ (wi_client _ _ _ _ _ Hw) j) as Hj. by rewrite Hn in Hj. }
    pose proof (wires_unique t' Hw') as Hun'. rewrite Hp in *.
    destruct (decide (sid = cn_sid c)) as [->|Hne].
    + rewrite (stream_pump_Some (cn_sid c) _ j (Pump (cn_sid c) name target (mpsc_channel 64) PuDial) Hun')
        by (done || apply lookup_insert_eq).
      rewrite stream_pump_None; [by rewrite Hnil|].
      intros i p Hi Hs. assert (i = j) as ->; [|congruence]. eapply Hun'; [|apply lookup_insert_eq|done].
      rewrite lookup_insert_ne; [done|]. intros ->. congruence.
    + assert (stream_pump (cn_sid c) (<[j:=Pump sid name target (mpsc_channel 64) PuDial]> (cw_pumps (t_client t))) =
              stream_pump (cn_sid c) (cw_pumps (t_client t))) as ->; [|done].
      destruct (stream_pump (cn_sid c) (cw_pumps (t_client t))) as [i|] eqn:Hsp.
      * destruct (stream_pump_elem _ _ _ Hsp) as (p & Hi & Hs). eapply stream_pump_Some; [done| |done].
        rewrite lookup_insert_ne; [done|]. intros ->. congruence.
      * apply stream_pump_None. intros i p. rewrite lookup_insert. case_decide; intros Hi Hs; simplify_eq/=.
        by rewrite (stream_pump_Some _ _ _ _ Hun Hi Hs) in Hsp.
  - destruct (pump_conn _ _ _ _ _ _ _ Hw Hj) as (k & c & Hk & Hs & _).
    pose proof (proj1 (pump_trans_same _ _ _ _ Ht)) as Hsame.
    pose proof (pipe_ok t' k Hw' Hc') as [Hout _]. apply ps_move with k.
    + unfold pipe_of in *. rewrite Hh, Hk, Hp in *. simpl in *.
      rewrite (proj1 (stream_pump_same (cn_sid c) _ j pu pu' Hun Hj Hsame)),
        (stream_pump_Some _ _ j pu Hun Hj (eq_sym Hs)), Hl, pump_log_app, pump_read_app, pump_wrote_app in *.
      rewrite (pump_log_mine j d) in * by (by eapply pump_trans_mine).
      destruct (pump_trans_io _ _ _ _ Ht) as [Hnil|Hnil]; rewrite Hnil, app_nil_r in *; by constructor.
    + intros k' Hne. unfold pipe_of. rewrite Hh, Hp, Hl. destruct (w_conns (t_hub t) !! k') as [c'|] eqn:Hk'; [|done].
      rewrite (proj1 (stream_pump_same (cn_sid c') _ j pu pu' Hun Hj Hsame)).
      destruct (stream_pump (cn_sid c') (cw_pumps (t_client t))) as [i|] eqn:Hsp; [|done].
      destruct (stream_pump_elem _ _ _ Hsp) as (p & Hi & Hsi).
      rewrite pump_log_app, (pump_log_other i j d), app_nil_r; [done|by eapply pump_trans_mine|].
      intros ->. destruct (session_up_inv _ _ _ _ (wi_hub _ _ _ _ _ Hw)) as [_ Hu].
      apply Hne. eapply (ui_sid_inj _ Hu); [done..|]. congruence.
Qed.

(** C1: refinement.  From any reachable state, a step of the tunnel - of a task of
    either program, of the transport, or a loss - moves one pipe in one of its
    four ways, or none; and the tunnel starts with all pipes empty. *)
Theorem tunnel_refines t :
  reachable (tunnel_step mfb cfg sc ccfg) (tunnel_init sc ccfg) t →
  (tunnel_init sc ccfg t → ∀ k, pipe_of t k = closed_pipe) ∧
  ∀ l t', tunnel_step mfb cfg sc ccfg l t = Some t' → pipes_step (pipe_of t) (pipe_of t').
Proof.
  intros Hr. split.
  - intros ((tx & _ & Hcs & _) & _) k. unfold pipe_of. by rewrite Hcs, lookup_empty.
  - intros l t' HS. destruct (tunnel_inv _ _ _ _ _ Hr) as [Hw _].
    destruct (tunnel_inv _ _ _ _ _ (reachable_step _ _ _ _ _ Hr HS)) as [Hw' Hc'].
    destruct (tunnel_step_side _ _ _ _ _ _ _ HS) as [(sl & Hsl & Hcl)|(cl & Hcl & Hh)];
      [by eapply refine_hub|by eapply refine_client].
Qed.
End tunnel_refinement.
