(* ===== verification/TunnelWeight.v ===== *)
(** * The tunnel: the work that is left

    A natural number for a state of the tunnel, the weight: what the tasks of both
    programs still have to do with the bytes and frames in hand.  Every step a
    program or the transport takes of its own accord lowers it; only new input (a
    connection, bytes read, a request, a ping, the end of the stream) raises it. *)
From S2P Require Import Prelude RustStd Proto ServerConfig Channel ServerMetrics ServerHttp ServerSession SessionTrans SessionDelivery SessionStreams SessionInbound SessionHttp ClientConfig ClientSession ClientPumps Tunnel.

(** ** Frames *)
Definition down_weight (f : server_frame) : nat :=
  match sf_kind f with
  | Some (SChallenge _) => 4
  | Some (SOpen _) => 7
  | Some (SData _) => 4
  | Some (SPing _) => 4
  | Some (SClose _) | Some (SHttpResponse _) | None => 1
  end.

Definition up_weight (f : client_frame) : nat :=
  match cf_kind f with
  | Some (CData _) => 4
  | Some (CHttpRequest _) => 7
  | Some (CHandshake _) | Some (CClose _) | Some (CPong _) | None => 1
  end.

Definition list_weight {A} (f : A → nat) (l : list A) : nat := sum_list_with f l.
Definition queued_weight {A} (f : A → nat) (l : list A) : nat := sum_list_with (λ x, S (f x)) l.

(** ** Tasks of the hub *)
Definition dn_weight (pc : dn_pc) : nat :=
  match pc with DnOff | DnDone => 0 | DnShutdown => 1 | DnRecv => 2 | DnWrite _ => 3 end.
Definition up_pc_weight (pc : up_pc) : nat :=
  match pc with UpSend _ => 6 | UpSendEof => 4 | UpRemove => 1 | UpOff | UpRead | UpDone => 0 end.
Definition accept_weight (pc : accept_pc) : nat :=
  match pc with
  | AcInsert _ _ => 13 | AcOpen _ _ => 12 | AcRollback _ _ => 2 | AcCheck => 1
  | AcAccept | AcDone => 0
  end.
Definition recv_weight (pc : recv_pc) : nat :=
  match pc with RvSend _ _ _ => 3 | RvReject _ => 3 | RvRemove _ => 1 | RvNext | RvDone => 0 end.
Definition http_weight (pc : http_pc) : nat :=
  match pc with HtStart => 6 | HtSend => 5 | HtBody _ _ => 4 | HtReply _ => 3 | HtDone => 0 end.

(** ** Tasks of the client *)
Definition pump_pc_weight (pc : pump_pc) : nat :=
  match pc with
  | PuSendData _ => 8 | PuDial => 5 | PuFail _ | PuSendEof => 4 | PuWrite _ => 3 | PuSelect => 2
  | PuRemove => 1 | PuDone => 0
  end.
Definition main_weight (pc : main_pc) : nat :=
  match pc with
  | CmInsert _ _ _ => 6
  | CmHandshake | CmUnknown _ _ | CmDeliver _ _ | CmPong _ => 3
  | CmNext | CmDone _ => 0
  end.

(** ** The steps that need no new input *)
Definition hub_internal (l : sess_label) : bool :=
  match l with
  | LAccept _ Tick | LUp _ Tick | LRecv Tick => true
  | LDn _ (Tick | WriteOk | WriteErr _) => true
  | LHttp _ _ => true
  | _ => false
  end.

Definition client_internal (l : client_label) : bool :=
  match l with
  | CMain (ETick | ESpawn _) => true
  | CPump _ (ETick | EDialOk | EDialErr _ | EDialTimeout | EWriteOk | EWriteErr _) => true
  | _ => false
  end.

Definition internal (l : tunnel_label) : bool :=
  match l with
  | THub l => hub_internal l
  | TClient l => client_internal l
  | TDownTake | TDownRecv | TUpTake | TUpRecv _ => true
  end.

Section weight.
Context {chan : Type → Type} `{Hmpsc : Mpsc chan} `{HI : HashIter} {HU : UnicodeTables}.
Context (mfb : bytes → option bytes) (cfg : server_config) (sc : spoke_config) (ccfg : client_config).

Definition conn_weight (c : conn chan) : nat :=
  dn_weight (cn_dn c) + up_pc_weight (cn_up c) + 2 * length (mpsc_queued (cn_writer c)).
Definition acceptor_weight (t : acceptor) : nat := accept_weight (ac_pc t).
Definition task_weight (t : http_task) : nat := http_weight (ht_pc t).
Definition pump_weight (pu : pump chan) : nat :=
  pump_pc_weight (pu_pc pu) + 2 * length (mpsc_queued (pu_inbound pu)).

Definition hub_weight (w : sess_world chan) : nat :=
  msum conn_weight (w_conns w) + msum acceptor_weight (w_accept w) + msum task_weight (w_http w)
  + recv_weight (w_recv w) + queued_weight down_weight (mpsc_queued (ss_server_tx (w_session w))).
Definition client_weight (w : client_world chan) : nat :=
  msum pump_weight (cw_pumps w) + main_weight (cw_main w)
  + queued_weight up_weight (mpsc_queued (cw_hub_tx w)).
Definition weight (t : tunnel chan) : nat :=
  hub_weight (t_hub t) + client_weight (t_client t)
  + list_weight down_weight (t_down t) + list_weight up_weight (t_up t).

Lemma queued_weight_snoc {A} (f : A → nat) l x : queued_weight f (l ++ [x]) = queued_weight f l + S (f x).
Proof. unfold queued_weight. rewrite sum_list_with_app. simpl. lia. Qed.
Lemma list_weight_snoc {A} (f : A → nat) l x : list_weight f (l ++ [x]) = list_weight f l + f x.
Proof. unfold list_weight. rewrite sum_list_with_app. simpl. lia. Qed.

Lemma send_weight {A} (f : A → nat) x (c c' : chan A) :
  mpsc_send x c = Sent c' →
  queued_weight f (mpsc_queued c') = queued_weight f (mpsc_queued c) + S (f x) ∧
  length (mpsc_queued c') = length (mpsc_queued c) + 1.
Proof. intros (-> & _)%mpsc_send_Sent. by rewrite queued_weight_snoc, length_app. Qed.

Lemma take_weight {A} (f : A → nat) x (c c' : chan A) :
  mpsc_recv c = Some (x, c') →
  queued_weight f (mpsc_queued c) = S (f x) + queued_weight f (mpsc_queued c') ∧
  length (mpsc_queued c) = S (length (mpsc_queued c')).
Proof. by intros (-> & _)%mpsc_recv_Some. Qed.

(** Collect what is known about the queues and maps a step has changed. *)
Ltac weigh :=
  simpl in *;
  repeat match goal with
  | H : mpsc_send ?x ?c = Sent _ |- _ =>
      let T := type of x in
      let f := match T with
               | server_frame => constr:(down_weight) | client_frame => constr:(up_weight)
               | _ => constr:(λ _ : T, 0) end in
      let n := eval lazy in (f x) in
      apply (send_weight f) in H as [? ?]; change (f x) with n in *
  | H : mpsc_recv _ = Some (?x, _) |- _ =>
      let T := type of x in apply (take_weight (λ _ : T, 0)) in H as [_ ?]
  end;
  repeat match goal with
  | H : ?m !! ?k = Some ?x |- context [msum ?f (<[?k:=?y]> ?m)] =>
      pose proof (msum_insert f k x y m H); generalize dependent (msum f (<[k:=y]> m)); intros
  | H : ?m !! ?k = None |- context [msum ?f (<[?k:=?y]> ?m)] => rewrite (msum_insert_new f k y m H)
  end;
  unfold conn_weight, acceptor_weight, task_weight, pump_weight in *; simpl in *;
  repeat match goal with
  | H : ac_pc _ = _ |- _ => rewrite H in *; clear H
  | H : cn_up _ = _ |- _ => rewrite H in *; clear H
  | H : cn_dn _ = _ |- _ => rewrite H in *; clear H
  | H : ht_pc _ = _ |- _ => rewrite H in *; clear H
  | H : pu_pc _ = _ |- _ => rewrite H in *; clear H
  | H : w_recv _ = _ |- _ => rewrite H in *; clear H
  | H : cw_main _ = _ |- _ => rewrite H in *; clear H
  end;
  rewrite ?mpsc_drop_queued, ?mpsc_queued_new in *; simpl in *; lia.

Lemma remove_stream_state sid (w : sess_world chan) :
  w_http (remove_stream sid w) = w_http w ∧ ss_server_tx (w_session (remove_stream sid w)) = ss_server_tx (w_session w).
Proof. unfold remove_stream. by case_match. Qed.

(** Removing a stream from the table changes no part of the weight. *)
Ltac hub_parts :=
  simpl; rewrite ?remove_stream_conns, ?remove_stream_accept, ?remove_stream_recv;
  repeat match goal with |- context [remove_stream ?s ?v] =>
    destruct (remove_stream_state s v) as [-> ->] end; simpl.

Lemma hub_weight_step l w w' :
  sess_step mfb cfg sc l w = Some w' → hub_internal l = true → hub_weight w' < hub_weight w.
Proof.
  intros HS Hi. sess_inv HS; try discriminate Hi; clear Hi; unfold hub_weight.
  all: hub_parts.
  all: weigh.
Qed.

Lemma client_weight_step l w w' :
  client_step ccfg l w = Some w' → client_internal l = true → client_weight w' < client_weight w.
Proof.
  intros HS Hi. client_inv HS; try discriminate Hi; clear Hi; unfold client_weight.
  all: weigh.
Qed.

(** A frame in the hands of a frame loop weighs less than on the wire. *)
Lemma hub_weight_recv f h w w' :
  sess_step mfb cfg sc (LRecv (StreamFrame f h)) w = Some w' → hub_weight w' < hub_weight w + up_weight f.
Proof.
  intros HS. remember (LRecv (StreamFrame f h)) as l eqn:Hl.
  sess_inv HS; try discriminate Hl; injection Hl as <- <-; unfold hub_weight, up_weight.
  all: hub_parts.
  all: repeat match goal with H : cf_kind _ = _ |- _ => rewrite H; clear H end.
  all: weigh.
Qed.

Lemma client_weight_recv f w w' :
  client_step ccfg (CMain (EFrame f)) w = Some w' → client_weight w' < client_weight w + down_weight f.
Proof.
  intros HS. simpl in HS. unfold main_step, main_frame in HS. client_split HS.
  all: unfold client_weight, down_weight.
  all: repeat match goal with H : sf_kind _ = _ |- _ => rewrite H; clear H end.
  all: weigh.
Qed.

(** A frame moves from a channel to the wire. *)
Lemma hub_weight_take f q w w' :
  mpsc_recv (ss_server_tx (w_session w)) = Some (f, q) → sess_step mfb cfg sc LTxTake w = Some w' →
  hub_weight w' + S (down_weight f) = hub_weight w.
Proof.
  intros Hr. simpl. unfold tx_take. rewrite Hr. intros [= <-].
  apply (take_weight down_weight) in Hr as [Hq _]. unfold hub_weight. simpl. lia.
Qed.

Lemma client_weight_take f q w w' :
  mpsc_recv (cw_hub_tx w) = Some (f, q) → client_step ccfg CTxTake w = Some w' →
  client_weight w' + S (up_weight f) = client_weight w.
Proof.
  intros Hr. simpl. rewrite Hr. intros [= <-].
  apply (take_weight up_weight) in Hr as [Hq _]. unfold client_weight. simpl. lia.
Qed.

(** The steps the programs and the transport take without new input.  The
    transport holds at most [cap] frames per direction: HTTP/2 stops accepting
    frames when its flow-control window is used up. *)
Definition has_room (cap : nat) (l : tunnel_label) (t : tunnel chan) : bool :=
  match l with
  | TDownTake => length (t_down t) <? cap
  | TUpTake => length (t_up t) <? cap
  | _ => true
  end.

Definition own_step (cap : nat) (l : tunnel_label) (t : tunnel chan) : option (tunnel chan) :=
  if internal l && has_room cap l t then tunnel_step mfb cfg sc ccfg l t else None.

Lemma own_step_Some cap l t t' :
  own_step cap l t = Some t' →
  internal l = true ∧ has_room cap l t = true ∧ tunnel_step mfb cfg sc ccfg l t = Some t'.
Proof.
  unfold own_step. destruct (internal l), (has_room cap l t); simpl; naive_solver.
Qed.

Lemma own_step_weight cap l t t' : own_step cap l t = Some t' → weight t' < weight t.
Proof.
  intros (Hi & _ & HS)%own_step_Some. unfold weight. destruct l as [l|l| | | |h]; simpl in Hi, HS.
  - destruct (hub_local l); [|done]. apply on_hub_Some in HS as (w & _ & HS & ->).
    apply hub_weight_step in HS; [simpl; lia|done].
  - destruct (client_local l); [|done]. apply on_client_Some in HS as (w & HS & ->).
    apply client_weight_step in HS; [simpl; lia|done].
  - destruct (mpsc_recv _) as [[f q]|] eqn:Hr; [|done]. apply on_hub_Some in HS as (w & _ & HS & ->).
    eapply hub_weight_take in HS; [|exact Hr]. simpl in *. rewrite list_weight_snoc. lia.
  - destruct (t_down t) as [|f down]; [done|]. apply on_client_Some in HS as (w & HS & ->).
    apply client_weight_recv in HS. simpl in *. lia.
  - destruct (mpsc_recv _) as [[f q]|] eqn:Hr; [|done]. apply on_client_Some in HS as (w & HS & ->).
    eapply client_weight_take in HS; [|exact Hr]. simpl in *. rewrite list_weight_snoc. lia.
  - destruct (t_up t) as [|f up]; [done|]. apply on_hub_Some in HS as (w & _ & HS & ->).
    apply hub_weight_recv in HS. simpl in *. lia.
Qed.

Lemma own_steps_bounded cap ls t t' : exec (own_step cap) ls t = Some t' → length ls + weight t' ≤ weight t.
Proof.
  revert t. induction ls as [|l ls IH]; intros t He; simplify_eq/=; [done|].
  destruct (own_step cap l t) as [t1|] eqn:HS; [|done]. apply own_step_weight in HS. specialize (IH _ He). lia.
Qed.

Lemma own_steps_reachable cap ls t t' :
  reachable (tunnel_step mfb cfg sc ccfg) (tunnel_init sc ccfg) t → exec (own_step cap) ls t = Some t' →
  reachable (tunnel_step mfb cfg sc ccfg) (tunnel_init sc ccfg) t'.
Proof.
  revert t. induction ls as [|l ls IH]; intros t Hr He; simplify_eq/=; [done|].
  destruct (own_step cap l t) as [t1|] eqn:HS; [|done]. eapply IH; [|done].
  apply own_step_Some in HS as (_ & _ & HS). by eapply reachable_step.
Qed.
End weight.
