(* ===== verification/TunnelIdle.v ===== *)
(** * The tunnel: it drains

    The tunnel has bounded channels in both directions, tasks that block on them,
    and frame loops that hand the bytes on to bounded per-stream channels.  As long
    as the peers accept what is written to them, no combination of full channels
    blocks the two programs for good: a state in which work is left always has a
    step that lowers the weight, so every run of such steps ends, after at most
    [weight] steps, in an idle state; and there every open stream has delivered all
    its bytes.  The hub must not be waiting in its frame loop to refuse the request
    of a cluster spoke; [TunnelDeadlock] shows why. *)
From S2P Require Import Prelude RustStd Proto ServerConfig Channel ServerMetrics ServerHttp ServerSession SessionTrans SessionDelivery SessionStreams SessionInbound SessionHttp SessionReplies ClientConfig ClientSession ClientPumps ClientRoutes ClientStreams Tunnel TunnelStreams TunnelWeight.

(** ** Idle states *)
Section idle.
Context {chan : Type → Type} `{!MpscOps chan}.

Definition dn_idle (k : nat) (c : conn chan) (w : sess_world chan) : Prop :=
  match cn_dn c with
  | DnOff | DnDone => True
  | DnRecv => mpsc_queued (cn_writer c) = [] ∧ has_sender k c w = true
  | DnWrite _ | DnShutdown => False
  end.
Definition up_idle (c : conn chan) : Prop :=
  match cn_up c with UpOff | UpRead | UpDone => True | _ => False end.
Definition accept_idle (t : acceptor) : Prop := ac_pc t = AcAccept ∨ ac_pc t = AcDone.
Definition http_idle (t : http_task) : Prop := ht_pc t = HtDone.
Definition pump_idle (k : nat) (pu : pump chan) (w : client_world chan) : Prop :=
  match pu_pc pu with
  | PuSelect => mpsc_queued (pu_inbound pu) = [] ∧ pump_has_sender k pu w = true
  | PuDone => True
  | _ => False
  end.

Record hub_idle (w : sess_world chan) : Prop := {
  id_dn k c : w_conns w !! k = Some c → dn_idle k c w;
  id_up k c : w_conns w !! k = Some c → up_idle c;
  id_accept a t : w_accept w !! a = Some t → accept_idle t;
  id_http h t : w_http w !! h = Some t → http_idle t;
  id_recv : w_recv w = RvNext;
  id_server_tx : mpsc_queued (ss_server_tx (w_session w)) = [] }.

Record client_idle (w : client_world chan) : Prop := {
  id_pump k pu : cw_pumps w !! k = Some pu → pump_idle k pu w;
  id_main : cw_main w = CmNext;
  id_hub_tx : mpsc_queued (cw_hub_tx w) = [] }.

(** Every task waits for new input, and nothing is under way. *)
Definition idle (t : tunnel chan) : Prop :=
  hub_idle (t_hub t) ∧ client_idle (t_client t) ∧ t_down t = [] ∧ t_up t = [].
End idle.

(** Search a map for an entry that lets something happen. *)
Lemma map_search {A} (P : nat → A → Prop) (Q : Prop) (m : gmap nat A) :
  (∀ k x, m !! k = Some x → P k x ∨ Q) → (∀ k x, m !! k = Some x → P k x) ∨ Q.
Proof.
  induction m as [|k x m Hk IH] using map_ind; intros H; [by left; intros *; rewrite lookup_empty|].
  destruct (H k x) as [Hx|]; [apply lookup_insert_eq| |by right].
  destruct IH as [Hm|]; [|left|by right].
  - intros k' x' Hk'. apply H. rewrite lookup_insert_ne; [done|congruence].
  - intros k' x'. rewrite lookup_insert. case_decide; [by intros; simplify_eq|by apply Hm].
Qed.

(** ** Sends with room *)
Section ready.
Context {chan : Type → Type} `{Hmpsc : Mpsc chan}.

Definition ready {A} (c : chan A) : Prop := mpsc_queued c = [] ∧ 0 < mpsc_bound c.

Lemma send_ready {A} (x : A) c : ready c → mpsc_send x c ≠ SendFull.
Proof.
  intros [Hq Hb] Hs. destruct (mpsc_rx_alive c) eqn:Ha; [|by rewrite mpsc_send_closed in Hs].
  destruct (mpsc_send_sent _ x c) as (c' & Hc' & _); [done|rewrite Hq; simpl; lia|congruence].
Qed.

Lemma send_dead {A} (x : A) c : mpsc_rx_alive c = false → mpsc_send x c ≠ SendFull.
Proof. intros Ha. by rewrite mpsc_send_closed. Qed.

Lemma session_send_ready f (w : sess_world chan) :
  ready (ss_server_tx (w_session w)) →
  ∃ b w', session_send f w = Some (b, w') ∧ w_conns w' = w_conns w.
Proof.
  intros Hr%(send_ready f). unfold session_send. destruct (mpsc_send _ _); [|done|]; eauto.
Qed.

Lemma hub_send_ready o f (w : client_world chan) :
  ready (cw_hub_tx w) → ∃ b w', hub_send o f w = Some (b, w').
Proof. intros Hr%(send_ready f). unfold hub_send. destruct (mpsc_send _ _); [|done|]; eauto. Qed.
End ready.

(** ** What a session and a client always satisfy *)
Section sane.
Context {chan : Type → Type} `{Hmpsc : Mpsc chan} `{HI : HashIter} {HU : UnicodeTables}.
Context (mfb : bytes → option bytes) (cfg : server_config) (sc : spoke_config) (ccfg : client_config).

Definition conn_sane (c : conn chan) : Prop :=
  mpsc_bound (cn_writer c) = 64 ∧ (cn_dn c = DnDone → mpsc_rx_alive (cn_writer c) = false) ∧
  (cn_dn c = DnOff → cn_up c = UpOff).

Lemma conn_sane_trans k n oc l c' n' :
  conn_trans (chan:=chan) k n oc l c' n' → (∀ c, oc = Some c → conn_sane c) → conn_sane c'.
Proof.
  intros Ht Hc. destruct Ht; try specialize (Hc _ eq_refl); unfold conn_sane in *; simpl in *;
    rewrite ?mpsc_bound_new, ?mpsc_drop_bound, ?mpsc_drop_alive;
    repeat match goal with
    | H : mpsc_recv _ = Some _ |- _ => apply mpsc_recv_Some in H as (_ & _ & ->)
    | H : mpsc_send _ _ = Sent _ |- _ => apply mpsc_send_Sent in H as (_ & ? & _ & -> & _)
    end; naive_solver congruence.
Qed.

Lemma session_conns_sane w k c :
  reachable (sess_step mfb cfg sc) (sess_init sc) w → w_conns w !! k = Some c → conn_sane c.
Proof.
  intros Hr. revert k c. induction Hr as [w Hi|l w w' Hr IH HS].
  - destruct Hi as (? & _ & Hc & _). intros k c. by rewrite Hc, lookup_empty.
  - destruct (sess_step_conns _ _ _ _ _ _ (own_inv_reachable _ _ _ _ Hr) HS)
      as (d & _ & [(Hc & _)|(k1 & c1 & Hc & Ht)]); intros k c; rewrite Hc; [apply IH|].
    rewrite lookup_insert. case_decide; [|apply IH]. intros [= <-]. eapply conn_sane_trans; [done|]. apply IH.
Qed.

(** The payload [recv_loop] is handing over came in a frame. *)
Lemma recv_loop_received w k sid p :
  reachable (sess_step mfb cfg sc) (sess_init sc) w → w_recv w = RvSend k sid p →
  ClientFrame sid (Some (CData p)) ∈ recv_frames (w_log w).
Proof.
  intros Hr. induction Hr as [w Hi|l w w' Hr IH HS]; intros Hw.
  - destruct Hi as (? & _ & _ & _ & Hrv & _). congruence.
  - rewrite (sess_step_recv _ _ _ _ _ _ HS).
    assert (w_recv w = RvSend k sid p ∨ ∃ h, l = LRecv (StreamFrame (ClientFrame sid (Some (CData p))) h))
      as [?%IH|[h ->]]; [|set_solver..].
    clear IH. revert Hw. sess_inv HS; simpl; rewrite ?remove_stream_recv; simpl; rewrite ?remove_stream_recv;
      try (by left); try congruence.
    intros; simplify_eq. right. exists h. destruct f; simplify_eq/=. done.
Qed.

Lemma client_pumps_bound w k pu :
  reachable (client_step ccfg) client_init w → cw_pumps w !! k = Some pu → mpsc_bound (pu_inbound pu) = 64.
Proof.
  intros Hr. revert k pu. induction Hr as [w ->|l w w' Hr IH HS%client_step_pumps]; intros k pu.
  - simpl. by rewrite lookup_empty.
  - destruct HS as [d -> _ _|j sid name target _ _ -> _|j pu0 pu1 d Hj Ht -> _]; [apply IH|..];
      rewrite lookup_insert; (case_decide; [|apply IH]); intros [= <-].
    + apply mpsc_bound_new.
    + pose proof (IH _ _ Hj) as Hb. destruct Ht; simpl; rewrite ?mpsc_drop_bound;
        repeat match goal with
        | H : mpsc_recv _ = Some _ |- _ => apply mpsc_recv_Some in H as (_ & _ & ->)
        | H : mpsc_send _ _ = Sent _ |- _ => apply mpsc_send_Sent in H as (_ & _ & _ & -> & _)
        end; done.
Qed.
End sane.

(** ** Both ends alive *)
Section live.
Context {chan : Type → Type} `{Hmpsc : Mpsc chan} `{HI : HashIter} {HU : UnicodeTables}.
Context (mfb : bytes → option bytes) (cfg : server_config) (sc : spoke_config) (ccfg : client_config).
Context (cap : nat).
Implicit Types (t : tunnel chan).

Definition chan_up {A} (c : chan A) : Prop := mpsc_rx_alive c = true ∧ 0 < mpsc_bound c.

Definition hub_live (w : sess_world chan) : Prop :=
  (w_next_sid w + 1 < u64_modulus)%N ∧ chan_up (ss_server_tx (w_session w)) ∧ w_recv w ≠ RvDone.
Definition client_live (w : client_world chan) : Prop :=
  chan_up (cw_hub_tx w) ∧ ∀ r, cw_main w ≠ CmDone r.

(** The stream is up: neither end of it has been dropped, and neither frame loop
    has seen its end. *)
Record live t : Prop := {
  lv_reach : reachable (tunnel_step mfb cfg sc ccfg) (tunnel_init sc ccfg) t;
  lv_hub : hub_live (t_hub t);
  lv_client : client_live (t_client t) }.

Definition hub_quiet (l : sess_label) : bool :=
  match l with LTxTake | LRecv (StreamFrame _ _) => true | _ => hub_internal l end.
Definition client_quiet (l : client_label) : bool :=
  match l with CTxTake | CMain (EFrame _) => true | _ => client_internal l end.

Lemma chan_up_send {A} (x : A) (c c' : chan A) : mpsc_send x c = Sent c' → chan_up c → chan_up c'.
Proof. intros (_ & _ & Ha & Hb & _)%mpsc_send_Sent [_ ?]. unfold chan_up. rewrite Hb. done. Qed.
Lemma chan_up_recv {A} (x : A) (c c' : chan A) : mpsc_recv c = Some (x, c') → chan_up c → chan_up c'.
Proof. unfold chan_up. by intros (_ & -> & ->)%mpsc_recv_Some. Qed.

Lemma hub_live_step l w w' :
  sess_step mfb cfg sc l w = Some w' → hub_quiet l = true → hub_live w → hub_live w'.
Proof.
  intros HS Hq (Hn & Htx & Hr). sess_inv HS; try discriminate Hq; clear Hq; unfold hub_live.
  all: simpl; rewrite ?remove_stream_next_sid, ?remove_stream_recv;
    repeat match goal with |- context [remove_stream ?s ?v] =>
      destruct (remove_stream_state s v) as [_ ->] end; simpl.
  all: split; [done|split; [|congruence]]; first [exact Htx|by eapply chan_up_send|by eapply chan_up_recv].
Qed.

Lemma client_live_step l w w' :
  client_step ccfg l w = Some w' → client_quiet l = true → client_live w → client_live w'.
Proof.
  assert (∀ o f v v', hub_send o f v = Some (false, v') → ¬ chan_up (cw_hub_tx v)) as Hfail.
  { intros o f v v' Hs%hub_send_failed [Ha _]. congruence. }
  intros HS Hq [Htx Hm].
  destruct l as [[]|k e| | |]; try discriminate Hq; clear Hq; unfold client_live; simpl in HS;
    unfold main_step, main_frame, pump_step in HS;
    repeat match type of HS with
    | context [match hub_send ?o ?f ?v with _ => _ end] =>
        let E := fresh "E" in destruct (hub_send o f v) as [[[] ?]|] eqn:E;
        [apply hub_send_Some in E as [(_ & ? & ? & ->)|(? & _)]; [|discriminate]
        |by apply Hfail in E
        |try discriminate HS]
    | context [match cw_main ?x with _ => _ end] => destruct (cw_main x) eqn:?; try discriminate HS
    end.
  all: client_split HS; simpl; split; try done.
  all: first [by eapply chan_up_send|by eapply chan_up_recv|congruence].
Qed.

Lemma live_step l t t' : live t → own_step mfb cfg sc ccfg cap l t = Some t' → live t'.
Proof.
  intros [Hr Hh Hc] (Hi & _ & HS)%own_step_Some. pose proof (reachable_step _ _ _ _ _ Hr HS) as Hr'.
  destruct l as [l|l| | | |h]; simpl in Hi, HS.
  - destruct (hub_local l); [|done]. apply on_hub_Some in HS as (w & _ & HS & ->). split; simpl; [done| |done].
    eapply hub_live_step; [done|by destruct l as [| | | | | | | | | |[]|]|done].
  - destruct (client_local l); [|done]. apply on_client_Some in HS as (w & HS & ->). split; simpl; [done..|].
    eapply client_live_step; [done|by destruct l as [[]|? []| | |]|done].
  - destruct (mpsc_recv _) as [[f q]|]; [|done]. apply on_hub_Some in HS as (w & _ & HS & ->).
    split; simpl; [done| |done]. by eapply hub_live_step.
  - destruct (t_down t) as [|f down]; [done|]. apply on_client_Some in HS as (w & HS & ->).
    split; simpl; [done..|]. by eapply client_live_step.
  - destruct (mpsc_recv _) as [[f q]|]; [|done]. apply on_client_Some in HS as (w & HS & ->).
    split; simpl; [done..|]. by eapply client_live_step.
  - destruct (t_up t) as [|f up]; [done|]. apply on_hub_Some in HS as (w & _ & HS & ->).
    split; simpl; [done| |done]. by eapply hub_live_step.
Qed.

Lemma live_exec ls t t' : live t → exec (own_step mfb cfg sc ccfg cap) ls t = Some t' → live t'.
Proof.
  revert t. induction ls as [|l ls IH]; intros t Hl He; simplify_eq/=; [done|].
  destruct (own_step _ _ _ _ cap l t) as [t1|] eqn:HS; [|done]. eapply IH; [|done]. by eapply live_step.
Qed.

(** ** A live tunnel with work left takes a step *)
Definition can_move t : Prop := ∃ l t', own_step mfb cfg sc ccfg cap l t = Some t'.

Lemma can_hub l t :
  live t → hub_internal l = true → is_Some (sess_step mfb cfg sc l (t_hub t)) → can_move t.
Proof.
  intros [_ (Hn & _) _] Hi [w HS]. eexists (THub l), _. unfold own_step. simpl. rewrite Hi. simpl.
  assert (hub_local l = true) as -> by (by destruct l as [| | | | | | | | | |[]|]).
  unfold on_hub, sess_step_nowrap. apply N.ltb_lt in Hn. rewrite Hn, HS. done.
Qed.

Lemma can_client l t :
  client_internal l = true → is_Some (client_step ccfg l (t_client t)) → can_move t.
Proof.
  intros Hi [w HS]. eexists (TClient l), _. unfold own_step. simpl. rewrite Hi. simpl.
  assert (client_local l = true) as -> by (by destruct l as [[]|? []| | |]).
  unfold on_client. rewrite HS. done.
Qed.

Lemma move_dn t k c : live t → w_conns (t_hub t) !! k = Some c → dn_idle k c (t_hub t) ∨ can_move t.
Proof.
  intros Hl Hk. unfold dn_idle. destruct (cn_dn c) as [| |p| |] eqn:Hd; [by left| | | |by left].
  - destruct (mpsc_recv (cn_writer c)) as [[p q]|] eqn:Hr.
    { right. apply (can_hub (LDn k Tick)); [done|done|]. simpl. rewrite Hk. unfold dn_step. by rewrite Hd, Hr. }
    destruct (has_sender k c (t_hub t)) eqn:Hs.
    + left. by rewrite (mpsc_recv_None _ Hr).
    + right. apply (can_hub (LDn k Tick)); [done|done|]. simpl. rewrite Hk. unfold dn_step. by rewrite Hd, Hr, Hs.
  - right. apply (can_hub (LDn k WriteOk)); [done|done|]. simpl. rewrite Hk. unfold dn_step. by rewrite Hd.
  - right. apply (can_hub (LDn k Tick)); [done|done|]. simpl. rewrite Hk. unfold dn_step. by rewrite Hd.
Qed.

(** What the frame loop of the hub is sending goes to a connection that has been
    opened, so its writer is running or gone. *)
Lemma recv_send_open t k sid p c :
  live t → w_recv (t_hub t) = RvSend k sid p → w_conns (t_hub t) !! k = Some c → cn_sid c = sid → cn_up c ≠ UpOff.
Proof.
  intros Hl Hr Hk Hs Hup. destruct (tunnel_inv _ _ _ _ t (lv_reach _ Hl)) as [Hw _].
  pose proof (wi_hub _ _ _ _ _ Hw) as Hh. destruct (session_up_inv _ _ _ _ Hh) as [_ Hu].
  pose proof (up_inv_unopened _ _ _ Hu Hk Hup) as Hnil.
  pose proof (recv_loop_received _ _ _ _ _ _ _ (reachable_nowrap _ _ _ _ Hh) Hr) as Hf.
  destruct (wi_up _ _ _ _ _ Hw) as (first & _ & Hp%passed_prefix).
  assert (ClientFrame sid (Some (CData p)) ∈ client_sent (cw_log (t_client t))) as Hin
    by (eapply elem_of_prefix; [|exact Hp]; set_solver).
  apply list_elem_of_omap in Hin as (o & Ho & Hs').
  edestruct data_sender as (j & pu & _ & Hj & Hsid); [exact (wi_client _ _ _ _ _ Hw)|exact Ho|exact Hs'|].
  eapply pump_needs_open; [exact Hw|exact Hj|congruence].
Qed.

Context (Hkind : sc_kind sc = Application) (Hcap : 0 < cap).

Lemma move_recv t :
  live t → (∀ k c, w_conns (t_hub t) !! k = Some c → dn_idle k c (t_hub t)) →
  w_recv (t_hub t) = RvNext ∨ can_move t.
Proof.
  intros Hl Hdn. destruct (tunnel_inv _ _ _ _ t (lv_reach _ Hl)) as [Hw _].
  pose proof (reachable_nowrap _ _ _ _ (wi_hub _ _ _ _ _ Hw)) as Hr.
  destruct (w_recv (t_hub t)) as [|k sid p|sid|sid|] eqn:Hrv; [by left|right..|].
  - destruct (ib_recv _ (session_inbound_inv _ _ _ _ (wi_hub _ _ _ _ _ Hw)) _ _ _ Hrv) as (c & Hk & Hs).
    destruct (session_conns_sane _ _ _ _ _ _ Hr Hk) as (Hb & Hdone & Hoff).
    pose proof (recv_send_open _ _ _ _ _ Hl Hrv Hk Hs) as Hup. specialize (Hdn k c Hk).
    assert (mpsc_send p (cn_writer c) ≠ SendFull) as Hsend.
    { unfold dn_idle in Hdn. destruct (cn_dn c) eqn:Hd; try done.
      - by destruct Hup; apply Hoff.
      - apply send_ready. split; [apply Hdn|lia].
      - apply send_dead. auto. }
    apply (can_hub (LRecv Tick)); [done|done|]. simpl. unfold recv_step. rewrite Hrv, Hk.
    by destruct (mpsc_send p (cn_writer c)).
  - apply (can_hub (LRecv Tick)); [done|done|]. simpl. unfold recv_step. by rewrite Hrv.
  - exfalso. destruct (rp_reject _ _ _ _ (session_replies_inv _ _ _ _ Hr) _ Hrv) as [? _]. congruence.
  - exfalso. by destruct (lv_hub _ Hl) as (_ & _ & ?).
Qed.

Lemma recv_frame_ready f h (w : sess_world chan) : w_http w !! h = None → is_Some (recv_frame sc f h w).
Proof.
  intros Hh. unfold recv_frame. rewrite Hkind. destruct (cf_kind f) as [[]|]; simpl; try done.
  - by destruct (ss_streams _ !! _).
  - by rewrite Hh.
Qed.

Lemma move_up t :
  live t → w_recv (t_hub t) = RvNext → (t_up t = [] ∧ mpsc_queued (cw_hub_tx (t_client t)) = []) ∨ can_move t.
Proof.
  intros Hl Hrv. destruct (t_up t) as [|f up] eqn:Hup.
  - destruct (mpsc_recv (cw_hub_tx (t_client t))) as [[f q]|] eqn:Hr; [right|left; split; [done|by apply mpsc_recv_None]].
    eexists TUpTake, _. unfold own_step, tunnel_step, on_client. simpl. rewrite Hup. simpl.
    apply Nat.ltb_lt in Hcap. rewrite Hcap, Hr. simpl. by rewrite ?Hr.
  - right. set (h := fresh (dom (w_http (t_hub t)))).
    assert (w_http (t_hub t) !! h = None) as Hh by apply not_elem_of_dom, is_fresh.
    destruct (recv_frame_ready f h (t_hub t) Hh) as [w Hw]. destruct (lv_hub _ Hl) as (Hn & _).
    eexists (TUpRecv h), _. unfold own_step, tunnel_step, on_hub, sess_step_nowrap. simpl. rewrite Hup. simpl.
    apply N.ltb_lt in Hn. rewrite Hn. unfold recv_step. rewrite Hrv, Hw. done.
Qed.

Lemma move_pump t k pu :
  ready (cw_hub_tx (t_client t)) → cw_pumps (t_client t) !! k = Some pu →
  pump_idle k pu (t_client t) ∨ can_move t.
Proof.
  intros Htx Hk. assert (∀ e, client_internal (CPump k e) = true →
    is_Some (pump_step k pu e (t_client t)) → can_move t) as Hgo.
  { intros e He Hs. apply (can_client (CPump k e)); [done|]. simpl. by rewrite Hk. }
  assert (∀ o f v, cw_hub_tx v = cw_hub_tx (t_client t) → ∃ b v', hub_send o f v = Some (b, v')) as Hsend.
  { intros o f v Hv. apply hub_send_ready. by rewrite Hv. }
  unfold pump_step in Hgo. unfold pump_idle. destruct (pu_pc pu) as [|reason| |p| |p| |] eqn:Hpc; [right|right|..|by left].
  - by apply (Hgo EDialOk).
  - apply (Hgo ETick); [done|]. edestruct Hsend as (b & v & ->); [done|]. by destruct b.
  - destruct (mpsc_recv (pu_inbound pu)) as [[p q]|] eqn:Hr; [right; by apply (Hgo ETick)|].
    destruct (pump_has_sender k pu (t_client t)) eqn:Hs.
    + left. by rewrite (mpsc_recv_None _ Hr).
    + right. by apply (Hgo ETick).
  - right. apply (Hgo ETick); [done|]. edestruct Hsend as (b & v & ->); [done|]. by destruct b.
  - right. apply (Hgo ETick); [done|]. edestruct Hsend as (b & v & ->); [done|]. by destruct b.
  - right. by apply (Hgo EWriteOk).
  - right. by apply (Hgo ETick).
Qed.

Lemma move_main t :
  live t → ready (cw_hub_tx (t_client t)) →
  (∀ k pu, cw_pumps (t_client t) !! k = Some pu → pump_idle k pu (t_client t)) →
  cw_main (t_client t) = CmNext ∨ can_move t.
Proof.
  intros Hl Htx Hidle. destruct (tunnel_inv _ _ _ _ t (lv_reach _ Hl)) as [Hw _].
  pose proof (wi_client _ _ _ _ _ Hw) as Hr.
  assert (∀ e, client_internal (CMain e) = true → is_Some (main_step ccfg e (t_client t)) → can_move t) as Hgo.
  { intros e He Hs. by apply (can_client (CMain e)). }
  assert (∀ o f, ∃ b v', hub_send o f (t_client t) = Some (b, v')) as Hsend.
  { intros o f. by apply hub_send_ready. }
  unfold main_step in Hgo. destruct (cw_main (t_client t)) as [| | | |k p| |r] eqn:Hm; [by left|right..].
  - apply (Hgo ETick); [done|]. edestruct Hsend as (b & v & ->). by destruct b.
  - apply (Hgo ETick); [done|]. edestruct Hsend as (b & v & ->). by destruct b.
  - apply (Hgo (ESpawn (fresh (dom (cw_pumps (t_client t)))))); [done|].
    by rewrite (proj1 (not_elem_of_dom _ _) (is_fresh (dom (cw_pumps (t_client t))))).
  - destruct (client_routes_inv ccfg _ Hr) as [Hp Hi]. destruct (ri_deliver _ _ Hi k p Hm) as [pu Hk].
    apply (Hgo ETick); [done|]. rewrite Hk. assert (mpsc_send p (pu_inbound pu) ≠ SendFull) as Hs.
    { pose proof (Hidle k pu Hk) as Hpi. unfold pump_idle in Hpi. destruct (pu_pc pu) eqn:Hpc; try done.
      - apply send_ready. split; [apply Hpi|]. rewrite (client_pumps_bound _ _ _ _ Hr Hk). lia.
      - apply send_dead. pose proof (Hp k) as Hok. rewrite Hk in Hok. by rewrite (po_alive _ _ Hok), Hpc. }
    by destruct (mpsc_send p (pu_inbound pu)).
  - apply (Hgo ETick); [done|]. edestruct Hsend as (b & v & ->). by destruct b.
  - exfalso. by destruct (proj2 (lv_client _ Hl) r).
Qed.

Lemma move_down t :
  live t → cw_main (t_client t) = CmNext →
  (t_down t = [] ∧ mpsc_queued (ss_server_tx (w_session (t_hub t))) = []) ∨ can_move t.
Proof.
  intros Hl Hm. destruct (t_down t) as [|f down] eqn:Hd.
  - destruct (mpsc_recv (ss_server_tx (w_session (t_hub t)))) as [[f q]|] eqn:Hr;
      [right|left; split; [done|by apply mpsc_recv_None]].
    destruct (lv_hub _ Hl) as (Hn & _). apply N.ltb_lt in Hn. apply Nat.ltb_lt in Hcap.
    eexists TDownTake, _. unfold own_step, tunnel_step, on_hub, sess_step_nowrap. simpl. rewrite Hd. simpl.
    rewrite Hcap, Hr. simpl. rewrite Hn. unfold tx_take. by rewrite ?Hr.
  - right. eexists TDownRecv, _. unfold own_step, tunnel_step, on_client. simpl. rewrite Hd. simpl.
    unfold main_step. by rewrite Hm.
Qed.

Section hub_tasks.
Context (t : tunnel chan) (Hl : live t) (Htx : ready (ss_server_tx (w_session (t_hub t)))).

Lemma session_send_can f : ∃ b w', session_send f (t_hub t) = Some (b, w') ∧ w_conns w' = w_conns (t_hub t).
Proof. by apply session_send_ready. Qed.

Lemma move_up_task k c : w_conns (t_hub t) !! k = Some c → up_idle c ∨ can_move t.
Proof.
  intros Hk. assert (is_Some (up_step k c Tick (t_hub t)) → can_move t) as Hgo.
  { intros Hs. apply (can_hub (LUp k Tick)); [done|done|]. simpl. by rewrite Hk. }
  unfold up_idle. unfold up_step in Hgo. destruct (cn_up c); try (by left); right; apply Hgo; [..|done].
  - edestruct session_send_can as (b & v & -> & _). by destruct b.
  - edestruct session_send_can as (b & v & -> & _). done.
Qed.

Lemma move_accept a x : w_accept (t_hub t) !! a = Some x → accept_idle x ∨ can_move t.
Proof.
  intros Ha. assert (is_Some (accept_step a x Tick (t_hub t)) → can_move t) as Hgo.
  { intros Hs. apply (can_hub (LAccept a Tick)); [done|done|]. simpl. by rewrite Ha. }
  destruct (tunnel_inv _ _ _ _ t (lv_reach _ Hl)) as [Hw _].
  pose proof (own_inv_reachable _ _ _ _ (reachable_nowrap _ _ _ _ (wi_hub _ _ _ _ _ Hw))) as [Hown _].
  unfold accept_idle. unfold accept_step in Hgo.
  destruct (ac_pc x) as [| |k sid|k sid|k sid|] eqn:Hpc; [right|by left; left|right..|by left; right]; apply Hgo.
  - done.
  - done.
  - destruct (Hown a x k sid Ha) as (c & Hk & _); [by rewrite Hpc|].
    edestruct session_send_can as (b & v & -> & Hv). destruct b; [|done]. by rewrite Hv, Hk.
  - destruct (Hown a x k sid Ha) as (c & Hk & _); [by rewrite Hpc|]. by rewrite Hk.
Qed.

Lemma move_http h x : w_http (t_hub t) !! h = Some x → http_idle x ∨ can_move t.
Proof.
  intros Hh. assert (∀ e, is_Some (http_step mfb cfg h x e (t_hub t)) → can_move t) as Hgo.
  { intros e Hs. apply (can_hub (LHttp h e)); [done|done|]. simpl. by rewrite Hh. }
  unfold http_idle. unfold http_step in Hgo. destruct (ht_pc x) as [| |status headers|r|]; [right..|by left].
  - apply (Hgo Tick). by case_decide.
  - by apply (Hgo (HttpSendErr [])).
  - by apply (Hgo (HttpBodyErr [])).
  - apply (Hgo Tick). edestruct session_send_can as (b & v & -> & _). done.
Qed.
End hub_tasks.

Lemma live_moves t : live t → idle t ∨ can_move t.
Proof.
  intros Hl. destruct (map_search (λ k c, dn_idle k c (t_hub t)) (can_move t) _ (λ k c, move_dn t k c Hl))
    as [Hdn|]; [|by right].
  destruct (move_recv t Hl Hdn) as [Hrv|]; [|by right].
  destruct (move_up t Hl Hrv) as [[Hup Hhtx]|]; [|by right].
  destruct (lv_client _ Hl) as [[_ Hhb] _]. destruct (lv_hub _ Hl) as (_ & [_ Hsb] & _).
  destruct (map_search (λ k pu, pump_idle k pu (t_client t)) (can_move t) _
    (λ k pu, move_pump t k pu (conj Hhtx Hhb))) as [Hpu|]; [|by right].
  destruct (move_main t Hl (conj Hhtx Hhb) Hpu) as [Hm|]; [|by right].
  destruct (move_down t Hl Hm) as [[Hd Hstx]|]; [|by right].
  destruct (map_search (λ _ c, up_idle c) _ _ (move_up_task t Hl (conj Hstx Hsb))) as [Hu|]; [|by right].
  destruct (map_search (λ _ x, accept_idle x) _ _ (move_accept t Hl (conj Hstx Hsb))) as [Ha|]; [|by right].
  destruct (map_search (λ _ x, http_idle x) _ _ (move_http t Hl (conj Hstx Hsb))) as [Hh|]; [|by right].
  left. repeat split; done.
Qed.

Lemma live_reaches_idle t :
  live t → ∃ ls t', exec (own_step mfb cfg sc ccfg cap) ls t = Some t' ∧ idle t'.
Proof.
  remember (weight t) as n eqn:Hn. revert t Hn. induction (lt_wf n) as [n _ IH]. intros t -> Hl.
  destruct (live_moves t Hl) as [Hi|(l & t1 & HS)]; [by exists [], t|].
  destruct (IH (weight t1)) with (t := t1) as (ls & t2 & He & Hi);
    [by eapply own_step_weight|done|by eapply live_step|].
  exists (l :: ls), t2. simpl. by rewrite HS.
Qed.

(** Both ends of a stream are open: neither has been closed or failed. *)
Record open_both t (k : nat) (c : conn chan) (j : nat) (pu : pump chan) : Prop := {
  op_conn : w_conns (t_hub t) !! k = Some c;
  op_pump : cw_pumps (t_client t) !! j = Some pu;
  op_sid : cn_sid c = pu_sid pu;
  op_hub : ss_streams (w_session (t_hub t)) !! cn_sid c = Some k ∧ cn_up c = UpRead ∧ cn_dn c = DnRecv;
  op_client : cw_streams (t_client t) !! pu_sid pu = Some j ∧ pu_pc pu = PuSelect }.

Lemma idle_drained t k c j pu : live t → idle t → open_both t k c j pu → drained t k c j pu.
Proof.
  intros Hl (Hh & Hc & Hd & Hu) [Hk Hj Hs (Hst & Hup & Hdn) (Hcs & Hpc)].
  pose proof (id_dn _ Hh k c Hk) as Hi. unfold dn_idle in Hi. rewrite Hdn in Hi.
  pose proof (id_pump _ Hc j pu Hj) as Hp. unfold pump_idle in Hp. rewrite Hpc in Hp.
  destruct (lv_hub _ Hl) as (_ & [Ha _] & _). destruct (lv_client _ Hl) as [[Ha' _] _].
  split; try done; split_and!; try done; try apply Hi; try apply Hp; try apply Hh; try apply Hc.
Qed.

(** C2: the tunnel drains.  For a hub session of an application spoke and its
    client, joined by a stream that is up and whose transport holds at most [cap]
    frames per direction: a run of steps that needs no new input - the tasks of
    both programs, peers that accept or refuse what is written to them, a kernel
    that answers - has at most [weight] steps; no mutual back-pressure stops it
    before every task is idle and every channel empty, a state some continuation
    always reaches; and in such a state each stream open on both sides has
    delivered, both ways, all that was read. *)
Theorem tunnel_drains t ls t' :
  live t → exec (own_step mfb cfg sc ccfg cap) ls t = Some t' →
  length ls ≤ weight t ∧
  (idle t' ∨ ∃ l t2, own_step mfb cfg sc ccfg cap l t' = Some t2) ∧
  (∃ ls2 t2, exec (own_step mfb cfg sc ccfg cap) ls2 t' = Some t2 ∧ idle t2) ∧
  (idle t' → ∀ k c j pu, open_both t' k c j pu →
     pump_wrote (pump_log j (cw_log (t_client t'))) = tcp_read k (w_log (t_hub t')) ∧
     tcp_written k (w_log (t_hub t')) = pump_read (pump_log j (cw_log (t_client t')))).
Proof.
  intros Hl He. pose proof (own_steps_bounded _ _ _ _ _ _ _ _ He).
  pose proof (live_exec _ _ _ Hl He) as Hl'. split_and!; [lia|by apply live_moves|by apply live_reaches_idle|].
  intros Hi k c j pu Ho. destruct (tunnel_inv _ _ _ _ t' (lv_reach _ Hl')) as [Hw Hc].
  pose proof (idle_drained t' k c j pu Hl' Hi Ho) as Hd.
  split; [exact (drained_down _ _ _ _ t' k c j pu Hw Hd)|exact (drained_up _ _ _ _ t' k c j pu Hw Hc Hd)].
Qed.
End live.
