(* ===== verification/TunnelRequests.v ===== *)
(** * The tunnel: no request stays unanswered

    A request the client's proxy has queued on a session crosses the tunnel, gets a
    task of the hub, and its response comes back: when the tunnel has drained, the
    frame loop has handed a response for it to the proxy. *)
From S2P Require Import Prelude RustStd Proto ServerConfig Channel ServerMetrics ServerHttp ServerSession SessionTrans SessionDelivery SessionStreams SessionInbound SessionHttp SessionReplies ClientConfig ClientSession ClientPumps ClientRoutes ClientStreams Tunnel TunnelStreams TunnelWeight TunnelIdle.

Section requests.
Context {chan : Type → Type} `{Hmpsc : Mpsc chan} `{HI : HashIter} {HU : UnicodeTables}.
Context (mfb : bytes → option bytes) (cfg : server_config) (sc : spoke_config) (ccfg : client_config).
Implicit Types (t : tunnel chan).

Abbreviation live := (live mfb cfg sc ccfg).

(** In an idle tunnel whose stream is up, all that was queued has been received. *)
Lemma idle_up_received t :
  live t → idle t → ∃ first, is_handshake first ∧
    first :: recv_frames (w_log (t_hub t)) = client_sent (cw_log (t_client t)).
Proof.
  intros Hl (_ & Hc & _ & Hu). destruct (tunnel_inv _ _ _ _ t (lv_reach _ _ _ _ _ Hl)) as [Hw _].
  destruct (wi_up _ _ _ _ _ Hw) as (first & Hf & Hp). exists first. split; [done|].
  destruct (lv_client _ _ _ _ _ Hl) as [[Ha _] _]. unfold passed in Hp.
  by rewrite Ha, (id_hub_tx _ Hc), Hu, !app_nil_r in Hp.
Qed.

Lemma idle_down_received t f :
  live t → idle t → OSent f ∈ w_log (t_hub t) → f ∈ client_recv (cw_log (t_client t)).
Proof.
  intros Hl (Hh & _ & Hd & _) Hin. destruct (tunnel_inv _ _ _ _ t (lv_reach _ _ _ _ _ Hl)) as [Hw _].
  destruct (wi_down _ _ _ _ _ Hw) as (pre & _ & Hp).
  destruct (lv_hub _ _ _ _ _ Hl) as (_ & [Ha _] & _). unfold passed in Hp.
  rewrite Ha, (id_server_tx _ Hh), Hd, !app_nil_r in Hp. rewrite Hp. apply elem_of_app. right.
  apply list_elem_of_omap. eauto.
Qed.

Lemma idle_request_response t sid req :
  live t → idle t → sc_kind sc = Application → CoProxy sid req ∈ cw_log (t_client t) →
  ∃ r, ServerFrame sid (Some (SHttpResponse r)) ∈ client_recv (cw_log (t_client t)) ∧
    answer_to mfb cfg sc (w_log (t_hub t)) req r.
Proof.
  intros Hl Hi Hk Hq. destruct (tunnel_inv _ _ _ _ t (lv_reach _ _ _ _ _ Hl)) as [Hw _].
  pose proof (reachable_nowrap _ _ _ _ (wi_hub _ _ _ _ _ Hw)) as Hr.
  destruct (idle_up_received t Hl Hi) as (first & Hf & Hsent).
  assert (client_http_request sid req ∈ client_sent (cw_log (t_client t))) as Hin.
  { apply list_elem_of_omap. eexists. split; [exact Hq|done]. }
  rewrite <-Hsent in Hin. apply elem_of_cons in Hin as [<-|Hin]; [done|].
  destruct (asked_has_task _ _ _ _ _ _ Hr Hk Hin) as (h & x & Hx & <- & <-).
  pose proof (id_http _ (proj1 Hi) h x Hx) as Hdone.
  destruct (lv_hub _ _ _ _ _ Hl) as (_ & [Ha _] & _).
  destruct (done_has_answer _ _ _ _ _ _ Hr Ha Hx Hdone) as (r & Hs & Hans). exists r. split; [|done].
  exact (idle_down_received t _ Hl Hi Hs).
Qed.

Lemma idle_request_answered t sid req :
  live t → idle t → sc_kind sc = Application → CoProxy sid req ∈ cw_log (t_client t) →
  ∃ r, CoHttp sid r ∈ cw_log (t_client t) ∧ answer_to mfb cfg sc (w_log (t_hub t)) req r.
Proof.
  intros Hl Hi Hk Hq. destruct (idle_request_response _ _ _ Hl Hi Hk Hq) as (r & Hrecv & Hans). exists r. split; [|done].
  destruct (tunnel_inv _ _ _ _ t (lv_reach _ _ _ _ _ Hl)) as [Hw _].
  destruct (client_replies_inv ccfg _ (wi_client _ _ _ _ _ Hw)) as [_ Hhttp].
  assert ((sid, r) ∈ client_http (cw_log (t_client t))) as Hin.
  { rewrite Hhttp. apply list_elem_of_omap. eexists. split; [exact Hrecv|done]. }
  unfold client_http in Hin. apply list_elem_of_omap in Hin as (o & Ho & Heq). destruct o; by simplify_eq.
Qed.

Lemma request_kept cap ls t t' sid req :
  exec (own_step mfb cfg sc ccfg cap) ls t = Some t' →
  CoProxy sid req ∈ cw_log (t_client t) → CoProxy sid req ∈ cw_log (t_client t').
Proof.
  revert t. induction ls as [|l ls IH]; intros t He Hq; simplify_eq/=; [done|].
  destruct (own_step _ _ _ _ cap l t) as [t1|] eqn:HS; [|done]. apply (IH t1 He).
  apply own_step_Some in HS as (_ & _ & HS).
  apply tunnel_step_side in HS as [(sl & _ & ->)|(cl & HS & _)]; [done|].
  apply client_step_pumps in HS as [d _ -> _|? ? ? ? _ _ _ ->|? ? ? d _ _ _ ->]; set_solver.
Qed.

(** No request stays unanswered.  While its stream is up, a session on which the
    proxy has queued a request can always go on, without new input, to a state
    where a response for it - what the hub made of this very request - has been
    handed back to the proxy; and every run of its own steps that cannot be
    continued ends in such a state, after at most [weight] steps. *)
Theorem tunnel_answers_requests cap t ls t' sid req :
  live t → sc_kind sc = Application → 0 < cap → CoProxy sid req ∈ cw_log (t_client t) →
  exec (own_step mfb cfg sc ccfg cap) ls t = Some t' →
  let answered t := ∃ r, CoHttp sid r ∈ cw_log (t_client t) ∧ answer_to mfb cfg sc (w_log (t_hub t)) req r in
  length ls ≤ weight t ∧
  ((∀ l, own_step mfb cfg sc ccfg cap l t' = None) → answered t') ∧
  ∃ ls2 t2, exec (own_step mfb cfg sc ccfg cap) ls2 t' = Some t2 ∧ answered t2.
Proof.
  intros Hl Hk Hcap Hq He answered. pose proof (own_steps_bounded _ _ _ _ _ _ _ _ He).
  pose proof (live_exec _ _ _ _ _ _ _ _ Hl He) as Hl'. pose proof (request_kept _ _ _ _ _ _ He Hq) as Hq'.
  split_and!; [lia| |].
  - intros Hstuck. apply idle_request_answered; [done| |done|done].
    destruct (live_moves _ _ _ _ cap Hk Hcap t' Hl') as [?|(l & t2 & HS)]; [done|]. by rewrite Hstuck in HS.
  - destruct (live_reaches_idle _ _ _ _ cap Hk Hcap t' Hl') as (ls2 & t2 & He2 & Hi).
    exists ls2, t2. split; [done|]. apply idle_request_answered; [by eapply live_exec|done|done|by eapply request_kept].
Qed.
End requests.
