(* ===== verification/TunnelDeadlock.v ===== *)
(** * The tunnel: a deadlock of the two frame loops

    For an application spoke, the frame loop of the hub never waits for its own
    outbound channel: the answers to requests are sent by tasks of their own.  For
    a cluster spoke it refuses a request itself, and then waits for room.  The frame
    loop of the client waits for the channel of a pump, and the pump for the
    client's outbound channel.  With every channel full, each waits for the other,
    and nothing either program or its peers do frees them: only the loss of the
    stream does. *)
From S2P Require Import Prelude RustStd Proto ServerConfig Channel ServerMetrics ServerHttp ServerSession SessionTrans SessionDelivery SessionStreams SessionInbound SessionHttp ClientConfig ClientSession ClientPumps ClientRoutes Tunnel TunnelStreams TunnelWeight.

Section deadlock.
Context {chan : Type → Type} `{Hmpsc : Mpsc chan} `{HI : HashIter} {HU : UnicodeTables}.
Context (mfb : bytes → option bytes) (cfg : server_config) (sc : spoke_config) (ccfg : client_config).
Context (cap : nat).
Implicit Types (t : tunnel chan).

(** A channel in which a sender has to wait. *)
Definition jammed_chan {A} (c : chan A) : Prop :=
  mpsc_rx_alive c = true ∧ mpsc_bound c ≤ length (mpsc_queued c).

Lemma jammed_send {A} (x : A) c : jammed_chan c → mpsc_send x c = SendFull.
Proof. intros [? ?]. by apply mpsc_send_full. Qed.

Definition hub_jammed (sid : N) (w : sess_world chan) : Prop :=
  w_recv w = RvReject sid ∧ jammed_chan (ss_server_tx (w_session w)).

(** The frame loop waits for pump [j], and pump [j] to send what it has read. *)
Definition client_jammed (j : nat) (p q : bytes) (w : client_world chan) : Prop :=
  cw_main w = CmDeliver j p ∧ jammed_chan (cw_hub_tx w) ∧
  ∃ pu, cw_pumps w !! j = Some pu ∧ pu_pc pu = PuSendData q ∧ jammed_chan (pu_inbound pu).

Definition jammed (sid : N) (j : nat) (p q : bytes) t : Prop :=
  hub_jammed sid (t_hub t) ∧ client_jammed j p q (t_client t) ∧
  cap ≤ length (t_down t) ∧ cap ≤ length (t_up t).

(** Neither end of the stream is dropped. *)
Definition keeps_stream (l : tunnel_label) : bool :=
  match l with THub LTxDrop | TClient CTxDrop => false | _ => true end.

(** A step of the tunnel over a transport with [cap] frames of room per direction. *)
Definition bounded_step (l : tunnel_label) t : option (tunnel chan) :=
  if keeps_stream l && has_room cap l t then tunnel_step mfb cfg sc ccfg l t else None.

Lemma hub_jammed_step sid l w w' :
  hub_jammed sid w → sess_step mfb cfg sc l w = Some w' → l ≠ LTxTake → l ≠ LTxDrop →
  hub_jammed sid w' ∧ recv_frames (w_log w') = recv_frames (w_log w).
Proof.
  intros [Hr Htx] HS Ht Hd. pose proof (sess_step_recv _ _ _ _ _ _ HS) as Hlog.
  assert (∀ f, mpsc_send f (ss_server_tx (w_session w)) = SendFull) as Hs.
  { intros f. by apply jammed_send. }
  assert (∀ e, l ≠ LRecv (StreamFrame e.1 e.2)) as Hno.
  { intros e ->. simpl in HS. unfold recv_step in HS. by rewrite Hr in HS. }
  split; [|rewrite Hlog; destruct l as [| | | | | | | | | |[]|]; rewrite ?app_nil_r; try done; by destruct (Hno (f, h))].
  clear Hlog Hno. unfold hub_jammed. sess_inv HS; try congruence; simpl;
    rewrite ?remove_stream_recv; simpl;
    repeat match goal with |- context [remove_stream ?s ?v] =>
      destruct (remove_stream_state s v) as [_ ->] end; try done.
  all: match goal with H : mpsc_send _ _ = _ |- _ => by rewrite Hs in H end.
Qed.

Lemma client_jammed_step j p q l w w' :
  client_jammed j p q w → client_step ccfg l w = Some w' → l ≠ CTxTake → l ≠ CTxDrop →
  client_jammed j p q w' ∧ client_recv (cw_log w') = client_recv (cw_log w).
Proof.
  intros (Hm & Htx & pu & Hj & Hpc & Hin) HS Ht Hd. pose proof (client_step_recv _ _ _ _ HS) as Hlog.
  assert (∀ o f b v, hub_send o f w = Some (b, v) → False) as Hs.
  { intros o f b v. unfold hub_send. by rewrite jammed_send. }
  destruct l as [e|k e|sid req| |]; try done.
  - exfalso. simpl in HS. unfold main_step in HS. rewrite Hm in HS. destruct e; try done.
    rewrite Hj, jammed_send in HS; done.
  - rewrite Hlog, app_nil_r. split; [|done]. clear Hlog. destruct (decide (k = j)) as [->|Hk].
    { exfalso. simpl in HS. rewrite Hj in HS. unfold pump_step in HS. rewrite Hpc in HS. destruct e; try done.
      destruct (hub_send _ _ w) as [[b v]|] eqn:E; [by eapply Hs|done]. }
    assert (cw_main w' = cw_main w ∧ cw_hub_tx w' = cw_hub_tx w ∧ cw_pumps w' !! j = cw_pumps w !! j) as (Hm' & Htx' & Hj').
    { simpl in HS. destruct (cw_pumps w !! k) as [pu1|] eqn:Hk1; [|done]. unfold pump_step in HS.
      destruct (pu_pc pu1), e; try discriminate HS;
        try (destruct (hub_send _ _ w) as [[b v]|] eqn:E; [by destruct (Hs _ _ _ _ E)|discriminate HS]).
      all: client_split HS; simpl; (split; [done|split; [done|by apply lookup_insert_ne]]). }
    unfold client_jammed. rewrite Hm', Htx', Hj'. eauto 10.
  - exfalso. simpl in HS. destruct (hub_send _ _ w) as [[b v]|] eqn:E; [by eapply Hs|done].
Qed.

(** C23: a jam is for good.  Once the frame loop of the hub waits to refuse a request
    of a cluster spoke, the frame loop of the client waits for a pump and the pump
    for the hub, with all channels and the transport full, no frame is received any
    more on either side, whatever the tasks and their peers do, until the stream
    itself is lost. *)
Theorem tunnel_jam_persists ls sid j p q t t' :
  jammed sid j p q t → exec bounded_step ls t = Some t' →
  jammed sid j p q t' ∧
  recv_frames (w_log (t_hub t')) = recv_frames (w_log (t_hub t)) ∧
  client_recv (cw_log (t_client t')) = client_recv (cw_log (t_client t)).
Proof.
  revert t. induction ls as [|l ls IH]; intros t Hj He; simpl in He; [by simplify_eq|].
  destruct (bounded_step l t) as [t1|] eqn:HS; [|done].
  assert (jammed sid j p q t1 ∧ recv_frames (w_log (t_hub t1)) = recv_frames (w_log (t_hub t)) ∧
    client_recv (cw_log (t_client t1)) = client_recv (cw_log (t_client t))) as (Hj1 & <- & <-); [|by apply IH].
  clear IH He. unfold bounded_step in HS.
  destruct (keeps_stream l) eqn:Hk; [|done]. destruct (has_room cap l t) eqn:Hroom; [|done]. simpl in HS.
  destruct Hj as (Hh & Hc & Hd & Hu). destruct l as [l|l| | | |h]; simpl in *.
  - destruct (hub_local l) eqn:Hl; [|done]. apply on_hub_Some in HS as (w & _ & HS & ->).
    destruct (hub_jammed_step _ _ _ _ Hh HS) as [Hh' Hr]; [by intros ->..|]. simpl. split_and!; [|done..].
    by split_and!.
  - destruct (client_local l) eqn:Hl; [|done]. apply on_client_Some in HS as (w & HS & ->).
    destruct (client_jammed_step _ _ _ _ _ _ Hc HS) as [Hc' Hr]; [by intros ->..|]. simpl. split_and!; [|done..].
    by split_and!.
  - apply Nat.ltb_lt in Hroom. lia.
  - destruct (t_down t) as [|f down]; [done|]. apply on_client_Some in HS as (w & HS & ->).
    simpl in HS. unfold main_step in HS. destruct Hc as (Hm & _). by rewrite Hm in HS.
  - apply Nat.ltb_lt in Hroom. lia.
  - destruct (t_up t) as [|f up]; [done|]. apply on_hub_Some in HS as (w & _ & HS & ->).
    simpl in HS. unfold recv_step in HS. destruct Hh as (Hm & _). by rewrite Hm in HS.
Qed.
End deadlock.
