(* ===== verification/TunnelWitness.v ===== *)
(** * The tunnel: a concrete run

    The client authenticates; the hub accepts a TCP connection and opens its
    stream; "hi" travels from the connection to the target and "yo" back.  The
    witnesses apply the theorems of the tunnel to the last state. *)
From S2P Require Import Prelude RustStd SockAddr Proto ServerConfig Channel ServerMetrics ServerHttp ServerSession SessionTrans SessionDelivery SessionStreams SessionInbound SessionWitness ClientConfig ClientSession ClientPumps ClientRoutes ClientStreams ClientWitness Tunnel TunnelStreams TunnelRefinement TunnelWeight TunnelIdle TunnelRequests TunnelDeadlock.

Definition tun_step : tunnel_label → tunnel queue → option (tunnel queue) :=
  tunnel_step (HU:=ascii_tables) demo_method demo_config demo_spoke demo_client_config.
Definition tun_init : tunnel queue → Prop :=
  tunnel_init (HU:=ascii_tables) demo_spoke demo_client_config.

(** The challenge has been answered and the hub has taken the answer. *)
Definition challenge : server_frame := ServerFrame 0 (Some (SChallenge (HandshakeChallenge [x00] 7))).
Definition handshaken : client_world queue :=
  client_after [CMain (EFrame challenge); CMain ETick; CTxTake] client_start.
Definition tun_start : tunnel queue := TunnelState demo_init handshaken [] [].

Definition to_target_run : list tunnel_label :=
  [THub (LListen 0 []); THub (LAccept 0 Tick); THub (LAccept 0 (Accepted 0));
   THub (LAccept 0 Tick); THub (LAccept 0 Tick);
   TDownTake; TDownRecv; TClient (CMain (ESpawn 0)); TClient (CPump 0 EDialOk);
   THub (LUp 0 (ReadOk (lit "hi"))); THub (LUp 0 Tick); TDownTake; TDownRecv;
   TClient (CMain ETick); TClient (CPump 0 ETick); TClient (CPump 0 EWriteOk)].
Definition from_target_run : list tunnel_label :=
  [TClient (CPump 0 (ERead (lit "yo"))); TClient (CPump 0 ETick); TUpTake; TUpRecv 0;
   THub (LRecv Tick); THub (LDn 0 Tick); THub (LDn 0 WriteOk)].

Definition tun_after (ls : list tunnel_label) (t : tunnel queue) : tunnel queue :=
  default t (exec tun_step ls t).
Definition tun_end : tunnel queue := tun_after (to_target_run ++ from_target_run) tun_start.

Lemma handshaken_reach : reachable (client_step (HU:=ascii_tables) demo_client_config) client_init handshaken.
Proof.
  eapply reachable_exec; [by apply reachable_init|].
  apply (client_after_exec [CMain (EFrame challenge); CMain ETick; CTxTake] client_start). by vm_compute.
Qed.

Lemma tun_start_init : tun_init tun_start.
Proof.
  split_and!; [by exists (mpsc_channel 256)|exact handshaken_reach| |].
  - exists [challenge]. split; [|by vm_compute].
    by repeat constructor.
  - exists (client_handshake (spoke_id demo_client_config) (token demo_client_config)). split; by vm_compute.
Qed.

Lemma tun_after_exec ls t :
  (if exec tun_step ls t is Some _ then true else false) = true → exec tun_step ls t = Some (tun_after ls t).
Proof. unfold tun_after. by destruct (exec tun_step ls t). Qed.

Lemma tun_end_reach : reachable tun_step tun_init tun_end.
Proof.
  eapply reachable_exec; [apply reachable_init, tun_start_init|].
  apply (tun_after_exec (to_target_run ++ from_target_run) tun_start). by vm_compute.
Qed.

Definition tun_conn : conn queue := demo_conn (t_hub tun_end).
Definition tun_pump : pump queue := demo_pump (t_client tun_end).

Lemma tun_end_conn : w_conns (t_hub tun_end) !! 0 = Some tun_conn.
Proof. vm_compute. reflexivity. Qed.
Lemma tun_end_pump : cw_pumps (t_client tun_end) !! 0 = Some tun_pump.
Proof. vm_compute. reflexivity. Qed.

(** ** Witnesses *)
Lemma tunnel_to_target_witness :
  pump_wrote (pump_log 0 (cw_log (t_client tun_end))) = lit "hi" ∧
  ∃ k c, w_conns (t_hub tun_end) !! k = Some c ∧
    pump_wrote (pump_log 0 (cw_log (t_client tun_end))) `prefix_of` tcp_read k (w_log (t_hub tun_end)).
Proof.
  split; [by vm_compute|].
  destruct (tunnel_to_target (HU:=ascii_tables) demo_method demo_config demo_spoke demo_client_config tun_end 0
    tun_pump tun_end_reach tun_end_pump) as [(k & c & Hk & _ & Hp) _]. exists k, c. exact (conj Hk Hp).
Defined.

Lemma tunnel_from_target_witness :
  tcp_written 0 (w_log (t_hub tun_end)) = lit "yo" ∧
  ∃ j, tcp_written 0 (w_log (t_hub tun_end)) `prefix_of` pump_read (pump_log j (cw_log (t_client tun_end))).
Proof.
  assert (tcp_written 0 (w_log (t_hub tun_end)) = lit "yo") as Hyo by (by vm_compute). split; [exact Hyo|].
  destruct (tunnel_from_target (HU:=ascii_tables) demo_method demo_config demo_spoke demo_client_config tun_end 0
    tun_conn tun_end_reach tun_end_conn) as [Hnil|(j & pu & _ & _ & Hp)]; [rewrite Hyo in Hnil; discriminate Hnil|exists j; exact Hp].
Defined.

Lemma tunnel_no_loss_witness :
  drained tun_end 0 tun_conn 0 tun_pump ∧
  pump_wrote (pump_log 0 (cw_log (t_client tun_end))) = tcp_read 0 (w_log (t_hub tun_end)).
Proof.
  assert (drained tun_end 0 tun_conn 0 tun_pump) as Hd.
  { constructor; [exact tun_end_conn|exact tun_end_pump|by vm_compute|..]; split_and!; by vm_compute. }
  split; [exact Hd|].
  apply (tunnel_no_loss (HU:=ascii_tables) demo_method demo_config demo_spoke demo_client_config tun_end 0
    tun_conn 0 tun_pump tun_end_reach Hd).
Defined.

Lemma tunnel_refines_witness :
  pipe_of tun_end 0 = Duplex (lit "hi") (lit "hi") (lit "yo") (lit "yo") ∧
  pipes_step (pipe_of tun_end) (pipe_of (tun_after [THub (LUp 0 (ReadOk (lit "more")))] tun_end)) ∧
  dx_hub_in (pipe_of (tun_after [THub (LUp 0 (ReadOk (lit "more")))] tun_end) 0) = lit "himore".
Proof.
  split; [by vm_compute|]. split; [|by vm_compute].
  apply (proj2 (tunnel_refines (HU:=ascii_tables) demo_method demo_config demo_spoke demo_client_config tun_end
    tun_end_reach) (THub (LUp 0 (ReadOk (lit "more"))))).
  vm_compute. reflexivity.
Defined.

(** A state with work left on both sides - bytes read at the hub and at the target -
    and a run of the programs' own steps from it. *)
Definition busy_run : list tunnel_label :=
  [THub (LListen 0 []); THub (LAccept 0 Tick); THub (LAccept 0 (Accepted 0));
   THub (LAccept 0 Tick); THub (LAccept 0 Tick);
   TDownTake; TDownRecv; TClient (CMain (ESpawn 0)); TClient (CPump 0 EDialOk);
   THub (LUp 0 (ReadOk (lit "hi"))); TClient (CPump 0 (ERead (lit "yo")))].
Definition tun_busy : tunnel queue := tun_after busy_run tun_start.
Definition drain_run : list tunnel_label :=
  [THub (LAccept 0 Tick); THub (LUp 0 Tick); TDownTake; TDownRecv; TClient (CPump 0 ETick);
   TClient (CMain ETick); TUpTake; TUpRecv 0; TClient (CPump 0 ETick); THub (LRecv Tick); THub (LDn 0 Tick);
   TClient (CPump 0 EWriteOk); THub (LDn 0 WriteOk)].
Definition own : tunnel_label → tunnel queue → option (tunnel queue) :=
  own_step (HU:=ascii_tables) demo_method demo_config demo_spoke demo_client_config 1.
Definition tun_drained : tunnel queue := default tun_busy (exec own drain_run tun_busy).

Lemma tun_busy_live : live (HU:=ascii_tables) demo_method demo_config demo_spoke demo_client_config tun_busy.
Proof.
  split.
  - eapply reachable_exec; [apply reachable_init, tun_start_init|].
    apply (tun_after_exec busy_run tun_start). by vm_compute.
  - unfold hub_live, chan_up. split_and!; [by vm_compute|by vm_compute|apply Nat.ltb_lt; by vm_compute|by vm_compute].
  - unfold client_live, chan_up. split_and!; [by vm_compute|apply Nat.ltb_lt; by vm_compute|].
    intros r. assert (cw_main (t_client tun_busy) = CmNext) as -> by (by vm_compute). discriminate.
Qed.

Lemma tunnel_drains_witness :
  weight tun_busy = 17 ∧ exec own drain_run tun_busy = Some tun_drained ∧
  length drain_run ≤ weight tun_busy ∧
  tcp_written 0 (w_log (t_hub tun_busy)) = [] ∧ tcp_written 0 (w_log (t_hub tun_drained)) = lit "yo" ∧
  pump_wrote (pump_log 0 (cw_log (t_client tun_drained))) = lit "hi".
Proof.
  assert (exec own drain_run tun_busy = Some tun_drained) as He by (by vm_compute).
  split; [by vm_compute|]. split; [exact He|].
  split; [|split_and!; by vm_compute].
  exact (proj1 (tunnel_drains (HU:=ascii_tables) demo_method demo_config demo_spoke demo_client_config 1
    eq_refl ltac:(lia) tun_busy drain_run tun_drained tun_busy_live He)).
Defined.

(** The proxy queues a request, and the tunnel answers it. *)
Definition tun_asked : tunnel queue := tun_after [TClient (CProxy (2 ^ 63) demo_request)] tun_start.
Definition answer_run : list tunnel_label :=
  [TUpTake; TUpRecv 0; THub (LHttp 0 Tick); THub (LHttp 0 (HttpSent 200 [])); THub (LHttp 0 (HttpBodyOk (lit "done")));
   THub (LHttp 0 Tick); TDownTake; TDownRecv].
Definition tun_answered : tunnel queue := default tun_asked (exec own answer_run tun_asked).

Lemma tun_asked_live : live (HU:=ascii_tables) demo_method demo_config demo_spoke demo_client_config tun_asked.
Proof.
  split.
  - eapply reachable_exec; [apply reachable_init, tun_start_init|].
    apply (tun_after_exec [TClient (CProxy (2 ^ 63) demo_request)] tun_start). by vm_compute.
  - unfold hub_live, chan_up. split_and!; [by vm_compute|by vm_compute|apply Nat.ltb_lt; by vm_compute|by vm_compute].
  - unfold client_live, chan_up. split_and!; [by vm_compute|apply Nat.ltb_lt; by vm_compute|].
    intros r. assert (cw_main (t_client tun_asked) = CmNext) as -> by (by vm_compute). discriminate.
Qed.

Lemma tunnel_answers_requests_witness :
  client_http (cw_log (t_client tun_answered)) = [((2 ^ 63)%N, ok_response 200 ∅ (lit "done"))] ∧
  exec own answer_run tun_asked = Some tun_answered ∧ length answer_run ≤ weight tun_asked ∧
  ∃ ls2 t2, exec own ls2 tun_answered = Some t2 ∧ ∃ r, CoHttp (2 ^ 63) r ∈ cw_log (t_client t2).
Proof.
  assert (exec own answer_run tun_asked = Some tun_answered) as He by (by vm_compute).
  assert (CoProxy (2 ^ 63) demo_request ∈ cw_log (t_client tun_asked)) as Hq
    by (apply (list_elem_of_lookup_2 _ 2); vm_compute; reflexivity).
  destruct (tunnel_answers_requests (HU:=ascii_tables) demo_method demo_config demo_spoke demo_client_config 1
    tun_asked answer_run tun_answered (2 ^ 63) demo_request tun_asked_live eq_refl ltac:(lia) Hq He)
    as (Hw & _ & ls2 & t2 & He2 & r & Hr & _).
  split; [by vm_compute|]. split; [exact He|]. split; [exact Hw|]. exists ls2, t2. split; [exact He2|]. exists r. exact Hr.
Defined.

(** A cluster spoke runs into the jam.  The channels have the bounds of the source,
    and the transport has room for 128 frames per direction, the 4 MiB stream
    window over the 32 KiB reads.  The target talks until the client's side is
    full, with a request of the local proxy in front; the connection talks until
    the hub's side is full; then the hub takes the request. *)
Definition jam_spoke : spoke_config := SpokeConfig (lit "lab") Cluster [SpokePortBinding 8000 []] (lit "secret").
Definition jam_hub : sess_world queue :=
  SessWorld (new_session (lit "lab") (mpsc_channel 256)) 0 ∅ ∅ RvNext ∅ [].
Definition jam_start : tunnel queue := TunnelState jam_hub handshaken [] [].
Definition jam_cap : nat := 128.

Definition repeat_run (n : nat) (ls : list tunnel_label) : list tunnel_label := mjoin (replicate n ls).
Definition target_talks : list tunnel_label := [TClient (CPump 0 (ERead (lit "y"))); TClient (CPump 0 ETick)].
Definition conn_talks : list tunnel_label := [THub (LUp 0 (ReadOk (lit "h"))); THub (LUp 0 Tick)].
Definition jam_run : list tunnel_label :=
  [THub (LListen 0 []); THub (LAccept 0 Tick); THub (LAccept 0 (Accepted 0));
   THub (LAccept 0 Tick); THub (LAccept 0 Tick);
   TDownTake; TDownRecv; TClient (CMain (ESpawn 0)); TClient (CPump 0 EDialOk);
   TClient (CProxy (2 ^ 63) demo_request); TUpTake]
  ++ repeat_run 127 (target_talks ++ [TUpTake]) ++ repeat_run 256 target_talks
  ++ [TClient (CPump 0 (ERead (lit "y")))]
  ++ repeat_run 64 (conn_talks ++ [TDownTake; TDownRecv; TClient (CMain ETick)])
  ++ conn_talks ++ [TDownTake; TDownRecv]
  ++ repeat_run 128 (conn_talks ++ [TDownTake]) ++ repeat_run 256 conn_talks
  ++ [TUpRecv 0; TUpTake; TClient (CPump 0 ETick); TClient (CPump 0 (ERead (lit "y")))].
Definition jam_step : tunnel_label → tunnel queue → option (tunnel queue) :=
  bounded_step (HU:=ascii_tables) demo_method demo_config jam_spoke demo_client_config jam_cap.
Definition tun_jammed : tunnel queue := default jam_start (exec jam_step jam_run jam_start).

Lemma bounded_exec_reachable (mfb : bytes → option bytes) cfg sc ccfg cap ls (t t' : tunnel queue) :
  reachable (tunnel_step (HU:=ascii_tables) mfb cfg sc ccfg) (tunnel_init (HU:=ascii_tables) sc ccfg) t →
  exec (bounded_step (HU:=ascii_tables) mfb cfg sc ccfg cap) ls t = Some t' →
  reachable (tunnel_step (HU:=ascii_tables) mfb cfg sc ccfg) (tunnel_init (HU:=ascii_tables) sc ccfg) t'.
Proof.
  revert t. induction ls as [|l ls IH]; intros t Hr He; simplify_eq/=; [done|].
  destruct (bounded_step _ _ _ _ cap l t) as [t1|] eqn:HS; [|done]. eapply IH; [|done].
  unfold bounded_step in HS. case_match; [|done]. by eapply reachable_step.
Qed.

Lemma jam_start_init : tunnel_init (HU:=ascii_tables) jam_spoke demo_client_config jam_start.
Proof.
  destruct tun_start_init as (_ & Hc & Hd & Hu).
  split; [by exists (mpsc_channel 256)|]. split; [exact Hc|]. split; [exact Hd|exact Hu].
Qed.

Lemma tun_jammed_exec : exec jam_step jam_run jam_start = Some tun_jammed.
Proof.
  assert ((if exec jam_step jam_run jam_start is Some _ then true else false) = true) as H by (by vm_compute).
  unfold tun_jammed. by destruct (exec jam_step jam_run jam_start).
Qed.

Definition chan_jammedb {A} (q : queue A) : bool := q_alive q && (q_bound q <=? length (q_items q)).
Lemma chan_jammedb_spec {A} (q : queue A) : chan_jammedb q = true → jammed_chan q.
Proof. unfold chan_jammedb. intros [? ?%Nat.leb_le]%andb_prop. done. Qed.

Definition jam_pump : pump queue := demo_pump (t_client tun_jammed).

Lemma tun_jammed_jammed : jammed jam_cap (2 ^ 63) 0 (lit "h") (lit "y") tun_jammed.
Proof.
  split_and!.
  - split; [by vm_compute|]. apply chan_jammedb_spec. by vm_compute.
  - split; [by vm_compute|]. split; [apply chan_jammedb_spec; by vm_compute|]. exists jam_pump.
    split; [by vm_compute|]. split; [by vm_compute|]. apply chan_jammedb_spec. by vm_compute.
  - apply Nat.leb_le. by vm_compute.
  - apply Nat.leb_le. by vm_compute.
Qed.

Lemma tunnel_jam_persists_witness :
  reachable (tunnel_step (HU:=ascii_tables) demo_method demo_config jam_spoke demo_client_config)
    (tunnel_init (HU:=ascii_tables) jam_spoke demo_client_config) tun_jammed ∧
  ∃ t', exec jam_step [THub (LUp 0 (ReadOk (lit "more")))] tun_jammed = Some t' ∧
    jammed jam_cap (2 ^ 63) 0 (lit "h") (lit "y") t'.
Proof.
  split.
  - eapply bounded_exec_reachable; [apply reachable_init, jam_start_init|exact tun_jammed_exec].
  - set (t' := default tun_jammed (exec jam_step [THub (LUp 0 (ReadOk (lit "more")))] tun_jammed)).
    assert (exec jam_step [THub (LUp 0 (ReadOk (lit "more")))] tun_jammed = Some t') as He by (by vm_compute).
    exists t'. split; [exact He|].
    exact (proj1 (tunnel_jam_persists (HU:=ascii_tables) demo_method demo_config jam_spoke demo_client_config jam_cap
      [THub (LUp 0 (ReadOk (lit "more")))] (2 ^ 63) 0 (lit "h") (lit "y") tun_jammed t' tun_jammed_jammed He)).
Defined.
