(* ===== verification/HttpTunnel.v ===== *)
(** * The HTTP proxy through the tunnel

    The client's HTTP proxy, its sessions and the hub's sessions together: a local
    caller's request is queued on the session its handler took, crosses the tunnel,
    is answered by the hub, and the response resolves the caller.  A session starts
    with the hub's challenge and becomes a session of the hub when the hub has
    verified its first frame; from then on it runs as [tunnel_step].  Queuing a
    request is one step of the handler and of the session's channel, and receiving
    a response one step of the frame loop and of the pending map.

    The proxy's own view of a session's channel ([px_sessions]) follows the tonic
    side of that channel freely, so every run of the programs is a run here. *)
From S2P Require Import Prelude RustStd Proto ServerConfig Channel Oneshot ServerMetrics ServerHttp ServerSession SessionTrans SessionDelivery SessionStreams SessionInbound SessionHttp SessionReplies ServerHub ClientConfig ClientProxy ProxyInvariant ClientSession ClientPumps ClientRoutes ClientStreams Tunnel TunnelStreams.

Record system (chan os : Type → Type) := System {
  sy_proxy : proxy_world chan os;
  sy_sessions : gmap nat (bool * tunnel chan) }.    (* has the hub verified the first frame? *)
Arguments System {chan os} _ _.
Arguments sy_proxy {chan os} _.
Arguments sy_sessions {chan os} _.

Inductive system_label :=
| YProxy (l : proxy_label)                 (* the proxy alone *)
| YOpen (s : nat) (nonce : bytes) (issued_at : Z) (next_sid : N)   (* a new session *)
| YTunnel (s : nat) (l : tunnel_label)     (* a session alone *)
| YAuth (s : nat)                          (* the hub verifies the first frame *)
| YSend (k s : nat)                        (* handler k queues its request on session s *)
| YResponse (s : nat).                     (* session s receives a response *)

Section http_tunnel.
Context {chan os : Type → Type} `{Hmpsc : Mpsc chan} `{Hone : Oneshot os} `{HI : HashIter} {HU : UnicodeTables}.
Context (mfb : bytes → option bytes) (cfg : server_config) (sc : spoke_config) (ccfg : client_config).
Context (sf : N → option N) (hn hv : bytes → option bytes) (be : list (bytes * bytes) → option bytes).
Implicit Types (x : system chan os) (t : tunnel chan) (w : proxy_world chan os).

(** A session of the client that the hub has just challenged. *)
Definition fresh_session (nonce : bytes) (issued_at : Z) (next_sid : N) : option (tunnel chan) :=
  match mpsc_send (challenge_frame nonce issued_at) (mpsc_channel 256) with
  | Sent q =>
      Some (TunnelState (SessWorld (new_session (sc_spoke_id sc) q) next_sid ∅ ∅ RvNext ∅ [])
              (ClientWorld (mpsc_channel 256) ∅ ∅ CmNext []) [] [])
  | _ => None
  end.

(** Steps of the proxy that involve no session's frame loop or channel. *)
Definition proxy_local (l : proxy_label) w : bool :=
  match l with
  | PSession _ | PResponse _ _ _ => false
  | PHandler k _ =>
      match px_handlers w !! k with
      | Some h =>
          match pr_pc h with
          | PxSend req s sid =>
              match px_sessions w !! s with
              | Some q => match mpsc_send (client_http_request sid req) q with SendClosed => true | _ => false end
              | None => false
              end
          | _ => true
          end
      | None => false
      end
  | _ => true
  end.

(** Steps of a session that do not involve the proxy; before the hub has verified
    the first frame its session has no tasks. *)
Definition session_local (verified : bool) (l : tunnel_label) t : bool :=
  match l with
  | TClient (CProxy _ _) => false
  | TDownRecv =>
      match t_down t with
      | f :: _ => match sf_kind f with Some (SHttpResponse _) => false | _ => true end
      | [] => false
      end
  | THub _ | TUpRecv _ => verified
  | _ => true
  end.

Definition set_session_of (s : nat) (v : bool * tunnel chan) x : system chan os :=
  System (sy_proxy x) (<[s := v]> (sy_sessions x)).
Definition set_proxy w x : system chan os := System w (sy_sessions x).

Definition system_step (l : system_label) x : option (system chan os) :=
  let w := sy_proxy x in
  match l with
  | YProxy pl =>
      if proxy_local pl w then
        match proxy_step_nowrap sf hn hv be pl w with Some w' => Some (set_proxy w' x) | None => None end
      else None
  | YOpen s nonce issued_at next_sid =>
      match sy_sessions x !! s, fresh_session nonce issued_at next_sid, proxy_step_nowrap sf hn hv be (PSession s) w with
      | None, Some t, Some w' => Some (set_session_of s (false, t) (set_proxy w' x))
      | _, _, _ => None
      end
  | YTunnel s tl =>
      match sy_sessions x !! s with
      | Some (v, t) =>
          if session_local v tl t then
            match tunnel_step mfb cfg sc ccfg tl t with Some t' => Some (set_session_of s (v, t') x) | None => None end
          else None
      | None => None
      end
  | YAuth s =>
      match sy_sessions x !! s with
      | Some (false, t) =>
          match t_up t with
          | f :: up =>
              match verify_first cfg (Some f) with
              | Ok (hs, sc') =>
                  if decide (sc' = sc ∧ hs_spoke_id hs = sc_spoke_id sc)
                  then Some (set_session_of s (true, set_wires (t_down t) up t) x) else None
              | Err _ => None
              end
          | [] => None
          end
      | _ => None
      end
  | YSend k s =>
      match sy_sessions x !! s, px_handlers w !! k with
      | Some (v, t), Some h =>
          match pr_pc h, px_sessions w !! s with
          | PxSend req s' sid, Some q =>
              if bool_decide (s' = s) then
                match mpsc_send (client_http_request sid req) q,
                      mpsc_send (client_http_request sid req) (cw_hub_tx (t_client t)),
                      proxy_step_nowrap sf hn hv be (PHandler k PTick) w,
                      tunnel_step mfb cfg sc ccfg (TClient (CProxy sid req)) t with
                | Sent _, Sent _, Some w', Some t' => Some (set_session_of s (v, t') (set_proxy w' x))
                | _, _, _, _ => None
                end
              else None
          | _, _ => None
          end
      | _, _ => None
      end
  | YResponse s =>
      match sy_sessions x !! s with
      | Some (v, t) =>
          match t_down t with
          | ServerFrame sid (Some (SHttpResponse r)) :: _ =>
              match proxy_step_nowrap sf hn hv be (PResponse s sid r) w, tunnel_step mfb cfg sc ccfg TDownRecv t with
              | Some w', Some t' => Some (set_session_of s (v, t') (set_proxy w' x))
              | _, _ => None
              end
          | _ => None
          end
      | None => None
      end
  end.

Definition system_init x : Prop := x = System proxy_new ∅.

(** ** Sessions *)

(** Before the hub has verified the first frame: only the challenge has gone down,
    and the hub has consumed nothing. *)
Record unverified t : Prop := {
  uv_hub : sess_init sc (t_hub t);
  uv_client : reachable (client_step ccfg) client_init (t_client t);
  uv_down : ∃ c, is_challenge c ∧
    passed (client_recv (cw_log (t_client t)) ++ t_down t) (ss_server_tx (w_session (t_hub t))) [c];
  uv_up : passed (t_up t) (cw_hub_tx (t_client t)) (client_sent (cw_log (t_client t))) }.

Definition session_ok (v : bool * tunnel chan) : Prop :=
  if v.1 then reachable (tunnel_step mfb cfg sc ccfg) (tunnel_init sc ccfg) v.2 else unverified v.2.

Lemma fresh_unverified nonce issued_at n t : fresh_session nonce issued_at n = Some t → unverified t.
Proof.
  unfold fresh_session. destruct (mpsc_send _ _) as [q| |] eqn:Hs; [|done..]. intros [= <-].
  destruct (mpsc_send_Sent _ _ _ Hs) as (Hq & _ & Ha & _). split; simpl.
  - by exists q.
  - by constructor.
  - eexists. split; [|unfold passed; rewrite Ha, Hq, mpsc_queued_new; reflexivity]. done.
  - unfold passed. rewrite mpsc_queued_new. by case_match.
Qed.

Lemma verified_first hs sc' f : verify_first cfg (Some f) = Ok (hs, sc') → is_handshake f.
Proof. unfold verify_first, is_handshake. destruct (cf_kind f) as [[]|]; done. Qed.

Lemma unverified_auth t f up hs sc' :
  unverified t → t_up t = f :: up → verify_first cfg (Some f) = Ok (hs, sc') →
  reachable (tunnel_step mfb cfg sc ccfg) (tunnel_init sc ccfg) (set_wires (t_down t) up t).
Proof.
  intros [Hh Hc (c & Hch & Hd) Hu] Hup Hv. apply reachable_init. split_and!; simpl; [done|done| |].
  - exists [c]. split; [by constructor|done].
  - exists f. split; [by eapply verified_first|]. by rewrite <-Hup.
Qed.

(** The steps of an unverified session are those of its client and of the wire. *)
Lemma unverified_step l t t' :
  unverified t → (match l with THub _ | TUpRecv _ => False | _ => True end) →
  tunnel_step mfb cfg sc ccfg l t = Some t' → unverified t'.
Proof.
  intros [Hh Hc (c & Hch & Hd) Hu] Hl HS. destruct l as [sl|cl| | | |h]; try done; simpl in HS.
  - destruct (client_local cl) eqn:Hcl; [|done]. apply on_client_Some in HS as (w & HS & ->).
    split; simpl; [done|by eapply reachable_step| |].
    + exists c. split; [done|]. rewrite (client_step_recv _ _ _ _ HS).
      destruct cl as [e| | | |]; rewrite ?app_nil_r; try done. by destruct e; rewrite ?app_nil_r.
    + eapply passed_sender; [done|]. eapply client_step_sender; [done|by intros ->].
  - destruct (mpsc_recv _) as [[f q]|] eqn:Hr; [|done]. apply on_hub_Some in HS as (h & _ & HS & ->).
    simpl in *. destruct (sess_step_take mfb cfg sc _ _ _ _ Hr HS) as [Hq Hlog]. split; simpl; [|done| |done].
    + destruct Hh as (tx & Hse & Hrest). unfold tx_take in HS. rewrite Hr in HS. injection HS as <-.
      exists q. simpl. by rewrite Hse.
    + exists c. split; [done|]. rewrite Hq, (assoc_L (++)). by eapply passed_take.
  - destruct (t_down t) as [|f down] eqn:Hdown; [done|]. apply on_client_Some in HS as (w & HS & ->).
    split; simpl; [done|by eapply reachable_step| |].
    + exists c. split; [done|]. rewrite (client_step_recv _ _ _ _ HS), <-(assoc_L (++)). done.
    + eapply passed_sender; [done|]. by eapply client_step_sender.
  - destruct (mpsc_recv _) as [[f q]|] eqn:Hr; [|done]. apply on_client_Some in HS as (w & HS & ->).
    cbn [set_wires t_hub t_client t_down t_up] in *. destruct (client_step_take _ _ _ _ _ Hr HS) as [Hq Hlog].
    split; simpl; [done|by eapply reachable_step|exists c; by rewrite Hlog|]. rewrite Hlog, Hq. by eapply passed_take.
Qed.

Lemma session_ok_step v l t t' :
  session_ok (v, t) → (if v then True else match l with THub _ | TUpRecv _ => False | _ => True end) →
  tunnel_step mfb cfg sc ccfg l t = Some t' → session_ok (v, t').
Proof. destruct v; [intros Hr _ HS; exact (reachable_step _ _ _ _ _ Hr HS)|apply unverified_step]. Qed.

(** ** What the proxy and a session's client have recorded of each other *)

(** What the client of a session queued for the proxy, and what it received. *)
Definition proxied (sid : N) (req : http_request) t : Prop := CoProxy sid req ∈ cw_log (t_client t).
Definition got_response (sid : N) (r : http_response) t : Prop :=
  ServerFrame sid (Some (SHttpResponse r)) ∈ client_recv (cw_log (t_client t)).

Lemma client_step_grows l (c c' : client_world chan) :
  client_step ccfg l c = Some c' → ∃ d, cw_log c' = cw_log c ++ d ∧ (∀ sid req, CoProxy sid req ∈ d → l = CProxy sid req).
Proof.
  clear mfb sf hn hv. intros HS. client_inv HS; simpl; rewrite <-?(assoc_L (++));
    first [exists []; rewrite app_nil_r; split; [done|by intros ? ? []%elem_of_nil]
          |eexists; split; [reflexivity|intros ? ?; rewrite ?elem_of_app, ?elem_of_cons, ?elem_of_nil; naive_solver]].
Qed.

Lemma tunnel_step_client l t t' :
  tunnel_step mfb cfg sc ccfg l t = Some t' →
  t_client t' = t_client t ∨
  ∃ cl, client_step ccfg cl (t_client t) = Some (t_client t') ∧ (∀ sid req, cl = CProxy sid req → l = TClient cl).
Proof.
  intros HS. destruct l as [sl|cl| | | |h]; simpl in HS; repeat case_match; try discriminate HS;
    first [apply on_hub_Some in HS as (? & _ & _ & ->); by left
          |apply on_client_Some in HS as (? & HS & ->); right; eexists; split; [exact HS|done]].
Qed.

Lemma session_step_logs l t t' :
  tunnel_step mfb cfg sc ccfg l t = Some t' →
  (∀ sid req, proxied sid req t' → proxied sid req t ∨ l = TClient (CProxy sid req)) ∧
  (∀ sid r, got_response sid r t → got_response sid r t').
Proof.
  intros HS. unfold proxied, got_response. destruct (tunnel_step_client _ _ _ HS) as [->|(cl & Hcl & Hl)]; [auto|].
  destruct (client_step_grows _ _ _ Hcl) as (d & Hd & Hp). rewrite (client_step_recv _ _ _ _ Hcl), Hd. split.
  - intros sid req [?|Hin]%elem_of_app; [by left|right]. pose proof (Hp _ _ Hin) as ->. by eapply Hl.
  - intros sid r ?. apply elem_of_app. by left.
Qed.

Lemma receive_response t t' sid r down :
  t_down t = ServerFrame sid (Some (SHttpResponse r)) :: down →
  tunnel_step mfb cfg sc ccfg TDownRecv t = Some t' → got_response sid r t'.
Proof.
  intros Hd HS. simpl in HS. rewrite Hd in HS. apply on_client_Some in HS as (c & HS & ->). unfold got_response. simpl.
  rewrite (client_step_recv _ _ _ _ HS). apply elem_of_app. right. by apply list_elem_of_singleton.
Qed.

(** ** The invariant of the system *)
Record system_inv x : Prop := {
  si_proxy : proxy_inv sf hn hv be (sy_proxy x);
  si_session s v : sy_sessions x !! s = Some v → session_ok v;
  si_sent s v sid req : sy_sessions x !! s = Some v → proxied sid req v.2 → ∃ k, PSent k s sid req ∈ px_log (sy_proxy x);
  si_received s sid r : PReceived s sid r ∈ px_log (sy_proxy x) →
    ∃ v, sy_sessions x !! s = Some v ∧ got_response sid r v.2 }.

(** What a step of the proxy records. *)
Lemma proxy_step_log l w w' :
  proxy_step sf hn hv be l w = Some w' →
  ∃ d, px_log w' = px_log w ++ d ∧ ∀ s sid r, PReceived s sid r ∈ d → l = PResponse s sid r.
Proof.
  intros HS. proxy_inv HS; unfold pending_insert, pending_remove; simpl; repeat case_match; simpl;
    first [exists []; rewrite app_nil_r; split; [done|by intros ??? []%elem_of_nil]
          |eexists; split; [reflexivity|intros ??? ?%list_elem_of_singleton; congruence]].
Qed.

Lemma proxy_send_log k h req s sid q q' w w' :
  px_handlers w !! k = Some h → pr_pc h = PxSend req s sid → px_sessions w !! s = Some q →
  mpsc_send (client_http_request sid req) q = Sent q' → proxy_step sf hn hv be (PHandler k PTick) w = Some w' →
  PSent k s sid req ∈ px_log w'.
Proof.
  intros Hk Hpc Hq Hs HS. simpl in HS. rewrite Hk in HS. unfold handler_step in HS. rewrite Hpc, Hq, Hs in HS.
  injection HS as <-. simpl. apply elem_of_app. right. by apply list_elem_of_singleton.
Qed.

Lemma proxy_response_log s sid r w w' :
  proxy_step sf hn hv be (PResponse s sid r) w = Some w' → px_log w' = px_log w ++ [PReceived s sid r].
Proof. intros [= <-]. simpl. unfold pending_remove. by case_match. Qed.

(** A step of the proxy, possibly with a step of session [s]. *)
Lemma system_inv_update x w' s v' l :
  system_inv x → proxy_step_nowrap sf hn hv be l (sy_proxy x) = Some w' → session_ok v' →
  (∀ sid req, proxied sid req v'.2 → ∃ k, PSent k s sid req ∈ px_log w') →
  (∀ v sid r, sy_sessions x !! s = Some v → got_response sid r v.2 → got_response sid r v'.2) →
  (∀ s' sid r, l = PResponse s' sid r → s' = s ∧ got_response sid r v'.2) →
  system_inv (set_session_of s v' (set_proxy w' x)).
Proof.
  intros Hi [Hn HP]%proxy_nowrap_step Hok Hsent Hgot Hresp. destruct (proxy_step_log _ _ _ HP) as (d & Hd & Hr).
  split; simpl.
  - eapply proxy_inv_step; [done| |done]. apply Hi.
  - intros s' v. rewrite lookup_insert. case_decide; [by intros [= <-]|by apply Hi].
  - intros s' v sid req. rewrite lookup_insert. case_decide; [intros [= <-]; subst; apply Hsent|].
    intros Hv Hp. destruct (si_sent _ Hi _ _ _ _ Hv Hp) as [k ?]. exists k. rewrite Hd. apply elem_of_app. by left.
  - intros s' sid r. rewrite Hd, lookup_insert. intros [Hin|Hin]%elem_of_app.
    + destruct (si_received _ Hi _ _ _ Hin) as (v & Hv & Hg). case_decide; [subst|by eauto].
      exists v'. split; [done|]. by eapply Hgot.
    + apply Hr in Hin. destruct (Hresp _ _ _ Hin) as [-> Hg]. exists v'. by rewrite decide_True.
Qed.

Lemma system_inv_proxy x w' l :
  system_inv x → proxy_step_nowrap sf hn hv be l (sy_proxy x) = Some w' → proxy_local l (sy_proxy x) = true →
  system_inv (set_proxy w' x).
Proof.
  intros Hi [Hn HP]%proxy_nowrap_step Hl. destruct (proxy_step_log _ _ _ HP) as (d & Hd & Hr). split; simpl.
  - eapply proxy_inv_step; [done| |done]. apply Hi.
  - apply Hi.
  - intros s v sid req Hv Hp. destruct (si_sent _ Hi _ _ _ _ Hv Hp) as [k ?]. exists k. rewrite Hd. apply elem_of_app. by left.
  - intros s sid r. rewrite Hd. intros [Hin|Hin]%elem_of_app; [by apply (si_received _ Hi)|].
    apply Hr in Hin as ->. done.
Qed.

Lemma system_inv_session x s v v' :
  system_inv x → sy_sessions x !! s = Some v → session_ok v' →
  (∀ sid req, proxied sid req v'.2 → proxied sid req v.2) → (∀ sid r, got_response sid r v.2 → got_response sid r v'.2) →
  system_inv (set_session_of s v' x).
Proof.
  intros Hi Hv Hok Hp Hg. split; simpl.
  - apply Hi.
  - intros s' u. rewrite lookup_insert. case_decide; [by intros [= <-]|by apply Hi].
  - intros s' u sid req. rewrite lookup_insert. case_decide; [intros [= <-] Hpr; subst|by apply Hi].
    eapply (si_sent _ Hi); [exact Hv|]. by apply Hp.
  - intros s' sid r Hin. destruct (si_received _ Hi _ _ _ Hin) as (u & Hu & Hgu). rewrite lookup_insert.
    case_decide; [subst|by eauto]. simplify_eq. eauto.
Qed.

Lemma session_local_verified v l t :
  session_local v l t = true → if v then True else match l with THub _ | TUpRecv _ => False | _ => True end.
Proof. by destruct v, l. Qed.

Lemma fresh_logs nonce issued_at n t : fresh_session nonce issued_at n = Some t → cw_log (t_client t) = [].
Proof. unfold fresh_session. destruct (mpsc_send _ _); [|done..]. by intros [= <-]. Qed.

Lemma system_inv_step l x x' : system_inv x → system_step l x = Some x' → system_inv x'.
Proof.
  intros Hi HS. destruct l as [pl|s nonce issued n|s tl|s|k s|s]; unfold system_step in HS; cbv beta iota zeta in HS.
  - destruct (proxy_local _ _) eqn:Hl; [|done]. destruct (proxy_step_nowrap _ _ _ _ _ _) as [w'|] eqn:HP; [|done].
    injection HS as <-. by eapply system_inv_proxy.
  - destruct (sy_sessions x !! s) eqn:Hs; [done|]. destruct (fresh_session _ _ _) as [t|] eqn:Hf; [|done].
    destruct (proxy_step_nowrap _ _ _ _ _ _) as [w'|] eqn:HP; [|done]. injection HS as <-.
    eapply system_inv_update; [done|exact HP| | | |done].
    + simpl. by eapply fresh_unverified.
    + intros sid req. unfold proxied. simpl. rewrite (fresh_logs _ _ _ _ Hf). by intros []%elem_of_nil.
    + intros v sid r Hv. congruence.
  - destruct (sy_sessions x !! s) as [[v t]|] eqn:Hs; [|done]. destruct (session_local _ _ _) eqn:Hl; [|done].
    destruct (tunnel_step _ _ _ _ _ _) as [t'|] eqn:HT; [|done]. injection HS as <-.
    destruct (session_step_logs _ _ _ HT) as [Hp Hg]. eapply system_inv_session; [done|exact Hs| | |exact Hg].
    + eapply session_ok_step; [by apply (si_session _ Hi _ _ Hs)|by eapply session_local_verified|exact HT].
    + intros sid req Hpr. destruct (Hp _ _ Hpr) as [?| ->]; [done|discriminate Hl].
  - destruct (sy_sessions x !! s) as [[[] t]|] eqn:Hs; [done| |done]. destruct (t_up t) as [|f up] eqn:Hup; [done|].
    destruct (verify_first _ _) as [[hs sc']|] eqn:Hv; [|done]. destruct (decide _); [|done]. injection HS as <-.
    eapply system_inv_session; [done|exact Hs| |done|done]. simpl.
    eapply unverified_auth; [exact (si_session _ Hi _ _ Hs)|exact Hup|exact Hv].
  - destruct (sy_sessions x !! s) as [[v t]|] eqn:Hs; [|done]. destruct (px_handlers _ !! k) as [h|] eqn:Hk; [|done].
    destruct (pr_pc h) as [| | | |req s' sid| | | | |] eqn:Hpc; try done.
    destruct (px_sessions _ !! s) as [q|] eqn:Hq; [|done]. case_bool_decide; [subst s'|done].
    destruct (mpsc_send _ q) eqn:Hsend; try done. destruct (mpsc_send _ (cw_hub_tx _)); try done.
    destruct (proxy_step_nowrap _ _ _ _ _ _) as [w'|] eqn:HP; [|done].
    destruct (tunnel_step _ _ _ _ _ _) as [t'|] eqn:HT; [|done]. injection HS as <-.
    destruct (session_step_logs _ _ _ HT) as [Hp Hg]. pose proof HP as [_ HP']%proxy_nowrap_step.
    eapply system_inv_update; [done|exact HP| | | |done].
    + by eapply (session_ok_step v (TClient (CProxy sid req)) t); [apply (si_session _ Hi _ _ Hs)|destruct v|].
    + intros sid' req' Hpr. destruct (Hp _ _ Hpr) as [Hold|[= <- <-]].
      * destruct (si_sent _ Hi _ _ _ _ Hs Hold) as [k' ?]. destruct (proxy_step_log _ _ _ HP') as (d & -> & _).
        exists k'. apply elem_of_app. by left.
      * exists k. by eapply proxy_send_log.
    + intros u sid' r. rewrite Hs. intros [= <-]. apply Hg.
  - destruct (sy_sessions x !! s) as [[v t]|] eqn:Hs; [|done]. destruct (t_down t) as [|[sid kd] down] eqn:Hd; [done|].
    destruct kd as [[| | | | |r]|]; try done. destruct (proxy_step_nowrap _ _ _ _ _ _) as [w'|] eqn:HP; [|done].
    destruct (tunnel_step _ _ _ _ _ _) as [t'|] eqn:HT; [|done]. injection HS as <-.
    destruct (session_step_logs _ _ _ HT) as [Hp Hg]. pose proof HP as [_ HP']%proxy_nowrap_step.
    eapply system_inv_update; [done|exact HP| | | |].
    + by eapply (session_ok_step v TDownRecv t); [apply (si_session _ Hi _ _ Hs)|destruct v|].
    + intros sid' req' Hpr. destruct (Hp _ _ Hpr) as [Hold|?]; [|done].
      destruct (si_sent _ Hi _ _ _ _ Hs Hold) as [k' ?]. exists k'. rewrite (proxy_response_log _ _ _ _ _ HP').
      apply elem_of_app. by left.
    + intros u sid' r'. rewrite Hs. intros [= <-]. apply Hg.
    + intros s' sid' r' [= <- <- <-]. split; [done|]. by eapply receive_response.
Qed.

Lemma system_reach_inv x : reachable system_step system_init x → system_inv x.
Proof.
  apply reachable_invariant; [|by intros; eapply system_inv_step].
  intros s ->. split; simpl.
  - by apply proxy_inv_init.
  - intros ??. by rewrite lookup_empty.
  - intros ????. by rewrite lookup_empty.
  - by intros ??? []%elem_of_nil.
Qed.

(** Only the proxy queues requests. *)
Definition no_request (o : client_obs) : Prop :=
  match o with
  | CoMain f | CoSent _ f => match cf_kind f with Some (CHttpRequest _) => False | _ => True end
  | _ => True
  end.

Lemma client_no_request (c : client_world chan) :
  reachable (client_step ccfg) client_init c → Forall no_request (cw_log c).
Proof.
  apply (reachable_invariant _ _ (λ c, Forall no_request (cw_log c))); [by intros s ->; constructor|]. intros l s s' Hs HS.
  client_inv HS; simpl; try done; rewrite ?Forall_app; split_and!; try done; by repeat constructor.
Qed.

Lemma request_proxied (c : client_world chan) sid req :
  reachable (client_step ccfg) client_init c →
  ClientFrame sid (Some (CHttpRequest req)) ∈ client_sent (cw_log c) → CoProxy sid req ∈ cw_log c.
Proof.
  intros Hr Hin. pose proof (client_no_request c Hr) as Hno. rewrite Forall_forall in Hno.
  apply list_elem_of_omap in Hin as (o & Ho & Hf). specialize (Hno o Ho).
  destruct o; simplify_eq/=; try done. injection Hf as -> ->. done.
Qed.

(** A response a session's client has received was queued by the hub's session, in
    answer to a request this client sent. *)
Lemma response_crossed s v sid r x :
  system_inv x → sy_sessions x !! s = Some v → got_response sid r v.2 →
  ∃ req, proxied sid req v.2 ∧
    ORecv (ClientFrame sid (Some (CHttpRequest req))) ∈ w_log (t_hub v.2) ∧
    answer_to mfb cfg sc (w_log (t_hub v.2)) req r.
Proof.
  intros Hi Hs Hg. pose proof (si_session _ Hi _ _ Hs) as Hok. destruct v as [[] t]; simpl in *.
  - destruct (tunnel_inv _ _ _ _ _ Hok) as [[Hh Hc (pre & Hpre & Hd%passed_prefix) (first & _ & Hu%passed_prefix)] _].
    assert (ServerFrame sid (Some (SHttpResponse r)) ∈ sent_frames (w_log (t_hub t))) as Hsent.
    { eapply elem_of_prefix in Hd; [|apply elem_of_app; left; exact Hg].
      apply elem_of_app in Hd as [Hin|?]; [|done]. rewrite Forall_forall in Hpre. by apply Hpre in Hin. }
    apply elem_of_sent in Hsent.
    destruct (rp_sent _ _ _ _ (session_replies_inv mfb cfg sc _ (reachable_nowrap _ _ _ _ Hh)) _ _ Hsent eq_refl)
      as (req & Ha & Hans). exists req. split; [|done]. unfold asked in Ha. simpl in Ha.
    assert (ClientFrame sid (Some (CHttpRequest req)) ∈ client_sent (cw_log (t_client t))) as Hin.
    { eapply elem_of_prefix; [|exact Hu]. apply elem_of_cons. right. apply elem_of_app. left.
      apply list_elem_of_omap. by eexists. }
    by eapply request_proxied.
  - destruct Hok as [_ _ (c & Hc & Hd%passed_prefix) _]. unfold got_response in Hg. simpl in Hg.
    eapply elem_of_prefix in Hd; [|apply elem_of_app; left; exact Hg].
    apply list_elem_of_singleton in Hd as <-. done.
Qed.

(** C4: the HTTP proxy end to end.  Whatever a local caller is answered is one of
    the proxy's own errors, the answer for a session that ended, or the hub's
    answer to this caller's own request: it crossed the tunnel unchanged under its
    id, the hub received it on the session it was sent on, and the answer is the
    refusal, or the outcome of the kernel call, the hub made for it. *)
Theorem proxied_request_answered x k h resp :
  reachable system_step system_init x → px_handlers (sy_proxy x) !! k = Some h → pr_pc h = PxDone resp →
  own_answer resp ∨ resp = local_response_of sf hn hv be session_ended_response ∨
  ∃ s v sid body r, sy_sessions x !! s = Some v ∧ PSent k s sid (proxied_request (pr_req h) body) ∈ px_log (sy_proxy x) ∧
    ORecv (ClientFrame sid (Some (CHttpRequest (proxied_request (pr_req h) body)))) ∈ w_log (t_hub v.2) ∧
    answer_to mfb cfg sc (w_log (t_hub v.2)) (proxied_request (pr_req h) body) r ∧
    resp = local_response_of sf hn hv be r.
Proof.
  intros Hr Hk Hpc. pose proof (system_reach_inv x Hr) as Hi. pose proof (si_proxy _ Hi) as Hw.
  destruct (pi_done _ _ _ _ _ Hw _ _ _ Hk Hpc) as [?|(sid & r & s0 & req0 & Hs & _ & Hans & ->)]; [by left|right].
  destruct Hans as [->|[s Hin]]; [by left|right].
  destruct (si_received _ Hi _ _ _ Hin) as (v & Hv & Hg).
  destruct (response_crossed _ _ _ _ _ Hi Hv Hg) as (req & Hp & Ha & Hans).
  destruct (si_sent _ Hi _ _ _ _ Hv Hp) as [k' Hsent].
  destruct (pi_sent _ _ _ _ _ Hw _ _ _ _ Hsent) as (h' & Hk' & Hs' & body & ->).
  assert (k' = k) as -> by (by eapply (pi_inj _ _ _ _ _ Hw)). simplify_eq.
  exists s, v, sid, body, r. done.
Qed.
End http_tunnel.
