(* ===== verification/HttpProgress.v ===== *)
(** * The HTTP proxy through the tunnel: every caller is answered

    [HttpTunnel] shows that an answer is the right one; here, that there is one.
    A handler that holds a request and the sender of a session that is up always
    gets the hub's answer to this request: the handler, the session's tasks on
    both sides, the transport and the frame loop that resolves the response never
    block each other. *)
From S2P Require Import Prelude RustStd Proto ServerConfig Channel Oneshot ServerMetrics ServerHttp ServerSession SessionTrans SessionDelivery SessionStreams SessionInbound SessionHttp SessionReplies ServerHub ClientConfig ClientProxy ProxyInvariant ProxyTermination ClientSession ClientPumps ClientRoutes ClientStreams Tunnel TunnelStreams TunnelWeight TunnelIdle TunnelRequests HttpTunnel.

(** ** A handler sends its request at most once *)
Definition past_send (pc : proxy_pc) : bool :=
  match pc with PxWait _ | PxExpired _ | PxDone _ | PxGone => true | _ => false end.

Section sends.
Context {chan os : Type → Type} `{Hmpsc : Mpsc chan} `{Hone : Oneshot os} {HI : HashIter}.
Context (sf : N → option N) (hn hv : bytes → option bytes) (be : list (bytes * bytes) → option bytes).
Implicit Types (w : proxy_world chan os) (h : handler os).

(** The one step that records a request as sent. *)
Definition sends (l : proxy_label) k s sid req w : Prop :=
  l = PHandler k PTick ∧ handler_pc k w = Some (PxSend req s sid) ∧
  ∃ q q', px_sessions w !! s = Some q ∧ mpsc_send (client_http_request sid req) q = Sent q'.

Lemma handler_pc_lookup k w h : px_handlers w !! k = Some h → handler_pc k w = Some (pr_pc h).
Proof. unfold handler_pc. by intros ->. Qed.

Lemma proxy_step_sent l w w' k s sid req :
  proxy_step sf hn hv be l w = Some w' → PSent k s sid req ∈ px_log w' →
  PSent k s sid req ∈ px_log w ∨ sends l k s sid req w.
Proof.
  intros HS. proxy_inv HS; unfold pending_insert, pending_remove; simpl; repeat case_match; simpl; auto;
    intros [?|Hin%list_elem_of_singleton]%elem_of_app; (try by left); simplify_eq.
  right. split; [done|]. split; [|by eauto].
  match goal with H : px_handlers _ !! _ = Some _ |- _ => apply handler_pc_lookup in H as -> end. congruence.
Qed.

Lemma sends_past l k s sid req w w' :
  sends l k s sid req w → proxy_step sf hn hv be l w = Some w' → handler_pc k w' = Some (PxWait sid).
Proof.
  intros (-> & Hpc & q & q' & Hq & Hs) HS. unfold handler_pc in Hpc. simpl in HS.
  destruct (px_handlers w !! k) as [h|] eqn:Hk; [|done]. injection Hpc as Hpc.
  unfold handler_step in HS. rewrite Hpc, Hq, Hs in HS. injection HS as <-.
  rewrite handler_pc_log, handler_pc_set, decide_True by done. done.
Qed.

Lemma past_send_step k l w w' pc :
  proxy_step sf hn hv be l w = Some w' → handler_pc k w = Some pc → past_send pc = true →
  ∃ pc', handler_pc k w' = Some pc' ∧ past_send pc' = true.
Proof.
  intros HS Hpc Hp. proxy_inv HS; autorewrite with handler_pc; eauto; case_decide; eauto; subst.
  all: match goal with H : px_handlers _ !! _ = _ |- _ => unfold handler_pc in Hpc; rewrite H in Hpc end; simplify_eq/=.
  all: repeat match goal with H : pr_pc _ = _ |- _ => rewrite H in *; clear H end; simpl in *; try done; eauto.
Qed.

Record sends_once w : Prop := {
  so_past k s sid req : PSent k s sid req ∈ px_log w → ∃ pc, handler_pc k w = Some pc ∧ past_send pc = true;
  so_same k s sid req s' sid' req' : PSent k s sid req ∈ px_log w → PSent k s' sid' req' ∈ px_log w →
    s' = s ∧ sid' = sid ∧ req' = req }.

Lemma sends_fresh w l k s sid req s' sid' req' :
  sends_once w → sends l k s sid req w → PSent k s' sid' req' ∈ px_log w → False.
Proof. intros Hw (_ & Hpc & _) Hin. destruct (so_past _ Hw _ _ _ _ Hin) as (pc & ? & ?). by simplify_eq. Qed.

Lemma sends_once_step l w w' : sends_once w → proxy_step sf hn hv be l w = Some w' → sends_once w'.
Proof.
  intros Hw HS. split.
  - intros k s sid req Hin. destruct (proxy_step_sent _ _ _ _ _ _ _ HS Hin) as [Hold|Hnew].
    + destruct (so_past _ Hw _ _ _ _ Hold) as (pc & Hpc & Hp). by eapply past_send_step.
    + exists (PxWait sid). split; [by eapply sends_past|done].
  - intros k s sid req s' sid' req' H1 H2.
    destruct (proxy_step_sent _ _ _ _ _ _ _ HS H1) as [Hold|Hnew], (proxy_step_sent _ _ _ _ _ _ _ HS H2) as [Hold'|Hnew'].
    + by eapply (so_same _ Hw).
    + by destruct (sends_fresh _ _ _ _ _ _ _ _ _ Hw Hnew' Hold).
    + by destruct (sends_fresh _ _ _ _ _ _ _ _ _ Hw Hnew Hold').
    + destruct Hnew as (_ & Hpc & _), Hnew' as (_ & Hpc' & _). by simplify_eq.
Qed.

(** Who enters the pending map, and what leaves it. *)
Lemma proxy_step_pending l w w' sid k :
  proxy_step sf hn hv be l w = Some w' → px_pending w' !! sid = Some k →
  (px_pending w !! sid = Some k ∧ ∀ s r, l ≠ PResponse s sid r) ∨
  ∃ req s, l = PHandler k PTick ∧ handler_pc k w = Some (PxInsert req s sid).
Proof.
  intros HS. proxy_inv HS; unfold pending_insert, pending_remove; simpl; repeat case_match; simpl;
    try (intros ?; left; split; [done|congruence]); try by rewrite lookup_empty.
  all: rewrite ?lookup_insert, ?lookup_delete; repeat case_decide; subst; try done;
    try (intros ?; left; split; [done|congruence]).
  all: intros [= <-]; right; eexists _, _; split; [done|];
    match goal with H : px_handlers _ !! _ = Some _, H2 : pr_pc _ = _ |- _ =>
      apply handler_pc_lookup in H as ->; by rewrite H2 end.
Qed.
End sends.

(** ** The proxy and the sessions agree on what was sent and received *)
Section progress.
Context {chan os : Type → Type} `{Hmpsc : Mpsc chan} `{Hone : Oneshot os} `{HI : HashIter} {HU : UnicodeTables}.
Context (mfb : bytes → option bytes) (cfg : server_config) (sc : spoke_config) (ccfg : client_config).
Context (sf : N → option N) (hn hv : bytes → option bytes) (be : list (bytes * bytes) → option bytes).
Implicit Types (x : system chan os) (t : tunnel chan) (w : proxy_world chan os).

Abbreviation system_step := (system_step mfb cfg sc ccfg sf hn hv be).
Abbreviation system_inv := (system_inv mfb cfg sc ccfg sf hn hv be).
Abbreviation step_proxy := (proxy_step_nowrap sf hn hv be).

Record exchange_inv x : Prop := {
  xi_sent k s sid req : PSent k s sid req ∈ px_log (sy_proxy x) →
    ∃ v, sy_sessions x !! s = Some v ∧ proxied sid req v.2;
  xi_received s v sid r : sy_sessions x !! s = Some v → got_response sid r v.2 →
    PReceived s sid r ∈ px_log (sy_proxy x);
  xi_pending sid k s r : px_pending (sy_proxy x) !! sid = Some k → PReceived s sid r ∉ px_log (sy_proxy x);
  xi_once : sends_once (sy_proxy x) }.

(** A response can only have come in after its request was sent. *)
Lemma received_past_send x s sid r k h :
  system_inv x → exchange_inv x → PReceived s sid r ∈ px_log (sy_proxy x) →
  px_handlers (sy_proxy x) !! k = Some h → pr_sid h = Some sid →
  past_send (pr_pc h) = true ∧ ∃ v req, sy_sessions x !! s = Some v ∧
    PSent k s sid req ∈ px_log (sy_proxy x) ∧
    ORecv (ClientFrame sid (Some (CHttpRequest req))) ∈ w_log (t_hub v.2) ∧
    answer_to mfb cfg sc (w_log (t_hub v.2)) req r.
Proof.
  intros Hi Hx Hr Hk Hsid. destruct (si_received _ _ _ _ _ _ _ _ _ Hi _ _ _ Hr) as (v & Hv & Hg).
  destruct (response_crossed _ _ _ _ _ _ _ _ _ _ _ _ _ Hi Hv Hg) as (req & Hp & Ha & Hans).
  destruct (si_sent _ _ _ _ _ _ _ _ _ Hi _ _ _ _ Hv Hp) as [k' Hs].
  pose proof (si_proxy _ _ _ _ _ _ _ _ _ Hi) as Hw.
  destruct (pi_sent _ _ _ _ _ Hw _ _ _ _ Hs) as (h' & Hk' & Hsid' & _).
  assert (k' = k) as -> by (by eapply (pi_inj _ _ _ _ _ Hw)).
  destruct (so_past _ (xi_once _ Hx) _ _ _ _ Hs) as (pc & Hpc & Hp'). apply handler_pc_lookup in Hk. simplify_eq.
  split; [done|]. by exists v, req.
Qed.

Lemma pending_step x pl w' :
  system_inv x → exchange_inv x → step_proxy pl (sy_proxy x) = Some w' →
  sends_once w' ∧ ∀ sid k s r, px_pending w' !! sid = Some k → PReceived s sid r ∉ px_log w'.
Proof.
  intros Hi Hx [Hn HS]%proxy_nowrap_step. split; [eapply sends_once_step; [apply (xi_once _ Hx)|exact HS]|].
  intros sid k s r Hp Hin. destruct (proxy_step_log _ _ _ _ _ _ _ HS) as (d & Hd & Hdr). rewrite Hd in Hin.
  apply elem_of_app in Hin as [Hin|Hin].
  - destruct (proxy_step_pending _ _ _ _ _ _ _ _ _ HS Hp) as [[Hold _]|(req & s' & -> & Hpc)];
      [by eapply (xi_pending _ Hx)|].
    unfold handler_pc in Hpc. destruct (px_handlers (sy_proxy x) !! k) as [h|] eqn:Hk; [|done]. injection Hpc as Hpc.
    pose proof (pi_pc _ _ _ _ _ (si_proxy _ _ _ _ _ _ _ _ _ Hi) _ _ Hk) as Hsid. rewrite Hpc in Hsid.
    destruct (received_past_send _ _ _ _ _ _ Hi Hx Hin Hk Hsid) as [Hpast _]. by rewrite Hpc in Hpast.
  - apply Hdr in Hin as ->. destruct (proxy_step_pending _ _ _ _ _ _ _ _ _ HS Hp) as [[_ Hne]|(? & ? & [=] & _)].
    by eapply Hne.
Qed.

(** A step of the proxy, with session [s] becoming [v']. *)
Lemma exchange_inv_update x w' s v' pl :
  system_inv x → exchange_inv x → step_proxy pl (sy_proxy x) = Some w' →
  (∀ v sid req, sy_sessions x !! s = Some v → proxied sid req v.2 → proxied sid req v'.2) →
  (∀ k s' sid req, sends pl k s' sid req (sy_proxy x) → s' = s ∧ proxied sid req v'.2) →
  (∀ sid r, got_response sid r v'.2 →
     (∃ v, sy_sessions x !! s = Some v ∧ got_response sid r v.2) ∨ pl = PResponse s sid r) →
  exchange_inv (set_session_of s v' (set_proxy w' x)).
Proof.
  intros Hi Hx HP Hpr Hsd Hgot. destruct (pending_step _ _ _ Hi Hx HP) as [Honce Hpend].
  apply proxy_nowrap_step in HP as [Hn HP]. destruct (proxy_step_log _ _ _ _ _ _ _ HP) as (d & Hd & _).
  split; simpl; [| |done|done].
  - intros k s0 sid req Hin. destruct (proxy_step_sent _ _ _ _ _ _ _ _ _ _ _ HP Hin) as [Hold|Hnew].
    + destruct (xi_sent _ Hx _ _ _ _ Hold) as (v & Hv & Hp). rewrite lookup_insert. case_decide; [subst|by eauto].
      exists v'. split; [done|]. by eapply Hpr.
    + destruct (Hsd _ _ _ _ Hnew) as [-> Hp]. exists v'. by rewrite lookup_insert_eq.
  - intros s0 v sid r. rewrite lookup_insert. case_decide as Hs; [intros [= <-] Hg; subst|].
    + destruct (Hgot _ _ Hg) as [(v & Hv & Hg')| ->].
      * rewrite Hd. apply elem_of_app. left. by eapply (xi_received _ Hx).
      * rewrite (proxy_response_log _ _ _ _ _ _ _ _ _ HP). apply elem_of_app. right. by apply list_elem_of_singleton.
    + intros Hv Hg. rewrite Hd. apply elem_of_app. left. by eapply (xi_received _ Hx).
Qed.

Lemma exchange_inv_proxy x w' pl :
  system_inv x → exchange_inv x → step_proxy pl (sy_proxy x) = Some w' →
  (∀ k s sid req, ¬ sends pl k s sid req (sy_proxy x)) → exchange_inv (set_proxy w' x).
Proof.
  intros Hi Hx HP Hno. destruct (pending_step _ _ _ Hi Hx HP) as [Honce Hpend].
  apply proxy_nowrap_step in HP as [Hn HP]. destruct (proxy_step_log _ _ _ _ _ _ _ HP) as (d & Hd & _).
  split; simpl; [| |done|done].
  - intros k s sid req Hin. destruct (proxy_step_sent _ _ _ _ _ _ _ _ _ _ _ HP Hin) as [Hold|Hnew].
    + by eapply (xi_sent _ Hx).
    + by destruct (Hno _ _ _ _ Hnew).
  - intros s v sid r Hv Hg. rewrite Hd. apply elem_of_app. left. by eapply (xi_received _ Hx).
Qed.

Lemma exchange_inv_session x s v v' :
  exchange_inv x → sy_sessions x !! s = Some v →
  (∀ sid req, proxied sid req v.2 → proxied sid req v'.2) →
  (∀ sid r, got_response sid r v'.2 → got_response sid r v.2) → exchange_inv (set_session_of s v' x).
Proof.
  intros Hx Hv Hp Hg. split; simpl; [| |apply Hx|apply Hx].
  - intros k s' sid req Hin. destruct (xi_sent _ Hx _ _ _ _ Hin) as (u & Hu & Hpu). rewrite lookup_insert.
    case_decide; [subst|by eauto]. simplify_eq. eauto.
  - intros s' u sid r. rewrite lookup_insert. case_decide; [intros [= <-] Hg'; subst|by apply (xi_received _ Hx)].
    eapply (xi_received _ Hx); [exact Hv|]. by apply Hg.
Qed.

(** What a step of one session adds. *)
Lemma tunnel_step_got l t t' sid r :
  tunnel_step mfb cfg sc ccfg l t = Some t' → got_response sid r t' →
  got_response sid r t ∨ (l = TDownRecv ∧ ∃ down, t_down t = ServerFrame sid (Some (SHttpResponse r)) :: down).
Proof.
  intros HS. unfold got_response. destruct l as [sl|cl| | | |h]; simpl in HS; repeat case_match; try discriminate HS.
  1,3,6: apply on_hub_Some in HS as (? & _ & _ & ->); by left.
  all: apply on_client_Some in HS as (? & HS & ->); cbn [set_wires t_client t_hub t_down] in *; rewrite (client_step_recv _ _ _ _ HS).
  - intros [?|Hin]%elem_of_app; [by left|]. destruct cl as [[]| | | |]; simpl in *; try done; by apply elem_of_nil in Hin.
  - intros [?|Hin%list_elem_of_singleton]%elem_of_app; [by left|right]. subst. by eauto.
  - rewrite app_nil_r. by left.
Qed.

Lemma tunnel_step_proxied l t t' sid req :
  tunnel_step mfb cfg sc ccfg l t = Some t' → proxied sid req t → proxied sid req t'.
Proof.
  intros HS. unfold proxied. destruct (tunnel_step_client _ _ _ _ _ _ _ HS) as [->|(cl & Hcl & _)]; [done|].
  eapply client_step_grows in Hcl as (d & -> & _). intros ?. apply elem_of_app. by left.
Qed.

Lemma tunnel_step_sends t t' sid req q :
  mpsc_send (client_http_request sid req) (cw_hub_tx (t_client t)) = Sent q →
  tunnel_step mfb cfg sc ccfg (TClient (CProxy sid req)) t = Some t' → proxied sid req t'.
Proof.
  intros Hs HS. simpl in HS. apply on_client_Some in HS as (c & HS & ->). unfold proxied. simpl in *.
  unfold hub_send in HS. rewrite Hs in HS. injection HS as <-. simpl. apply elem_of_app. right.
  by apply list_elem_of_singleton.
Qed.

Lemma proxy_local_sends pl w k s sid req : proxy_local pl w = true → ¬ sends pl k s sid req w.
Proof.
  intros Hl (-> & Hpc & q & q' & Hq & Hs). unfold handler_pc in Hpc. simpl in Hl.
  destruct (px_handlers w !! k) as [h|]; [|done]. injection Hpc as Hpc. by rewrite Hpc, Hq, Hs in Hl.
Qed.

Lemma exchange_inv_step l x x' :
  system_inv x → exchange_inv x → system_step l x = Some x' → exchange_inv x'.
Proof.
  intros Hi Hx HS. destruct l as [pl|s nonce issued n|s tl|s|k s|s]; unfold HttpTunnel.system_step in HS; cbv beta iota zeta in HS.
  - destruct (proxy_local _ _) eqn:Hl; [|done]. destruct (step_proxy _ _) as [w'|] eqn:HP; [|done].
    injection HS as <-. eapply exchange_inv_proxy; [done..|]. intros *. by apply proxy_local_sends.
  - destruct (sy_sessions x !! s) eqn:Hs; [done|]. destruct (fresh_session _ _ _ _) as [t|] eqn:Hf; [|done].
    destruct (step_proxy _ _) as [w'|] eqn:HP; [|done]. injection HS as <-.
    eapply exchange_inv_update; [done..|exact HP| | |].
    + intros v sid req Hv. congruence.
    + by intros k s' sid req (? & _).
    + intros sid r. unfold got_response. simpl. rewrite (fresh_logs _ _ _ _ _ Hf). by intros []%elem_of_nil.
  - destruct (sy_sessions x !! s) as [[v t]|] eqn:Hs; [|done]. destruct (session_local _ _ _) eqn:Hl; [|done].
    destruct (tunnel_step _ _ _ _ _ _) as [t'|] eqn:HT; [|done]. injection HS as <-.
    eapply exchange_inv_session; [done|exact Hs| |].
    + intros sid req. by eapply tunnel_step_proxied.
    + intros sid r Hg. destruct (tunnel_step_got _ _ _ _ _ HT Hg) as [?|(-> & down & Hd)]; [done|].
      simpl in Hl. by rewrite Hd in Hl.
  - destruct (sy_sessions x !! s) as [[[] t]|] eqn:Hs; [done| |done]. destruct (t_up t) as [|f up]; [done|].
    destruct (verify_first _ _) as [[hs sc']|]; [|done]. destruct (decide _); [|done]. injection HS as <-.
    by eapply exchange_inv_session; [done|exact Hs|..].
  - destruct (sy_sessions x !! s) as [[v t]|] eqn:Hs; [|done]. destruct (px_handlers _ !! k) as [h|] eqn:Hk; [|done].
    destruct (pr_pc h) as [| | | |req s' sid| | | | |] eqn:Hpc; try done.
    destruct (px_sessions _ !! s) as [q|] eqn:Hq; [|done]. case_bool_decide; [subst s'|done].
    destruct (mpsc_send _ q) eqn:Hsend; try done. destruct (mpsc_send _ (cw_hub_tx _)) eqn:Hsend2; try done.
    destruct (step_proxy _ _) as [w'|] eqn:HP; [|done].
    destruct (tunnel_step _ _ _ _ _ _) as [t'|] eqn:HT; [|done]. injection HS as <-.
    eapply exchange_inv_update; [done..|exact HP| | |].
    + intros u sid' req'. rewrite Hs. intros [= <-]. simpl. by eapply tunnel_step_proxied.
    + intros k' s' sid' req' ([= <-] & Hpc' & _). apply handler_pc_lookup in Hk. rewrite Hk, Hpc in Hpc'. simplify_eq.
      split; [done|]. by eapply tunnel_step_sends.
    + intros sid' r Hg. destruct (tunnel_step_got _ _ _ _ _ HT Hg) as [?|[[=] _]]. left. by exists (v, t).
  - destruct (sy_sessions x !! s) as [[v t]|] eqn:Hs; [|done]. destruct (t_down t) as [|[sid kd] down] eqn:Hd; [done|].
    destruct kd as [[| | | | |r]|]; try done. destruct (step_proxy _ _) as [w'|] eqn:HP; [|done].
    destruct (tunnel_step _ _ _ _ _ _) as [t'|] eqn:HT; [|done]. injection HS as <-.
    eapply exchange_inv_update; [done..|exact HP| | |].
    + intros u sid' req'. rewrite Hs. intros [= <-]. simpl. by eapply tunnel_step_proxied.
    + by intros k s' sid' req' (? & _).
    + intros sid' r' Hg. destruct (tunnel_step_got _ _ _ _ _ HT Hg) as [?|(_ & down' & Hd')]; [left; by exists (v, t)|right].
      rewrite Hd in Hd'. by injection Hd' as -> -> _.
Qed.

Lemma exchange_reach x : reachable system_step system_init x → system_inv x ∧ exchange_inv x.
Proof.
  intros Hr. induction Hr as [x ->|l x x' Hr [Hi Hx] HS].
  - split; [by apply (system_reach_inv mfb cfg sc ccfg), reachable_init|]. split; simpl.
    + by intros ???? []%elem_of_nil.
    + intros ????. by rewrite lookup_empty.
    + intros ????. by rewrite lookup_empty.
    + split; [by intros ???? []%elem_of_nil|by intros ??????? []%elem_of_nil].
  - split; [by eapply system_inv_step|by eapply exchange_inv_step].
Qed.

Lemma session_reachable x s t :
  reachable system_step system_init x → sy_sessions x !! s = Some (true, t) →
  reachable (tunnel_step mfb cfg sc ccfg) (tunnel_init sc ccfg) t.
Proof. intros Hr Hs. exact (si_session _ _ _ _ _ _ _ _ _ (proj1 (exchange_reach _ Hr)) _ _ Hs). Qed.

(** ** The steps that serve handler [k] on session [s] *)
Section serving.
Context (cap k s : nat).

(** The session's own steps, the steps of its frame loop and of tonic that involve
    the proxy, and the steps of the handler without the timeout. *)
Definition serving_label (l : system_label) x : bool :=
  match l with
  | YTunnel s' tl =>
      bool_decide (s' = s) && internal tl &&
      match sy_sessions x !! s with Some (_, t) => has_room cap tl t | None => false end
  | YResponse s' => bool_decide (s' = s)
  | YSend k' s' => bool_decide (k' = k) && bool_decide (s' = s)
  | YProxy (PHandler k' PTick) => bool_decide (k' = k)
  | YProxy (PTake s') => bool_decide (s' = s)
  | _ => false
  end.
Definition serving_step (l : system_label) x : option (system chan os) :=
  if serving_label l x then system_step l x else None.

Inductive served_by x x' : Prop :=
| sb_tunnel v t t' tl : sy_sessions x !! s = Some (v, t) → own_step mfb cfg sc ccfg cap tl t = Some t' →
    x' = set_session_of s (v, t') x → served_by x x'
| sb_response v t t' sid r w' : sy_sessions x !! s = Some (v, t) →
    step_proxy (PResponse s sid r) (sy_proxy x) = Some w' → own_step mfb cfg sc ccfg cap TDownRecv t = Some t' →
    x' = set_session_of s (v, t') (set_proxy w' x) → served_by x x'
| sb_send v t t' h req sid q q' w' tx : sy_sessions x !! s = Some (v, t) →
    px_handlers (sy_proxy x) !! k = Some h → pr_pc h = PxSend req s sid →
    px_sessions (sy_proxy x) !! s = Some q → mpsc_send (client_http_request sid req) q = Sent q' →
    mpsc_send (client_http_request sid req) (cw_hub_tx (t_client t)) = Sent tx →
    step_proxy (PHandler k PTick) (sy_proxy x) = Some w' →
    tunnel_step mfb cfg sc ccfg (TClient (CProxy sid req)) t = Some t' →
    x' = set_session_of s (v, t') (set_proxy w' x) → served_by x x'
| sb_handler w' : proxy_local (PHandler k PTick) (sy_proxy x) = true →
    step_proxy (PHandler k PTick) (sy_proxy x) = Some w' → x' = set_proxy w' x → served_by x x'
| sb_take w' : step_proxy (PTake s) (sy_proxy x) = Some w' → x' = set_proxy w' x → served_by x x'.

Lemma serving_step_Some l x x' :
  serving_step l x = Some x' → system_step l x = Some x' ∧ served_by x x'.
Proof.
  unfold serving_step. destruct (serving_label l x) eqn:Hl; [|done]. intros HS. split; [done|].
  destruct l as [pl|s' nonce issued n|s' tl|s'|k' s'|s']; unfold HttpTunnel.system_step in HS; cbv beta iota zeta in HS;
    simpl in Hl; try done.
  - destruct (proxy_local pl _) eqn:Hloc; [|done]. destruct (step_proxy _ _) as [w'|] eqn:HP; [|done].
    injection HS as <-. destruct pl as [|k' []| | | | | | |s'|]; try done; apply bool_decide_eq_true in Hl as ->;
      [by eapply sb_handler|by eapply sb_take].
  - apply andb_true_iff in Hl as [[->%bool_decide_eq_true Hint]%andb_true_iff Hroom].
    destruct (sy_sessions x !! s) as [[v t]|] eqn:Hs; [|done]. destruct (session_local _ _ _); [|done].
    destruct (tunnel_step _ _ _ _ _ _) as [t'|] eqn:HT; [|done]. injection HS as <-.
    eapply (sb_tunnel _ _ v t t' tl); [done| |done]. unfold own_step. by rewrite Hint, Hroom.
  - apply andb_true_iff in Hl as [->%bool_decide_eq_true ->%bool_decide_eq_true].
    destruct (sy_sessions x !! s) as [[v t]|] eqn:Hs; [|done]. destruct (px_handlers _ !! k) as [h|] eqn:Hk; [|done].
    destruct (pr_pc h) as [| | | |req s' sid| | | | |] eqn:Hpc; try done.
    destruct (px_sessions _ !! s) as [q|] eqn:Hq; [|done]. case_bool_decide; [subst s'|done].
    destruct (mpsc_send _ q) eqn:Hsend; try done. destruct (mpsc_send _ (cw_hub_tx _)) eqn:Hsend2; try done.
    destruct (step_proxy _ _) as [w'|] eqn:HP; [|done].
    destruct (tunnel_step _ _ _ _ _ _) as [t'|] eqn:HT; [|done]. injection HS as <-. by eapply sb_send.
  - apply bool_decide_eq_true in Hl as ->.
    destruct (sy_sessions x !! s) as [[v t]|] eqn:Hs; [|done]. destruct (t_down t) as [|[sid kd] down] eqn:Hd; [done|].
    destruct kd as [[| | | | |r]|]; try done. destruct (step_proxy _ _) as [w'|] eqn:HP; [|done].
    destruct (tunnel_step _ _ _ _ _ _) as [t'|] eqn:HT; [|done]. injection HS as <-.
    eapply sb_response; [done|exact HP| |done]. done.
Qed.

(** ** Serving comes to an end *)
Definition queue_length w : nat :=
  match px_sessions w !! s with Some q => length (mpsc_queued q) | None => 0 end.

Definition effort x : nat :=
  match sy_sessions x !! s with Some (_, t) => weight t | None => 0 end
  + queue_length (sy_proxy x) + 10 * handler_rank k (sy_proxy x).

Lemma send_request_weight t t' sid req tx :
  mpsc_send (client_http_request sid req) (cw_hub_tx (t_client t)) = Sent tx →
  tunnel_step mfb cfg sc ccfg (TClient (CProxy sid req)) t = Some t' → weight t' = weight t + 8.
Proof.
  intros Hs HS. simpl in HS. apply on_client_Some in HS as (c & HS & ->). simpl in HS. unfold hub_send in HS.
  rewrite Hs in HS. injection HS as <-. apply (send_weight up_weight) in Hs as [Hq _].
  unfold weight, client_weight. simpl. rewrite Hq. unfold up_weight. simpl. lia.
Qed.

Lemma tick_queue w w' :
  proxy_step sf hn hv be (PHandler k PTick) w = Some w' → queue_length w' ≤ queue_length w + 1.
Proof.
  simpl. destruct (px_handlers w !! k) as [h|]; [|done]. unfold handler_step, fetch_add1, queue_length.
  destruct (pr_pc h); try done; simpl; intros HS.
  all: repeat match type of HS with
    | context [match ?y with _ => _ end] => destruct y eqn:?; try discriminate HS end; simplify_eq;
    rewrite ?(proj2 (insert_fields _ _ _)), ?(proj2 (remove_fields _ _ _)); simpl; try lia.
  rewrite lookup_insert. case_decide; subst; [|lia].
  match goal with H : mpsc_send _ _ = Sent _ |- _ => apply (send_weight up_weight) in H as [_ Hq] end.
  repeat case_match; simplify_eq; lia.
Qed.

Lemma effort_decreases x x' : served_by x x' → effort x' < effort x.
Proof.
  assert (∀ pl w w', step_proxy pl w = Some w' →
    (if of_handler k pl then 1 else 0) + handler_rank k w' ≤ handler_rank k w) as Hrank.
  { intros pl w w' [_ HP]%proxy_nowrap_step. by eapply handler_rank_step. }
  unfold effort. intros [v t t' tl Hs HT ->|v t t' sid r w' Hs HP HT ->|v t t' h req sid q q' w' tx Hs Hk Hpc Hq Hq' Htx HP HT ->
    |w' Hl HP ->|w' HP ->]; simpl; rewrite ?lookup_insert_eq, ?Hs.
  - apply own_step_weight in HT. lia.
  - apply own_step_weight in HT. apply Hrank in HP as Hr. simpl in Hr.
    apply proxy_nowrap_step in HP as [_ [= <-]]. unfold queue_length. simpl. rewrite (proj2 (remove_fields _ _ _)). lia.
  - apply (send_request_weight _ _ _ _ _ Htx) in HT. apply Hrank in HP as Hr. simpl in Hr.
    rewrite bool_decide_true in Hr by done. apply proxy_nowrap_step in HP as [_ HP]. apply tick_queue in HP. lia.
  - apply Hrank in HP as Hr. simpl in Hr. rewrite bool_decide_true in Hr by done.
    apply proxy_nowrap_step in HP as [_ HP]. apply tick_queue in HP. lia.
  - apply Hrank in HP as Hr. simpl in Hr. apply proxy_nowrap_step in HP as [_ HP]. simpl in HP. unfold queue_length.
    destruct (px_sessions _ !! s) as [q|]; [|done]. destruct (mpsc_recv q) as [[f q']|] eqn:Hrv; [|done].
    injection HP as <-. simpl. rewrite lookup_insert_eq. apply (take_weight up_weight) in Hrv as [_ ->].
    change (handler_rank k (px_set_session s q' (sy_proxy x))) with (handler_rank k (sy_proxy x)). lia.
Qed.

Lemma serving_bounded ls x x' : exec serving_step ls x = Some x' → length ls + effort x' ≤ effort x.
Proof.
  revert x. induction ls as [|l ls IH]; intros x He; simplify_eq/=; [done|].
  destruct (serving_step l x) as [x1|] eqn:HS; [|done]. apply serving_step_Some in HS as [_ HS%effort_decreases].
  specialize (IH _ He). lia.
Qed.

(** ** A handler on its way

    Handler [k] holds request [req] and the sender of session [s], or has sent [req]
    and not been answered by anything but a response received on [s]. *)
Definition on_course (req : http_request) w (h : handler os) : Prop :=
  match pr_pc h with
  | PxHub req' => req' = req ∧ px_hub_tx w = Some s
  | PxId req' s' | PxInsert req' s' _ => req' = req ∧ s' = s
  | PxSend req' s' sid => req' = req ∧ s' = s ∧ px_pending w !! sid = Some k
  | PxWait sid =>
      PSent k s sid req ∈ px_log w ∧
      (px_pending w !! sid = Some k ∨
       ∃ r, oneshot_poll (pr_slot h) = OsValue r ∧ PReceived s sid r ∈ px_log w)
  | PxDone resp =>
      ∃ sid r, PSent k s sid req ∈ px_log w ∧ PReceived s sid r ∈ px_log w ∧
        resp = local_response_of sf hn hv be r
  | _ => False
  end.

(** The counter does not wrap before the handler has its id. *)
Definition ids_left w (h : handler os) : Prop :=
  (px_counter w + (match pr_pc h with PxHub _ | PxId _ _ => 2 | _ => 1 end) < u64_modulus)%N.

Lemma tick_on_course req w w' h :
  proxy_inv sf hn hv be w → px_handlers w !! k = Some h → on_course req w h → ids_left w h →
  (∀ q, px_sessions w !! s = Some q → chan_up q) → proxy_local (PHandler k PTick) w = true →
  proxy_step sf hn hv be (PHandler k PTick) w = Some w' →
  px_sessions w' = px_sessions w ∧ ∃ h', px_handlers w' !! k = Some h' ∧ on_course req w' h' ∧ ids_left w' h'.
Proof.
  intros Hw Hk Hc Hids Hq Hl HS. simpl in HS, Hl. rewrite Hk in HS, Hl. unfold on_course in Hc. unfold ids_left in Hids.
  unfold handler_step in HS.
  destruct (pr_pc h) as [|req'|req' s'|req' s' sid|req' s' sid| |sid| |resp|] eqn:Hpc; try done; simpl in HS.
  - destruct Hc as [-> Hs]. rewrite Hs in HS. injection HS as <-. split; [done|].
    eexists. split; [apply lookup_insert_eq|done].
  - destruct Hc as [-> ->]. injection HS as <-. split; [done|]. eexists. split; [apply lookup_insert_eq|].
    split; [done|]. unfold ids_left, wrap_u64. simpl. rewrite N.mod_small; lia.
  - destruct Hc as [-> ->]. injection HS as <-. split; [by rewrite (proj2 (insert_fields _ _ _))|].
    assert (px_pending w !! sid = None) as Hfresh.
    { eapply (pending_fresh _ _ _ _ _ k h); [done|done| |by rewrite Hpc].
      pose proof (pi_pc _ _ _ _ _ Hw _ _ Hk) as Hp. by rewrite Hpc in Hp. }
    unfold pending_insert. simpl. rewrite Hfresh. eexists. split; [apply lookup_insert_eq|].
    split; [|done]. split_and!; [done|done|apply lookup_insert_eq].
  - destruct Hc as (-> & -> & _). destruct (px_sessions w !! s) as [q|] eqn:Hs; [|done].
    destruct (mpsc_send _ q) eqn:Hsend; try done. apply mpsc_send_SendClosed in Hsend.
    destruct (Hq q eq_refl). congruence.
  - destruct (pi_live _ _ _ _ _ Hw k h sid Hk) as [_ Hlive]; [by rewrite Hpc|].
    destruct Hc as [Hsent Hc]. destruct (oneshot_poll (pr_slot h)) as [|r|] eqn:Hpoll; [done| |].
    + injection HS as <-. split; [done|]. eexists. split; [apply lookup_insert_eq|]. split; [|done].
      destruct Hlive as [[_ ?]|[Hn _]]; [done|]. destruct Hc as [?|(r' & [= <-] & Hin)]; [congruence|].
      simpl. by exists sid, r.
    + by destruct Hlive as [[_ ?]|[_ (? & ? & _)]].
Qed.

Lemma send_on_course req w w' h req' s' sid q q' :
  px_handlers w !! k = Some h → on_course req w h → ids_left w h → pr_pc h = PxSend req' s' sid →
  px_sessions w !! s = Some q → chan_up q → mpsc_send (client_http_request sid req') q = Sent q' →
  proxy_step sf hn hv be (PHandler k PTick) w = Some w' →
  (∃ q1, px_sessions w' !! s = Some q1 ∧ chan_up q1) ∧
  ∃ h', px_handlers w' !! k = Some h' ∧ on_course req w' h' ∧ ids_left w' h'.
Proof.
  intros Hk Hc Hids Hpc Hq Hup Hs HS. unfold on_course in Hc. unfold ids_left in Hids. rewrite Hpc in Hc, Hids.
  destruct Hc as (-> & -> & Hp). simpl in HS. rewrite Hk in HS. unfold handler_step in HS. rewrite Hpc, Hq, Hs in HS.
  injection HS as <-. simpl. split.
  - exists q'. rewrite lookup_insert_eq. split; [done|]. by eapply chan_up_send.
  - eexists. split; [apply lookup_insert_eq|]. split; [|done]. split; simpl; [|by left].
    apply elem_of_app. right. by apply list_elem_of_singleton.
Qed.

Lemma on_course_log req w w' h :
  on_course req w h → px_hub_tx w' = px_hub_tx w → (∃ d, px_log w' = px_log w ++ d) →
  (∀ sid, px_pending w !! sid = Some k → px_pending w' !! sid = Some k) → on_course req w' h.
Proof.
  intros Hc Hh [d Hd] Hp. assert (∀ o, o ∈ px_log w → o ∈ px_log w') as Hl.
  { intros o ?. rewrite Hd. apply elem_of_app. by left. }
  unfold on_course in *. destruct (pr_pc h); rewrite ?Hh; try done.
  - naive_solver.
  - naive_solver.
  - naive_solver.
Qed.

Lemma response_on_course req x x' h sid r :
  system_inv x → system_inv x' → exchange_inv x' → px_handlers (sy_proxy x) !! k = Some h →
  on_course req (sy_proxy x) h → ids_left (sy_proxy x) h →
  proxy_step sf hn hv be (PResponse s sid r) (sy_proxy x) = Some (sy_proxy x') →
  ∃ h', px_handlers (sy_proxy x') !! k = Some h' ∧ on_course req (sy_proxy x') h' ∧ ids_left (sy_proxy x') h'.
Proof.
  intros Hi Hi' Hx' Hk Hc Hids HS. simpl in HS. injection HS as HS.
  pose proof (si_proxy _ _ _ _ _ _ _ _ _ Hi) as Hw.
  destruct (decide (px_pending (sy_proxy x) !! sid = Some k)) as [Hp|Hp].
  - rewrite (pending_remove_inv _ _ _ k) in HS by done.
    assert (px_handlers (sy_proxy x') !! k = Some (set_slot (oneshot_send r) h)) as Hk'.
    { by rewrite <-HS; simpl; rewrite lookup_alter_eq, Hk. }
    destruct (pi_pending _ _ _ _ _ Hw _ _ Hp) as (h0 & Hk0 & Hsid & Hown). simplify_eq.
    assert (PReceived s sid r ∈ px_log (sy_proxy x')) as Hrec.
    { rewrite <-HS. simpl. apply elem_of_app. right. by apply list_elem_of_singleton. }
    destruct (received_past_send _ _ _ _ _ _ Hi' Hx' Hrec Hk' Hsid) as [Hpast _].
    eexists. split; [exact Hk'|]. unfold on_course, ids_left in *. simpl in *.
    pose proof (pi_pc _ _ _ _ _ Hw _ _ Hk) as Hpc. rewrite <-HS. simpl.
    destruct (pr_pc h) as [| | | | | |sid'| | |] eqn:Hpc'; try done. simpl in Hpc.
    assert (sid' = sid) as -> by congruence.
    split; [split; [apply elem_of_app; left; apply Hc|right]|done].
    exists r. split; [|apply elem_of_app; right; by apply list_elem_of_singleton].
    destruct (pi_live _ _ _ _ _ Hw k h sid Hk) as [Ha [[_ Hpo]|[? _]]]; [by rewrite Hpc'| |congruence].
    by apply oneshot_send_alive.
  - exists h. unfold pending_remove in HS. destruct (px_pending (sy_proxy x) !! sid) as [k1|] eqn:Hp1.
    + rewrite <-HS. simpl. rewrite lookup_alter_ne by congruence. split; [done|]. split; [|done].
      eapply on_course_log; [done|done|by eexists|]. intros sid0 H0. simpl. rewrite lookup_delete_ne; [done|congruence].
    + rewrite <-HS. split; [done|]. split; [|done]. eapply on_course_log; [done|done|by eexists|done].
Qed.

(** ** What serving keeps *)
Record in_service (req : http_request) x : Prop := {
  sv_reach : reachable system_step system_init x;
  sv_session : ∃ t, sy_sessions x !! s = Some (true, t) ∧ live mfb cfg sc ccfg t;
  sv_queue : ∃ q, px_sessions (sy_proxy x) !! s = Some q ∧ chan_up q;
  sv_handler : ∃ h, px_handlers (sy_proxy x) !! k = Some h ∧ on_course req (sy_proxy x) h ∧ ids_left (sy_proxy x) h }.

Lemma live_sends t t' sid req tx :
  live mfb cfg sc ccfg t → mpsc_send (client_http_request sid req) (cw_hub_tx (t_client t)) = Sent tx →
  tunnel_step mfb cfg sc ccfg (TClient (CProxy sid req)) t = Some t' → live mfb cfg sc ccfg t'.
Proof.
  intros [Hr Hh [Hc Hm]] Hs HS. pose proof (reachable_step _ _ _ _ _ Hr HS) as Hr'. simpl in HS.
  apply on_client_Some in HS as (c & HS & ->). simpl in HS. unfold hub_send in HS. rewrite Hs in HS. injection HS as <-.
  split; [done|done|]. split; [by eapply chan_up_send|done].
Qed.

Lemma in_service_step req l x x' : in_service req x → serving_step l x = Some x' → in_service req x'.
Proof.
  intros [Hr (t0 & Ht & Hl) (q0 & Hq & Hup) (h0 & Hk & Hc & Hids)] (HS & Hby)%serving_step_Some.
  pose proof (reachable_step _ _ _ _ _ Hr HS) as Hr'.
  destruct (exchange_reach _ Hr) as [Hi Hx], (exchange_reach _ Hr') as [Hi' Hx'].
  pose proof (si_proxy _ _ _ _ _ _ _ _ _ Hi) as Hw.
  destruct Hby as [v t t' tl Hs HT ->|v t t' sid r w' Hs HP HT ->|v t t' h req' sid q q' w' tx Hs Hh Hpc Hq' Hq1 Htx HP HT ->
    |w' Hloc HP ->|w' HP ->]; simplify_eq; (split; [done|..]); simpl; rewrite ?lookup_insert_eq; eauto.
  - eexists. split; [done|]. by eapply live_step.
  - eexists. split; [done|]. by eapply live_step.
  - exists q0. apply proxy_nowrap_step in HP as [_ [= <-]]. simpl. by rewrite (proj2 (remove_fields _ _ _)).
  - apply proxy_nowrap_step in HP as [_ HP].
    eapply (response_on_course req x (set_session_of s (true, t') (set_proxy w' x))); done.
  - eexists. split; [done|]. by eapply live_sends.
  - apply proxy_nowrap_step in HP as [_ HP]. eapply (send_on_course req (sy_proxy x) w'); done.
  - apply proxy_nowrap_step in HP as [_ HP]. eapply (send_on_course req (sy_proxy x) w'); done.
  - apply proxy_nowrap_step in HP as [_ HP].
    destruct (tick_on_course req _ w' _ Hw Hk Hc Hids) as [-> _]; [congruence|done|done|by eauto].
  - apply proxy_nowrap_step in HP as [_ HP].
    destruct (tick_on_course req _ w' _ Hw Hk Hc Hids) as [_ ?]; [congruence|done|done|done].
  - apply proxy_nowrap_step in HP as [_ HP]. simpl in HP. rewrite Hq in HP.
    destruct (mpsc_recv q0) as [[f q]|] eqn:Hrv; [|done]. injection HP as <-. exists q. simpl.
    rewrite lookup_insert_eq. split; [done|]. by eapply chan_up_recv.
  - apply proxy_nowrap_step in HP as [_ HP]. simpl in HP. rewrite Hq in HP.
    destruct (mpsc_recv q0) as [[f q]|] eqn:Hrv; [|done]. injection HP as <-. exists h0. done.
Qed.

Lemma in_service_exec req ls x x' : in_service req x → exec serving_step ls x = Some x' → in_service req x'.
Proof.
  revert x. induction ls as [|l ls IH]; intros x Hx He; simplify_eq/=; [done|].
  destruct (serving_step l x) as [x1|] eqn:HS; [|done]. eapply IH; [|done]. by eapply in_service_step.
Qed.

(** ** Serving does not stop before the answer *)

(** The caller has the hub's answer to this request. *)
Definition caller_answered (req : http_request) x : Prop :=
  ∃ h t sid r, px_handlers (sy_proxy x) !! k = Some h ∧ sy_sessions x !! s = Some (true, t) ∧
    ORecv (ClientFrame sid (Some (CHttpRequest req))) ∈ w_log (t_hub t) ∧
    answer_to mfb cfg sc (w_log (t_hub t)) req r ∧ pr_pc h = PxDone (local_response_of sf hn hv be r).

Lemma done_answered req x h resp :
  in_service req x → px_handlers (sy_proxy x) !! k = Some h → pr_pc h = PxDone resp → caller_answered req x.
Proof.
  intros [Hr (t & Ht & Hl) _ (h0 & Hk & Hc & _)] Hk' Hpc. assert (h0 = h) as -> by congruence.
  unfold on_course in Hc. rewrite Hpc in Hc.
  destruct Hc as (sid & r & Hsent & Hrec & ->). destruct (exchange_reach _ Hr) as [Hi Hx].
  destruct (pi_sent _ _ _ _ _ (si_proxy _ _ _ _ _ _ _ _ _ Hi) _ _ _ _ Hsent) as (h1 & Hk1 & Hsid & _).
  destruct (received_past_send _ _ _ _ _ _ Hi Hx Hrec Hk1 Hsid) as (_ & v & req' & Hv & Hs' & Ha & Hans).
  destruct (so_same _ (xi_once _ Hx) _ _ _ _ _ _ _ Hsent Hs') as (_ & _ & ->).
  rewrite Ht in Hv. injection Hv as <-. by exists h, t, sid, r.
Qed.

Context (Hkind : sc_kind sc = Application) (Hcap : 0 < cap).

Definition can_serve x : Prop := ∃ l x', serving_step l x = Some x'.

(** The session's own steps go on under the proxy. *)
Lemma serve_tunnel x v t tl t' :
  sy_sessions x !! s = Some (v, t) → v = true → own_step mfb cfg sc ccfg cap tl t = Some t' →
  (px_counter (sy_proxy x) + 1 < u64_modulus)%N → can_serve x.
Proof.
  intros Hs -> HT Hn. apply own_step_Some in HT as (Hint & Hroom & HT).
  destruct (session_local true tl t) eqn:Hloc.
  - eexists (YTunnel s tl), _. unfold serving_step, serving_label, HttpTunnel.system_step.
    rewrite bool_decide_true by done. rewrite Hs, Hint, Hroom. simpl andb. cbv iota. by rewrite Hloc, HT.
  - destruct tl as [|[]| | | |]; try done. simpl in Hloc. destruct (t_down t) as [|[sid kd] down] eqn:Hd; [simpl in HT; by rewrite Hd in HT|].
    destruct kd as [[| | | | |r]|]; try done.
    eexists (YResponse s), _. unfold serving_step, serving_label, HttpTunnel.system_step. rewrite bool_decide_true by done.
    rewrite Hs, Hd. unfold proxy_step_nowrap. apply N.ltb_lt in Hn. rewrite Hn. simpl proxy_step. cbv iota. by rewrite HT.
Qed.

Lemma serve_tick x h :
  px_handlers (sy_proxy x) !! k = Some h → (px_counter (sy_proxy x) + 1 < u64_modulus)%N →
  proxy_local (PHandler k PTick) (sy_proxy x) = true →
  is_Some (handler_step sf hn hv be k h PTick (sy_proxy x)) → can_serve x.
Proof.
  intros Hk Hn Hl [w' HS]. eexists (YProxy (PHandler k PTick)), _.
  unfold serving_step, serving_label, HttpTunnel.system_step. rewrite bool_decide_true, Hl by done.
  unfold proxy_step_nowrap. apply N.ltb_lt in Hn. rewrite Hn. simpl proxy_step. rewrite Hk, HS. done.
Qed.

Lemma serve_send x h t q req sid :
  px_handlers (sy_proxy x) !! k = Some h → pr_pc h = PxSend req s sid → sy_sessions x !! s = Some (true, t) →
  px_sessions (sy_proxy x) !! s = Some q → chan_up q → chan_up (cw_hub_tx (t_client t)) →
  mpsc_queued (cw_hub_tx (t_client t)) = [] → (px_counter (sy_proxy x) + 1 < u64_modulus)%N → can_serve x.
Proof.
  intros Hk Hpc Hs Hq [Ha Hb] [Ha' Hb'] Hnil Hn. pose proof Hn as Hn'. apply N.ltb_lt in Hn'.
  destruct (mpsc_recv q) as [[f q']|] eqn:Hrv.
  - eexists (YProxy (PTake s)), _. unfold serving_step, serving_label, HttpTunnel.system_step.
    rewrite bool_decide_true by done. simpl proxy_local. unfold proxy_step_nowrap. rewrite Hn'. simpl proxy_step.
    by rewrite Hq, Hrv.
  - apply mpsc_recv_None in Hrv.
    destruct (mpsc_send_sent _ (client_http_request sid req) q) as (q1 & Hq1 & _); [done|by rewrite Hrv|].
    destruct (mpsc_send_sent _ (client_http_request sid req) (cw_hub_tx (t_client t))) as (tx & Htx & _);
      [done|by rewrite Hnil|].
    eexists (YSend k s), _. unfold serving_step, serving_label, HttpTunnel.system_step.
    rewrite !bool_decide_true by done. simpl andb. cbv iota. rewrite Hs, Hk, Hpc, Hq, Hq1, Htx.
    rewrite bool_decide_true by done. unfold proxy_step_nowrap. rewrite Hn'. simpl proxy_step. rewrite Hk.
    unfold handler_step. rewrite Hpc, Hq, Hq1. unfold tunnel_step, on_client. simpl. unfold hub_send. by rewrite Htx.
Qed.

Lemma serving_moves req x : in_service req x → caller_answered req x ∨ can_serve x.
Proof.
  intros Hx. pose proof Hx as [Hr (t & Ht & Hl) (q & Hq & Hup) (h & Hk & Hc & Hids)].
  assert (px_counter (sy_proxy x) + 1 < u64_modulus)%N as Hn by (unfold ids_left in Hids; destruct (pr_pc h); lia).
  destruct (live_moves mfb cfg sc ccfg cap Hkind Hcap t Hl) as [Hidle|(tl & t' & HT)];
    [|right; by eapply serve_tunnel].
  assert (∀ w', proxy_local (PHandler k PTick) (sy_proxy x) = true →
    handler_step sf hn hv be k h PTick (sy_proxy x) = Some w' → can_serve x) as Htick.
  { intros w' ? HS. by eapply serve_tick. }
  simpl in Htick. rewrite Hk in Htick. unfold handler_step, fetch_add1 in Htick. unfold on_course in Hc.
  destruct (pr_pc h) as [|req'|req' s'|req' s' sid|req' s' sid| |sid| |resp|] eqn:Hpc; try done.
  - right. destruct Hc as [_ Hs]. rewrite Hs in Htick. by eapply Htick.
  - right. by eapply Htick.
  - right. by eapply Htick.
  - right. destruct Hc as (-> & -> & _). destruct Hidle as (_ & Hci & _). eapply serve_send; try done.
    + apply (lv_client _ _ _ _ _ Hl).
    + apply (id_hub_tx _ Hci).
  - right. destruct Hc as [Hsent Hc]. destruct (exchange_reach _ Hr) as [Hi Hex].
    pose proof (si_proxy _ _ _ _ _ _ _ _ _ Hi) as Hw.
    destruct (xi_sent _ Hex _ _ _ _ Hsent) as (v & Hv & Hp). simplify_eq. simpl in Hp.
    destruct (idle_request_response _ _ _ _ t sid req Hl Hidle Hkind Hp) as (r & Hrecv & _).
    pose proof (xi_received _ Hex _ _ _ _ Ht Hrecv) as Hin.
    destruct (pi_live _ _ _ _ _ Hw k h sid Hk) as [_ [[Hpend _]|(_ & r' & Hpo & _)]]; [by rewrite Hpc| |].
    + by destruct (xi_pending _ Hex _ _ _ _ Hpend Hin).
    + rewrite Hpo in Htick. by eapply Htick.
  - left. by eapply done_answered.
Qed.

(** C3: every caller is answered.  Take a handler of the client's HTTP proxy that
    holds a request and the sender of a session of an application spoke that is up,
    in any state of the whole system.  A run of the steps that serve it - its own,
    without the timeout, those of the session on both sides with peers that accept
    or refuse, a kernel that answers or fails, and the transport - has at most
    [effort] steps; as long as the caller has not been answered one of them is
    possible; so every run that cannot be continued ends with the caller holding
    the hub's answer to this very request, and some continuation always does. *)
Theorem caller_is_answered req ls x x' :
  in_service req x → exec serving_step ls x = Some x' →
  length ls ≤ effort x ∧
  ((∀ l, serving_step l x' = None) → caller_answered req x') ∧
  ∃ ls2 x2, exec serving_step ls2 x' = Some x2 ∧ caller_answered req x2.
Proof.
  intros Hx He. pose proof (serving_bounded _ _ _ He). pose proof (in_service_exec _ _ _ _ Hx He) as Hx'.
  split_and!; [lia| |].
  - intros Hstuck. destruct (serving_moves _ _ Hx') as [?|(l & x2 & HS)]; [done|]. by rewrite Hstuck in HS.
  - clear Hx He H. remember (effort x') as n eqn:Hn. revert x' Hn Hx'. induction (lt_wf n) as [n _ IH].
    intros x' -> Hx'. destruct (serving_moves _ _ Hx') as [Ha|(l & x1 & HS)]; [by exists [], x'|].
    pose proof (serving_step_Some _ _ _ HS) as [_ Hby%effort_decreases].
    destruct (IH (effort x1) Hby x1 eq_refl) as (ls2 & x2 & He & Ha); [by eapply in_service_step|].
    exists (l :: ls2), x2. simpl. by rewrite HS.
Qed.
End serving.
End progress.
