(* ===== verification/HttpTunnelWitness.v ===== *)
(** * The HTTP proxy through the tunnel: a concrete run

    A session is opened, challenged and verified; a local caller's request crosses
    the tunnel, the hub calls the kernel, and the caller gets the kernel's answer. *)
From S2P Require Import Prelude RustStd SockAddr Proto ServerConfig Channel Oneshot ServerMetrics ServerHttp ServerSession SessionTrans SessionDelivery SessionStreams SessionInbound SessionHttp SessionReplies SessionWitness ServerHub ClientConfig ClientProxy ProxyInvariant ProxyWitness ClientSession ClientPumps ClientRoutes ClientStreams Tunnel TunnelStreams TunnelWeight TunnelIdle HttpTunnel HttpProgress.

Definition app_client_config : client_config :=
  ClientConfig (lit "hub:443") (lit "app-demo") (lit "secret") ∅ false 1 30 (Some (lit "127.0.0.1:8080")).

Definition app_request : local_request := LocalRequest (lit "POST") (Some (lit "/core/x")) (lit "/core/x") [].

Definition sys_step : system_label → system queue slot → option (system queue slot) :=
  system_step (HU:=ascii_tables) demo_method demo_config demo_spoke app_client_config
    demo_status demo_header demo_header demo_builder.

Definition session_run : list system_label :=
  [YOpen 0 [x00] 7 0; YProxy (PAttach 0); YTunnel 0 TDownTake; YTunnel 0 TDownRecv; YTunnel 0 (TClient (CMain ETick));
   YTunnel 0 TUpTake; YAuth 0].
Definition request_run : list system_label :=
  [YProxy (PRequest 0 app_request); YProxy (PHandler 0 (PBodyOk (lit "b"))); YProxy (PHandler 0 PTick);
   YProxy (PHandler 0 PTick); YProxy (PHandler 0 PTick); YSend 0 0; YTunnel 0 TUpTake; YTunnel 0 (TUpRecv 0)].
Definition kernel_run : list system_label :=
  [YTunnel 0 (THub (LHttp 0 Tick)); YTunnel 0 (THub (LHttp 0 (HttpSent 200 [])));
   YTunnel 0 (THub (LHttp 0 (HttpBodyOk (lit "hello")))); YTunnel 0 (THub (LHttp 0 Tick)); YTunnel 0 TDownTake;
   YResponse 0; YProxy (PHandler 0 PTick)].

Definition sys_start : system queue slot := System proxy_new ∅.
Definition sys_after (ls : list system_label) : system queue slot := default sys_start (exec sys_step ls sys_start).
Definition sys_end : system queue slot := sys_after (session_run ++ request_run ++ kernel_run).

Lemma sys_end_reach : reachable sys_step system_init sys_end.
Proof.
  apply (reachable_exec sys_step system_init (session_run ++ request_run ++ kernel_run) sys_start); [by apply reachable_init|].
  unfold sys_end, sys_after.
  assert ((if exec sys_step (session_run ++ request_run ++ kernel_run) sys_start is Some _ then true else false) = true) as He
    by (by vm_compute).
  by destruct (exec sys_step (session_run ++ request_run ++ kernel_run) sys_start).
Qed.

Definition sys_handler : handler slot := demo_handler (sy_proxy sys_end).

Lemma proxied_request_answered_witness :
  pr_pc sys_handler = PxDone (plain_response 200 (lit "hello")) ∧
  (own_answer (plain_response 200 (lit "hello")) ∨
   plain_response 200 (lit "hello") =
     local_response_of demo_status demo_header demo_header demo_builder session_ended_response ∨
   ∃ s v sid body r, sy_sessions sys_end !! s = Some v ∧
     ORecv (ClientFrame sid (Some (CHttpRequest (proxied_request app_request body)))) ∈ w_log (t_hub v.2) ∧
     plain_response 200 (lit "hello") = local_response_of demo_status demo_header demo_header demo_builder r).
Proof.
  assert (px_handlers (sy_proxy sys_end) !! 0 = Some sys_handler) as Hk by (vm_compute; reflexivity).
  assert (pr_pc sys_handler = PxDone (plain_response 200 (lit "hello"))) as Hpc by (vm_compute; reflexivity).
  assert (pr_req sys_handler = app_request) as Hreq by (vm_compute; reflexivity).
  split; [exact Hpc|].
  destruct (proxied_request_answered (HU:=ascii_tables) demo_method demo_config demo_spoke app_client_config
    demo_status demo_header demo_header demo_builder sys_end 0 sys_handler _ sys_end_reach Hk Hpc)
    as [Hown|[Hend|(s & v & sid & body & r & Hv & _ & Ha & _ & Hr)]].
  - left. exact Hown.
  - right. left. exact Hend.
  - right. right. rewrite Hreq in Ha. exists s, v, sid, body, r. exact (conj Hv (conj Ha Hr)).
Defined.

(** ** The same request, from the moment its handler has read it *)
Definition sys_asked : system queue slot := sys_after (session_run ++ take 2 request_run).
Definition sys_session (x : system queue slot) : tunnel queue :=
  match sy_sessions x !! 0 with
  | Some (_, t) => t
  | None => TunnelState (SessWorld (new_session [] (mpsc_channel 1)) 0 ∅ ∅ RvNext ∅ [])
              (ClientWorld (mpsc_channel 1) ∅ ∅ CmNext []) [] []
  end.
Definition asked_request : http_request := proxied_request app_request (lit "b").
Definition asked_handler : handler slot := demo_handler (sy_proxy sys_asked).

Lemma sys_asked_reach : reachable sys_step system_init sys_asked.
Proof.
  apply (reachable_exec sys_step system_init (session_run ++ take 2 request_run) sys_start); [by apply reachable_init|].
  unfold sys_asked, sys_after.
  assert ((if exec sys_step (session_run ++ take 2 request_run) sys_start is Some _ then true else false) = true) as He
    by (by vm_compute).
  by destruct (exec sys_step (session_run ++ take 2 request_run) sys_start).
Qed.

Lemma sys_asked_in_service :
  in_service (HU:=ascii_tables) demo_method demo_config demo_spoke app_client_config
    demo_status demo_header demo_header demo_builder 0 0 asked_request sys_asked.
Proof.
  assert (sy_sessions sys_asked !! 0 = Some (true, sys_session sys_asked)) as Hs by (vm_compute; reflexivity).
  split.
  - exact sys_asked_reach.
  - exists (sys_session sys_asked). split; [exact Hs|]. split.
    + exact (session_reachable (HU:=ascii_tables) demo_method demo_config demo_spoke app_client_config
        demo_status demo_header demo_header demo_builder sys_asked 0 (sys_session sys_asked) sys_asked_reach Hs).
    + unfold hub_live, chan_up. split_and!; [by vm_compute|by vm_compute|apply Nat.ltb_lt; by vm_compute|by vm_compute].
    + unfold client_live, chan_up. split_and!; [by vm_compute|apply Nat.ltb_lt; by vm_compute|].
      assert (cw_main (t_client (sys_session sys_asked)) = CmNext) as -> by (by vm_compute). done.
  - exists (default (mpsc_channel 1) (px_sessions (sy_proxy sys_asked) !! 0)).
    split; [vm_compute; reflexivity|]. split; [by vm_compute|apply Nat.ltb_lt; by vm_compute].
  - exists asked_handler. assert (pr_pc asked_handler = PxHub asked_request) as Hpc by (vm_compute; reflexivity).
    assert (px_hub_tx (sy_proxy sys_asked) = Some 0) as Hhub by (vm_compute; reflexivity).
    split; [vm_compute; reflexivity|]. unfold on_course, ids_left. rewrite Hpc. split; [exact (conj eq_refl Hhub)|].
    apply N.ltb_lt. vm_compute. reflexivity.
Qed.

Definition serve_demo : system_label → system queue slot → option (system queue slot) :=
  serving_step (HU:=ascii_tables) demo_method demo_config demo_spoke app_client_config
    demo_status demo_header demo_header demo_builder 128 0 0.

Lemma caller_is_answered_witness :
  (∃ x2, exec serve_demo (drop 2 request_run) sys_asked = Some x2) ∧
  length (drop 2 request_run) ≤ effort 0 0 sys_asked ∧
  ∃ ls2 x2, exec serve_demo ls2 sys_asked = Some x2 ∧
    caller_answered demo_method demo_config demo_spoke demo_status demo_header demo_header demo_builder
      0 0 asked_request x2.
Proof.
  assert (∃ x2, exec serve_demo (drop 2 request_run) sys_asked = Some x2) as Hrun.
  { destruct (exec serve_demo (drop 2 request_run) sys_asked) as [x2|] eqn:He; [by exists x2|exfalso].
    assert ((if exec serve_demo (drop 2 request_run) sys_asked is Some _ then true else false) = true) as H by (by vm_compute).
    by rewrite He in H. }
  split; [exact Hrun|]. destruct Hrun as [x2 Hx2].
  destruct (caller_is_answered (HU:=ascii_tables) demo_method demo_config demo_spoke app_client_config
    demo_status demo_header demo_header demo_builder 128 0 0 eq_refl ltac:(lia) asked_request
    (drop 2 request_run) sys_asked x2 sys_asked_in_service Hx2) as (Hlen & _ & ls2 & x3 & He & Ha).
  split; [exact Hlen|]. exists (drop 2 request_run ++ ls2), x3. split; [|exact Ha].
  rewrite exec_app. by rewrite Hx2.
Defined.
