(* ===== verification/ClientMain.v ===== *)
(** * tunnel-client: connecting and reconnecting

    Where and how a session connects ([run_session_impl] before the stream is up),
    the listener of the HTTP proxy, and the reconnect loop of [main].  Backoff durations are whole seconds, the age of
    a session nanoseconds; [Duration * 2] panics beyond [u64::MAX] seconds. *)
From S2P Require Import Prelude RustStd Proto ServerConfig Channel ClientConfig ClientSession ServerHub HubMetrics ServerMain.

(** ** The endpoint of a session *)
Definition session_uri (cfg : client_config) : bytes :=
  (if insecure cfg then lit "http" else lit "https") ++ lit "://" ++ hub_url cfg.

(** The name the hub's certificate is checked against. *)
Definition tls_domain (cfg : client_config) : option bytes :=
  if insecure cfg then None
  else Some (match rsplit_once x3a (hub_url cfg) with Some (h, _) => h | None => hub_url cfg end).

(** tonic's settings of the connection, as in [ServerMain]. *)
Definition client_transport : transport := Transport (4 * 1024 * 1024) (16 * 1024 * 1024) 30 20.

Record endpoint := Endpoint {
  ep_uri : bytes; ep_transport : transport; ep_keep_alive_while_idle : bool; ep_tls_domain : option bytes }.

(** The endpoint, or the error the session ends with at once.  [from_shared] and
    [tls_config] are tonic's verdicts on the URI and the name. *)
Definition build_endpoint (from_shared tls_config : bytes → result () bytes) (cfg : client_config)
    : result endpoint bytes :=
  let? _ := from_shared (session_uri cfg) in
  let ep := Endpoint (session_uri cfg) client_transport true in
  match tls_domain cfg with
  | None => Ok (ep None)
  | Some host => let? _ := tls_config host in Ok (ep (Some host))
  end.

(** ** The listener of the HTTP proxy *)

(** What binding the address answers, and what serving returned, if it did. *)
Record listener_env := ListenerEnv { le_bind : bytes → result () bytes; le_serve : option (result () bytes) }.

(** Running, or ended and logged. *)
Inductive http_listener := ListenerServing | ListenerEnded (res : result () bytes).

Definition run_http_proxy (le : listener_env) (listen : bytes) : http_listener :=
  match le_bind le listen with
  | Err e => ListenerEnded (Err e)
  | Ok _ => match le_serve le with None => ListenerServing | Some res => ListenerEnded res end
  end.

(** ** The reconnect loop *)
Definition nanos (secs : N) : N := secs * 10 ^ 9.
Arguments nanos : simpl never.

(** What [run_session] returned, and how long it ran. *)
Record session_end := SessionEnd { se_result : result () bytes; se_elapsed : N }.

Inductive loop_state :=
| Reconnecting (backoff : N) (slept : list N)     (* slept: one entry per sleep, oldest first *)
| LoopPanicked.

Definition duration_double (secs : N) : option N :=
  if (2 * secs <? u64_modulus)%N then Some (2 * secs)%N else None.

Arguments duration_double : simpl never.

(** One turn of the loop: the session, the sleep if it failed, the next backoff. *)
Definition reconnect_step (cfg : client_config) (e : session_end) (s : loop_state) : loop_state :=
  match s with
  | LoopPanicked => LoopPanicked
  | Reconnecting backoff slept =>
      match se_result e with
      | Ok _ => Reconnecting (backoff_min cfg) slept
      | Err _ =>
          let backoff := if (nanos 10 <=? se_elapsed e)%N then backoff_min cfg else backoff in
          match duration_double backoff with
          | Some d => Reconnecting (N.min (backoff_max cfg) d) (slept ++ [backoff])
          | None => LoopPanicked
          end
      end
  end.

Inductive client_process :=
| ClientExit1 (e : bytes)                           (* bad configuration *)
| ClientLoop (proxy : option (bytes * http_listener)) (s : loop_state).

(** The background task of [main], if KERNEL_PROXY_LISTEN is set. *)
Definition start_proxy (cfg : client_config) (le : listener_env) : option (bytes * http_listener) :=
  match kernel_proxy_listen cfg with
  | Some listen => Some (listen, run_http_proxy le listen)
  | None => None
  end.

(** [main], after the sessions [es]. *)
Definition client_main {HU : UnicodeTables} (env : env_vars) (le : listener_env) (es : list session_end) : client_process :=
  match load_client_config env with
  | Err e => ClientExit1 e
  | Ok cfg =>
      ClientLoop (start_proxy cfg le)
        (foldl (λ s e, reconnect_step cfg e s) (Reconnecting (backoff_min cfg) []) es)
  end.

(** ** The schedule the loop is meant to follow *)
Definition quick_failure (e : session_end) : bool :=
  negb (is_ok (se_result e)) && (se_elapsed e <? nanos 10)%N.

(** The length of the chain of failures [es] ends with; a failure after a long
    session starts a chain of its own. *)
Definition chain (es : list session_end) : nat :=
  foldl (λ n e, if is_ok (se_result e) then 0 else if quick_failure e then S n else 1) 0 es.

Definition backoff_after (n : nat) : N := N.min 30 (2 ^ N.of_nat n).

(** The sleeps of a run: before the [n]th reconnect of a chain, [min 30 2^(n-1)] seconds. *)
Fixpoint schedule (n : nat) (es : list session_end) : list N :=
  match es with
  | [] => []
  | e :: es' =>
      if is_ok (se_result e) then schedule 0 es'
      else
        let n' := if quick_failure e then S n else 1 in
        backoff_after (Nat.pred n') :: schedule n' es'
  end.

Section client_main_facts.
Context {HU : UnicodeTables}.

Lemma backoff_double n :
  duration_double (backoff_after n) = Some (2 * backoff_after n)%N ∧
  N.min 30 (2 * backoff_after n) = backoff_after (S n).
Proof.
  unfold duration_double, backoff_after. split.
  - rewrite (proj2 (N.ltb_lt _ _)); [done|]. unfold u64_modulus. lia.
  - rewrite Nat2N.inj_succ, N.pow_succ_r by lia. lia.
Qed.

Lemma reconnect_run cfg es : backoff_min cfg = 1%N → backoff_max cfg = 30%N → ∀ n slept,
  foldl (λ s e, reconnect_step cfg e s) (Reconnecting (backoff_after n) slept) es =
    Reconnecting (backoff_after (foldl (λ n e, if is_ok (se_result e) then 0
       else if quick_failure e then S n else 1) n es)) (slept ++ schedule n es).
Proof.
  intros Hmin Hmax. induction es as [|e es IH]; intros n slept; simpl; [by rewrite app_nil_r|].
  unfold quick_failure. rewrite Hmin. destruct (se_result e) as [u|err]; simpl; [apply (IH 0)|].
  rewrite Hmax.
  destruct (nanos 10 <=? se_elapsed e)%N eqn:Hle.
  - rewrite (proj2 (N.ltb_ge _ _)) by (by apply N.leb_le). destruct (backoff_double 0) as [Hd Hm].
    change (backoff_after 0) with 1%N in Hd, Hm. rewrite Hd, Hm, (IH 1). by rewrite <-(assoc_L (++)).
  - rewrite (proj2 (N.ltb_lt _ _)) by (by apply N.leb_gt). destruct (backoff_double n) as [-> ->].
    rewrite (IH (S n)). by rewrite <-(assoc_L (++)).
Qed.

Lemma reconnect_run_loaded env cfg le es :
  load_client_config env = Ok cfg →
  client_main env le es =
    ClientLoop (start_proxy cfg le) (Reconnecting (backoff_after (chain es)) (schedule 0 es)) ∧
  backoff_min cfg = 1%N ∧ backoff_max cfg = 30%N.
Proof.
  intros Hl. pose proof Hl as Hmm. unfold load_client_config in Hmm.
  apply result_bind_ok in Hmm as (m & _ & Hmm).
  assert (backoff_min cfg = 1%N ∧ backoff_max cfg = 30%N) as [Hmin Hmax].
  { destruct (_ || _ || _); [done|]. destruct (_ && _); [done|]. by injection Hmm as <-. }
  unfold client_main. rewrite Hl. split; [|done].
  rewrite Hmin. change 1%N with (backoff_after 0). by rewrite reconnect_run.
Qed.

(** C33: the reconnect schedule.  Whatever its sessions do, a client with a valid
    configuration neither panics nor stops reconnecting; it sleeps exactly once
    per failed session, for [min 30 2^(n-1)] seconds before the n-th reconnect of
    a chain of failures, and the chain starts again after a clean end or a session
    of ten seconds. *)
Theorem reconnect_schedule env cfg le es :
  load_client_config env = Ok cfg →
  client_main env le es =
    ClientLoop (start_proxy cfg le) (Reconnecting (backoff_after (chain es)) (schedule 0 es)) ∧
  Forall (λ s, 1 ≤ s ≤ 30)%N (schedule 0 es) ∧
  length (schedule 0 es) = length (filter (λ e, is_ok (se_result e) = false) es).
Proof.
  intros Hl. split; [by apply reconnect_run_loaded|split].
  - generalize 0. induction es as [|e es IH]; intros n; simpl; [constructor|].
    destruct (is_ok (se_result e)); [apply IH|]. constructor; [|apply IH]. unfold backoff_after.
    match goal with |- context [(2 ^ ?m)%N] => pose proof (N.pow_nonzero 2 m ltac:(done)) end. lia.
  - generalize 0. induction es as [|e es IH]; intros n; simpl; [done|].
    destruct (is_ok (se_result e)) eqn:He.
    + rewrite filter_cons_False by congruence. apply IH.
    + rewrite filter_cons_True by done. simpl. by rewrite IH.
Qed.

Lemma schedule_app es1 es2 n :
  schedule n (es1 ++ es2) = schedule n es1 ++ schedule (foldl (λ n e, if is_ok (se_result e) then 0
       else if quick_failure e then S n else 1) n es1) es2.
Proof.
  revert n. induction es1 as [|e es1 IH]; intros n; simpl; [done|].
  destruct (is_ok (se_result e)); [apply IH|]. simpl. by rewrite IH.
Qed.

(** No backoff after a clean end.  When the hub ends the stream - as it does on
    refusing the handshake - the frame loop returns [Ok], whatever the session did;
    and after any sessions, clean ends add no sleep at all: the client reconnects
    at once, however often this repeats. *)
Theorem clean_end_reconnects_at_once {chan} `{!MpscOps chan} env cfg le es n elapsed (w : client_world chan) :
  load_client_config env = Ok cfg → cw_main w = CmNext →
  main_step cfg EEnd w = Some (set_main (CmDone (Ok tt)) w) ∧
  ∀ b b' slept slept',
    client_main env le es = ClientLoop (start_proxy cfg le) (Reconnecting b slept) →
    client_main env le (es ++ replicate n (SessionEnd (Ok tt) elapsed)) =
      ClientLoop (start_proxy cfg le) (Reconnecting b' slept') →
    slept' = slept.
Proof.
  intros Hl Hm. split; [unfold main_step; by rewrite Hm|]. intros b b' slept slept'.
  destruct (reconnect_run_loaded env cfg le es Hl) as (-> & _).
  destruct (reconnect_run_loaded env cfg le (es ++ replicate n (SessionEnd (Ok tt) elapsed)) Hl) as (-> & _).
  intros [= _ <-] [= _ <-]. rewrite schedule_app.
  match goal with |- _ ++ schedule ?j _ = _ => generalize j as i end.
  clear. induction n as [|n IH]; intros i; simpl; [apply app_nil_r|apply IH].
Qed.

Lemma rsplit_once_last host port : x3a ∉ port → rsplit_once x3a (host ++ [x3a] ++ port) = Some (host, port).
Proof.
  intros Hp. unfold rsplit_once. rewrite !rev_app_distr. simpl. rewrite <-(assoc_L (++)). simpl.
  rewrite split_once_app by (by rewrite list_elem_of_In, <-in_rev, <-list_elem_of_In).
  by rewrite !rev_involutive.
Qed.

(** The endpoint: the certificate is checked against the host part of HUB_URL,
    the connection is encrypted unless TUNNEL_INSECURE asks otherwise, and both
    programs ask for the same windows and keep-alive. *)
Theorem session_endpoint from_shared tls_config cfg ep host port :
  hub_url cfg = host ++ [x3a] ++ port → x3a ∉ port → build_endpoint from_shared tls_config cfg = Ok ep →
  (insecure cfg = false → ep_tls_domain ep = Some host ∧ ep_uri ep = lit "https://" ++ host ++ [x3a] ++ port) ∧
  (insecure cfg = true → ep_tls_domain ep = None ∧ ep_uri ep = lit "http://" ++ host ++ [x3a] ++ port) ∧
  ep_transport ep = hub_transport.
Proof.
  intros Hu Hp. unfold build_endpoint, tls_domain, session_uri. rewrite Hu.
  rewrite rsplit_once_last by done.
  intros He. apply result_bind_ok in He as ([] & _ & He).
  destruct (insecure cfg); [|apply result_bind_ok in He as ([] & _ & He)]; injection He as <-; simpl;
    split_and!; try done; intros _; split; try done; by rewrite (assoc_L (++)).
Qed.

(** A HUB_URL that already has a scheme, as in the example deployment: the URI has
    two, and the certificate is checked against the scheme. *)
Theorem hub_url_with_scheme cfg host :
  insecure cfg = false → hub_url cfg = lit "https://" ++ host → x3a ∉ host →
  session_uri cfg = lit "https://https://" ++ host ∧ tls_domain cfg = Some (lit "https").
Proof.
  intros Hi Hu Hh. unfold session_uri, tls_domain. rewrite Hi, Hu. split; [done|].
  replace (lit "https://" ++ host) with (lit "https" ++ [x3a] ++ (lit "//" ++ host)) by done.
  rewrite rsplit_once_last; [done|]. rewrite elem_of_app. by intros [Hin%(bool_decide_pack _)|].
Qed.
End client_main_facts.

(** ** Witnesses *)
Definition failed (elapsed : N) : session_end := SessionEnd (Err (lit "refused")) elapsed.
Definition demo_listener : listener_env := ListenerEnv (λ _, Err (lit "in use")) None.
Definition demo_ends : list session_end :=
  [failed 5; failed 5; failed 5; failed (nanos 60); failed 5; SessionEnd (Ok tt) 5; failed 5].

Lemma reconnect_schedule_witness :
  schedule 0 demo_ends = [1; 2; 4; 1; 2; 1]%N ∧
  client_main (HU:=ascii_tables) demo_client_env demo_listener demo_ends =
    ClientLoop None (Reconnecting 2 [1; 2; 4; 1; 2; 1]%N).
Proof.
  split; [by vm_compute|].
  assert (load_client_config (HU:=ascii_tables) demo_client_env = Ok demo_client_config) as Hl by (by vm_compute).
  rewrite (proj1 (reconnect_schedule (HU:=ascii_tables) demo_client_env demo_client_config demo_listener demo_ends Hl)).
  by vm_compute.
Defined.

Lemma clean_end_reconnects_at_once_witness :
  main_step (HU:=ascii_tables) demo_client_config EEnd (ClientWorld (mpsc_channel (chan:=queue) 256) ∅ ∅ CmNext [])
    = Some (ClientWorld (mpsc_channel (chan:=queue) 256) ∅ ∅ (CmDone (Ok tt)) []).
Proof.
  apply (clean_end_reconnects_at_once (HU:=ascii_tables) demo_client_env demo_client_config demo_listener demo_ends 3 0
    (ClientWorld (mpsc_channel (chan:=queue) 256) ∅ ∅ CmNext [])); by vm_compute.
Defined.

Lemma session_endpoint_witness :
  ∃ ep, build_endpoint (λ _, Ok tt) (λ _, Ok tt) demo_client_config = Ok ep ∧ ep_tls_domain ep = Some (lit "hub").
Proof.
  exists (Endpoint (session_uri demo_client_config) client_transport true (Some (lit "hub"))). split; [by vm_compute|].
  apply (session_endpoint (λ _, Ok tt) (λ _, Ok tt) demo_client_config
    (Endpoint (session_uri demo_client_config) client_transport true (Some (lit "hub"))) (lit "hub") (lit "443"));
    [by vm_compute| |by vm_compute|by vm_compute].
  apply (bool_decide_unpack _). by vm_compute.
Defined.
