(* ===== verification/SysmlValidator.v ===== *)
(** * sysml-validator

    [hub/images/sysml-validator/src/main.rs]: the HTTP service that accepts a SysML
    text only when the syntax checker and the semantic validator both do.

    Parameters, all outside the repository: the syntax checker ([sysml::check_paths]),
    the validator ([SysmlEnvironment::compile_text]), serde_json's parser and printer,
    and [str::to_lowercase] beyond ASCII.  The file system and the request body are
    the environment of one request. *)
From S2P Require Import Prelude RustStd.

Definition MAX_BODY_BYTES : N := 2 * 1024 * 1024.

(** ** The types of the service *)
Record diagnostic := Diagnostic { dg_line : N; dg_column : N; dg_code : bytes; dg_message : bytes }.
Record stage_result := StageResult { st_ok : bool; st_diagnostics : list diagnostic }.
Record validate_response := ValidateResponse {
  vr_ok : bool;
  vr_syntax : stage_result;
  vr_semantic : stage_result;
  vr_elements : option N;
  vr_elapsed_ms : N;
  vr_tools : list (bytes * (bytes * bytes)) }.

(** ** The types of the libraries *)
Record syntax_diagnostic := SyntaxDiagnostic {
  sd_start_line : N; sd_start_column : N; sd_code : bytes; sd_message : bytes }.
Record syntax_report := SyntaxReport { rp_valid : bool; rp_files : list (list syntax_diagnostic) }.

(** [SysmlEnvironmentError]; the [{:?}] texts are the library's. *)
Inductive semantic_error :=
| SemDiagnostic (span : option (N * N)) (kind_debug message : bytes)
| SemOther (debug : bytes).

(** [str::to_lowercase]; on ASCII it is [to_ascii_lowercase]. *)
Class Lowercase := {
  to_lowercase : bytes → bytes;
  to_lowercase_ascii s : Forall (λ b, (byte_val b < 128)%N) s → to_lowercase s = to_ascii_lowercase s }.

(** What the file system answers to one request. *)
Record temp_files := TempFiles { tf_dir : result () bytes; tf_write : result () bytes }.

(** ** Requests and responses *)
Inductive http_method := Get | Post | OtherMethod (m : bytes).

(** A request body: the bytes that arrive, then the end or an error. *)
Record body_reader := BodyReader { br_data : bytes; br_end : result () bytes }.

Record request := Request { rq_method : http_method; rq_url : bytes; rq_body : body_reader }.

Inductive json_body := JsonError (msg : bytes) | JsonResult (r : validate_response).

Record response := Response { rs_status : N; rs_content_type : option bytes; rs_body : bytes }.

(** The environment of one request. *)
Record request_env := RequestEnv { re_files : temp_files; re_elapsed_ms : N }.

Definition tools : list (bytes * (bytes * bytes)) :=
  [(lit "syntax_checker", (lit "sysml2", lit "0.3.1")); (lit "validator", (lit "mercurio-sysml", lit "0.86.0"))].

Definition internal_error (code message : bytes) : stage_result :=
  StageResult false [Diagnostic 0 0 code message].

(** [reader.take(limit).read_to_end] *)
Definition read_limited (limit : N) (r : body_reader) : result bytes bytes :=
  if (limit <=? N.of_nat (length (br_data r)))%N then Ok (take (N.to_nat limit) (br_data r))
  else match br_end r with Ok _ => Ok (br_data r) | Err e => Err e end.

Definition listen_addr (env : bytes → option bytes) : bytes :=
  default (lit "0.0.0.0:8080") (env (lit "LISTEN_ADDR")).

Definition url_path (url : bytes) : bytes :=
  match split_on x3f url with p :: _ => p | [] => [] end.

Section validator.
Context {HL : Lowercase}.
Context (check_paths : bytes → result syntax_report bytes).        (* on a file with this content *)
Context (compile_text : bytes → result N semantic_error).          (* the number of elements *)
Context (json_from_slice : bytes → result bytes bytes).            (* the [content] field *)
Context (json_to_vec : json_body → option bytes).

Definition to_diagnostic (d : syntax_diagnostic) : diagnostic :=
  Diagnostic (sd_start_line d) (sd_start_column d) (sd_code d) (sd_message d).

Definition check_syntax (fs : temp_files) (content : bytes) : stage_result :=
  match tf_dir fs with
  | Err e => internal_error (lit "syntax.io") (lit "一時ディレクトリーを作れない: " ++ e)
  | Ok _ =>
      match tf_write fs with
      | Err e => internal_error (lit "syntax.io") (lit "一時ファイルに書けない: " ++ e)
      | Ok _ =>
          match check_paths content with
          | Ok report =>
              let diagnostics := to_diagnostic <$> mjoin (rp_files report) in
              StageResult (rp_valid report && bool_decide (diagnostics = [])) diagnostics
          | Err e => internal_error (lit "syntax.error") e
          end
      end
  end.

Definition semantic_diagnostic (e : semantic_error) : diagnostic :=
  match e with
  | SemDiagnostic span kind_debug message =>
      let '(line, column) := default (0, 0)%N span in
      Diagnostic line column (to_lowercase (lit "semantic." ++ kind_debug)) message
  | SemOther debug => Diagnostic 0 0 (lit "semantic.error") debug
  end.

Definition check_semantic (content : bytes) : stage_result * option N :=
  match compile_text content with
  | Ok elements => (StageResult true [], Some elements)
  | Err e => (StageResult false [semantic_diagnostic e], None)
  end.

Definition json_response (status : N) (body : json_body) : response :=
  Response status (Some (lit "application/json; charset=utf-8"))
    (default ([x7b; x22] ++ lit "ok" ++ [x22] ++ lit ":false}") (json_to_vec body)).

(** The body of POST /validate, read and parsed. *)
Definition parse_body (r : body_reader) : result bytes bytes :=
  match read_limited (MAX_BODY_BYTES + 1) r with
  | Err e => Err (lit "本文を読めない: " ++ e)
  | Ok raw =>
      if (MAX_BODY_BYTES <? N.of_nat (length raw))%N
      then Err (lit "本文が大きすぎる (上限 " ++ show_N MAX_BODY_BYTES ++ lit " バイト)")
      else map_err (λ e, lit "JSON として読めない: " ++ e) (json_from_slice raw)
  end.

Definition validate (e : request_env) (content : bytes) : validate_response :=
  let syntax := check_syntax (re_files e) content in
  let '(semantic, elements) := check_semantic content in
  ValidateResponse (st_ok syntax && st_ok semantic) syntax semantic elements (re_elapsed_ms e) tools.

(** One turn of the server loop: every request gets exactly one response. *)
Definition handle_request (e : request_env) (r : request) : response :=
  let path := url_path (rq_url r) in
  match rq_method r with
  | Get =>
      if bool_decide (path = lit "/healthz") then Response 200 None (lit "ok")
      else Response 404 None (lit "not found")
  | Post =>
      if bool_decide (path = lit "/validate") then
        match parse_body (rq_body r) with
        | Err msg => json_response 400 (JsonError msg)
        | Ok content => json_response 200 (JsonResult (validate e content))
        end
      else Response 404 None (lit "not found")
  | OtherMethod _ => Response 404 None (lit "not found")
  end.

(** The server loop: the requests in the order they arrive. *)
Definition serve (rs : list (request_env * request)) : list response :=
  (λ er : request_env * request, handle_request er.1 er.2) <$> rs.

(** [main]: the process panics when the metamodel does not load or the address
    cannot be bound (the texts carry the [Debug] form of the error), and otherwise
    answers the requests. *)
Inductive validator_process :=
| ValidatorPanics (message : bytes)
| ValidatorServes (addr : bytes) (responses : list response).

Definition validator_main (env : bytes → option bytes) (latest_metamodel : result () bytes)
    (bind : bytes → result () bytes) (rs : list (request_env * request)) : validator_process :=
  let addr := listen_addr env in
  match latest_metamodel with
  | Err e => ValidatorPanics (lit "SysML 環境の初期化に失敗: " ++ e)
  | Ok _ =>
      match bind addr with
      | Err e => ValidatorPanics (lit "待ち受けに失敗: " ++ e)
      | Ok _ => ValidatorServes addr (serve rs)
      end
  end.

(** A process that serves gives each request its answer, in order and unaffected by
    the requests before it. *)
Lemma validator_answers_each env metamodel bind rs addr responses :
  validator_main env metamodel bind rs = ValidatorServes addr responses →
  addr = listen_addr env ∧ length responses = length rs ∧
  ∀ i e r, rs !! i = Some (e, r) → responses !! i = Some (handle_request e r).
Proof.
  unfold validator_main. destruct metamodel; [|done]. destruct (bind _); [|done]. intros [= <- <-].
  split_and!; [done|apply length_fmap|]. intros i e r Hi. unfold serve. by rewrite list_lookup_fmap, Hi.
Qed.

(** ** Properties *)
Lemma check_syntax_ok fs content :
  st_ok (check_syntax fs content) = true ↔
  is_ok (tf_dir fs) = true ∧ is_ok (tf_write fs) = true ∧
  ∃ report, check_paths content = Ok report ∧ rp_valid report = true ∧ Forall (λ f, f = []) (rp_files report).
Proof.
  unfold check_syntax. destruct (tf_dir fs), (tf_write fs); simpl; try naive_solver.
  destruct (check_paths content) as [report|e]; simpl; [|naive_solver].
  rewrite andb_true_iff, bool_decide_eq_true. split.
  - intros [Hv Hd]. split_and!; [done..|]. exists report. split_and!; [done..|].
    apply fmap_nil_inv in Hd. by apply join_nil.
  - intros (_ & _ & r & [= <-] & Hv & Hf). split; [done|]. apply join_nil in Hf. by rewrite Hf.
Qed.

Lemma check_semantic_ok content :
  st_ok (check_semantic content).1 = true ↔ ∃ n, compile_text content = Ok n.
Proof. unfold check_semantic. destruct (compile_text content); naive_solver. Qed.

(** C31: the gate.  A text passes exactly when the syntax checker could be run on it,
    reported it valid without a single diagnostic in any file, and the validator
    compiled it; a temporary-file or tool failure never passes. *)
Theorem validate_ok_iff e content :
  vr_ok (validate e content) = true ↔
  is_ok (tf_dir (re_files e)) = true ∧ is_ok (tf_write (re_files e)) = true ∧
  (∃ report, check_paths content = Ok report ∧ rp_valid report = true ∧ Forall (λ f, f = []) (rp_files report)) ∧
  ∃ n, compile_text content = Ok n ∧ vr_elements (validate e content) = Some n.
Proof.
  unfold validate. pose proof (check_syntax_ok (re_files e) content) as Hs.
  pose proof (check_semantic_ok content) as Hc. unfold check_semantic in *.
  destruct (compile_text content) as [n|err]; simpl in *; rewrite andb_true_iff, Hs; naive_solver.
Qed.

(** What a refused text is told: the diagnostics of the syntax stage are those
    of the checker, file by file and in order; a refusal by the validator carries
    exactly one diagnostic, at its span or at 0:0, with a code in lower case. *)
Theorem refusal_diagnostics e content report span kind message :
  tf_dir (re_files e) = Ok tt → tf_write (re_files e) = Ok tt → check_paths content = Ok report →
  compile_text content = Err (SemDiagnostic span kind message) →
  Forall (λ b, (byte_val b < 128)%N) kind →
  let r := validate e content in
  vr_ok r = false ∧ vr_elements r = None ∧
  st_diagnostics (vr_syntax r) = mjoin ((λ f, to_diagnostic <$> f) <$> rp_files report) ∧
  st_diagnostics (vr_semantic r) =
    [Diagnostic (default (0, 0)%N span).1 (default (0, 0)%N span).2
       (lit "semantic." ++ to_ascii_lowercase kind) message].
Proof.
  intros Hd Hw Hp Hc Hk. unfold validate, check_semantic, check_syntax. rewrite Hd, Hw, Hp, Hc.
  cbn [vr_ok vr_elements vr_syntax vr_semantic st_ok st_diagnostics]. split_and!; [by rewrite andb_false_r|done| |].
  - induction (rp_files report) as [|f fs IH]; simpl; [done|]. by rewrite fmap_app, IH.
  - unfold semantic_diagnostic. rewrite to_lowercase_ascii.
    + unfold to_ascii_lowercase. rewrite fmap_app. by destruct span as [[l c]|].
    + apply Forall_app. split; [by repeat constructor|done].
Qed.

Lemma read_limited_ok limit r raw :
  read_limited limit r = Ok raw →
  raw `prefix_of` br_data r ∧ (N.of_nat (length raw) < limit → br_end r = Ok tt ∧ raw = br_data r)%N.
Proof.
  unfold read_limited. destruct (_ <=? _)%N eqn:Hl; [apply N.leb_le in Hl|apply N.leb_gt in Hl].
  - intros [= <-]. split; [apply prefix_take|]. rewrite length_take. lia.
  - destruct (br_end r) as [[]|]; intros; simplify_eq. done.
Qed.

(** C32: the size limit.  A body is parsed only when it arrived completely and is at
    most two mebibytes long; a longer one is refused without reading the rest,
    whatever it holds and however the connection ends. *)
Theorem body_limit r :
  (∀ content, parse_body r = Ok content →
     json_from_slice (br_data r) = Ok content ∧ br_end r = Ok tt ∧
     (N.of_nat (length (br_data r)) ≤ MAX_BODY_BYTES)%N) ∧
  ((MAX_BODY_BYTES < N.of_nat (length (br_data r)))%N →
     parse_body r = Err (lit "本文が大きすぎる (上限 2097152 バイト)")).
Proof.
  unfold parse_body. split.
  - intros content H. destruct (read_limited _ r) as [raw|e] eqn:Hr; [|done].
    destruct (_ <? _)%N eqn:Hl; [done|]. apply N.ltb_ge in Hl.
    destruct (read_limited_ok _ _ _ Hr) as [_ Hin]. destruct Hin as [He ->]; [lia|].
    destruct (json_from_slice (br_data r)) eqn:Hj; simplify_eq/=. done.
  - intros Hl. unfold read_limited. rewrite (proj2 (N.leb_le _ _)) by lia.
    rewrite (proj2 (N.ltb_lt _ _)); [reflexivity|]. rewrite length_take. lia.
Qed.

(** The routes.  The query string is ignored; the status is 200 for a health
    check and for every validated text, passing or not, 400 exactly for a POST to
    /validate without a readable body, and 404 for anything else. *)
Theorem routes_and_statuses e m path q body :
  x3f ∉ path →
  let r := handle_request e (Request m (path ++ q) body) in
  (q = [] ∨ hd_error q = Some x3f) →
  (rs_status r = 200%N ↔ m = Get ∧ path = lit "/healthz" ∨
     m = Post ∧ path = lit "/validate" ∧ is_ok (parse_body body) = true) ∧
  (rs_status r = 400%N ↔ m = Post ∧ path = lit "/validate" ∧ is_ok (parse_body body) = false) ∧
  (rs_status r = 200 ∨ rs_status r = 400 ∨ rs_status r = 404)%N.
Proof.
  intros Hp r Hq.
  assert (url_path (path ++ q) = path) as Hu.
  { unfold url_path. destruct Hq as [->|Hq]; [by rewrite app_nil_r, split_on_none|].
    destruct q as [|c q]; [done|]. injection Hq as ->. by rewrite split_on_app. }
  unfold r, handle_request. cbn [rq_method rq_url rq_body]. rewrite Hu. clear r Hu Hq Hp.
  destruct m; repeat case_bool_decide; simpl; try (destruct (parse_body body)); simpl; naive_solver.
Qed.
End validator.

(** ** Witnesses *)
Definition ascii_lower (b : byte) : byte :=
  if (byte_val b <? 128)%N then byte_to_ascii_lowercase b else b.

Program Definition demo_lowercase : Lowercase := {| to_lowercase s := ascii_lower <$> s |}.
Next Obligation.
  intros s Hs. unfold to_ascii_lowercase. apply Forall_fmap_ext_1. eapply Forall_impl; [exact Hs|].
  intros b Hb. unfold ascii_lower. by rewrite (proj2 (N.ltb_lt _ _) Hb).
Qed.

(** A checker that wants a braced text, a validator that wants it longer than two
    bytes, and a parser that takes the body as the content. *)
Definition demo_check (content : bytes) : result syntax_report bytes :=
  Ok (if bool_decide (hd_error content = Some x7b) then SyntaxReport true [[]]
      else SyntaxReport false [[SyntaxDiagnostic 1 1 (lit "E1") (lit "expected a brace")]]).
Definition demo_compile (content : bytes) : result N semantic_error :=
  if bool_decide (length content ≤ 2) then Err (SemDiagnostic (Some (3, 4)%N) (lit "Resolve") (lit "unknown name"))
  else Ok 5%N.
Definition demo_slice (raw : bytes) : result bytes bytes := Ok raw.
Definition demo_vec (_ : json_body) : option bytes := None.
Definition demo_env : request_env := RequestEnv (TempFiles (Ok tt) (Ok tt)) 1.
Definition demo_reader (s : bytes) : body_reader := BodyReader s (Ok tt).

Lemma refusal_diagnostics_witness :
  st_diagnostics (vr_semantic (validate (HL:=demo_lowercase) demo_check demo_compile demo_env (lit "x"))) =
    [Diagnostic 3 4 (lit "semantic.resolve") (lit "unknown name")].
Proof.
  apply (refusal_diagnostics (HL:=demo_lowercase) demo_check demo_compile demo_env (lit "x")
    (SyntaxReport false [[SyntaxDiagnostic 1 1 (lit "E1") (lit "expected a brace")]])
    (Some (3, 4)%N) (lit "Resolve") (lit "unknown name")); [done|done|by vm_compute|by vm_compute|].
  by repeat constructor.
Defined.

Lemma body_limit_witness : parse_body demo_slice (demo_reader (lit "{a}")) = Ok (lit "{a}") ∧ br_end (demo_reader (lit "{a}")) = Ok tt.
Proof.
  split; [by vm_compute|]. apply (proj1 (body_limit demo_slice (demo_reader (lit "{a}"))) (lit "{a}")). by vm_compute.
Defined.

Lemma routes_and_statuses_witness :
  rs_status (handle_request (HL:=demo_lowercase) demo_check demo_compile demo_slice demo_vec demo_env
    (Request Post (lit "/validate" ++ lit "?x=1") (demo_reader (lit "{a}")))) = 200%N.
Proof.
  apply (routes_and_statuses (HL:=demo_lowercase) demo_check demo_compile demo_slice demo_vec demo_env Post
    (lit "/validate") (lit "?x=1") (demo_reader (lit "{a}"))).
  - apply (bool_decide_unpack _). by vm_compute.
  - by right.
  - right. split_and!; [done|done|by vm_compute].
Defined.
